(* ===== verification/_CoqProject ===== *)
-Q . S2P
Prelude.v
Machine.v
Heap.v
Float64.v
Float32.v
JsonValue.v
JsonOrder.v
Adapters.v
BinaryWriter.v
BinaryReader.v
BinaryRoundTrip.v
BinaryTotal.v
Serializer.v
SerializerSpec.v
Lexer.v
Parser.v
Numeral.v
Utf8.v
LexerTotal.v
ParserTotal.v
AcceptParse.v
LexerReads.v
TextRoundTrip.v
JsonTheorems.v
CLib.v
Libevent.v
Proxy.v
HelloWorld.v
EchoServer.v
HttpClient.v
HttpServers.v
Dns.v
Demos.v
OpenSsl.v
OpenSslSetup.v
JsonAccess.v
JsonIterators.v
JsonPointer.v
PointerText.v
JsonModifiers.v
JsonStorage.v
StorageSpec.v
StorageRefines.v
StorageElements.v
StorageRanges.v
StorageMembers.v
StorageProgram.v
JsonConvert.v
JsonTraits.v
JsonTest.v
JsonPatch.v
PatchDiff.v
JsonTyped.v
Flatten.v
