(* ===== verification/Prelude.v ===== *)
(** * A verification of linux_pro

    The repository holds small network programs on libevent (libevent_t/) and
    OpenSSL (openssl_t/), and a JSON library in a single header (json/json.hpp,
    "JSON for Modern C++" 2.1.1, with a test program).  This development
    translates the JSON library and the programs into functions and proves what
    makes them correct.  Paths below are relative to src/.

    ** The library json/json.hpp

    The header has layers, and a file (or two) models each one:

    - values: [JsonValue] has the type tag [value_t], the value [json], the
      exceptions with their ids and texts, [std::map] as an ordered list of
      members, [operator==], and the invariant [json_wf]; [Float64] the doubles
      (bit patterns, with exact [strtod] and ["%.15g"]); [Machine] what [memcpy]
      sees of an integer;
    - input and output: [Adapters] has the virtual interfaces
      [input_adapter_protocol] and [output_adapter_protocol] as classes, their
      contracts as the classes [InputAdapter] and [OutputAdapter], and the
      stream, buffer, vector and string adapters as instances.  All the clients
      below are proved against the contracts;
    - text input: [Lexer] ([scan], [scan_string], [scan_number]) and [Parser]
      ([parse], [parse_internal], [accept], the callback);
    - text output: [Serializer] ([dump], [dump_escaped], [dump_integer],
      [dump_float]);
    - binary formats: [BinaryWriter] and [BinaryReader] (CBOR and MessagePack);
    - access: [JsonAccess] ([at], [operator[]], [erase], [push_back], [insert],
      [update]), [JsonIterators] (iterators, reverse iterators, the loops over
      them), [JsonModifiers] (constructors, lookup, and the modifiers that take
      iterators), [JsonPointer] (the class [json_pointer], [flatten],
      [unflatten]) and [JsonPatch] ([patch], [diff]);
    - comparison and conversion: [JsonOrder] ([operator<]) and [JsonConvert]
      ([to_json], [from_json], [get_ptr], [get_ref], for nested containers,
      tuples, enumerations and [float], whose rounding is in [Float32]);
      [JsonTraits] has C++ types as data, the type traits as boolean functions
      on them, and the overload resolution that picks a conversion;
    - storage: [JsonStorage] has the union [json_value] and the objects it
      points to as cells and blocks of a heap that may be full ([Heap]), and the
      constructors, the destructor, copying, moving, assignment, [swap] and
      modifiers as code on that heap; [StorageElements] adds references to
      elements, [operator[]], [emplace], [insert] and [update]; [StorageRanges]
      the insertion of copies and ranges as [std::vector] does it, [erase] with
      iterators and [swap] with containers; [StorageMembers] the constructor
      from iterators, and [insert] and [update] of ranges of members;
    - [JsonTest] is the test program jsonTest.cpp, composed of all these.

    An object with state (a lexer, a parser, a reader, a serializer) is a record,
    and a member function is a computation in [M] below: it takes the record and
    returns a result with the new record, or throws.  Integers are [Z] with the
    conversions of the code written out ([uwrap], [swrap]); strings are lists of
    bytes.  A failed [assert] and an access outside a buffer are values of the
    exception type, so that a proof that a function returns excludes them.

    The theorems about the library:

    - round trips: [parse] after [dump], [from_cbor] after [to_cbor],
      [from_msgpack] after [to_msgpack], [patch] after [diff], [unflatten] after
      [flatten], [split] after [to_string] of pointers (proofs in
      [TextRoundTrip], [BinaryRoundTrip], [PatchDiff], [Flatten],
      [PointerText]);
    - every input: [parse], [accept], [scan], [from_cbor] and [from_msgpack]
      finish, throw only their documented exceptions, fail no assertion, and
      return well-formed values ([LexerTotal], [ParserTotal], [BinaryTotal]);
      [accept] is true exactly where [parse] succeeds ([AcceptParse]);
    - refinement: [write_cbor] and [write_msgpack] write the formats, [dump] the
      text, each given as a plain function ([BinaryWriter], [SerializerSpec]);
    - types: every modifier keeps the invariant of values, whatever iterators it
      is given ([JsonTyped]); conversion to JSON and back is the identity for all
      nested C++ types ([JsonConvert]); the type traits never leave a call of
      [to_json] or [from_json] ambiguous, and select exactly the conversions of
      [JsonConvert] ([JsonTraits]);
    - storage: [StorageSpec], [StorageRefines], [StorageElements],
      [StorageRanges] and [StorageMembers] have a separation-logic triple for
      each operation on the heap, and [StorageProgram] composes them: a program over any number of variables
      computes what the same program computes on values, uses no freed block and
      frees none twice, and leaves no block when its variables are destroyed,
      wherever an allocation fails (an operation that throws has no effect,
      except that [update] and the insertion of several elements may have done a
      part of their work); the triples bound the allocations of each operation.
      The places that break this (a modifier that makes a null value an array, a
      constructor that throws after an allocation, the parser's discarded
      values, an insertion that loses elements or copies an array it has begun
      to move) are theorems too;
    - order and iteration: [operator<] is a total order on the values without NaN
      and with integers up to 53 bits ([JsonOrder]); the loops over a value end
      and see each element once ([JsonIterators]);
    - limits: theorems that state where the code departs from its documentation,
      such as a comparison that takes 2^64-1 for -1, or a pointer that reads
      outside an array.

    Most of them are stated in [JsonTheorems]; those on pointers and patches in
    the files of their proofs.

    ** The programs of libevent_t/

    libevent is not part of the repository: [Libevent] has the functions the
    programs call as a class of operations, what its documentation promises
    about them as a class of laws, and an implementation of both that runs the
    examples.  A program is a set of callbacks, and its executions are the
    sequences of callbacks libevent may invoke (an inductive step relation).

    - [Proxy] (proxy.cpp): [accept_cb], [readcb], [drained_writecb], [eventcb],
      [close_on_finished_writecb].  Invariants over the reachable states: no
      callback uses a freed bufferevent, reading stops only while a drained
      callback is pending, and no byte received is lost when a connection
      closes.
    - [HelloWorld] (helloworld.cpp): [listener_cb], [conn_writecb],
      [conn_eventcb].
    - [EchoServer] (test.cpp): [readcb], [drained_writecb], [listener_cb]; what is
      sent back is always the beginning of what was received.
    - [HttpClient] (http-client.cpp): the request that [start_url_request] assembles,
      and the connections kept over redirects.
    - [HttpServers] (http-server-a.cpp, MgrHttpServer.cpp, http-server.cpp): the
      request handlers; exactly which requests overflow the arrays of the first.
    - [Dns] (DNSTOIP.cpp): the callbacks, the options, the lookups.
    - [Demos] (time.cpp, signal.cpp, fifo.cpp, writeFifo.cpp).

    [CLib] has the functions of the C library on character arrays that these
    programs use; a write or a search that leaves its array is a fault.

    ** The programs of openssl_t/

    [OpenSsl]: the relay of ssl_man_in_middle.cpp, the sessions of
    openssl-server.cpp and openssl-cli.cpp, and md5.cpp, dsa_signed.cpp and
    rsa_crypto.cpp.  [OpenSslSetup]: what happens around them, the main
    functions with the sockets, contexts, keys and certificates they create, as
    histories of calls, and rsa_keygen.cpp.  What OpenSSL and the system return
    are inputs; digests, signatures and encryption are parameters.

    ** Fuel

    Loops whose length the input decides take fuel and return [NoFuel] when it
    is used up.  The public functions pass one unit more than the length of the
    input, and the theorems on every input prove that this is enough: the result
    is never [NoFuel].  On the heap, the destructor and the copy constructor
    take one unit more than the number of blocks: each level of nesting is a
    block of its own, so the triples prove this enough as well.  The template
    [make_index_sequence] halves its argument, which is fuel enough for itself.

    ** What is not modelled

    Of json.hpp: on the heap, the memory inside a vector, a map or a string (a
    container is one block, its growth is counted as one allocation, and whether
    a vector has room for new elements is an argument); programs on the heap do
    not insert initializer lists and do not swap with containers, for which there
    are triples.  Of the type traits: user-defined types with conversions of their
    own; whether [std::string] can be made of [json] is an argument.  Of the
    programs: what they print.  inc/ holds copies of system headers and of
    spdlog, which no program calls; of these, only the insertion functions of
    [std::vector] and [std::map] are modelled. *)

(** This file: results of C++ code, machine integers, bytes, and the automation
    the other files share. *)

From stdpp Require Export prelude strings list sorting.
From Stdlib Require Export ZArith Lia.

#[global] Open Scope Z_scope.

(** * Results of C++ code

    A C++ function either returns, throws, or (for a loop translated with
    fuel) has not finished within the fuel it was given. *)

Inductive res (E A : Type) : Type :=
  | Ok (a : A)
  | Throw (e : E)
  | NoFuel.
Arguments Ok {E A} a.
Arguments Throw {E A} e.
Arguments NoFuel {E A}.

#[global] Instance res_ret {E} : MRet (res E) := λ A a, Ok a.
#[global] Instance res_bind {E} : MBind (res E) := λ A B f m,
  match m with
  | Ok a => f a
  | Throw e => Throw e
  | NoFuel => NoFuel
  end.
#[global] Instance res_fmap {E} : FMap (res E) := λ A B f m,
  match m with
  | Ok a => Ok (f a)
  | Throw e => Throw e
  | NoFuel => NoFuel
  end.

(** Code that updates an object of type [S] and may throw. *)
Definition M (E S A : Type) : Type := S → res E (A * S).

#[global] Instance M_ret {E S} : MRet (M E S) := λ A a s, Ok (a, s).
#[global] Instance M_bind {E S} : MBind (M E S) := λ A B f m s,
  match m s with
  | Ok (a, s) => f a s
  | Throw e => Throw e
  | NoFuel => NoFuel
  end.

Definition throw {E S A} (e : E) : M E S A := λ _, Throw e.
Definition no_fuel {E S A} : M E S A := λ _, NoFuel.
(** Read a field of the object. *)
Definition gets {E S A} (f : S → A) : M E S A := λ s, Ok (f s, s).

(** The computation finished, by a value or by an exception. *)
Definition finished {E A} (m : res E A) : Prop := m ≠ NoFuel.

Lemma bind_Ok_inv {E A B} (m : res E A) (f : A → res E B) b :
  m ≫= f = Ok b → ∃ a, m = Ok a ∧ f a = Ok b.
Proof. destruct m; simpl; intros; simplify_eq; eauto. Qed.

Lemma bind_finished {E A B} (m : res E A) (f : A → res E B) :
  finished m → (∀ a, m = Ok a → finished (f a)) → finished (m ≫= f).
Proof. unfold finished. destruct m; simpl; intros Hm Hf; naive_solver. Qed.

(** Running a bind whose first part is known. *)
Lemma M_bind_Ok {E S A B} (m : M E S A) (f : A → M E S B) s a s' :
  m s = Ok (a, s') → (m ≫= f) s = f a s'.
Proof. intros H. unfold mbind, M_bind. by rewrite H. Qed.

Lemma M_bind_Throw {E S A B} (m : M E S A) (f : A → M E S B) s e :
  m s = Throw e → (m ≫= f) s = Throw e.
Proof. intros H. unfold mbind, M_bind. by rewrite H. Qed.

Lemma M_bind_Ok_inv {E S A B} (m : M E S A) (f : A → M E S B) s r :
  (m ≫= f) s = Ok r → ∃ a s', m s = Ok (a, s') ∧ f a s' = Ok r.
Proof.
  unfold mbind, M_bind. destruct (m s) as [[a s']| |] eqn:E1; intros; simplify_eq. eauto.
Qed.

Lemma M_bind_assoc {E S A B C} (m : M E S A) (f : A → M E S B) (g : B → M E S C) s :
  ((m ≫= f) ≫= g) s = (m ≫= λ x, f x ≫= g) s.
Proof. unfold mbind, M_bind. by destruct (m s) as [[]| |]. Qed.

(** Step through a bind of the goal with a known first result. *)
Ltac mstep H := erewrite M_bind_Ok by (eapply H; eauto).

(** Total correctness with allowed exceptions: [m] finishes on [s], an
    exception it throws satisfies [X], and a result satisfies [Q]. *)
Definition wp {E S A} (X : E → Prop) (m : M E S A) (Q : A → S → Prop) (s : S) : Prop :=
  match m s with
  | Ok (a, s') => Q a s'
  | Throw e => X e
  | NoFuel => False
  end.

Lemma wp_bind {E S A B} X (m : M E S A) (f : A → M E S B) Q s :
  wp X m (λ a, wp X (f a) Q) s → wp X (m ≫= f) Q s.
Proof. unfold wp, mbind, M_bind. destruct (m s) as [[a s']| |]; auto. Qed.

Lemma wp_mono {E S A} X (m : M E S A) (Q Q' : A → S → Prop) s :
  wp X m Q s → (∀ a s', Q a s' → Q' a s') → wp X m Q' s.
Proof. unfold wp. destruct (m s) as [[a s']| |]; auto. Qed.

Lemma wp_ret {E S A} (X : E → Prop) (a : A) (Q : A → S → Prop) s : Q a s → wp X (mret a) Q s.
Proof. done. Qed.

Lemma wp_gets {E S A} (X : E → Prop) (f : S → A) (Q : A → S → Prop) s :
  Q (f s) s → wp X (gets f) Q s.
Proof. done. Qed.

Lemma wp_finished {E S A} X (m : M E S A) Q s : wp X m Q s → finished (m s).
Proof. unfold wp, finished. destruct (m s) as [[a s']| |]; naive_solver. Qed.

Lemma wp_Ok {E S A} X (m : M E S A) Q s a s' : wp X m Q s → m s = Ok (a, s') → Q a s'.
Proof. unfold wp. intros H E1. by rewrite E1 in H. Qed.

Lemma wp_Throw {E S A} X (m : M E S A) Q s e : wp X m Q s → m s = Throw e → X e.
Proof. unfold wp. intros H E1. by rewrite E1 in H. Qed.

(** * Machine integers

    An integer of width [w] is a [Z] in its range; [uwrap] and [swrap] are the
    conversions a C++ [static_cast] to an unsigned or signed type performs. *)

Definition uwrap (w z : Z) : Z := z mod 2 ^ w.

Definition swrap (w z : Z) : Z :=
  let u := z mod 2 ^ w in
  if u <? 2 ^ (w - 1) then u else u - 2 ^ w.

Definition in_u (w z : Z) : Prop := 0 ≤ z < 2 ^ w.
Definition in_s (w z : Z) : Prop := - 2 ^ (w - 1) ≤ z < 2 ^ (w - 1).

#[global] Instance in_u_dec w z : Decision (in_u w z).
Proof. unfold in_u. apply _. Defined.
#[global] Instance in_s_dec w z : Decision (in_s w z).
Proof. unfold in_s. apply _. Defined.

(** [lia] after turning the boolean comparisons of the code into
    propositions. *)
Ltac zbool :=
  repeat match goal with
  | H : (_ && _) = true |- _ => apply andb_true_iff in H; destruct H
  | H : (_ || _) = false |- _ => apply orb_false_iff in H; destruct H
  | H : (_ <=? _) = true |- _ => apply Z.leb_le in H
  | H : (_ <=? _) = false |- _ => apply Z.leb_gt in H
  | H : (_ <? _) = true |- _ => apply Z.ltb_lt in H
  | H : (_ <? _) = false |- _ => apply Z.ltb_ge in H
  | H : (_ =? _) = true |- _ => apply Z.eqb_eq in H
  | H : (_ =? _) = false |- _ => apply Z.eqb_neq in H
  | H : negb _ = true |- _ => apply negb_true_iff in H
  | H : negb _ = false |- _ => apply negb_false_iff in H
  end.

(** Split on the innermost boolean test of the goal. *)
Ltac case_if :=
  match goal with
  | |- context [if ?b then _ else _] =>
      lazymatch b with
      | context [if _ then _ else _] => fail
      | _ => let E := fresh "E" in destruct b eqn:E; zbool
      end
  end.

(** Turn one comparison of the goal into its truth value, by [lia]. *)
Ltac ztest :=
  match goal with
  | |- context [?a <=? ?b] =>
      first [ rewrite (proj2 (Z.leb_le a b)) by lia
            | rewrite (proj2 (Z.leb_gt a b)) by lia ]
  | |- context [?a <? ?b] =>
      first [ rewrite (proj2 (Z.ltb_lt a b)) by lia
            | rewrite (proj2 (Z.ltb_ge a b)) by lia ]
  | |- context [?a =? ?b] =>
      first [ rewrite (proj2 (Z.eqb_eq a b)) by lia
            | rewrite (proj2 (Z.eqb_neq a b)) by lia ]
  end.
Ltac ztests := repeat (ztest; cbn [andb orb negb]).

Lemma uwrap_small w z : in_u w z → uwrap w z = z.
Proof. intros. apply Z.mod_small. done. Qed.

Lemma uwrap_range w z : 0 ≤ w → in_u w (uwrap w z).
Proof. intros. apply Z.mod_pos_bound. apply Z.pow_pos_nonneg; lia. Qed.

Lemma pow2_half w : 0 < w → 2 ^ w = 2 * 2 ^ (w - 1).
Proof. intros. rewrite <-(Z.pow_succ_r 2 (w - 1)) by lia. f_equal. lia. Qed.

Lemma swrap_range w z : 0 < w → in_s w (swrap w z).
Proof.
  intros Hw. unfold swrap, in_s. pose proof (pow2_half w Hw).
  pose proof (Z.pow_pos_nonneg 2 (w - 1)).
  pose proof (Z.mod_pos_bound z (2 ^ w)). case_if; lia.
Qed.

Lemma swrap_small w z : 0 < w → in_s w z → swrap w z = z.
Proof.
  intros Hw Hz. unfold swrap, in_s in *. pose proof (pow2_half w Hw).
  pose proof (Z.pow_pos_nonneg 2 (w - 1)).
  destruct (decide (0 ≤ z)).
  - rewrite Z.mod_small by lia. ztests. done.
  - replace (z mod 2 ^ w) with (z + 2 ^ w); [ztests; lia|].
    apply Z.mod_unique with (-1); lia.
Qed.

(** Reading the object representation of a signed integer as signed undoes
    writing it as unsigned. *)
Lemma swrap_uwrap w z : 0 < w → in_s w z → swrap w (uwrap w z) = z.
Proof.
  intros Hw Hz. unfold swrap, uwrap. rewrite Z.mod_mod by (apply Z.pow_nonzero; lia).
  fold (swrap w z). by apply swrap_small.
Qed.

(** Bit operations on disjoint fields are additions. *)
Lemma land_disjoint a k n : 0 ≤ k → 0 ≤ n < 2 ^ k → Z.land (a * 2 ^ k) n = 0.
Proof.
  intros Hk Hn. apply Z.bits_inj'. intros i Hi. rewrite Z.land_spec, Z.bits_0.
  destruct (decide (i < k)).
  - by rewrite Z.mul_pow2_bits_low by lia.
  - rewrite <-(Z.mod_small n (2 ^ k)) by lia.
    rewrite Z.mod_pow2_bits_high by lia. apply andb_false_r.
Qed.

Lemma lor_disjoint a k n : 0 ≤ k → 0 ≤ n < 2 ^ k → Z.lor (a * 2 ^ k) n = a * 2 ^ k + n.
Proof. intros Hk Hn. rewrite <-Z.lxor_lor, Z.add_nocarry_lxor; auto using land_disjoint. Qed.

(** * Bytes and character strings

    A [char] or [uint8_t] is a [Z] between 0 and 255 (the unsigned reading of
    the character); a [std::string] is a list of them. *)

Definition is_byte (b : Z) : Prop := 0 ≤ b < 256.
#[global] Instance is_byte_dec b : Decision (is_byte b).
Proof. unfold is_byte. apply _. Defined.

Definition is_bytes (s : list Z) : Prop := Forall is_byte s.
#[global] Instance is_bytes_dec s : Decision (is_bytes s).
Proof. unfold is_bytes. apply _. Defined.

(** The bytes of a string literal of the source. *)
Fixpoint lit (s : string) : list Z :=
  match s with
  | EmptyString => []
  | String a s => Z.of_N (Ascii.N_of_ascii a) :: lit s
  end.

Lemma lit_bytes s : is_bytes (lit s).
Proof.
  induction s as [|a s IH]; simpl; constructor; [|done].
  unfold is_byte. pose proof (Ascii.N_ascii_bounded a). lia.
Qed.

(** [std::char_traits<char>::eof()]. *)
Definition eof : Z := -1.

(** The value of [char c] as an [int], where the code compares it signed. *)
Definition schar (b : Z) : Z := swrap 8 b.

(** * Generic list lemmas *)

Lemma app_cons_snoc {A} (l1 : list A) x l2 : l1 ++ x :: l2 = (l1 ++ [x]) ++ l2.
Proof. by rewrite <-app_assoc. Qed.

(** Decimal digits of a natural number, most significant first
    ([std::to_string] of an unsigned value). *)
Fixpoint digits_fuel (fuel : nat) (n : Z) (acc : list Z) : list Z :=
  match fuel with
  | O => acc
  | S fuel =>
      let acc := (48 + n mod 10) :: acc in
      if n / 10 =? 0 then acc else digits_fuel fuel (n / 10) acc
  end.

(** Enough fuel: the number of bits bounds the number of decimal digits. *)
Definition digits (n : Z) : list Z := digits_fuel (S (Z.to_nat (Z.log2 n))) n [].

Definition to_string (n : Z) : list Z :=
  if n <? 0 then 45 :: digits (- n) else digits n.

(** Lower case hexadecimal digit ([%x], [std::hex]). *)
Definition hexdigit (d : Z) : Z := if d <? 10 then 48 + d else 87 + d.

(** The automation of the development: facts about ranges and bytes. *)
Create HintDb cxx.
#[export] Hint Resolve lit_bytes uwrap_range swrap_range : cxx.
#[export] Hint Extern 1 (is_byte _) => (unfold is_byte; lia) : cxx.
#[export] Hint Extern 1 (in_u _ _) => (unfold in_u; lia) : cxx.
#[export] Hint Extern 1 (in_s _ _) => (unfold in_s; lia) : cxx.
