(* ===== verification/Machine.v ===== *)
(** Object representations: how [memcpy] sees an integer.

    [write_number] and [get_number] of the binary formats move integers through
    byte arrays on hosts of either endianness.  This file gives the little
    endian split of an integer, its inverse, the big endian (network order)
    form both routines are meant to produce, and the facts relating them. *)

From S2P Require Import Prelude.

(** The [n] least significant bytes of [z], least significant first. *)
Fixpoint le_bytes (n : nat) (z : Z) : list Z :=
  match n with
  | O => []
  | S n => z mod 256 :: le_bytes n (z / 256)
  end.

Fixpoint le_value (l : list Z) : Z :=
  match l with
  | [] => 0
  | b :: l => b + 256 * le_value l
  end.

(** Network byte order. *)
Definition be_bytes (n : nat) (z : Z) : list Z := rev (le_bytes n z).

Arguments be_bytes : simpl never.

(** [memcpy] out of and into an object of [n] bytes on a host whose
    endianness is [le]. *)
Definition object_repr (le : bool) (n : nat) (z : Z) : list Z :=
  if le then le_bytes n z else be_bytes n z.
Definition object_value (le : bool) (l : list Z) : Z :=
  le_value (if le then l else rev l).

Lemma length_le_bytes n z : length (le_bytes n z) = n.
Proof. revert z. induction n; simpl; intros; f_equal; auto. Qed.

Lemma length_be_bytes n z : length (be_bytes n z) = n.
Proof. unfold be_bytes. rewrite length_rev. apply length_le_bytes. Qed.

Lemma le_bytes_bytes n z : is_bytes (le_bytes n z).
Proof.
  revert z. induction n; simpl; constructor; [|apply IHn].
  apply Z.mod_pos_bound. lia.
Qed.

Lemma be_bytes_bytes n z : is_bytes (be_bytes n z).
Proof. apply Forall_rev, le_bytes_bytes. Qed.

Lemma le_value_le_bytes n z : le_value (le_bytes n z) = z mod 2 ^ (8 * Z.of_nat n).
Proof.
  revert z. induction n as [|n IH]; intros z; cbn [le_bytes le_value].
  - by rewrite Z.mod_1_r.
  - rewrite IH. replace (8 * Z.of_nat (S n)) with (8 + 8 * Z.of_nat n) by lia.
    rewrite Z.pow_add_r by lia. change (2 ^ 8) with 256.
    rewrite Z.rem_mul_r; [done|lia|apply Z.pow_pos_nonneg; lia].
Qed.

Lemma le_value_bound l : is_bytes l → 0 ≤ le_value l < 2 ^ (8 * Z.of_nat (length l)).
Proof.
  induction 1 as [|b l Hb _ IH]; cbn [le_value length]; [done|].
  replace (8 * Z.of_nat (S (length l))) with (8 + 8 * Z.of_nat (length l)) by lia.
  rewrite Z.pow_add_r by lia. change (2 ^ 8) with 256. unfold is_byte in Hb. nia.
Qed.

(** Only the low bytes matter. *)
Lemma le_bytes_uwrap n z : le_bytes n (uwrap (8 * Z.of_nat n) z) = le_bytes n z.
Proof.
  revert z. induction n as [|n IH]; intros z; [done|]. cbn [le_bytes].
  replace (8 * Z.of_nat (S n)) with (8 + 8 * Z.of_nat n) by lia.
  unfold uwrap in *. rewrite Z.pow_add_r by lia. change (2 ^ 8) with 256.
  assert (0 < 2 ^ (8 * Z.of_nat n)) by (apply Z.pow_pos_nonneg; lia).
  rewrite Z.rem_mul_r by lia. rewrite <-(IH (z / 256)).
  set (q := (z / 256) mod _). pose proof (Z.mod_pos_bound z 256).
  f_equal; [|f_equal].
  - symmetry. apply Z.mod_unique with q; lia.
  - symmetry. apply Z.div_unique with (z mod 256); lia.
Qed.

Lemma be_bytes_uwrap n z : be_bytes n (uwrap (8 * Z.of_nat n) z) = be_bytes n z.
Proof. unfold be_bytes. by rewrite le_bytes_uwrap. Qed.

(** The big endian form does not depend on the host. *)
Lemma object_repr_be (le : bool) n z :
  (if le then rev (object_repr le n z) else object_repr le n z) = be_bytes n z.
Proof. by destruct le. Qed.

Lemma object_value_be (le : bool) n z :
  object_value le (if le then rev (be_bytes n z) else be_bytes n z) =
  uwrap (8 * Z.of_nat n) z.
Proof.
  unfold object_value, be_bytes.
  destruct le; rewrite rev_involutive; apply le_value_le_bytes.
Qed.

#[export] Hint Resolve le_bytes_bytes be_bytes_bytes : cxx.
