(* ===== verification/Heap.v ===== *)
(** A heap with an allocator that may fail, code that works on it, and assertions
    about the part of the heap that code uses.

    Code ends by a result, by an exception ([std::bad_alloc], in a state that the
    handlers have cleaned up), or in undefined behaviour.  A triple [hoare] holds
    in every larger heap: what code does not mention, it does not change. *)

From S2P Require Import Prelude.
From AAC_tactics Require Import AAC.
From stdpp Require Import gmap.
#[local] Open Scope Z_scope.

Section heap.
Context {B : Type}.
Implicit Types (h : gmap Z B) (p : Z) (b : B).

(** ** Code *)

(** The heap, and the number of allocations that will succeed. *)
Record mem := mk_mem { heap : gmap Z B; budget : nat }.

Inductive outcome (A : Type) :=
  | done (a : A) (m : mem)
  | raised (m : mem)
  | undefined
  | out_of_fuel.
Arguments done {A}.
Arguments raised {A}.
Arguments undefined {A}.
Arguments out_of_fuel {A}.

Definition ST (A : Type) : Type := mem → outcome A.

#[global] Instance ST_ret : MRet ST := λ A a m, done a m.
#[global] Instance ST_bind : MBind ST := λ A C f x m,
  match x m with
  | done a m => f a m
  | raised m => raised m
  | undefined => undefined
  | out_of_fuel => out_of_fuel
  end.

#[global] Instance ST_fmap : FMap ST := λ A C f x, x ≫= λ a, mret (f a).

(** An allocation that does not concern the blocks of the heap: it only may fail. *)
Definition tick : ST () := λ m,
  match budget m with O => raised m | S n => done () (mk_mem (heap m) n) end.

Definition load p : ST B := λ m,
  match heap m !! p with Some b => done b m | None => undefined end.

Definition store p b : ST () := λ m,
  match heap m !! p with
  | Some _ => done () (mk_mem (<[p := b]> (heap m)) (budget m))
  | None => undefined
  end.

Definition deallocate p : ST () := λ m,
  match heap m !! p with
  | Some _ => done () (mk_mem (delete p (heap m)) (budget m))
  | None => undefined
  end.

(** The code of a handler or a destructor that runs while an exception passes; a
    second exception would end the program. *)
Definition on_raise {A} (x : ST A) (cleanup : ST ()) : ST A := λ m,
  match x m with
  | raised m => match cleanup m with
                | done _ m => raised m
                | out_of_fuel => out_of_fuel
                | _ => undefined
                end
  | o => o
  end.

Fixpoint iterate {A} (f : A → ST ()) (l : list A) : ST () :=
  match l with
  | [] => mret ()
  | x :: l => f x ;; iterate f l
  end.

(** The allocator: some address that is not in use. *)
Section allocator.
Context (malloc : gmap Z B → Z).

(** Memory for one object, not yet constructed. *)
Definition allocate (raw : B) : ST Z := λ m,
  match budget m with
  | O => raised m
  | S n => let p := malloc (heap m) in done p (mk_mem (<[p := raw]> (heap m)) n)
  end.
End allocator.

(** ** Assertions *)

(** An assertion describes exactly the blocks it owns. *)
Definition assertion : Type := gmap Z B → Prop.

#[global] Instance assertion_equiv : Equiv assertion := λ P Q, ∀ h, P h ↔ Q h.

#[global] Instance assertion_equivalence : Equivalence (≡@{assertion}).
Proof.
  split; unfold equiv, assertion_equiv.
  - by intros P h.
  - intros P Q H h. by rewrite H.
  - intros P Q R H1 H2 h. by rewrite H1, H2.
Qed.

Definition emp : assertion := λ h, h = ∅.

Definition pto p b : assertion := λ h, p ≠ 0 ∧ h = {[p := b]}.

Definition star (P Q : assertion) : assertion := λ h,
  ∃ h1 h2, h = h1 ∪ h2 ∧ h1 ##ₘ h2 ∧ P h1 ∧ Q h2.

(** A fact that does not concern the heap. *)
Definition lift (φ : Prop) : assertion := λ h, φ ∧ h = ∅.

Definition some_of {A} (P : A → assertion) : assertion := λ h, ∃ x, P x h.
End heap.

Arguments mem : clear implicits.
Arguments outcome : clear implicits.
Arguments ST : clear implicits.
Arguments assertion : clear implicits.
Arguments done {B A}.
Arguments raised {B A}.
Arguments undefined {B A}.
Arguments out_of_fuel {B A}.

Declare Scope heap_scope.
Delimit Scope heap_scope with heap.
Notation "P ∗ Q" := (star P Q) (at level 65, right associativity) : heap_scope.
Notation "p ↦ b" := (pto p b) (at level 20) : heap_scope.
#[global] Open Scope heap_scope.

(** ** Laws of the star *)

Section laws.
Context {B : Type}.
Implicit Types (P Q R : assertion B) (h : gmap Z B).

#[global] Instance star_proper : Proper ((≡) ==> (≡) ==> (≡)) (@star B).
Proof.
  intros P P' HP Q Q' HQ h. unfold star.
  split; intros (h1 & h2 & ? & ? & H1 & H2); exists h1, h2; (split_and!; [done|done|by apply HP|by apply HQ]).
Qed.

Lemma star_comm P Q : P ∗ Q ≡ Q ∗ P.
Proof.
  intros h. unfold star.
  split; intros (h1 & h2 & -> & Hd & H1 & H2); exists h2, h1;
    (split_and!; [by apply map_union_comm|done|done|done]).
Qed.

Lemma star_assoc P Q R : P ∗ (Q ∗ R) ≡ (P ∗ Q) ∗ R.
Proof.
  intros h. unfold star. split.
  - intros (h1 & ? & -> & Hd & H1 & h2 & h3 & -> & Hd2 & H2 & H3).
    apply map_disjoint_union_r in Hd as [??]. exists (h1 ∪ h2), h3.
    split_and!; [by rewrite map_union_assoc|by apply map_disjoint_union_l|by exists h1, h2|done].
  - intros (? & h3 & -> & Hd & (h1 & h2 & -> & Hd2 & H1 & H2) & H3).
    apply map_disjoint_union_l in Hd as [??]. exists h1, (h2 ∪ h3).
    split_and!; [by rewrite map_union_assoc|by apply map_disjoint_union_r|done|by exists h2, h3].
Qed.

Lemma emp_star P : emp ∗ P ≡ P.
Proof.
  intros h. unfold star, emp. split.
  - intros (h1 & h2 & -> & _ & -> & H). by rewrite map_empty_union.
  - intros H. exists ∅, h. rewrite map_empty_union. by split_and!; try apply map_disjoint_empty_l.
Qed.

Lemma star_emp P : P ∗ emp ≡ P.
Proof. by rewrite star_comm, emp_star. Qed.

Lemma star_left_comm P Q R : P ∗ (Q ∗ R) ≡ Q ∗ (P ∗ R).
Proof. by rewrite !star_assoc, (star_comm P Q). Qed.

Lemma lift_star (φ : Prop) P h : (lift φ ∗ P) h ↔ φ ∧ P h.
Proof.
  unfold star, lift. split.
  - intros (h1 & h2 & -> & _ & [Hφ ->] & H). by rewrite map_empty_union.
  - intros [Hφ H]. exists ∅, h. rewrite map_empty_union.
    by split_and!; try apply map_disjoint_empty_l.
Qed.

Lemma some_star {A} (P : A → assertion B) Q h : (some_of P ∗ Q) h ↔ ∃ x, (P x ∗ Q) h.
Proof. unfold star, some_of. naive_solver. Qed.

Lemma some_elim {A} (P : A → assertion B) h : some_of P h ↔ ∃ x, P x h.
Proof. done. Qed.

Lemma lift_elim (φ : Prop) h : lift φ h → φ.
Proof. by intros [? _]. Qed.

Lemma pto_elim p (b : B) h : (p ↦ b) h → p ≠ 0 ∧ h = {[p := b]}.
Proof. done. Qed.

Lemma star_elim P Q h : (P ∗ Q) h → ∃ h1 h2, h = h1 ∪ h2 ∧ h1 ##ₘ h2 ∧ P h1 ∧ Q h2.
Proof. done. Qed.

Lemma star_intro P Q h1 h2 : h1 ##ₘ h2 → P h1 → Q h2 → (P ∗ Q) (h1 ∪ h2).
Proof. intros. by exists h1, h2. Qed.

Lemma emp_intro : (emp : assertion B) ∅.
Proof. done. Qed.

Lemma emp_elim h : (emp : assertion B) h → h = ∅.
Proof. done. Qed.

Lemma pto_intro p (b : B) : p ≠ 0 → (p ↦ b) {[p := b]}.
Proof. done. Qed.

(** A fact that an assertion implies. *)
Lemma fact_star (φ : Prop) P : (∀ h, P h → φ) → P ≡ lift φ ∗ P.
Proof. intros H h. rewrite lift_star. naive_solver. Qed.

Lemma lift_emp (φ : Prop) : φ → (lift φ : assertion B) ≡ emp.
Proof. intros H h. unfold lift, emp. naive_solver. Qed.

Lemma star_mono P P' Q Q' h : (P ∗ Q) h → (∀ h, P h → P' h) → (∀ h, Q h → Q' h) → (P' ∗ Q') h.
Proof. unfold star. naive_solver. Qed.

#[global] Instance star_aac_assoc : AAC.Associative (≡) (@star B).
Proof. intros P Q R. apply star_assoc. Qed.

#[global] Instance star_aac_comm : AAC.Commutative (≡) (@star B).
Proof. intros P Q. apply star_comm. Qed.

#[global] Instance star_aac_unit : AAC.Unit (≡) (@star B) emp.
Proof. split; intros P; [apply emp_star|apply star_emp]. Qed.

#[global] Instance assertion_aac_lift : AAC.AAC_lift (≡@{assertion B}) (≡) := {}.

(** Applying an equivalence to a heap. *)
Lemma equiv_at P Q h : P ≡ Q → P h → Q h.
Proof. intros H. apply H. Qed.
End laws.

(** Reorders the parts of an assertion about a heap; drops the facts that are
    evident. *)
Ltac reorder := lazymatch goal with
  | H : ?P ?h |- ?Q ?h => revert H; apply equiv_at; rewrite ?lift_emp by done; aac_reflexivity
  end.

(** ** Triples *)

Section triples.
Context {B : Type}.
Implicit Types (P R F : assertion B) (h : gmap Z B) (m : mem B) (k : nat).

(** From a part of the heap as [P] says, beside any other part, [x] makes at most
    [k] allocations; it returns with the part as [Q] says or, only where there is
    no memory for [k] allocations, throws with the part as [R] says. The other
    part stays as it is, and nothing undefined happens. *)
Definition hoare {A} (k : nat) (P : assertion B) (x : ST B A) (Q : A → assertion B)
    (R : assertion B) : Prop := ∀ m h hf,
  P h → heap m = h ∪ hf → h ##ₘ hf →
  match x m with
  | done a m' => ∃ h', heap m' = h' ∪ hf ∧ h' ##ₘ hf ∧ Q a h' ∧
      (budget m ≤ budget m' + k)%nat
  | raised m' => ∃ h', heap m' = h' ∪ hf ∧ h' ##ₘ hf ∧ R h' ∧ (budget m < k)%nat
  | _ => False
  end.

Definition never : assertion B := λ _, False.

Lemma hoare_ret {A} (a : A) Q R : hoare 0 (Q a) (mret a) Q R.
Proof. intros m h hf H E D. simpl. exists h. split_and!; auto. lia. Qed.

Lemma hoare_bind {A C} k1 k2 P Q Q' R (x : ST B A) (f : A → ST B C) :
  hoare k1 P x Q R → (∀ a, hoare k2 (Q a) (f a) Q' R) →
  hoare (k1 + k2) P (x ≫= f) Q' R.
Proof.
  intros Hx Hf m h hf H E D. specialize (Hx m h hf H E D).
  unfold mbind, ST_bind. destruct (x m) as [a m1|m1| |]; [..|done|done].
  - destruct Hx as (h1 & E1 & D1 & H1 & B1). specialize (Hf a m1 h1 hf H1 E1 D1).
    destruct (f a m1) as [c m2|m2| |]; [..|done|done];
      destruct Hf as (h2 & ? & ? & ? & ?); exists h2; (split_and!; auto; lia).
  - destruct Hx as (h1 & ? & ? & ? & ?). exists h1. split_and!; auto. lia.
Qed.

Lemma hoare_fmap {A C} k P Q R (x : ST B A) (f : A → C) :
  hoare k P x (λ a, Q (f a)) R → hoare k P (f <$> x) Q R.
Proof.
  intros Hx. rewrite <-(Nat.add_0_r k). apply (hoare_bind _ _ _ (λ a, Q (f a))); [done|].
  intros a. apply hoare_ret.
Qed.

Lemma hoare_conseq {A} k k' P P' Q Q' R R' (x : ST B A) :
  hoare k' P' x Q' R' → (k' ≤ k)%nat → (∀ h, P h → P' h) →
  (∀ a h, Q' a h → Q a h) → (∀ h, R' h → R h) → hoare k P x Q R.
Proof.
  intros Hx ? HP HQ HR m h hf H E D. specialize (Hx m h hf (HP _ H) E D).
  destruct (x m) as [a m1|m1| |]; [..|done|done];
    destruct Hx as (h1 & ? & ? & ? & ?); exists h1; (split_and!; auto; lia).
Qed.

Lemma hoare_frame {A} k F P Q R (x : ST B A) :
  hoare k P x Q R → hoare k (P ∗ F) x (λ a, Q a ∗ F) (R ∗ F).
Proof.
  intros Hx m h hf (h1 & h2 & -> & D12 & H1 & H2) E D.
  apply map_disjoint_union_l in D as [??].
  specialize (Hx m h1 (h2 ∪ hf) H1). rewrite <-map_union_assoc in E.
  specialize (Hx E). specialize (Hx ltac:(by apply map_disjoint_union_r)).
  destruct (x m) as [a m1|m1| |]; [..|done|done];
    destruct Hx as (h' & E' & D' & ? & ?); apply map_disjoint_union_r in D' as [??];
    exists (h' ∪ h2); (split_and!; [by rewrite <-map_union_assoc|by apply map_disjoint_union_l|by exists h', h2|done]).
Qed.

Lemma hoare_lift {A} k (φ : Prop) P Q R (x : ST B A) :
  (φ → hoare k P x Q R) → hoare k (lift φ ∗ P) x Q R.
Proof. intros Hx m h hf H E D. apply lift_star in H as [Hφ H]. exact (Hx Hφ m h hf H E D). Qed.

Lemma hoare_some {A C} k (P : C → assertion B) F Q R (x : ST B A) :
  (∀ c, hoare k (P c ∗ F) x Q R) → hoare k (some_of P ∗ F) x Q R.
Proof. intros Hx m h hf H E D. apply some_star in H as [c H]. exact (Hx c m h hf H E D). Qed.

Lemma hoare_on_raise {A} k P Q R R' (x : ST B A) cleanup :
  hoare k P x Q R → hoare 0 R cleanup (λ _, R') never →
  hoare k P (on_raise x cleanup) Q R'.
Proof.
  intros Hx Hc m h hf H E D. specialize (Hx m h hf H E D).
  unfold on_raise. destruct (x m) as [a m1|m1| |]; [done| |done|done].
  destruct Hx as (h1 & E1 & D1 & H1 & B1). specialize (Hc m1 h1 hf H1 E1 D1).
  destruct (cleanup m1) as [[] m2|m2| |]; [|naive_solver|done|done].
  destruct Hc as (h2 & ? & ? & ? & ?). exists h2. by split_and!.
Qed.

Lemma hoare_tick P : hoare 1 P tick (λ _, P) P.
Proof.
  intros m h hf H E D. unfold tick. destruct (budget m) as [|n] eqn:Hb; exists h;
    simpl; (split_and!; auto; lia).
Qed.

Lemma hoare_load p b R : hoare 0 (p ↦ b) (load p) (λ b', lift (b' = b) ∗ p ↦ b) R.
Proof.
  intros m h hf [Hp ->] E D. unfold load. rewrite E.
  rewrite (lookup_union_Some_l _ _ p b) by apply lookup_singleton_eq.
  exists {[p := b]}. split_and!; auto; [|lia]. by apply lift_star.
Qed.

Lemma hoare_store p b b' R : hoare 0 (p ↦ b) (store p b') (λ _, p ↦ b') R.
Proof.
  intros m h hf [Hp ->] E D. unfold store. rewrite E.
  rewrite (lookup_union_Some_l _ _ p b) by apply lookup_singleton_eq.
  exists {[p := b']}. simpl. split_and!; [|by apply map_disjoint_singleton_l in D; apply map_disjoint_singleton_l|done|lia].
  by rewrite insert_union_l, insert_singleton_eq.
Qed.

Lemma hoare_deallocate p b R : hoare 0 (p ↦ b) (deallocate p) (λ _, emp) R.
Proof.
  intros m h hf [Hp ->] E D. unfold deallocate. rewrite E.
  rewrite (lookup_union_Some_l _ _ p b) by apply lookup_singleton_eq.
  exists ∅. simpl. split_and!; [|apply map_disjoint_empty_l|done|lia].
  apply map_disjoint_singleton_l in D.
  by rewrite map_empty_union, delete_union, delete_singleton_eq, map_empty_union, delete_id.
Qed.

(** What [malloc] promises: an address that is not in use, and not the null
    pointer. *)
Definition allocates (malloc : gmap Z B → Z) : Prop :=
  ∀ h, malloc h ≠ 0 ∧ h !! malloc h = None.

Lemma hoare_allocate malloc raw :
  allocates malloc → hoare 1 emp (allocate malloc raw) (λ p, p ↦ raw) emp.
Proof.
  intros Hm m h hf -> E D. unfold allocate. rewrite map_empty_union in E.
  destruct (budget m) as [|n] eqn:Hb.
  - exists ∅. rewrite map_empty_union. by split_and!; auto.
  - destruct (Hm (heap m)) as [Hp Hn]. exists {[malloc (heap m) := raw]}. simpl.
    rewrite <-insert_union_singleton_l, E. rewrite E in *.
    split_and!; [done|by apply map_disjoint_singleton_l|done|lia].
Qed.
End triples.

(** ** Symbolic execution *)

#[local] Open Scope nat_scope.

Section steps.
Context {B : Type}.
Implicit Types (P R F : assertion B) (h : gmap Z B) (k : nat).

(** [P] has the part [P1], and the rest [F]. *)
Lemma part_here P F : P ∗ F ≡ P ∗ F.
Proof. done. Qed.

Lemma part_all P : P ≡ P ∗ emp.
Proof. by rewrite star_emp. Qed.

Lemma part_left P P1 F F' : P ≡ P1 ∗ F → P ∗ F' ≡ P1 ∗ (F ∗ F').
Proof. intros ->. by rewrite star_assoc. Qed.

Lemma part_right P P1 F F' : P ≡ P1 ∗ F → F' ∗ P ≡ P1 ∗ (F' ∗ F).
Proof. intros ->. by rewrite star_left_comm. Qed.

Lemma part_both P P1 P2 F F' : P ≡ P1 ∗ F → F ≡ P2 ∗ F' → P ≡ (P1 ∗ P2) ∗ F'.
Proof. intros -> ->. by rewrite star_assoc. Qed.

Lemma never_star P h : (never ∗ P) h → False.
Proof. by intros (? & ? & _ & _ & [] & _). Qed.

(** A call that does not throw. *)
Lemma hoare_call {A C} k P P1 F Q1 Q R (x : ST B A) (f : A → ST B C) :
  hoare 0 P1 x Q1 never → P ≡ P1 ∗ F → (∀ a, hoare k (Q1 a ∗ F) (f a) Q R) →
  hoare k P (x ≫= f) Q R.
Proof.
  intros Hx HP Hf. rewrite <-(Nat.add_0_l k).
  apply (hoare_bind _ _ _ (λ a, Q1 a ∗ F)); [|done].
  apply (hoare_conseq _ 0 _ (P1 ∗ F) _ (λ a, Q1 a ∗ F) _ (never ∗ F)); auto.
  - by apply hoare_frame.
  - intros h. by apply HP.
  - intros h []%never_star.
Qed.

(** A call that may throw. *)
Lemma hoare_try {A C} k k1 k2 P P1 F Q1 Q R R1 (x : ST B A) (f : A → ST B C) :
  hoare k1 P1 x Q1 R1 → P ≡ P1 ∗ F → k1 + k2 ≤ k → (∀ h, (R1 ∗ F) h → R h) →
  (∀ a, hoare k2 (Q1 a ∗ F) (f a) Q R) →
  hoare k P (x ≫= f) Q R.
Proof.
  intros Hx HP Hk HR Hf.
  apply (hoare_conseq _ (k1 + k2) _ P _ Q _ R); auto.
  apply (hoare_bind _ _ _ (λ a, Q1 a ∗ F)); [|done].
  apply (hoare_conseq _ k1 _ (P1 ∗ F) _ (λ a, Q1 a ∗ F) _ (R1 ∗ F)); auto.
  - by apply hoare_frame.
  - intros h. by apply HP.
Qed.

Lemma hoare_pre {A} k P P' Q R (x : ST B A) : P ≡ P' → hoare k P' x Q R → hoare k P x Q R.
Proof. intros HP Hx. apply (hoare_conseq _ _ _ _ _ _ _ _ _ Hx); auto. intros h. by apply HP. Qed.

Lemma hoare_pure {A} k (φ : Prop) P F Q R (x : ST B A) :
  P ≡ lift φ ∗ F → (φ → hoare k F x Q R) → hoare k P x Q R.
Proof. intros HP Hx. apply (hoare_pre _ _ _ _ _ _ HP). by apply hoare_lift. Qed.

Lemma hoare_exists {A C} k P (P1 : C → assertion B) F Q R (x : ST B A) :
  P ≡ some_of P1 ∗ F → (∀ c, hoare k (P1 c ∗ F) x Q R) → hoare k P x Q R.
Proof. intros HP Hx. apply (hoare_pre _ _ _ _ _ _ HP). by apply hoare_some. Qed.

Lemma open_pure (φ G : Prop) P F h : P ≡ lift φ ∗ F → (φ → F h → G) → P h → G.
Proof. intros HP HG H%HP. apply lift_star in H as [??]. auto. Qed.

Lemma open_some {C} (G : Prop) P (P1 : C → assertion B) F h :
  P ≡ some_of P1 ∗ F → (∀ c, (P1 c ∗ F) h → G) → P h → G.
Proof. intros HP HG H%HP. apply some_star in H as [??]. eauto. Qed.

Lemma intro_some {C} (c : C) P (P1 : C → assertion B) F h :
  P ≡ some_of P1 ∗ F → (P1 c ∗ F) h → P h.
Proof. intros HP H. apply HP, some_star. eauto. Qed.

Lemma hoare_done {A} k P Q R (a : A) : (∀ h, P h → Q a h) → hoare k P (mret a) Q R.
Proof.
  intros HP. apply (hoare_conseq _ 0 _ (Q a) _ Q _ R); auto; [|lia]. apply hoare_ret.
Qed.

Lemma ret_bind {A C} (a : A) (f : A → ST B C) : mret a ≫= f = f a.
Proof. done. Qed.

Lemma bind_done {A C} (x : ST B A) (f : A → ST B C) m a m' :
  x m = done a m' → (x ≫= f) m = f a m'.
Proof. intros H. unfold mbind, ST_bind. by rewrite H. Qed.

Lemma bind_raised {A C} (x : ST B A) (f : A → ST B C) m m' :
  x m = raised m' → (x ≫= f) m = raised m'.
Proof. intros H. unfold mbind, ST_bind. by rewrite H. Qed.

Lemma hoare_assoc {A C D} k P Q R (x : ST B A) (f : A → ST B C) (g : C → ST B D) :
  hoare k P (x ≫= λ a, f a ≫= g) Q R → hoare k P ((x ≫= f) ≫= g) Q R.
Proof.
  intros H m h hf Hp E Hd. specialize (H m h hf Hp E Hd). revert H.
  unfold mbind, ST_bind. by destruct (x m).
Qed.

(** The last call. *)
Lemma hoare_tail {A} k P P1 F Q1 Q R R1 k1 (x : ST B A) :
  hoare k1 P1 x Q1 R1 → P ≡ P1 ∗ F → k1 ≤ k → (∀ a h, (Q1 a ∗ F) h → Q a h) →
  (∀ h, (R1 ∗ F) h → R h) → hoare k P x Q R.
Proof.
  intros Hx HP Hk HQ HR.
  apply (hoare_conseq _ k1 _ (P1 ∗ F) _ (λ a, Q1 a ∗ F) _ (R1 ∗ F)); auto.
  - by apply hoare_frame.
  - intros h. by apply HP.
Qed.

(** ** Lists of parts *)

Section big_star.
Context {X A : Type} (E : X → A → assertion B).

Fixpoint big_star (xs : list X) (l : list A) : assertion B :=
  match xs, l with
  | [], [] => emp
  | x :: xs, a :: l => E x a ∗ big_star xs l
  | _, _ => never
  end.

Lemma big_star_length xs l h : big_star xs l h → length xs = length l.
Proof.
  revert l h. induction xs as [|x xs IH]; intros [|a l] h; simpl; try done.
  intros (h1 & h2 & _ & _ & _ & H). f_equal. by eapply IH.
Qed.

Lemma big_star_app xs ys l l' :
  length xs = length l → big_star (xs ++ ys) (l ++ l') ≡ big_star xs l ∗ big_star ys l'.
Proof.
  revert l. induction xs as [|x xs IH]; intros [|a l] H; simplify_eq/=.
  - by rewrite emp_star.
  - by rewrite (IH l), star_assoc.
Qed.

Lemma big_star_snoc xs l x a : big_star (xs ++ [x]) (l ++ [a]) ≡ big_star xs l ∗ E x a.
Proof.
  assert (∀ P, never ∗ P ≡ never) as Hn by (intros P h; split; [by intros ?%never_star|done]).
  revert l. induction xs as [|y xs IH]; intros [|b l]; simpl.
  - apply star_comm.
  - rewrite Hn. destruct l; simpl; by rewrite star_comm, Hn.
  - rewrite Hn. destruct xs; simpl; by rewrite star_comm, Hn.
  - by rewrite IH, star_assoc.
Qed.

Lemma big_star_delete xs l i x a :
  xs !! i = Some x → l !! i = Some a →
  big_star xs l ≡ E x a ∗ big_star (delete i xs) (delete i l).
Proof.
  revert xs l. induction i as [|i IH]; intros [|y xs] [|b l] Hx Ha; simplify_eq/=; [done|].
  by rewrite (IH xs l), star_left_comm.
Qed.

Lemma hoare_length {C} k xs l P F Q R (x : ST B C) :
  P ≡ big_star xs l ∗ F → (length xs = length l → hoare k (big_star xs l ∗ F) x Q R) →
  hoare k P x Q R.
Proof.
  intros HP Hx. apply (hoare_pure _ (length xs = length l) _ (big_star xs l ∗ F)); [|done].
  by rewrite HP, (fact_star _ _ (big_star_length xs l)) at 1; rewrite star_assoc.
Qed.

(** One part of a list, which may change, and the rest, which stays. *)
Lemma big_star_one xs l i x a :
  xs !! i = Some x → l !! i = Some a →
  ∃ F, big_star xs l ≡ E x a ∗ F ∧ ∀ x', big_star (<[i := x']> xs) l ≡ E x' a ∗ F.
Proof.
  revert xs l. induction i as [|i IH]; intros [|y xs] [|b l] Hx Ha; simplify_eq/=.
  - by exists (big_star xs l).
  - destruct (IH xs l) as (F & H1 & H2); [done..|]. exists (E y b ∗ F).
    rewrite H1. split; [|intros x'; rewrite H2]; apply star_left_comm.
Qed.

(** Two parts of a list. *)
Lemma big_star_two xs l i j x a y b :
  i ≠ j → xs !! i = Some x → l !! i = Some a → xs !! j = Some y → l !! j = Some b →
  ∃ F, big_star xs l ≡ E x a ∗ (E y b ∗ F) ∧
    ∀ x' y', big_star (<[i := x']> (<[j := y']> xs)) l ≡ E x' a ∗ (E y' b ∗ F).
Proof.
  revert j xs l. induction i as [|i IH]; intros [|j] [|z xs] [|c l] Hij Hx Ha Hy Hb; simplify_eq/=.
  - destruct (big_star_one xs l j y b) as (F & H1 & H2); [done..|]. exists F.
    rewrite H1. split; [done|]. intros x' y'. by rewrite H2.
  - destruct (big_star_one xs l i x a) as (F & H1 & H2); [done..|]. exists F.
    rewrite H1. split; [apply star_left_comm|]. intros x' y'. rewrite H2. apply star_left_comm.
  - destruct (IH j xs l) as (F & H1 & H2); [by auto|done..|]. exists (E z c ∗ F).
    rewrite H1. split; [|intros x' y'; rewrite H2]; aac_reflexivity.
Qed.

Lemma big_star_reverse xs l : big_star (reverse xs) (reverse l) ≡ big_star xs l.
Proof.
  revert l. induction xs as [|x xs IH]; intros [|a l]; rewrite ?reverse_cons; simpl; [done|..].
  - by destruct (reverse l).
  - assert (big_star (reverse xs ++ [x]) [] ≡ never) as <-; [|done]. by destruct (reverse xs).
  - by rewrite big_star_snoc, IH, star_comm.
Qed.

(** A loop over the parts that disposes of each one. *)
Lemma hoare_iterate (f : A → ST B ()) xs l :
  Forall (λ x, ∀ a, hoare 0 (E x a) (f a) (λ _, emp) never) xs →
  hoare 0 (big_star xs l) (iterate f l) (λ _, emp) never.
Proof.
  intros Hf. revert l. induction Hf as [|x xs Hx _ IH]; intros [|a l]; simpl.
  - by apply hoare_done.
  - by intros ???[].
  - by intros ???[].
  - eapply hoare_call; [apply Hx|apply part_here|]. intros []. simpl.
    eapply hoare_pre; [apply emp_star|]. apply IH.
Qed.
End big_star.

(** A loop over the parts that changes each one. *)
Lemma hoare_iterate_each {X A} (E E' : X → A → assertion B) (f : A → ST B ()) xs l :
  (∀ x a, hoare 0 (E x a) (f a) (λ _, E' x a) never) →
  hoare 0 (big_star E xs l) (iterate f l) (λ _, big_star E' xs l) never.
Proof.
  intros Hf. revert l. induction xs as [|x xs IH]; intros [|a l]; simpl.
  - by apply hoare_done.
  - by intros ???[].
  - by intros ???[].
  - eapply hoare_call; [apply Hf|apply part_here|]. intros []. simpl.
    eapply hoare_pre; [apply star_comm|].
    eapply (hoare_conseq _ 0 _ _ _ (λ _, big_star E' xs l ∗ E' x a) _ (never ∗ E' x a));
      [apply hoare_frame, IH|done|done| |by intros ? ?%never_star].
    intros [] h H. by apply star_comm.
Qed.
End steps.

#[global] Opaque star pto lift emp some_of.

(** Finds the part that a rule needs. *)
Ltac part := lazymatch goal with
  | |- @equiv _ _ _ (star (star _ _) _) => simple eapply part_both; [part|part]
  | _ => first [ simple apply part_here | simple apply part_all
               | simple eapply part_left; part | simple eapply part_right; part ]
  end.

(** Moves the facts and the witnesses of the precondition to the context. *)
Ltac opens := repeat first
  [ eapply hoare_pure; [solve [part]|]; intros ?
  | eapply hoare_exists; [solve [part]|]; intros ?; cbv beta ].

(** Gives the witness of the first existential part of the goal. *)
Ltac gives c := eapply (intro_some c); [solve [part]|]; cbn [fst snd].

Ltac opens_in H := revert H; repeat first
  [ eapply open_pure; [solve [part]|]; let E := fresh "E" in intros E
  | eapply open_some; [solve [part]|]; let x := fresh "x" in intros x; cbv beta ]; intros H.

(** An allocator: the first address above all that are in use. *)
Definition next_address {B} (h : gmap Z B) : Z :=
  (1 + map_fold (λ p _ a, Z.max p a) 0 h)%Z.

Lemma next_address_allocates {B} : allocates (@next_address B).
Proof.
  assert (∀ h : gmap Z B, (0 ≤ map_fold (λ p _ a, Z.max p a) 0%Z h)%Z ∧
    ∀ p b, h !! p = Some b → (p ≤ map_fold (λ p _ a, Z.max p a) 0%Z h)%Z) as Hmax.
  { intros h. apply (map_fold_weak_ind (λ a h, (0 ≤ a)%Z ∧ ∀ p b, h !! p = Some b → (p ≤ a)%Z)).
    - split; [lia|]. intros p b. by rewrite lookup_empty.
    - intros p b h' a _ [Ha IH]. split; [lia|]. intros p' b' H.
      apply lookup_insert_Some in H as [[-> _]|[_ H]]; [lia|]. apply IH in H. lia. }
  intros h. destruct (Hmax h) as [H0 H]. unfold next_address. split; [lia|].
  apply eq_None_not_Some. intros [b Hb]. apply H in Hb. lia.
Qed.
