(* ===== verification/Float64.v ===== *)
(** IEEE 754 binary64 as the program uses it.

    A [double] is its 64 bit pattern.  Only what json.hpp asks of the C library
    is here: conversion from integers, [strtod], ["%.15g"], [ldexp],
    [isfinite], the comparisons, and widening from [float].  Every conversion is
    computed exactly and rounded to nearest, ties to even, as the default
    rounding mode does. *)

From S2P Require Import Prelude.

Module F64.

Definition sign_bit : Z := 2 ^ 63.
Definition infinity : Z := 2047 * 2 ^ 52.
Definition quiet_NaN : Z := 2047 * 2 ^ 52 + 2 ^ 51.

Definition signbit (b : Z) : bool := 2 ^ 63 <=? b.
Definition expo (b : Z) : Z := (b / 2 ^ 52) mod 2 ^ 11.
Definition mant (b : Z) : Z := b mod 2 ^ 52.

Definition isfinite (b : Z) : bool := negb (expo b =? 2047).
Definition isnan (b : Z) : bool := (expo b =? 2047) && negb (mant b =? 0).

(** The magnitude of a finite double is [fst * 2 ^ snd]. *)
Definition magnitude (b : Z) : Z * Z :=
  if expo b =? 0 then (mant b, -1074) else (2 ^ 52 + mant b, expo b - 1075).

Definition with_sign (neg : bool) (b : Z) : Z := if neg then sign_bit + b else b.
Definition opp (b : Z) : Z := if signbit b then b - sign_bit else b + sign_bit.

(** Integer division rounded to nearest, ties to even. *)
Definition div_half_even (n d : Z) : Z :=
  let q := n / d in
  let r := n mod d in
  if 2 * r <? d then q else if d <? 2 * r then q + 1 else q + q mod 2.

(** The double nearest to [num / den], for [num >= 0] and [den > 0]. *)
Definition round_ratio (neg : bool) (num den : Z) : Z :=
  if num =? 0 then with_sign neg 0 else
  let scale e := if 0 <=? e then (num, den * 2 ^ e) else (num * 2 ^ (- e), den) in
  let e0 := Z.log2 num - Z.log2 den - 52 in
  let e1 := let '(n, d) := scale e0 in if n / d <? 2 ^ 52 then e0 - 1 else e0 in
  let e := Z.max e1 (-1074) in
  let '(n, d) := scale e in
  with_sign neg (Z.min ((e + 1074) * 2 ^ 52 + div_half_even n d) infinity).

(** [static_cast<double>(z)]. *)
Definition of_Z (z : Z) : Z := round_ratio (z <? 0) (Z.abs z) 1.

(** [ldexp(m, e)] for an integer [m >= 0]. *)
Definition ldexp (m e : Z) : Z :=
  if 0 <=? e then round_ratio false (m * 2 ^ e) 1 else round_ratio false m (2 ^ (- e)).

(** Widening conversion of a [float], given by its 32 bit pattern. *)
Definition of_float32 (b : Z) : Z :=
  let neg := 2 ^ 31 <=? b in
  let e := (b / 2 ^ 23) mod 2 ^ 8 in
  let m := b mod 2 ^ 23 in
  if e =? 255 then
    with_sign neg (if m =? 0 then infinity
                   else Z.lor quiet_NaN (Z.shiftl m 29))
  else if e =? 0 then round_ratio neg m (2 ^ 149)
  else with_sign neg ((e - 127 + 1023) * 2 ^ 52 + Z.shiftl m 29).

(** A key that orders the non-NaN doubles, with both zeros at 0. *)
Definition key (b : Z) : Z := if signbit b then - (b - sign_bit) else b.
Definition feq (a b : Z) : bool := negb (isnan a) && negb (isnan b) && (key a =? key b).
Definition flt (a b : Z) : bool := negb (isnan a) && negb (isnan b) && (key a <? key b).

(** ** [strtod] on the numbers of the JSON grammar *)

Definition is_digit (c : Z) : bool := (48 <=? c) && (c <=? 57).

Fixpoint span_digits (s : list Z) : list Z * list Z :=
  match s with
  | c :: s' =>
      if is_digit c then let '(a, b) := span_digits s' in (c :: a, b) else ([], s)
  | [] => ([], [])
  end.

(** The value of a list of digits, after the digits read so far. *)
Fixpoint digits_value (acc : Z) (s : list Z) : Z :=
  match s with
  | [] => acc
  | c :: s => digits_value (acc * 10 + (c - 48)) s
  end.

(** The double nearest to [m * 10 ^ e].  The two cut-offs keep the powers of
    ten small: beyond them the result is infinity, or zero. *)
Definition of_decimal (neg : bool) (m e : Z) : Z :=
  if m =? 0 then with_sign neg 0 else
  let nd := Z.of_nat (length (digits m)) in
  if 310 <? nd + e then with_sign neg infinity
  else if nd + e <? -330 then with_sign neg 0
  else if 0 <=? e then round_ratio neg (m * 10 ^ e) 1
  else round_ratio neg m (10 ^ (- e)).

(** The exponent part: its value, and the text after it. An [e] without digits
    is not part of the number. *)
Definition strtod_exponent (s : list Z) : Z * list Z :=
  match s with
  | c :: s1 =>
      if (c =? 101) || (c =? 69) then
        let '(neg, s2) := match s1 with
                          | d :: s2 => if d =? 45 then (true, s2)
                                       else if d =? 43 then (false, s2) else (false, s1)
                          | [] => (false, s1)
                          end in
        match span_digits s2 with
        | ([], _) => (0, s)
        | (ds, r) => (if neg then - digits_value 0 ds else digits_value 0 ds, r)
        end
      else (0, s)
  | [] => (0, s)
  end.

(** [strtod] with decimal point character [dp], on a text that starts with a
    digit or a minus sign and a digit: the value, and the text after the number
    (the position [endptr] is set to). *)
Definition strtod (dp : Z) (s : list Z) : Z * list Z :=
  let '(neg, s) := match s with
                   | c :: s' => if c =? 45 then (true, s') else (false, s)
                   | [] => (false, s)
                   end in
  let '(ip, s) := span_digits s in
  let '(fp, s) := match s with
                  | c :: s' => if c =? dp then span_digits s' else ([], s)
                  | [] => ([], s)
                  end in
  let '(ex, s) := strtod_exponent s in
  (of_decimal neg (digits_value 0 (ip ++ fp)) (ex - Z.of_nat (length fp)), s).

(** ** ["%.*g"] *)

(** The smallest [k >= k0] with [num * 10 ^ k >= den]. *)
Fixpoint scale_up (fuel : nat) (num den k : Z) : Z :=
  match fuel with
  | O => k
  | S fuel => if den <=? num then k else scale_up fuel (num * 10) den (k + 1)
  end.

(** Decimal exponent of [num / den]: the [x] with [10^x <= num/den < 10^(x+1)]. *)
Definition decimal_exponent (num den : Z) : Z :=
  if den <=? num then Z.of_nat (length (digits (num / den))) - 1
  else - scale_up 400 num den 0.

(** [p] significant digits of [num / den], with the exponent after rounding. *)
Definition round_digits (p num den : Z) : list Z * Z :=
  let x := decimal_exponent num den in
  let k := p - 1 - x in
  let d := if 0 <=? k then div_half_even (num * 10 ^ k) den
           else div_half_even num (den * 10 ^ (- k)) in
  if d =? 10 ^ p then (digits (d / 10), x + 1) else (digits d, x).

(** Drop the trailing zeros of a fractional part. *)
Fixpoint drop_zeros (s : list Z) : list Z :=
  match s with
  | 48 :: s => drop_zeros s
  | _ => s
  end.
Definition trim_zeros (s : list Z) : list Z := rev (drop_zeros (rev s)).

Definition point (dp : Z) (fp : list Z) : list Z :=
  match trim_zeros fp with
  | [] => []
  | fp => dp :: fp
  end.

Definition format_exponent (x : Z) : list Z :=
  let d := digits (Z.abs x) in
  [101; if x <? 0 then 45 else 43] ++
  (if Z.of_nat (length d) <? 2 then 48 :: d else d).

Definition format_g (p dp b : Z) : list Z :=
  let '(m, e) := magnitude b in
  let sgn := if signbit b then [45] else [] in
  if m =? 0 then sgn ++ [48] else
  let '(num, den) := if 0 <=? e then (m * 2 ^ e, 1) else (m, 2 ^ (- e)) in
  let '(ds, x) := round_digits p num den in
  sgn ++
  if (-4 <=? x) && (x <? p) then
    if 0 <=? x then
      take (Z.to_nat (x + 1)) ds ++ point dp (drop (Z.to_nat (x + 1)) ds)
    else 48 :: point dp (repeat 48 (Z.to_nat (- x - 1)) ++ ds)
  else
    take 1 ds ++ point dp (drop 1 ds) ++ format_exponent x.

(** ** Ranges *)

Lemma div_half_even_nonneg n d : 0 ≤ n → 0 < d → 0 ≤ div_half_even n d.
Proof.
  intros Hn Hd. unfold div_half_even. pose proof (Z.div_pos n d Hn Hd).
  pose proof (Z.mod_pos_bound (n / d) 2). repeat case_if; lia.
Qed.

Lemma with_sign_range neg b : 0 ≤ b < 2 ^ 63 → in_u 64 (with_sign neg b).
Proof. unfold with_sign, sign_bit, in_u. destruct neg; lia. Qed.

Lemma infinity_range : 0 ≤ infinity < 2 ^ 63.
Proof. by split. Qed.

Lemma round_ratio_range neg num den : 0 ≤ num → 0 < den → in_u 64 (round_ratio neg num den).
Proof.
  intros Hn Hd. unfold round_ratio. case_if; [by apply with_sign_range|].
  set (e := Z.max _ _). assert (-1074 ≤ e) by lia. clearbody e.
  assert (∃ n d, (if 0 <=? e then (num, den * 2 ^ e) else (num * 2 ^ (- e), den)) = (n, d) ∧
            0 ≤ n ∧ 0 < d) as (n & d & -> & Hn' & Hd').
  { case_if; eexists _, _; (split; [done|]); split; try done.
    - apply Z.mul_pos_pos; [done|]. apply Z.pow_pos_nonneg; lia.
    - apply Z.mul_nonneg_nonneg; [done|]. apply Z.pow_nonneg. lia. }
  apply with_sign_range. pose proof infinity_range.
  pose proof (div_half_even_nonneg n d Hn' Hd'). lia.
Qed.

Lemma of_decimal_range neg m e : 0 ≤ m → in_u 64 (of_decimal neg m e).
Proof.
  intros Hm. unfold of_decimal. repeat case_if; auto using with_sign_range, infinity_range.
  - by apply with_sign_range.
  - by apply with_sign_range.
  - apply round_ratio_range; [|lia]. apply Z.mul_nonneg_nonneg; [done|]. apply Z.pow_nonneg. lia.
  - apply round_ratio_range; [done|]. apply Z.pow_pos_nonneg; lia.
Qed.

Lemma digits_value_nonneg acc ds : 0 ≤ acc → Forall (λ c, is_digit c = true) ds →
  0 ≤ digits_value acc ds.
Proof.
  intros Hacc Hds. revert acc Hacc. induction Hds as [|c ds Hc _ IH]; intros acc Hacc; [done|].
  simpl. apply IH. unfold is_digit in Hc. zbool. lia.
Qed.

Example of_Z_42 : of_Z 42 = 0x4045000000000000.
Proof. vm_compute. reflexivity. Qed.
Example strtod_pi : strtod 46 (lit "3.141") = (0x400920C49BA5E354, []).
Proof. vm_compute. reflexivity. Qed.
Example strtod_exp : strtod 46 (lit "-1e-5") = (0xBEE4F8B588E368F1, []).
Proof. vm_compute. reflexivity. Qed.
Example strtod_min : strtod 46 (lit "4.9e-324") = (1, []).
Proof. vm_compute. reflexivity. Qed.
Example strtod_inf : strtod 46 (lit "1e400") = (infinity, []).
Proof. vm_compute. reflexivity. Qed.
Example g_pi : format_g 15 46 0x400920C49BA5E354 = lit "3.141".
Proof. vm_compute. reflexivity. Qed.
Example g_tenth : format_g 15 46 0x3FB999999999999A = lit "0.1".
Proof. vm_compute. reflexivity. Qed.
Example g_1e300 : format_g 15 46 0x7E37E43C8800759C = lit "1e+300".
Proof. vm_compute. reflexivity. Qed.
Example g_small : format_g 15 46 0x3EE4F8B588E368F1 = lit "1e-05".
Proof. vm_compute. reflexivity. Qed.
Example g_int : format_g 15 46 0x4045000000000000 = lit "42".
Proof. vm_compute. reflexivity. Qed.

End F64.
