(* ===== verification/Float32.v ===== *)
(** IEEE 754 binary32, for the conversions of [float]: narrowing a [double] or an
    integer, rounded to nearest, ties to even; and that a [float] survives being
    widened and narrowed. *)

From S2P Require Import Prelude Float64.

Module F32.
Import F64.

Definition with_sign32 (neg : bool) (b : Z) : Z := if neg then 2 ^ 31 + b else b.
Definition infinity32 : Z := 255 * 2 ^ 23.

Definition signbit32 (b : Z) : bool := 2 ^ 31 <=? b.
Definition expo32 (b : Z) : Z := (b / 2 ^ 23) mod 2 ^ 8.
Definition mant32 (b : Z) : Z := b mod 2 ^ 23.
Definition isnan32 (b : Z) : bool := (expo32 b =? 255) && negb (mant32 b =? 0).

(** The float nearest to [m * 2 ^ e], for [m >= 0]. *)
Definition round (neg : bool) (m e : Z) : Z :=
  if m =? 0 then with_sign32 neg 0 else
  let q := Z.max (Z.log2 m + e - 23) (-149) in
  let n := if 0 <=? q - e then div_half_even m (2 ^ (q - e)) else m * 2 ^ (e - q) in
  with_sign32 neg (Z.min ((q + 149) * 2 ^ 23 + n) infinity32).

(** [static_cast<float>] of a double and of an integer. *)
Definition of_double (b : Z) : Z :=
  if expo b =? 2047 then
    with_sign32 (signbit b)
      (if mant b =? 0 then infinity32 else Z.lor (infinity32 + 2 ^ 22) (mant b / 2 ^ 29))
  else let '(m, e) := magnitude b in round (signbit b) m e.

Definition of_Z (z : Z) : Z := round (z <? 0) (Z.abs z) 0.

Example of_double_tenth : of_double 0x3FB999999999999A = 0x3DCCCCCD.
Proof. reflexivity. Qed.
Example of_double_small : of_double 0x36A0000000000000 = 1.
Proof. reflexivity. Qed.
Example of_double_large : of_double 0x47F0000000000000 = infinity32.
Proof. reflexivity. Qed.
Example of_Z_ties : of_Z 16777217 = of_Z 16777216.
Proof. reflexivity. Qed.

(** ** Narrowing what was widened *)

Lemma div_half_even_exact q d : 0 < d → div_half_even (q * d) d = q.
Proof.
  intros Hd. unfold div_half_even. rewrite Z.div_mul, Z.mod_mul by lia. by ztests.
Qed.

(** The parts of a double. *)
Lemma parts neg E F : 0 ≤ E < 2048 → 0 ≤ F < 2 ^ 52 →
  signbit (with_sign neg (E * 2 ^ 52 + F)) = neg ∧ expo (with_sign neg (E * 2 ^ 52 + F)) = E ∧
  mant (with_sign neg (E * 2 ^ 52 + F)) = F.
Proof.
  intros HE HF. unfold signbit, expo, mant, with_sign, sign_bit.
  set (s := if neg then 2048 else 0).
  assert ((if neg then 2 ^ 63 + (E * 2 ^ 52 + F) else E * 2 ^ 52 + F) = (s + E) * 2 ^ 52 + F) as ->
    by (unfold s; destruct neg; lia).
  split_and!.
  - unfold s. destruct neg; ztests; lia.
  - rewrite Z.div_add_l, (Z.div_small F) by lia. unfold s.
    destruct neg; [|by rewrite Z.mod_small; lia].
    replace (2048 + E + 0) with (E + 1 * 2 ^ 11) by lia. rewrite Z.mod_add, Z.mod_small; lia.
  - rewrite Z.add_comm, Z.mod_add, Z.mod_small; lia.
Qed.

(** A double whose magnitude is [n * 2 ^ q] for the bits [n] and the exponent [q] of
    a float. *)
Lemma of_double_exact neg E F n q s :
  0 < E < 2047 → 0 ≤ F < 2 ^ 52 → 0 ≤ s → 2 ^ 52 + F = n * 2 ^ s → q = E - 1075 + s →
  q = Z.max (E - 1046) (-149) → (q + 149) * 2 ^ 23 + n ≤ infinity32 →
  of_double (with_sign neg (E * 2 ^ 52 + F)) = with_sign32 neg ((q + 149) * 2 ^ 23 + n).
Proof.
  intros HE HF Hs Hn Hq Hm Hi. destruct (parts neg E F) as (H1 & H2 & H3); [lia..|].
  unfold of_double, magnitude. rewrite H1, H2, H3. ztests. unfold round.
  assert (Z.log2 (2 ^ 52 + F) = 52) as -> by (apply Z.log2_unique; lia). ztests.
  replace (52 + (E - 1075) - 23) with (E - 1046) by lia. rewrite <-Hm.
  replace (q - (E - 1075)) with s by lia. ztests.
  rewrite Hn, div_half_even_exact by (apply Z.pow_pos_nonneg; lia).
  by rewrite Z.min_l.
Qed.

Lemma widen_subnormal neg m : 0 < m < 2 ^ 23 →
  let k := Z.log2 m in
  0 ≤ k ≤ 22 ∧ 2 ^ 52 ≤ m * 2 ^ (52 - k) < 2 ^ 53 ∧
  round_ratio neg m (2 ^ 149) = with_sign neg ((k + 874) * 2 ^ 52 + (m * 2 ^ (52 - k) - 2 ^ 52)).
Proof.
  intros Hm k. assert (0 ≤ k ≤ 22) as Hk.
  { unfold k. split; [apply Z.log2_nonneg|]. apply Z.lt_succ_r, Z.log2_lt_pow2; cbn; lia. }
  assert (2 ^ 52 ≤ m * 2 ^ (52 - k) < 2 ^ 53) as HM.
  { destruct (Z.log2_spec m) as [Hl Hu]; [lia|]. fold k in Hl, Hu.
    replace (2 ^ 52) with (2 ^ k * 2 ^ (52 - k)) by (rewrite <-Z.pow_add_r by lia; f_equal; lia).
    replace (2 ^ 53) with (2 ^ Z.succ k * 2 ^ (52 - k)) by (rewrite <-Z.pow_add_r by lia; f_equal; lia).
    pose proof (Z.pow_pos_nonneg 2 (52 - k)). split; [apply Z.mul_le_mono_nonneg_r|apply Z.mul_lt_mono_pos_r]; lia. }
  split; [done|]. split; [done|]. unfold round_ratio. rewrite Z.log2_pow2 by lia. fold k. ztests.
  replace (k - 149 - 52) with (k - 201) by lia. ztests.
  assert (m * 2 ^ (- (k - 201)) = m * 2 ^ (52 - k) * 2 ^ 149) as Hs.
  { rewrite <-Z.mul_assoc, <-Z.pow_add_r by lia. do 2 f_equal. lia. }
  rewrite Hs, Z.div_mul by lia. ztests. rewrite Z.max_l by lia. ztests.
  rewrite Hs, div_half_even_exact by lia. f_equal.
  rewrite Z.min_l; [lia|]. unfold infinity. lia.
Qed.

Lemma parts32 b : in_u 32 b →
  b = with_sign32 (signbit32 b) (expo32 b * 2 ^ 23 + mant32 b) ∧
  0 ≤ expo32 b < 256 ∧ 0 ≤ mant32 b < 2 ^ 23.
Proof.
  intros Hb. unfold in_u in Hb. split_and!; try (apply Z.mod_pos_bound; lia).
  unfold with_sign32, signbit32, expo32, mant32.
  pose proof (Z.div_mod b (2 ^ 23)). pose proof (Z.mod_pos_bound b (2 ^ 23)).
  pose proof (Z.div_mod (b / 2 ^ 23) (2 ^ 8)). pose proof (Z.mod_pos_bound (b / 2 ^ 23) (2 ^ 8)).
  destruct (Z.leb_spec (2 ^ 31) b) as [Hs|Hs]; lia.
Qed.

(** Every float that is not a NaN. *)
Lemma narrow_widen b : in_u 32 b → isnan32 b = false → of_double (of_float32 b) = b.
Proof.
  intros Hb Hn. destruct (parts32 b Hb) as (HE & He & Hm).
  unfold of_float32. fold (signbit32 b) (expo32 b) (mant32 b).
  transitivity (with_sign32 (signbit32 b) (expo32 b * 2 ^ 23 + mant32 b)); [|done].
  unfold isnan32 in Hn. clear HE Hb. revert He Hm Hn.
  generalize (signbit32 b) (expo32 b) (mant32 b). clear b. intros neg e m He Hm Hn.
  destruct (Z.eqb_spec e 255) as [->|He255].
  { destruct (Z.eqb_spec m 0) as [->|]; [|done].
    destruct (parts neg 2047 0) as (H1 & H2 & H3); [lia..|].
    unfold of_double, infinity. rewrite Z.add_0_r in H1, H2, H3. by rewrite H1, H2, H3. }
  destruct (Z.eqb_spec e 0) as [->|He0].
  - destruct (Z.eqb_spec m 0) as [->|Hm0]; [by destruct neg|].
    destruct (widen_subnormal neg m) as (Hk & HM & ->); [lia|].
    rewrite (of_double_exact neg _ _ m (-149) (52 - Z.log2 m)); unfold infinity32; (done || lia).
  - rewrite Z.shiftl_mul_pow2 by lia.
    rewrite (of_double_exact neg _ _ (2 ^ 23 + m) (e - 150) 29); unfold infinity32; try lia.
    f_equal. lia.
Qed.

Lemma widen_range b : in_u 32 b → isnan32 b = false → in_u 64 (of_float32 b).
Proof.
  intros Hb Hn. destruct (parts32 b Hb) as (_ & He & Hm). unfold isnan32 in Hn.
  unfold of_float32. fold (signbit32 b) (expo32 b) (mant32 b).
  destruct (Z.eqb_spec (expo32 b) 255) as [He255|_].
  { destruct (mant32 b =? 0); [|done]. apply with_sign_range, infinity_range. }
  destruct (Z.eqb_spec (expo32 b) 0) as [_|He0]; [by apply round_ratio_range; lia|].
  rewrite Z.shiftl_mul_pow2 by lia. apply with_sign_range. lia.
Qed.
End F32.
