(* ===== verification/JsonValue.v ===== *)
(** JSON values of json/json.hpp: the type tag, the value, the exceptions,
    [std::map] as the object container, comparison, and the invariant every
    value of the library keeps. *)

From S2P Require Import Prelude Float64.

(** ** Exceptions (class [detail::exception] and its subclasses)

    Each carries the id, and the text [what()] returns. The next three are the
    standard library's own exceptions, which some paths let escape.  The last
    two end an execution that has no defined continuation: a failed [assert],
    and an access outside an array. *)

Inductive exn : Type :=
  | parse_error (id byte : Z) (what : list Z)
  | invalid_iterator (id : Z) (what : list Z)
  | type_error (id : Z) (what : list Z)
  | out_of_range (id : Z) (what : list Z)
  | other_error (id : Z) (what : list Z)
  | std_invalid_argument
  | std_out_of_range
  | std_length_error
  | assert_failure
  | out_of_bounds.

Abbreviation result := (res exn).

(** [exception::name]. *)
Definition exception_name (ename : list Z) (id_ : Z) : list Z :=
  lit "[json.exception." ++ ename ++ lit "." ++ to_string id_ ++ lit "] ".

Definition parse_error_create (id_ byte_ : Z) (what_arg : list Z) : exn :=
  parse_error id_ byte_
    (exception_name (lit "parse_error") id_ ++ lit "parse error" ++
     (if negb (byte_ =? 0) then lit " at " ++ to_string byte_ else []) ++
     lit ": " ++ what_arg).

Definition invalid_iterator_create (id_ : Z) (what_arg : list Z) : exn :=
  invalid_iterator id_ (exception_name (lit "invalid_iterator") id_ ++ what_arg).

Definition type_error_create (id_ : Z) (what_arg : list Z) : exn :=
  type_error id_ (exception_name (lit "type_error") id_ ++ what_arg).

Definition out_of_range_create (id_ : Z) (what_arg : list Z) : exn :=
  out_of_range id_ (exception_name (lit "out_of_range") id_ ++ what_arg).

Definition other_error_create (id_ : Z) (what_arg : list Z) : exn :=
  other_error id_ (exception_name (lit "other_error") id_ ++ what_arg).

(** The id of a library exception. *)
Definition exn_id (e : exn) : option Z :=
  match e with
  | parse_error id _ _ | invalid_iterator id _ | type_error id _
  | out_of_range id _ | other_error id _ => Some id
  | _ => None
  end.

(** ** The type tag *)

Inductive value_t : Type :=
  | t_null | t_object | t_array | t_string | t_boolean
  | t_number_integer | t_number_unsigned | t_number_float | t_discarded.

#[global] Instance value_t_eq_dec : EqDecision value_t.
Proof. solve_decision. Defined.

(** The table [order] of [operator<(value_t, value_t)]; it has no entry for
    [discarded], which the comparison excludes first. *)
Definition value_t_order (t : value_t) : Z :=
  match t with
  | t_null => 0
  | t_object => 3
  | t_array => 4
  | t_string => 5
  | t_boolean => 1
  | t_number_integer => 2
  | t_number_unsigned => 2
  | t_number_float => 2
  | t_discarded => 0
  end.

Definition value_t_lt (lhs rhs : value_t) : bool :=
  bool_decide (lhs ≠ t_discarded) && bool_decide (rhs ≠ t_discarded) &&
  (value_t_order lhs <? value_t_order rhs).

(** ** [std::string] comparison ([char_traits<char>::compare]) *)

Fixpoint string_compare (a b : list Z) : comparison :=
  match a, b with
  | [], [] => Eq
  | [], _ :: _ => Lt
  | _ :: _, [] => Gt
  | x :: a, y :: b =>
      match x ?= y with
      | Eq => string_compare a b
      | c => c
      end
  end.

Lemma string_compare_eq a b : string_compare a b = Eq ↔ a = b.
Proof.
  revert b. induction a as [|x a IH]; intros [|y b]; simpl; try done.
  destruct (Z.compare_spec x y); [rewrite IH|..]; split; intros; simplify_eq; auto; lia.
Qed.

Lemma string_compare_refl a : string_compare a a = Eq.
Proof. by apply string_compare_eq. Qed.

Lemma string_compare_antisym a b : string_compare b a = CompOpp (string_compare a b).
Proof.
  revert b. induction a as [|x a IH]; intros [|y b]; simpl; try done.
  rewrite (Z.compare_antisym x y). destruct (x ?= y); simpl; auto.
Qed.

Lemma string_compare_trans a b c :
  string_compare a b = Lt → string_compare b c = Lt → string_compare a c = Lt.
Proof.
  revert b c. induction a as [|x a IH]; intros [|y b] [|z c]; simpl; try done.
  destruct (x ?= y) eqn:E1, (y ?= z) eqn:E2; intros; try done;
    rewrite ?Z.compare_eq_iff, ?Z.compare_lt_iff in *;
    first [ rewrite (proj2 (Z.compare_eq_iff x z)) by lia; by eauto
          | by rewrite (proj2 (Z.compare_lt_iff x z)) by lia ].
Qed.

(** ** Values *)

Inductive json : Type :=
  | JNull
  | JObject (o : list (list Z * json))
  | JArray (a : list json)
  | JString (s : list Z)
  | JBool (b : bool)
  | JInt (z : Z)
  | JUInt (z : Z)
  | JFloat (f : Z)
  | JDiscarded.

Section json_ind'.
Variable P : json → Prop.
Hypothesis Hnull : P JNull.
Hypothesis Hobject : ∀ o, Forall (λ kv, P kv.2) o → P (JObject o).
Hypothesis Harray : ∀ a, Forall P a → P (JArray a).
Hypothesis Hstring : ∀ s, P (JString s).
Hypothesis Hbool : ∀ b, P (JBool b).
Hypothesis Hint : ∀ z, P (JInt z).
Hypothesis Huint : ∀ z, P (JUInt z).
Hypothesis Hfloat : ∀ f, P (JFloat f).
Hypothesis Hdiscarded : P JDiscarded.

(** Induction on values, with the hypothesis for every element of an array
    and every member of an object. *)
Fixpoint json_induction (j : json) : P j :=
  match j with
  | JNull => Hnull
  | JObject o => Hobject o
      ((fix go o : Forall (λ kv, P kv.2) o :=
          match o with
          | [] => Forall_nil_2 _
          | kv :: o => Forall_cons_2 _ kv o (json_induction kv.2) (go o)
          end) o)
  | JArray a => Harray a
      ((fix go a : Forall P a :=
          match a with
          | [] => Forall_nil_2 _
          | v :: a => Forall_cons_2 _ v a (json_induction v) (go a)
          end) a)
  | JString s => Hstring s
  | JBool b => Hbool b
  | JInt z => Hint z
  | JUInt z => Huint z
  | JFloat f => Hfloat f
  | JDiscarded => Hdiscarded
  end.
End json_ind'.

Definition m_type (j : json) : value_t :=
  match j with
  | JNull => t_null
  | JObject _ => t_object
  | JArray _ => t_array
  | JString _ => t_string
  | JBool _ => t_boolean
  | JInt _ => t_number_integer
  | JUInt _ => t_number_unsigned
  | JFloat _ => t_number_float
  | JDiscarded => t_discarded
  end.

Definition is_discarded (j : json) : bool := bool_decide (m_type j = t_discarded).

(** ** [object_t], a [std::map<std::string, basic_json>]

    The pairs in iteration order, which is the order of the keys. *)

Section omap.
Context {V : Type}.
Implicit Types (m : list (list Z * V)) (k : list Z) (v : V).

Definition key_lt (p q : list Z * V) : Prop := string_compare p.1 q.1 = Lt.

Definition omap_sorted m : Prop := StronglySorted key_lt m.

Fixpoint omap_find k m : option V :=
  match m with
  | [] => None
  | (k', v) :: m =>
      match string_compare k k' with
      | Eq => Some v
      | _ => omap_find k m
      end
  end.

(** [insert] and [emplace]: an existing key keeps its value. *)
Fixpoint omap_emplace k v m : list (list Z * V) :=
  match m with
  | [] => [(k, v)]
  | (k', v') :: m' =>
      match string_compare k k' with
      | Lt => (k, v) :: m
      | Eq => m
      | Gt => (k', v') :: omap_emplace k v m'
      end
  end.

(** [m[k] = v]: an existing key gets the new value. *)
Fixpoint omap_assign k v m : list (list Z * V) :=
  match m with
  | [] => [(k, v)]
  | (k', v') :: m' =>
      match string_compare k k' with
      | Lt => (k, v) :: m
      | Eq => (k', v) :: m'
      | Gt => (k', v') :: omap_assign k v m'
      end
  end.

Fixpoint omap_erase k m : list (list Z * V) :=
  match m with
  | [] => []
  | (k', v') :: m' =>
      match string_compare k k' with
      | Eq => m'
      | _ => (k', v') :: omap_erase k m'
      end
  end.

Lemma omap_emplace_keys k v m :
  Forall (λ p, string_compare p.1 k = Lt) m → omap_emplace k v m = m ++ [(k, v)].
Proof.
  induction 1 as [|[k' v'] m Hk _ IH]; simpl in *; [done|].
  rewrite string_compare_antisym, Hk. simpl. by rewrite IH.
Qed.

Lemma omap_sorted_app_keys m k v m2 :
  omap_sorted ((m ++ [(k, v)]) ++ m2) → Forall (λ p, string_compare p.1 k = Lt) m.
Proof.
  unfold omap_sorted. induction m as [|p m IH]; simpl; [constructor|].
  intros [Hs Hall]%StronglySorted_inv. constructor; [|by apply IH].
  rewrite !Forall_app in Hall. destruct Hall as [[_ Hk] _].
  by apply Forall_cons in Hk as [? _].
Qed.

Lemma omap_emplace_Forall (P : list Z * V → Prop) k v m :
  P (k, v) → Forall P m → Forall P (omap_emplace k v m).
Proof.
  intros Hkv. induction 1 as [|[k' v'] m Hp Hm IH]; simpl; [by constructor|].
  destruct (string_compare k k'); repeat constructor; auto.
Qed.

Lemma omap_assign_Forall (P : list Z * V → Prop) k v m :
  (∀ k', string_compare k k' = Eq → P (k', v)) →
  Forall P m → Forall P (omap_assign k v m).
Proof.
  intros Hkv. induction 1 as [|[k' v'] m Hp Hm IH]; simpl.
  - constructor; [|done]. apply Hkv, string_compare_refl.
  - destruct (string_compare k k') eqn:E; repeat constructor; auto.
    apply Hkv, string_compare_refl.
Qed.

Lemma omap_emplace_sorted k v m : omap_sorted m → omap_sorted (omap_emplace k v m).
Proof.
  unfold omap_sorted. induction 1 as [|[k' v'] m Hm IH Hall]; simpl.
  - repeat constructor.
  - destruct (string_compare k k') eqn:E.
    + by constructor.
    + constructor; [by constructor|]. constructor; [done|].
      eapply Forall_impl; [apply Hall|]. intros p Hp. by eapply string_compare_trans.
    + constructor; [done|]. apply omap_emplace_Forall; [|done].
      unfold key_lt. simpl. by rewrite string_compare_antisym, E.
Qed.

Lemma omap_emplace_found k v m :
  omap_sorted m → is_Some (omap_find k m) → omap_emplace k v m = m.
Proof.
  unfold omap_sorted. induction 1 as [|[k' v'] m Hm IH Hall]; simpl; [by intros []|].
  destruct (string_compare k k') eqn:E; [done| |intros; by rewrite IH].
  intros [x Hx]. exfalso. clear IH Hm. induction Hall as [|[k2 v2] m Hk Hall IH2]; simpl in *; [done|].
  by rewrite (string_compare_trans k k' k2) in Hx; auto.
Qed.

Lemma omap_assign_sorted k v m : omap_sorted m → omap_sorted (omap_assign k v m).
Proof.
  unfold omap_sorted. induction 1 as [|[k' v'] m Hm IH Hall]; simpl.
  - repeat constructor.
  - destruct (string_compare k k') eqn:E.
    + by constructor.
    + constructor; [by constructor|]. constructor; [done|].
      eapply Forall_impl; [apply Hall|]. intros p Hp. by eapply string_compare_trans.
    + constructor; [done|]. apply omap_assign_Forall; [|done].
      intros k2 Hk2. apply string_compare_eq in Hk2 as <-.
      unfold key_lt. simpl. by rewrite string_compare_antisym, E.
Qed.

Lemma omap_erase_Forall (P : list Z * V → Prop) k m : Forall P m → Forall P (omap_erase k m).
Proof.
  induction 1 as [|[k' v'] m Hp Hm IH]; simpl; [done|].
  destruct (string_compare k k'); repeat constructor; auto.
Qed.

Lemma omap_erase_sorted k m : omap_sorted m → omap_sorted (omap_erase k m).
Proof.
  unfold omap_sorted. induction 1 as [|[k' v'] m Hm IH Hall]; simpl; [constructor|].
  destruct (string_compare k k'); [done|..]; constructor; auto using omap_erase_Forall.
Qed.

Lemma omap_erase_missing k m : omap_find k m = None → omap_erase k m = m.
Proof.
  induction m as [|[k' v'] m IH]; simpl; [done|].
  destruct (string_compare k k'); try done; intros; by rewrite IH.
Qed.

Lemma omap_find_assign k v m k2 : omap_sorted m →
  omap_find k2 (omap_assign k v m) =
    if bool_decide (k2 = k) then Some v else omap_find k2 m.
Proof.
  induction 1 as [|[k' v'] m Hm IH Hall]; simpl.
  - case_bool_decide as Hk; [subst; by rewrite string_compare_refl|].
    destruct (string_compare k2 k) eqn:E; try done. by apply string_compare_eq in E.
  - destruct (string_compare k k') eqn:E; simpl.
    + apply string_compare_eq in E as <-. case_bool_decide as Hk.
      * subst. by rewrite string_compare_refl.
      * destruct (string_compare k2 k) eqn:E2; try done. by apply string_compare_eq in E2.
    + case_bool_decide as Hk; [subst; by rewrite string_compare_refl|].
      destruct (string_compare k2 k) eqn:E2; try done. by apply string_compare_eq in E2.
    + rewrite IH. case_bool_decide as Hk; [|done]. subst. by rewrite E.
Qed.

(** The head of a sorted map is below every key of the rest. *)
Lemma omap_find_lt k m : Forall (λ p, string_compare k p.1 = Lt) m → omap_find k m = None.
Proof. induction 1 as [|[k' v] m Hk _ IH]; simpl in *; [done|]. by rewrite Hk. Qed.

Lemma omap_assign_twice k v w m : omap_assign k w (omap_assign k v m) = omap_assign k w m.
Proof.
  induction m as [|[k' v'] m IH]; simpl; [by rewrite string_compare_refl|].
  destruct (string_compare k k') eqn:E; simpl; rewrite ?E, ?string_compare_refl; by rewrite ?IH.
Qed.

Lemma omap_find_elem k v m : omap_sorted m → (k, v) ∈ m → omap_find k m = Some v.
Proof.
  induction 1 as [|[k' v'] m Hm IH Hall]; simpl; [by intros ?%elem_of_nil|].
  intros [[= -> ->]|H]%elem_of_cons; [by rewrite string_compare_refl|].
  rewrite IH by done. rewrite Forall_forall in Hall. specialize (Hall _ H).
  unfold key_lt in Hall. simpl in Hall. by rewrite string_compare_antisym, Hall.
Qed.

Lemma omap_find_Some k v m : omap_find k m = Some v → (k, v) ∈ m.
Proof.
  induction m as [|[k' v'] m IH]; simpl; [done|].
  destruct (string_compare k k') eqn:E; intros; [|by right; auto..].
  apply string_compare_eq in E as ->. simplify_eq. by left.
Qed.

Lemma omap_find_fst k m : is_Some (omap_find k m) ↔ k ∈ m.*1.
Proof.
  split.
  - intros [v H%omap_find_Some]. by apply (list_elem_of_fmap_2 fst m (k, v)).
  - induction m as [|[k' v'] m IH]; simpl; [by intros ?%elem_of_nil|].
    intros [->|H]%elem_of_cons; [rewrite string_compare_refl; eauto|].
    destruct (string_compare k k'); eauto.
Qed.

Lemma omap_assign_same k v m : omap_sorted m → omap_find k m = Some v → omap_assign k v m = m.
Proof.
  induction 1 as [|[k' v'] m Hm IH Hall]; simpl; [done|].
  destruct (string_compare k k') eqn:E; intros H; simplify_eq; [done|..].
  - exfalso. rewrite omap_find_lt in H; [done|]. eapply Forall_impl; [apply Hall|].
    intros p Hp. by eapply string_compare_trans.
  - by rewrite IH.
Qed.

Lemma omap_assign_find k v m : omap_find k (omap_assign k v m) = Some v.
Proof.
  induction m as [|[k' v'] m IH]; simpl; [by rewrite string_compare_refl|].
  destruct (string_compare k k') eqn:E; simpl; rewrite ?E, ?string_compare_refl; auto.
Qed.

Lemma omap_emplace_missing k v m : omap_find k m = None → omap_emplace k v m = omap_assign k v m.
Proof.
  induction m as [|[k' v'] m IH]; simpl; [done|].
  destruct (string_compare k k'); try done. intros. by rewrite IH.
Qed.
End omap.

(** ** The invariant of a value

    Objects are sorted by key without duplicates, strings hold bytes, numbers
    fit their 64 bits, and containers have a [size_t] length. *)

Definition size_ok {A} (l : list A) : Prop := Z.of_nat (length l) < 2 ^ 64.

Fixpoint json_wf (j : json) : Prop :=
  match j with
  | JNull | JBool _ | JDiscarded => True
  | JObject o =>
      omap_sorted o ∧ size_ok o ∧ Forall (λ kv, is_bytes kv.1 ∧ size_ok kv.1) o ∧
      (fix go o := match o with [] => True | kv :: o => json_wf kv.2 ∧ go o end) o
  | JArray a =>
      size_ok a ∧ (fix go a := match a with [] => True | v :: a => json_wf v ∧ go a end) a
  | JString s => is_bytes s ∧ size_ok s
  | JInt z => in_s 64 z
  | JUInt z => in_u 64 z
  | JFloat f => in_u 64 f
  end.

Lemma json_wf_array a : json_wf (JArray a) ↔ size_ok a ∧ Forall json_wf a.
Proof.
  simpl. apply and_iff_compat_l. induction a; simpl; [by split; constructor|].
  rewrite Forall_cons. naive_solver.
Qed.

Lemma json_wf_object o : json_wf (JObject o) ↔
  omap_sorted o ∧ size_ok o ∧ Forall (λ kv, is_bytes kv.1 ∧ size_ok kv.1) o ∧
  Forall (λ kv, json_wf kv.2) o.
Proof.
  simpl. do 3 apply and_iff_compat_l. induction o; simpl; [by split; constructor|].
  rewrite Forall_cons. naive_solver.
Qed.

(** The same invariant without the bounds on lengths. *)
Fixpoint json_typed (j : json) : Prop :=
  match j with
  | JNull | JBool _ | JDiscarded => True
  | JObject o =>
      omap_sorted o ∧ Forall (λ kv, is_bytes kv.1) o ∧
      (fix go o := match o with [] => True | kv :: o => json_typed kv.2 ∧ go o end) o
  | JArray a => (fix go a := match a with [] => True | v :: a => json_typed v ∧ go a end) a
  | JString s => is_bytes s
  | JInt z => in_s 64 z
  | JUInt z => in_u 64 z
  | JFloat f => in_u 64 f
  end.

Lemma json_typed_array a : json_typed (JArray a) ↔ Forall json_typed a.
Proof. simpl. induction a; simpl; [by split; constructor|]. rewrite Forall_cons. naive_solver. Qed.

Lemma json_typed_object o : json_typed (JObject o) ↔
  omap_sorted o ∧ Forall (λ kv, is_bytes kv.1) o ∧ Forall (λ kv, json_typed kv.2) o.
Proof.
  simpl. do 2 apply and_iff_compat_l. induction o; simpl; [by split; constructor|].
  rewrite Forall_cons. naive_solver.
Qed.

Lemma json_wf_typed j : json_wf j → json_typed j.
Proof.
  induction j as [|o IH|a IH|s|b|z|z|f|] using json_induction; try done.
  - rewrite json_wf_object, json_typed_object, !Forall_forall in *. naive_solver.
  - rewrite json_wf_array, json_typed_array, !Forall_forall in *. naive_solver.
  - by intros [? _].
Qed.

(** No part of the value is [discarded]. *)
Fixpoint no_discarded (j : json) : Prop :=
  match j with
  | JDiscarded => False
  | JObject o => (fix go o := match o with [] => True | kv :: o => no_discarded kv.2 ∧ go o end) o
  | JArray a => (fix go a := match a with [] => True | v :: a => no_discarded v ∧ go a end) a
  | _ => True
  end.

Lemma no_discarded_array a : no_discarded (JArray a) ↔ Forall no_discarded a.
Proof. simpl. induction a; simpl; [by split; constructor|]. rewrite Forall_cons. naive_solver. Qed.

Lemma no_discarded_object o : no_discarded (JObject o) ↔ Forall (λ kv, no_discarded kv.2) o.
Proof. simpl. induction o; simpl; [by split; constructor|]. rewrite Forall_cons. naive_solver. Qed.

(** ** [operator==] *)

Fixpoint json_eq (lhs rhs : json) : bool :=
  match lhs, rhs with
  | JArray a, JArray b =>
      (fix go a b := match a, b with
                     | [], [] => true
                     | x :: a, y :: b => json_eq x y && go a b
                     | _, _ => false
                     end) a b
  | JObject a, JObject b =>
      (fix go a b := match a, b with
                     | [], [] => true
                     | x :: a, y :: b =>
                         bool_decide (x.1 = y.1) && json_eq x.2 y.2 && go a b
                     | _, _ => false
                     end) a b
  | JNull, JNull => true
  | JString a, JString b => bool_decide (a = b)
  | JBool a, JBool b => Bool.eqb a b
  | JInt a, JInt b => a =? b
  | JUInt a, JUInt b => a =? b
  | JFloat a, JFloat b => F64.feq a b
  | JInt a, JFloat b => F64.feq (F64.of_Z a) b
  | JFloat a, JInt b => F64.feq a (F64.of_Z b)
  | JUInt a, JFloat b => F64.feq (F64.of_Z a) b
  | JFloat a, JUInt b => F64.feq a (F64.of_Z b)
  | JUInt a, JInt b => swrap 64 a =? b
  | JInt a, JUInt b => a =? swrap 64 b
  | _, _ => false
  end.

(** What a value looks like after a trip through an encoding that does not keep
    the signedness of non-negative integers. *)
Fixpoint canon (j : json) : json :=
  match j with
  | JInt z => if 0 <=? z then JUInt z else JInt z
  | JArray a => JArray ((fix go a := match a with [] => [] | v :: a => canon v :: go a end) a)
  | JObject o =>
      JObject ((fix go o := match o with
                            | [] => []
                            | kv :: o => (kv.1, canon kv.2) :: go o
                            end) o)
  | j => j
  end.

Lemma canon_array a : canon (JArray a) = JArray (canon <$> a).
Proof. reflexivity. Qed.

Lemma canon_object o : canon (JObject o) = JObject ((λ kv, (kv.1, canon kv.2)) <$> o).
Proof. reflexivity. Qed.

(** No floating point number of the value is a NaN. *)
Fixpoint no_nan (j : json) : Prop :=
  match j with
  | JFloat f => F64.isnan f = false
  | JObject o => (fix go o := match o with [] => True | kv :: o => no_nan kv.2 ∧ go o end) o
  | JArray a => (fix go a := match a with [] => True | v :: a => no_nan v ∧ go a end) a
  | _ => True
  end.

(** [operator==] does not see the difference. *)
Lemma json_eq_canon j : json_typed j → no_discarded j → no_nan j → json_eq (canon j) j = true.
Proof.
  induction j as [|o IH|a IH|s|b|z|z|f|] using json_induction; try done.
  - rewrite json_typed_object, no_discarded_object, canon_object. intros (_ & _ & Ht) Hd Hn.
    simpl in *. induction IH as [|kv o Hkv _ IHo]; [done|]. simpl.
    apply Forall_cons in Ht as [??], Hd as [??]. destruct Hn.
    rewrite bool_decide_eq_true_2 by done. rewrite Hkv by done. by apply IHo.
  - rewrite json_typed_array, no_discarded_array, canon_array. intros Ht Hd Hn.
    simpl in *. induction IH as [|v a Hv _ IHa]; [done|]. simpl.
    apply Forall_cons in Ht as [??], Hd as [??]. destruct Hn.
    rewrite Hv by done. by apply IHa.
  - intros _ _ _. simpl. by apply bool_decide_eq_true_2.
  - intros _ _ _. by destruct b.
  - intros Hz _ _. simpl in *. case_if; simpl; [|by apply Z.eqb_refl].
    rewrite swrap_small by done. apply Z.eqb_refl.
  - intros _ _ _. apply Z.eqb_refl.
  - intros _ _ Hn. simpl in *. unfold F64.feq. by rewrite Hn, Z.eqb_refl.
Qed.

Lemma fmap_snd_sorted {V W} (f : V → W) (o : list (list Z * V)) :
  omap_sorted o → omap_sorted ((λ kv, (kv.1, f kv.2)) <$> o).
Proof.
  unfold omap_sorted. induction 1 as [|kv o Ho IH Hall]; simpl; constructor; [done|].
  apply Forall_fmap. eapply Forall_impl; [apply Hall|]. done.
Qed.

#[export] Hint Resolve omap_emplace_sorted omap_assign_sorted string_compare_refl : cxx.
