(* ===== verification/JsonOrder.v ===== *)
(** The order of JSON values: [operator<] and the comparisons made of it.

    The containers are compared with [std::lexicographical_compare], which asks for
    both [x < y] and [y < x] of the elements.  The recursion follows the left hand
    value; a flag tells which of the two questions is asked. *)

From S2P Require Import Prelude Float64 JsonValue.

(** ** [operator<] *)

(** The cases without recursion: equal types, the six mixed cases of numbers, and
    otherwise the order of the types. *)
Definition scalar_lt (lhs rhs : json) : bool :=
  match lhs, rhs with
  | JNull, JNull => false
  | JString a, JString b => bool_decide (string_compare a b = Lt)
  | JBool a, JBool b => negb a && b
  | JInt a, JInt b => a <? b
  | JUInt a, JUInt b => a <? b
  | JFloat a, JFloat b => F64.flt a b
  | JInt a, JFloat b => F64.flt (F64.of_Z a) b
  | JFloat a, JInt b => F64.flt a (F64.of_Z b)
  | JUInt a, JFloat b => F64.flt (F64.of_Z a) b
  | JFloat a, JUInt b => F64.flt a (F64.of_Z b)
  | JInt a, JUInt b => a <? swrap 64 b
  | JUInt a, JInt b => swrap 64 a <? b
  | _, _ => value_t_lt (m_type lhs) (m_type rhs)
  end.

(** [lhs < rhs], or with [swap] [rhs < lhs]. *)
Fixpoint less (swap : bool) (lhs rhs : json) : bool :=
  match lhs, rhs with
  | JArray a, JArray b =>
      (fix go a b := match a, b with
                     | [], [] => false
                     | [], _ :: _ => negb swap
                     | _ :: _, [] => swap
                     | x :: a, y :: b =>
                         if less swap x y then true
                         else if less (negb swap) x y then false
                         else go a b
                     end) a b
  | JObject a, JObject b =>
      (fix go a b := match a, b with
                     | [], [] => false
                     | [], _ :: _ => negb swap
                     | _ :: _, [] => swap
                     | x :: a, y :: b =>
                         match string_compare x.1 y.1 with
                         | Lt => negb swap
                         | Gt => swap
                         | Eq => if less swap x.2 y.2 then true
                                 else if less (negb swap) x.2 y.2 then false
                                 else go a b
                         end
                     end) a b
  | _, _ => if swap then scalar_lt rhs lhs else scalar_lt lhs rhs
  end.

Definition json_lt (lhs rhs : json) : bool := less false lhs rhs.

Definition json_le (lhs rhs : json) : bool := negb (json_lt rhs lhs).
Definition json_gt (lhs rhs : json) : bool := negb (json_le lhs rhs).
Definition json_ge (lhs rhs : json) : bool := negb (json_lt lhs rhs).

(** ** The definition is [std::lexicographical_compare] *)

Fixpoint lexicographical_compare {A} (lt : A → A → bool) (a b : list A) : bool :=
  match a, b with
  | _, [] => false
  | [], _ :: _ => true
  | x :: a, y :: b =>
      if lt x y then true else if lt y x then false else lexicographical_compare lt a b
  end.

(** [operator<] of [std::pair] and of [std::string]. *)
Definition string_lt (a b : list Z) : bool := bool_decide (string_compare a b = Lt).
Definition pair_lt (x y : list Z * json) : bool :=
  string_lt x.1 y.1 || (negb (string_lt y.1 x.1) && json_lt x.2 y.2).

Lemma less_swap s a b : less s a b = less (negb s) b a.
Proof.
  revert s b. induction a as [|o IH|a IH|t|b0|z|z|f|] using json_induction; intros s b;
    try (by destruct s, b).
  - destruct b as [|o2|a2|t|b0|z|z|f|]; try (by destruct s). cbn. revert o2.
    induction IH as [|[k x] o Hx _ IHo]; intros [|[k2 y] o2]; try (by destruct s). cbn in *.
    rewrite (string_compare_antisym k k2), (Hx s y), (Hx (negb s) y), (IHo o2).
    by destruct (string_compare k k2), s.
  - destruct b as [|o2|a2|t|b0|z|z|f|]; try (by destruct s). cbn. revert a2.
    induction IH as [|x a Hx _ IHa]; intros [|y a2]; try (by destruct s). cbn in *.
    by rewrite (Hx s y), (Hx (negb s) y), (IHa a2).
Qed.

Lemma json_lt_array a b : json_lt (JArray a) (JArray b) = lexicographical_compare json_lt a b.
Proof.
  revert b. induction a as [|x a IH]; intros [|y b]; try done. cbn.
  rewrite (less_swap true x y). cbn. fold (json_lt x y) (json_lt y x). by rewrite <-IH.
Qed.

Lemma json_lt_object a b : json_lt (JObject a) (JObject b) = lexicographical_compare pair_lt a b.
Proof.
  revert b. induction a as [|[k x] a IH]; intros [|[l y] b]; try done. cbn.
  unfold pair_lt, string_lt. cbn. rewrite <-IH, (less_swap true x y), (string_compare_antisym k l).
  fold (json_lt x y) (json_lt y x). by destruct (string_compare k l).
Qed.

(** ** A key that the order follows

    A list of integers for every value, such that no key is the beginning of
    another one.  Numbers have the position of the [double] they convert to. *)

Definition number_key (j : json) : Z :=
  match j with
  | JInt z | JUInt z => F64.key (F64.of_Z z)
  | JFloat f => F64.key f
  | _ => 0
  end.

Definition string_key (s : list Z) : list Z := (Z.succ <$> s) ++ [0].

Fixpoint sort_key (j : json) : list Z :=
  match j with
  | JNull | JDiscarded => [0]
  | JBool b => [1; Z.b2z b]
  | JInt _ | JUInt _ | JFloat _ => [2; number_key j]
  | JObject o =>
      3 :: (fix go o := match o with
                        | [] => [0]
                        | kv :: o => 1 :: string_key kv.1 ++ sort_key kv.2 ++ go o
                        end) o
  | JArray a =>
      4 :: (fix go a := match a with [] => [0] | v :: a => 1 :: sort_key v ++ go a end) a
  | JString s => 5 :: string_key s
  end.

(** Integers of at most 53 bits, and no NaN. *)
Fixpoint comparable (j : json) : Prop :=
  match j with
  | JNull | JBool _ => True
  | JInt z => - 2 ^ 53 < z < 2 ^ 53
  | JUInt z => 0 ≤ z < 2 ^ 53
  | JFloat f => in_u 64 f ∧ F64.isnan f = false
  | JString s => is_bytes s
  | JObject o =>
      (fix go o := match o with
                   | [] => True
                   | kv :: o => (is_bytes kv.1 ∧ comparable kv.2) ∧ go o
                   end) o
  | JArray a => (fix go a := match a with [] => True | v :: a => comparable v ∧ go a end) a
  | JDiscarded => False
  end.

(** *** Integers of 53 bits are doubles, in the same order *)

(** The bits of the double for [0 < z < 2 ^ 53]. *)
Definition exact_bits (z : Z) : Z := (Z.log2 z + 1022) * 2 ^ 52 + z * 2 ^ (52 - Z.log2 z).

Lemma log2_53 z : 0 < z < 2 ^ 53 →
  0 ≤ Z.log2 z ≤ 52 ∧ 2 ^ 52 ≤ z * 2 ^ (52 - Z.log2 z) < 2 ^ 53.
Proof.
  intros [H0 H1]. pose proof (Z.log2_nonneg z).
  assert (Z.log2 z < 53) by (by apply Z.log2_lt_pow2).
  split; [lia|]. destruct (Z.log2_spec z H0) as [Hl Hu].
  assert (0 < 2 ^ (52 - Z.log2 z)) by (apply Z.pow_pos_nonneg; lia).
  replace (2 ^ 52) with (2 ^ Z.log2 z * 2 ^ (52 - Z.log2 z))
    by (rewrite <-Z.pow_add_r by lia; f_equal; lia).
  replace (2 ^ 53) with (2 ^ Z.succ (Z.log2 z) * 2 ^ (52 - Z.log2 z))
    by (rewrite <-Z.pow_add_r by lia; f_equal; lia).
  split; [apply Z.mul_le_mono_nonneg_r; lia|apply Z.mul_lt_mono_pos_r; lia].
Qed.

Lemma div_half_even_1 n : F64.div_half_even n 1 = n.
Proof. unfold F64.div_half_even. by rewrite Z.div_1_r, Z.mod_1_r. Qed.

Lemma round_ratio_exact neg z : 0 < z < 2 ^ 53 →
  F64.round_ratio neg z 1 = F64.with_sign neg (exact_bits z).
Proof.
  intros Hz. destruct (log2_53 z Hz) as [Hl Hm]. unfold F64.round_ratio, exact_bits. ztest.
  change (Z.log2 1) with 0. rewrite Z.sub_0_r.
  assert ((if 0 <=? Z.log2 z - 52 then (z, 1 * 2 ^ (Z.log2 z - 52))
           else (z * 2 ^ (- (Z.log2 z - 52)), 1)) = (z * 2 ^ (52 - Z.log2 z), 1)) as Hs.
  { destruct (Z.leb_spec 0 (Z.log2 z - 52)).
    - replace (Z.log2 z) with 52 by lia. f_equal; lia.
    - by replace (- (Z.log2 z - 52)) with (52 - Z.log2 z) by lia. }
  rewrite Hs, Z.div_1_r. ztest. rewrite Z.max_l by lia. rewrite Hs, div_half_even_1.
  f_equal. rewrite Z.min_l; [|unfold F64.infinity]; lia.
Qed.

Lemma exact_bits_range z : 0 < z < 2 ^ 53 →
  (Z.log2 z + 1023) * 2 ^ 52 ≤ exact_bits z < (Z.log2 z + 1024) * 2 ^ 52.
Proof. intros Hz. destruct (log2_53 z Hz) as [Hl Hm]. unfold exact_bits. lia. Qed.

Lemma exact_bits_mono a b : 0 < a → a < b → b < 2 ^ 53 → exact_bits a < exact_bits b.
Proof.
  intros Ha Hab Hb. pose proof (Z.log2_le_mono a b) as Hl.
  destruct (Z.eq_dec (Z.log2 a) (Z.log2 b)) as [E|E].
  - unfold exact_bits. rewrite E. apply Z.add_lt_mono_l, Z.mul_lt_mono_pos_r; [|done].
    destruct (log2_53 b) as [? _]; [lia|]. apply Z.pow_pos_nonneg; lia.
  - pose proof (exact_bits_range a). pose proof (exact_bits_range b). nia.
Qed.

Lemma expo_exact neg z : 0 < z < 2 ^ 53 →
  F64.expo (F64.with_sign neg (exact_bits z)) = Z.log2 z + 1023.
Proof.
  intros Hz. destruct (log2_53 z Hz) as [Hl _]. pose proof (exact_bits_range z Hz) as Hr.
  assert (exact_bits z / 2 ^ 52 = Z.log2 z + 1023) as Hd.
  { symmetry. apply Z.div_unique with (exact_bits z - (Z.log2 z + 1023) * 2 ^ 52); lia. }
  unfold F64.expo, F64.with_sign, F64.sign_bit. destruct neg.
  - replace (2 ^ 63 + exact_bits z) with (exact_bits z + 2048 * 2 ^ 52) by lia.
    rewrite Z.div_add, Hd by lia. symmetry. apply Z.mod_unique with 1; lia.
  - rewrite Hd. apply Z.mod_small. lia.
Qed.

(** The position of an integer among the doubles. *)
Definition integer_key (z : Z) : Z :=
  if z =? 0 then 0 else if z <? 0 then - exact_bits (- z) else exact_bits z.

Lemma of_Z_exact z : - 2 ^ 53 < z < 2 ^ 53 →
  F64.isnan (F64.of_Z z) = false ∧ F64.key (F64.of_Z z) = integer_key z.
Proof.
  intros Hz. unfold F64.of_Z, integer_key. destruct (Z.eqb_spec z 0) as [->|Hn]; [done|].
  assert (0 < Z.abs z < 2 ^ 53) as Ha by lia. rewrite round_ratio_exact by done.
  pose proof (exact_bits_range _ Ha). destruct (log2_53 _ Ha) as [Hl _]. split.
  - unfold F64.isnan. rewrite expo_exact by done. by ztests.
  - unfold F64.key, F64.signbit, F64.with_sign, F64.sign_bit.
    destruct (Z.ltb_spec z 0); ztests; [rewrite Z.abs_neq by lia; lia|by rewrite Z.abs_eq by lia].
Qed.

Lemma integer_key_mono a b : - 2 ^ 53 < a → a < b → b < 2 ^ 53 → integer_key a < integer_key b.
Proof.
  intros Ha Hab Hb. unfold integer_key.
  pose proof (exact_bits_range (- a)). pose proof (exact_bits_range b).
  pose proof (exact_bits_mono (- b) (- a)). pose proof (exact_bits_mono a b).
  pose proof (Z.log2_nonneg (- a)). pose proof (Z.log2_nonneg b).
  repeat case_if; lia.
Qed.

Lemma integer_key_compare a b : - 2 ^ 53 < a < 2 ^ 53 → - 2 ^ 53 < b < 2 ^ 53 →
  (integer_key a ?= integer_key b) = (a ?= b).
Proof.
  intros Ha Hb. destruct (Z.compare_spec a b) as [->|H|H].
  - apply Z.compare_refl.
  - apply Z.compare_lt_iff, integer_key_mono; lia.
  - apply Z.compare_gt_iff, integer_key_mono; lia.
Qed.

(** *** Numbers *)

Definition is_num (j : json) : bool :=
  match j with JInt _ | JUInt _ | JFloat _ => true | _ => false end.

Lemma flt_compare a b : F64.isnan a = false → F64.isnan b = false →
  F64.flt a b = bool_decide ((F64.key a ?= F64.key b) = Lt) ∧
  F64.feq a b = bool_decide ((F64.key a ?= F64.key b) = Eq).
Proof.
  intros Ha Hb. unfold F64.flt, F64.feq. rewrite Ha, Hb. cbn.
  by destruct (Z.compare_spec (F64.key a) (F64.key b)); split; ztests.
Qed.

Lemma Z_compare_tests a b :
  (a <? b) = bool_decide ((a ?= b) = Lt) ∧ (a =? b) = bool_decide ((a ?= b) = Eq).
Proof. by destruct (Z.compare_spec a b); split; ztests. Qed.

Lemma number_lt_eq a b : is_num a = true → is_num b = true → comparable a → comparable b →
  scalar_lt a b = bool_decide ((number_key a ?= number_key b) = Lt) ∧
  json_eq a b = bool_decide ((number_key a ?= number_key b) = Eq).
Proof.
  assert (∀ z, 0 ≤ z < 2 ^ 53 → swrap 64 z = z) as Hw.
  { intros z Hz. apply swrap_small; [done|]. unfold in_s. lia. }
  assert (∀ z, - 2 ^ 53 < z < 2 ^ 53 → F64.isnan (F64.of_Z z) = false) as Hn by apply of_Z_exact.
  assert (∀ z, - 2 ^ 53 < z < 2 ^ 53 → F64.key (F64.of_Z z) = integer_key z) as Hk by apply of_Z_exact.
  destruct a; try done; destruct b; try done; intros _ _ Ca Cb; cbn in *;
    rewrite ?Hw by lia;
    first [ apply flt_compare; first [done | apply Hn; lia | apply Ca | apply Cb]
          | rewrite !Hk, integer_key_compare by lia; apply Z_compare_tests ].
Qed.

(** *** The key decides the comparison *)

Lemma string_key_compare s t u v : is_bytes s → is_bytes t →
  string_compare (string_key s ++ u) (string_key t ++ v) =
  match string_compare s t with Eq => string_compare u v | c => c end.
Proof.
  intros Hs. revert t. induction Hs as [|x s Hx Hs IH]; intros t Ht; destruct Ht as [|y t Hy Ht];
    unfold is_byte in *; try done; unfold string_key; cbn [fmap list_fmap app string_compare].
  - by rewrite (proj2 (Z.compare_lt_iff 0 (Z.succ y))) by lia.
  - by rewrite (proj2 (Z.compare_gt_iff (Z.succ x) 0)) by lia.
  - assert ((Z.succ x ?= Z.succ y) = (x ?= y)) as ->.
    { destruct (Z.compare_spec x y); [subst; apply Z.compare_refl|apply Z.compare_lt_iff; lia|apply Z.compare_gt_iff; lia]. }
    destruct (x ?= y); [|done|done]. by apply IH.
Qed.

#[local] Arguments string_key : simpl never.

(** The two questions of [std::lexicographical_compare] about one element. *)
Definition verdict (a b : json) (next : comparison) : comparison :=
  if less false a b then Lt else if less true a b then Gt else next.

Definition decided (a b : json) : Prop :=
  (∀ s t, string_compare (sort_key a ++ s) (sort_key b ++ t) = verdict a b (string_compare s t)) ∧
  json_eq a b = negb (less false a b) && negb (less true a b).

Lemma decided_numbers a b : is_num a = true → is_num b = true → comparable a → comparable b →
  decided a b.
Proof.
  intros Na Nb Ca Cb. destruct (number_lt_eq a b Na Nb Ca Cb) as [H1 H2].
  destruct (number_lt_eq b a Nb Na Cb Ca) as [H3 _]. rewrite Z.compare_antisym in H3.
  assert (less false a b = scalar_lt a b ∧ less true a b = scalar_lt b a) as [E1 E2].
  { by destruct a; try done; destruct b. }
  assert (∀ s t, string_compare (sort_key a ++ s) (sort_key b ++ t) =
                 match number_key a ?= number_key b with Eq => string_compare s t | c => c end) as E3.
  { by destruct a; try done; destruct b. }
  unfold decided, verdict. rewrite E1, E2, H1, H2, H3. split; [intros s t; rewrite E3|];
    by destruct (number_key a ?= number_key b).
Qed.

Lemma decided_string s t : is_bytes s → is_bytes t → decided (JString s) (JString t).
Proof.
  intros Hs Ht. split.
  - intros u v. cbn [sort_key app string_compare]. rewrite Z.compare_refl.
    rewrite string_key_compare by done. unfold verdict. cbn.
    rewrite (string_compare_antisym s t). by destruct (string_compare s t).
  - cbn. rewrite (string_compare_antisym s t). destruct (string_compare s t) eqn:E; cbn.
    + apply string_compare_eq in E as ->. by apply bool_decide_eq_true_2.
    + apply bool_decide_eq_false_2. intros ->. by rewrite string_compare_refl in E.
    + apply bool_decide_eq_false_2. intros ->. by rewrite string_compare_refl in E.
Qed.

Lemma decided_array a b : Forall (λ x, ∀ y, comparable y → decided x y) a →
  comparable (JArray b) → decided (JArray a) (JArray b).
Proof.
  intros Ha. revert b. induction Ha as [|x a Hx _ IH]; intros [|y b] Hb; try done.
  destruct Hb as [Hy Hb]. destruct (Hx y Hy) as [Hk He]. destruct (IH b Hb) as [IHk IHe].
  unfold decided, verdict in *. cbn in *. split.
  - intros s t. specialize (IHk s t). rewrite <-!app_assoc, Hk. cbn in IHk. rewrite IHk.
    by destruct (less false x y), (less true x y).
  - rewrite He, IHe. by destruct (less false x y), (less true x y).
Qed.

Lemma decided_object a b :
  Forall (λ kv, is_bytes kv.1 ∧ ∀ y, comparable y → decided kv.2 y) a →
  comparable (JObject b) → decided (JObject a) (JObject b).
Proof.
  intros Ha. revert b. induction Ha as [|[k x] a [Hbk Hx] _ IH]; intros [|[l y] b] Hb; try done.
  destruct Hb as [[Hbl Hy] Hb]. destruct (Hx y Hy) as [Hk He]. destruct (IH b Hb) as [IHk IHe].
  unfold decided, verdict in *. cbn in *. split.
  - intros s t. specialize (IHk s t). rewrite <-!app_assoc, string_key_compare by done.
    destruct (string_compare k l) eqn:E; try done. rewrite Hk. cbn in IHk. rewrite IHk.
    by destruct (less false x y), (less true x y).
  - destruct (string_compare k l) eqn:E.
    + apply string_compare_eq in E as ->. rewrite bool_decide_eq_true_2, He, IHe by done.
      by destruct (less false x y), (less true x y).
    + rewrite bool_decide_eq_false_2; [done|]. intros ->. by rewrite string_compare_refl in E.
    + rewrite bool_decide_eq_false_2; [done|]. intros ->. by rewrite string_compare_refl in E.
Qed.

Lemma comparable_array a : comparable (JArray a) ↔ Forall comparable a.
Proof. simpl. induction a; simpl; [by split; constructor|]. rewrite Forall_cons. naive_solver. Qed.

Lemma comparable_object o :
  comparable (JObject o) ↔ Forall (λ kv, is_bytes kv.1 ∧ comparable kv.2) o.
Proof. simpl. induction o; simpl; [by split; constructor|]. rewrite Forall_cons. naive_solver. Qed.

Lemma all_decided a b : comparable a → comparable b → decided a b.
Proof.
  revert b. induction a as [|o IH|a IH|s|b0|z|z|f|] using json_induction; intros b Ca Cb;
    try (destruct b; first [done | by apply decided_numbers | by apply decided_string]).
  - rewrite comparable_object in Ca. destruct b; try done. apply decided_object; [|done].
    apply Forall_and in Ca as [Hk Hc]. apply Forall_and; split; [done|].
    eapply Forall_impl; [apply Forall_and; split; [apply IH|apply Hc]|]. naive_solver.
  - rewrite comparable_array in Ca. destruct b; try done. apply decided_array; [|done].
    eapply Forall_impl; [apply Forall_and; split; [apply IH|apply Ca]|]. naive_solver.
  - by destruct b0, b as [| | | |[]| | | |].
Qed.

Lemma json_lt_key a b : comparable a → comparable b →
  json_lt a b = bool_decide (string_compare (sort_key a) (sort_key b) = Lt) ∧
  json_eq a b = bool_decide (sort_key a = sort_key b).
Proof.
  intros Ca Cb. destruct (all_decided a b Ca Cb) as [Hk He].
  specialize (Hk [] []). rewrite !app_nil_r in Hk. cbn [string_compare] in Hk. unfold json_lt. rewrite Hk, He. split.
  - unfold verdict. by destruct (less false a b), (less true a b).
  - rewrite (bool_decide_ext (sort_key a = sort_key b) (verdict a b Eq = Eq)).
    + unfold verdict. by destruct (less false a b), (less true a b).
    + rewrite <-Hk. symmetry. apply string_compare_eq.
Qed.

(** C12. [operator<] orders the values whose integers have at most 53 bits and
    whose floating point numbers are not NaN, [operator==] being its equality:
    of any two values exactly one is smaller or they are equal, the order is
    transitive, and equal values compare alike, whatever mixture of signed,
    unsigned and floating point numbers, strings, arrays and objects they are. *)
Theorem json_lt_total_order a b c : comparable a → comparable b → comparable c →
  match json_lt a b, json_eq a b, json_lt b a with
  | true, false, false | false, true, false | false, false, true => True
  | _, _, _ => False
  end ∧
  (json_lt a b = true → json_lt b c = true → json_lt a c = true) ∧
  (json_eq a b = true → json_lt a c = json_lt b c ∧ json_lt c a = json_lt c b).
Proof.
  intros Ca Cb Cc.
  destruct (json_lt_key a b Ca Cb) as [-> ->], (json_lt_key b a Cb Ca) as [-> _],
    (json_lt_key b c Cb Cc) as [-> _], (json_lt_key a c Ca Cc) as [-> _],
    (json_lt_key c a Cc Ca) as [-> _], (json_lt_key c b Cc Cb) as [-> _].
  rewrite !bool_decide_eq_true. split_and!.
  - rewrite (string_compare_antisym (sort_key a) (sort_key b)).
    rewrite (bool_decide_ext _ _ (symmetry (string_compare_eq (sort_key a) (sort_key b)))).
    by destruct (string_compare (sort_key a) (sort_key b)).
  - apply string_compare_trans.
  - by intros ->.
Qed.

(** [[1, 2.5]], [[1, {"a": true}]] with an unsigned number, and a text. *)
Definition order_example : json * json * json :=
  (JArray [JInt 1; JFloat 0x4004000000000000],
   JArray [JUInt 1; JObject [(lit "a", JBool true)]],
   JString (lit "x")).

Lemma json_lt_total_order_witness :
  let '(a, b, c) := order_example in
  (json_lt a b = true ∧ json_lt b c = true) ∧
  (json_lt a b = true → json_lt b c = true → json_lt a c = true).
Proof.
  split; [by split|].
  apply (json_lt_total_order (JArray [JInt 1; JFloat 0x4004000000000000])
           (JArray [JUInt 1; JObject [(lit "a", JBool true)]]) (JString (lit "x")));
    cbn [comparable fst snd]; repeat split; first [done | apply lit_bytes].
Defined.

(** Outside these values it is no order.  An unsigned number of 64 bits compares
    with a signed one as if it were negative: [9223372036854775808 < 0]. *)
Lemma unsigned_below_zero : json_lt (JUInt (2 ^ 63)) (JInt 0) = true.
Proof. reflexivity. Qed.

(** With more than 53 bits, two numbers that equal the same double may differ. *)
Lemma equality_not_transitive :
  let d := JFloat (F64.of_Z (2 ^ 53)) in
  json_eq (JInt (2 ^ 53)) d = true ∧ json_eq d (JInt (2 ^ 53 + 1)) = true ∧
  json_lt (JInt (2 ^ 53)) (JInt (2 ^ 53 + 1)) = true.
Proof. by vm_compute. Qed.

(** A NaN is at once at most and at least every number, and equal to none. *)
Lemma nan_compares j : is_num j = true →
  let n := JFloat F64.quiet_NaN in
  json_le n j = true ∧ json_ge n j = true ∧ json_eq n j = false.
Proof.
  unfold json_le, json_ge, json_lt. destruct j; try done; intros _; cbn;
    unfold F64.flt, F64.feq; cbn; by rewrite andb_false_r.
Qed.
