(* ===== verification/Adapters.v ===== *)
(** Input and output adapters of json.hpp.

    [input_adapter_protocol] and [output_adapter_protocol] are the virtual
    interfaces the lexer, the binary reader, the serializer and the binary
    writer are written against.  The classes [InputAdapter] and [OutputAdapter]
    state what these clients rely on, in terms of the bytes still to be
    delivered and the bytes written so far; every implementation of json.hpp is
    an instance. *)

From S2P Require Import Prelude.

(** ** Input *)

Class input_adapter_protocol (A : Type) := {
  get_character : A → Z * A;
  unget_character : A → A;
}.

(** The contract: bytes come out in order, then [eof] for ever, and
    [unget_character] takes back the last byte. *)
Class InputAdapter (A : Type) `{!input_adapter_protocol A} := {
  pending : A → list Z;
  get_character_eof : ∀ a, pending a = [] → get_character a = (eof, a);
  get_character_byte : ∀ a c r, pending a = c :: r →
    ∃ a', get_character a = (c, a') ∧ pending a' = r ∧ unget_character a' = a;
}.

(** *** [input_buffer_adapter]

    The three pointers [start], [cursor] and [limit] as the bytes before the
    cursor (nearest first) and the bytes from it on. *)
Record input_buffer_adapter := {
  start_to_cursor : list Z;
  cursor_to_limit : list Z;
}.

(** A cursor moved [n] bytes towards the limit. *)
Fixpoint advance_cursor (n : nat) (a : input_buffer_adapter) : input_buffer_adapter :=
  match n, cursor_to_limit a with
  | S n, c :: r =>
      advance_cursor n {| start_to_cursor := c :: start_to_cursor a; cursor_to_limit := r |}
  | _, _ => a
  end.

Definition input_buffer_adapter_new (b : list Z) : input_buffer_adapter :=
  let a := {| start_to_cursor := []; cursor_to_limit := b |} in
  match b with
  | b0 :: b1 :: b2 :: _ =>
      if (b0 =? 0xEF) && (b1 =? 0xBB) && (b2 =? 0xBF) then advance_cursor 3 a else a
  | _ => a
  end.

Definition buffer_get_character (a : input_buffer_adapter) : Z * input_buffer_adapter :=
  match cursor_to_limit a with
  | c :: r => (c, {| start_to_cursor := c :: start_to_cursor a; cursor_to_limit := r |})
  | [] => (eof, a)
  end.

Definition buffer_unget_character (a : input_buffer_adapter) : input_buffer_adapter :=
  match start_to_cursor a with
  | c :: b => {| start_to_cursor := b; cursor_to_limit := c :: cursor_to_limit a |}
  | [] => a
  end.

#[global] Instance buffer_protocol : input_adapter_protocol input_buffer_adapter := {
  get_character := buffer_get_character;
  unget_character := buffer_unget_character;
}.

#[global] Instance buffer_adapter : InputAdapter input_buffer_adapter.
Proof.
  refine {| pending := cursor_to_limit |}.
  - intros [b l] ?; simpl in *; subst. done.
  - intros [b l] c r ?; simpl in *; subst. by eexists.
Defined.

(** *** [input_stream_adapter]

    The get area of the [streambuf]: the characters before the read position
    (nearest first) and after it. *)
Record streambuf := { get_area_before : list Z; get_area_after : list Z }.

Definition sbumpc (sb : streambuf) : Z * streambuf :=
  match get_area_after sb with
  | c :: r => (c, {| get_area_before := c :: get_area_before sb; get_area_after := r |})
  | [] => (eof, sb)
  end.

Definition sungetc (sb : streambuf) : streambuf :=
  match get_area_before sb with
  | c :: b => {| get_area_before := b; get_area_after := c :: get_area_after sb |}
  | [] => sb
  end.

(** [istream::putback]: steps back when the previous character is [c]. *)
Definition putback (c : Z) (sb : streambuf) : streambuf :=
  match get_area_before sb with
  | c' :: _ => if c =? c' then sungetc sb else sb
  | [] => sb
  end.

(** The constructor of [input_stream_adapter]: look for a byte order mark, and
    give back what was read when there is none. *)
Definition input_stream_adapter_new (sb : streambuf) : streambuf :=
  let '(c, sb) := sbumpc sb in
  if c =? 0xEF then
    let '(c, sb) := sbumpc sb in
    if c =? 0xBB then
      let '(c, sb) := sbumpc sb in
      if c =? 0xBF then sb
      else
        let sb := if negb (c =? eof) then sungetc sb else sb in
        putback 0xEF (putback 0xBB sb)
    else
      let sb := if negb (c =? eof) then sungetc sb else sb in
      putback 0xEF sb
  else if negb (c =? eof) then sungetc sb else sb.

#[global] Instance stream_protocol : input_adapter_protocol streambuf := {
  get_character := sbumpc;
  unget_character := sungetc;
}.

#[global] Instance stream_adapter : InputAdapter streambuf.
Proof.
  refine {| pending := get_area_after |}.
  - intros [b l] ?; simpl in *; subst. done.
  - intros [b l] c r ?; simpl in *; subst. by eexists.
Defined.

(** The input without its byte order mark. *)
Definition skip_bom (b : list Z) : list Z :=
  match b with
  | b0 :: b1 :: b2 :: r =>
      if (b0 =? 0xEF) && (b1 =? 0xBB) && (b2 =? 0xBF) then r else b
  | _ => b
  end.

Lemma buffer_new_pending b : pending (input_buffer_adapter_new b) = skip_bom b.
Proof.
  unfold input_buffer_adapter_new, skip_bom.
  destruct b as [|b0 [|b1 [|b2 r]]]; simpl; try done. by case_if.
Qed.

Lemma skip_bom_bytes b : is_bytes b → is_bytes (skip_bom b).
Proof.
  unfold skip_bom, is_bytes. destruct b as [|b0 [|b1 [|b2 r]]]; try done.
  case_if; rewrite ?Forall_cons; naive_solver.
Qed.

Lemma skip_bom_length b : (length (skip_bom b) ≤ length b)%nat.
Proof. unfold skip_bom. destruct b as [|b0 [|b1 [|b2 r]]]; try done. case_if; simpl; lia. Qed.

Lemma stream_new_pending b : is_bytes b →
  pending (input_stream_adapter_new {| get_area_before := []; get_area_after := b |}) =
  skip_bom b.
Proof.
  unfold input_stream_adapter_new, skip_bom, is_bytes.
  intros Hb. destruct b as [|b0 [|b1 [|b2 r]]]; cbn; try done;
    rewrite ?Forall_cons in Hb; destruct_and?; unfold is_byte, eof in *.
  - ztests. by destruct (b0 =? 239) eqn:?; zbool; subst; cbn.
  - destruct (b0 =? 239) eqn:?; zbool; subst; cbn; ztests; cbn; [|done].
    by destruct (b1 =? 187) eqn:?; zbool; subst; cbn; ztests; cbn.
  - destruct (b0 =? 239) eqn:?; zbool; subst; cbn; ztests; cbn; [|done].
    destruct (b1 =? 187) eqn:?; zbool; subst; cbn; ztests; cbn; [|done].
    by destruct (b2 =? 191) eqn:?; zbool; subst; cbn; ztests; cbn.
Qed.

(** ** Output *)

Class output_adapter_protocol (O : Type) := {
  write_character : Z → O → O;
  write_characters : list Z → O → O;
}.

(** The contract: what is written is appended. *)
Class OutputAdapter (O : Type) `{!output_adapter_protocol O} := {
  contents : O → list Z;
  contents_write_character : ∀ c o, contents (write_character c o) = contents o ++ [c];
  contents_write_characters : ∀ s o, contents (write_characters s o) = contents o ++ s;
}.

(** [output_vector_adapter]: [push_back] and [std::copy] to a back inserter. *)
Record output_vector_adapter := { v : list Z }.
#[global] Instance vector_protocol : output_adapter_protocol output_vector_adapter := {
  write_character c o := {| v := v o ++ [c] |};
  write_characters s o := fold_left (λ o c, {| v := v o ++ [c] |}) s o;
}.

(** [output_string_adapter]: [push_back] and [append]. *)
Record output_string_adapter := { str : list Z }.
#[global] Instance string_protocol : output_adapter_protocol output_string_adapter := {
  write_character c o := {| str := str o ++ [c] |};
  write_characters s o := {| str := str o ++ s |};
}.

(** [output_stream_adapter]: [put] and [write] on a stream that accepts them. *)
Record output_stream_adapter := { stream : list Z }.
#[global] Instance ostream_protocol : output_adapter_protocol output_stream_adapter := {
  write_character c o := {| stream := stream o ++ [c] |};
  write_characters s o := {| stream := stream o ++ s |};
}.

#[global] Instance vector_adapter : OutputAdapter output_vector_adapter.
Proof.
  refine {| contents := v |}; [done|].
  intros s. induction s as [|c s IH]; intros o; cbn; [by rewrite app_nil_r|].
  cbn in IH. rewrite IH. cbn. by rewrite <-app_assoc.
Defined.
#[global] Instance string_adapter : OutputAdapter output_string_adapter.
Proof. by refine {| contents := str |}. Defined.
#[global] Instance ostream_adapter : OutputAdapter output_stream_adapter.
Proof. by refine {| contents := stream |}. Defined.

(** Normal form of a sequence of writes. *)
Ltac contents_simpl :=
  repeat first [ rewrite contents_write_character | rewrite contents_write_characters ];
  rewrite <-?app_assoc.
