(* ===== verification/BinaryWriter.v ===== *)
(** [binary_writer] of json.hpp: CBOR and MessagePack output.

    [write_cbor] and [write_msgpack] follow the branches of the source over any
    output adapter and either host endianness.  [cbor_encode] and
    [msgpack_encode] are the formats themselves (RFC 7049 sections 2.1 and 2.2;
    the MessagePack specification), written from the formats' own tables, and
    the refinement lemmas say that the writer emits exactly them. *)

From S2P Require Import Prelude Machine JsonValue Adapters.

Section binary_writer.
Context {O : Type} `{!output_adapter_protocol O}.
(** [is_little_endian], the endianness of the host. *)
Variable le : bool.

(** [write_number<NumberType>], with [n] the size of [NumberType]; the
    argument is converted to the type by keeping its [n] low bytes. *)
Definition write_number (n : nat) (z : Z) (oa : O) : O :=
  let vec := object_repr le n z in
  let vec := if le then rev vec else vec in
  write_characters vec oa.

(** *** CBOR *)

Definition write_cbor_integer (number_integer : Z) (oa : O) : O :=
  if 0 <=? number_integer then
    if number_integer <=? 0x17 then write_number 1 number_integer oa
    else if number_integer <=? 0xff then
      write_number 1 number_integer (write_character 0x18 oa)
    else if number_integer <=? 0xffff then
      write_number 2 number_integer (write_character 0x19 oa)
    else if number_integer <=? 0xffffffff then
      write_number 4 number_integer (write_character 0x1a oa)
    else write_number 8 number_integer (write_character 0x1b oa)
  else
    let positive_number := -1 - number_integer in
    if -24 <=? number_integer then write_number 1 (0x20 + positive_number) oa
    else if positive_number <=? 0xff then
      write_number 1 positive_number (write_character 0x38 oa)
    else if positive_number <=? 0xffff then
      write_number 2 positive_number (write_character 0x39 oa)
    else if positive_number <=? 0xffffffff then
      write_number 4 positive_number (write_character 0x3a oa)
    else write_number 8 positive_number (write_character 0x3b oa).

Definition write_cbor_unsigned (number_unsigned : Z) (oa : O) : O :=
  if number_unsigned <=? 0x17 then write_number 1 number_unsigned oa
  else if number_unsigned <=? 0xff then
    write_number 1 number_unsigned (write_character 0x18 oa)
  else if number_unsigned <=? 0xffff then
    write_number 2 number_unsigned (write_character 0x19 oa)
  else if number_unsigned <=? 0xffffffff then
    write_number 4 number_unsigned (write_character 0x1a oa)
  else write_number 8 number_unsigned (write_character 0x1b oa).

Definition write_cbor_string (string : list Z) (oa : O) : O :=
  let N := Z.of_nat (length string) in
  let oa :=
    if N <=? 0x17 then write_number 1 (0x60 + N) oa
    else if N <=? 0xff then write_number 1 N (write_character 0x78 oa)
    else if N <=? 0xffff then write_number 2 N (write_character 0x79 oa)
    else if N <=? 0xffffffff then write_number 4 N (write_character 0x7a oa)
    else if N <=? 0xffffffffffffffff then write_number 8 N (write_character 0x7b oa)
    else oa in
  write_characters string oa.

Definition write_cbor_array_size (N : Z) (oa : O) : O :=
  if N <=? 0x17 then write_number 1 (0x80 + N) oa
  else if N <=? 0xff then write_number 1 N (write_character 0x98 oa)
  else if N <=? 0xffff then write_number 2 N (write_character 0x99 oa)
  else if N <=? 0xffffffff then write_number 4 N (write_character 0x9a oa)
  else if N <=? 0xffffffffffffffff then write_number 8 N (write_character 0x9b oa)
  else oa.

Definition write_cbor_object_size (N : Z) (oa : O) : O :=
  if N <=? 0x17 then write_number 1 (0xa0 + N) oa
  else if N <=? 0xff then write_number 1 N (write_character 0xb8 oa)
  else if N <=? 0xffff then write_number 2 N (write_character 0xb9 oa)
  else if N <=? 0xffffffff then write_number 4 N (write_character 0xba oa)
  else if N <=? 0xffffffffffffffff then write_number 8 N (write_character 0xbb oa)
  else oa.

Fixpoint write_cbor (j : json) (oa : O) : O :=
  match j with
  | JNull => write_character 0xf6 oa
  | JBool boolean => write_character (if boolean then 0xf5 else 0xf4) oa
  | JInt number_integer => write_cbor_integer number_integer oa
  | JUInt number_unsigned => write_cbor_unsigned number_unsigned oa
  | JFloat number_float => write_number 8 number_float (write_character 0xfb oa)
  | JString string => write_cbor_string string oa
  | JArray array =>
      (fix each els oa :=
         match els with
         | [] => oa
         | el :: els => each els (write_cbor el oa)
         end) array (write_cbor_array_size (Z.of_nat (length array)) oa)
  | JObject object =>
      (fix each els oa :=
         match els with
         | [] => oa
         | el :: els => each els (write_cbor el.2 (write_cbor_string el.1 oa))
         end) object (write_cbor_object_size (Z.of_nat (length object)) oa)
  | JDiscarded => oa
  end.

(** *** MessagePack *)

Definition write_msgpack_unsigned (number_unsigned : Z) (oa : O) : O :=
  if number_unsigned <? 128 then write_number 1 number_unsigned oa
  else if number_unsigned <=? 0xff then
    write_number 1 number_unsigned (write_character 0xcc oa)
  else if number_unsigned <=? 0xffff then
    write_number 2 number_unsigned (write_character 0xcd oa)
  else if number_unsigned <=? 0xffffffff then
    write_number 4 number_unsigned (write_character 0xce oa)
  else if number_unsigned <=? 0xffffffffffffffff then
    write_number 8 number_unsigned (write_character 0xcf oa)
  else oa.

(** A non-negative integer is read through the [number_unsigned] member of the
    union, where it has the same value. *)
Definition write_msgpack_integer (number_integer : Z) (oa : O) : O :=
  if 0 <=? number_integer then write_msgpack_unsigned number_integer oa
  else
    if -32 <=? number_integer then write_number 1 number_integer oa
    else if (-128 <=? number_integer) && (number_integer <=? 127) then
      write_number 1 number_integer (write_character 0xd0 oa)
    else if (-32768 <=? number_integer) && (number_integer <=? 32767) then
      write_number 2 number_integer (write_character 0xd1 oa)
    else if (-2147483648 <=? number_integer) && (number_integer <=? 2147483647) then
      write_number 4 number_integer (write_character 0xd2 oa)
    else if (-9223372036854775808 <=? number_integer) &&
            (number_integer <=? 9223372036854775807) then
      write_number 8 number_integer (write_character 0xd3 oa)
    else oa.

Definition write_msgpack_string (string : list Z) (oa : O) : O :=
  let N := Z.of_nat (length string) in
  let oa :=
    if N <=? 31 then write_number 1 (Z.lor 0xa0 N) oa
    else if N <=? 255 then write_number 1 N (write_character 0xd9 oa)
    else if N <=? 65535 then write_number 2 N (write_character 0xda oa)
    else if N <=? 4294967295 then write_number 4 N (write_character 0xdb oa)
    else oa in
  write_characters string oa.

Definition write_msgpack_array_size (N : Z) (oa : O) : O :=
  if N <=? 15 then write_number 1 (Z.lor 0x90 N) oa
  else if N <=? 0xffff then write_number 2 N (write_character 0xdc oa)
  else if N <=? 0xffffffff then write_number 4 N (write_character 0xdd oa)
  else oa.

Definition write_msgpack_object_size (N : Z) (oa : O) : O :=
  if N <=? 15 then write_number 1 (Z.lor 0x80 (Z.land N 0xf)) oa
  else if N <=? 65535 then write_number 2 N (write_character 0xde oa)
  else if N <=? 4294967295 then write_number 4 N (write_character 0xdf oa)
  else oa.

Fixpoint write_msgpack (j : json) (oa : O) : O :=
  match j with
  | JNull => write_character 0xc0 oa
  | JBool boolean => write_character (if boolean then 0xc3 else 0xc2) oa
  | JInt number_integer => write_msgpack_integer number_integer oa
  | JUInt number_unsigned => write_msgpack_unsigned number_unsigned oa
  | JFloat number_float => write_number 8 number_float (write_character 0xcb oa)
  | JString string => write_msgpack_string string oa
  | JArray array =>
      (fix each els oa :=
         match els with
         | [] => oa
         | el :: els => each els (write_msgpack el oa)
         end) array (write_msgpack_array_size (Z.of_nat (length array)) oa)
  | JObject object =>
      (fix each els oa :=
         match els with
         | [] => oa
         | el :: els => each els (write_msgpack el.2 (write_msgpack_string el.1 oa))
         end) object (write_msgpack_object_size (Z.of_nat (length object)) oa)
  | JDiscarded => oa
  end.
End binary_writer.

(** [to_cbor] and [to_msgpack] into a byte vector. *)
Definition to_cbor (le : bool) (j : json) : list Z := v (write_cbor le j {| v := [] |}).
Definition to_msgpack (le : bool) (j : json) : list Z := v (write_msgpack le j {| v := [] |}).

(** ** The formats *)

(** RFC 7049, 2.1: a major type and its argument. *)
Definition cbor_head (major n : Z) : list Z :=
  if n <? 24 then [32 * major + n]
  else if n <? 2 ^ 8 then (32 * major + 24) :: be_bytes 1 n
  else if n <? 2 ^ 16 then (32 * major + 25) :: be_bytes 2 n
  else if n <? 2 ^ 32 then (32 * major + 26) :: be_bytes 4 n
  else (32 * major + 27) :: be_bytes 8 n.

Definition cbor_int (z : Z) : list Z :=
  if 0 <=? z then cbor_head 0 z else cbor_head 1 (-1 - z).

Definition cbor_text (s : list Z) : list Z := cbor_head 3 (Z.of_nat (length s)) ++ s.

Fixpoint cbor_encode (j : json) : list Z :=
  match j with
  | JNull => [0xf6]
  | JBool b => [if b then 0xf5 else 0xf4]
  | JInt z => cbor_int z
  | JUInt z => cbor_int z
  | JFloat f => 0xfb :: be_bytes 8 f
  | JString s => cbor_text s
  | JArray a =>
      cbor_head 4 (Z.of_nat (length a)) ++
      (fix go a := match a with [] => [] | v :: a => cbor_encode v ++ go a end) a
  | JObject o =>
      cbor_head 5 (Z.of_nat (length o)) ++
      (fix go o := match o with
                   | [] => []
                   | kv :: o => cbor_text kv.1 ++ cbor_encode kv.2 ++ go o
                   end) o
  | JDiscarded => []
  end.

(** The MessagePack families: fix, 8, 16, 32 and 64 bit forms. *)
Definition msgpack_uint (z : Z) : list Z :=
  if z <? 2 ^ 7 then [z]
  else if z <? 2 ^ 8 then 0xcc :: be_bytes 1 z
  else if z <? 2 ^ 16 then 0xcd :: be_bytes 2 z
  else if z <? 2 ^ 32 then 0xce :: be_bytes 4 z
  else 0xcf :: be_bytes 8 z.

Definition msgpack_int (z : Z) : list Z :=
  if 0 <=? z then msgpack_uint z
  else if - 2 ^ 5 <=? z then be_bytes 1 z
  else if - 2 ^ 7 <=? z then 0xd0 :: be_bytes 1 z
  else if - 2 ^ 15 <=? z then 0xd1 :: be_bytes 2 z
  else if - 2 ^ 31 <=? z then 0xd2 :: be_bytes 4 z
  else 0xd3 :: be_bytes 8 z.

Definition msgpack_str_head (n : Z) : list Z :=
  if n <? 2 ^ 5 then [0xa0 + n]
  else if n <? 2 ^ 8 then 0xd9 :: be_bytes 1 n
  else if n <? 2 ^ 16 then 0xda :: be_bytes 2 n
  else 0xdb :: be_bytes 4 n.

Definition msgpack_container_head (fix_ h16 h32 n : Z) : list Z :=
  if n <? 2 ^ 4 then [fix_ + n]
  else if n <? 2 ^ 16 then h16 :: be_bytes 2 n
  else h32 :: be_bytes 4 n.

Definition msgpack_text (s : list Z) : list Z := msgpack_str_head (Z.of_nat (length s)) ++ s.

Fixpoint msgpack_encode (j : json) : list Z :=
  match j with
  | JNull => [0xc0]
  | JBool b => [if b then 0xc3 else 0xc2]
  | JInt z => msgpack_int z
  | JUInt z => msgpack_uint z
  | JFloat f => 0xcb :: be_bytes 8 f
  | JString s => msgpack_text s
  | JArray a =>
      msgpack_container_head 0x90 0xdc 0xdd (Z.of_nat (length a)) ++
      (fix go a := match a with [] => [] | v :: a => msgpack_encode v ++ go a end) a
  | JObject o =>
      msgpack_container_head 0x80 0xde 0xdf (Z.of_nat (length o)) ++
      (fix go o := match o with
                   | [] => []
                   | kv :: o => msgpack_text kv.1 ++ msgpack_encode kv.2 ++ go o
                   end) o
  | JDiscarded => []
  end.

(** MessagePack has no length field beyond 32 bits. *)
Fixpoint msgpack_sizes (j : json) : Prop :=
  match j with
  | JString s => Z.of_nat (length s) < 2 ^ 32
  | JArray a =>
      Z.of_nat (length a) < 2 ^ 32 ∧
      (fix go a := match a with [] => True | v :: a => msgpack_sizes v ∧ go a end) a
  | JObject o =>
      Z.of_nat (length o) < 2 ^ 32 ∧
      (fix go o := match o with
                   | [] => True
                   | kv :: o => Z.of_nat (length kv.1) < 2 ^ 32 ∧ msgpack_sizes kv.2 ∧ go o
                   end) o
  | _ => True
  end.

(** ** The writer refines the formats *)

Lemma be_bytes_1 z : in_u 8 z → be_bytes 1 z = [z].
Proof. unfold in_u. intros. unfold be_bytes. cbn. by rewrite Z.mod_small by lia. Qed.

Section refinement.
Context {O : Type} `{OutputAdapter O}.
Variable le : bool.

Lemma write_number_contents n z (oa : O) :
  contents (write_number le n z oa) = contents oa ++ be_bytes n z.
Proof.
  unfold write_number. rewrite contents_write_characters. f_equal. by destruct le.
Qed.

Ltac write_cases :=
  repeat case_if; try lia;
  rewrite ?contents_write_characters, ?write_number_contents, ?contents_write_character,
    <-?app_assoc; cbn [app]; try done;
  rewrite ?be_bytes_1 by (unfold in_u; lia); try done.

Lemma write_cbor_unsigned_contents z (oa : O) : in_u 64 z →
  contents (write_cbor_unsigned le z oa) = contents oa ++ cbor_head 0 z.
Proof.
  unfold in_u, write_cbor_unsigned, cbor_head. intros. write_cases.
Qed.

Lemma write_cbor_integer_contents z (oa : O) : in_s 64 z →
  contents (write_cbor_integer le z oa) = contents oa ++ cbor_int z.
Proof.
  unfold in_s, write_cbor_integer, cbor_int, cbor_head. intros. write_cases.
Qed.

Lemma write_cbor_string_contents s (oa : O) : size_ok s →
  contents (write_cbor_string le s oa) = contents oa ++ cbor_text s.
Proof.
  unfold size_ok, write_cbor_string, cbor_text, cbor_head. intros. write_cases.
Qed.

Lemma write_cbor_array_size_contents N (oa : O) : 0 ≤ N < 2 ^ 64 →
  contents (write_cbor_array_size le N oa) = contents oa ++ cbor_head 4 N.
Proof.
  unfold write_cbor_array_size, cbor_head. intros. write_cases.
Qed.

Lemma write_cbor_object_size_contents N (oa : O) : 0 ≤ N < 2 ^ 64 →
  contents (write_cbor_object_size le N oa) = contents oa ++ cbor_head 5 N.
Proof.
  unfold write_cbor_object_size, cbor_head. intros. write_cases.
Qed.

Lemma write_cbor_contents j (oa : O) : json_wf j →
  contents (write_cbor le j oa) = contents oa ++ cbor_encode j.
Proof.
  revert oa. induction j as [|o IH|a IH|s|b|z|z|f|] using json_induction;
    intros oa Hwf; cbn [write_cbor cbor_encode].
  - by rewrite contents_write_character.
  - apply json_wf_object in Hwf as (_ & Hsz & Hks & Hvs).
    rewrite app_assoc, <-write_cbor_object_size_contents by (unfold size_ok in Hsz; lia).
    generalize (write_cbor_object_size le (Z.of_nat (length o)) oa). clear Hsz oa.
    induction IH as [|kv o Hkv _ IHo]; intros oa; [by rewrite app_nil_r|].
    apply Forall_cons in Hks as [[_ Hk] Hks]. apply Forall_cons in Hvs as [Hv Hvs].
    rewrite IHo, Hkv, write_cbor_string_contents by done. by rewrite <-!app_assoc.
  - apply json_wf_array in Hwf as (Hsz & Hvs).
    rewrite app_assoc, <-write_cbor_array_size_contents by (unfold size_ok in Hsz; lia).
    generalize (write_cbor_array_size le (Z.of_nat (length a)) oa). clear Hsz oa.
    induction IH as [|v a Hv _ IHa]; intros oa; [by rewrite app_nil_r|].
    apply Forall_cons in Hvs as [Hv' Hvs]. rewrite IHa, Hv by done. by rewrite <-!app_assoc.
  - by apply write_cbor_string_contents, Hwf.
  - by rewrite contents_write_character.
  - by apply write_cbor_integer_contents.
  - rewrite write_cbor_unsigned_contents by done. destruct Hwf.
    unfold cbor_int. by ztest.
  - by rewrite write_number_contents, contents_write_character, <-app_assoc.
  - by rewrite app_nil_r.
Qed.

Lemma write_msgpack_unsigned_contents z (oa : O) : in_u 64 z →
  contents (write_msgpack_unsigned le z oa) = contents oa ++ msgpack_uint z.
Proof.
  unfold in_u, write_msgpack_unsigned, msgpack_uint. intros. write_cases.
Qed.

Lemma write_msgpack_integer_contents z (oa : O) : in_s 64 z →
  contents (write_msgpack_integer le z oa) = contents oa ++ msgpack_int z.
Proof.
  unfold in_s, write_msgpack_integer, msgpack_int. intros.
  destruct (0 <=? z) eqn:E; zbool.
  { apply write_msgpack_unsigned_contents. unfold in_u. lia. }
  repeat ((destruct (_ && _) eqn:?; zbool; [|apply andb_false_iff in Heqb as [?|?]; zbool]) || case_if);
    try lia;
    rewrite ?write_number_contents, ?contents_write_character, <-?app_assoc; done.
Qed.

Lemma write_msgpack_string_contents s (oa : O) : Z.of_nat (length s) < 2 ^ 32 →
  contents (write_msgpack_string le s oa) = contents oa ++ msgpack_text s.
Proof.
  unfold write_msgpack_string, msgpack_text, msgpack_str_head. intros. write_cases.
  change 0xa0 with (5 * 2 ^ 5) at 1. rewrite lor_disjoint by lia.
  rewrite be_bytes_1; [done|unfold in_u; lia].
Qed.

Lemma write_msgpack_array_size_contents N (oa : O) : 0 ≤ N < 2 ^ 32 →
  contents (write_msgpack_array_size le N oa) =
  contents oa ++ msgpack_container_head 0x90 0xdc 0xdd N.
Proof.
  unfold write_msgpack_array_size, msgpack_container_head. intros. write_cases.
  change 0x90 with (9 * 2 ^ 4). rewrite lor_disjoint by lia.
  rewrite be_bytes_1; [done|unfold in_u; lia].
Qed.

Lemma write_msgpack_object_size_contents N (oa : O) : 0 ≤ N < 2 ^ 32 →
  contents (write_msgpack_object_size le N oa) =
  contents oa ++ msgpack_container_head 0x80 0xde 0xdf N.
Proof.
  unfold write_msgpack_object_size, msgpack_container_head. intros. write_cases.
  change 0xf with (Z.ones 4). rewrite Z.land_ones, Z.mod_small by lia.
  change 0x80 with (8 * 2 ^ 4). rewrite lor_disjoint by lia.
  rewrite be_bytes_1; [done|unfold in_u; lia].
Qed.

Lemma write_msgpack_contents j (oa : O) : json_wf j → msgpack_sizes j →
  contents (write_msgpack le j oa) = contents oa ++ msgpack_encode j.
Proof.
  revert oa. induction j as [|o IH|a IH|s|b|z|z|f|] using json_induction;
    intros oa Hwf Hms; cbn [write_msgpack msgpack_encode].
  - by rewrite contents_write_character.
  - apply json_wf_object in Hwf as (_ & _ & _ & Hvs). destruct Hms as [Hsz Hms].
    rewrite app_assoc, <-write_msgpack_object_size_contents by lia.
    generalize (write_msgpack_object_size le (Z.of_nat (length o)) oa). clear Hsz oa.
    induction IH as [|kv o Hkv _ IHo]; intros oa; [by rewrite app_nil_r|].
    destruct Hms as (Hk & Hm & Hms). apply Forall_cons in Hvs as [Hv Hvs].
    rewrite IHo, Hkv, write_msgpack_string_contents by done. by rewrite <-!app_assoc.
  - apply json_wf_array in Hwf as (_ & Hvs). destruct Hms as [Hsz Hms].
    rewrite app_assoc, <-write_msgpack_array_size_contents by lia.
    generalize (write_msgpack_array_size le (Z.of_nat (length a)) oa). clear Hsz oa.
    induction IH as [|v a Hv _ IHa]; intros oa; [by rewrite app_nil_r|].
    destruct Hms as (Hm & Hms). apply Forall_cons in Hvs as [Hv' Hvs].
    rewrite IHa, Hv by done. by rewrite <-!app_assoc.
  - by apply write_msgpack_string_contents.
  - by rewrite contents_write_character.
  - by apply write_msgpack_integer_contents.
  - by apply write_msgpack_unsigned_contents.
  - by rewrite write_number_contents, contents_write_character, <-app_assoc.
  - by rewrite app_nil_r.
Qed.
End refinement.
