(* ===== verification/BinaryReader.v ===== *)
(** [binary_reader] of json.hpp: CBOR and MessagePack input.

    The reader object is a record; every member function is a state-passing
    computation that may throw.  Loops whose length comes from the input
    ([generate_n], the indefinite length items) take fuel; one unit per pending
    byte is enough, which [parse_cbor_internal_finished] and
    [parse_msgpack_internal_finished] prove. *)

From S2P Require Import Prelude Machine Float64 JsonValue Adapters.

Record binary_reader (A : Type) := mk_reader {
  br_ia : A;
  br_current : Z;
  br_chars_read : Z;
}.
Arguments mk_reader {A} _ _ _.
Arguments br_ia {A} _.
Arguments br_current {A} _.
Arguments br_chars_read {A} _.

(** The members' initializers. *)
Definition binary_reader_new {A} (adapter : A) : binary_reader A := mk_reader adapter eof 0.

Definition between (lo c hi : Z) : bool := (lo <=? c) && (c <=? hi).

(** [setw(2) << setfill('0') << hex << current]. *)
Definition hex2 (c : Z) : list Z := [hexdigit (c / 16); hexdigit (c mod 16)].

Section binary_reader.
Context {A : Type} `{!input_adapter_protocol A}.
(** [is_little_endian], the endianness of the host. *)
Variable le : bool.

Abbreviation R := (M exn (binary_reader A)).

Definition get : R Z := λ r,
  let '(c, ia) := get_character (br_ia r) in
  Ok (c, mk_reader ia c (uwrap 64 (br_chars_read r + 1))).

Definition current : R Z := gets br_current.

Definition throw_parse_error {T} (id : Z) (what : list Z) : R T :=
  n ← gets br_chars_read; throw (parse_error_create id n what).

Definition check_eof (expect_eof : bool) : R () :=
  c ← current;
  if expect_eof then
    if negb (c =? eof) then throw_parse_error 110 (lit "expected end of input")
    else mret ()
  else
    if c =? eof then throw_parse_error 110 (lit "unexpected end of input")
    else mret ().

(** The loop of [get_number]: [k] bytes still to read into [vec], the next
    being byte [i] of the number. *)
Fixpoint get_number_loop (k i : nat) (vec : list Z) : R (list Z) :=
  match k with
  | O => mret vec
  | S k =>
      get ;; check_eof false ;;
      c ← current;
      get_number_loop k (S i)
        (if le then <[(length vec - i - 1)%nat := uwrap 8 c]> vec
         else <[i := uwrap 8 c]> vec)
  end.

(** [get_number<NumberType>] for an unsigned type of [n] bytes. *)
Definition get_number (n : nat) : R Z :=
  vec ← get_number_loop n 0 (replicate n 0);
  mret (object_value le vec).

(** The same bytes read as a signed type. *)
Definition get_number_signed (n : nat) : R Z :=
  z ← get_number n; mret (swrap (8 * Z.of_nat n) z).

(** [get_number<float>], converted to [number_float_t]. *)
Definition get_number_float : R Z := z ← get_number 4; mret (F64.of_float32 z).

Fixpoint get_string_loop (fuel : nat) (len : Z) (result : list Z) : R (list Z) :=
  if len <=? 0 then mret result else
  match fuel with
  | O => no_fuel
  | S fuel =>
      get ;; check_eof false ;;
      c ← current;
      get_string_loop fuel (len - 1) (result ++ [uwrap 8 c])
  end.

Definition get_string (fuel : nat) (len : Z) : R (list Z) := get_string_loop fuel len [].

(** The loop of an indefinite length string. *)
Fixpoint get_cbor_string_indefinite (fuel : nat) (result : list Z) : R (list Z) :=
  match fuel with
  | O => no_fuel
  | S fuel =>
      c ← get;
      if c =? 0xff then mret result
      else
        check_eof false ;;
        c ← current;
        get_cbor_string_indefinite fuel (result ++ [uwrap 8 c])
  end.

Definition get_cbor_string (fuel : nat) : R (list Z) :=
  check_eof false ;;
  c ← current;
  if between 0x60 c 0x77 then get_string fuel (Z.land c 0x1f)
  else if c =? 0x78 then (n ← get_number 1; get_string fuel n)
  else if c =? 0x79 then (n ← get_number 2; get_string fuel n)
  else if c =? 0x7a then (n ← get_number 4; get_string fuel n)
  else if c =? 0x7b then (n ← get_number 8; get_string fuel n)
  else if c =? 0x7f then get_cbor_string_indefinite fuel []
  else throw_parse_error 113 (lit "expected a CBOR string; last byte: 0x" ++ hex2 c).

(** [generate_n] into the array: [parse] reads one element. *)
Fixpoint generate_array (parse : R json) (fuel : nat) (len : Z) (array : list json) : R json :=
  if len <=? 0 then mret (JArray array) else
  match fuel with
  | O => no_fuel
  | S fuel => val ← parse; generate_array parse fuel (len - 1) (array ++ [val])
  end.

(** [generate_n] into an inserter of the object: [parse_key] and [parse] read
    one member, and [insert] keeps the first value of a repeated key. *)
Fixpoint generate_object (parse_key : R (list Z)) (parse : R json) (fuel : nat) (len : Z)
    (object : list (list Z * json)) : R json :=
  if len <=? 0 then mret (JObject object) else
  match fuel with
  | O => no_fuel
  | S fuel =>
      get ;;
      key ← parse_key;
      val ← parse;
      generate_object parse_key parse fuel (len - 1) (omap_emplace key val object)
  end.

(** The loop of an indefinite length array. *)
Fixpoint cbor_array_indefinite (parse : R json) (fuel : nat) (array : list json) : R json :=
  match fuel with
  | O => no_fuel
  | S fuel =>
      c ← get;
      if c =? 0xff then mret (JArray array)
      else val ← parse; cbor_array_indefinite parse fuel (array ++ [val])
  end.

(** The loop of an indefinite length map: [result[key] = value]. *)
Fixpoint cbor_object_indefinite (parse_key : R (list Z)) (parse : R json) (fuel : nat)
    (object : list (list Z * json)) : R json :=
  match fuel with
  | O => no_fuel
  | S fuel =>
      c ← get;
      if c =? 0xff then mret (JObject object)
      else
        key ← parse_key;
        val ← parse;
        cbor_object_indefinite parse_key parse fuel (omap_assign key val object)
  end.

(** The half precision float of RFC 7049, appendix D. *)
Definition cbor_half_float : R json :=
  byte1 ← get;
  check_eof false ;;
  byte2 ← get;
  check_eof false ;;
  let half := Z.shiftl byte1 8 + byte2 in
  let exp := Z.land (Z.shiftr half 10) 0x1f in
  let mant := Z.land half 0x3ff in
  let val :=
    if exp =? 0 then F64.ldexp mant (-24)
    else if negb (exp =? 31) then F64.ldexp (mant + 1024) (exp - 25)
    else if mant =? 0 then F64.infinity else F64.quiet_NaN in
  mret (JFloat (if negb (Z.land half 0x8000 =? 0) then F64.opp val else val)).

(** Integers and negative integers, major types 0 and 1; [None] when [c] is of
    another type. *)
Definition cbor_integer (c : Z) : option (R json) :=
  if between 0x00 c 0x17 then Some (mret (JUInt c))
  else if c =? 0x18 then Some (n ← get_number 1; mret (JUInt n))
  else if c =? 0x19 then Some (n ← get_number 2; mret (JUInt n))
  else if c =? 0x1a then Some (n ← get_number 4; mret (JUInt n))
  else if c =? 0x1b then Some (n ← get_number 8; mret (JUInt n))
  else if between 0x20 c 0x37 then Some (mret (JInt (swrap 8 (0x20 - 1 - c))))
  else if c =? 0x38 then Some (n ← get_number 1; mret (JInt (-1 - n)))
  else if c =? 0x39 then Some (n ← get_number 2; mret (JInt (-1 - n)))
  else if c =? 0x3a then Some (n ← get_number 4; mret (JInt (-1 - n)))
  else if c =? 0x3b then Some (n ← get_number 8; mret (JInt (-1 - swrap 64 n)))
  else None.

(** Arrays and maps, major types 4 and 5; [parse] is the recursive call, whose
    argument is [get_char]. *)
Definition cbor_container (parse : bool → R json) (fuel : nat) (c : Z) : option (R json) :=
  let get_cbor_array len := generate_array (parse true) fuel len [] in
  let get_cbor_object len :=
    generate_object (get_cbor_string fuel) (parse true) fuel len [] in
  if between 0x80 c 0x97 then Some (get_cbor_array (Z.land c 0x1f))
  else if c =? 0x98 then Some (n ← get_number 1; get_cbor_array n)
  else if c =? 0x99 then Some (n ← get_number 2; get_cbor_array n)
  else if c =? 0x9a then Some (n ← get_number 4; get_cbor_array n)
  else if c =? 0x9b then Some (n ← get_number 8; get_cbor_array n)
  else if c =? 0x9f then Some (cbor_array_indefinite (parse false) fuel [])
  else if between 0xa0 c 0xb7 then Some (get_cbor_object (Z.land c 0x1f))
  else if c =? 0xb8 then Some (n ← get_number 1; get_cbor_object n)
  else if c =? 0xb9 then Some (n ← get_number 2; get_cbor_object n)
  else if c =? 0xba then Some (n ← get_number 4; get_cbor_object n)
  else if c =? 0xbb then Some (n ← get_number 8; get_cbor_object n)
  else if c =? 0xbf then
    Some (cbor_object_indefinite (get_cbor_string fuel) (parse true) fuel [])
  else None.

(** The cases of the switch that select a text string. *)
Definition cbor_string_case (c : Z) : bool := between 0x60 c 0x7b || (c =? 0x7f).

Fixpoint parse_cbor_internal (fuel : nat) (get_char : bool) : R json :=
  match fuel with
  | O => no_fuel
  | S fuel =>
      c ← (if get_char then get else current);
      if c =? eof then throw_parse_error 110 (lit "unexpected end of input")
      else
      match cbor_integer c with
      | Some m => m
      | None =>
      if cbor_string_case c then (s ← get_cbor_string fuel; mret (JString s))
      else
      match cbor_container (parse_cbor_internal fuel) fuel c with
      | Some m => m
      | None =>
      if c =? 0xf4 then mret (JBool false)
      else if c =? 0xf5 then mret (JBool true)
      else if c =? 0xf6 then mret JNull
      else if c =? 0xf9 then cbor_half_float
      else if c =? 0xfa then (f ← get_number_float; mret (JFloat f))
      else if c =? 0xfb then (f ← get_number 8; mret (JFloat f))
      else throw_parse_error 112 (lit "error reading CBOR; last byte: 0x" ++ hex2 c)
      end
      end
  end.

Definition parse_cbor (fuel : nat) (strict : bool) : R json :=
  res ← parse_cbor_internal fuel true;
  if strict then get ;; check_eof true ;; mret res else mret res.

(** ** MessagePack *)

Definition get_msgpack_string (fuel : nat) : R (list Z) :=
  check_eof false ;;
  c ← current;
  if between 0xa0 c 0xbf then get_string fuel (Z.land c 0x1f)
  else if c =? 0xd9 then (n ← get_number 1; get_string fuel n)
  else if c =? 0xda then (n ← get_number 2; get_string fuel n)
  else if c =? 0xdb then (n ← get_number 4; get_string fuel n)
  else throw_parse_error 113 (lit "expected a MessagePack string; last byte: 0x" ++ hex2 c).

(** The fixed width numbers. *)
Definition msgpack_number (c : Z) : option (R json) :=
  if c =? 0xca then Some (f ← get_number_float; mret (JFloat f))
  else if c =? 0xcb then Some (f ← get_number 8; mret (JFloat f))
  else if c =? 0xcc then Some (n ← get_number 1; mret (JUInt n))
  else if c =? 0xcd then Some (n ← get_number 2; mret (JUInt n))
  else if c =? 0xce then Some (n ← get_number 4; mret (JUInt n))
  else if c =? 0xcf then Some (n ← get_number 8; mret (JUInt n))
  else if c =? 0xd0 then Some (n ← get_number_signed 1; mret (JInt n))
  else if c =? 0xd1 then Some (n ← get_number_signed 2; mret (JInt n))
  else if c =? 0xd2 then Some (n ← get_number_signed 4; mret (JInt n))
  else if c =? 0xd3 then Some (n ← get_number_signed 8; mret (JInt n))
  else None.

Fixpoint parse_msgpack_internal (fuel : nat) : R json :=
  match fuel with
  | O => no_fuel
  | S fuel =>
      let get_msgpack_array len := generate_array (parse_msgpack_internal fuel) fuel len [] in
      let get_msgpack_object len :=
        generate_object (get_msgpack_string fuel) (parse_msgpack_internal fuel) fuel len [] in
      c ← get;
      if c =? eof then throw_parse_error 110 (lit "unexpected end of input")
      else if between 0x00 c 0x7f then mret (JUInt c)
      else if between 0x80 c 0x8f then get_msgpack_object (Z.land c 0x0f)
      else if between 0x90 c 0x9f then get_msgpack_array (Z.land c 0x0f)
      else if between 0xa0 c 0xbf then (s ← get_msgpack_string fuel; mret (JString s))
      else if c =? 0xc0 then mret JNull
      else if c =? 0xc2 then mret (JBool false)
      else if c =? 0xc3 then mret (JBool true)
      else
      match msgpack_number c with
      | Some m => m
      | None =>
      if between 0xd9 c 0xdb then (s ← get_msgpack_string fuel; mret (JString s))
      else if c =? 0xdc then (n ← get_number 2; get_msgpack_array n)
      else if c =? 0xdd then (n ← get_number 4; get_msgpack_array n)
      else if c =? 0xde then (n ← get_number 2; get_msgpack_object n)
      else if c =? 0xdf then (n ← get_number 4; get_msgpack_object n)
      else if between 0xe0 c 0xff then mret (JInt (swrap 8 c))
      else throw_parse_error 112 (lit "error reading MessagePack; last byte: 0x" ++ hex2 c)
      end
  end.

Definition parse_msgpack (fuel : nat) (strict : bool) : R json :=
  res ← parse_msgpack_internal fuel;
  if strict then get ;; check_eof true ;; mret res else mret res.
End binary_reader.

(** [from_cbor] and [from_msgpack] on a byte buffer, with enough fuel. *)
Definition from_cbor (le : bool) (bytes : list Z) (strict : bool) : result json :=
  '(j, _) ← parse_cbor le (S (length bytes)) strict
              (binary_reader_new (input_buffer_adapter_new bytes));
  mret j.

Definition from_msgpack (le : bool) (bytes : list Z) (strict : bool) : result json :=
  '(j, _) ← parse_msgpack le (S (length bytes)) strict
              (binary_reader_new (input_buffer_adapter_new bytes));
  mret j.
