(* ===== verification/BinaryRoundTrip.v ===== *)
(** Reading back what the binary writer wrote.

    [reads c m bs x]: started with [c] as its current byte and [bs] next in the
    input, the reader computation [m] consumes exactly [bs] and returns [x],
    over every input adapter.  The rules compose such statements along the
    code; the round trips of both formats follow by induction on the value. *)

From S2P Require Import Prelude Machine Float64 JsonValue Adapters BinaryWriter BinaryReader.

Section reads.
Context {A : Type} `{InputAdapter A}.
Variable le : bool.

Abbreviation R := (M exn (binary_reader A)).

Definition reads {T} (c : Z) (m : R T) (bs : list Z) (x : T) : Prop :=
  ∀ r rest, br_current r = c → pending (br_ia r) = bs ++ rest →
    ∃ r', m r = Ok (x, r') ∧ pending (br_ia r') = rest.

Lemma reads_ret {T} c (x : T) : reads c (mret x) [] x.
Proof. intros r rest _ Hp. by eexists. Qed.

Lemma get_byte r c rest : pending (br_ia r) = c :: rest →
  ∃ r', get r = Ok (c, r') ∧ pending (br_ia r') = rest ∧ br_current r' = c.
Proof.
  intros Hp. unfold get. destruct (get_character_byte _ _ _ Hp) as (a' & -> & Ha & _).
  by eexists.
Qed.

Lemma get_eof r : pending (br_ia r) = [] →
  ∃ r', get r = Ok (eof, r') ∧ pending (br_ia r') = [] ∧ br_current r' = eof.
Proof. intros Hp. unfold get. rewrite (get_character_eof _ Hp). by eexists. Qed.

Lemma reads_get {T} c0 c (k : Z → R T) bs y :
  reads c (k c) bs y → reads c0 (get ≫= k) (c :: bs) y.
Proof.
  intros Hk r rest _ Hp. destruct (get_byte r c (bs ++ rest) Hp) as (r1 & E & Hp1 & Hc1).
  rewrite (M_bind_Ok _ _ _ _ _ E). by apply Hk.
Qed.

Lemma reads_current {T} c (k : Z → R T) bs y :
  reads c (k c) bs y → reads c (current ≫= k) bs y.
Proof.
  intros Hk r rest Hc Hp. unfold current. erewrite M_bind_Ok by done. rewrite Hc. by apply Hk.
Qed.

Lemma reads_check_eof {T} c (k : () → R T) bs y :
  c ≠ eof → reads c (k ()) bs y → reads c (check_eof false ≫= k) bs y.
Proof.
  intros Hne Hk r rest Hc Hp. erewrite M_bind_Ok; [by apply Hk|].
  unfold check_eof, current. erewrite M_bind_Ok by done. simpl. rewrite Hc. by ztests.
Qed.

(** The number the bytes read so far stand for, as [get_number] lays them
    out in its array. *)
Lemma get_number_loop_reads (bs : list Z) i (vec : list Z) c r rest :
  is_bytes bs → (i + length bs = length vec)%nat →
  br_current r = c → pending (br_ia r) = bs ++ rest →
  ∃ r', get_number_loop le (length bs) i vec r =
          Ok (if le then rev bs ++ drop (length bs) vec
              else take i vec ++ bs, r') ∧
        pending (br_ia r') = rest.
Proof.
  intros Hbs. revert i vec c r. induction Hbs as [|b bs Hb Hbs IH]; intros i vec c r Hlen Hc Hp.
  - exists r. simpl in *. split; [|done]. destruct le; [done|].
    rewrite take_ge by lia. by rewrite app_nil_r.
  - destruct (get_byte r b (bs ++ rest) Hp) as (r1 & E & Hp1 & Hc1).
    cbn [get_number_loop length]. rewrite (M_bind_Ok _ _ _ _ _ E).
    erewrite M_bind_Ok; cycle 1.
    { unfold check_eof, current. erewrite M_bind_Ok by done. simpl. rewrite Hc1.
      unfold is_byte, eof in *. by ztests. }
    unfold current at 1. erewrite M_bind_Ok by done. rewrite Hc1.
    rewrite uwrap_small by (unfold is_byte, in_u in *; lia). simpl in Hlen.
    destruct le.
    + destruct (IH (S i) (<[(length vec - i - 1)%nat := b]> vec) b r1) as (r2 & -> & Hp2);
        [rewrite length_insert; lia|done..|].
      exists r2. split; [|done]. do 2 f_equal. cbn [rev length].
      rewrite <-app_assoc. f_equal. cbn [app].
      replace (length vec - i - 1)%nat with (length bs) by lia.
      rewrite (drop_S _ b) by (apply list_lookup_insert_eq; lia).
      by rewrite drop_insert_lt by lia.
    + destruct (IH (S i) (<[i := b]> vec) b r1) as (r2 & -> & Hp2);
        [rewrite length_insert; lia|done..|].
      exists r2. split; [|done]. do 2 f_equal.
      rewrite (take_S_r _ _ b) by (apply list_lookup_insert_eq; lia).
      rewrite take_insert_ge by lia. by rewrite <-app_assoc.
Qed.

Lemma get_number_reads {T} c n z (k : Z → R T) bs y :
  in_u (8 * Z.of_nat n) z → (∀ c', reads c' (k z) bs y) →
  reads c (get_number le n ≫= k) (be_bytes n z ++ bs) y.
Proof.
  intros Hz Hk r rest Hc Hp. rewrite <-app_assoc in Hp.
  destruct (get_number_loop_reads (be_bytes n z) 0 (replicate n 0) c r (bs ++ rest))
    as (r1 & E & Hp1); [apply be_bytes_bytes| |done..|].
  { rewrite length_replicate, length_be_bytes. lia. }
  erewrite M_bind_Ok; [by apply (Hk (br_current r1))|].
  unfold get_number. rewrite length_be_bytes in E. rewrite (M_bind_Ok _ _ _ _ _ E).
  unfold mret, M_ret. do 2 f_equal.
  rewrite drop_ge, app_nil_r by (rewrite length_replicate; lia). cbn [take app].
  rewrite object_value_be. by apply uwrap_small.
Qed.

Lemma get_string_loop_reads s fuel c acc :
  is_bytes s → (length s ≤ fuel)%nat →
  reads c (get_string_loop fuel (Z.of_nat (length s)) acc) s (acc ++ s).
Proof.
  intros Hs. revert fuel c acc. induction Hs as [|b s Hb Hs IH]; intros fuel c acc Hf.
  - rewrite app_nil_r. destruct fuel; apply reads_ret.
  - destruct fuel as [|fuel]; [simpl in Hf; lia|]. cbn [get_string_loop length]. ztests.
    apply reads_get, reads_check_eof, reads_current; [unfold is_byte, eof in *; lia|].
    rewrite uwrap_small by (unfold is_byte, in_u in *; lia).
    replace (Z.of_nat (S (length s)) - 1) with (Z.of_nat (length s)) by lia.
    rewrite (app_cons_snoc acc b s). apply IH. simpl in Hf. lia.
Qed.

Lemma get_string_reads s fuel c n :
  is_bytes s → n = Z.of_nat (length s) → (length s ≤ fuel)%nat →
  reads c (get_string fuel n) s s.
Proof. intros ? -> ?. by apply get_string_loop_reads. Qed.

(** ** Containers, for any element encoding *)

Lemma generate_array_reads (enc : json → list Z) (f : json → json) parse fuel c els acc :
  Forall (λ v, ∀ c, reads c parse (enc v) (f v)) els → (length els ≤ fuel)%nat →
  reads c (generate_array parse fuel (Z.of_nat (length els)) acc)
    (concat (enc <$> els)) (JArray (acc ++ (f <$> els))).
Proof.
  intros Hels. revert fuel c acc. induction Hels as [|v els Hv Hels IH]; intros fuel c acc Hf.
  - simpl. rewrite app_nil_r. destruct fuel; apply reads_ret.
  - destruct fuel as [|fuel]; [simpl in Hf; lia|].
    cbn [generate_array length fmap list_fmap concat]. ztests.
    intros r rest Hc Hp. rewrite <-app_assoc in Hp.
    destruct (Hv c r _ Hc Hp) as (r1 & E1 & Hp1). rewrite (M_bind_Ok _ _ _ _ _ E1).
    replace (Z.of_nat (S (length els)) - 1) with (Z.of_nat (length els)) by lia.
    rewrite (app_cons_snoc acc (f v) (f <$> els)).
    apply (IH fuel (br_current r1) (acc ++ [f v])); [simpl in Hf; lia|done..].
Qed.

(** A key is encoded as [hd :: tl]; [get] reads [hd] before [parse_key]. *)
Lemma generate_object_reads (enck : list Z → list Z) (enc : json → list Z) (f : json → json)
    parse_key parse fuel c els acc :
  omap_sorted (acc ++ ((λ kv, (kv.1, f kv.2)) <$> els)) →
  Forall (λ kv : list Z * json,
    (∃ hd tl, enck kv.1 = hd :: tl ∧ reads hd parse_key tl kv.1) ∧
    (∀ c, reads c parse (enc kv.2) (f kv.2))) els →
  (length els ≤ fuel)%nat →
  reads c (generate_object parse_key parse fuel (Z.of_nat (length els)) acc)
    (concat ((λ kv, enck kv.1 ++ enc kv.2) <$> els))
    (JObject (acc ++ ((λ kv, (kv.1, f kv.2)) <$> els))).
Proof.
  intros Hsort Hels. revert fuel c acc Hsort.
  induction Hels as [|kv els [(hd & tl & Hk & Hkey) Hv] Hels IH]; intros fuel c acc Hsort Hf.
  - simpl. rewrite app_nil_r. destruct fuel; apply reads_ret.
  - destruct fuel as [|fuel]; [simpl in Hf; lia|].
    cbn [generate_object length fmap list_fmap concat]. ztests. rewrite Hk.
    intros r rest Hc Hp. rewrite <-!app_assoc in Hp.
    destruct (get_byte r hd _ Hp) as (r1 & E1 & Hp1 & Hc1). rewrite (M_bind_Ok _ _ _ _ _ E1).
    destruct (Hkey r1 _ Hc1 Hp1) as (r2 & E2 & Hp2). rewrite (M_bind_Ok _ _ _ _ _ E2).
    destruct (Hv _ r2 _ eq_refl Hp2) as (r3 & E3 & Hp3). rewrite (M_bind_Ok _ _ _ _ _ E3).
    cbn [fmap list_fmap] in Hsort. rewrite app_cons_snoc in Hsort.
    rewrite omap_emplace_keys by (by eapply omap_sorted_app_keys).
    replace (Z.of_nat (S (length els)) - 1) with (Z.of_nat (length els)) by lia.
    rewrite (app_cons_snoc acc (kv.1, f kv.2) ((λ kv, (kv.1, f kv.2)) <$> els)).
    apply (IH fuel (br_current r3)); [done|simpl in Hf; lia|done..].
Qed.
End reads.

(** ** CBOR *)

Section cbor.
Context {A : Type} `{InputAdapter A}.
Variable le : bool.

(** Decide the tests on the current byte. *)
Ltac tests := unfold cbor_string_case, between; ztests.

Lemma land_0x1f_add k n : 0 ≤ n < 32 → Z.land (32 * k + n) 0x1f = n.
Proof.
  intros. change 0x1f with (Z.ones 5). rewrite Z.land_ones by lia.
  symmetry. apply Z.mod_unique with k; lia.
Qed.

Lemma cbor_integer_none c : 0x40 ≤ c → @cbor_integer A _ le c = None.
Proof. intros. unfold cbor_integer. tests. done. Qed.

Lemma cbor_text_reads s fuel :
  is_bytes s → size_ok s → (length s ≤ fuel)%nat →
  ∃ hd tl, cbor_text s = hd :: tl ∧ 0x60 ≤ hd ≤ 0x7b ∧
           reads (A:=A) hd (get_cbor_string le fuel) tl s.
Proof.
  unfold size_ok. intros Hs Hsz Hf. unfold cbor_text, cbor_head.
  repeat case_if; cbn [app]; eexists _, _; (split; [reflexivity|]); (split; [lia|]);
    unfold get_cbor_string; apply reads_check_eof; try (unfold eof; lia);
    apply reads_current; tests.
  1: { apply get_string_reads; auto. by rewrite (land_0x1f_add 3) by lia. }
  all: apply get_number_reads; [unfold in_u; lia|]; intros; by apply get_string_reads.
Qed.

Lemma cbor_int_reads c z fuel : - 2 ^ 63 ≤ z < 2 ^ 64 →
  reads (A:=A) c (parse_cbor_internal le (S fuel) true) (cbor_int z)
    (if 0 <=? z then JUInt z else JInt z).
Proof.
  intros Hz. unfold cbor_int, cbor_head. cbn [parse_cbor_internal].
  repeat case_if; try lia; apply reads_get; unfold eof, cbor_integer; tests;
    try (rewrite <-(app_nil_r (be_bytes _ _)); apply get_number_reads; [unfold in_u; lia|]; intros ?).
  all: try (replace (32 * 0 + z) with z by lia; apply reads_ret).
  all: try apply reads_ret.
  all: try (replace (-1 - (-1 - z)) with z by lia; apply reads_ret).
  - replace (swrap 8 _) with z; [apply reads_ret|].
    replace (32 - 1 - (32 * 1 + (-1 - z))) with z by lia.
    rewrite swrap_small; [done|lia|unfold in_s; lia].
  - rewrite swrap_small; [|lia|unfold in_s; lia].
    replace (-1 - (-1 - z)) with z by lia. apply reads_ret.
Qed.

(** A container head leads to the container's loop. *)
Lemma cbor_array_head_reads c n fuel bs x : 0 ≤ n < 2 ^ 64 →
  (∀ c, reads (A:=A) c (generate_array (parse_cbor_internal le fuel true) fuel n []) bs x) →
  reads c (parse_cbor_internal le (S fuel) true) (cbor_head 4 n ++ bs) x.
Proof.
  intros Hn Hk. unfold cbor_head. cbn [parse_cbor_internal].
  repeat case_if; try lia; cbn [app]; apply reads_get; unfold eof; ztest;
    rewrite cbor_integer_none by lia; unfold cbor_container; tests.
  - by rewrite (land_0x1f_add 4) by lia.
  - apply get_number_reads; [unfold in_u; lia|done].
  - apply get_number_reads; [unfold in_u; lia|done].
  - apply get_number_reads; [unfold in_u; lia|done].
  - apply get_number_reads; [unfold in_u; lia|done].
Qed.

Lemma cbor_object_head_reads c n fuel bs x : 0 ≤ n < 2 ^ 64 →
  (∀ c, reads (A:=A) c (generate_object (get_cbor_string le fuel)
                          (parse_cbor_internal le fuel true) fuel n []) bs x) →
  reads c (parse_cbor_internal le (S fuel) true) (cbor_head 5 n ++ bs) x.
Proof.
  intros Hn Hk. unfold cbor_head. cbn [parse_cbor_internal].
  repeat case_if; try lia; cbn [app]; apply reads_get; unfold eof; ztest;
    rewrite cbor_integer_none by lia; unfold cbor_container; tests.
  - by rewrite (land_0x1f_add 5) by lia.
  - apply get_number_reads; [unfold in_u; lia|done].
  - apply get_number_reads; [unfold in_u; lia|done].
  - apply get_number_reads; [unfold in_u; lia|done].
  - apply get_number_reads; [unfold in_u; lia|done].
Qed.

Lemma cbor_float_reads c f fuel : in_u 64 f →
  reads (A:=A) c (parse_cbor_internal le (S fuel) true) (0xfb :: be_bytes 8 f) (JFloat f).
Proof.
  intros Hf. cbn [parse_cbor_internal]. apply reads_get. unfold eof. ztest.
  rewrite cbor_integer_none by lia. unfold cbor_container. tests.
  rewrite <-(app_nil_r (be_bytes _ _)). by apply get_number_reads; [|intros; apply reads_ret].
Qed.

Lemma cbor_string_value_reads c s fuel :
  is_bytes s → size_ok s → (length s ≤ fuel)%nat →
  reads (A:=A) c (parse_cbor_internal le (S fuel) true) (cbor_text s) (JString s).
Proof.
  intros Hs Hsz Hf. destruct (cbor_text_reads s fuel Hs Hsz Hf) as (hd & tl & -> & Hhd & Hr).
  cbn [parse_cbor_internal]. apply reads_get. unfold eof. ztest.
  rewrite cbor_integer_none by lia. tests.
  intros r rest Hc Hp. destruct (Hr r rest Hc Hp) as (r1 & E & Hp1).
  rewrite (M_bind_Ok _ _ _ _ _ E). by eexists.
Qed.

Lemma cbor_encode_nonempty j : no_discarded j → (0 < length (cbor_encode j))%nat.
Proof.
  destruct j; intros Hd; cbn [cbor_encode]; unfold cbor_text, cbor_int, cbor_head;
    repeat case_if; simpl; try lia; done.
Qed.

(** The bytes of a container bound the fuel its elements need. *)
Lemma concat_fuel {T} (enc : T → list Z) (els : list T) (P : T → Prop) fuel :
  (∀ v, P v → (0 < length (enc v))%nat) → Forall P els →
  (length (concat (enc <$> els)) ≤ fuel)%nat →
  (length els ≤ fuel)%nat ∧ Forall (λ v, (length (enc v) ≤ fuel)%nat) els.
Proof.
  intros Henc Hels. revert fuel. induction Hels as [|v els Hv Hels IH]; intros fuel; csimpl.
  - split; [lia|constructor].
  - rewrite length_app. intros Hf. specialize (Henc v Hv).
    destruct (IH (fuel - length (enc v))%nat) as [Hl Hall]; [lia|].
    split; [lia|]. constructor; [lia|]. eapply Forall_impl; [apply Hall|]. simpl. lia.
Qed.

Lemma cbor_encode_array a :
  cbor_encode (JArray a) = cbor_head 4 (Z.of_nat (length a)) ++ concat (cbor_encode <$> a).
Proof. cbn [cbor_encode]. f_equal. induction a; csimpl; f_equal; auto. Qed.

Lemma cbor_encode_object o :
  cbor_encode (JObject o) =
  cbor_head 5 (Z.of_nat (length o)) ++
  concat ((λ kv, cbor_text kv.1 ++ cbor_encode kv.2) <$> o).
Proof.
  cbn [cbor_encode]. f_equal. induction o as [|kv o IH]; [done|].
  csimpl. by rewrite IH, <-app_assoc.
Qed.

Lemma cbor_head_nonempty m n : (0 < length (cbor_head m n))%nat.
Proof. unfold cbor_head. repeat case_if; simpl; lia. Qed.

Lemma cbor_text_length s : (length s ≤ length (cbor_text s))%nat.
Proof. unfold cbor_text. rewrite length_app. lia. Qed.

(** Reading an encoded value gives it back, up to the signedness of
    non-negative integers. *)
Lemma cbor_reads j fuel c :
  json_wf j → no_discarded j → (length (cbor_encode j) ≤ fuel)%nat →
  reads (A:=A) c (parse_cbor_internal le fuel true) (cbor_encode j) (canon j).
Proof.
  revert fuel c. induction j as [|o IH|a IH|s|b|z|z|f|] using json_induction;
    intros fuel c Hwf Hnd Hf;
    (destruct fuel as [|fuel];
     [pose proof (cbor_encode_nonempty _ Hnd); lia|]).
  - apply reads_get, reads_ret.
  - rewrite cbor_encode_object in *. rewrite canon_object.
    apply json_wf_object in Hwf as (Hsort & Hsz & Hks & Hvs).
    apply no_discarded_object in Hnd. unfold size_ok in Hsz.
    rewrite length_app in Hf. pose proof (cbor_head_nonempty 5 (Z.of_nat (length o))) as Hne.
    destruct (concat_fuel (λ kv : list Z * json, cbor_text kv.1 ++ cbor_encode kv.2) o
      (λ kv, no_discarded kv.2) fuel) as [Hlen Hall]; [|done|lia|].
    { intros kv Hkv. rewrite length_app. pose proof (cbor_encode_nonempty _ Hkv). lia. }
    apply cbor_object_head_reads; [lia|]. intros c'.
    apply (generate_object_reads cbor_text cbor_encode canon); [|..|done].
    { by apply fmap_snd_sorted. }
    clear Hf Hlen Hsz Hsort Hne.
    induction IH as [|kv o Hkv _ IHo]; [constructor|].
    apply Forall_cons in Hks as [[Hk1 Hk2] Hks], Hvs as [Hv Hvs], Hnd as [Hd Hnd],
      Hall as [Hl Hall]. simpl in Hl. rewrite length_app in Hl.
    pose proof (cbor_text_length kv.1). constructor; [|by apply IHo]. split.
    + destruct (cbor_text_reads kv.1 fuel) as (hd & tl & ? & _ & ?); [done..|lia|]. eauto.
    + intros c''. apply Hkv; [done..|lia].
  - rewrite cbor_encode_array in *. rewrite canon_array.
    apply json_wf_array in Hwf as (Hsz & Hvs). apply no_discarded_array in Hnd.
    unfold size_ok in Hsz.
    rewrite length_app in Hf. pose proof (cbor_head_nonempty 4 (Z.of_nat (length a))) as Hne.
    destruct (concat_fuel cbor_encode a no_discarded fuel) as [Hlen Hall];
      [apply cbor_encode_nonempty|done|lia|].
    apply cbor_array_head_reads; [lia|]. intros c'.
    apply (generate_array_reads cbor_encode canon); [|done].
    clear Hf Hlen Hsz Hne. induction IH as [|v a Hv _ IHa]; [constructor|].
    apply Forall_cons in Hvs as [Hv' Hvs], Hnd as [Hd Hnd], Hall as [Hl Hall].
    constructor; [|by apply IHa]. intros c''. by apply Hv.
  - destruct Hwf. apply cbor_string_value_reads; auto. cbn [cbor_encode] in Hf.
    pose proof (cbor_text_length s). unfold cbor_text in *. rewrite length_app in *.
    pose proof (cbor_head_nonempty 3 (Z.of_nat (length s))). lia.
  - destruct b; apply reads_get, reads_ret.
  - apply cbor_int_reads. cbn [json_wf] in Hwf. unfold in_s in Hwf. lia.
  - pose proof (cbor_int_reads c z fuel) as Hr. destruct Hwf.
    rewrite (proj2 (Z.leb_le 0 z)) in Hr by done. apply Hr. lia.
  - by apply cbor_float_reads.
  - done.
Qed.
End cbor.

(** ** MessagePack *)

Section msgpack.
Context {A : Type} `{InputAdapter A}.
Variable le : bool.

Ltac tests := unfold msgpack_number, between, eof; ztests.

Lemma land_0x0f_add k n : 0 ≤ n < 16 → Z.land (16 * k + n) 0x0f = n.
Proof.
  intros. change 0x0f with (Z.ones 4). rewrite Z.land_ones by lia.
  symmetry. apply Z.mod_unique with k; lia.
Qed.

Lemma msgpack_text_reads s fuel :
  is_bytes s → Z.of_nat (length s) < 2 ^ 32 → (length s ≤ fuel)%nat →
  ∃ hd tl, msgpack_text s = hd :: tl ∧ (0xa0 ≤ hd ≤ 0xbf ∨ 0xd9 ≤ hd ≤ 0xdb) ∧
           reads (A:=A) hd (get_msgpack_string le fuel) tl s.
Proof.
  intros Hs Hsz Hf. unfold msgpack_text, msgpack_str_head.
  repeat case_if; cbn [app]; eexists _, _; (split; [reflexivity|]); (split; [lia|]);
    unfold get_msgpack_string; apply reads_check_eof; try (unfold eof; lia);
    apply reads_current; tests.
  1: { apply get_string_reads; auto. by rewrite (land_0x1f_add 5) by lia. }
  all: apply get_number_reads; [unfold in_u; lia|]; intros; by apply get_string_reads.
Qed.

Lemma msgpack_uint_reads c z fuel : in_u 64 z →
  reads (A:=A) c (parse_msgpack_internal le (S fuel)) (msgpack_uint z) (JUInt z).
Proof.
  unfold in_u, msgpack_uint. intros Hz. cbn [parse_msgpack_internal].
  repeat case_if; apply reads_get; tests;
    try (rewrite <-(app_nil_r (be_bytes _ _)); apply get_number_reads; [unfold in_u; lia|]; intros ?);
    apply reads_ret.
Qed.

(** A signed number of [n] bytes is read back from its two's complement. *)
Lemma get_number_signed_reads c n z : (0 < n)%nat → in_s (8 * Z.of_nat n) z →
  reads (A:=A) c (x ← get_number_signed le n; mret (JInt x)) (be_bytes n z) (JInt z).
Proof.
  intros Hn Hz r rest Hc Hp.
  rewrite <-be_bytes_uwrap in Hp. rewrite <-(app_nil_r (be_bytes _ _)) in Hp.
  destruct (get_number_reads (A:=A) le c n (uwrap (8 * Z.of_nat n) z) mret [] (uwrap (8 * Z.of_nat n) z))
    with (r:=r) (rest:=rest) as (r1 & E & Hp1); [by apply uwrap_range; lia|intros; apply reads_ret|done..|].
  exists r1. split; [|done].
  destruct (M_bind_Ok_inv _ _ _ _ E) as (x & r2 & E1 & E2). inversion E2; subst.
  unfold get_number_signed, mbind, M_bind. rewrite E1. unfold mret, M_ret.
  by rewrite swrap_uwrap by (done || lia).
Qed.

Lemma msgpack_int_reads c z fuel : in_s 64 z →
  reads (A:=A) c (parse_msgpack_internal le (S fuel)) (msgpack_int z)
    (if 0 <=? z then JUInt z else JInt z).
Proof.
  intros Hz. unfold msgpack_int. destruct (0 <=? z) eqn:E; zbool.
  { apply msgpack_uint_reads. unfold in_u, in_s in *. lia. }
  cbn [parse_msgpack_internal]. repeat case_if; try lia.
  1: { change (be_bytes 1 z) with [z mod 256].
       replace (z mod 256) with (z + 256) by (apply Z.mod_unique with (-1); lia).
       apply reads_get. tests.
       replace (swrap 8 (z + 256)) with z; [apply reads_ret|].
       rewrite <-(swrap_small 8 z) at 1; [|lia|unfold in_s; lia].
       unfold swrap. change (2 ^ 8) with 256.
       by rewrite <-(Z.mod_add z 1 256), Z.mul_1_l by lia. }
  all: apply reads_get; tests; apply get_number_signed_reads; [lia|];
    unfold in_s in *; simpl; lia.
Qed.

Lemma msgpack_array_head_reads c n fuel bs x : 0 ≤ n < 2 ^ 32 →
  (∀ c, reads (A:=A) c (generate_array (parse_msgpack_internal le fuel) fuel n []) bs x) →
  reads c (parse_msgpack_internal le (S fuel)) (msgpack_container_head 0x90 0xdc 0xdd n ++ bs) x.
Proof.
  intros Hn Hk. unfold msgpack_container_head. cbn [parse_msgpack_internal].
  repeat case_if; try lia; cbn [app]; apply reads_get; tests.
  - change (0x90 + n) with (16 * 9 + n) at 2. by rewrite land_0x0f_add by lia.
  - apply get_number_reads; [unfold in_u; lia|done].
  - apply get_number_reads; [unfold in_u; lia|done].
Qed.

Lemma msgpack_object_head_reads c n fuel bs x : 0 ≤ n < 2 ^ 32 →
  (∀ c, reads (A:=A) c (generate_object (get_msgpack_string le fuel)
                          (parse_msgpack_internal le fuel) fuel n []) bs x) →
  reads c (parse_msgpack_internal le (S fuel)) (msgpack_container_head 0x80 0xde 0xdf n ++ bs) x.
Proof.
  intros Hn Hk. unfold msgpack_container_head. cbn [parse_msgpack_internal].
  repeat case_if; try lia; cbn [app]; apply reads_get; tests.
  - change (0x80 + n) with (16 * 8 + n) at 2. by rewrite land_0x0f_add by lia.
  - apply get_number_reads; [unfold in_u; lia|done].
  - apply get_number_reads; [unfold in_u; lia|done].
Qed.

Lemma msgpack_float_reads c f fuel : in_u 64 f →
  reads (A:=A) c (parse_msgpack_internal le (S fuel)) (0xcb :: be_bytes 8 f) (JFloat f).
Proof.
  intros Hf. cbn [parse_msgpack_internal]. apply reads_get. tests.
  rewrite <-(app_nil_r (be_bytes _ _)). by apply get_number_reads; [|intros; apply reads_ret].
Qed.

Lemma msgpack_string_value_reads c s fuel :
  is_bytes s → Z.of_nat (length s) < 2 ^ 32 → (length s ≤ fuel)%nat →
  reads (A:=A) c (parse_msgpack_internal le (S fuel)) (msgpack_text s) (JString s).
Proof.
  intros Hs Hsz Hf. destruct (msgpack_text_reads s fuel Hs Hsz Hf) as (hd & tl & -> & Hhd & Hr).
  cbn [parse_msgpack_internal]. apply reads_get.
  assert (∀ x : Z, reads hd (s ← get_msgpack_string le fuel; mret (JString s)) tl (JString s)) as Hm.
  { intros _ r rest Hc Hp. destruct (Hr r rest Hc Hp) as (r1 & E & Hp1).
    rewrite (M_bind_Ok _ _ _ _ _ E). by eexists. }
  destruct Hhd; tests; by apply Hm.
Qed.

Lemma msgpack_encode_nonempty j : no_discarded j → (0 < length (msgpack_encode j))%nat.
Proof.
  destruct j; intros Hd; cbn [msgpack_encode];
    unfold msgpack_text, msgpack_int, msgpack_uint, msgpack_str_head, msgpack_container_head;
    repeat case_if; rewrite ?length_be_bytes; simpl; try lia; done.
Qed.

Lemma msgpack_encode_array a :
  msgpack_encode (JArray a) =
  msgpack_container_head 0x90 0xdc 0xdd (Z.of_nat (length a)) ++ concat (msgpack_encode <$> a).
Proof. cbn [msgpack_encode]. f_equal. induction a; csimpl; f_equal; auto. Qed.

Lemma msgpack_encode_object o :
  msgpack_encode (JObject o) =
  msgpack_container_head 0x80 0xde 0xdf (Z.of_nat (length o)) ++
  concat ((λ kv, msgpack_text kv.1 ++ msgpack_encode kv.2) <$> o).
Proof.
  cbn [msgpack_encode]. f_equal. induction o as [|kv o IH]; [done|].
  csimpl. by rewrite IH, <-app_assoc.
Qed.

Lemma msgpack_container_head_nonempty a b c n :
  (0 < length (msgpack_container_head a b c n))%nat.
Proof. unfold msgpack_container_head. repeat case_if; simpl; lia. Qed.

Lemma msgpack_text_length s : (length s < length (msgpack_text s))%nat.
Proof.
  unfold msgpack_text, msgpack_str_head. rewrite length_app. repeat case_if; simpl; lia.
Qed.

Lemma msgpack_sizes_array a :
  msgpack_sizes (JArray a) → Z.of_nat (length a) < 2 ^ 32 ∧ Forall msgpack_sizes a.
Proof.
  intros [Hl Ha]. split; [done|]. clear Hl. induction a; constructor; naive_solver.
Qed.

Lemma msgpack_sizes_object o :
  msgpack_sizes (JObject o) → Z.of_nat (length o) < 2 ^ 32 ∧
  Forall (λ kv, Z.of_nat (length kv.1) < 2 ^ 32 ∧ msgpack_sizes kv.2) o.
Proof.
  intros [Hl Ho]. split; [done|]. clear Hl. induction o; constructor; naive_solver.
Qed.

Lemma msgpack_reads j fuel c :
  json_wf j → no_discarded j → msgpack_sizes j → (length (msgpack_encode j) ≤ fuel)%nat →
  reads (A:=A) c (parse_msgpack_internal le fuel) (msgpack_encode j) (canon j).
Proof.
  revert fuel c. induction j as [|o IH|a IH|s|b|z|z|f|] using json_induction;
    intros fuel c Hwf Hnd Hms Hf;
    (destruct fuel as [|fuel];
     [pose proof (msgpack_encode_nonempty _ Hnd); lia|]).
  - apply reads_get, reads_ret.
  - rewrite msgpack_encode_object in *. rewrite canon_object.
    apply json_wf_object in Hwf as (Hsort & _ & Hks & Hvs).
    apply no_discarded_object in Hnd. apply msgpack_sizes_object in Hms as [Hsz Hms].
    rewrite length_app in Hf.
    pose proof (msgpack_container_head_nonempty 0x80 0xde 0xdf (Z.of_nat (length o))) as Hne.
    destruct (concat_fuel (λ kv : list Z * json, msgpack_text kv.1 ++ msgpack_encode kv.2) o
      (λ kv, no_discarded kv.2) fuel) as [Hlen Hall]; [|done|lia|].
    { intros kv Hkv. rewrite length_app. pose proof (msgpack_encode_nonempty _ Hkv). lia. }
    apply msgpack_object_head_reads; [lia|]. intros c'.
    apply (generate_object_reads msgpack_text msgpack_encode canon); [|..|done].
    { by apply fmap_snd_sorted. }
    clear Hf Hlen Hsz Hsort Hne.
    induction IH as [|kv o Hkv _ IHo]; [constructor|].
    apply Forall_cons in Hks as [[Hk1 Hk2] Hks], Hvs as [Hv Hvs], Hnd as [Hd Hnd],
      Hms as [[Hm1 Hm2] Hms], Hall as [Hl Hall]. simpl in Hl. rewrite length_app in Hl.
    pose proof (msgpack_text_length kv.1). constructor; [|by apply IHo]. split.
    + destruct (msgpack_text_reads kv.1 fuel) as (hd & tl & ? & _ & ?); [done..|lia|]. eauto.
    + intros c''. apply Hkv; [done..|lia].
  - rewrite msgpack_encode_array in *. rewrite canon_array.
    apply json_wf_array in Hwf as (_ & Hvs). apply no_discarded_array in Hnd.
    apply msgpack_sizes_array in Hms as [Hsz Hms]. rewrite length_app in Hf.
    pose proof (msgpack_container_head_nonempty 0x90 0xdc 0xdd (Z.of_nat (length a))) as Hne.
    destruct (concat_fuel msgpack_encode a no_discarded fuel) as [Hlen Hall];
      [apply msgpack_encode_nonempty|done|lia|].
    apply msgpack_array_head_reads; [lia|]. intros c'.
    apply (generate_array_reads msgpack_encode canon); [|done].
    clear Hf Hlen Hsz Hne. induction IH as [|v a Hv _ IHa]; [constructor|].
    apply Forall_cons in Hvs as [Hv' Hvs], Hnd as [Hd Hnd], Hms as [Hm Hms], Hall as [Hl Hall].
    constructor; [|by apply IHa]. intros c''. by apply Hv.
  - destruct Hwf. apply msgpack_string_value_reads; auto. cbn [msgpack_encode] in Hf.
    pose proof (msgpack_text_length s). lia.
  - destruct b; apply reads_get, reads_ret.
  - by apply msgpack_int_reads.
  - by apply msgpack_uint_reads.
  - by apply msgpack_float_reads.
  - done.
Qed.
End msgpack.

(** ** Whole documents *)

Section documents.
Context {A : Type} `{InputAdapter A}.

(** A strict read succeeds when the value's bytes are all there is. *)
Lemma strict_reads (m : M exn (binary_reader A) json) bs x strict r rest :
  (∀ c, reads c m bs x) → pending (br_ia r) = bs ++ rest → (strict = true → rest = []) →
  ∃ r', (res ← m; if strict then get ;; check_eof true ;; mret res else mret res) r = Ok (x, r') ∧
        pending (br_ia r') = rest.
Proof.
  intros Hm Hp Hstrict. destruct (Hm _ r rest eq_refl Hp) as (r1 & E1 & Hp1).
  rewrite (M_bind_Ok _ _ _ _ _ E1). destruct strict; [|by eexists].
  rewrite Hstrict in * by done. destruct (get_eof _ Hp1) as (r2 & E2 & Hp2 & Hc2).
  exists r2. rewrite (M_bind_Ok _ _ _ _ _ E2). split; [|done].
  unfold check_eof, current, mbind, M_bind, gets. by rewrite Hc2.
Qed.
End documents.

Lemma to_cbor_encode le j : json_wf j → to_cbor le j = cbor_encode j.
Proof. intros H. exact (write_cbor_contents (O:=output_vector_adapter) le j {| v := [] |} H). Qed.

Lemma to_msgpack_encode le j : json_wf j → msgpack_sizes j → to_msgpack le j = msgpack_encode j.
Proof.
  intros H Hs. exact (write_msgpack_contents (O:=output_vector_adapter) le j {| v := [] |} H Hs).
Qed.

(** No encoded value starts with a byte order mark. *)
Lemma skip_bom_cbor j : json_wf j → skip_bom (cbor_encode j) = cbor_encode j.
Proof.
  intros Hwf. assert (∀ c r, cbor_encode j = c :: r → c ≠ 0xEF) as Hc.
  { intros c r. destruct j; cbn [cbor_encode]; unfold cbor_text, cbor_int, cbor_head;
      repeat case_if; cbn [app]; intros E'; inversion E'; subst; unfold json_wf, in_s, in_u in *; lia. }
  unfold skip_bom. destruct (cbor_encode j) as [|c [|c1 [|c2 r]]] eqn:E; try done.
  specialize (Hc c _ eq_refl). by ztests.
Qed.

Lemma skip_bom_msgpack j : json_wf j → skip_bom (msgpack_encode j) = msgpack_encode j.
Proof.
  intros Hwf. unfold skip_bom. destruct (msgpack_encode j) as [|c [|c1 [|c2 r]]] eqn:E; try done.
  assert (c ≠ 0xEF) as Hc; [|by ztests].
  revert E. destruct j; cbn [msgpack_encode];
    unfold msgpack_text, msgpack_int, msgpack_uint, msgpack_str_head, msgpack_container_head;
    repeat case_if; cbn [app]; unfold be_bytes; cbn; intros E'; inversion E'; subst;
    unfold json_wf, in_s, in_u in *; lia.
Qed.
