(* ===== verification/BinaryTotal.v ===== *)
(** The binary reader on every input: it finishes, throws nothing but its parse
    errors, and what it returns is well formed.

    [good V b m]: from a reader with fewer than [b] pending bytes, [m] finishes,
    its result satisfies [V], and it gives no byte back; [strict V b m] moreover
    consumes at least one byte when it returns.  The rules follow the structure
    of the code. *)

From S2P Require Import Prelude Machine Float64 JsonValue Adapters BinaryReader.

(** The exceptions of the reader: unexpected end, bad byte, bad key. *)
Definition binary_exn (e : exn) : Prop :=
  ∃ id byte what, e = parse_error id byte what ∧ id ∈ [110; 112; 113].

(** What the reader returns. *)
Definition read_value (j : json) : Prop := json_typed j ∧ no_discarded j.

Lemma read_value_push a v : read_value (JArray a) → read_value v → read_value (JArray (a ++ [v])).
Proof.
  unfold read_value. rewrite !json_typed_array, !no_discarded_array, !Forall_app. naive_solver.
Qed.

Lemma read_value_emplace o k v : read_value (JObject o) → is_bytes k → read_value v →
  read_value (JObject (omap_emplace k v o)).
Proof.
  unfold read_value. rewrite !json_typed_object, !no_discarded_object.
  intros ((?&?&?)&?) ? [? ?]. split_and!; auto using omap_emplace_sorted, omap_emplace_Forall.
Qed.

Lemma read_value_assign o k v : read_value (JObject o) → is_bytes k → read_value v →
  read_value (JObject (omap_assign k v o)).
Proof.
  unfold read_value. rewrite !json_typed_object, !no_discarded_object.
  intros ((?&?&?)&?) ? [? ?]. split_and!; auto using omap_assign_sorted;
    apply omap_assign_Forall; try done; intros k' Hk%string_compare_eq; by subst.
Qed.

Lemma read_value_nil : read_value (JArray []) ∧ read_value (JObject []).
Proof. split; (split; [|done]); [done|]. split; [constructor|done]. Qed.

Lemma F64_opp_range b : in_u 64 b → in_u 64 (F64.opp b).
Proof. unfold F64.opp, F64.signbit, F64.sign_bit, in_u. intros. case_if; lia. Qed.

Lemma F64_ldexp_range m e : 0 ≤ m → in_u 64 (F64.ldexp m e).
Proof.
  intros Hm. unfold F64.ldexp. case_if; apply F64.round_ratio_range; try lia.
Qed.

Lemma lor_quiet_range m : 0 ≤ m < 2 ^ 23 → 0 ≤ Z.lor (4095 * 2 ^ 51) (m * 2 ^ 29) < 2 ^ 63.
Proof.
  intros Hm. assert (0 ≤ Z.lor (4095 * 2 ^ 51) (m * 2 ^ 29)) as Hn by (apply Z.lor_nonneg; lia).
  split; [done|]. apply Z.log2_lt_pow2.
  - assert (Z.lor (4095 * 2 ^ 51) (m * 2 ^ 29) ≠ 0); [|lia]. intros [? _]%Z.lor_eq_0_iff. lia.
  - rewrite Z.log2_lor by lia. apply Z.max_lub_lt; [reflexivity|].
    destruct (decide (m = 0)) as [->|]; [reflexivity|]. apply Z.log2_lt_pow2; lia.
Qed.

Lemma F64_of_float32_range b : in_u 32 b → in_u 64 (F64.of_float32 b).
Proof.
  intros Hb. unfold F64.of_float32.
  assert (0 ≤ b mod 2 ^ 23 < 2 ^ 23) by (apply Z.mod_pos_bound; lia).
  assert (0 ≤ (b / 2 ^ 23) mod 2 ^ 8 < 2 ^ 8) by (apply Z.mod_pos_bound; lia).
  set (m := b mod 2 ^ 23) in *. set (e := (b / 2 ^ 23) mod 2 ^ 8) in *. clearbody m e.
  rewrite Z.shiftl_mul_pow2 by lia.
  case_if; [apply F64.with_sign_range; case_if; [by split|]|].
  - change F64.quiet_NaN with (4095 * 2 ^ 51). by apply lor_quiet_range.
  - case_if; [apply F64.round_ratio_range; lia|]. apply F64.with_sign_range. lia.
Qed.

Lemma object_value_range (le : bool) l : is_bytes l →
  in_u (8 * Z.of_nat (length l)) (object_value le l).
Proof.
  intros Hl. unfold object_value. destruct le; [by apply le_value_bound|].
  rewrite <-length_rev. apply le_value_bound. by apply Forall_rev.
Qed.

Section total.
Context {A : Type} `{InputAdapter A}.
Variable le : bool.

Abbreviation R := (M exn (binary_reader A)).

Definition left (r : binary_reader A) : nat := length (pending (br_ia r)).

Definition good {T} (V : T → Prop) (b : nat) (m : R T) : Prop := ∀ r, (left r < b)%nat →
  wp binary_exn m (λ x r', V x ∧ (left r' ≤ left r)%nat) r.

Definition strict {T} (V : T → Prop) (b : nat) (m : R T) : Prop := ∀ r, (left r < b)%nat →
  wp binary_exn m (λ x r', V x ∧ (left r' < left r)%nat) r.

Definition any {T} (_ : T) : Prop := True.

Lemma good_mono {T} V b b' (m : R T) : (b' ≤ b)%nat → good V b m → good V b' m.
Proof. intros Hb Hm r Hr. apply Hm. lia. Qed.

Lemma strict_good {T} V b (m : R T) : strict V b m → good V b m.
Proof. intros Hm r Hr. eapply wp_mono; [by apply Hm|]. intros x r' [? ?]. split; [done|lia]. Qed.

Lemma good_ret {T} (V : T → Prop) b x : V x → good V b (mret x).
Proof. intros Hx r Hr. by split. Qed.

Lemma good_throw {T} (V : T → Prop) b id what :
  id ∈ [110; 112; 113] → good V b (throw_parse_error id what).
Proof. intros Hid r Hr. by eexists _, _, _. Qed.

Lemma good_current b : good any b current.
Proof. intros r Hr. by split. Qed.

Lemma good_bind {T U} W V b (m : R T) (k : T → R U) :
  good W b m → (∀ x, W x → good V b (k x)) → good V b (m ≫= k).
Proof.
  intros Hm Hk r Hr. apply wp_bind. eapply wp_mono; [by apply Hm|]. intros x r1 [Hx Hl].
  eapply wp_mono; [apply Hk; [done|lia]|]. intros y r2 [? ?]. split; [done|lia].
Qed.

(** [get] either delivers a byte, or [eof] which becomes the current one. *)
Lemma get_cases r :
  (∃ r', get r = Ok (eof, r') ∧ left r' = left r ∧ br_current r' = eof) ∨
  (∃ c r', get r = Ok (c, r') ∧ S (left r') = left r ∧ br_current r' = c).
Proof.
  unfold get, left. destruct (pending (br_ia r)) as [|c rest] eqn:E.
  - left. rewrite (get_character_eof _ E). eexists. split; [done|]. simpl. by rewrite E.
  - right. destruct (get_character_byte _ _ _ E) as (a & -> & <- & _). by eexists _, _.
Qed.

Lemma good_get b : good any b get.
Proof.
  intros r Hr. unfold wp.
  destruct (get_cases r) as [(r1 & -> & ? & _)|(c & r1 & -> & ? & _)]; split; done || lia.
Qed.

Lemma good_check_eof b e : good any b (check_eof e).
Proof.
  unfold check_eof. apply (good_bind any); [apply good_current|]. intros c _.
  destruct e; case_if; first [apply good_throw; set_solver|by apply good_ret].
Qed.

(** After a [get], [k] may assume a byte was consumed, if it throws at [eof]. *)
Lemma strict_get {T} V b (k : Z → R T) :
  (∀ r, br_current r = eof → ∃ e, k eof r = Throw e ∧ binary_exn e) → (∀ c, good V b (k c)) →
  strict V (S b) (get ≫= k).
Proof.
  intros Heof Hk r Hr. unfold wp, mbind, M_bind.
  destruct (get_cases r) as [(r1 & -> & ? & Hc)|(c & r1 & -> & Hl & _)].
  - by destruct (Heof r1 Hc) as (e & -> & ?).
  - pose proof (Hk c r1 ltac:(lia)) as Hw. unfold wp in Hw.
    destruct (k c r1) as [[x r2]| |]; [|done..]. destruct Hw. split; [done|lia].
Qed.

Lemma check_eof_throws {T} (k : () → R T) r :
  br_current r = eof → ∃ e, (check_eof false ≫= k) r = Throw e ∧ binary_exn e.
Proof.
  intros Hc. unfold check_eof, current, mbind, M_bind, gets, throw_parse_error. rewrite Hc.
  eexists. split; [done|]. eexists _, _, _. split; [done|set_solver].
Qed.

Create HintDb good.
Hint Resolve good_ret good_throw good_current good_bind good_get good_check_eof : good.
Hint Extern 1 (any _) => exact I : good.
Hint Extern 1 (_ ∈ _) => set_solver : good.

Lemma good_get_number_loop b k i vec : is_bytes vec →
  good (λ v, is_bytes v ∧ length v = length vec) b (get_number_loop le k i vec).
Proof.
  revert i vec. induction k as [|k IH]; intros i vec Hvec; cbn [get_number_loop];
    [by apply good_ret|].
  apply (good_bind any); [auto with good|]. intros _ _.
  apply (good_bind any); [auto with good|]. intros _ _.
  apply (good_bind any); [auto with good|]. intros c _.
  assert (is_byte (uwrap 8 c)) by (apply (uwrap_range 8); lia).
  assert (∀ n, is_bytes (<[n:=uwrap 8 c]> vec)) by (intros; by apply Forall_insert).
  destruct le; (intros r Hr; eapply wp_mono; [by apply IH|]);
    intros v r' [[? Hlen] ?]; rewrite length_insert in Hlen; done.
Qed.

Lemma good_get_number b n : good (in_u (8 * Z.of_nat n)) b (get_number le n).
Proof.
  unfold get_number. eapply good_bind.
  - apply good_get_number_loop. apply Forall_replicate. by split.
  - intros v [Hv Hlen]. apply good_ret. rewrite length_replicate in Hlen. rewrite <-Hlen.
    by apply object_value_range.
Qed.
Hint Resolve good_get_number : good.

Lemma good_get_string_loop fuel len acc : is_bytes acc →
  good is_bytes fuel (get_string_loop fuel len acc).
Proof.
  revert len acc. induction fuel as [|fuel IH]; intros len acc Hacc; cbn [get_string_loop];
    case_if; auto with good; [intros r Hr; lia|].
  apply strict_good, strict_get; [intros; by apply check_eof_throws|]. intros _.
  apply (good_bind any); [auto with good|]. intros _ _.
  apply (good_bind any); [auto with good|]. intros c _. apply IH.
  apply Forall_app_2; [done|]. constructor; [|constructor]. apply (uwrap_range 8). lia.
Qed.

Lemma good_get_cbor_string_indefinite fuel acc : is_bytes acc →
  good is_bytes fuel (get_cbor_string_indefinite fuel acc).
Proof.
  revert acc. induction fuel as [|fuel IH]; intros acc Hacc; cbn [get_cbor_string_indefinite];
    [intros r Hr; lia|].
  apply strict_good, strict_get; [intros; by apply check_eof_throws|].
  intros c. case_if; [auto with good|].
  apply (good_bind any); [auto with good|]. intros _ _.
  apply (good_bind any); [auto with good|]. intros c' _. apply IH.
  apply Forall_app_2; [done|]. constructor; [|constructor]. apply (uwrap_range 8). lia.
Qed.

Lemma good_get_string fuel len : good is_bytes fuel (get_string fuel len).
Proof. apply good_get_string_loop. constructor. Qed.
Lemma good_get_string_n {U} W (m : R U) fuel (f : U → Z) :
  good W fuel m → good is_bytes fuel (n ← m; get_string fuel (f n)).
Proof. intros Hm. eapply good_bind; [done|]. intros. apply good_get_string. Qed.
Hint Resolve good_get_string : good.

Lemma good_get_cbor_string fuel : good is_bytes fuel (get_cbor_string le fuel).
Proof.
  unfold get_cbor_string. apply (good_bind any); [auto with good|]. intros _ _.
  apply (good_bind any); [auto with good|]. intros c _.
  repeat case_if; eauto with good. apply good_get_cbor_string_indefinite. constructor.
Qed.

Lemma good_get_msgpack_string fuel : good is_bytes fuel (get_msgpack_string le fuel).
Proof.
  unfold get_msgpack_string. apply (good_bind any); [auto with good|]. intros _ _.
  apply (good_bind any); [auto with good|]. intros c _. repeat case_if; eauto with good.
Qed.
Hint Resolve good_get_cbor_string good_get_msgpack_string : good.

Lemma good_generate_array parse b fuel len acc : read_value (JArray acc) →
  strict read_value b parse → (fuel ≤ b)%nat →
  good read_value fuel (generate_array parse fuel len acc).
Proof.
  intros Hacc Hp. revert len acc Hacc. induction fuel as [|fuel IH]; intros len acc Hacc Hb;
    cbn [generate_array]; case_if; auto with good; intros r Hr; [lia|].
  apply wp_bind. eapply wp_mono; [apply Hp; lia|]. intros v r1 [Hv Hl].
  eapply wp_mono; [apply IH; [by apply read_value_push|lia|lia]|].
  intros x r2 [? ?]. split; [done|lia].
Qed.

(** One member: its key, then its value. *)
Lemma strict_member {T} V parse_key parse b (k : list Z → json → R T) r :
  good is_bytes b parse_key → strict read_value b parse → (left r < b)%nat →
  (∀ key val r', is_bytes key → read_value val → (left r' < left r)%nat →
     wp binary_exn (k key val) (λ x r2, V x ∧ (left r2 ≤ left r')%nat) r') →
  wp binary_exn (key ← parse_key; val ← parse; k key val)
    (λ x r2, V x ∧ (left r2 ≤ left r)%nat) r.
Proof.
  intros Hkey Hp Hr Hk. apply wp_bind. eapply wp_mono; [by apply Hkey|]. intros key r1 [Hkb Hl].
  apply wp_bind. eapply wp_mono; [apply Hp; lia|]. intros val r2 [Hv Hl2].
  eapply wp_mono; [apply Hk; [done|done|lia]|]. intros x r3 [? ?]. split; [done|lia].
Qed.

Lemma good_generate_object parse_key parse b fuel len acc : read_value (JObject acc) →
  good is_bytes b parse_key → strict read_value b parse → (fuel ≤ b)%nat →
  good read_value fuel (generate_object parse_key parse fuel len acc).
Proof.
  intros Hacc Hkey Hp. revert len acc Hacc.
  induction fuel as [|fuel IH]; intros len acc Hacc Hb;
    cbn [generate_object]; case_if; auto with good; [intros r Hr; lia|].
  apply (good_bind any); [auto with good|]. intros _ _ r Hr.
  apply (strict_member _ parse_key parse b
    (λ key val, generate_object parse_key parse fuel (len - 1) (omap_emplace key val acc)));
    [done..|lia|].
  intros. apply IH; [by apply read_value_emplace|lia|lia].
Qed.

Lemma good_cbor_array_indefinite parse b fuel acc : read_value (JArray acc) →
  (∀ r, br_current r = eof → ∃ e, parse r = Throw e ∧ binary_exn e) →
  good read_value b parse → (fuel ≤ S b)%nat →
  good read_value fuel (cbor_array_indefinite parse fuel acc).
Proof.
  intros Hacc Heof Hp. revert acc Hacc. induction fuel as [|fuel IH]; intros acc Hacc Hb;
    cbn [cbor_array_indefinite]; [intros r Hr; lia|].
  apply strict_good, strict_get.
  - intros r Hc. destruct (Heof r Hc) as (e & He & Hx). exists e. split; [|done].
    change (eof =? 255) with false. by apply M_bind_Throw.
  - intros c. case_if; [auto with good|].
    apply (good_bind read_value); [by eapply good_mono; [|done]; lia|].
    intros v Hv. apply IH; [by apply read_value_push|lia].
Qed.

Lemma good_cbor_object_indefinite parse_key parse b fuel acc : read_value (JObject acc) →
  good is_bytes b parse_key → strict read_value b parse → (fuel ≤ b)%nat →
  good read_value fuel (cbor_object_indefinite parse_key parse fuel acc).
Proof.
  intros Hacc Hkey Hp. revert acc Hacc. induction fuel as [|fuel IH]; intros acc Hacc Hb;
    cbn [cbor_object_indefinite]; [intros r Hr; lia|].
  apply (good_bind any); [auto with good|]. intros c _. case_if; [auto with good|]. intros r Hr.
  apply (strict_member _ parse_key parse b
    (λ key val, cbor_object_indefinite parse_key parse fuel (omap_assign key val acc)));
    [done..|lia|].
  intros. apply IH; [by apply read_value_assign|lia|lia].
Qed.

Lemma read_value_uint z : in_u 64 z → read_value (JUInt z).
Proof. by intros. Qed.
Lemma read_value_int z : in_s 64 z → read_value (JInt z).
Proof. by intros. Qed.
Lemma read_value_float z : in_u 64 z → read_value (JFloat z).
Proof. by intros. Qed.

Lemma good_cbor_half_float b : good read_value b cbor_half_float.
Proof.
  unfold cbor_half_float. do 4 (apply (good_bind any); [auto with good|]; intros ? _).
  apply good_ret, read_value_float. set (val := if _ =? 0 then _ else _).
  assert (in_u 64 val) as Hval.
  { unfold val. change 0x3ff with (Z.ones 10). rewrite Z.land_ones by lia.
    assert (∀ a, 0 ≤ a mod 2 ^ 10) by (intros; apply Z.mod_pos_bound; lia).
    repeat case_if; first [by split|apply F64_ldexp_range]; auto.
    specialize (H0 (Z.shiftl x 8 + x1)). lia. }
  case_if; [by apply F64_opp_range|done].
Qed.

(** A number that is read and returned. *)
Lemma good_number {U} (m : R U) W b (f : U → json) :
  good W b m → (∀ n, W n → read_value (f n)) → good read_value b (n ← m; mret (f n)).
Proof. intros Hm Hf. eapply good_bind; [done|]. intros n Hn. by apply good_ret, Hf. Qed.

Ltac number :=
  eapply good_number; [apply good_get_number|]; intros n Hn; cbn in Hn;
  first [ apply read_value_uint; unfold in_u in *; lia
        | apply read_value_int; unfold in_u, in_s in *; lia ].

Lemma good_cbor_integer b c m : cbor_integer le c = Some m → good read_value b m.
Proof.
  unfold cbor_integer, between. repeat case_if; intros; simplify_eq; try number.
  - apply good_ret, read_value_uint. unfold in_u. lia.
  - apply good_ret, read_value_int. pose proof (swrap_range 8 (0x20 - 1 - c)).
    unfold in_s in *. lia.
  - eapply good_number; [apply good_get_number|]. intros n Hn. apply read_value_int.
    pose proof (swrap_range 64 n). unfold in_s in *. lia.
Qed.

Lemma parse_cbor_eof fuel (r : binary_reader A) : br_current r = eof →
  ∃ e, parse_cbor_internal le (S fuel) false r = Throw e ∧ binary_exn e.
Proof.
  intros Hc. cbn [parse_cbor_internal].
  unfold current, throw_parse_error, mbind, M_bind, gets. rewrite Hc.
  eexists. split; [done|]. eexists _, _, _. split; [done|set_solver].
Qed.

Lemma good_cbor_container fuel c m :
  strict read_value fuel (parse_cbor_internal le fuel true) →
  good read_value (pred fuel) (parse_cbor_internal le fuel false) →
  cbor_container le (parse_cbor_internal le fuel) fuel c = Some m → good read_value fuel m.
Proof.
  intros Ht Hf. unfold cbor_container. destruct read_value_nil as [Hna Hno].
  assert (∀ n, good read_value fuel
    (generate_array (parse_cbor_internal le fuel true) fuel n [])) as Harr
    by (intros; by eapply good_generate_array).
  assert (∀ n, good read_value fuel (generate_object (get_cbor_string le fuel)
    (parse_cbor_internal le fuel true) fuel n [])) as Hobj
    by (intros; eapply good_generate_object; auto with good).
  repeat case_if; intros; simplify_eq; eauto with good.
  - destruct fuel as [|fuel]; [intros r Hr; lia|].
    eapply good_cbor_array_indefinite; [done|apply parse_cbor_eof|done|simpl; lia].
  - eapply good_cbor_object_indefinite; auto with good.
Qed.

Lemma good_float_number b : good read_value b (f ← get_number_float le; mret (JFloat f)).
Proof.
  unfold get_number_float. eapply good_number.
  - eapply (good_bind _ (in_u 64)); [apply good_get_number|]. intros z Hz.
    apply good_ret. by apply F64_of_float32_range.
  - apply read_value_float.
Qed.

Lemma good_double_number b : good read_value b (f ← get_number le 8; mret (JFloat f)).
Proof. eapply good_number; [apply good_get_number|]. apply read_value_float. Qed.

Lemma good_string_value m b : good is_bytes b m → good read_value b (s ← m; mret (JString s)).
Proof. intros Hm. eapply good_number; [done|]. by intros. Qed.

Hint Resolve good_float_number good_double_number good_string_value good_cbor_half_float : good.
Hint Extern 1 (read_value _) => by split : good.

Lemma end_of_input_throws (k : R json) (r : binary_reader A) : ∃ e,
  (if eof =? eof then throw_parse_error 110 (lit "unexpected end of input") else k) r = Throw e ∧
  binary_exn e.
Proof. eexists. split; [done|]. eexists _, _, _. split; [done|set_solver]. Qed.

(** One unit of fuel per pending byte is enough. *)
Lemma parse_cbor_internal_finished fuel :
  strict read_value fuel (parse_cbor_internal le fuel true) ∧
  good read_value (pred fuel) (parse_cbor_internal le fuel false).
Proof.
  induction fuel as [|fuel [IHt IHf]]; [split; intros r Hr; simpl in Hr; lia|].
  assert (∀ c, good read_value fuel (
    if c =? eof then throw_parse_error 110 (lit "unexpected end of input") else
    match cbor_integer le c with
    | Some m => m
    | None =>
    if cbor_string_case c then (s ← get_cbor_string le fuel; mret (JString s)) else
    match cbor_container le (parse_cbor_internal le fuel) fuel c with
    | Some m => m
    | None =>
    if c =? 0xf4 then mret (JBool false)
    else if c =? 0xf5 then mret (JBool true)
    else if c =? 0xf6 then mret JNull
    else if c =? 0xf9 then cbor_half_float
    else if c =? 0xfa then (f ← get_number_float le; mret (JFloat f))
    else if c =? 0xfb then (f ← get_number le 8; mret (JFloat f))
    else throw_parse_error 112 (lit "error reading CBOR; last byte: 0x" ++ hex2 c)
    end end)) as Hbody.
  { intros c. case_if; [auto with good|].
    destruct (cbor_integer le c) eqn:Ei; [by eapply good_cbor_integer|].
    case_if; [auto with good|].
    destruct (cbor_container _ _ _ _) eqn:Ec; [by eapply good_cbor_container|].
    repeat case_if; auto with good. }
  split.
  - cbn [parse_cbor_internal]. apply strict_get; [|done]. intros. apply end_of_input_throws.
  - cbn [parse_cbor_internal pred]. apply (good_bind any); [auto with good|]. auto.
Qed.

Lemma good_msgpack_number b c m : msgpack_number le c = Some m → good read_value b m.
Proof.
  unfold msgpack_number, get_number_signed.
  repeat case_if; intros; simplify_eq; auto with good; try number.
  all: eapply good_number; [eapply (good_bind _ (in_s 64)); [apply good_get_number|]|
                            apply read_value_int].
  all: intros n Hn; apply good_ret.
  - change (8 * Z.of_nat 1) with 8. pose proof (swrap_range 8 n). unfold in_s in *. lia.
  - change (8 * Z.of_nat 2) with 16. pose proof (swrap_range 16 n). unfold in_s in *. lia.
  - change (8 * Z.of_nat 4) with 32. pose proof (swrap_range 32 n). unfold in_s in *. lia.
  - by apply (swrap_range 64 n).
Qed.

Lemma parse_msgpack_internal_finished fuel :
  strict read_value fuel (parse_msgpack_internal le fuel).
Proof.
  induction fuel as [|fuel IH]; [intros r Hr; lia|]. cbn [parse_msgpack_internal].
  destruct read_value_nil as [Hna Hno].
  assert (∀ n, good read_value fuel
    (generate_array (parse_msgpack_internal le fuel) fuel n [])) as Harr
    by (intros; by eapply good_generate_array).
  assert (∀ n, good read_value fuel (generate_object (get_msgpack_string le fuel)
    (parse_msgpack_internal le fuel) fuel n [])) as Hobj
    by (intros; eapply good_generate_object; auto with good).
  apply strict_get; [intros; apply end_of_input_throws|]. intros c. unfold between.
  destruct (msgpack_number le c) as [m|] eqn:Em; repeat case_if; eauto with good.
  - apply good_ret, read_value_uint. unfold in_u. lia.
  - by eapply good_msgpack_number.
  - apply good_ret, read_value_uint. unfold in_u. lia.
  - apply good_ret, read_value_int. pose proof (swrap_range 8 c). unfold in_s in *. lia.
Qed.

(** A whole document, strict or not. *)
Lemma document_good (m : R json) fuel (strict_ : bool) r :
  good read_value fuel m → (left r < fuel)%nat →
  wp binary_exn (res ← m; if strict_ then get ;; check_eof true ;; mret res else mret res)
    (λ j _, read_value j) r.
Proof.
  intros Hm Hr. eapply wp_mono.
  { eapply (good_bind read_value read_value); [done| |done]. intros x Hx.
    destruct strict_; [|by apply good_ret].
    apply (good_bind any); [auto with good|]. intros _ _.
    apply (good_bind any); [auto with good|]. intros _ _. by apply good_ret. }
  by intros j r' [Hj _].
Qed.
End total.

Lemma buffer_left b : (left (binary_reader_new (input_buffer_adapter_new b)) < S (length b))%nat.
Proof.
  unfold left, binary_reader_new. cbn [br_ia]. rewrite buffer_new_pending.
  pose proof (skip_bom_length b). lia.
Qed.
