(* ===== verification/Serializer.v ===== *)
(** [serializer] of json.hpp: [dump], [dump_escaped], [dump_integer],
    [dump_float].

    The escape routine first computes how much longer the escaped string is
    ([extra_space]), allocates the result filled with backslashes, and writes
    into it by index.  The model keeps the buffer and the index; a write outside
    the buffer, and a failed [assert], end the computation. *)

From S2P Require Import Prelude Float64 JsonValue Adapters.

(** [bytes_following]; [None] is [std::string::npos]. *)
Definition bytes_following (u : Z) : option Z :=
  if u <=? 127 then Some 0
  else if (192 <=? u) && (u <=? 223) then Some 1
  else if (224 <=? u) && (u <=? 239) then Some 2
  else if (240 <=? u) && (u <=? 247) then Some 3
  else None.

(** [s[i] & 0x80 or s[i] == 0x7F]. *)
Definition non_ascii (c : Z) : bool := negb (Z.land c 0x80 =? 0) || (c =? 0x7F).

(** The two character escapes. *)
Definition short_escape (c : Z) : bool :=
  (c =? 34) || (c =? 92) || (c =? 8) || (c =? 12) || (c =? 10) || (c =? 13) || (c =? 9).

(** The other control characters: 0x00 to 0x07, 0x0b, 0x0e to 0x1f. *)
Definition control_escape (c : Z) : bool :=
  ((0 <=? c) && (c <=? 7)) || (c =? 11) || ((14 <=? c) && (c <=? 31)).

(** Skip [n] characters, as [i += bytes] does, at most to the end. *)
Fixpoint extra_space_from (ensure_ascii : bool) (s : list Z) : Z :=
  match s with
  | [] => 0
  | c :: s1 =>
      if short_escape c then 1 + extra_space_from ensure_ascii s1
      else if control_escape c then 5 + extra_space_from ensure_ascii s1
      else if ensure_ascii && non_ascii c then
        match bytes_following c with
        | None => extra_space_from ensure_ascii s1
        | Some bytes =>
            (if bytes =? 3 then 12 - bytes - 1 else 6 - bytes - 1) +
            (if bytes =? 0 then extra_space_from ensure_ascii s1
             else match s1 with
                  | [] => 0
                  | _ :: s2 =>
                      if bytes =? 1 then extra_space_from ensure_ascii s2
                      else match s2 with
                           | [] => 0
                           | _ :: s3 =>
                               if bytes =? 2 then extra_space_from ensure_ascii s3
                               else match s3 with
                                    | [] => 0
                                    | _ :: s4 => extra_space_from ensure_ascii s4
                                    end
                           end
                  end)
        end
      else extra_space_from ensure_ascii s1
  end.

Definition extra_space (s : list Z) (ensure_ascii : bool) : Z := extra_space_from ensure_ascii s.

(** The buffer [result] and the index [pos]. *)
Record escape_state := { esc_result : list Z; esc_pos : nat }.

Abbreviation W := (M exn escape_state).

(** [result[++pos] = c]. *)
Definition write_next (c : Z) : W () := λ st,
  let pos := S (esc_pos st) in
  if (pos <? length (esc_result st))%nat then
    Ok ((), {| esc_result := <[pos := c]> (esc_result st); esc_pos := pos |})
  else Throw out_of_bounds.

(** [result[pos++] = c]. *)
Definition write_here (c : Z) : W () := λ st,
  let pos := esc_pos st in
  if (pos <? length (esc_result st))%nat then
    Ok ((), {| esc_result := <[pos := c]> (esc_result st); esc_pos := S pos |})
  else Throw out_of_bounds.

(** [result[pos + 1] = c; pos += 2]. *)
Definition write_short (c : Z) : W () := λ st,
  let pos := esc_pos st in
  if (S pos <? length (esc_result st))%nat then
    Ok ((), {| esc_result := <[S pos := c]> (esc_result st); esc_pos := pos + 2 |})
  else Throw out_of_bounds.

(** [pos += n], and [++pos]. *)
Definition skip (n : nat) : W () := λ st,
  Ok ((), {| esc_result := esc_result st; esc_pos := esc_pos st + n |}).

Definition assert {E S} (b : bool) (e : E) : M E S () := if b then mret () else throw e.

(** [assert(result[pos] == '\\')]. *)
Definition assert_backslash : W () := λ st,
  match esc_result st !! esc_pos st with
  | Some c => if c =? 92 then Ok ((), st) else Throw assert_failure
  | None => Throw out_of_bounds
  end.

(** The table [hexify]. *)
Definition hexify (d : Z) : Z := hexdigit d.

Definition write_hex4 (u : Z) : W () :=
  write_next (hexify (Z.land (Z.shiftr u 12) 0x0F)) ;;
  write_next (hexify (Z.land (Z.shiftr u 8) 0x0F)) ;;
  write_next (hexify (Z.land (Z.shiftr u 4) 0x0F)) ;;
  write_next (hexify (Z.land u 0x0F)).

Definition escape_codepoint (codepoint : Z) : W () :=
  assert ((0 <=? codepoint) && (codepoint <=? 0x10FFFF)) assert_failure ;;
  assert_backslash ;;
  write_next 117 ;;
  (if codepoint <? 0x10000 then write_hex4 codepoint
   else
     let codepoint := codepoint - 0x10000 in
     let high_surrogate := Z.lor 0xD800 (Z.land (Z.shiftr codepoint 10) 0x3FF) in
     let low_surrogate := Z.lor 0xDC00 (Z.land codepoint 0x3FF) in
     write_hex4 high_surrogate ;;
     skip 1 ;;
     write_next 117 ;;
     write_hex4 low_surrogate) ;;
  skip 1.

(** The loop of [dump_escaped], over the rest of the string from index [i]. *)
Fixpoint dump_escaped_loop (ensure_ascii : bool) (s : list Z) : W () :=
  match s with
  | [] => mret ()
  | c :: s1 =>
      if c =? 34 then write_short 34 ;; dump_escaped_loop ensure_ascii s1
      else if c =? 92 then skip 2 ;; dump_escaped_loop ensure_ascii s1
      else if c =? 8 then write_short 98 ;; dump_escaped_loop ensure_ascii s1
      else if c =? 12 then write_short 102 ;; dump_escaped_loop ensure_ascii s1
      else if c =? 10 then write_short 110 ;; dump_escaped_loop ensure_ascii s1
      else if c =? 13 then write_short 114 ;; dump_escaped_loop ensure_ascii s1
      else if c =? 9 then write_short 116 ;; dump_escaped_loop ensure_ascii s1
      else if ((0x00 <=? schar c) && (schar c <=? 0x1F)) || (ensure_ascii && non_ascii c) then
        match bytes_following c with
        | None => write_here c ;; dump_escaped_loop ensure_ascii s1
        | Some bytes =>
            if bytes =? 0 then
              escape_codepoint (Z.land c 0xFF) ;; dump_escaped_loop ensure_ascii s1
            else match s1 with
            | [] => throw assert_failure
            | c1 :: s2 =>
                if bytes =? 1 then
                  escape_codepoint (Z.shiftl (Z.land c 0x3F) 6 + Z.land c1 0x7F) ;;
                  dump_escaped_loop ensure_ascii s2
                else match s2 with
                | [] => throw assert_failure
                | c2 :: s3 =>
                    if bytes =? 2 then
                      escape_codepoint (Z.shiftl (Z.land c 0x1F) 12 +
                                        Z.shiftl (Z.land c1 0x7F) 6 + Z.land c2 0x7F) ;;
                      dump_escaped_loop ensure_ascii s3
                    else match s3 with
                    | [] => throw assert_failure
                    | c3 :: s4 =>
                        escape_codepoint (Z.shiftl (Z.land c 0xF) 18 +
                                          Z.shiftl (Z.land c1 0x7F) 12 +
                                          Z.shiftl (Z.land c2 0x7F) 6 + Z.land c3 0x7F) ;;
                        dump_escaped_loop ensure_ascii s4
                    end
                end
            end
        end
      else write_here c ;; dump_escaped_loop ensure_ascii s1
  end.

(** The escaped string [dump_escaped] hands to the output. *)
Definition escaped (s : list Z) (ensure_ascii : bool) : result (list Z) :=
  let space := extra_space s ensure_ascii in
  if space =? 0 then Ok s else
  match dump_escaped_loop ensure_ascii s
          {| esc_result := replicate (length s + Z.to_nat space) 92; esc_pos := 0 |} with
  | Ok (_, st) =>
      if (esc_pos st =? length (esc_result st))%nat then Ok (esc_result st)
      else Throw assert_failure
  | Throw e => Throw e
  | NoFuel => NoFuel
  end.

(** The loop of [dump_integer]: digits of [x], least significant first, into the
    [k] slots of [number_buffer] still free ([assert(i < size - 1)]). *)
Fixpoint dump_integer_loop (k : nat) (x : Z) : result (list Z) :=
  if x =? 0 then Ok [] else
  match k with
  | O => Throw assert_failure
  | S k =>
      let digit := Z.abs (Z.rem x 10) in
      ds ← dump_integer_loop k (Z.quot x 10);
      mret ((48 + digit) :: ds)
  end.

Definition integer_text (x : Z) : result (list Z) :=
  if x =? 0 then Ok [48] else
  let is_negative := (x <=? 0) && negb (x =? 0) in
  ds ← dump_integer_loop 63 x;
  if is_negative then
    if (length ds <? 62)%nat then Ok (rev (ds ++ [45])) else Throw assert_failure
  else Ok (rev ds).

Record serializer (O : Type) := mk_serializer {
  s_o : O;
  thousands_sep : Z;
  decimal_point : Z;
  indent_char : Z;
  indent_string : list Z;
}.
Arguments mk_serializer {O} _ _ _ _ _.
Arguments s_o {O} _.
Arguments thousands_sep {O} _.
Arguments decimal_point {O} _.
Arguments indent_char {O} _.
Arguments indent_string {O} _.

(** The first two fields of the [lconv] in force: the decimal point and the
    thousands separator, 0 standing for an empty string. *)
Record lconv := { lc_decimal_point : Z; lc_thousands_sep : Z }.

(** The "C" locale. *)
Definition c_locale : lconv := {| lc_decimal_point := 46; lc_thousands_sep := 0 |}.

Definition serializer_new {O} (loc : lconv) (s : O) (ichar : Z) : serializer O :=
  mk_serializer s (lc_thousands_sep loc) (lc_decimal_point loc) ichar (replicate 512 ichar).

(** [std::find] and assignment through the iterator: replace the first [a]. *)
Fixpoint replace_first (a b : Z) (s : list Z) : list Z :=
  match s with
  | [] => []
  | c :: s => if c =? a then b :: s else c :: replace_first a b s
  end.

(** The text [dump_float] writes.  [snprintf] prints with the locale's decimal
    point; the separators are then undone. *)
Definition float_text (tsep dp x : Z) : list Z :=
  if negb (F64.isfinite x) || F64.isnan x then lit "null" else
  let buf := F64.format_g 15 (if dp =? 0 then 46 else dp) x in
  let buf := if negb (tsep =? 0) then filter (λ c, c ≠ tsep) buf else buf in
  let buf := if negb (dp =? 0) && negb (dp =? 46) then replace_first dp 46 buf else buf in
  let value_is_int_like := forallb (λ c, negb ((c =? 46) || (c =? 101))) buf in
  if value_is_int_like then buf ++ lit ".0" else buf.

Section serializer.
Context {O : Type} `{!output_adapter_protocol O}.

Abbreviation S := (M exn (serializer O)).

Definition emit (f : O → O) : S () := λ s,
  Ok ((), mk_serializer (f (s_o s)) (thousands_sep s) (decimal_point s)
            (indent_char s) (indent_string s)).

(** [o->write_characters] and [o->write_character]. *)
Definition put_chars (cs : list Z) : S () := emit (write_characters cs).
Definition put_char (c : Z) : S () := emit (write_character c).

Definition dump_escaped (str : list Z) (ensure_ascii : bool) : S () :=
  match escaped str ensure_ascii with
  | Ok r => put_chars r
  | Throw e => throw e
  | NoFuel => no_fuel
  end.

Definition dump_integer (x : Z) : S () :=
  match integer_text x with
  | Ok r => put_chars r
  | Throw e => throw e
  | NoFuel => no_fuel
  end.

Definition dump_float (x : Z) : S () :=
  tsep ← gets thousands_sep;
  dp ← gets decimal_point;
  put_chars (float_text tsep dp x).

(** [if (indent_string.size() < new_indent) indent_string.resize(2 * size, ' ')]. *)
Definition grow_indent (new_indent : Z) : S () := λ s,
  if Z.of_nat (length (indent_string s)) <? new_indent then
    Ok ((), mk_serializer (s_o s) (thousands_sep s) (decimal_point s) (indent_char s)
              (indent_string s ++ replicate (length (indent_string s)) 32))
  else Ok ((), s).

(** [o->write_characters(indent_string.c_str(), n)]; [c_str] ends in a null
    character. *)
Definition put_indent (n : Z) : S () :=
  str ← gets indent_string;
  if n <=? Z.of_nat (length str) + 1 then put_chars (take (Z.to_nat n) (str ++ [0]))
  else throw out_of_bounds.

(** The loops over the elements of a container: all but the last element are
    followed by the separator. *)
Definition each {T} (element : T → S ()) (separator : S ()) : list T → S () :=
  fix each els :=
    match els with
    | [] => mret ()
    | [e] => element e
    | e :: els => element e ;; separator ;; each els
    end.

Fixpoint dump (val : json) (pretty_print ensure_ascii : bool)
    (indent_step current_indent : Z) : S () :=
  match val with
  | JObject [] => put_chars (lit "{}")
  | JObject object =>
      if pretty_print then
        put_chars (lit "{" ++ [10]) ;;
        let new_indent := uwrap 32 (current_indent + indent_step) in
        grow_indent new_indent ;;
        each (λ kv,
               put_indent new_indent ;;
               put_char 34 ;;
               dump_escaped kv.1 ensure_ascii ;;
               put_chars [34; 58; 32] ;;
               dump kv.2 true ensure_ascii indent_step new_indent)
             (put_chars (lit "," ++ [10])) object ;;
        put_char 10 ;;
        put_indent current_indent ;;
        put_char 125
      else
        put_char 123 ;;
        each (λ kv,
               put_char 34 ;;
               dump_escaped kv.1 ensure_ascii ;;
               put_chars [34; 58] ;;
               dump kv.2 false ensure_ascii indent_step current_indent)
             (put_char 44) object ;;
        put_char 125
  | JArray [] => put_chars (lit "[]")
  | JArray array =>
      if pretty_print then
        put_chars (lit "[" ++ [10]) ;;
        let new_indent := uwrap 32 (current_indent + indent_step) in
        grow_indent new_indent ;;
        each (λ v,
               put_indent new_indent ;;
               dump v true ensure_ascii indent_step new_indent)
             (put_chars (lit "," ++ [10])) array ;;
        put_char 10 ;;
        put_indent current_indent ;;
        put_char 93
      else
        put_char 91 ;;
        each (λ v, dump v false ensure_ascii indent_step current_indent)
             (put_char 44) array ;;
        put_char 93
  | JString string => put_char 34 ;; dump_escaped string ensure_ascii ;; put_char 34
  | JBool b => put_chars (if b then lit "true" else lit "false")
  | JInt number_integer => dump_integer number_integer
  | JUInt number_unsigned => dump_integer number_unsigned
  | JFloat number_float => dump_float number_float
  | JDiscarded => put_chars (lit "<discarded>")
  | JNull => put_chars (lit "null")
  end.
End serializer.

(** [basic_json::dump(indent, indent_char, ensure_ascii)]. *)
Definition json_dump (loc : lconv) (j : json) (indent ichar : Z) (ensure_ascii : bool) :
    result (list Z) :=
  '(_, s) ← (if 0 <=? indent
             then dump j true ensure_ascii (uwrap 32 indent) 0
             else dump j false ensure_ascii 0 0)
            (serializer_new loc {| str := [] |} ichar);
  mret (str (s_o s)).

Example dump_example :
  json_dump c_locale
    (JObject [(lit "a", JArray [JInt (-5); JBool true; JNull]); (lit "b", JString [9; 233])])
    (-1) 32 false
  = Ok (lit "{" ++ [34] ++ lit "a" ++ [34] ++ lit ":[-5,true,null]," ++ [34] ++ lit "b" ++
        [34] ++ lit ":" ++ [34; 92; 116; 233; 34] ++ lit "}").
Proof. vm_compute. reflexivity. Qed.
