(* ===== verification/SerializerSpec.v ===== *)
(** What the serializer writes.

    [escape_text] and [render] are the texts as plain functions.  The lemmas
    say that [dump_escaped] fills its buffer exactly (no write outside it, and
    [pos == result.size()] at the end) and that [dump] appends [render]. *)

From S2P Require Import Prelude Float64 JsonValue Adapters Serializer.

(** ** Escapes *)

(** [\uXXXX]. *)
Definition u16_text (u : Z) : list Z :=
  [92; 117; hexify (Z.land (Z.shiftr u 12) 0x0F); hexify (Z.land (Z.shiftr u 8) 0x0F);
   hexify (Z.land (Z.shiftr u 4) 0x0F); hexify (Z.land u 0x0F)].

Definition codepoint_text (cp : Z) : list Z :=
  if cp <? 0x10000 then u16_text cp
  else u16_text (Z.lor 0xD800 (Z.land (Z.shiftr (cp - 0x10000) 10) 0x3FF)) ++
       u16_text (Z.lor 0xDC00 (Z.land (cp - 0x10000) 0x3FF)).

(** The character after the backslash of a two character escape. *)
Definition short_text (c : Z) : Z :=
  if c =? 8 then 98 else if c =? 12 then 102 else if c =? 10 then 110
  else if c =? 13 then 114 else if c =? 9 then 116 else c.

(** The code points that [dump_escaped] computes. *)
Definition cp2 (c c1 : Z) : Z := Z.shiftl (Z.land c 0x3F) 6 + Z.land c1 0x7F.
Definition cp3 (c c1 c2 : Z) : Z :=
  Z.shiftl (Z.land c 0x1F) 12 + Z.shiftl (Z.land c1 0x7F) 6 + Z.land c2 0x7F.
Definition cp4 (c c1 c2 c3 : Z) : Z :=
  Z.shiftl (Z.land c 0xF) 18 + Z.shiftl (Z.land c1 0x7F) 12 +
  Z.shiftl (Z.land c2 0x7F) 6 + Z.land c3 0x7F.

(** How the code reads the front of a string: an escape, a sequence of bytes it
    replaces by one code point, or a byte it copies. *)
Inductive piece :=
  | Short (c : Z)
  | Point (cp : Z)
  | Copy (c : Z)
  | Truncated.

(** The pieces of a string, each with the number of bytes it takes. *)
Fixpoint pieces (ensure_ascii : bool) (s : list Z) : list (piece * nat) :=
  match s with
  | [] => []
  | c :: s1 =>
      if short_escape c then (Short c, 1%nat) :: pieces ensure_ascii s1
      else if control_escape c then (Point c, 1%nat) :: pieces ensure_ascii s1
      else if ensure_ascii && non_ascii c then
        match bytes_following c with
        | None => (Copy c, 1%nat) :: pieces ensure_ascii s1
        | Some bytes =>
            if bytes =? 0 then (Point c, 1%nat) :: pieces ensure_ascii s1
            else match s1 with
            | [] => [(Truncated, 1%nat)]
            | c1 :: s2 =>
                if bytes =? 1 then (Point (cp2 c c1), 2%nat) :: pieces ensure_ascii s2
                else match s2 with
                | [] => [(Truncated, 2%nat)]
                | c2 :: s3 =>
                    if bytes =? 2 then (Point (cp3 c c1 c2), 3%nat) :: pieces ensure_ascii s3
                    else match s3 with
                    | [] => [(Truncated, 3%nat)]
                    | c3 :: s4 => (Point (cp4 c c1 c2 c3), 4%nat) :: pieces ensure_ascii s4
                    end
                end
            end
        end
      else (Copy c, 1%nat) :: pieces ensure_ascii s1
  end.

Definition piece_text (p : piece) : list Z :=
  match p with
  | Short c => [92; short_text c]
  | Point cp => codepoint_text cp
  | Copy c => [c]
  | Truncated => []
  end.

Definition escape_text (s : list Z) (ensure_ascii : bool) : list Z :=
  concat ((λ p, piece_text p.1) <$> pieces ensure_ascii s).

(** A piece the code accepts: a code point in range, whose text is as long as
    [extra_space] assumed: twelve characters exactly for four bytes. *)
Definition piece_ok (p : piece * nat) : Prop :=
  match p with
  | (Short _, _) => True
  | (Point cp, n) => 0 ≤ cp ≤ 0x10FFFF ∧ (0x10000 ≤ cp ↔ n = 4%nat)
  | (Copy _, _) => True
  | (Truncated, _) => False
  end.

(** The strings [dump_escaped] accepts. *)
Definition escapable (s : list Z) (ensure_ascii : bool) : Prop :=
  Forall piece_ok (pieces ensure_ascii s).

(** *** Facts about bytes, by enumeration *)

Lemma byte_enum (P : Z → bool) :
  forallb P (Z.of_nat <$> seq 0 256) = true → ∀ c, is_byte c → P c = true.
Proof.
  intros H c Hc. eapply forallb_forall in H; [exact H|].
  apply list_elem_of_In, list_elem_of_fmap. exists (Z.to_nat c). unfold is_byte in Hc.
  split; [lia|]. apply elem_of_seq. lia.
Qed.

Lemma non_ascii_spec c : is_byte c → non_ascii c = (127 <=? c).
Proof.
  intros Hc. apply eqb_prop.
  exact (byte_enum (λ c, Bool.eqb (non_ascii c) (127 <=? c)) eq_refl c Hc).
Qed.

Lemma schar_control c : is_byte c →
  ((0x00 <=? schar c) && (schar c <=? 0x1F)) = (c <=? 0x1F).
Proof.
  intros Hc. apply eqb_prop.
  exact (byte_enum (λ c, Bool.eqb ((0 <=? schar c) && (schar c <=? 0x1F)) (c <=? 0x1F)) eq_refl c Hc).
Qed.

Lemma control_split c : is_byte c →
  (c <=? 0x1F) = (control_escape c || (short_escape c && (c <=? 0x1F))).
Proof.
  intros Hc. apply eqb_prop.
  exact (byte_enum (λ c, Bool.eqb (c <=? 0x1F) (control_escape c || (short_escape c && (c <=? 0x1F)))) eq_refl c Hc).
Qed.

(** ** The buffer is filled exactly *)

(** [writes m chunk]: at the first free index of a buffer with room for it, [m]
    writes [chunk] and moves the index behind it. *)
Definition writes (m : W ()) (chunk : list Z) : Prop := ∀ done k,
  m {| esc_result := done ++ replicate (length chunk + k) 92; esc_pos := length done |} =
  Ok ((), {| esc_result := (done ++ chunk) ++ replicate k 92; esc_pos := length (done ++ chunk) |}).

Lemma writes_bind m n c1 c2 : writes m c1 → writes n c2 → writes (m ;; n) (c1 ++ c2).
Proof.
  intros Hm Hn done k. rewrite length_app, <-Nat.add_assoc.
  erewrite M_bind_Ok by apply Hm. rewrite app_assoc. apply Hn.
Qed.

Lemma writes_ret : writes (mret ()) [].
Proof. intros done k. by rewrite app_nil_r. Qed.

Lemma writes_here c : writes (write_here c) [c].
Proof.
  intros done k. unfold write_here. cbn [esc_result esc_pos].
  rewrite (proj2 (Nat.ltb_lt _ _)) by (rewrite length_app, length_replicate; simpl; lia).
  do 3 f_equal.
  - rewrite <-(Nat.add_0_r (length done)) at 1. rewrite insert_app_r. simpl. by rewrite <-app_assoc.
  - rewrite length_app. simpl. lia.
Qed.

Lemma writes_short c : writes (write_short c) [92; c].
Proof.
  intros done k. unfold write_short. cbn [esc_result esc_pos].
  rewrite (proj2 (Nat.ltb_lt _ _)) by (rewrite length_app, length_replicate; simpl; lia).
  do 3 f_equal.
  - rewrite <-(Nat.add_1_r (length done)). rewrite insert_app_r. simpl. by rewrite <-app_assoc.
  - rewrite length_app. simpl. lia.
Qed.

Lemma writes_skip2 : writes (skip 2) [92; 92].
Proof.
  intros done k. unfold skip. cbn [esc_result esc_pos]. do 3 f_equal.
  - simpl. by rewrite <-app_assoc.
  - rewrite length_app. simpl. lia.
Qed.

(** Writing inside a window that starts at [length done]. *)
Lemma write_next_window done l i c : (S i < length l)%nat →
  write_next c {| esc_result := done ++ l; esc_pos := length done + i |} =
  Ok ((), {| esc_result := done ++ <[S i := c]> l; esc_pos := length done + S i |}).
Proof.
  intros Hi. unfold write_next. cbn [esc_result esc_pos].
  rewrite (proj2 (Nat.ltb_lt _ _)) by (rewrite length_app; lia).
  replace (S (length done + i)) with (length done + S i)%nat by lia. by rewrite insert_app_r.
Qed.

Lemma write_hex4_window done l i u : (4 + i < length l)%nat →
  write_hex4 u {| esc_result := done ++ l; esc_pos := length done + i |} =
  Ok ((), {| esc_result := done ++
     <[4 + i := hexify (Z.land u 0x0F)]>
      (<[3 + i := hexify (Z.land (Z.shiftr u 4) 0x0F)]>
       (<[2 + i := hexify (Z.land (Z.shiftr u 8) 0x0F)]>
        (<[1 + i := hexify (Z.land (Z.shiftr u 12) 0x0F)]> l)));
     esc_pos := length done + (4 + i) |})%nat.
Proof.
  intros Hi. unfold write_hex4. cbn [Nat.add].
  do 3 (erewrite M_bind_Ok by (apply write_next_window; rewrite ?length_insert; lia)).
  apply write_next_window. rewrite !length_insert. lia.
Qed.

Lemma length_codepoint_text cp :
  length (codepoint_text cp) = if cp <? 0x10000 then 6%nat else 12%nat.
Proof. unfold codepoint_text. by case_if. Qed.

(** The two asserts of [escape_codepoint] hold in front of free room. *)
Lemma assert_backslash_window done n :
  assert_backslash {| esc_result := done ++ replicate (S n) 92; esc_pos := length done |} =
  Ok ((), {| esc_result := done ++ replicate (S n) 92; esc_pos := length done + 0 |}).
Proof.
  unfold assert_backslash. cbn [esc_result esc_pos].
  rewrite lookup_app_r, Nat.sub_diag by lia. simpl. by rewrite Nat.add_0_r.
Qed.

Lemma writes_codepoint cp : 0 ≤ cp ≤ 0x10FFFF → writes (escape_codepoint cp) (codepoint_text cp).
Proof.
  intros Hcp done k. unfold escape_codepoint, assert.
  rewrite !(proj2 (Z.leb_le _ _)) by lia. cbn [andb].
  erewrite M_bind_Ok by done. rewrite length_codepoint_text, length_app, length_codepoint_text.
  unfold codepoint_text. destruct (cp <? 0x10000); cbn [Nat.add].
  all: erewrite M_bind_Ok by apply assert_backslash_window.
  all: erewrite M_bind_Ok by (apply write_next_window; simpl; lia).
  - erewrite M_bind_Ok by (apply write_hex4_window; simpl; lia).
    unfold skip. cbn. do 3 f_equal; [by rewrite <-app_assoc|lia].
  - erewrite M_bind_Ok; cycle 1.
    { erewrite M_bind_Ok by (apply write_hex4_window; simpl; lia).
      unfold skip at 1. erewrite M_bind_Ok by done. cbn [esc_result esc_pos].
      rewrite <-Nat.add_assoc.
      erewrite M_bind_Ok by (apply write_next_window; simpl; lia).
      apply write_hex4_window. simpl. lia. }
    unfold skip. cbn. do 3 f_equal; [by rewrite <-app_assoc|lia].
Qed.

(** The test of the default case, for a byte without a two character escape. *)
Lemma escape_test ea c : is_byte c → short_escape c = false →
  (((0x00 <=? schar c) && (schar c <=? 0x1F)) || (ea && non_ascii c)) =
  (control_escape c || (ea && non_ascii c)).
Proof.
  intros Hc Hs. rewrite schar_control, control_split, Hs by done.
  by destruct (control_escape c).
Qed.

Lemma control_escape_range c : control_escape c = true → 0 ≤ c ≤ 31.
Proof. unfold control_escape. intros H. repeat (apply orb_prop in H as [H|H]); zbool; lia. Qed.

Lemma land_255 c : is_byte c → Z.land c 0xFF = c.
Proof.
  intros Hc. apply Z.eqb_eq.
  exact (byte_enum (λ c, Z.land c 0xFF =? c) eq_refl c Hc).
Qed.

Lemma writes_short_escape c m chunk : short_escape c = true → writes m chunk →
  writes
    (if c =? 34 then write_short 34 ;; m
     else if c =? 92 then skip 2 ;; m
     else if c =? 8 then write_short 98 ;; m
     else if c =? 12 then write_short 102 ;; m
     else if c =? 10 then write_short 110 ;; m
     else if c =? 13 then write_short 114 ;; m
     else if c =? 9 then write_short 116 ;; m
     else throw assert_failure)
    ([92; short_text c] ++ chunk).
Proof.
  intros Hc Hm. unfold short_escape in Hc. unfold short_text.
  repeat (case_if; [subst; apply writes_bind; auto using writes_short, writes_skip2|]).
  repeat (apply orb_prop in Hc as [Hc|Hc]); zbool; lia.
Qed.

(** The part of the loop after the two character escapes. *)
Lemma short_escape_else {A} c (x1 x2 x3 x4 x5 x6 x7 y : A) : short_escape c = false →
  (if c =? 34 then x1 else if c =? 92 then x2 else if c =? 8 then x3 else if c =? 12 then x4
   else if c =? 10 then x5 else if c =? 13 then x6 else if c =? 9 then x7 else y) = y.
Proof.
  unfold short_escape. intros H. zbool. by ztests.
Qed.

Lemma short_escape_then {A} c (x1 x2 x3 x4 x5 x6 x7 y z : A) : short_escape c = true →
  (if c =? 34 then x1 else if c =? 92 then x2 else if c =? 8 then x3 else if c =? 12 then x4
   else if c =? 10 then x5 else if c =? 13 then x6 else if c =? 9 then x7 else y) =
  (if c =? 34 then x1 else if c =? 92 then x2 else if c =? 8 then x3 else if c =? 12 then x4
   else if c =? 10 then x5 else if c =? 13 then x6 else if c =? 9 then x7 else z).
Proof.
  unfold short_escape. intros H.
  repeat (case_if; [done|]). repeat (apply orb_prop in H as [H|H]); zbool; lia.
Qed.

(** The loop writes the text of the pieces. *)
Lemma dump_escaped_loop_writes ea s : is_bytes s → escapable s ea →
  writes (dump_escaped_loop ea s) (escape_text s ea).
Proof.
  unfold escapable, escape_text.
  induction s as [s IH] using (induction_ltof1 _ (@length Z)); unfold ltof in IH.
  destruct s as [|c s1]; [intros; apply writes_ret|].
  intros [Hc Hb]%Forall_cons. cbn [dump_escaped_loop pieces].
  destruct (short_escape c) eqn:Es.
  { intros [_ Hp]%Forall_cons. erewrite short_escape_then by done.
    apply writes_short_escape; [done|]. apply IH; [simpl; lia|done..]. }
  rewrite short_escape_else by done. rewrite escape_test by done.
  destruct (control_escape c) eqn:Ec; cbn [orb].
  { intros [[Hr _] Hp]%Forall_cons. apply control_escape_range in Ec.
    unfold bytes_following. ztests. rewrite land_255 by done.
    apply writes_bind; [by apply writes_codepoint|]. apply IH; [simpl; lia|done..]. }
  destruct (ea && non_ascii c); cycle 1.
  { intros [_ Hp]%Forall_cons. apply writes_bind; [apply writes_here|].
    apply IH; [simpl; lia|done..]. }
  destruct (bytes_following c) as [bytes|]; cycle 1.
  { intros [_ Hp]%Forall_cons. apply writes_bind; [apply writes_here|].
    apply IH; [simpl; lia|done..]. }
  case_if.
  { intros [[Hr _] Hp]%Forall_cons. rewrite land_255 by done.
    apply writes_bind; [by apply writes_codepoint|]. apply IH; [simpl; lia|done..]. }
  destruct s1 as [|c1 s2]; [by intros [[] _]%Forall_cons|]. apply Forall_cons in Hb as [_ Hb].
  case_if; [|destruct s2 as [|c2 s3]; [by intros [[] _]%Forall_cons|];
             apply Forall_cons in Hb as [_ Hb]; case_if;
             [|destruct s3 as [|c3 s4]; [by intros [[] _]%Forall_cons|];
               apply Forall_cons in Hb as [_ Hb]]].
  all: intros [[Hr _] Hp]%Forall_cons; apply writes_bind; [by apply writes_codepoint|];
    apply IH; [simpl; lia|done..].
Qed.

Lemma bytes_following_cases c b : bytes_following c = Some b →
  (b = 0 ∧ c ≤ 127) ∨ b = 1 ∨ b = 2 ∨ b = 3.
Proof. unfold bytes_following. repeat case_if; intros; simplify_eq; auto. Qed.

(** The length of the text of a code point that takes [n] bytes. *)
Lemma piece_ok_length cp n : piece_ok (Point cp, n) →
  length (codepoint_text cp) = if decide (n = 4%nat) then 12%nat else 6%nat.
Proof.
  intros [_ H]. rewrite length_codepoint_text.
  case_if; case_decide; lia.
Qed.

(** The room [extra_space] computes is the room the text takes. *)
Lemma extra_space_text ea s : is_bytes s → escapable s ea →
  Z.of_nat (length (escape_text s ea)) = Z.of_nat (length s) + extra_space_from ea s.
Proof.
  unfold escapable, escape_text.
  induction s as [s IH] using (induction_ltof1 _ (@length Z)); unfold ltof in IH.
  destruct s as [|c s1]; [done|].
  intros [Hc Hb]%Forall_cons. cbn [extra_space_from pieces].
  assert (∀ n, (length (drop n s1) < length (c :: s1))%nat) as Hd
    by (intros; rewrite length_drop; simpl; lia).
  assert (∀ n, Forall piece_ok (pieces ea (drop n s1)) → _) as IH'
    by (intros n; exact (IH _ (Hd n) (Forall_drop _ n _ Hb))).
  destruct (short_escape c); [|destruct (control_escape c)];
    [| |destruct (ea && non_ascii c)];
    [| |destruct (bytes_following c) as [b|] eqn:Ef|];
    [| |destruct (bytes_following_cases _ _ Ef) as [[-> _]|[->|[->| ->]]]; cbn [Z.eqb Pos.eqb]| |].
  all: repeat lazymatch goal with
       | |- context [match ?l with [] => _ | _ :: _ => _ end] => destruct l
       end; try by intros [[] _]%Forall_cons.
  all: intros [Hp Hps]%Forall_cons; rewrite fmap_cons; cbn [concat]; rewrite length_app; cbn [fst piece_text];
    first [rewrite (piece_ok_length _ _ Hp)|idtac]; simpl.
  all: first [ specialize (IH' 0%nat Hps) | specialize (IH' 1%nat Hps)
             | specialize (IH' 2%nat Hps) | specialize (IH' 3%nat Hps) ].
  all: rewrite ?skipn_cons, ?drop_0 in IH'; lia.
Qed.

Lemma extra_space_nonneg ea s : 0 ≤ extra_space_from ea s.
Proof.
  induction s as [s IH] using (induction_ltof1 _ (@length Z)); unfold ltof in IH.
  destruct s as [|c s1]; [done|]. cbn [extra_space_from].
  assert (∀ n, 0 ≤ extra_space_from ea (drop n s1)) as IH'
    by (intros; apply IH; rewrite length_drop; simpl; lia).
  pose proof (IH' 0%nat) as H0. rewrite drop_0 in H0.
  destruct (short_escape c), (control_escape c), (ea && non_ascii c); try lia.
  destruct (bytes_following c) as [b|] eqn:Ef; [|lia].
  destruct (bytes_following_cases _ _ Ef) as [[-> _]|[->|[->| ->]]]; cbn [Z.eqb Pos.eqb];
    [lia|..].
  all: destruct s1 as [|c1 s2]; [lia|]; pose proof (IH' 1%nat) as H1; rewrite skipn_cons, drop_0 in H1;
    try lia.
  all: destruct s2 as [|c2 s3]; [lia|]; pose proof (IH' 2%nat) as H2;
    rewrite !skipn_cons, drop_0 in H2; try lia.
  destruct s3 as [|c3 s4]; [lia|]. pose proof (IH' 3%nat) as H3.
  rewrite !skipn_cons, drop_0 in H3. lia.
Qed.

(** Without extra space the text is the string itself. *)
Lemma extra_space_zero ea s : is_bytes s → extra_space_from ea s = 0 → escape_text s ea = s.
Proof.
  unfold escape_text. induction s as [|c s1 IH]; [done|].
  intros [Hc Hb]%Forall_cons. cbn [extra_space_from pieces].
  pose proof (extra_space_nonneg ea) as Hn. pose proof (Hn s1).
  destruct (short_escape c), (control_escape c), (ea && non_ascii c); try lia;
    [|by intros; csimpl; rewrite IH].
  destruct (bytes_following c) as [b|] eqn:Ef; [|by intros; csimpl; rewrite IH].
  destruct (bytes_following_cases _ _ Ef) as [[-> _]|[->|[->| ->]]]; cbn [Z.eqb Pos.eqb];
    [lia|..].
  all: destruct s1 as [|c1 s2]; [lia|]; pose proof (Hn s2); try lia.
  all: destruct s2 as [|c2 s3]; [lia|]; pose proof (Hn s3); try lia.
  destruct s3 as [|c3 s4]; [lia|]. pose proof (Hn s4). lia.
Qed.

(** [dump_escaped] on the strings it accepts. *)
Lemma escaped_text ea s : is_bytes s → escapable s ea → escaped s ea = Ok (escape_text s ea).
Proof.
  intros Hb Hs. unfold escaped, extra_space. case_if; [by rewrite extra_space_zero|].
  pose proof (extra_space_text ea s Hb Hs) as Hlen.
  pose proof (dump_escaped_loop_writes ea s Hb Hs [] 0%nat) as H.
  pose proof (extra_space_nonneg ea s).
  rewrite Nat.add_0_r in H. cbn [app length] in H.
  replace (length s + Z.to_nat (extra_space_from ea s))%nat with (length (escape_text s ea)) by lia.
  rewrite H. cbn [esc_result esc_pos replicate]. by rewrite app_nil_r, Nat.eqb_refl.
Qed.

(** ** Numbers *)

(** The loop needs [m] slots for a number below [10 ^ m]. *)
Lemma dump_integer_loop_digits f m k x acc : x ≠ 0 → Z.abs x < 2 ^ Z.of_nat f →
  Z.abs x < 10 ^ Z.of_nat m → (m ≤ k)%nat →
  ∃ ds, dump_integer_loop k x = Ok ds ∧ digits_fuel f (Z.abs x) acc = rev ds ++ acc ∧
    (length ds ≤ m)%nat.
Proof.
  revert m k x acc. induction f as [|f IH]; intros m k x acc Hx Hf Hm Hk; [simpl in Hf; lia|].
  destruct m as [|m]; [simpl in Hm; lia|]. destruct k as [|k]; [lia|].
  rewrite Nat2Z.inj_succ, Z.pow_succ_r in Hf by lia.
  rewrite Nat2Z.inj_succ, Z.pow_succ_r in Hm by lia.
  cbn [dump_integer_loop digits_fuel]. ztest.
  assert (Z.abs (Z.quot x 10) = Z.abs x / 10) as Eq.
  { rewrite <-Z.quot_abs by lia. change (Z.abs 10) with 10. apply Z.quot_div_nonneg; lia. }
  assert (Z.abs (Z.rem x 10) = Z.abs x mod 10) as Er.
  { rewrite <-Z.rem_abs by lia. change (Z.abs 10) with 10. apply Z.rem_mod_nonneg; lia. }
  pose proof (Z.div_mod (Z.abs x) 10). pose proof (Z.mod_pos_bound (Z.abs x) 10).
  rewrite Er. case_if.
  - replace (Z.quot x 10) with 0 by lia. eexists. split; [|split].
    + unfold mbind, res_bind. destruct k; reflexivity.
    + done.
    + simpl. lia.
  - destruct (IH m k (Z.quot x 10) ((48 + Z.abs x mod 10) :: acc)) as (ds & E1 & E2 & E3);
      [lia..|].
    rewrite E1, <-Eq, E2. eexists. split; [done|]. simpl. rewrite <-app_assoc. split; [done|lia].
Qed.

(** [dump_integer] writes the decimal digits of every 64 bit integer. *)
Lemma integer_text_digits x : - 2 ^ 63 ≤ x < 2 ^ 64 → integer_text x = Ok (to_string x).
Proof.
  intros Hx. unfold integer_text, to_string, digits. case_if; [by subst|].
  destruct (dump_integer_loop_digits (S (Z.to_nat (Z.log2 (Z.abs x)))) 20 63 x [])
    as (ds & E1 & E2 & E3); [done| |simpl; lia|lia|].
  { rewrite Nat2Z.inj_succ, Z2Nat.id by apply Z.log2_nonneg. apply Z.log2_spec. lia. }
  rewrite E1, app_nil_r in *. cbn [mbind res_bind]. case_if; ztests; cbn [andb negb].
  - rewrite (proj2 (Nat.ltb_lt _ _)) by lia. rewrite rev_unit.
    replace (- x) with (Z.abs x) by lia. by rewrite E2.
  - replace x with (Z.abs x) at 1 2 by lia. by rewrite E2.
Qed.

(** ** The text of a value *)

(** The first [n] characters of the indentation: the indent character for the
    512 columns the constructor prepared, and spaces after them. *)
Definition indentation (ichar n : Z) : list Z :=
  replicate (Z.to_nat (Z.min n 512)) ichar ++ replicate (Z.to_nat (n - 512)) 32.

Definition join (sep : list Z) : list (list Z) → list Z :=
  fix join ls :=
    match ls with
    | [] => []
    | [l] => l
    | l :: ls => l ++ sep ++ join ls
    end.

Definition quoted (s : list Z) (ensure_ascii : bool) : list Z :=
  34 :: escape_text s ensure_ascii ++ [34].

(** How deep the containers are nested. *)
Fixpoint depth (j : json) : Z :=
  match j with
  | JArray a => 1 + (fix go a := match a with [] => 0 | v :: a => Z.max (depth v) (go a) end) a
  | JObject o => 1 + (fix go o := match o with [] => 0 | kv :: o => Z.max (depth kv.2) (go o) end) o
  | _ => 0
  end.

Section render.
Variables (loc : lconv) (ichar : Z) (pretty ensure_ascii : bool) (step : Z).

(** The text around and between the elements of a container. *)
Definition bracket (opening closing : Z) (cur : Z) (elements : list (list Z)) : list Z :=
  if pretty then
    [opening; 10] ++
    join [44; 10] ((λ e, indentation ichar (cur + step) ++ e) <$> elements) ++
    [10] ++ indentation ichar cur ++ [closing]
  else [opening] ++ join [44] elements ++ [closing].

Definition key_text (k : list Z) : list Z :=
  quoted k ensure_ascii ++ (if pretty then [58; 32] else [58]).

Fixpoint render (cur : Z) (j : json) : list Z :=
  match j with
  | JObject [] => lit "{}"
  | JObject o =>
      bracket 123 125 cur
        ((fix go o := match o with
                      | [] => []
                      | kv :: o => (key_text kv.1 ++ render (cur + step) kv.2) :: go o
                      end) o)
  | JArray [] => lit "[]"
  | JArray a =>
      bracket 91 93 cur
        ((fix go a := match a with [] => [] | v :: a => render (cur + step) v :: go a end) a)
  | JString s => quoted s ensure_ascii
  | JBool b => if b then lit "true" else lit "false"
  | JInt z | JUInt z => to_string z
  | JFloat f => float_text (lc_thousands_sep loc) (lc_decimal_point loc) f
  | JDiscarded => lit "<discarded>"
  | JNull => lit "null"
  end.

Lemma render_array cur v a :
  render cur (JArray (v :: a)) = bracket 91 93 cur (render (cur + step) <$> (v :: a)).
Proof. reflexivity. Qed.

Lemma render_object cur kv o :
  render cur (JObject (kv :: o)) =
  bracket 123 125 cur ((λ kv, key_text kv.1 ++ render (cur + step) kv.2) <$> (kv :: o)).
Proof. reflexivity. Qed.
End render.

(** Every string of the value is one [dump_escaped] accepts. *)
Fixpoint dumpable (ensure_ascii : bool) (j : json) : Prop :=
  match j with
  | JString s => escapable s ensure_ascii
  | JObject o =>
      (fix go o := match o with
                   | [] => True
                   | kv :: o => (escapable kv.1 ensure_ascii ∧ dumpable ensure_ascii kv.2) ∧ go o
                   end) o
  | JArray a => (fix go a := match a with [] => True | v :: a => dumpable ensure_ascii v ∧ go a end) a
  | _ => True
  end.

Lemma dumpable_array ea a : dumpable ea (JArray a) ↔ Forall (dumpable ea) a.
Proof. simpl. induction a; simpl; [by split; constructor|]. rewrite Forall_cons. naive_solver. Qed.

Lemma dumpable_object ea o :
  dumpable ea (JObject o) ↔ Forall (λ kv, escapable kv.1 ea ∧ dumpable ea kv.2) o.
Proof. simpl. induction o; simpl; [by split; constructor|]. rewrite Forall_cons. naive_solver. Qed.

Lemma depth_nonneg j : 0 ≤ depth j.
Proof.
  induction j as [|o IH|a IH| | | | | |] using json_induction; simpl; try lia.
  - induction IH; simpl in *; lia.
  - induction IH; simpl in *; lia.
Qed.

Lemma depth_array a : Forall (λ v, 1 + depth v ≤ depth (JArray a)) a.
Proof.
  simpl. induction a as [|v a IH]; constructor; [simpl; lia|].
  eapply Forall_impl; [apply IH|]. simpl. lia.
Qed.

Lemma depth_object o : Forall (λ kv, 1 + depth kv.2 ≤ depth (JObject o)) o.
Proof.
  simpl. induction o as [|kv o IH]; constructor; [simpl; lia|].
  eapply Forall_impl; [apply IH|]. simpl. lia.
Qed.

(** ** [dump] appends the text *)

Section prints.
Context {O : Type} `{OutputAdapter O}.
Variables (loc : lconv) (ichar : Z).

(** A serializer set up for the locale and the indent character, whose
    [indent_string] reaches at least [n] columns. *)
Definition ready (n : Z) (s : serializer O) : Prop :=
  thousands_sep s = lc_thousands_sep loc ∧ decimal_point s = lc_decimal_point loc ∧
  indent_char s = ichar ∧
  ∃ m, indent_string s = replicate 512 ichar ++ replicate m 32 ∧ n ≤ 512 + Z.of_nat m.

(** [prints n m t n']: run on a serializer ready for [n] columns, [m] appends
    [t] and leaves it ready for [n']. *)
Definition prints (n : Z) (m : M exn (serializer O) ()) (t : list Z) (n' : Z) : Prop :=
  ∀ s, ready n s → ∃ s', m s = Ok ((), s') ∧ ready n' s' ∧
    contents (s_o s') = contents (s_o s) ++ t.

Lemma prints_bind n1 n2 n3 m1 m2 t1 t2 :
  prints n1 m1 t1 n2 → prints n2 m2 t2 n3 → prints n1 (m1 ;; m2) (t1 ++ t2) n3.
Proof.
  intros H1 H2 s Hs. destruct (H1 s Hs) as (s1 & E1 & R1 & C1).
  destruct (H2 s1 R1) as (s2 & E2 & R2 & C2). exists s2.
  erewrite M_bind_Ok by done. split; [done|]. split; [done|]. by rewrite C2, C1, app_assoc.
Qed.

Lemma prints_weaken n1 n2 n m t : prints n m t n1 → n2 ≤ n1 → prints n m t n2.
Proof.
  intros H1 Hle s Hs. destruct (H1 s Hs) as (s1 & E1 & (?&?&?&k&?&?) & C1). exists s1.
  split; [done|]. split; [|done]. do 3 (split; [done|]). exists k. split; [done|lia].
Qed.

Lemma prints_eq n n' m t t' : prints n m t n' → t = t' → prints n m t' n'.
Proof. by intros ? ->. Qed.

Lemma prints_emit n f t :
  (∀ o, contents (f o) = contents o ++ t) → prints n (emit f) t n.
Proof. intros Hf s Hs. eexists. split; [done|]. split; [done|]. apply Hf. Qed.

Lemma prints_chars n t : prints n (put_chars t) t n.
Proof. apply prints_emit, contents_write_characters. Qed.

Lemma prints_char n c : prints n (put_char c) [c] n.
Proof. apply prints_emit, contents_write_character. Qed.

Lemma prints_escaped n ea s : is_bytes s → escapable s ea →
  prints n (dump_escaped s ea) (escape_text s ea) n.
Proof. intros. unfold dump_escaped. rewrite escaped_text by done. apply prints_chars. Qed.

Lemma prints_integer n x : - 2 ^ 63 ≤ x < 2 ^ 64 → prints n (dump_integer x) (to_string x) n.
Proof. intros. unfold dump_integer. rewrite integer_text_digits by done. apply prints_chars. Qed.

Lemma prints_float n x :
  prints n (dump_float x) (float_text (lc_thousands_sep loc) (lc_decimal_point loc) x) n.
Proof.
  intros s Hs. pose proof Hs as (Ht & Hd & _). unfold dump_float, gets.
  do 2 erewrite M_bind_Ok by done. rewrite Ht, Hd. by apply prints_chars.
Qed.

(** One doubling is enough when a step adds at most 512 columns. *)
Lemma prints_grow n n' : n' ≤ n + 512 → 0 ≤ n' → prints n (grow_indent n') [] n'.
Proof.
  intros Hn Hn' s (Ht & Hd & Hi & k & Hk & Hle). unfold grow_indent.
  rewrite Hk, length_app, !length_replicate. case_if.
  - eexists. split; [done|]. unfold ready.
    cbn [s_o thousands_sep decimal_point indent_char indent_string].
    rewrite app_nil_r. split; [|done].
    do 3 (split; [done|]). exists (k + (512 + k))%nat.
    rewrite <-app_assoc, <-replicate_add. split; [done|lia].
  - eexists. split; [done|]. rewrite app_nil_r. split; [|done].
    do 3 (split; [done|]). exists k. split; [done|lia].
Qed.

Lemma prints_indent n n' : 0 ≤ n' ≤ n → prints n (put_indent n') (indentation ichar n') n.
Proof.
  intros Hn s Hs. pose proof Hs as (Ht & Hd & Hi & k & Hk & Hle). unfold put_indent, gets.
  erewrite M_bind_Ok by done. rewrite Hk, length_app, !length_replicate. ztest.
  rewrite <-app_assoc, take_app, length_replicate, take_replicate, take_app, length_replicate,
    take_replicate.
  replace (take _ [0]) with (@nil Z) by
    (replace (Z.to_nat n' - 512 - k)%nat with 0%nat by lia; done).
  eapply prints_eq; [apply prints_chars| |done]. rewrite app_nil_r. unfold indentation.
  repeat f_equal; lia.
Qed.

Lemma prints_each {T} n (element : T → M exn (serializer O) ()) (text : T → list Z) sep tsep els :
  Forall (λ e, prints n (element e) (text e) n) els → prints n sep tsep n →
  prints n (each element sep els) (join tsep (text <$> els)) n.
Proof.
  intros Hels Hsep. induction Hels as [|e els He _ IH].
  - intros s Hs. exists s. split; [done|]. by rewrite app_nil_r.
  - destruct els as [|e2 els]; [done|].
    apply (prints_bind n n n); [done|]. apply (prints_bind n n n); [done|]. apply IH.
Qed.
End prints.

#[export] Hint Resolve prints_chars prints_char prints_escaped prints_integer prints_float : cxx.

Section dump_contents.
Context {O : Type} `{OutputAdapter O}.
Variables (loc : lconv) (ichar : Z) (ea : bool).

Abbreviation prints := (prints loc ichar).

Lemma prints_quoted n s : is_bytes s → escapable s ea →
  prints n (put_char 34 ;; dump_escaped s ea ;; put_char 34) (quoted s ea) n.
Proof.
  intros Hb He. apply (prints_bind _ _ n n n _ _ [34]); [apply prints_char|].
  apply (prints_bind _ _ n n n); [by apply prints_escaped|apply prints_char].
Qed.

(** The key of a member, with the text in front of it. *)
Lemma prints_member n (kv : list Z * json) (colon : list Z) m t :
  is_bytes kv.1 → escapable kv.1 ea → prints n m t n →
  prints n (put_char 34 ;; dump_escaped kv.1 ea ;; put_chars (34 :: colon) ;; m)
    ((quoted kv.1 ea ++ colon) ++ t) n.
Proof.
  intros Hb He Hm. eapply prints_eq.
  - apply (prints_bind _ _ n n n); [apply prints_char|].
    apply (prints_bind _ _ n n n); [by apply prints_escaped|].
    apply (prints_bind _ _ n n n); [apply prints_chars|exact Hm].
  - unfold quoted. cbn [app]. by rewrite <-!app_assoc.
Qed.

(** Without pretty printing. *)
Lemma dump_compact_prints j n step0 cur0 step cur : json_typed j → dumpable ea j →
  prints n (dump j false ea step0 cur0) (render loc ichar false ea step cur j) n.
Proof.
  revert cur. induction j as [|o IH|a IH|s|b|z|z|f|] using json_induction; intros cur Hwf Hd;
    try apply prints_chars.
  - destruct o as [|kv o]; [apply prints_chars|]. rewrite render_object.
    apply json_typed_object in Hwf as (_ & Hk & Hv). apply dumpable_object in Hd.
    apply (prints_bind _ _ n n n); [apply prints_char|].
    apply (prints_bind _ _ n n n); [|apply prints_char].
    apply prints_each; [|apply prints_char].
    rewrite Forall_forall in *. intros e He. destruct (Hd e He).
    apply prints_member; [by auto..|]. apply IH; auto.
  - destruct a as [|v a]; [apply prints_chars|]. rewrite render_array.
    apply json_typed_array in Hwf as Hv. apply dumpable_array in Hd.
    apply (prints_bind _ _ n n n); [apply prints_char|].
    apply (prints_bind _ _ n n n); [|apply prints_char].
    apply prints_each; [|apply prints_char].
    rewrite Forall_forall in *. intros e He. apply IH; auto.
  - by apply prints_quoted.
  - apply prints_integer. simpl in Hwf. unfold in_s in Hwf. lia.
  - apply prints_integer. simpl in Hwf. unfold in_u in Hwf. lia.
  - apply prints_float.
Qed.

(** The lines of a pretty printed container. *)
Lemma prints_lines {T} (element : T → M exn (serializer O) ()) (text : T → list Z)
    opening closing cur step els :
  0 ≤ cur → 0 ≤ step ≤ 512 → cur + step < 2 ^ 32 →
  Forall (λ e, prints (cur + step) (element e) (text e) (cur + step)) els →
  prints cur
    (put_chars [opening; 10] ;;
     grow_indent (uwrap 32 (cur + step)) ;;
     each (λ e, put_indent (uwrap 32 (cur + step)) ;; element e) (put_chars [44; 10]) els ;;
     put_char 10 ;; put_indent cur ;; put_char closing)
    (bracket ichar true step opening closing cur (text <$> els)) cur.
Proof.
  intros Hcur Hstep Hlt Hels. rewrite uwrap_small by (unfold in_u; lia). unfold bracket.
  apply (prints_bind _ _ cur cur); [apply prints_chars|].
  rewrite <-(app_nil_l (join _ _ ++ _)).
  apply (prints_bind _ _ cur (cur + step)); [apply prints_grow; lia|].
  apply (prints_bind _ _ (cur + step) (cur + step)).
  { rewrite <-list_fmap_compose. apply prints_each; [|apply prints_chars].
    eapply Forall_impl; [apply Hels|]. intros e He.
    apply (prints_bind _ _ _ (cur + step)); [apply prints_indent; lia|done]. }
  apply (prints_bind _ _ (cur + step) (cur + step)); [apply prints_char|].
  apply (prints_bind _ _ (cur + step) (cur + step)); [apply prints_indent; lia|].
  eapply prints_weaken; [apply prints_char|lia].
Qed.

(** With pretty printing, a step of at most 512 columns and indents that fit
    an [unsigned int]. *)
Lemma dump_pretty_prints j step cur : json_typed j → dumpable ea j →
  0 ≤ cur → 0 ≤ step ≤ 512 → cur + step * depth j < 2 ^ 32 →
  prints cur (dump j true ea step cur) (render loc ichar true ea step cur j) cur.
Proof.
  revert cur. induction j as [|o IH|a IH|s|b|z|z|f|] using json_induction;
    intros cur Hwf Hd Hcur Hstep Hdepth; try apply prints_chars.
  - destruct o as [|kv o]; [apply prints_chars|]. rewrite render_object.
    apply json_typed_object in Hwf as (_ & Hk & Hv). apply dumpable_object in Hd.
    pose proof (depth_object (kv :: o)) as Hdep.
    assert (1 ≤ depth (JObject (kv :: o)))
      by (apply Forall_cons in Hdep as [? _]; pose proof (depth_nonneg kv.2); lia).
    apply prints_lines; [lia..|nia|].
    rewrite Forall_forall in *. intros e He. destruct (Hd e He).
    specialize (Hdep e He). rewrite uwrap_small by (unfold in_u; nia).
    apply (prints_member (cur + step) e [58; 32]); [by auto..|].
    apply IH; auto; nia.
  - destruct a as [|v a]; [apply prints_chars|]. rewrite render_array.
    apply json_typed_array in Hwf as Hv. apply dumpable_array in Hd.
    pose proof (depth_array (v :: a)) as Hdep.
    assert (1 ≤ depth (JArray (v :: a)))
      by (apply Forall_cons in Hdep as [? _]; pose proof (depth_nonneg v); lia).
    apply prints_lines; [lia..|nia|].
    rewrite Forall_forall in *. intros e He. specialize (Hdep e He).
    rewrite uwrap_small by (unfold in_u; nia). apply IH; auto; nia.
  - by apply prints_quoted.
  - apply prints_integer. simpl in Hwf. unfold in_s in Hwf. lia.
  - apply prints_integer. simpl in Hwf. unfold in_u in Hwf. lia.
  - apply prints_float.
Qed.
End dump_contents.

Lemma ready_new loc ichar (o : output_string_adapter) :
  ready loc ichar 0 (serializer_new loc o ichar).
Proof. do 3 (split; [done|]). exists 0%nat. by split. Qed.

(** [basic_json::dump]: the text it returns. *)
Lemma json_dump_render loc j indent ichar ea :
  json_typed j → dumpable ea j → indent ≤ 512 → indent * depth j < 2 ^ 32 →
  json_dump loc j indent ichar ea =
    Ok (render loc ichar (0 <=? indent) ea (Z.max indent 0) 0 j).
Proof.
  intros Hwf Hd Hi Hdepth. unfold json_dump. destruct (0 <=? indent) eqn:E; zbool.
  - rewrite uwrap_small, Z.max_l by (unfold in_u; lia).
    pose proof (dump_pretty_prints (O := output_string_adapter) loc ichar ea j indent 0 Hwf Hd)
      as Hp.
    destruct (Hp ltac:(lia) ltac:(lia) ltac:(lia) _ (ready_new loc ichar {| str := [] |}))
      as (s' & -> & _ & Hs).
    cbn in Hs |- *. by rewrite Hs.
  - rewrite Z.max_r by lia.
    destruct (dump_compact_prints loc ichar ea j 0 0 0 0 0 Hwf Hd _ (ready_new loc ichar {| str := [] |}))
      as (s' & -> & _ & Hs).
    cbn in Hs |- *. by rewrite Hs.
Qed.
