(* ===== verification/Lexer.v ===== *)
(** [lexer] of json.hpp: from characters to tokens.

    The lexer object is a record over any input adapter; [scan] and the
    functions it calls are state-passing computations.  The [goto] labels of
    [scan_number] are one definition each.  Loops take fuel; more fuel than
    there are pending bytes is always enough ([scan_finished]). *)

From S2P Require Import Prelude Float64 JsonValue Adapters Serializer.

Inductive token_type :=
  | uninitialized
  | literal_true
  | literal_false
  | literal_null
  | value_string
  | value_unsigned
  | value_integer
  | value_float
  | begin_array
  | begin_object
  | end_array
  | end_object
  | name_separator
  | value_separator
  | tok_parse_error
  | end_of_input
  | literal_or_value.

#[global] Instance token_type_eq_dec : EqDecision token_type.
Proof. solve_decision. Defined.

Definition token_type_name (t : token_type) : list Z :=
  match t with
  | uninitialized => lit "<uninitialized>"
  | literal_true => lit "true literal"
  | literal_false => lit "false literal"
  | literal_null => lit "null literal"
  | value_string => lit "string literal"
  | value_unsigned | value_integer | value_float => lit "number literal"
  | begin_array => lit "'['"
  | begin_object => lit "'{'"
  | end_array => lit "']'"
  | end_object => lit "'}'"
  | name_separator => lit "':'"
  | value_separator => lit "','"
  | tok_parse_error => lit "<parse error>"
  | end_of_input => lit "end of input"
  | literal_or_value => lit "'[', '{', or a literal"
  end.

Record lexer (A : Type) := mk_lexer {
  lx_ia : A;
  lx_current : Z;
  lx_chars_read : Z;
  lx_token_string : list Z;
  lx_yytext : list Z;
  lx_error_message : list Z;
  lx_value_integer : Z;
  lx_value_unsigned : Z;
  lx_value_float : Z;
  lx_decimal_point_char : Z;
}.
Arguments mk_lexer {A} _ _ _ _ _ _ _ _ _ _.
Arguments lx_ia {A} _.
Arguments lx_current {A} _.
Arguments lx_chars_read {A} _.
Arguments lx_token_string {A} _.
Arguments lx_yytext {A} _.
Arguments lx_error_message {A} _.
Arguments lx_value_integer {A} _.
Arguments lx_value_unsigned {A} _.
Arguments lx_value_float {A} _.
Arguments lx_decimal_point_char {A} _.

(** The constructor; the decimal point is the locale's. *)
Definition lexer_new {A} (loc : lconv) (adapter : A) : lexer A :=
  mk_lexer adapter eof 0 [] [] [] 0 0 0 (lc_decimal_point loc).

(** The digits after [factor] of [get_codepoint]; [None] for another character. *)
Definition hex_value (c : Z) : option Z :=
  if (48 <=? c) && (c <=? 57) then Some (c - 0x30)
  else if (65 <=? c) && (c <=? 70) then Some (c - 0x37)
  else if (97 <=? c) && (c <=? 102) then Some (c - 0x57)
  else None.

(** The two character escapes of a JSON string: the character each stands for. *)
Definition unescape (c : Z) : option Z :=
  if c =? 34 then Some 34
  else if c =? 92 then Some 92
  else if c =? 47 then Some 47
  else if c =? 98 then Some 8
  else if c =? 102 then Some 12
  else if c =? 110 then Some 10
  else if c =? 114 then Some 13
  else if c =? 116 then Some 9
  else None.

(** The ranges of the bytes that may follow a byte above 0x7f, one pair per
    byte; [None] for a byte that cannot start a sequence. *)
Definition utf8_ranges (c : Z) : option (list (Z * Z)) :=
  if (0xc2 <=? c) && (c <=? 0xdf) then Some [(0x80, 0xBF)]
  else if c =? 0xe0 then Some [(0xA0, 0xBF); (0x80, 0xBF)]
  else if ((0xe1 <=? c) && (c <=? 0xec)) || (c =? 0xee) || (c =? 0xef)
  then Some [(0x80, 0xBF); (0x80, 0xBF)]
  else if c =? 0xed then Some [(0x80, 0x9F); (0x80, 0xBF)]
  else if c =? 0xf0 then Some [(0x90, 0xBF); (0x80, 0xBF); (0x80, 0xBF)]
  else if (0xf1 <=? c) && (c <=? 0xf3) then Some [(0x80, 0xBF); (0x80, 0xBF); (0x80, 0xBF)]
  else if c =? 0xf4 then Some [(0x80, 0x8F); (0x80, 0xBF); (0x80, 0xBF)]
  else None.

Definition is_digit1_9 (c : Z) : bool := (49 <=? c) && (c <=? 57).

(** [strtoull] in base 10 on a text of digits: the value ([ULLONG_MAX] when it is
    too large), [errno != 0], and the text from [endptr] on. *)
Definition strtoull (s : list Z) : Z * bool * list Z :=
  let '(ds, r) := F64.span_digits s in
  let x := F64.digits_value 0 ds in
  if x <? 2 ^ 64 then (x, false, r) else (2 ^ 64 - 1, true, r).

(** [strtoll] in base 10 on digits after an optional minus sign. *)
Definition strtoll (s : list Z) : Z * bool * list Z :=
  let '(neg, s) := match s with
                   | c :: s' => if c =? 45 then (true, s') else (false, s)
                   | [] => (false, s)
                   end in
  let '(ds, r) := F64.span_digits s in
  let x := if (neg : bool) then - F64.digits_value 0 ds else F64.digits_value 0 ds in
  if x <? - 2 ^ 63 then (- 2 ^ 63, true, r)
  else if 2 ^ 63 <=? x then (2 ^ 63 - 1, true, r)
  else (x, false, r).

(** ["<U+"], the character in four upper case hexadecimal digits, [">"]. *)
Definition control_name (c : Z) : list Z :=
  let upper d := if d <? 10 then 48 + d else 55 + d in
  lit "<U+00" ++ [upper (c / 16); upper (c mod 16)] ++ lit ">".

Definition get_token_string {A} (l : lexer A) : list Z :=
  concat ((λ c, if (0 <=? schar c) && (schar c <=? 0x1f) then control_name c else [c])
            <$> lx_token_string l).

Section lexer.
Context {A : Type} `{!input_adapter_protocol A}.

Abbreviation L := (M exn (lexer A)).

Definition get : L Z := λ l,
  let '(c, ia) := get_character (lx_ia l) in
  Ok (c, mk_lexer ia c (uwrap 64 (lx_chars_read l + 1))
           (if negb (c =? eof) then lx_token_string l ++ [uwrap 8 c] else lx_token_string l)
           (lx_yytext l) (lx_error_message l) (lx_value_integer l) (lx_value_unsigned l)
           (lx_value_float l) (lx_decimal_point_char l)).

Definition unget : L () := λ l,
  let eat := negb (lx_current l =? eof) in
  if eat && bool_decide (lx_token_string l = []) then Throw assert_failure
  else
    Ok ((), mk_lexer (if eat then unget_character (lx_ia l) else lx_ia l)
              (lx_current l) (uwrap 64 (lx_chars_read l - 1))
              (if eat then removelast (lx_token_string l) else lx_token_string l)
              (lx_yytext l) (lx_error_message l) (lx_value_integer l) (lx_value_unsigned l)
              (lx_value_float l) (lx_decimal_point_char l)).

Definition add (c : Z) : L () := λ l,
  Ok ((), mk_lexer (lx_ia l) (lx_current l) (lx_chars_read l) (lx_token_string l)
            (lx_yytext l ++ [uwrap 8 c]) (lx_error_message l) (lx_value_integer l)
            (lx_value_unsigned l) (lx_value_float l) (lx_decimal_point_char l)).

Definition reset : L () := λ l,
  Ok ((), mk_lexer (lx_ia l) (lx_current l) (lx_chars_read l) [uwrap 8 (lx_current l)]
            [] (lx_error_message l) (lx_value_integer l) (lx_value_unsigned l)
            (lx_value_float l) (lx_decimal_point_char l)).

(** [error_message = msg; return token_type::parse_error;]. *)
Definition error (msg : list Z) : L token_type := λ l,
  Ok (tok_parse_error,
      mk_lexer (lx_ia l) (lx_current l) (lx_chars_read l) (lx_token_string l) (lx_yytext l)
        msg (lx_value_integer l) (lx_value_unsigned l) (lx_value_float l)
        (lx_decimal_point_char l)).

Definition set_integer (x : Z) : L () := λ l,
  Ok ((), mk_lexer (lx_ia l) (lx_current l) (lx_chars_read l) (lx_token_string l)
            (lx_yytext l) (lx_error_message l) x (lx_value_unsigned l) (lx_value_float l)
            (lx_decimal_point_char l)).

Definition set_unsigned (x : Z) : L () := λ l,
  Ok ((), mk_lexer (lx_ia l) (lx_current l) (lx_chars_read l) (lx_token_string l)
            (lx_yytext l) (lx_error_message l) (lx_value_integer l) x (lx_value_float l)
            (lx_decimal_point_char l)).

Definition set_float (x : Z) : L () := λ l,
  Ok ((), mk_lexer (lx_ia l) (lx_current l) (lx_chars_read l) (lx_token_string l)
            (lx_yytext l) (lx_error_message l) (lx_value_integer l) (lx_value_unsigned l) x
            (lx_decimal_point_char l)).

(** [move_string]: the string is taken out of the lexer. *)
Definition move_string : L (list Z) := λ l,
  Ok (lx_yytext l,
      mk_lexer (lx_ia l) (lx_current l) (lx_chars_read l) (lx_token_string l) []
        (lx_error_message l) (lx_value_integer l) (lx_value_unsigned l) (lx_value_float l)
        (lx_decimal_point_char l)).

(** ** Strings *)

Fixpoint get_codepoint_loop (factors : list Z) (codepoint : Z) : L Z :=
  match factors with
  | [] =>
      assert ((0 <=? codepoint) && (codepoint <=? 0xFFFF)) assert_failure ;;
      mret codepoint
  | factor :: factors =>
      c ← get;
      match hex_value c with
      | Some d => get_codepoint_loop factors (codepoint + Z.shiftl d factor)
      | None => mret (-1)
      end
  end.

Definition get_codepoint : L Z :=
  c ← gets lx_current;
  assert (c =? 117) assert_failure ;;
  get_codepoint_loop [12; 8; 4; 0] 0.

Fixpoint bytes_in_ranges (ranges : list (Z * Z)) : L bool :=
  match ranges with
  | [] => mret true
  | (lo, hi) :: ranges =>
      c ← get;
      if (lo <=? c) && (c <=? hi) then add c ;; bytes_in_ranges ranges
      else error (lit "invalid string: ill-formed UTF-8 byte") ;; mret false
  end.

Definition next_byte_in_range (ranges : list (Z * Z)) : L bool :=
  c ← gets lx_current;
  add c ;;
  bytes_in_ranges ranges.

(** The bytes of a code point. *)
Definition add_codepoint (codepoint : Z) : L () :=
  assert ((0 <=? codepoint) && (codepoint <=? 0x10FFFF)) assert_failure ;;
  if codepoint <? 0x80 then add codepoint
  else if codepoint <=? 0x7ff then
    add (Z.lor 0xC0 (Z.shiftr codepoint 6)) ;;
    add (Z.lor 0x80 (Z.land codepoint 0x3F))
  else if codepoint <=? 0xffff then
    add (Z.lor 0xE0 (Z.shiftr codepoint 12)) ;;
    add (Z.lor 0x80 (Z.land (Z.shiftr codepoint 6) 0x3F)) ;;
    add (Z.lor 0x80 (Z.land codepoint 0x3F))
  else
    add (Z.lor 0xF0 (Z.shiftr codepoint 18)) ;;
    add (Z.lor 0x80 (Z.land (Z.shiftr codepoint 12) 0x3F)) ;;
    add (Z.lor 0x80 (Z.land (Z.shiftr codepoint 6) 0x3F)) ;;
    add (Z.lor 0x80 (Z.land codepoint 0x3F)).

Definition msg_hex : list Z := lit "invalid string: '\u' must be followed by 4 hex digits".
Definition msg_surrogate : list Z :=
  lit "invalid string: surrogate U+DC00..U+DFFF must be followed by U+DC00..U+DFFF".
Definition msg_lone_surrogate : list Z :=
  lit "invalid string: surrogate U+DC00..U+DFFF must follow U+D800..U+DBFF".

(** After [\u]: [true] when a code point was added, [false] after an error. *)
Definition scan_unicode_escape : L bool :=
  codepoint1 ← get_codepoint;
  if codepoint1 =? -1 then error msg_hex ;; mret false
  else if (0xD800 <=? codepoint1) && (codepoint1 <=? 0xDBFF) then
    c ← get;
    if negb (c =? 92) then error msg_surrogate ;; mret false else
    c ← get;
    if negb (c =? 117) then error msg_surrogate ;; mret false else
    codepoint2 ← get_codepoint;
    if codepoint2 =? -1 then error msg_hex ;; mret false
    else if (0xDC00 <=? codepoint2) && (codepoint2 <=? 0xDFFF) then
      add_codepoint (Z.shiftl codepoint1 10 + codepoint2 - 0x35FDC00) ;; mret true
    else error msg_surrogate ;; mret false
  else if (0xDC00 <=? codepoint1) && (codepoint1 <=? 0xDFFF) then
    error msg_lone_surrogate ;; mret false
  else add_codepoint codepoint1 ;; mret true.

(** After a backslash. *)
Definition scan_escape : L bool :=
  c ← get;
  match unescape c with
  | Some d => add d ;; mret true
  | None =>
      if c =? 117 then scan_unicode_escape
      else error (lit "invalid string: forbidden character after backslash") ;; mret false
  end.

Fixpoint scan_string_loop (fuel : nat) : L token_type :=
  match fuel with
  | O => no_fuel
  | S fuel =>
      c ← get;
      if c =? eof then error (lit "invalid string: missing closing quote")
      else if c =? 34 then mret value_string
      else if c =? 92 then
        ok ← scan_escape;
        if (ok : bool) then scan_string_loop fuel else mret tok_parse_error
      else if (0x00 <=? c) && (c <=? 0x1f) then
        error (lit "invalid string: control character must be escaped")
      else if (0x20 <=? c) && (c <=? 0x7f) then add c ;; scan_string_loop fuel
      else
        match utf8_ranges c with
        | Some ranges =>
            ok ← next_byte_in_range ranges;
            if (ok : bool) then scan_string_loop fuel else mret tok_parse_error
        | None => error (lit "invalid string: ill-formed UTF-8 byte")
        end
  end.

Definition scan_string (fuel : nat) : L token_type :=
  reset ;;
  c ← gets lx_current;
  assert (c =? 34) assert_failure ;;
  scan_string_loop fuel.

(** ** Numbers *)

(** Both integer cases fall back to a floating point number. *)
Definition scan_number_float : L token_type :=
  text ← gets lx_yytext;
  dp ← gets lx_decimal_point_char;
  let '(x, endptr) := F64.strtod dp text in
  set_float x ;;
  assert (bool_decide (endptr = [])) assert_failure ;;
  mret value_float.

Definition scan_number_done (number_type : token_type) : L token_type :=
  unget ;;
  text ← gets lx_yytext;
  match number_type with
  | value_unsigned =>
      let '(x, errno, endptr) := strtoull text in
      assert (bool_decide (endptr = [])) assert_failure ;;
      if (errno : bool) then scan_number_float
      else
        set_unsigned (uwrap 64 x) ;;
        if uwrap 64 x =? x then mret value_unsigned else scan_number_float
  | value_integer =>
      let '(x, errno, endptr) := strtoll text in
      assert (bool_decide (endptr = [])) assert_failure ;;
      if (errno : bool) then scan_number_float
      else
        set_integer (swrap 64 x) ;;
        if swrap 64 x =? x then mret value_integer else scan_number_float
  | _ => scan_number_float
  end.

Fixpoint scan_number_any2 (fuel : nat) (number_type : token_type) : L token_type :=
  match fuel with
  | O => no_fuel
  | S fuel =>
      c ← get;
      if F64.is_digit c then add c ;; scan_number_any2 fuel number_type
      else scan_number_done number_type
  end.

Definition scan_number_sign (fuel : nat) (number_type : token_type) : L token_type :=
  c ← get;
  if F64.is_digit c then add c ;; scan_number_any2 fuel number_type
  else error (lit "invalid number; expected digit after exponent sign").

Definition scan_number_exponent (fuel : nat) : L token_type :=
  let number_type := value_float in
  c ← get;
  if (c =? 43) || (c =? 45) then add c ;; scan_number_sign fuel number_type
  else if F64.is_digit c then add c ;; scan_number_any2 fuel number_type
  else error (lit "invalid number; expected '+', '-', or digit after exponent").

Fixpoint scan_number_decimal2 (fuel : nat) (number_type : token_type) : L token_type :=
  match fuel with
  | O => no_fuel
  | S fuel =>
      c ← get;
      if F64.is_digit c then add c ;; scan_number_decimal2 fuel number_type
      else if (c =? 101) || (c =? 69) then add c ;; scan_number_exponent fuel
      else scan_number_done number_type
  end.

Definition scan_number_decimal1 (fuel : nat) : L token_type :=
  let number_type := value_float in
  c ← get;
  if F64.is_digit c then add c ;; scan_number_decimal2 fuel number_type
  else error (lit "invalid number; expected digit after '.'").

Fixpoint scan_number_any1 (fuel : nat) (number_type : token_type) : L token_type :=
  match fuel with
  | O => no_fuel
  | S fuel =>
      c ← get;
      if F64.is_digit c then add c ;; scan_number_any1 fuel number_type
      else if c =? 46 then
        dp ← gets lx_decimal_point_char; add dp ;; scan_number_decimal1 fuel
      else if (c =? 101) || (c =? 69) then add c ;; scan_number_exponent fuel
      else scan_number_done number_type
  end.

Definition scan_number_zero (fuel : nat) (number_type : token_type) : L token_type :=
  c ← get;
  if c =? 46 then dp ← gets lx_decimal_point_char; add dp ;; scan_number_decimal1 fuel
  else if (c =? 101) || (c =? 69) then add c ;; scan_number_exponent fuel
  else scan_number_done number_type.

Definition scan_number_minus (fuel : nat) : L token_type :=
  let number_type := value_integer in
  c ← get;
  if c =? 48 then add c ;; scan_number_zero fuel number_type
  else if is_digit1_9 c then add c ;; scan_number_any1 fuel number_type
  else error (lit "invalid number; expected digit after '-'").

Definition scan_number (fuel : nat) : L token_type :=
  reset ;;
  c ← gets lx_current;
  if c =? 45 then add c ;; scan_number_minus fuel
  else if c =? 48 then add c ;; scan_number_zero fuel value_unsigned
  else if is_digit1_9 c then add c ;; scan_number_any1 fuel value_unsigned
  else throw assert_failure.

(** ** Literals and the scanner *)

Fixpoint scan_literal_rest (text : list Z) (return_type : token_type) : L token_type :=
  match text with
  | [] => mret return_type
  | t :: text =>
      c ← get;
      if negb (c =? t) then error (lit "invalid literal")
      else scan_literal_rest text return_type
  end.

Definition scan_literal (literal_text : list Z) (return_type : token_type) : L token_type :=
  c ← gets lx_current;
  assert (bool_decide (head literal_text = Some c)) assert_failure ;;
  scan_literal_rest (tail literal_text) return_type.

Definition is_space (c : Z) : bool := (c =? 32) || (c =? 9) || (c =? 10) || (c =? 13).

Fixpoint skip_spaces (fuel : nat) : L Z :=
  match fuel with
  | O => no_fuel
  | S fuel => c ← get; if is_space c then skip_spaces fuel else mret c
  end.

Definition scan (fuel : nat) : L token_type :=
  c ← skip_spaces fuel;
  if c =? 91 then mret begin_array
  else if c =? 93 then mret end_array
  else if c =? 123 then mret begin_object
  else if c =? 125 then mret end_object
  else if c =? 58 then mret name_separator
  else if c =? 44 then mret value_separator
  else if c =? 116 then scan_literal (lit "true") literal_true
  else if c =? 102 then scan_literal (lit "false") literal_false
  else if c =? 110 then scan_literal (lit "null") literal_null
  else if c =? 34 then scan_string fuel
  else if (c =? 45) || F64.is_digit c then scan_number fuel
  else if (c =? 0) || (c =? eof) then mret end_of_input
  else error (lit "invalid literal").
End lexer.

(** A token of a small input. *)
Example scan_example :
  match scan 20 (lexer_new c_locale (input_buffer_adapter_new (lit "  -12.5e1, 3"))) with
  | Ok (t, l) => (t, lx_value_float l, lx_chars_read l) = (value_float, F64.of_Z (-125), 9)
  | _ => False
  end.
Proof. vm_compute. reflexivity. Qed.
