(* ===== verification/Parser.v ===== *)
(** [parser] of json.hpp: from tokens to values.

    The parser object is a record around the lexer.  The callback is any
    function of the depth, the event and the value, with a state of its own; it
    may change the value it is given.  [parse_internal] recurses with fuel; more
    fuel than pending bytes is enough ([parse_internal_finished]). *)

From S2P Require Import Prelude Float64 JsonValue Adapters Serializer Lexer.

Inductive parse_event_t :=
  | object_start
  | object_end
  | array_start
  | array_end
  | key
  | value.

(** [parser_callback_t]: returns whether to keep the value, and the value and
    the callback's own state as it leaves them. *)
Definition parser_callback_t (C : Type) : Type :=
  Z → parse_event_t → json → C → bool * json * C.

Record parser (A C : Type) := mk_parser {
  ps_depth : Z;
  ps_last_token : token_type;
  ps_lexer : lexer A;
  ps_errored : bool;
  ps_expected : token_type;
  ps_callback_state : C;
}.
Arguments mk_parser {A C} _ _ _ _ _ _.
Arguments ps_depth {A C} _.
Arguments ps_last_token {A C} _.
Arguments ps_lexer {A C} _.
Arguments ps_errored {A C} _.
Arguments ps_expected {A C} _.
Arguments ps_callback_state {A C} _.

Definition parser_new {A C} (loc : lconv) (adapter : A) (cb_state : C) : parser A C :=
  mk_parser 0 uninitialized (lexer_new loc adapter) false uninitialized cb_state.

Section parser.
Context {A C : Type} `{!input_adapter_protocol A}.
Variable callback : option (parser_callback_t C).
Variable allow_exceptions : bool.

Abbreviation P := (M exn (parser A C)).

(** A member function of [m_lexer]. *)
Definition with_lexer {T} (m : M exn (lexer A) T) : P T := λ p,
  match m (ps_lexer p) with
  | Ok (x, l) =>
      Ok (x, mk_parser (ps_depth p) (ps_last_token p) l (ps_errored p) (ps_expected p)
               (ps_callback_state p))
  | Throw e => Throw e
  | NoFuel => NoFuel
  end.

Definition set_last_token (t : token_type) : P () := λ p,
  Ok ((), mk_parser (ps_depth p) t (ps_lexer p) (ps_errored p) (ps_expected p)
            (ps_callback_state p)).

Definition get_token (fuel : nat) : P token_type :=
  t ← with_lexer (scan fuel); set_last_token t ;; mret t.

Definition set_errored (t : token_type) : P () := λ p,
  Ok ((), mk_parser (ps_depth p) (ps_last_token p) (ps_lexer p) true t (ps_callback_state p)).

Definition throw_exception : P bool := λ p,
  let l := ps_lexer p in
  let error_msg :=
    lit "syntax error - " ++
    (if bool_decide (ps_last_token p = tok_parse_error)
     then lx_error_message l ++ lit "; last read: '" ++ get_token_string l ++ lit "'"
     else lit "unexpected " ++ token_type_name (ps_last_token p)) ++
    (if bool_decide (ps_expected p = uninitialized) then []
     else lit "; expected " ++ token_type_name (ps_expected p)) in
  Throw (parse_error_create 101 (lx_chars_read l) error_msg).

Definition expect (t : token_type) : P bool :=
  last_token ← gets ps_last_token;
  if negb (bool_decide (t = last_token)) then
    set_errored t ;;
    if allow_exceptions then throw_exception else mret false
  else mret true.

(** [depth++] gives the old value, [--depth] the new one. *)
Definition depth_incr : P Z := λ p,
  Ok (ps_depth p, mk_parser (swrap 32 (ps_depth p + 1)) (ps_last_token p) (ps_lexer p)
                    (ps_errored p) (ps_expected p) (ps_callback_state p)).
Definition depth_decr : P Z := λ p,
  let d := swrap 32 (ps_depth p - 1) in
  Ok (d, mk_parser d (ps_last_token p) (ps_lexer p) (ps_errored p) (ps_expected p)
           (ps_callback_state p)).

Definition call (cb : parser_callback_t C) (d : Z) (event : parse_event_t) (parsed : json) :
    P (bool * json) := λ p,
  let '(b, j, c) := cb d event parsed (ps_callback_state p) in
  Ok ((b, j), mk_parser (ps_depth p) (ps_last_token p) (ps_lexer p) (ps_errored p)
                (ps_expected p) c).

(** The beginning of a container: [keep] as the callback leaves it, and the
    result, an empty container when it is kept. *)
Definition start_container (keep : bool) (event : parse_event_t) (empty : json) :
    P (bool * json) :=
  if keep then
    match callback with
    | Some cb =>
        d ← depth_incr;
        '(keep, result) ← call cb d event JDiscarded;
        mret (keep, if (keep : bool) then empty else result)
    | None => mret (true, empty)
    end
  else mret (false, JDiscarded).

(** The end of a container, where [guard] is what the code tests before
    [callback]. *)
Definition end_container (guard : bool) (event : parse_event_t) (result : json) : P json :=
  match callback with
  | Some cb =>
      if guard then
        d ← depth_decr;
        '(ok, result) ← call cb d event result;
        mret (if (ok : bool) then result else JDiscarded)
      else mret result
  | None => mret result
  end.

Definition object_emplace (k : list Z) (v : json) (result : json) : json :=
  match result with
  | JObject o => JObject (omap_emplace k v o)
  | result => result
  end.

Definition array_push_back (v : json) (result : json) : json :=
  match result with
  | JArray a => JArray (a ++ [v])
  | result => result
  end.

(** Whether the callback keeps the member [k]. *)
Definition key_kept (keep : bool) (k : list Z) : P bool :=
  if keep then
    match callback with
    | Some cb => d ← gets ps_depth; '(b, _) ← call cb d key (JString k); mret b
    | None => mret true
    end
  else mret false.

(** The loop over the members of an object.  The flag is [true] when the loop
    ended in [break], [false] when the function returned. *)
Fixpoint parse_members (parse : bool → P json) (keep : bool) (fuel : nat) (result : json) :
    P (json * bool) :=
  match fuel with
  | O => no_fuel
  | S fuel' =>
      ok ← expect value_string;
      if negb ok then mret (result, false) else
      k ← with_lexer move_string;
      keep_tag ← key_kept keep k;
      get_token fuel ;;
      ok ← expect name_separator;
      if negb ok then mret (result, false) else
      get_token fuel ;;
      v ← parse keep;
      errored ← gets ps_errored;
      if (errored : bool) then mret (result, false) else
      let result := if keep && keep_tag && negb (is_discarded v)
                    then object_emplace k v result else result in
      t ← get_token fuel;
      if bool_decide (t = value_separator) then
        get_token fuel ;; parse_members parse keep fuel' result
      else ok ← expect end_object; mret (result, ok)
  end.

(** The loop over the elements of an array. *)
Fixpoint parse_elements (parse : bool → P json) (keep : bool) (fuel : nat) (result : json) :
    P (json * bool) :=
  match fuel with
  | O => no_fuel
  | S fuel' =>
      v ← parse keep;
      errored ← gets ps_errored;
      if (errored : bool) then mret (result, false) else
      let result := if keep && negb (is_discarded v) then array_push_back v result else result in
      t ← get_token fuel;
      if bool_decide (t = value_separator) then
        get_token fuel ;; parse_elements parse keep fuel' result
      else ok ← expect end_array; mret (result, ok)
  end.

(** A value that is neither an object nor an array, by its token. *)
Definition parse_scalar (last_token : token_type) : P (json * bool) :=
  match last_token with
  | literal_null => mret (JNull, true)
  | value_string => s ← with_lexer move_string; mret (JString s, true)
  | literal_true => mret (JBool true, true)
  | literal_false => mret (JBool false, true)
  | value_unsigned => l ← gets ps_lexer; mret (JUInt (lx_value_unsigned l), true)
  | value_integer => l ← gets ps_lexer; mret (JInt (lx_value_integer l), true)
  | value_float =>
      l ← gets ps_lexer;
      let x := lx_value_float l in
      if negb (F64.isfinite x) then
        if allow_exceptions then
          throw (out_of_range_create 406
                   (lit "number overflow parsing '" ++ get_token_string l ++ lit "'"))
        else expect uninitialized ;; mret (JFloat x, true)
      else mret (JFloat x, true)
  | tok_parse_error => ok ← expect uninitialized; mret (JDiscarded, ok)
  | _ => ok ← expect literal_or_value; mret (JDiscarded, ok)
  end.

(** The call of the callback behind the switch. *)
Definition finish_value (keep : bool) (result : json) : P json :=
  match callback with
  | Some cb =>
      if keep then
        d ← gets ps_depth;
        '(ok, result) ← call cb d value result;
        mret (if (ok : bool) then result else JDiscarded)
      else mret result
  | None => mret result
  end.

Fixpoint parse_internal (fuel : nat) (keep : bool) : P json :=
  match fuel with
  | O => no_fuel
  | S fuel =>
      errored ← gets ps_errored;
      assert (negb errored) assert_failure ;;
      last_token ← gets ps_last_token;
      '(keep, (result, ended)) ←
        match last_token with
        | begin_object =>
            '(keep, result) ← start_container keep object_start (JObject []);
            t ← get_token fuel;
            if bool_decide (t = end_object) then
              result ← end_container keep object_end result; mret (keep, (result, true))
            else
              '(result, ended) ← parse_members (parse_internal fuel) keep fuel result;
              if (ended : bool) then
                result ← end_container keep object_end result; mret (keep, (result, true))
              else mret (keep, (result, false))
        | begin_array =>
            '(keep, result) ← start_container keep array_start (JArray []);
            t ← get_token fuel;
            if bool_decide (t = end_array) then
              result ← end_container true array_end result; mret (keep, (result, true))
            else
              '(result, ended) ← parse_elements (parse_internal fuel) keep fuel result;
              if (ended : bool) then
                result ← end_container keep array_end result; mret (keep, (result, true))
              else mret (keep, (result, false))
        | last_token => r ← parse_scalar last_token; mret (keep, r)
        end;
      if (ended : bool) then finish_value keep result else mret result
  end.

Definition parse (fuel : nat) (strict : bool) : P json :=
  get_token fuel ;;
  result ← parse_internal fuel true;
  (if strict then get_token fuel ;; expect end_of_input ;; mret () else mret ()) ;;
  errored ← gets ps_errored;
  if (errored : bool) then mret JDiscarded
  else if is_discarded result then mret JNull else mret result.

(** ** [accept] *)

Fixpoint accept_members (accept : P bool) (fuel : nat) : P bool :=
  match fuel with
  | O => no_fuel
  | S fuel' =>
      t ← gets ps_last_token;
      if negb (bool_decide (t = value_string)) then mret false else
      t ← get_token fuel;
      if negb (bool_decide (t = name_separator)) then mret false else
      get_token fuel ;;
      ok ← accept;
      if negb ok then mret false else
      t ← get_token fuel;
      if bool_decide (t = value_separator) then get_token fuel ;; accept_members accept fuel'
      else mret (bool_decide (t = end_object))
  end.

Fixpoint accept_elements (accept : P bool) (fuel : nat) : P bool :=
  match fuel with
  | O => no_fuel
  | S fuel' =>
      ok ← accept;
      if negb ok then mret false else
      t ← get_token fuel;
      if bool_decide (t = value_separator) then get_token fuel ;; accept_elements accept fuel'
      else mret (bool_decide (t = end_array))
  end.

Fixpoint accept_internal (fuel : nat) : P bool :=
  match fuel with
  | O => no_fuel
  | S fuel =>
      last_token ← gets ps_last_token;
      match last_token with
      | begin_object =>
          t ← get_token fuel;
          if bool_decide (t = end_object) then mret true
          else accept_members (accept_internal fuel) fuel
      | begin_array =>
          t ← get_token fuel;
          if bool_decide (t = end_array) then mret true
          else accept_elements (accept_internal fuel) fuel
      | value_float => l ← gets ps_lexer; mret (F64.isfinite (lx_value_float l))
      | literal_false | literal_null | literal_true
      | value_integer | value_string | value_unsigned => mret true
      | _ => mret false
      end
  end.

Definition accept (fuel : nat) (strict : bool) : P bool :=
  get_token fuel ;;
  ok ← accept_internal fuel;
  if negb ok then mret false
  else if strict then t ← get_token fuel; mret (bool_decide (t = end_of_input))
  else mret true.
End parser.

(** [basic_json::parse] on a text, with enough fuel. *)
Definition json_parse_with {C} (loc : lconv) (cb : option (parser_callback_t C)) (c : C)
    (allow_exceptions : bool) (text : list Z) : result json :=
  '(j, _) ← parse cb allow_exceptions (S (length text)) true
              (parser_new loc (input_buffer_adapter_new text) c);
  mret j.

Definition json_parse (loc : lconv) (text : list Z) : result json :=
  json_parse_with (C := ()) loc None () true text.

(** [basic_json::accept]. *)
Definition json_accept (loc : lconv) (text : list Z) : result bool :=
  '(b, _) ← accept (S (length text)) true
              (parser_new loc (input_buffer_adapter_new text) ());
  mret b.

Example parse_example :
  json_parse c_locale (lit "{ 'a' : [1, -2.5e0, true], 'b': {} , 'a': null}" ≫= λ c, [if c =? 39 then 34 else c])
  = Ok (JObject [(lit "a", JArray [JUInt 1; JFloat 0xC004000000000000; JBool true]);
                 (lit "b", JObject [])]).
Proof. vm_compute. reflexivity. Qed.
