(* ===== verification/Numeral.v ===== *)
(** Number texts: the JSON grammar of a number, what [strtoull], [strtoll] and
    [strtod] make of such a text, and that [std::to_string], [dump_integer] and
    [dump_float] produce such texts. *)

From S2P Require Import Prelude Float64 JsonValue Adapters Serializer Lexer.

(** A non-empty text of decimal digits. *)
Definition is_digits (ds : list Z) : Prop :=
  Forall (λ c, F64.is_digit c = true) ds ∧ ds ≠ [].

(** A digit sequence without superfluous leading zeros. *)
Definition is_int (ds : list Z) : Prop :=
  is_digits ds ∧ (ds = [48] ∨ ∃ c ds', ds = c :: ds' ∧ is_digit1_9 c = true).

Lemma is_digit_range c : F64.is_digit c = true ↔ 48 ≤ c ≤ 57.
Proof. unfold F64.is_digit. rewrite andb_true_iff, !Z.leb_le. done. Qed.

Lemma is_digit_false c : F64.is_digit c = false ↔ ¬ 48 ≤ c ≤ 57.
Proof. rewrite <-is_digit_range. by destruct (F64.is_digit c). Qed.

Lemma digits_value_app acc a b :
  F64.digits_value acc (a ++ b) = F64.digits_value (F64.digits_value acc a) b.
Proof. revert acc. induction a; simpl; auto. Qed.

Lemma digits_fuel_spec f n acc : 0 ≤ n < 2 ^ Z.of_nat f → (1 ≤ f)%nat →
  ∃ ds, digits_fuel f n acc = ds ++ acc ∧ is_int ds ∧ F64.digits_value 0 ds = n.
Proof.
  revert n acc. induction f as [|f IH]; intros n acc Hn Hf; [lia|].
  rewrite Nat2Z.inj_succ, Z.pow_succ_r in Hn by lia. cbn [digits_fuel].
  assert (n = 10 * (n / 10) + n mod 10 ∧ 0 ≤ n mod 10 < 10) as [Hdm Hm].
  { split; [apply Z.div_mod; lia|apply Z.mod_pos_bound; lia]. }
  assert (F64.is_digit (48 + n mod 10) = true) as Hd by (apply is_digit_range; lia).
  case_if.
  - exists [48 + n mod 10]. split; [done|]. split; [|simpl; lia]. split.
    + split; [by constructor|done].
    + destruct (decide (n mod 10 = 0)) as [->|]; [by left|right].
      eexists _, _. split; [done|]. unfold is_digit1_9. by ztests.
  - destruct (IH (n / 10) ((48 + n mod 10) :: acc)) as (ds & -> & [[Hall Hne] Hint] & Hv).
    + split; [apply Z.div_pos; lia|]. lia.
    + destruct f; [simpl in Hn|]; lia.
    + exists (ds ++ [48 + n mod 10]). rewrite <-app_assoc. split; [done|]. split; [split; [split|]|].
      * apply Forall_app_2; [done|]. by constructor.
      * by destruct ds.
      * right. destruct Hint as [->|(c & ds' & -> & Hc)]; [simpl in Hv; lia|].
        exists c, (ds' ++ [48 + n mod 10]). by split.
      * rewrite digits_value_app, Hv. simpl. lia.
Qed.

Lemma digits_spec n : 0 ≤ n → is_int (digits n) ∧ F64.digits_value 0 (digits n) = n.
Proof.
  intros Hn. unfold digits.
  destruct (digits_fuel_spec (S (Z.to_nat (Z.log2 n))) n []) as (ds & -> & Hi & Hv);
    [|lia|by rewrite app_nil_r].
  split; [done|]. rewrite Nat2Z.inj_succ, Z2Nat.id by apply Z.log2_nonneg.
  destruct (decide (n = 0)) as [->|]; [done|]. apply Z.log2_spec. lia.
Qed.

(** ** The grammar *)

Record numeral := {
  nm_neg : bool;
  nm_int : list Z;
  nm_frac : option (list Z);
  nm_exp : option (Z * list Z * list Z);
}.

Definition frac_text (dp : Z) (f : option (list Z)) : list Z :=
  match f with Some fp => dp :: fp | None => [] end.

Definition exp_text (e : option (Z * list Z * list Z)) : list Z :=
  match e with Some (c, sg, ds) => c :: sg ++ ds | None => [] end.

Definition numeral_text (dp : Z) (n : numeral) : list Z :=
  (if nm_neg n then [45] else []) ++ nm_int n ++ frac_text dp (nm_frac n) ++ exp_text (nm_exp n).

Definition frac_ok (f : option (list Z)) : Prop :=
  match f with Some fp => is_digits fp | None => True end.

Definition exp_ok (e : option (Z * list Z * list Z)) : Prop :=
  match e with
  | Some (c, sg, ds) =>
      (c = 101 ∨ c = 69) ∧ (sg = [] ∨ sg = [43] ∨ sg = [45]) ∧ is_digits ds
  | None => True
  end.

Definition numeral_ok (n : numeral) : Prop :=
  is_digits (nm_int n) ∧ frac_ok (nm_frac n) ∧ exp_ok (nm_exp n).

(** A decimal point that is no other character of a number. *)
Definition dp_ok (dp : Z) : Prop :=
  is_byte dp ∧ F64.is_digit dp = false ∧ dp ≠ 101 ∧ dp ≠ 69.

(** The value a numeral stands for, rounded to a double. *)
Definition numeral_float (n : numeral) : Z :=
  let fp := from_option id [] (nm_frac n) in
  let ex := match nm_exp n with
            | Some (_, sg, ds) =>
                if bool_decide (sg = [45]) then - F64.digits_value 0 ds else F64.digits_value 0 ds
            | None => 0
            end in
  F64.of_decimal (nm_neg n) (F64.digits_value 0 (nm_int n ++ fp)) (ex - Z.of_nat (length fp)).

Lemma span_digits_app ds r : Forall (λ c, F64.is_digit c = true) ds →
  (∀ c r', r = c :: r' → F64.is_digit c = false) → F64.span_digits (ds ++ r) = (ds, r).
Proof.
  intros Hds Hr. induction Hds as [|c ds Hc _ IH]; simpl.
  - destruct r as [|c r']; [done|]. simpl. by rewrite (Hr c r' eq_refl).
  - by rewrite Hc, IH.
Qed.

Lemma span_digits_all ds : Forall (λ c, F64.is_digit c = true) ds → F64.span_digits ds = (ds, []).
Proof. intros. rewrite <-(app_nil_r ds) at 1. by apply span_digits_app. Qed.

Lemma strtod_exponent_text e : exp_ok e →
  F64.strtod_exponent (exp_text e) =
  (match e with
   | Some (_, sg, ds) =>
       if bool_decide (sg = [45]) then - F64.digits_value 0 ds else F64.digits_value 0 ds
   | None => 0
   end, []).
Proof.
  destruct e as [[[c sg] ds]|]; [|done]. intros (Hc & Hsg & [Hds Hne]). unfold exp_text.
  cbn [F64.strtod_exponent]. replace ((c =? 101) || (c =? 69)) with true
    by (destruct Hc as [->| ->]; done).
  destruct ds as [|d ds]; [done|]. pose proof Hds as [Hd _]%Forall_cons.
  apply is_digit_range in Hd.
  destruct Hsg as [->|[->| ->]]; cbn [app].
  - ztests. by rewrite span_digits_all.
  - cbn [Z.eqb Pos.eqb]. by rewrite span_digits_all.
  - cbn [Z.eqb Pos.eqb]. by rewrite span_digits_all.
Qed.

(** [strtod] reads a whole numeral. *)
Lemma strtod_numeral dp n : dp_ok dp → numeral_ok n →
  F64.strtod dp (numeral_text dp n) = (numeral_float n, []).
Proof.
  intros (_ & Hdp & He & HE) ([Hi Hne] & Hf & Hx). unfold F64.strtod, numeral_text, numeral_float.
  set (t := frac_text dp (nm_frac n) ++ exp_text (nm_exp n)).
  assert (∀ c r, t = c :: r → F64.is_digit c = false) as Ht.
  { intros c r. unfold t. destruct (nm_frac n) as [fp|]; [by intros [= <- _]|].
    destruct (nm_exp n) as [[[e sg] ds]|]; [|done]. destruct Hx as ([->| ->] & _);
      by intros [= <- _]. }
  destruct (nm_int n) as [|d ip] eqn:Ei; [done|]. pose proof Hi as [Hd _]%Forall_cons.
  apply is_digit_range in Hd.
  replace (match (if nm_neg n then [45] else []) ++ (d :: ip) ++ t with
           | [] => (false, (if nm_neg n then [45] else []) ++ (d :: ip) ++ t)
           | c :: s' => if c =? 45 then (true, s')
                        else (false, (if nm_neg n then [45] else []) ++ (d :: ip) ++ t)
           end) with (nm_neg n, (d :: ip) ++ t)
    by (destruct (nm_neg n); cbn [app]; ztests; done).
  rewrite span_digits_app by done. unfold t. destruct (nm_frac n) as [fp|].
  - cbn [frac_text app]. rewrite Z.eqb_refl. destruct Hf as [Hf _].
    rewrite span_digits_app; [by rewrite strtod_exponent_text|done|].
    intros c r. destruct (nm_exp n) as [[[e sg] ds]|]; [|done].
    destruct Hx as ([->| ->] & _); by intros [= <- _].
  - cbn [frac_text app]. destruct (nm_exp n) as [[[e sg] ds]|] eqn:Ee.
    + unfold exp_text at 1. replace (e =? dp) with false by (destruct Hx as ([->| ->] & _); ztests; done).
      change (e :: sg ++ ds) with (exp_text (Some (e, sg, ds))). by rewrite strtod_exponent_text.
    + done.
Qed.

Lemma numeral_float_range n : numeral_ok n → in_u 64 (numeral_float n).
Proof.
  intros ([Hi _] & Hf & _). apply F64.of_decimal_range, F64.digits_value_nonneg; [done|].
  apply Forall_app_2; [done|]. destruct (nm_frac n); simpl in *; [apply Hf|constructor].
Qed.

(** ** Numbers as the serializer writes them *)

Definition integer_numeral (z : Z) : numeral :=
  {| nm_neg := z <? 0; nm_int := digits (Z.abs z); nm_frac := None; nm_exp := None |}.

Lemma integer_numeral_text dp z : to_string z = numeral_text dp (integer_numeral z).
Proof.
  unfold to_string, numeral_text, integer_numeral. simpl. rewrite app_nil_r. case_if.
  - by rewrite Z.abs_neq by lia.
  - by rewrite Z.abs_eq by lia.
Qed.

Lemma integer_numeral_ok z : numeral_ok (integer_numeral z) ∧ is_int (nm_int (integer_numeral z)).
Proof.
  destruct (digits_spec (Z.abs z)) as [Hi _]; [lia|]. split; [|done].
  split; [apply Hi|by split].
Qed.

Lemma Forall_drop_zeros (P : Z → Prop) s : Forall P s → Forall P (F64.drop_zeros s).
Proof.
  induction 1 as [|c s Hc Hs IH]; [constructor|]. cbn [F64.drop_zeros].
  repeat case_match; try by constructor. done.
Qed.

Lemma Forall_trim_zeros (P : Z → Prop) s : Forall P s → Forall P (F64.trim_zeros s).
Proof. intros. unfold F64.trim_zeros. by apply Forall_rev, Forall_drop_zeros, Forall_rev. Qed.

(** The fraction of ["%g"] is absent or a digit sequence. *)
Lemma point_frac dp fp : Forall (λ c, F64.is_digit c = true) fp →
  ∃ f, F64.point dp fp = frac_text dp f ∧ frac_ok f.
Proof.
  intros Hfp. apply Forall_trim_zeros in Hfp. unfold F64.point.
  destruct (F64.trim_zeros fp) as [|c r] eqn:E; [by exists None|].
  exists (Some (c :: r)). split; [done|]. by split.
Qed.

Lemma format_exponent_exp x :
  ∃ sg ds, F64.format_exponent x = exp_text (Some (101, sg, ds)) ∧ exp_ok (Some (101, sg, ds)).
Proof.
  destruct (digits_spec (Z.abs x)) as [[[Hd Hne] _] _]; [lia|]. unfold F64.format_exponent.
  set (ds := if _ <? 2 then _ else _).
  assert (is_digits ds) as Hds.
  { unfold ds. case_if; split; try done. by constructor. }
  exists [if x <? 0 then 45 else 43], ds. split; [done|].
  split; [by left|]. split; [|done]. case_if; auto.
Qed.

Lemma is_int_take n ds : is_int ds → is_int (take (S n) ds).
Proof.
  intros [[Hd Hne] Hi]. destruct ds as [|c ds]; [done|]. split.
  - split; [by apply Forall_take|done].
  - destruct Hi as [Hi|(c' & ds' & [= <- <-] & Hc)].
    + left. injection Hi as -> ->. by rewrite firstn_cons, take_nil.
    + right. by eexists _, _.
Qed.

Lemma round_digits_int p num den : 0 ≤ num → 0 < den → is_int (F64.round_digits p num den).1.
Proof.
  intros Hn Hd. unfold F64.round_digits.
  set (k := p - 1 - _). set (d := if 0 <=? k then _ else _).
  assert (0 ≤ d).
  { unfold d. case_if; apply F64.div_half_even_nonneg; try done.
    - apply Z.mul_nonneg_nonneg; [done|]. apply Z.pow_nonneg. lia.
    - apply Z.mul_pos_pos; [done|]. apply Z.pow_pos_nonneg; lia. }
  case_if; cbn [fst]; apply digits_spec; [|done]. apply Z.div_pos; lia.
Qed.

Lemma magnitude_nonneg b : 0 ≤ (F64.magnitude b).1.
Proof.
  unfold F64.magnitude, F64.mant. pose proof (Z.mod_pos_bound b (2 ^ 52)).
  case_if; cbn [fst]; lia.
Qed.

(** An exponent introduced by a lower case [e]. *)
Definition lower_e (x : option (Z * list Z * list Z)) : Prop :=
  match x with Some (c, _, _) => c = 101 | None => True end.

(** ["%.*g"] prints a JSON number. *)
Lemma format_g_numeral p dp b :
  ∃ n, F64.format_g p dp b = numeral_text dp n ∧ numeral_ok n ∧ is_int (nm_int n) ∧
    lower_e (nm_exp n).
Proof.
  unfold F64.format_g. pose proof (magnitude_nonneg b) as Hm.
  destruct (F64.magnitude b) as [m e]. cbn [fst] in Hm.
  assert (∀ ip f x, is_int ip → frac_ok f → exp_ok x → lower_e x → ∃ n,
    (if F64.signbit b then [45] else []) ++ ip ++ frac_text dp f ++ exp_text x =
      numeral_text dp n ∧ numeral_ok n ∧ is_int (nm_int n) ∧ lower_e (nm_exp n)) as Hmk.
  { intros ip f x Hip Hf Hx Hl.
    exists {| nm_neg := F64.signbit b; nm_int := ip; nm_frac := f; nm_exp := x |}.
    split; [done|]. split; [|done]. by split; [apply Hip|]. }
  destruct (m =? 0).
  { apply (Hmk [48] None None); [|done..]. split; [|by left]. split; [by constructor|done]. }
  assert (∃ num den, (if 0 <=? e then (m * 2 ^ e, 1) else (m, 2 ^ (- e))) = (num, den) ∧
    0 ≤ num ∧ 0 < den) as (num & den & -> & Hnum & Hden).
  { case_if; eexists _, _; (split; [done|]);
      (split; [|first [lia|apply Z.pow_pos_nonneg; lia]]); [|done].
    apply Z.mul_nonneg_nonneg; [done|]. apply Z.pow_nonneg. lia. }
  pose proof (round_digits_int p num den Hnum Hden) as Hds.
  destruct (F64.round_digits p num den) as [ds x]. cbn [fst] in Hds.
  pose proof Hds as [[Hall _] _].
  destruct ((-4 <=? x) && (x <? p)); [destruct (0 <=? x) eqn:Ex; zbool|].
  - destruct (point_frac dp (drop (Z.to_nat (x + 1)) ds)) as (f & -> & Hf); [by apply Forall_drop|].
    replace (Z.to_nat (x + 1)) with (S (Z.to_nat x)) by lia.
    rewrite <-(app_nil_r (frac_text dp f)). by apply (Hmk _ f None); [apply is_int_take|..].
  - destruct (point_frac dp (repeat 48 (Z.to_nat (- x - 1)) ++ ds)) as (f & -> & Hf).
    { apply Forall_app_2; [|done]. apply Forall_forall. intros c Hc.
      apply list_elem_of_In, repeat_spec in Hc. by subst. }
    rewrite <-(app_nil_r (frac_text dp f)). apply (Hmk [48] f None); [|done..].
    split; [|by left]. split; [by constructor|done].
  - destruct (point_frac dp (drop 1 ds)) as (f & -> & Hf); [by apply Forall_drop|].
    destruct (format_exponent_exp x) as (sg & es & -> & Hex).
    by apply (Hmk _ f (Some (101, sg, es))); [apply is_int_take|..].
Qed.

(** [dump_float] of a finite number prints a JSON number with a fraction or an
    exponent. *)
Lemma float_text_numeral b : F64.isfinite b = true →
  ∃ n, float_text 0 46 b = numeral_text 46 n ∧ numeral_ok n ∧ is_int (nm_int n) ∧
    ¬ (nm_frac n = None ∧ nm_exp n = None).
Proof.
  intros Hfin. unfold float_text.
  replace (negb (F64.isfinite b) || F64.isnan b) with false; cycle 1.
  { unfold F64.isnan. unfold F64.isfinite in *. zbool. by ztests. }
  cbn [Z.eqb negb andb Pos.eqb].
  destruct (format_g_numeral 15 46 b) as (n & -> & Hn & Hi & He).
  case_match eqn:E; cycle 1.
  { exists n. split; [done|]. split; [done|]. split; [done|]. intros [Hf Hx].
    apply not_true_iff_false in E. apply E. apply forallb_forall. intros c Hc.
    apply list_elem_of_In in Hc. destruct Hn as [[Hd _] _]. unfold numeral_text in Hc.
    rewrite Hf, Hx in Hc. cbn [frac_text exp_text] in Hc. rewrite !app_nil_r in Hc.
    assert (c = 45 ∨ 48 ≤ c ≤ 57) as Hr.
    { apply elem_of_app in Hc as [Hc|Hc].
      - destruct (nm_neg n); set_solver.
      - right. apply is_digit_range. rewrite Forall_forall in Hd. by apply Hd. }
    by ztests. }
  assert (∀ c, c ∈ numeral_text 46 n → c ≠ 46 ∧ c ≠ 101) as Hno.
  { intros c Hc. rewrite forallb_forall in E. apply list_elem_of_In, E in Hc. zbool. lia. }
  unfold numeral_text in Hno.
  destruct (nm_frac n) as [fp|] eqn:Hf; [destruct (Hno 46); [simpl; set_solver|done]|].
  destruct (nm_exp n) as [[[c sg] ds]|] eqn:Hx.
  { simpl in He. subst c. destruct (Hno 101); [simpl; set_solver|done]. }
  exists {| nm_neg := nm_neg n; nm_int := nm_int n; nm_frac := Some [48]; nm_exp := None |}.
  unfold numeral_text. rewrite Hf, Hx. cbn [nm_neg nm_int nm_frac nm_exp frac_text exp_text].
  split; [by rewrite !app_nil_r, <-app_assoc|]. split; [|split; [done|by intros [? _]]].
  split; [apply Hn|]. split; [|done]. split; [by constructor|done].
Qed.
