(* ===== verification/Utf8.v ===== *)
(** UTF-8 as the Unicode standard defines it, and how the code's tables and bit
    operations relate to it.

    A well-formed string is the encoding of a sequence of scalar values.  The
    lemmas connect this to the byte ranges of the lexer, to the bytes it writes
    for an escape, and to the code points the serializer computes. *)

From S2P Require Import Prelude Float64 JsonValue Adapters Serializer SerializerSpec Lexer.

(** A Unicode scalar value: a code point that is no surrogate. *)
Definition scalar (cp : Z) : Prop := 0 ≤ cp ≤ 0x10FFFF ∧ ¬ 0xD800 ≤ cp ≤ 0xDFFF.

#[global] Instance scalar_dec cp : Decision (scalar cp).
Proof. unfold scalar. apply _. Defined.

Definition utf8_encode (cp : Z) : list Z :=
  if cp <? 0x80 then [cp]
  else if cp <? 0x800 then [0xC0 + cp / 64; 0x80 + cp mod 64]
  else if cp <? 0x10000 then [0xE0 + cp / 4096; 0x80 + cp / 64 mod 64; 0x80 + cp mod 64]
  else [0xF0 + cp / 262144; 0x80 + cp / 4096 mod 64; 0x80 + cp / 64 mod 64; 0x80 + cp mod 64].

Definition utf8_text (cps : list Z) : list Z := concat (utf8_encode <$> cps).

Definition utf8_valid (s : list Z) : Prop := ∃ cps, Forall scalar cps ∧ s = utf8_text cps.

(** [lia] with the quotients and remainders of the goal and the hypotheses. *)
Ltac div_lia := Z.div_mod_to_equations; lia.

Lemma utf8_valid_nil : utf8_valid [].
Proof. by exists []. Qed.

Lemma utf8_valid_snoc s cp : utf8_valid s → scalar cp → utf8_valid (s ++ utf8_encode cp).
Proof.
  intros (cps & Hcps & ->) Hcp. exists (cps ++ [cp]). split.
  - by apply Forall_app_2; [|constructor].
  - unfold utf8_text. rewrite fmap_app, concat_app. simpl. by rewrite app_nil_r.
Qed.

Lemma utf8_encode_bytes cp : scalar cp → is_bytes (utf8_encode cp).
Proof.
  intros [H _]. unfold utf8_encode, is_bytes, is_byte.
  repeat case_if; repeat (constructor; [div_lia|]); constructor.
Qed.

Lemma utf8_valid_bytes s : utf8_valid s → is_bytes s.
Proof.
  intros (cps & Hcps & ->). unfold utf8_text. induction Hcps; [constructor|].
  csimpl. apply Forall_app_2; [by apply utf8_encode_bytes|done].
Qed.

(** ** The lexer's side *)

(** Bytes in the given ranges. *)
Definition in_ranges (bs : list Z) (rs : list (Z * Z)) : Prop :=
  Forall2 (λ b r, r.1 ≤ b ≤ r.2) bs rs.

(** A byte sequence the ranges admit is the encoding of a scalar value. *)
Lemma utf8_ranges_sound c rs bs : utf8_ranges c = Some rs → in_ranges bs rs →
  ∃ cp, scalar cp ∧ 0x80 ≤ cp ∧ utf8_encode cp = c :: bs.
Proof.
  unfold utf8_ranges, in_ranges. intros Hc Hbs.
  assert (∀ cp l, scalar cp → 0x80 ≤ cp → utf8_encode cp = l →
    ∃ cp, scalar cp ∧ 0x80 ≤ cp ∧ utf8_encode cp = l) as Hex by eauto.
  revert Hc. repeat case_if; intros Hc; simplify_eq; repeat match goal with
    | H : Forall2 _ _ (_ :: _) |- _ => apply Forall2_cons_inv_r in H as (? & ? & ? & H & ->); simpl in *
    | H : Forall2 _ _ [] |- _ => apply Forall2_nil_inv_r in H as ->
    | H : (_ || _) = true |- _ => apply orb_prop in H as [H|H]; zbool
    end.
  all: match goal with
    | |- ∃ cp, _ ∧ _ ∧ _ = [?c; ?x] => apply (Hex ((c - 0xC0) * 64 + (x - 0x80)))
    | |- ∃ cp, _ ∧ _ ∧ _ = [?c; ?x; ?y] =>
        apply (Hex ((c - 0xE0) * 4096 + (x - 0x80) * 64 + (y - 0x80)))
    | |- ∃ cp, _ ∧ _ ∧ _ = [?c; ?x; ?y; ?z] =>
        apply (Hex ((c - 0xF0) * 262144 + (x - 0x80) * 4096 + (y - 0x80) * 64 + (z - 0x80)))
    end; [unfold scalar; lia|lia|].
  all: unfold utf8_encode; ztests; repeat f_equal; div_lia.
Qed.

(** Masks and shifts as arithmetic. *)
Lemma land_mod a n : 0 ≤ n → Z.land a (2 ^ n - 1) = a mod 2 ^ n.
Proof. intros. rewrite <-Z.land_ones by done. by rewrite Z.ones_equiv, Z.sub_1_r. Qed.

Lemma lor_tag a k n : 0 ≤ k → 0 ≤ n < 2 ^ k → Z.lor (a * 2 ^ k) n = a * 2 ^ k + n.
Proof. apply lor_disjoint. Qed.

Lemma land_3f a : Z.land a 0x3F = a mod 64.
Proof. exact (land_mod a 6 ltac:(lia)). Qed.
Lemma land_7f a : Z.land a 0x7F = a mod 128.
Proof. exact (land_mod a 7 ltac:(lia)). Qed.
Lemma land_1f a : Z.land a 0x1F = a mod 32.
Proof. exact (land_mod a 5 ltac:(lia)). Qed.
Lemma land_0f a : Z.land a 0xF = a mod 16.
Proof. exact (land_mod a 4 ltac:(lia)). Qed.
Lemma land_3ff a : Z.land a 0x3FF = a mod 1024.
Proof. exact (land_mod a 10 ltac:(lia)). Qed.

Lemma shiftr_div a n k : 0 ≤ n → k = 2 ^ n → Z.shiftr a n = a / k.
Proof. intros ? ->. by apply Z.shiftr_div_pow2. Qed.

Lemma shiftl_mul a n k : 0 ≤ n → k = 2 ^ n → Z.shiftl a n = a * k.
Proof. intros ? ->. by apply Z.shiftl_mul_pow2. Qed.

(** The bytes [scan_string] adds for an escaped code point, as it computes them. *)
Definition codepoint_bytes (cp : Z) : list Z :=
  if cp <? 0x80 then [cp]
  else if cp <=? 0x7ff then [Z.lor 0xC0 (Z.shiftr cp 6); Z.lor 0x80 (Z.land cp 0x3F)]
  else if cp <=? 0xffff then
    [Z.lor 0xE0 (Z.shiftr cp 12); Z.lor 0x80 (Z.land (Z.shiftr cp 6) 0x3F);
     Z.lor 0x80 (Z.land cp 0x3F)]
  else
    [Z.lor 0xF0 (Z.shiftr cp 18); Z.lor 0x80 (Z.land (Z.shiftr cp 12) 0x3F);
     Z.lor 0x80 (Z.land (Z.shiftr cp 6) 0x3F); Z.lor 0x80 (Z.land cp 0x3F)].

Lemma codepoint_bytes_encode cp : 0 ≤ cp ≤ 0x10FFFF → codepoint_bytes cp = utf8_encode cp.
Proof.
  intros Hcp. unfold codepoint_bytes, utf8_encode.
  rewrite !land_3f, (shiftr_div cp 6 64), (shiftr_div cp 12 4096), (shiftr_div cp 18 262144)
    by done.
  assert (∀ x, Z.lor 0x80 (x mod 64) = 0x80 + x mod 64) as H80.
  { intros x. apply (lor_tag 2 6); [lia|]. div_lia. }
  rewrite !H80. repeat case_if; try lia; repeat f_equal.
  - apply (lor_tag 3 6); [lia|]. div_lia.
  - apply (lor_tag 14 4); [lia|]. div_lia.
  - apply (lor_tag 30 3); [lia|]. div_lia.
Qed.

(** ** The serializer's side *)

(** The text of one scalar value. *)
Definition scalar_text (ensure_ascii : bool) (cp : Z) : list Z :=
  if short_escape cp then [92; short_text cp]
  else if control_escape cp then codepoint_text cp
  else if ensure_ascii && (127 <=? cp) then codepoint_text cp
  else utf8_encode cp.

Lemma short_escape_high c : 0x80 ≤ c → short_escape c = false.
Proof. intros. unfold short_escape. by ztests. Qed.

Lemma control_escape_high c : 0x80 ≤ c → control_escape c = false.
Proof. intros. unfold control_escape. by ztests. Qed.

(** Without [ensure_ascii] bytes above 0x7f are copied. *)
Lemma pieces_copy c s : 0x80 ≤ c → pieces false (c :: s) = (Copy c, 1%nat) :: pieces false s.
Proof.
  intros. cbn [pieces]. by rewrite short_escape_high, control_escape_high by done.
Qed.

(** The code points of sequences of two, three and four bytes. *)
Lemma cp2_encode cp : 0x80 ≤ cp < 0x800 → cp2 (0xC0 + cp / 64) (0x80 + cp mod 64) = cp.
Proof.
  intros. unfold cp2. rewrite land_3f, land_7f, (shiftl_mul _ 6 64) by done. div_lia.
Qed.

Lemma cp3_encode cp : 0x800 ≤ cp < 0x10000 →
  cp3 (0xE0 + cp / 4096) (0x80 + cp / 64 mod 64) (0x80 + cp mod 64) = cp.
Proof.
  intros. unfold cp3.
  rewrite land_1f, !land_7f, (shiftl_mul _ 6 64), (shiftl_mul _ 12 4096) by done. div_lia.
Qed.

Lemma cp4_encode cp : 0x10000 ≤ cp ≤ 0x10FFFF →
  cp4 (0xF0 + cp / 262144) (0x80 + cp / 4096 mod 64) (0x80 + cp / 64 mod 64) (0x80 + cp mod 64) = cp.
Proof.
  intros. unfold cp4.
  rewrite land_0f, !land_7f, (shiftl_mul _ 6 64), (shiftl_mul _ 12 4096), (shiftl_mul _ 18 262144)
    by done. div_lia.
Qed.

(** How the code reads one scalar value: an ASCII character, ... *)
Lemma pieces_ascii ea cp s : 0 ≤ cp < 0x80 →
  ∃ p, pieces ea (cp :: s) = p :: pieces ea s ∧ piece_ok p ∧ piece_text p.1 = scalar_text ea cp.
Proof.
  intros Hcp. cbn [pieces]. unfold scalar_text, utf8_encode. ztest.
  destruct (short_escape cp); [by eexists|].
  destruct (control_escape cp); [eexists; split; [done|]; split; [|done]; simpl; lia|].
  rewrite non_ascii_spec by (unfold is_byte; lia). unfold bytes_following. ztest.
  destruct ea; cbn [andb]; [|by eexists].
  destruct (127 <=? cp); eexists; (split; [done|]; split; [|done]; simpl; lia).
Qed.

(** ... or a sequence of bytes above 0x7f. *)
Lemma pieces_multi cp s : 0x80 ≤ cp ≤ 0x10FFFF →
  ∃ n, pieces true (utf8_encode cp ++ s) = (Point cp, n) :: pieces true s ∧ piece_ok (Point cp, n).
Proof.
  intros Hcp. unfold utf8_encode. ztest. repeat case_if; cbn [app pieces].
  all: rewrite short_escape_high, control_escape_high by div_lia.
  all: rewrite non_ascii_spec by (unfold is_byte; div_lia).
  all: rewrite (proj2 (Z.leb_le 127 _)) by div_lia; cbn [andb].
  - replace (bytes_following _) with (Some 1)
      by (unfold bytes_following; rewrite !(proj2 (Z.leb_gt _ _)), !(proj2 (Z.leb_le _ _)) by div_lia; done).
    cbn [Z.eqb]. rewrite cp2_encode by lia. eexists. split; [done|]. simpl. lia.
  - replace (bytes_following _) with (Some 2)
      by (unfold bytes_following; repeat case_if; div_lia || done).
    cbn [Z.eqb]. rewrite cp3_encode by lia. eexists. split; [done|]. simpl. lia.
  - replace (bytes_following _) with (Some 3)
      by (unfold bytes_following; repeat case_if; div_lia || done).
    cbn [Z.eqb]. rewrite cp4_encode by lia. eexists. split; [done|]. simpl. lia.
Qed.

(** Without [ensure_ascii] a sequence of bytes above 0x7f is copied. *)
Lemma pieces_false_multi cp s : 0x80 ≤ cp ≤ 0x10FFFF →
  pieces false (utf8_encode cp ++ s) =
  ((λ c, (Copy c, 1%nat)) <$> utf8_encode cp) ++ pieces false s.
Proof.
  intros Hcp. unfold utf8_encode. ztest.
  repeat case_if; cbn [app]; rewrite !pieces_copy by div_lia; done.
Qed.

Lemma concat_copy (l : list Z) :
  concat ((λ p, piece_text p.1) <$> ((λ c, (Copy c, 1%nat)) <$> l)) = l.
Proof. induction l as [|c l IH]; [done|]. csimpl. by rewrite IH. Qed.

Lemma pieces_scalar ea cp s : scalar cp →
  ∃ ps, pieces ea (utf8_encode cp ++ s) = ps ++ pieces ea s ∧ Forall piece_ok ps ∧
    concat ((λ p, piece_text p.1) <$> ps) = scalar_text ea cp.
Proof.
  intros [Hcp _]. destruct (decide (cp < 0x80)) as [Hlt|Hge].
  - unfold utf8_encode. ztest. destruct (pieces_ascii ea cp s) as (p & Hp & Hok & Ht); [lia|].
    exists [p]. split; [done|]. split; [by constructor|]. csimpl. by rewrite app_nil_r.
  - unfold scalar_text. rewrite short_escape_high, control_escape_high by lia. ztest. destruct ea.
    + destruct (pieces_multi cp s) as (n & Hp & Hok); [lia|]. exists [(Point cp, n)].
      split; [done|]. split; [by constructor|]. csimpl. by rewrite app_nil_r.
    + eexists. split; [apply pieces_false_multi; lia|]. split; [|apply concat_copy].
      apply Forall_fmap. by apply Forall_true.
Qed.

(** The escaped text of a well-formed string, scalar value by scalar value. *)
Lemma escape_utf8 ea cps : Forall scalar cps →
  escapable (utf8_text cps) ea ∧
  escape_text (utf8_text cps) ea = concat (scalar_text ea <$> cps).
Proof.
  unfold escapable, escape_text, utf8_text. induction 1 as [|cp cps Hcp _ [IH1 IH2]]; [done|].
  rewrite fmap_cons. cbn [concat].
  destruct (pieces_scalar ea cp (concat (utf8_encode <$> cps)) Hcp) as (ps & -> & Hok & Ht).
  split; [by apply Forall_app_2|]. by rewrite fmap_app, concat_app, Ht, IH2.
Qed.

Lemma utf8_escapable ea s : utf8_valid s → escapable s ea.
Proof. intros (cps & Hcps & ->). by apply escape_utf8. Qed.

(** With [ensure_ascii] the text is printable ASCII. *)
Definition printable (c : Z) : Prop := 32 ≤ c < 127.

Lemma hexify_printable d : 0 ≤ d < 16 → printable (hexify d).
Proof. intros. unfold hexify, hexdigit, printable. case_if; lia. Qed.

Lemma u16_text_printable u : Forall printable (u16_text u).
Proof.
  unfold u16_text. rewrite !land_0f.
  repeat (constructor; [first [unfold printable; lia | apply hexify_printable; div_lia]|]).
  constructor.
Qed.

Lemma codepoint_text_printable cp : Forall printable (codepoint_text cp).
Proof. unfold codepoint_text. case_if; auto using Forall_app_2, u16_text_printable. Qed.

Lemma scalar_text_printable cp : scalar cp → Forall printable (scalar_text true cp).
Proof.
  intros [Hcp _]. unfold scalar_text. cbn [andb]. destruct (short_escape cp) eqn:Es.
  { unfold short_escape in Es. repeat (apply orb_prop in Es as [Es|Es]); zbool; subst;
      repeat (constructor; [by split|]); constructor. }
  destruct (control_escape cp) eqn:Ec; [apply codepoint_text_printable|].
  case_if; [apply codepoint_text_printable|]. unfold utf8_encode. ztest.
  constructor; [|constructor]. unfold short_escape in Es. unfold control_escape in Ec.
  unfold printable. destruct (decide (cp < 32)); [|lia]. exfalso. zbool.
  repeat match goal with H : (_ && _) = false |- _ => apply andb_false_iff in H as [H|H]; zbool end;
    lia.
Qed.
