(* ===== verification/LexerTotal.v ===== *)
(** The lexer on every input: [scan] returns a token, no assertion fails, it
    never gives back more than it took, the strings it accepts are well-formed
    UTF-8 and the numbers it stores fit their types.

    Over any input adapter whose pending characters are bytes. *)

From S2P Require Import Prelude Float64 JsonValue Adapters Serializer SerializerSpec Lexer.
From S2P Require Import Numeral Utf8.

Section total.
Context {A : Type} `{InputAdapter A}.

Abbreviation L := (M exn (lexer A)).
Abbreviation inp l := (pending (lx_ia l)).

(** A lexer in use: bytes to come, and a usable decimal point. *)
Definition lex_ok (l : lexer A) : Prop :=
  is_bytes (inp l) ∧ dp_ok (lx_decimal_point_char l).

(** [l'] is [l] after some characters. *)
Definition adv (l l' : lexer A) : Prop :=
  (∃ cs, inp l = cs ++ inp l') ∧ lx_decimal_point_char l' = lx_decimal_point_char l.

Lemma adv_refl l : adv l l.
Proof. split; [|done]. by exists []. Qed.

Lemma adv_trans l1 l2 l3 : adv l1 l2 → adv l2 l3 → adv l1 l3.
Proof.
  intros [[c1 H1] E1] [[c2 H2] E2]. split; [|congruence].
  exists (c1 ++ c2). by rewrite H1, H2, app_assoc.
Qed.

Lemma adv_ok l l' : adv l l' → lex_ok l → lex_ok l'.
Proof.
  intros [[cs Hc] E] [Hb Hd]. unfold lex_ok. rewrite E. split; [|done].
  rewrite Hc in Hb. by apply Forall_app in Hb as [_ ?].
Qed.

Lemma adv_length l l' : adv l l' → (length (inp l') ≤ length (inp l))%nat.
Proof. intros [[cs Hc] _]. rewrite Hc, length_app. lia. Qed.

(** No exception. *)
Abbreviation safe := (wp (λ _ : exn, False)).

(** What [get] does. *)
Definition got (l : lexer A) (c : Z) (l' : lexer A) : Prop :=
  ((inp l = [] ∧ c = eof ∧ lx_ia l' = lx_ia l) ∨
   (inp l = c :: inp l' ∧ is_byte c ∧ unget_character (lx_ia l') = lx_ia l ∧
    lx_token_string l' ≠ [])) ∧
  lx_current l' = c ∧ lx_yytext l' = lx_yytext l ∧
  lx_decimal_point_char l' = lx_decimal_point_char l.

Lemma get_got l : lex_ok l → ∃ c l', get l = Ok (c, l') ∧ got l c l'.
Proof.
  intros [Hb _]. unfold get, got. destruct (inp l) as [|c r] eqn:E.
  - rewrite (get_character_eof _ E). eexists _, _. split; [done|]. split; [|done]. by left.
  - destruct (get_character_byte _ _ _ E) as (a & -> & Hr & Hu). eexists _, _.
    split; [done|]. split; [|done]. right. apply Forall_cons in Hb as [Hc _].
    cbn. rewrite Hr. split; [done|]. split; [done|]. split; [done|].
    unfold is_byte, eof in *. ztests. by destruct (lx_token_string l).
Qed.

Lemma got_adv l c l' : got l c l' → adv l l'.
Proof.
  intros ([(E & -> & Hia)|(E & _)] & _ & _ & Hd); split; try done.
  - exists []. by rewrite Hia.
  - by exists [c].
Qed.

(** A character other than [eof] makes the rest shorter. *)
Lemma got_lt l c l' : got l c l' → c ≠ eof → (length (inp l') < length (inp l))%nat.
Proof. intros ([(_ & -> & _)|(E & _)] & _) Hc; [done|]. rewrite E. simpl. lia. Qed.

Lemma got_byte l c l' : got l c l' → c ≠ eof → is_byte c.
Proof. intros ([(_ & -> & _)|(_ & ? & _)] & _) Hc; done. Qed.

Lemma safe_get {T} (k : Z → L T) Q l :
  lex_ok l → (∀ c l', got l c l' → lex_ok l' → safe (k c) Q l') → safe (get ≫= k) Q l.
Proof.
  intros Hl Hk. destruct (get_got l Hl) as (c & l' & E & Hg). apply wp_bind.
  unfold wp at 1. rewrite E. apply Hk; [done|]. eapply adv_ok; [by eapply got_adv|done].
Qed.

(** [add] appends to [yytext]. *)
Definition added (l : lexer A) (bs : list Z) (l' : lexer A) : Prop :=
  lx_ia l' = lx_ia l ∧ lx_yytext l' = lx_yytext l ++ bs ∧
  lx_decimal_point_char l' = lx_decimal_point_char l.

Lemma added_adv l bs l' : added l bs l' → adv l l'.
Proof. intros (E & _ & Hd). split; [|done]. exists []. by rewrite E. Qed.

Lemma added_app l1 b1 l2 b2 l3 : added l1 b1 l2 → added l2 b2 l3 → added l1 (b1 ++ b2) l3.
Proof.
  intros (E1 & Y1 & D1) (E2 & Y2 & D2). unfold added. rewrite E2, Y2, Y1, D2, app_assoc. done.
Qed.

Lemma safe_add {T} c (k : () → L T) Q l : is_byte c →
  (∀ l', added l [c] l' → safe (k ()) Q l') → safe (add c ≫= k) Q l.
Proof.
  intros Hc Hk. apply wp_bind. unfold wp at 1, add. apply Hk.
  unfold added. cbn. rewrite uwrap_small by (unfold in_u, is_byte in *; lia). done.
Qed.

Lemma safe_error {T} msg (k : token_type → L T) Q l :
  (∀ l', adv l l' → safe (k tok_parse_error) Q l') → safe (error msg ≫= k) Q l.
Proof. intros Hk. apply wp_bind. apply Hk. split; [|done]. by exists []. Qed.

Lemma safe_error_ret msg (Q : token_type → lexer A → Prop) l :
  (∀ l', adv l l' → Q tok_parse_error l') → safe (error msg) Q l.
Proof. intros HQ. apply HQ. split; [|done]. by exists []. Qed.

Lemma safe_assert {T} b (k : () → L T) Q l :
  b = true → safe (k ()) Q l → safe (assert b assert_failure ≫= k) Q l.
Proof. by intros ->. Qed.

Hint Resolve adv_refl adv_trans got_adv added_adv : lex.

(** ** Strings *)

Lemma hex_value_range c d : hex_value c = Some d → 0 ≤ d < 16.
Proof. unfold hex_value. repeat case_if; intros; simplify_eq; lia. Qed.

(** The code point stays within sixteen bits. *)
Lemma safe_codepoint_loop fs cp l (Q : Z → lexer A → Prop) : lex_ok l →
  Forall (λ f, 0 ≤ f) fs → 0 ≤ cp → cp + foldr (λ f s, 15 * 2 ^ f + s) 0 fs ≤ 0xFFFF →
  (∀ cp l', adv l l' → lx_yytext l' = lx_yytext l → cp = -1 ∨ 0 ≤ cp ≤ 0xFFFF → Q cp l') →
  safe (get_codepoint_loop fs cp) Q l.
Proof.
  intros Hl Hfs. revert cp l Hl. induction Hfs as [|f fs Hf _ IH]; intros cp l Hl Hcp Hb HQ;
    cbn [get_codepoint_loop foldr] in *.
  - apply safe_assert; [by ztests|]. apply HQ; auto with lex. lia.
  - apply safe_get; [done|]. intros c l' Hg Hl'. destruct (hex_value c) as [d|] eqn:Ed.
    + apply hex_value_range in Ed. pose proof (Z.pow_pos_nonneg 2 f).
      rewrite Z.shiftl_mul_pow2 by done.
      assert (d * 2 ^ f ≤ 15 * 2 ^ f) by (apply Z.mul_le_mono_nonneg_r; lia).
      assert (0 ≤ d * 2 ^ f) by (apply Z.mul_nonneg_nonneg; lia).
      apply IH; [done|lia..|]. intros cp' l2 Ha Hy. apply HQ; [eauto 10 with lex|].
      destruct Hg as (_ & _ & Hy' & _). congruence.
    + apply HQ; [eauto 10 with lex| |auto]. by destruct Hg as (_ & _ & ? & _).
Qed.

Lemma safe_codepoint l (Q : Z → lexer A → Prop) : lex_ok l → lx_current l = 117 →
  (∀ cp l', adv l l' → lx_yytext l' = lx_yytext l → cp = -1 ∨ 0 ≤ cp ≤ 0xFFFF → Q cp l') →
  safe get_codepoint Q l.
Proof.
  intros Hl Hc HQ. unfold get_codepoint. apply wp_bind, wp_gets. apply safe_assert; [by rewrite Hc|].
  apply safe_codepoint_loop; [done|repeat constructor; lia|done..].
Qed.

Lemma safe_bytes_in_ranges rs l (Q : bool → lexer A → Prop) : lex_ok l →
  Forall (λ r, 0 ≤ r.1) rs →
  (∀ bs l', adv l l' → lx_yytext l' = lx_yytext l ++ bs → in_ranges bs rs → Q true l') →
  (∀ l', adv l l' → Q false l') →
  safe (bytes_in_ranges rs) Q l.
Proof.
  intros Hl Hrs. revert l Q Hl.
  induction Hrs as [|[lo hi] rs Hlo _ IH]; intros l Q Hl HT HF; cbn [bytes_in_ranges].
  - apply (HT []); [auto with lex|by rewrite app_nil_r|constructor].
  - apply safe_get; [done|]. intros c l1 Hg Hl1.
    destruct ((lo <=? c) && (c <=? hi)) eqn:E; zbool; cycle 1.
    { apply safe_error. intros l2 Ha. apply HF. eauto 10 with lex. }
    simpl in Hlo. apply safe_add; [eapply got_byte; [done|unfold eof; lia]|].
    intros l2 Ha2. apply IH; [by eapply adv_ok; [by eapply added_adv|]|..].
    + intros bs l3 Ha3 Hy3 Hbs. apply (HT (c :: bs)); [eauto 10 with lex| |by constructor].
      destruct Ha2 as (_ & Hy2 & _), Hg as (_ & _ & Hy1 & _).
      rewrite Hy3, Hy2, Hy1, <-app_assoc. done.
    + intros l3 Ha3. apply HF. eauto 10 with lex.
Qed.

Lemma utf8_ranges_pos c rs : utf8_ranges c = Some rs → Forall (λ r, 0 ≤ r.1) rs.
Proof.
  unfold utf8_ranges. repeat case_if; intros; simplify_eq;
    repeat (constructor; [simpl; lia|]); constructor.
Qed.

(** A multi-byte character adds the encoding of a scalar value. *)
Lemma safe_next_byte_in_range c rs l (Q : bool → lexer A → Prop) : lex_ok l →
  lx_current l = c → is_byte c → utf8_ranges c = Some rs →
  (∀ cp l', adv l l' → scalar cp → lx_yytext l' = lx_yytext l ++ utf8_encode cp → Q true l') →
  (∀ l', adv l l' → Q false l') →
  safe (next_byte_in_range rs) Q l.
Proof.
  intros Hl Hc Hb Hrs HT HF. unfold next_byte_in_range. apply wp_bind, wp_gets. rewrite Hc.
  apply safe_add; [done|]. intros l1 Ha1. apply safe_bytes_in_ranges.
  - eapply adv_ok; [by eapply added_adv|done].
  - by eapply utf8_ranges_pos.
  - intros bs l2 Ha2 Hy Hbs.
    destruct (utf8_ranges_sound c rs bs Hrs Hbs) as (cp & Hcp & _ & Henc).
    apply (HT cp); [eauto 10 with lex|done|]. destruct Ha1 as (_ & Hy1 & _).
    rewrite Hy, Hy1, Henc, <-app_assoc. done.
  - intros l2 Ha2. apply HF. eauto 10 with lex.
Qed.

Lemma safe_adds {T} bs (k : L T) Q l : Forall is_byte bs →
  (∀ l', added l bs l' → safe k Q l') →
  safe (foldr (λ b m, add b ;; m) k bs) Q l.
Proof.
  intros Hbs. revert l. induction Hbs as [|b bs Hb _ IH]; intros l Hk.
  - apply Hk. unfold added. by rewrite app_nil_r.
  - apply safe_add; [done|]. intros l1 H1. apply IH. intros l2 H2. apply Hk.
    by apply (added_app _ [b] l1).
Qed.

(** [add_codepoint] is a sequence of [add]s. *)
Lemma add_codepoint_adds {T} cp (k : () → L T) l : 0 ≤ cp ≤ 0x10FFFF →
  (add_codepoint cp ≫= k) l = foldr (λ b m, add b ;; m) (k ()) (codepoint_bytes cp) l.
Proof.
  intros Hcp. unfold add_codepoint, codepoint_bytes, assert.
  rewrite (proj2 (Z.leb_le 0 cp)), (proj2 (Z.leb_le cp 0x10FFFF)) by lia. cbn [andb].
  destruct (cp <? 0x80); [done|]. destruct (cp <=? 0x7ff); [done|].
  by destruct (cp <=? 0xffff).
Qed.

Lemma safe_add_codepoint {T} cp (k : () → L T) Q l : 0 ≤ cp ≤ 0x10FFFF → scalar cp →
  (∀ l', added l (utf8_encode cp) l' → safe (k ()) Q l') →
  safe (add_codepoint cp ≫= k) Q l.
Proof.
  intros Hr Hcp Hk. unfold wp at 1. rewrite add_codepoint_adds, codepoint_bytes_encode by done.
  apply safe_adds; [by apply utf8_encode_bytes|done].
Qed.

(** The outcome of reading one character of a string. *)
Definition string_step (l : lexer A) (ok : bool) (l' : lexer A) : Prop :=
  adv l l' ∧
  (ok = true → ∃ cp, scalar cp ∧ lx_yytext l' = lx_yytext l ++ utf8_encode cp).

Lemma safe_failure msg l0 l : adv l0 l →
  safe (error msg ;; mret false) (string_step l0) l.
Proof. intros Ha. apply safe_error. intros l' Ha'. split; [eauto 10 with lex|done]. Qed.

Lemma safe_success cp l0 l : adv l0 l → lx_yytext l = lx_yytext l0 → scalar cp →
  safe (add_codepoint cp ;; mret true) (string_step l0) l.
Proof.
  intros Ha Hy Hcp. apply safe_add_codepoint; [apply Hcp|done|]. intros l' Ha'.
  split; [eauto 10 with lex|]. intros _. exists cp. split; [done|].
  destruct Ha' as (_ & Hy' & _). by rewrite Hy', Hy.
Qed.

Lemma safe_unicode_escape l0 l : lex_ok l → adv l0 l → lx_yytext l = lx_yytext l0 →
  lx_current l = 117 → safe scan_unicode_escape (string_step l0) l.
Proof.
  intros Hl Ha Hy Hc. unfold scan_unicode_escape. apply wp_bind.
  apply safe_codepoint; [done..|]. intros cp1 l1 Ha1 Hy1 Hcp1.
  assert (lex_ok l1) by eauto using adv_ok.
  case_if; [apply safe_failure; eauto 10 with lex|].
  case_if; cycle 1.
  { case_if; [apply safe_failure; eauto 10 with lex|].
    apply safe_success; [eauto 10 with lex|congruence|]. split; [lia|].
    intros ?. repeat match goal with
      | H : (_ && _) = false |- _ => apply andb_false_iff in H as [H|H]; zbool
      end; lia. }
  apply safe_get; [done|]. intros c2 l2 Hg2 Hl2. case_if; [apply safe_failure; eauto 10 with lex|].
  apply safe_get; [done|]. intros c3 l3 Hg3 Hl3. case_if; [apply safe_failure; eauto 10 with lex|].
  apply wp_bind. apply safe_codepoint; [done|by destruct Hg3 as (_ & -> & _)|].
  intros cp2 l4 Ha4 Hy4 Hcp2.
  case_if; [apply safe_failure; eauto 10 with lex|].
  case_if; [|apply safe_failure; eauto 10 with lex].
  apply safe_success; [eauto 10 with lex| |].
  - destruct Hg2 as (_ & _ & Hy2 & _), Hg3 as (_ & _ & Hy3 & _). congruence.
  - rewrite Z.shiftl_mul_pow2 by lia. unfold scalar. lia.
Qed.

Lemma unescape_scalar c d : unescape c = Some d → scalar d ∧ utf8_encode d = [d] ∧ is_byte d.
Proof.
  unfold unescape. repeat case_if; intros; simplify_eq; unfold scalar, is_byte; split_and!; try done; lia.
Qed.

Lemma safe_escape l : lex_ok l → safe scan_escape (string_step l) l.
Proof.
  intros Hl. unfold scan_escape. apply safe_get; [done|]. intros c l1 Hg Hl1.
  destruct (unescape c) as [d|] eqn:Ed.
  - apply unescape_scalar in Ed as (Hd & Henc & Hb). apply safe_add; [done|].
    intros l2 Ha2. split; [eauto 10 with lex|]. intros _. exists d. split; [done|].
    destruct Ha2 as (_ & Hy2 & _), Hg as (_ & _ & Hy1 & _). by rewrite Hy2, Hy1, Henc.
  - case_if; [|apply safe_failure; eauto 10 with lex]. subst.
    apply safe_unicode_escape; [done|eauto 10 with lex|..]; apply Hg.
Qed.

(** What a scanned token guarantees. *)
Definition token_ok (t : token_type) (l : lexer A) : Prop :=
  match t with
  | value_string => utf8_valid (lx_yytext l)
  | value_unsigned => in_u 64 (lx_value_unsigned l)
  | value_integer => in_s 64 (lx_value_integer l)
  | value_float => in_u 64 (lx_value_float l)
  | uninitialized | literal_or_value => False
  | _ => True
  end.

Definition scanned (l : lexer A) (t : token_type) (l' : lexer A) : Prop :=
  adv l l' ∧ token_ok t l'.

Lemma scanned_trans l l1 t l2 : adv l l1 → scanned l1 t l2 → scanned l t l2.
Proof. intros Ha [Ha2 Ht]. split; [eauto 10 with lex|done]. Qed.

Lemma safe_error_token msg l0 l : adv l0 l → safe (error msg) (scanned l0) l.
Proof. intros Ha. apply safe_error_ret. intros l' Ha'. split; [eauto 10 with lex|done]. Qed.

Lemma safe_string_loop fuel l : lex_ok l → (length (inp l) < fuel)%nat →
  utf8_valid (lx_yytext l) → safe (scan_string_loop fuel) (scanned l) l.
Proof.
  revert l. induction fuel as [|fuel IH]; intros l Hl Hf Hy; [lia|].
  cbn [scan_string_loop]. apply safe_get; [done|]. intros c l1 Hg Hl1.
  pose proof Hg as (_ & Hc1 & Hy1 & _).
  destruct (c =? eof) eqn:Ee; [apply safe_error_token; eauto 10 with lex|]. zbool.
  pose proof (got_lt _ _ _ Hg Ee) as Hlt. pose proof (got_byte _ _ _ Hg Ee) as Hb.
  (* The loop goes on after a step that consumed a character. *)
  assert (∀ (ok : bool) l2, string_step l1 ok l2 →
    safe (if ok then scan_string_loop fuel else mret tok_parse_error) (scanned l) l2) as Hgo.
  { intros ok l2 [Ha2 Hok]. destruct ok; [|split; [eauto 10 with lex|done]].
    destruct (Hok eq_refl) as (cp & Hcp & Hy2). pose proof (adv_length _ _ Ha2).
    eapply wp_mono; [apply IH|intros; eapply scanned_trans; [|done]; eauto 10 with lex].
    - eauto using adv_ok.
    - lia.
    - rewrite Hy2, Hy1. by apply utf8_valid_snoc. }
  case_if; [split; [eauto 10 with lex|]; simpl; by rewrite Hy1|].
  case_if.
  { apply wp_bind. eapply wp_mono; [by apply safe_escape|exact Hgo]. }
  case_if; [apply safe_error_token; eauto 10 with lex|].
  case_if.
  { apply safe_add; [done|]. intros l2 Ha2. apply (Hgo true). split; [eauto 10 with lex|].
    intros _. exists c. split; [unfold scalar; lia|]. destruct Ha2 as (_ & Hy2 & _).
    rewrite Hy2. unfold utf8_encode. by ztest. }
  destruct (utf8_ranges c) as [rs|] eqn:Er; [|apply safe_error_token; eauto 10 with lex].
  apply wp_bind. eapply safe_next_byte_in_range; [done|done|done|done|..].
  - intros cp l2 Ha2 Hcp Hy2. apply (Hgo true). split; [done|]. eauto.
  - intros l2 Ha2. apply (Hgo false). by split.
Qed.

Lemma safe_scan_string fuel l : lex_ok l → lx_current l = 34 → (length (inp l) < fuel)%nat →
  safe (scan_string fuel) (scanned l) l.
Proof.
  intros Hl Hc Hf. unfold scan_string. apply wp_bind. unfold wp, reset at 1.
  apply wp_bind, wp_gets. cbn [lx_current]. apply safe_assert; [by rewrite Hc|].
  eapply wp_mono; [apply safe_string_loop; [done|done|apply utf8_valid_nil]|].
  intros t l' Ht. eapply scanned_trans; [|done]. split; [|done]. by exists [].
Qed.

(** ** Numbers *)

(** Between two characters of a number: the numeral read so far. *)
Definition reading (l0 : lexer A) (n : numeral) (l : lexer A) : Prop :=
  adv l0 l ∧ lex_ok l ∧ numeral_ok n ∧
  lx_yytext l = numeral_text (lx_decimal_point_char l) n.

(** [number_type] as the labels set it. *)
Definition type_of_numeral (n : numeral) : token_type :=
  match nm_frac n, nm_exp n with
  | None, None => if nm_neg n then value_integer else value_unsigned
  | _, _ => value_float
  end.

Lemma safe_number_float l0 n l : reading l0 n l → safe scan_number_float (scanned l0) l.
Proof.
  intros (Ha & [Hb Hd] & Hn & Hy). unfold scan_number_float.
  apply wp_bind, wp_gets, wp_bind, wp_gets. rewrite Hy, strtod_numeral by done.
  apply wp_bind. unfold wp, set_float at 1. apply safe_assert; [done|].
  split; [|by apply numeral_float_range]. eapply adv_trans; [done|]. split; [|done]. by exists [].
Qed.

(** [unget] restores the input. *)
Lemma safe_unget {T} l1 c l2 (k : () → L T) Q : got l1 c l2 →
  (∀ l3, lx_ia l3 = lx_ia l1 → lx_yytext l3 = lx_yytext l2 →
     lx_decimal_point_char l3 = lx_decimal_point_char l2 → safe (k ()) Q l3) →
  safe (unget ≫= k) Q l2.
Proof.
  intros Hg Hk. apply wp_bind. unfold wp at 1, unget.
  destruct Hg as ([(Hp & -> & Hia)|(Hp & Hb & Hu & Hts)] & Hc & _); rewrite Hc.
  - cbn. by apply Hk.
  - unfold is_byte, eof in *. ztests. rewrite bool_decide_false by done. cbn. by apply Hk.
Qed.

Lemma strtoull_digits ds : is_digits ds → ∃ x b, strtoull ds = (x, b, []) ∧ in_u 64 x.
Proof.
  intros [Hds _]. unfold strtoull. rewrite span_digits_all by done.
  pose proof (F64.digits_value_nonneg 0 ds ltac:(lia) Hds).
  case_if; eexists _, _; (split; [done|]); unfold in_u; lia.
Qed.

Lemma strtoll_digits ds : is_digits ds → ∃ x b, strtoll (45 :: ds) = (x, b, []) ∧ in_s 64 x.
Proof.
  intros [Hds _]. unfold strtoll. cbn [Z.eqb Pos.eqb]. rewrite span_digits_all by done.
  repeat case_if; eexists _, _; (split; [done|]); unfold in_s; lia.
Qed.

Lemma safe_number_done l0 n l1 c l2 : reading l0 n l1 → got l1 c l2 →
  safe (scan_number_done (type_of_numeral n)) (scanned l0) l2.
Proof.
  intros Hr Hg. unfold scan_number_done. eapply safe_unget; [done|].
  intros l3 Hia Hy3 Hd3. destruct Hg as (_ & _ & Hy2 & Hd2).
  assert (reading l0 n l3) as Hr3.
  { destruct Hr as (Ha & Hl & Hn & Hy). unfold reading, lex_ok, adv in *.
    rewrite Hia, Hy3, Hy2, Hd3, Hd2. done. }
  apply wp_bind, wp_gets.
  pose proof Hr3 as (Ha & Hl & Hn & Hy). pose proof Hn as (Hi & _).
  unfold type_of_numeral. unfold numeral_text in Hy.
  destruct (nm_frac n); [by eapply safe_number_float|].
  destruct (nm_exp n); [by eapply safe_number_float|].
  cbn [frac_text exp_text] in Hy. rewrite !app_nil_r in Hy.
  destruct (nm_neg n); cbn [app] in Hy; rewrite Hy.
  - destruct (strtoll_digits (nm_int n) Hi) as (x & b & -> & Hx).
    apply safe_assert; [done|]. destruct b; [by eapply safe_number_float|].
    rewrite swrap_small, Z.eqb_refl by done.
    split; [|done]. eapply adv_trans; [done|]. split; [|done]. by exists [].
  - destruct (strtoull_digits (nm_int n) Hi) as (x & b & -> & Hx).
    apply safe_assert; [done|]. destruct b; [by eapply safe_number_float|].
    rewrite uwrap_small, Z.eqb_refl by done.
    split; [|done]. eapply adv_trans; [done|]. split; [|done]. by exists [].
Qed.

(** Equality of concatenations. *)
Ltac app_simpl := simpl; rewrite ?app_nil_r, <-?app_assoc; simpl; rewrite <-?app_assoc; done.

(** Reading on: one more character of the numeral [n'], which extends [n]. *)
Lemma reading_step l0 n l1 c l2 b l3 n' : reading l0 n l1 → got l1 c l2 → added l2 [b] l3 →
  numeral_ok n' → numeral_text (lx_decimal_point_char l1) n' =
    numeral_text (lx_decimal_point_char l1) n ++ [b] →
  reading l0 n' l3.
Proof.
  intros (Ha & Hl & Hn & Hy) Hg Had Hn' Ht.
  assert (adv l1 l3) as Ha13 by eauto 10 with lex.
  split; [eauto with lex|]. split; [eauto using adv_ok|]. split; [done|].
  destruct Had as (_ & Hy3 & Hd3), Hg as (_ & _ & Hy2 & Hd2).
  by rewrite Hy3, Hy2, Hy, Hd3, Hd2, Ht.
Qed.

Lemma is_digits_snoc ds c : is_digits ds → F64.is_digit c = true → is_digits (ds ++ [c]).
Proof.
  intros [Hds Hne] Hc. split; [|by destruct ds]. apply Forall_app_2; [done|by constructor].
Qed.

Lemma digit_byte c : F64.is_digit c = true → is_byte c ∧ c ≠ eof.
Proof. rewrite is_digit_range. unfold is_byte, eof. lia. Qed.

Lemma safe_number_any2 fuel l0 neg ip fr e sg ds l :
  let n := {| nm_neg := neg; nm_int := ip; nm_frac := fr; nm_exp := Some (e, sg, ds) |} in
  reading l0 n l → (length (inp l) < fuel)%nat →
  safe (scan_number_any2 fuel value_float) (scanned l0) l.
Proof.
  revert ds l. induction fuel as [|fuel IH]; intros ds l n Hr Hf; [lia|].
  cbn [scan_number_any2]. apply safe_get; [apply Hr|]. intros c l1 Hg Hl1. case_if.
  - destruct (digit_byte c E). apply safe_add; [done|]. intros l2 Ha2.
    pose proof (got_lt _ _ _ Hg). pose proof (adv_length _ _ (added_adv _ _ _ Ha2)).
    apply (IH (ds ++ [c])); [|lia].
    pose proof Hr as (Ha & Hl & (Hi & Hfr & He & Hsg & Hds) & Hy).
    eapply reading_step; [exact Hr|done..| |].
    + exact (conj Hi (conj Hfr (conj He (conj Hsg (is_digits_snoc _ _ Hds E))))).
    + unfold numeral_text, n. app_simpl.
  - replace value_float with (type_of_numeral n); [by eapply safe_number_done|].
    unfold type_of_numeral, n. simpl. by destruct fr.
Qed.

(** After the [e] of an exponent: [yytext] is a numeral and one more character. *)
Definition reading_exp (l0 : lexer A) (n : numeral) (sg : list Z) (l : lexer A) : Prop :=
  adv l0 l ∧ lex_ok l ∧ numeral_ok n ∧ nm_exp n = None ∧
  ∃ e, (e = 101 ∨ e = 69) ∧
    lx_yytext l = numeral_text (lx_decimal_point_char l) n ++ e :: sg.

Lemma is_digits_one c : F64.is_digit c = true → is_digits [c].
Proof. intros Hc. split; [by constructor|done]. Qed.

(** The first digit of an exponent. *)
Lemma safe_exp_digit fuel l0 n sg l c l1 : reading_exp l0 n sg l →
  (sg = [] ∨ sg = [43] ∨ sg = [45]) → got l c l1 → F64.is_digit c = true →
  (length (inp l) ≤ fuel)%nat →
  safe (add c ;; scan_number_any2 fuel value_float) (scanned l0) l1.
Proof.
  intros (Ha & Hl & (Hi & Hfr & _) & Hne & e & He & Hy) Hsg Hg Hc Hf.
  destruct (digit_byte c Hc). apply safe_add; [done|]. intros l2 Ha2.
  pose proof (got_lt _ _ _ Hg). pose proof (adv_length _ _ (added_adv _ _ _ Ha2)).
  apply (safe_number_any2 _ _ (nm_neg n) (nm_int n) (nm_frac n) e sg [c]); [|lia].
  assert (adv l l2) as Hal by eauto 10 with lex.
  split; [eauto with lex|]. split; [eauto using adv_ok|]. split.
  { exact (conj Hi (conj Hfr (conj He (conj Hsg (is_digits_one _ Hc))))). }
  destruct Ha2 as (_ & Hy2 & Hd2), Hg as (_ & _ & Hy1 & Hd1).
  rewrite Hy2, Hy1, Hy, Hd2, Hd1. unfold numeral_text. rewrite Hne. app_simpl.
Qed.

Lemma safe_number_exponent fuel l0 n l : reading_exp l0 n [] l → (length (inp l) ≤ fuel)%nat →
  safe (scan_number_exponent fuel) (scanned l0) l.
Proof.
  intros Hr Hf. unfold scan_number_exponent. apply safe_get; [apply Hr|]. intros c l1 Hg Hl1.
  case_if.
  - assert (is_byte c ∧ c ≠ eof ∧ (c = 43 ∨ c = 45)) as (Hb & Hne & Hs).
    { apply orb_prop in E as [E|E]; zbool; subst; unfold is_byte, eof; lia. }
    apply safe_add; [done|]. intros l2 Ha2. unfold scan_number_sign.
    assert (reading_exp l0 n [c] l2) as Hr2.
    { destruct Hr as (Ha & Hl & Hn & Hx & e & He & Hy).
      assert (adv l l2) as Hal by eauto 10 with lex.
      split; [eauto with lex|]. split; [eauto using adv_ok|]. split; [done|]. split; [done|].
      exists e. split; [done|]. destruct Ha2 as (_ & Hy2 & Hd2), Hg as (_ & _ & Hy1 & Hd1).
      rewrite Hy2, Hy1, Hy, Hd2, Hd1. by rewrite <-app_assoc. }
    pose proof (got_lt _ _ _ Hg Hne). pose proof (adv_length _ _ (added_adv _ _ _ Ha2)).
    apply safe_get; [apply Hr2|]. intros c3 l3 Hg3 Hl3. case_if.
    + eapply safe_exp_digit; [done| |done|done|lia]. destruct Hs as [->| ->]; auto.
    + apply safe_error_token. destruct Hr2 as [? _]. eauto with lex.
  - case_if; [by apply (safe_exp_digit fuel l0 n [] l); auto|].
    apply safe_error_token. destruct Hr as [? _]. eauto with lex.
Qed.

(** The [e] itself. *)
Lemma safe_exponent_mark fuel l0 n l c l1 : reading l0 n l → nm_exp n = None → got l c l1 →
  c = 101 ∨ c = 69 → (length (inp l) ≤ S fuel)%nat →
  safe (add c ;; scan_number_exponent fuel) (scanned l0) l1.
Proof.
  intros (Ha & Hl & Hn & Hy) Hx Hg Hc Hf.
  apply safe_add; [unfold is_byte; lia|]. intros l2 Ha2.
  pose proof (got_lt _ _ _ Hg ltac:(unfold eof; lia)).
  pose proof (adv_length _ _ (added_adv _ _ _ Ha2)).
  eapply safe_number_exponent; [|lia].
  assert (adv l l2) as Hal by eauto 10 with lex.
  split; [eauto with lex|]. split; [eauto using adv_ok|]. split; [done|]. split; [done|].
  exists c. split; [done|]. destruct Ha2 as (_ & Hy2 & Hd2), Hg as (_ & _ & Hy1 & Hd1).
  by rewrite Hy2, Hy1, Hy, Hd2, Hd1.
Qed.

Lemma exponent_mark c : (c =? 101) || (c =? 69) = true → c = 101 ∨ c = 69.
Proof. intros [E|E]%orb_prop; zbool; auto. Qed.

Lemma safe_number_decimal2 fuel l0 neg ip fp l :
  let n := {| nm_neg := neg; nm_int := ip; nm_frac := Some fp; nm_exp := None |} in
  reading l0 n l → (length (inp l) < fuel)%nat →
  safe (scan_number_decimal2 fuel value_float) (scanned l0) l.
Proof.
  revert fp l. induction fuel as [|fuel IH]; intros fp l n Hr Hf; [lia|].
  cbn [scan_number_decimal2]. apply safe_get; [apply Hr|]. intros c l1 Hg Hl1. case_if.
  - destruct (digit_byte c E). apply safe_add; [done|]. intros l2 Ha2.
    pose proof (got_lt _ _ _ Hg). pose proof (adv_length _ _ (added_adv _ _ _ Ha2)).
    apply (IH (fp ++ [c])); [|lia]. pose proof Hr as (Ha & Hl & (Hi & Hfr & _) & Hy).
    eapply reading_step; [exact Hr|done..| |].
    + exact (conj Hi (conj (is_digits_snoc _ _ Hfr E) I)).
    + unfold numeral_text, n. app_simpl.
  - case_if; [eapply safe_exponent_mark; eauto using exponent_mark; lia|].
    by apply (safe_number_done l0 n l c).
Qed.

(** After the decimal point. *)
Lemma safe_number_decimal1 fuel l0 neg ip l c l1 :
  let n := {| nm_neg := neg; nm_int := ip; nm_frac := None; nm_exp := None |} in
  reading l0 n l → got l c l1 → c ≠ eof → (length (inp l) ≤ S fuel)%nat →
  safe (dp ← gets lx_decimal_point_char; add dp ;; scan_number_decimal1 fuel) (scanned l0) l1.
Proof.
  intros n Hr Hg Hc Hf. pose proof (got_lt _ _ _ Hg Hc).
  pose proof Hr as (Ha & Hl & Hn & Hy). pose proof Hg as (_ & _ & Hy1 & Hd1).
  apply wp_bind, wp_gets. rewrite Hd1. destruct Hl as [Hlb Hdp].
  apply safe_add; [apply Hdp|]. intros l2 Ha2.
  pose proof (adv_length _ _ (added_adv _ _ _ Ha2)).
  assert (adv l0 l2) as Hal2 by eauto 10 with lex.
  assert (lex_ok l2) as Hl2 by (eapply (adv_ok l); [eauto 10 with lex|done]).
  unfold scan_number_decimal1. apply safe_get; [done|]. intros c3 l3 Hg3 Hl3.
  case_if; [|apply safe_error_token; eauto with lex].
  destruct (digit_byte c3 E). apply safe_add; [done|]. intros l4 Ha4.
  pose proof (got_lt _ _ _ Hg3). pose proof (adv_length _ _ (added_adv _ _ _ Ha4)).
  apply (safe_number_decimal2 _ _ neg ip [c3]); [|lia].
  assert (adv l2 l4) as Hal by eauto 10 with lex.
  split; [eauto with lex|]. split; [eauto using adv_ok|]. split.
  { destruct Hn as [Hi _]. exact (conj Hi (conj (is_digits_one _ E) I)). }
  destruct Ha2 as (_ & Hy2 & Hd2), Ha4 as (_ & Hy4 & Hd4), Hg3 as (_ & _ & Hy3 & Hd3).
  rewrite Hy4, Hy3, Hy2, Hy1, Hy, Hd4, Hd3, Hd2, Hd1. unfold numeral_text, n. app_simpl.
Qed.

(** The tail of a number after its integer part. *)
Lemma safe_number_rest fuel l0 neg ip l c l1 :
  let n := {| nm_neg := neg; nm_int := ip; nm_frac := None; nm_exp := None |} in
  reading l0 n l → got l c l1 → (length (inp l) ≤ S fuel)%nat →
  safe (if c =? 46 then dp ← gets lx_decimal_point_char; add dp ;; scan_number_decimal1 fuel
        else if (c =? 101) || (c =? 69) then add c ;; scan_number_exponent fuel
        else scan_number_done (if neg then value_integer else value_unsigned))
    (scanned l0) l1.
Proof.
  intros n Hr Hg Hf.
  case_if; [by eapply safe_number_decimal1; eauto; subst|].
  case_if; [eapply safe_exponent_mark; eauto using exponent_mark; lia|].
  by apply (safe_number_done l0 n l c).
Qed.

Lemma safe_number_any1 fuel l0 neg ip l :
  let n := {| nm_neg := neg; nm_int := ip; nm_frac := None; nm_exp := None |} in
  reading l0 n l → (length (inp l) < fuel)%nat →
  safe (scan_number_any1 fuel (if neg then value_integer else value_unsigned)) (scanned l0) l.
Proof.
  revert ip l. induction fuel as [|fuel IH]; intros ip l n Hr Hf; [lia|].
  cbn [scan_number_any1]. apply safe_get; [apply Hr|]. intros c l1 Hg Hl1. case_if.
  - destruct (digit_byte c E). apply safe_add; [done|]. intros l2 Ha2.
    pose proof (got_lt _ _ _ Hg). pose proof (adv_length _ _ (added_adv _ _ _ Ha2)).
    apply (IH (ip ++ [c])); [|lia]. pose proof Hr as (Ha & Hl & (Hi & _) & Hy).
    eapply reading_step; [exact Hr|done..| |].
    + exact (conj (is_digits_snoc _ _ Hi E) (conj I I)).
    + unfold numeral_text, n. app_simpl.
  - eapply safe_number_rest; [exact Hr|done|lia].
Qed.

(** The first digit of a number, after the characters [y]. *)
Lemma safe_number_first fuel l0 (neg : bool) l c : adv l0 l → lex_ok l →
  lx_yytext l = (if neg then [45] else []) → (length (inp l) < fuel)%nat →
  F64.is_digit c = true →
  safe (if c =? 48
        then add c ;; scan_number_zero fuel (if neg then value_integer else value_unsigned)
        else add c ;; scan_number_any1 fuel (if neg then value_integer else value_unsigned))
    (scanned l0) l.
Proof.
  intros Ha Hl Hy Hf Hc. destruct (digit_byte c Hc).
  assert (∀ l2, added l [c] l2 → reading l0
    {| nm_neg := neg; nm_int := [c]; nm_frac := None; nm_exp := None |} l2) as Hr.
  { intros l2 Ha2. assert (adv l l2) by eauto 10 with lex.
    split; [eauto with lex|]. split; [eauto using adv_ok|].
    split; [exact (conj (is_digits_one _ Hc) (conj I I))|].
    destruct Ha2 as (_ & Hy2 & _). rewrite Hy2, Hy. done. }
  case_if; (apply safe_add; [done|]); intros l2 Ha2;
    pose proof (adv_length _ _ (added_adv _ _ _ Ha2)).
  - unfold scan_number_zero. apply safe_get; [by eapply Hr|]. intros c3 l3 Hg3 Hl3.
    eapply safe_number_rest; [by apply Hr|done|lia].
  - eapply safe_number_any1; [by apply Hr|lia].
Qed.

Lemma digit_cases c : F64.is_digit c = (c =? 48) || is_digit1_9 c.
Proof.
  apply eq_bool_prop_intro. rewrite !Is_true_true, is_digit_range, orb_true_iff.
  unfold is_digit1_9. rewrite andb_true_iff, !Z.leb_le, Z.eqb_eq. lia.
Qed.

Lemma safe_scan_number fuel l : lex_ok l → (length (inp l) < fuel)%nat →
  (lx_current l =? 45) || F64.is_digit (lx_current l) = true →
  safe (scan_number fuel) (scanned l) l.
Proof.
  intros Hl Hf Hc. unfold scan_number. apply wp_bind. unfold wp, reset at 1.
  apply wp_bind, wp_gets. cbn [lx_current]. set (l1 := mk_lexer _ _ _ _ _ _ _ _ _ _).
  assert (adv l l1) as Ha1 by (split; [by exists []|done]).
  assert (lex_ok l1) as Hl1 by done.
  case_if.
  - apply safe_add; [unfold is_byte; lia|]. intros l2 Ha2. unfold scan_number_minus.
    assert (lex_ok l2) as Hl2 by eauto using adv_ok, added_adv.
    apply safe_get; [done|]. intros c l3 Hg3 Hl3.
    pose proof (adv_length _ _ (added_adv _ _ _ Ha2)). pose proof (adv_length _ _ (got_adv _ _ _ Hg3)).
    destruct (F64.is_digit c) eqn:Ed.
    + pose proof (safe_number_first fuel l true l3 c) as Hfirst.
      cbn beta iota in Hfirst. pose proof Ed as Ed'. rewrite digit_cases in Ed'.
      destruct (c =? 48); [|simpl in Ed'; rewrite Ed'];
        (apply Hfirst; [eauto 10 with lex|done| |simpl in *; lia|done]);
        destruct Hg3 as (_ & _ & -> & _), Ha2 as (_ & -> & _); simpl; by rewrite E.
    + rewrite digit_cases in Ed. apply orb_false_iff in Ed as [-> ->].
      apply safe_error_token. eauto 10 with lex.
  - pose proof (safe_number_first fuel l false l1 (lx_current l) Ha1 Hl1 eq_refl Hf) as Hfirst.
    cbn beta iota in Hfirst. cbn [orb] in Hc. specialize (Hfirst Hc).
    rewrite digit_cases in Hc. destruct (lx_current l =? 48); [done|].
    cbn [orb] in Hc. by rewrite Hc.
Qed.

(** ** Literals and [scan] *)

Lemma safe_literal_rest l0 text t l : adv l0 l → lex_ok l → (∀ l', token_ok t l') →
  safe (scan_literal_rest text t) (scanned l0) l.
Proof.
  intros Ha Hl Ht. revert l Ha Hl. induction text as [|c text IH]; intros l Ha Hl;
    cbn [scan_literal_rest]; [by split|].
  apply safe_get; [done|]. intros c' l' Hg Hl'.
  case_if; [apply safe_error_token; eauto with lex|]. apply IH; eauto with lex.
Qed.

Lemma safe_literal text c t l : lex_ok l → head text = Some c → lx_current l = c →
  (∀ l', token_ok t l') → safe (scan_literal text t) (scanned l) l.
Proof.
  intros Hl Hh Hc Ht. unfold scan_literal. apply wp_bind, wp_gets.
  apply safe_assert; [apply bool_decide_true; congruence|].
  apply safe_literal_rest; auto with lex.
Qed.

(** Leading white space and one more character. *)
Lemma safe_skip_spaces fuel l (Q : Z → lexer A → Prop) : lex_ok l → (length (inp l) < fuel)%nat →
  (∀ c l', adv l l' → lex_ok l' → lx_current l' = c →
     (c = eof ∧ inp l' = []) ∨
     (is_byte c ∧ (length (inp l') < length (inp l))%nat) → Q c l') →
  safe (skip_spaces fuel) Q l.
Proof.
  revert l. induction fuel as [|fuel IH]; intros l Hl Hf HQ; [lia|].
  cbn [skip_spaces]. apply safe_get; [done|]. intros c l1 Hg Hl1.
  destruct (decide (c = eof)) as [->|Hc].
  - apply HQ; [eauto with lex|done|apply Hg|]. left. split; [done|].
    destruct Hg as ([(? & _ & ->)|(_ & Hb & _)] & _); [done|]. unfold is_byte, eof in Hb. lia.
  - pose proof (got_lt _ _ _ Hg Hc). pose proof (got_byte _ _ _ Hg Hc). case_if.
    + apply IH; [done|lia|]. intros c2 l2 Ha2 Hl2 Hc2 Hcase.
      apply HQ; [eauto with lex|done|done|]. destruct Hcase as [?|[? ?]]; [auto|].
      right. split; [done|lia].
    + apply HQ; [eauto with lex|done|apply Hg|]. auto.
Qed.

(** [scan] returns a token on every input: it consumes at least one character
    unless it is at the end of the input. *)
Lemma scan_safe fuel l : lex_ok l → (length (inp l) < fuel)%nat →
  safe (scan fuel)
    (λ t l', scanned l t l' ∧
       ((t = end_of_input ∧ inp l' = []) ∨ (length (inp l') < length (inp l))%nat)) l.
Proof.
  intros Hl Hf. unfold scan. apply wp_bind. apply safe_skip_spaces; [done..|].
  intros c l1 Ha1 Hl1 Hc1 Hcase. destruct Hcase as [[-> Hend]|[Hb Hlt]].
  { split; [by split|]. by left. }
  apply (wp_mono _ _ (scanned l1)); cycle 1.
  { intros t l2 Ht. split; [by eapply scanned_trans|]. right.
    destruct Ht as [Ha2 _]. pose proof (adv_length _ _ Ha2). lia. }
  repeat (case_if; [first [ split; [apply adv_refl|done]
                         | eapply (safe_literal _ c); [done|clear Hc1; subst c; reflexivity|done|done] ]|]).
  case_if; [apply safe_scan_string; [done|congruence|lia]|].
  case_if; [apply safe_scan_number; [done|lia|by rewrite Hc1]|].
  case_if; [by split; auto with lex|]. apply safe_error_token. auto with lex.
Qed.
End total.

#[export] Hint Resolve adv_refl adv_trans adv_ok : lex.
