(* ===== verification/ParserTotal.v ===== *)
(** The parser on every input and with every callback: it finishes, no assertion
    fails, the only exceptions are parse error 101 and out of range 406 (and
    none without [allow_exceptions]), and the value it returns is well formed:
    typed, without discarded parts, with strings in UTF-8. *)

From S2P Require Import Prelude Float64 JsonValue Adapters Serializer SerializerSpec Lexer.
From S2P Require Import Parser Numeral Utf8 LexerTotal.

(** Strings and keys are well-formed UTF-8. *)
Fixpoint json_utf8 (j : json) : Prop :=
  match j with
  | JString s => utf8_valid s
  | JObject o =>
      (fix go o := match o with
                   | [] => True
                   | kv :: o => (utf8_valid kv.1 ∧ json_utf8 kv.2) ∧ go o
                   end) o
  | JArray a => (fix go a := match a with [] => True | v :: a => json_utf8 v ∧ go a end) a
  | _ => True
  end.

Lemma json_utf8_array a : json_utf8 (JArray a) ↔ Forall json_utf8 a.
Proof. simpl. induction a; simpl; [by split; constructor|]. rewrite Forall_cons. naive_solver. Qed.

Lemma json_utf8_object o :
  json_utf8 (JObject o) ↔ Forall (λ kv, utf8_valid kv.1 ∧ json_utf8 kv.2) o.
Proof. simpl. induction o; simpl; [by split; constructor|]. rewrite Forall_cons. naive_solver. Qed.

Lemma utf8_dumpable ea j : json_utf8 j → dumpable ea j.
Proof.
  induction j as [|o IH|a IH|s|b|z|z|f|] using json_induction; try done.
  - rewrite json_utf8_object, dumpable_object, !Forall_forall in *.
    intros Hu kv Hkv. destruct (Hu kv Hkv). split; [by apply utf8_escapable|by apply IH].
  - rewrite json_utf8_array, dumpable_array, !Forall_forall in *. naive_solver.
  - apply utf8_escapable.
Qed.

(** What the parser builds. *)
Definition json_good (j : json) : Prop := json_typed j ∧ json_utf8 j ∧ no_discarded j.

(** A value under construction may be discarded as a whole. *)
Definition kept_good (j : json) : Prop := j = JDiscarded ∨ json_good j.

Lemma json_good_push a v : json_good (JArray a) → json_good v → json_good (JArray (a ++ [v])).
Proof.
  unfold json_good. rewrite !json_typed_array, !json_utf8_array, !no_discarded_array, !Forall_app.
  intros (?&?&?) (?&?&?). split_and!; auto.
Qed.

Lemma json_good_emplace o k v : json_good (JObject o) → utf8_valid k → json_good v →
  json_good (JObject (omap_emplace k v o)).
Proof.
  unfold json_good. rewrite !json_typed_object, !json_utf8_object, !no_discarded_object.
  intros ((?&?&?)&?&?) Hk (?&?&?). split_and!; auto using omap_emplace_sorted;
    apply omap_emplace_Forall; auto using utf8_valid_bytes.
Qed.

Lemma is_discarded_false j : is_discarded j = false → kept_good j → json_good j.
Proof. intros Hd [->|?]; [done|done]. Qed.

(** A callback that hands on only such values. *)
Definition callback_good {C} (callback : option (parser_callback_t C)) : Prop :=
  match callback with
  | Some cb => ∀ d ev j c, kept_good j → kept_good (cb d ev j c).1.2
  | None => True
  end.

(** The exceptions of the parser. *)
Definition parser_exn (allow_exceptions : bool) (e : exn) : Prop :=
  allow_exceptions = true ∧
  ((∃ byte what, e = parse_error 101 byte what) ∨ (∃ what, e = out_of_range 406 what)).

Section total.
Context {A C : Type} `{InputAdapter A}.
Variable callback : option (parser_callback_t C).
Variable allow : bool.
Hypothesis Hcallback : callback_good callback.

Abbreviation P := (M exn (parser A C)).
Abbreviation inp p := (pending (lx_ia (ps_lexer p))).
Abbreviation run := (wp (parser_exn allow)).

(** The part of the state the callback cannot reach. *)
Definition same (p p' : parser A C) : Prop :=
  ps_lexer p' = ps_lexer p ∧ ps_last_token p' = ps_last_token p ∧
  ps_errored p' = ps_errored p.

Lemma same_refl p : same p p.
Proof. done. Qed.

(** A parser between two tokens. *)
Definition ok (p : parser A C) : Prop :=
  lex_ok (ps_lexer p) ∧ token_ok (ps_last_token p) (ps_lexer p) ∧ ps_errored p = false.

Lemma same_ok p p' : same p p' → ok p → ok p'.
Proof. intros (E1 & E2 & E3). unfold ok. by rewrite E1, E2, E3. Qed.

(** The characters and tokens still to be dealt with. *)
Definition todo (p : parser A C) : nat :=
  length (inp p) + (if decide (ps_last_token p = end_of_input) then 0 else 1).

Lemma same_todo p p' : same p p' → todo p' = todo p.
Proof. intros (E1 & E2 & _). unfold todo. by rewrite E1, E2. Qed.

(** After [m] started in [p]: later in the input; an error only without
    exceptions. *)
Definition later (p p' : parser A C) : Prop :=
  adv (ps_lexer p) (ps_lexer p') ∧ lex_ok (ps_lexer p') ∧ (ps_errored p' = true → allow = false).

(** [get_token], whether or not an error was seen before. *)
Lemma run_get_token_any {T} fuel (k : token_type → P T) Q p :
  lex_ok (ps_lexer p) → (length (inp p) < fuel)%nat →
  (∀ p', lex_ok (ps_lexer p') → token_ok (ps_last_token p') (ps_lexer p') →
     adv (ps_lexer p) (ps_lexer p') → ps_errored p' = ps_errored p →
     (todo p' ≤ length (inp p))%nat → run (k (ps_last_token p')) Q p') →
  run (get_token fuel ≫= k) Q p.
Proof.
  intros Hl Hf Hk. apply wp_bind. unfold get_token. apply wp_bind.
  pose proof (scan_safe fuel _ Hl Hf) as Hs. unfold wp, with_lexer in *.
  destruct (scan fuel (ps_lexer p)) as [[t l']| |]; [|done..].
  destruct Hs as [[Ha Ht] Hcons].
  apply (Hk (mk_parser (ps_depth p) t l' (ps_errored p) (ps_expected p) (ps_callback_state p)));
    [by eapply adv_ok|done|done|done|].
  unfold todo. simpl. destruct Hcons as [[-> ->]|Hlt]; simpl; [lia|].
  destruct (decide _); lia.
Qed.

Lemma run_get_token {T} fuel (k : token_type → P T) Q p :
  lex_ok (ps_lexer p) → ps_errored p = false → (length (inp p) < fuel)%nat →
  (∀ p', ok p' → later p p' → (todo p' ≤ length (inp p))%nat → run (k (ps_last_token p')) Q p') →
  run (get_token fuel ≫= k) Q p.
Proof.
  intros Hl He Hf Hk. apply run_get_token_any; [done..|].
  intros p' Hl' Ht' Ha' He' Htodo. rewrite He in He'.
  apply Hk; [done| |done]. split; [done|]. split; [done|]. by rewrite He'.
Qed.

(** [expect] goes on, throws, or marks the error. *)
Lemma run_expect {T} t (k : bool → P T) Q p :
  (ps_last_token p = t → run (k true) Q p) →
  (∀ p', ps_lexer p' = ps_lexer p → ps_errored p' = true → allow = false →
     run (k false) Q p') →
  run (expect allow t ≫= k) Q p.
Proof.
  intros HT HF. apply wp_bind. unfold expect. apply wp_bind, wp_gets.
  case_bool_decide as Ht; cbn [negb]; [by apply HT|].
  apply wp_bind. unfold wp at 1, set_errored. destruct allow eqn:Ea.
  - split; [done|]. left. by eexists _, _.
  - by apply HF.
Qed.

Lemma run_call {T} cb d ev j (k : bool * json → P T) Q p :
  callback = Some cb → kept_good j →
  (∀ b j' p', same p p' → kept_good j' → run (k (b, j')) Q p') →
  run (call cb d ev j ≫= k) Q p.
Proof.
  intros Hcb Hj Hk. apply wp_bind. unfold wp at 1, call.
  pose proof Hcallback as Hg. unfold callback_good in Hg. rewrite Hcb in Hg.
  specialize (Hg d ev j (ps_callback_state p) Hj).
  destruct (cb d ev j (ps_callback_state p)) as [[b j'] c]. by apply Hk.
Qed.

Lemma run_move_string {T} (k : list Z → P T) Q p : ok p → ps_last_token p = value_string →
  (∀ s p', utf8_valid s → lex_ok (ps_lexer p') → adv (ps_lexer p) (ps_lexer p') →
     inp p' = inp p → ps_errored p' = false → run (k s) Q p') →
  run (with_lexer move_string ≫= k) Q p.
Proof.
  intros (Hl & Ht & He) Htok Hk. rewrite Htok in Ht. apply wp_bind.
  unfold wp at 1, with_lexer, move_string. apply Hk; try done. split; [by exists []|done].
Qed.

(** The result of starting a container: [empty] if it is kept. *)
Lemma run_start {T} keep ev empty (k : bool * json → P T) Q p : kept_good empty →
  (∀ keep' r p', same p p' → kept_good r → (keep' = true → r = empty) → run (k (keep', r)) Q p') →
  run (start_container callback keep ev empty ≫= k) Q p.
Proof.
  intros He Hk. apply wp_bind. unfold start_container. destruct keep; cycle 1.
  { apply Hk; [done|by left|done]. }
  destruct callback as [cb|] eqn:Hcb in |- *; [|by apply Hk].
  apply wp_bind. unfold wp at 1, depth_incr. apply run_call; [done|by left|].
  intros b j' p' Hs Hj'. destruct b; apply Hk; done.
Qed.

Lemma run_end {T} guard ev r (k : json → P T) Q p : kept_good r →
  (∀ r' p', same p p' → kept_good r' → run (k r') Q p') →
  run (end_container callback guard ev r ≫= k) Q p.
Proof.
  intros Hr Hk. apply wp_bind. unfold end_container.
  destruct callback as [cb|] eqn:Hcb in |- *; [|by apply Hk]. destruct guard; [|by apply Hk].
  apply wp_bind. unfold wp at 1, depth_decr. apply run_call; [done|done|].
  intros b j' p' Hs Hj'. destruct b; apply Hk; try done. by left.
Qed.

Lemma run_key_kept {T} keep k0 (k : bool → P T) Q p : utf8_valid k0 →
  (∀ b p', same p p' → run (k b) Q p') →
  run (key_kept callback keep k0 ≫= k) Q p.
Proof.
  intros Hk0 Hk. apply wp_bind. unfold key_kept. destruct keep; [|by apply Hk].
  destruct callback as [cb|] eqn:Hcb in |- *; [|by apply Hk].
  apply wp_bind, wp_gets. apply run_call; [done| |].
  - right. split_and!; [by apply utf8_valid_bytes|done|done].
  - intros b j' p' Hs _. by apply Hk.
Qed.

(** What [parse_internal] and its loops establish. *)
Definition parsed (p : parser A C) (j : json) (p' : parser A C) : Prop :=
  kept_good j ∧ later p p'.

Lemma later_adv p1 p2 p3 : adv (ps_lexer p1) (ps_lexer p2) → later p2 p3 → later p1 p3.
Proof. intros Ha (Ha2 & Hl & He). split; [by eapply adv_trans|done]. Qed.

Lemma later_inp p p' : later p p' → (length (inp p') ≤ length (inp p))%nat.
Proof. intros (Ha & _). by apply adv_length. Qed.
Lemma same_later p p' p2 : same p p' → later p' p2 → later p p2.
Proof. intros (E & _) Hl. unfold later in *. by rewrite <-E. Qed.

Lemma ok_later p : ok p → later p p.
Proof. intros (Hl & _ & He). split; [apply adv_refl|]. split; [done|]. by rewrite He. Qed.

Lemma later_error p p1 p' : later p p1 → ps_lexer p' = ps_lexer p1 → allow = false → later p p'.
Proof. intros (Ha & Hl & _) E Hal. unfold later. by rewrite E. Qed.

(** The element parser of a loop. *)
Definition parses (b : nat) (m : P json) : Prop :=
  ∀ p, ok p → (todo p < b)%nat → run m (parsed p) p.

Lemma run_elements parse keep b fuel r p :
  (∀ keep, parses b (parse keep)) → (fuel ≤ b)%nat → ok p → (todo p < fuel)%nat →
  kept_good r → (keep = true → ∃ a, r = JArray a) →
  run (parse_elements allow parse keep fuel r)
    (λ x p', parsed p x.1 p' ∧ (x.2 = true → ok p')) p.
Proof.
  intros Hparse. revert r p. induction fuel as [|fuel IH]; intros r p Hb Hok Htodo Hr Hkeep; [lia|].
  cbn [parse_elements]. apply wp_bind. eapply wp_mono; [apply Hparse; [done|lia]|].
  intros v p1 [Hv Hl1]. apply wp_bind, wp_gets.
  destruct (ps_errored p1) eqn:He1; [by split|].
  set (r' := if keep && negb (is_discarded v) then array_push_back v r else r).
  assert (kept_good r' ∧ (keep = true → ∃ a, r' = JArray a)) as [Hr' Hkeep'].
  { unfold r'. destruct keep; cbn [andb]; [|done]. destruct (Hkeep eq_refl) as [a ->].
    destruct (is_discarded v) eqn:Ed; cbn [negb array_push_back]; [by eauto|].
    split; [|by eauto]. destruct Hr as [?|Hr]; [done|]. right. apply json_good_push; [done|].
    by apply is_discarded_false. }
  clearbody r'. pose proof (later_inp _ _ Hl1) as Hi1. unfold todo in Htodo.
  assert (length (inp p) < S fuel)%nat by (destruct (decide _); lia).
  pose proof Hl1 as (Ha1 & Hlex1 & _).
  (* The token behind the element. *)
  apply run_get_token; [done|done|lia|]. intros p2 Hok2 Hl2 Ht2.
  case_bool_decide as Hsep.
  - unfold todo in Ht2. rewrite Hsep in Ht2. simpl in Ht2.
    pose proof Hl2 as (Ha2 & Hlex2 & _). pose proof Hok2 as (_ & _ & He2).
    apply run_get_token; [done|done|lia|]. intros p3 Hok3 Hl3 Ht3.
    eapply wp_mono; [apply IH; [lia|done|lia|done|done]|].
    intros x p4 [[Hx Hl4] Hok4]. split; [|done]. split; [done|].
    destruct Hl3 as (Ha3 & _). eapply later_adv; [|done]. eauto using adv_trans.
  - apply run_expect.
    + intros Hend. split; [split; [done|]|done]. by eapply later_adv.
    + intros p3 E3 He3 Hal. split; [split; [done|]|done].
      eapply later_error; [by eapply later_adv|done|done].
Qed.

Lemma run_members parse keep b fuel r p :
  (∀ keep, parses b (parse keep)) → (fuel ≤ b)%nat → ok p → (todo p < fuel)%nat →
  kept_good r → (keep = true → ∃ o, r = JObject o) →
  run (parse_members callback allow parse keep fuel r)
    (λ x p', parsed p x.1 p' ∧ (x.2 = true → ok p')) p.
Proof.
  intros Hparse. revert r p. induction fuel as [|fuel IH]; intros r p Hb Hok Htodo Hr Hkeep; [lia|].
  cbn [parse_members]. apply run_expect; cycle 1.
  { intros p1 E1 He1 Hal. split; [split; [done|]|done].
    eapply later_error; [by apply ok_later|done|done]. }
  intros Hstr. cbn [negb]. unfold todo in Htodo. rewrite Hstr in Htodo. simpl in Htodo.
  apply run_move_string; [done|done|]. intros k p1 Hk Hlex1 Ha1 Hi1 He1.
  apply run_key_kept; [done|]. intros keep_tag p2 (E2 & _ & Ee2).
  rewrite <-E2 in Hlex1, Ha1, Hi1. rewrite <-Ee2 in He1.
  apply run_get_token; [done|done|rewrite Hi1; lia|]. intros p3 Hok3 Hl3 Ht3.
  rewrite Hi1 in Ht3. destruct Hl3 as (Ha3 & Hlex3 & _).
  assert (adv (ps_lexer p) (ps_lexer p3)) as Hap3 by eauto using adv_trans.
  apply run_expect; cycle 1.
  { intros p4 E4 He4 Hal. split; [split; [done|]|done]. unfold later. by rewrite E4. }
  intros Hcolon. cbn [negb]. unfold todo in Ht3. rewrite Hcolon in Ht3. simpl in Ht3.
  apply run_get_token; [done|apply Hok3|lia|]. intros p4 Hok4 Hl4 Ht4.
  destruct Hl4 as (Ha4 & Hlex4 & _).
  apply wp_bind. eapply wp_mono; [apply Hparse; [done|lia]|].
  intros v p5 [Hv Hl5]. apply wp_bind, wp_gets.
  assert (later p p5) as Hlp5 by (eapply later_adv; [|done]; eauto using adv_trans).
  destruct (ps_errored p5) eqn:He5; [by split|].
  set (r' := if keep && keep_tag && negb (is_discarded v) then object_emplace k v r else r).
  assert (kept_good r' ∧ (keep = true → ∃ o, r' = JObject o)) as [Hr' Hkeep'].
  { unfold r'. destruct keep, keep_tag; cbn [andb]; try done.
    destruct (Hkeep eq_refl) as [o ->].
    destruct (is_discarded v) eqn:Ed; cbn [negb object_emplace]; [by eauto|].
    split; [|by eauto]. destruct Hr as [?|Hr]; [done|]. right.
    apply json_good_emplace; [done|done|]. by apply is_discarded_false. }
  clearbody r'. pose proof (later_inp _ _ Hl5) as Hi5. destruct Hl5 as (Ha5 & Hlex5 & _).
  assert (length (inp p4) ≤ fuel)%nat.
  { pose proof (adv_length _ _ Ha4). lia. }
  apply run_get_token; [done|done|lia|]. intros p6 Hok6 Hl6 Ht6.
  assert (later p p6) as Hlp6.
  { eapply later_adv; [|done]. by destruct Hlp5. }
  case_bool_decide as Hsep.
  - unfold todo in Ht6. rewrite Hsep in Ht6. simpl in Ht6.
    apply run_get_token; [apply Hok6|apply Hok6|lia|]. intros p7 Hok7 (Ha7 & Hlex7 & _) Ht7.
    eapply wp_mono; [apply IH; [lia|done|lia|done|done]|].
    intros x p8 [[Hx Hl8] Hok8]. split; [|done]. split; [done|].
    eapply later_adv; [|done]. destruct Hlp6. eauto using adv_trans.
  - apply run_expect.
    + intros Hend. by split; [split|].
    + intros p7 E7 He7 Hal. split; [split; [done|]|done]. by eapply later_error.
Qed.

Lemma json_good_scalar j : match j with JObject _ | JArray _ | JDiscarded | JString _ => False | _ => True end →
  json_typed j → kept_good j.
Proof. intros Hs Ht. right. by destruct j. Qed.

Lemma run_scalar t p : ok p → ps_last_token p = t → t ≠ begin_object → t ≠ begin_array →
  run (parse_scalar allow t) (λ x p', parsed p x.1 p') p.
Proof.
  intros Hok Ht Hno Hna. pose proof Hok as (Hlex & Htok & He). rewrite Ht in Htok.
  assert (later p p) as Hlp by by apply ok_later.
  assert (∀ t', run (ok ← expect allow t'; mret (JDiscarded, ok)) (λ x p', parsed p x.1 p') p) as Hexp.
  { intros t'. apply run_expect.
    - intros _. split; [by left|done].
    - intros p' E' He' Hal. split; [by left|]. by eapply later_error. }
  destruct t; try apply Hexp; try done; unfold parse_scalar.
  all: try (split; [by apply json_good_scalar|done]).
  - apply run_move_string; [done|done|]. intros s p' Hs Hl' Ha' _ He'.
    split; [|split; [done|]; by rewrite He']. right.
    split_and!; [by apply utf8_valid_bytes|done|done].
  - apply wp_bind, wp_gets. destruct (F64.isfinite _); cbn [negb].
    { split; [by apply json_good_scalar|done]. }
    destruct allow eqn:Ea; [split; [done|]; right; by eexists|].
    rewrite <-Ea. apply run_expect; [intros ?; congruence|]. intros p' E' He' Hal.
    split; [by apply json_good_scalar|]. by eapply later_error.
Qed.

Lemma run_finish keep r p0 p : later p0 p → kept_good r →
  run (finish_value callback keep r) (parsed p0) p.
Proof.
  intros Hl Hr. unfold finish_value.
  destruct callback as [cb|] eqn:Hcb in |- *; [|by split]. destruct keep; [|by split].
  apply wp_bind, wp_gets. apply run_call; [done|done|].
  intros b j' p' (E1 & _ & E3) Hj'.
  assert (later p0 p') by (unfold later in *; by rewrite E1, E3).
  destruct b; [by split|]. split; [by left|done].
Qed.

(** [parse_internal] on every input. *)
Lemma parse_internal_run fuel keep : parses fuel (parse_internal callback allow fuel keep).
Proof.
  revert keep. induction fuel as [|fuel IH]; intros keep p Hok Htodo; [lia|].
  cbn [parse_internal]. apply wp_bind, wp_gets. pose proof Hok as (Hlex & _ & He).
  rewrite He. apply wp_bind, wp_ret, wp_bind, wp_gets.
  (* Both containers: the token behind the opening bracket, then the loop. *)
  apply wp_bind. apply (wp_mono _ _ (λ (x : bool * (json * bool)) p', parsed p x.2.1 p')); cycle 1.
  { intros [keep' [r ended]] p' [Hr Hl]. cbn [fst snd] in *.
    destruct ended; [by apply run_finish|by split]. }
  assert (∀ keep' (r : json) p', kept_good r → later p p' →
    run (mret (keep', (r, true))) (λ (x : bool * (json * bool)) p', parsed p x.2.1 p') p') as Hret by by split.
  destruct (ps_last_token p) eqn:Htok.
  all: try (apply wp_bind; eapply wp_mono; [by apply run_scalar|]; intros [r e] p' Hp; exact Hp).
  - unfold todo in Htodo. rewrite Htok in Htodo. simpl in Htodo.
    apply run_start; [by right|]. intros keep' r p1 (E1 & _ & Ee1) Hr Hkeep'.
    rewrite <-E1 in Hlex, Htodo. rewrite <-Ee1 in He.
    apply run_get_token; [done|done|lia|]. intros p2 Hok2 Hl2 Ht2.
    assert (later p p2) as Hlp2 by (unfold later in *; by rewrite <-E1).
    case_bool_decide as Hend.
    + apply run_end; [done|]. intros r' p3 (E3 & _ & Ee3) Hr'. apply Hret; [done|].
      unfold later in *. by rewrite E3, Ee3.
    + apply wp_bind. eapply wp_mono.
      { eapply run_elements; [apply IH|done|done|lia|done|]. intros ->. exists []. auto. }
      intros [r2 ended] p3 [[Hr2 Hl3] Hok3]. cbn [fst snd] in *.
      assert (later p p3) as Hlp3 by (eapply later_adv; [|done]; by destruct Hlp2).
      destruct ended; [|by split].
      apply run_end; [done|]. intros r' p4 (E4 & _ & Ee4) Hr'. apply Hret; [done|].
      unfold later in *. by rewrite E4, Ee4.
  - unfold todo in Htodo. rewrite Htok in Htodo. simpl in Htodo.
    apply run_start; [right; split_and!; [|done..]; split; [constructor|done]|].
    intros keep' r p1 (E1 & _ & Ee1) Hr Hkeep'.
    rewrite <-E1 in Hlex, Htodo. rewrite <-Ee1 in He.
    apply run_get_token; [done|done|lia|]. intros p2 Hok2 Hl2 Ht2.
    assert (later p p2) as Hlp2 by (unfold later in *; by rewrite <-E1).
    case_bool_decide as Hend.
    + apply run_end; [done|]. intros r' p3 (E3 & _ & Ee3) Hr'. apply Hret; [done|].
      unfold later in *. by rewrite E3, Ee3.
    + apply wp_bind. eapply wp_mono.
      { eapply run_members; [apply IH|done|done|lia|done|]. intros ->. exists []. auto. }
      intros [r2 ended] p3 [[Hr2 Hl3] Hok3]. cbn [fst snd] in *.
      assert (later p p3) as Hlp3 by (eapply later_adv; [|done]; by destruct Hlp2).
      destruct ended; [|by split].
      apply run_end; [done|]. intros r' p4 (E4 & _ & Ee4) Hr'. apply Hret; [done|].
      unfold later in *. by rewrite E4, Ee4.
Qed.

(** [parse] on every input. *)
Lemma parse_run fuel strict p : lex_ok (ps_lexer p) → ps_errored p = false →
  (length (inp p) < fuel)%nat →
  run (parse callback allow fuel strict)
    (λ j _, json_good j ∨ (allow = false ∧ j = JDiscarded)) p.
Proof.
  intros Hlex He Hf. unfold parse. apply run_get_token; [done..|]. intros p1 Hok1 Hl1 Ht1.
  apply wp_bind. eapply wp_mono; [apply parse_internal_run; [done|lia]|].
  intros j p2 [Hj Hl2]. pose proof (later_inp _ _ Hl1). pose proof (later_inp _ _ Hl2).
  destruct Hl2 as (_ & Hlex2 & He2).
  assert (∀ p3 : parser A C, (ps_errored p3 = true → allow = false) →
    run (errored ← gets ps_errored;
         if (errored : bool) then mret JDiscarded
         else if is_discarded j then mret JNull else mret j)
      (λ j _, json_good j ∨ (allow = false ∧ j = JDiscarded)) p3) as Hfin.
  { intros p3 H3. apply wp_bind, wp_gets. destruct (ps_errored p3); [right; auto|].
    destruct (is_discarded j) eqn:Ed; left; [done|by apply is_discarded_false]. }
  destruct strict; [|by apply Hfin].
  apply wp_bind. apply run_get_token_any; [done|lia|].
  intros p3 Hlex3 _ _ He3 _. apply run_expect; intros; apply Hfin; [|done].
  by rewrite He3.
Qed.

End total.
