(* ===== verification/AcceptParse.v ===== *)
(** [accept] and [parse] agree.

    Both run in lock step; they differ in the string that [parse] moves out of
    the lexer, which no later scan reads.  [lexer_sim] is equality of lexers up
    to that string, [agree] relates the two results. *)

From S2P Require Import Prelude Float64 JsonValue Adapters Serializer SerializerSpec Lexer.
From S2P Require Import Parser Numeral Utf8 LexerTotal ParserTotal.

Section lexer.
Context {A : Type} `{!input_adapter_protocol A}.

Abbreviation L := (M exn (lexer A)).

(** ** What [scan] can return and throw *)

Definition yields {T} (Q : T → Prop) (m : L T) : Prop := ∀ l,
  match m l with
  | Ok (x, _) => Q x
  | Throw e => e = assert_failure
  | NoFuel => True
  end.

Abbreviation plain := (yields (λ _, True)).
(** A token the scanner makes. *)
Definition real_token (t : token_type) : Prop := t ≠ literal_or_value.

Lemma yields_bind {T U} Q (m : L T) (k : T → L U) :
  plain m → (∀ x, yields Q (k x)) → yields Q (m ≫= k).
Proof.
  intros Hm Hk l. specialize (Hm l). unfold mbind, M_bind.
  destruct (m l) as [[x l']| |]; [apply Hk|done..].
Qed.

Lemma yields_ret {T} (Q : T → Prop) x : Q x → yields Q (mret x).
Proof. by intros ? l. Qed.
Lemma yields_get : plain get.
Proof. intros l. unfold get. by destruct (get_character _). Qed.
Lemma yields_gets {T} (f : lexer A → T) : plain (gets f).
Proof. by intros l. Qed.
Lemma yields_assert b : plain (assert b assert_failure).
Proof. intros l. by destruct b. Qed.
Lemma yields_throw {T} (Q : T → Prop) : yields Q (throw assert_failure).
Proof. by intros l. Qed.
Lemma yields_no_fuel {T} (Q : T → Prop) : yields Q no_fuel.
Proof. by intros l. Qed.
Lemma yields_add c : plain (add c).
Proof. by intros l. Qed.
Lemma yields_reset : plain reset.
Proof. by intros l. Qed.
Lemma yields_unget : plain unget.
Proof.
  intros l. unfold unget. by destruct (negb (lx_current l =? eof) && bool_decide (lx_token_string l = [])).
Qed.
Lemma yields_error msg : yields real_token (error msg).
Proof. by intros l. Qed.
Lemma yields_error_plain msg : plain (error msg).
Proof. by intros l. Qed.
Lemma yields_set_integer x : plain (set_integer x).
Proof. by intros l. Qed.
Lemma yields_set_unsigned x : plain (set_unsigned x).
Proof. by intros l. Qed.
Lemma yields_set_float x : plain (set_float x).
Proof. by intros l. Qed.

Create HintDb yields.
Hint Resolve yields_bind yields_ret yields_get yields_gets yields_assert yields_throw
  yields_no_fuel yields_add yields_reset yields_unget yields_error yields_error_plain
  yields_set_integer yields_set_unsigned yields_set_float : yields.
Hint Extern 1 (real_token _) => (unfold real_token; congruence) : yields.
Hint Extern 2 (yields _ (if ?b then _ else _)) => destruct b : yields.
Hint Extern 2 (yields _ (match ?b with Some _ => _ | None => _ end)) => destruct b : yields.

Lemma yields_codepoint : plain get_codepoint.
Proof.
  assert (∀ fs cp, plain (get_codepoint_loop fs cp)) as H.
  { intros fs. induction fs; intros cp; cbn [get_codepoint_loop]; auto 10 with yields. }
  unfold get_codepoint. auto with yields.
Qed.
Hint Resolve yields_codepoint : yields.

Lemma yields_bytes_in_ranges rs : plain (bytes_in_ranges rs).
Proof. induction rs as [|[lo hi] rs]; cbn [bytes_in_ranges]; auto 10 with yields. Qed.
Hint Resolve yields_bytes_in_ranges : yields.

Lemma yields_escape : plain scan_escape.
Proof. unfold scan_escape, scan_unicode_escape, add_codepoint. auto 20 with yields. Qed.
Hint Resolve yields_escape : yields.

Lemma yields_string fuel : yields real_token (scan_string fuel).
Proof.
  assert (yields real_token (scan_string_loop fuel)) as Hl.
  { induction fuel; cbn [scan_string_loop]; unfold next_byte_in_range; auto 20 with yields. }
  unfold scan_string. auto with yields.
Qed.
Lemma yields_number_done nt : yields real_token (scan_number_done nt).
Proof.
  assert (yields real_token scan_number_float) as Hf.
  { unfold scan_number_float. apply yields_bind; [auto with yields|]. intros text.
    apply yields_bind; [auto with yields|]. intros dp. destruct (F64.strtod dp text).
    auto 10 with yields. }
  unfold scan_number_done. apply yields_bind; [auto with yields|]. intros _.
  apply yields_bind; [auto with yields|]. intros text.
  destruct nt; try done.
  - destruct (strtoull text) as [[x b] e]. auto 10 with yields.
  - destruct (strtoll text) as [[x b] e]. auto 10 with yields.
Qed.
Hint Resolve yields_number_done : yields.

Lemma yields_any2 fuel nt : yields real_token (scan_number_any2 fuel nt).
Proof. induction fuel; cbn [scan_number_any2]; auto 10 with yields. Qed.
Hint Resolve yields_any2 : yields.
Lemma yields_exponent fuel : yields real_token (scan_number_exponent fuel).
Proof. unfold scan_number_exponent, scan_number_sign. auto 20 with yields. Qed.
Hint Resolve yields_exponent : yields.
Lemma yields_decimal1 fuel : yields real_token (scan_number_decimal1 fuel).
Proof.
  assert (∀ nt, yields real_token (scan_number_decimal2 fuel nt)).
  { intros nt. induction fuel; cbn [scan_number_decimal2]; auto 20 with yields. }
  unfold scan_number_decimal1. auto 10 with yields.
Qed.
Hint Resolve yields_decimal1 : yields.
Lemma yields_any1 fuel nt : yields real_token (scan_number_any1 fuel nt).
Proof. induction fuel; cbn [scan_number_any1]; auto 20 with yields. Qed.
Hint Resolve yields_any1 : yields.

Lemma yields_number fuel : yields real_token (scan_number fuel).
Proof. unfold scan_number, scan_number_minus, scan_number_zero. auto 30 with yields. Qed.

Lemma yields_literal text t : real_token t → yields real_token (scan_literal text t).
Proof.
  intros Ht. unfold scan_literal. apply yields_bind; [auto with yields|]. intros c.
  apply yields_bind; [auto with yields|]. intros _.
  induction (tail text); cbn [scan_literal_rest]; auto 10 with yields.
Qed.
Hint Resolve yields_string yields_number yields_literal : yields.

Lemma yields_skip_spaces fuel : plain (skip_spaces fuel).
Proof. induction fuel; cbn [skip_spaces]; auto 10 with yields. Qed.
Hint Resolve yields_skip_spaces : yields.

Lemma scan_yields fuel : yields real_token (scan fuel).
Proof.
  unfold scan. apply yields_bind; [auto with yields|]. intros c.
  repeat (case_match; [by auto with yields|]). auto with yields.
Qed.

(** ** Scanning does not read the previous string *)

(** Equality of lexers up to [yytext]. *)
Definition lexer_sim (l1 l2 : lexer A) : Prop :=
  mk_lexer (lx_ia l1) (lx_current l1) (lx_chars_read l1) (lx_token_string l1) []
    (lx_error_message l1) (lx_value_integer l1) (lx_value_unsigned l1) (lx_value_float l1)
    (lx_decimal_point_char l1) =
  mk_lexer (lx_ia l2) (lx_current l2) (lx_chars_read l2) (lx_token_string l2) []
    (lx_error_message l2) (lx_value_integer l2) (lx_value_unsigned l2) (lx_value_float l2)
    (lx_decimal_point_char l2).

#[global] Instance lexer_sim_equivalence : Equivalence lexer_sim.
Proof. split; [done|by intros ??|]. intros l1 l2 l3. unfold lexer_sim. congruence. Qed.

(** Computations that do not read [yytext]. *)
Definition blind {T} (m : L T) : Prop := ∀ l1 l2, lexer_sim l1 l2 →
  match m l1, m l2 with
  | Ok (x, l1'), Ok (y, l2') => x = y ∧ lexer_sim l1' l2'
  | Throw e, Throw e' => e = e'
  | NoFuel, NoFuel => True
  | _, _ => False
  end.

Lemma blind_bind {T U} (m : L T) (k : T → L U) :
  blind m → (∀ x, blind (k x)) → blind (m ≫= k).
Proof.
  intros Hm Hk l1 l2 Hl. specialize (Hm l1 l2 Hl). unfold mbind, M_bind.
  destruct (m l1) as [[x l1']| |], (m l2) as [[y l2']| |]; try done.
  destruct Hm as [-> Hl']. by apply Hk.
Qed.

(** Two lexers that differ in the string only. *)
Ltac sim_cases :=
  let Hl := fresh in
  intros [] [] Hl; unfold lexer_sim in Hl; simpl in Hl; injection Hl; intros; subst; clear Hl.

Lemma blind_ret {T} (x : T) : blind (mret x).
Proof. by intros l1 l2 Hl. Qed.
Lemma blind_no_fuel {T} : blind (T := T) no_fuel.
Proof. by intros l1 l2 Hl. Qed.
Lemma blind_get : blind get.
Proof.
  sim_cases. unfold get. simpl.
  destruct (get_character _) as [c a]. by split.
Qed.
Lemma blind_error msg : blind (error msg).
Proof. sim_cases. by split. Qed.
Lemma blind_current : blind (gets lx_current).
Proof. sim_cases. by split. Qed.
Lemma blind_assert b : blind (assert b assert_failure).
Proof. intros l1 l2 Hl. by destruct b. Qed.

(** [reset] forgets the string. *)
Lemma blind_reset {T} (k : () → L T) : blind (reset ≫= k).
Proof.
  sim_cases.
  unfold mbind, M_bind, reset. simpl. destruct (k _ _) as [[]| |]; by split.
Qed.

Hint Resolve blind_bind blind_ret blind_no_fuel blind_get blind_error blind_current
  blind_assert blind_reset : blind.

Lemma scan_blind fuel : blind (scan fuel).
Proof.
  assert (blind (skip_spaces fuel)) as Hskip.
  { induction fuel; cbn [skip_spaces]; [auto with blind|]. apply blind_bind; [auto with blind|].
    intros c. case_match; auto with blind. }
  assert (∀ text t, blind (scan_literal text t)) as Hlit.
  { intros text t. unfold scan_literal. apply blind_bind; [auto with blind|]. intros c.
    apply blind_bind; [auto with blind|]. intros _.
    induction (tail text); cbn [scan_literal_rest]; [auto with blind|].
    apply blind_bind; [auto with blind|]. intros c'. case_match; auto with blind. }
  assert (blind (scan_string fuel)) as Hstr by apply blind_reset.
  assert (blind (scan_number fuel)) as Hnum by apply blind_reset.
  unfold scan. apply blind_bind; [done|]. intros c.
  repeat (case_match; [by auto with blind|]). auto with blind.
Qed.
End lexer.

Section agree.
Context {A : Type} `{!input_adapter_protocol A}.

Abbreviation P := (M exn (parser A ())).
Abbreviation value := (parse_internal None true).

(** The two parsers are at the same place. *)
Definition parser_sim (p a : parser A ()) : Prop :=
  lexer_sim (ps_lexer p) (ps_lexer a) ∧ ps_last_token p = ps_last_token a ∧
  ps_errored p = false ∧ real_token (ps_last_token p).

(** [parse] returns where [accept] says true, and throws where it says false. *)
Definition agree {T} (rp : res exn (T * parser A ())) (ra : res exn (bool * parser A ())) : Prop :=
  match rp, ra with
  | Ok (_, p), Ok (b, a) => b = true ∧ parser_sim p a
  | Throw e, Ok (b, _) => b = false
  | Throw e, Throw _ => e = assert_failure
  | NoFuel, NoFuel => True
  | _, _ => False
  end.

(** A token for both. *)
Lemma agree_token {T} fuel (k : token_type → P T) (ka : token_type → P bool) p a :
  lexer_sim (ps_lexer p) (ps_lexer a) → ps_errored p = false →
  (∀ t p' a', parser_sim p' a' → ps_last_token p' = t → agree (k t p') (ka t a')) →
  agree ((get_token fuel ≫= k) p) ((get_token fuel ≫= ka) a).
Proof.
  intros Hl He Hk. pose proof (scan_blind fuel _ _ Hl) as Hb.
  pose proof (scan_yields fuel (ps_lexer p)) as Hy.
  unfold get_token, with_lexer, mbind, M_bind, set_last_token in *.
  destruct (scan fuel (ps_lexer p)) as [[t l]| |], (scan fuel (ps_lexer a)) as [[t' l']| |];
    try done.
  destruct Hb as [<- Hl']. apply Hk; [|done]. by split_and!.
Qed.

Lemma agree_mono {T U} (rp : res exn (T * parser A ())) ra (f : T → U) :
  agree rp ra → agree (match rp with
                       | Ok (x, p) => Ok (f x, p)
                       | Throw e => Throw e
                       | NoFuel => NoFuel
                       end) ra.
Proof. by destruct rp as [[]| |], ra as [[]| |]. Qed.

Lemma agree_bind {T U} (m : P T) (ma : P bool) (k : T → P U) (ka : bool → P bool) p a :
  agree (m p) (ma a) →
  (∀ x p' a', parser_sim p' a' → agree (k x p') (ka true a')) →
  (∀ a', ka false a' = Ok (false, a')) →
  agree ((m ≫= k) p) ((ma ≫= ka) a).
Proof.
  intros Hm Hk Hf. unfold mbind, M_bind, agree in *.
  destruct (m p) as [[x p']|e|], (ma a) as [[b a']|e'|]; try done.
  - destruct Hm as [-> Hs]. by apply Hk.
  - rewrite Hm. by rewrite Hf.
Qed.

(** [expect] against the test [accept] makes. *)
Lemma agree_expect {U} t (k : bool → P U) (ka : P bool) p a :
  parser_sim p a →
  (ps_last_token p = t → agree (k true p) (ka a)) →
  agree ((expect true t ≫= k) p)
    ((if negb (bool_decide (ps_last_token a = t)) then mret false else ka) a).
Proof.
  intros (Hl & Ht & He & Hr) Hk. unfold expect, mbind, M_bind, gets. rewrite <-Ht.
  destruct (decide (t = ps_last_token p)) as [Heq|Hne].
  - rewrite !bool_decide_true by done. cbn [negb]. by apply Hk.
  - rewrite !bool_decide_false by done. done.
Qed.

Lemma agree_elements (parse : bool → P json) (acc : P bool) fuel r p a :
  (∀ p a, parser_sim p a → agree (parse true p) (acc a)) → parser_sim p a →
  agree (parse_elements true parse true fuel r p) (accept_elements acc fuel a).
Proof.
  intros Hparse. revert r p a. induction fuel as [|fuel IH]; intros r p a Hs; [done|].
  cbn [parse_elements accept_elements]. apply agree_bind; [by apply Hparse| |done].
  intros v p1 a1 (Hl1 & _ & He1 & _). cbn [negb].
  rewrite (M_bind_Ok _ _ _ _ _ eq_refl). rewrite He1.
  apply agree_token; [done|done|]. intros t p2 a2 Hs2 Ht2.
  case_bool_decide as Hsep.
  - destruct Hs2 as (Hl2 & _ & He2 & _). apply agree_token; [done|done|].
    intros t3 p3 a3 Hs3 _. by apply IH.
  - assert (mret (bool_decide (t = end_array)) =
      if negb (bool_decide (ps_last_token a2 = end_array)) then mret false else mret true :> P bool) as ->.
    { destruct Hs2 as (_ & <- & _). rewrite Ht2. by case_bool_decide. }
    by apply agree_expect.
Qed.
Lemma agree_move_string {U} (k : list Z → P U) ra p a : parser_sim p a →
  (∀ s p', parser_sim p' a → agree (k s p') ra) → agree ((with_lexer move_string ≫= k) p) ra.
Proof.
  intros (Hl & Ht & He & Hr) Hk. erewrite M_bind_Ok by done. apply Hk. split_and!; try done.
Qed.

Lemma agree_members (parse : bool → P json) (acc : P bool) fuel r p a :
  (∀ p a, parser_sim p a → agree (parse true p) (acc a)) → parser_sim p a →
  agree (parse_members None true parse true fuel r p) (accept_members acc fuel a).
Proof.
  intros Hparse. revert r p a. induction fuel as [|fuel IH]; intros r p a Hs; [done|].
  cbn [parse_members accept_members]. rewrite (M_bind_Ok (gets _) _ a _ _ eq_refl).
  apply agree_expect; [done|]. intros Hstr. cbn [negb].
  eapply agree_move_string; [done|]. intros k p1 (Hl1 & _ & He1 & _).
  rewrite (M_bind_Ok (key_kept None true k) _ p1 true p1 eq_refl).
  apply agree_token; [done|done|]. intros t p2 a2 Hs2 Ht2.
  assert (t = ps_last_token a2) as -> by (destruct Hs2 as (_ & <- & _); done).
  apply agree_expect; [done|]. intros _. cbn [negb]. destruct Hs2 as (Hl2 & _ & He2 & _).
  apply agree_token; [done|done|]. intros t3 p3 a3 Hs3 _.
  apply agree_bind; [by apply Hparse| |done]. intros v p4 a4 (Hl4 & _ & He4 & _). cbn [negb].
  rewrite (M_bind_Ok (gets _) _ p4 _ _ eq_refl). rewrite He4.
  apply agree_token; [done|done|]. intros t5 p5 a5 Hs5 Ht5. case_bool_decide as Hsep.
  - destruct Hs5 as (Hl5 & _ & He5 & _). apply agree_token; [done|done|].
    intros t6 p6 a6 Hs6 _. by apply IH.
  - assert (mret (bool_decide (t5 = end_object)) =
      if negb (bool_decide (ps_last_token a5 = end_object)) then mret false else mret true :> P bool) as ->.
    { destruct Hs5 as (_ & <- & _). rewrite Ht5. by case_bool_decide. }
    by apply agree_expect.
Qed.

(** Values of one token. *)
Definition accept_scalar (t : token_type) : P bool :=
  match t with
  | value_float => l ← gets ps_lexer; mret (F64.isfinite (lx_value_float l))
  | literal_false | literal_null | literal_true
  | value_integer | value_string | value_unsigned => mret true
  | _ => mret false
  end.

Lemma agree_scalar t p a : parser_sim p a → ps_last_token p = t →
  agree (parse_scalar true t p) (accept_scalar t a).
Proof.
  intros Hs Ht. pose proof Hs as (Hl & Hta & He & Hr). rewrite Ht in Hr.
  assert (∀ t', t' ≠ t → agree ((ok ← expect true t'; mret (JDiscarded, ok)) p) ((mret false : P bool) a)) as Hexp.
  { intros t' Hne. unfold expect, mbind, M_bind, gets. by rewrite Ht, bool_decide_false. }
  destruct t; try (by apply Hexp); try (by split); unfold parse_scalar, accept_scalar.
  do 2 rewrite (M_bind_Ok (gets _) _ _ _ _ eq_refl). cbv zeta.
  replace (lx_value_float (ps_lexer a)) with (lx_value_float (ps_lexer p))
    by (unfold lexer_sim in Hl; congruence).
  by destruct (F64.isfinite _).
Qed.

(** [parse_internal] without a callback, one step unfolded. *)
Lemma value_step fuel (p : parser A ()) : ps_errored p = false →
  value (S fuel) true p =
  match ps_last_token p with
  | begin_object =>
      (t ← get_token fuel;
       if bool_decide (t = end_object) then mret (JObject [])
       else x ← parse_members None true (value fuel) true fuel (JObject []); mret x.1) p
  | begin_array =>
      (t ← get_token fuel;
       if bool_decide (t = end_array) then mret (JArray [])
       else x ← parse_elements true (value fuel) true fuel (JArray []); mret x.1) p
  | t => (x ← parse_scalar true t; mret x.1) p
  end.
Proof.
  intros He. cbn [parse_internal]. unfold start_container, end_container, finish_value, mbind, M_bind, mret, M_ret, gets, assert.
  rewrite He. cbn -[parse_scalar]. destruct (ps_last_token p).
  all: try (by destruct (parse_scalar true _ p) as [[[r []] p']| |]).
  all: destruct (get_token fuel p) as [[t p1]| |]; [|done..]; case_bool_decide; [done|].
  - by destruct (parse_elements _ _ _ _ _ _) as [[[r []] p2]| |].
  - by destruct (parse_members _ _ _ _ _ _ _) as [[[r []] p2]| |].
Qed.

Lemma agree_fst {U V} (m : P (U * V)) p ra :
  agree (m p) ra → agree ((x ← m; mret x.1) p) ra.
Proof. unfold mbind, M_bind. by destruct (m p) as [[[] ]| |], ra as [[]| |]. Qed.

(** [parse_internal] and [accept_internal]. *)
Lemma agree_value fuel p a : parser_sim p a →
  agree (value fuel true p) (accept_internal fuel a).
Proof.
  revert p a. induction fuel as [|fuel IH]; intros p a Hs; [done|].
  pose proof Hs as (Hl & Ht & He & _). rewrite value_step by done. cbn [accept_internal].
  rewrite (M_bind_Ok (gets _) _ _ _ _ eq_refl), <-Ht.
  destruct (ps_last_token p) eqn:Htok.
  all: try (apply agree_fst; exact (agree_scalar _ p a Hs Htok)).
  - apply agree_token; [done|done|]. intros t p1 a1 Hs1 _. case_bool_decide; [by split|].
    by apply agree_fst, agree_elements.
  - apply agree_token; [done|done|]. intros t p1 a1 Hs1 _. case_bool_decide; [by split|].
    by apply agree_fst, agree_members.
Qed.

(** [parse] and [accept]. *)
Lemma agree_parse fuel strict p : ps_errored p = false →
  agree (parse None true fuel strict p) (accept fuel strict p).
Proof.
  intros He. unfold parse, accept. apply agree_token; [done|done|]. intros t p1 a1 Hs1 _.
  apply agree_bind; [by apply agree_value| |done]. intros j p2 a2 Hs2. cbn [negb].
  pose proof Hs2 as (Hl2 & _ & He2 & _).
  assert (∀ p3 a3, parser_sim p3 a3 → agree
    ((errored ← gets ps_errored;
      if (errored : bool) then mret JDiscarded
      else if is_discarded j then mret JNull else mret j) p3) ((mret true : P bool) a3)) as Hfin.
  { intros p3 a3 Hs3. rewrite (M_bind_Ok (gets _) _ _ _ _ eq_refl).
    pose proof Hs3 as (_ & _ & -> & _). by destruct (is_discarded j). }
  destruct strict; [|by apply Hfin].
  rewrite M_bind_assoc. apply agree_token; [done|done|]. intros t3 p3 a3 Hs3 Ht3.
  assert (mret (bool_decide (t3 = end_of_input)) =
    if negb (bool_decide (ps_last_token a3 = end_of_input)) then mret false else mret true :> P bool) as ->.
  { destruct Hs3 as (_ & <- & _). rewrite Ht3. by case_bool_decide. }
  rewrite M_bind_assoc. apply agree_expect; [done|]. intros _. by apply Hfin.
Qed.
End agree.
