(* ===== verification/LexerReads.v ===== *)
(** The lexer, in the "C" locale, on texts the serializer writes: scanning the escaped text of a
    string gives the string back, scanning a number text gives its value.

    [at_text l r y]: the lexer [l] has the text [r] in front of it and has
    collected [y]. *)

From S2P Require Import Prelude Float64 JsonValue Adapters Serializer SerializerSpec Lexer.
From S2P Require Import Numeral Utf8 LexerTotal.

Section reads.
Context {A : Type} `{InputAdapter A}.

Abbreviation L := (M exn (lexer A)).
Abbreviation inp l := (pending (lx_ia l)).
Abbreviation safe := (wp (λ _ : exn, False)).

Definition at_text (l : lexer A) (r y : list Z) : Prop :=
  lex_ok l ∧ inp l = r ∧ lx_yytext l = y ∧ lx_decimal_point_char l = 46.

Lemma text_get {T} (k : Z → L T) Q l c r y : at_text l (c :: r) y →
  (∀ l', at_text l' r y → lx_current l' = c → safe (k c) Q l') →
  safe (get ≫= k) Q l.
Proof.
  intros (Hl & Hi & Hy & Hdp) Hk. apply safe_get; [done|]. intros c' l' Hg Hl'.
  destruct Hg as ([(Hi' & _)|(Hi' & _)] & Hc & Hy' & Hd); [congruence|].
  assert (c' = c ∧ inp l' = r) as [-> Hr] by (split; congruence).
  apply Hk; [|done]. split_and!; [done|congruence..].
Qed.

Lemma reads_add {T} (k : () → L T) Q l b r y : at_text l r y → is_byte b →
  (∀ l', at_text l' r (y ++ [b]) → safe (k ()) Q l') → safe (add b ≫= k) Q l.
Proof.
  intros (Hl & Hi & Hy & Hdp) Hb Hk. apply safe_add; [done|]. intros l' Ha. apply Hk.
  split; [by eapply adv_ok; [by eapply added_adv|]|].
  destruct Ha as (Hia & Hy' & Hd'). by rewrite Hia, Hy', Hy, Hd'.
Qed.

Lemma reads_add_codepoint {T} cp (k : () → L T) Q l r y : at_text l r y → scalar cp →
  (∀ l', at_text l' r (y ++ utf8_encode cp) → safe (k ()) Q l') →
  safe (add_codepoint cp ≫= k) Q l.
Proof.
  intros (Hl & Hi & Hy & Hdp) Hcp Hk. apply safe_add_codepoint; [apply Hcp|done|].
  intros l' Ha. apply Hk. split; [by eapply adv_ok; [by eapply added_adv|]|].
  destruct Ha as (Hia & Hy' & Hd'). by rewrite Hia, Hy', Hy, Hd'.
Qed.

(** ** Escapes *)

Lemma hex_value_hexify d : 0 ≤ d < 16 → hex_value (hexify d) = Some d.
Proof. intros. unfold hex_value, hexify, hexdigit. case_if; ztests; f_equal; lia. Qed.

(** The four digits of [\uXXXX]. *)
Lemma reads_codepoint {T} u (k : Z → L T) Q l r y :
  at_text l (tail (tail (u16_text u)) ++ r) y → lx_current l = 117 → 0 ≤ u ≤ 0xFFFF →
  (∀ l', at_text l' r y → safe (k u) Q l') → safe (get_codepoint ≫= k) Q l.
Proof.
  intros Hl Hc Hu Hk. apply wp_bind. unfold get_codepoint. apply wp_bind, wp_gets.
  apply safe_assert; [by rewrite Hc|].
  unfold u16_text in Hl. cbn [tail app] in Hl. rewrite !land_0f in Hl.
  rewrite (shiftr_div u 12 4096), (shiftr_div u 8 256), (shiftr_div u 4 16) in Hl by done.
  cbn [get_codepoint_loop].
  eapply text_get; [done|]. intros l1 H1 _. rewrite hex_value_hexify by div_lia.
  eapply text_get; [done|]. intros l2 H2 _. rewrite hex_value_hexify by div_lia.
  eapply text_get; [done|]. intros l3 H3 _. rewrite hex_value_hexify by div_lia.
  eapply text_get; [done|]. intros l4 H4 _. rewrite hex_value_hexify by div_lia.
  rewrite !Z.shiftl_mul_pow2 by lia.
  set (v := 0 + _ + _ + _ + _). assert (v = u) as -> by (unfold v; div_lia).
  apply safe_assert; [by ztests|]. by apply Hk.
Qed.

(** What remains after [scan_escape] succeeds on a scalar value. *)
Definition unescaped (r y : list Z) (cp : Z) (b : bool) (l : lexer A) : Prop :=
  b = true ∧ at_text l r (y ++ utf8_encode cp).

(** The surrogate pair of a code point above the basic plane. *)
Lemma surrogate_pair v : 0 ≤ v < 2 ^ 20 →
  Z.lor 0xD800 (Z.land (Z.shiftr v 10) 0x3FF) = 0xD800 + v / 1024 ∧
  Z.lor 0xDC00 (Z.land v 0x3FF) = 0xDC00 + v mod 1024.
Proof.
  intros Hv. rewrite !land_3ff, (shiftr_div v 10 1024) by done. split.
  - rewrite (lor_tag 54 10) by (lia || div_lia). f_equal. apply Z.mod_small. div_lia.
  - apply (lor_tag 55 10); [lia|]. div_lia.
Qed.

Lemma reads_unicode_escape l cp r y : at_text l (tail (tail (codepoint_text cp)) ++ r) y →
  lx_current l = 117 → scalar cp → safe scan_unicode_escape (unescaped r y cp) l.
Proof.
  intros Hl Hc Hcp. pose proof Hcp as [Hr Hs]. unfold codepoint_text in Hl.
  unfold scan_unicode_escape. destruct (cp <? 0x10000) eqn:E; zbool.
  - eapply reads_codepoint; [done|done|lia|]. intros l1 H1. ztest.
    replace ((0xD800 <=? cp) && (cp <=? 0xDBFF)) with false by (symmetry; apply andb_false_iff; zbool; lia).
    replace ((0xDC00 <=? cp) && (cp <=? 0xDFFF)) with false by (symmetry; apply andb_false_iff; zbool; lia).
    eapply reads_add_codepoint; [done|done|]. intros l2 H2. by split.
  - destruct (surrogate_pair (cp - 0x10000)) as [Hhi Hlo]; [lia|]. rewrite Hhi, Hlo in Hl.
    set (hi := 0xD800 + _) in Hl. set (lo := 0xDC00 + _) in Hl.
    assert (0xD800 ≤ hi ≤ 0xDBFF) as Hhir by (unfold hi; div_lia).
    assert (0xDC00 ≤ lo ≤ 0xDFFF) as Hlor by (unfold lo; div_lia).
    assert (hi * 2 ^ 10 + lo - 0x35FDC00 = cp) as Hcode by (unfold hi, lo; div_lia).
    clearbody hi lo.
    change (at_text l (tail (tail (u16_text hi)) ++ 92 :: 117 :: tail (tail (u16_text lo)) ++ r) y) in Hl.
    eapply reads_codepoint; [exact Hl|done|lia|]. intros l1 H1. ztests.
    eapply text_get; [exact H1|]. intros l2 H2 _. cbn [Z.eqb Pos.eqb negb].
    eapply text_get; [exact H2|]. intros l3 H3 Hc3. cbn [Z.eqb Pos.eqb negb].
    eapply reads_codepoint; [exact H3|done|lia|]. intros l4 H4. ztests.
    rewrite Z.shiftl_mul_pow2, Hcode by lia.
    eapply reads_add_codepoint; [done|done|]. intros l5 H5. by split.
Qed.

Lemma unescape_short c : short_escape c = true → unescape (short_text c) = Some c.
Proof.
  unfold short_escape. intros Hc. repeat (apply orb_prop in Hc as [Hc|Hc]); zbool; by subst.
Qed.

Lemma utf8_encode_ascii c : 0 ≤ c < 0x80 → utf8_encode c = [c].
Proof. intros. unfold utf8_encode. by ztest. Qed.

Lemma short_escape_ascii c : short_escape c = true → 0 ≤ c < 0x80.
Proof.
  unfold short_escape. intros Hc. repeat (apply orb_prop in Hc as [Hc|Hc]); zbool; lia.
Qed.

(** After the backslash. *)
Lemma reads_escape_short l c r y : at_text l (short_text c :: r) y → short_escape c = true →
  safe scan_escape (unescaped r y c) l.
Proof.
  intros Hl Hc. unfold scan_escape. eapply text_get; [done|]. intros l1 H1 _.
  rewrite unescape_short by done. pose proof (short_escape_ascii c Hc).
  eapply reads_add; [done|unfold is_byte; lia|]. intros l2 H2.
  split; [done|]. by rewrite utf8_encode_ascii.
Qed.

Lemma reads_escape_unicode l cp r y : at_text l (tail (codepoint_text cp) ++ r) y → scalar cp →
  safe scan_escape (unescaped r y cp) l.
Proof.
  intros Hl Hcp. unfold scan_escape.
  replace (tail (codepoint_text cp)) with (117 :: tail (tail (codepoint_text cp))) in Hl
    by (unfold codepoint_text; by destruct (cp <? 0x10000)).
  eapply text_get; [done|]. intros l1 H1 Hc1. cbn.
  by apply reads_unicode_escape.
Qed.

(** ** Bytes above 0x7f *)

Lemma reads_bytes_in_ranges rs bs l r y : at_text l (bs ++ r) y → in_ranges bs rs →
  Forall is_byte bs →
  safe (bytes_in_ranges rs) (λ b l', b = true ∧ at_text l' r (y ++ bs)) l.
Proof.
  intros Hl Hbs. revert l y Hl. induction Hbs as [|b [lo hi] bs rs Hb _ IH]; intros l y Hl Hall;
    cbn [bytes_in_ranges].
  - split; [done|]. by rewrite app_nil_r.
  - apply Forall_cons in Hall as [Hbb Hall]. cbn [app] in Hl.
    eapply text_get; [done|]. intros l1 H1 _. cbn [fst snd] in Hb. ztests.
    eapply reads_add; [done|done|]. intros l2 H2.
    eapply wp_mono; [by apply IH|]. intros b' l3 [-> H3]. split; [done|].
    by rewrite <-app_assoc in H3.
Qed.

(** The encoding of a scalar value lies in the ranges for its first byte. *)
Lemma utf8_ranges_complete cp : scalar cp → 0x80 ≤ cp →
  ∃ c bs rs, utf8_encode cp = c :: bs ∧ utf8_ranges c = Some rs ∧ in_ranges bs rs ∧
    is_byte c ∧ 0x80 ≤ c ∧ Forall is_byte bs.
Proof.
  intros Hcp Hge. pose proof (utf8_encode_bytes cp Hcp) as Hb. destruct Hcp as [Hr Hs].
  assert (∃ c bs rs, utf8_encode cp = c :: bs ∧ utf8_ranges c = Some rs ∧ in_ranges bs rs ∧
    0x80 ≤ c) as (c & bs & rs & E & Hrs & Hin & Hc).
  { clear Hb. unfold utf8_encode. ztest. repeat case_if.
    all: match goal with |- ∃ c bs rs, ?x :: ?l = _ ∧ _ => exists x, l end.
    all: unfold utf8_ranges, in_ranges.
    all: repeat case_if.
    all: repeat match goal with
      | H : (_ || _) = true |- _ => apply orb_prop in H as [H|H]; zbool
      | H : (_ && _) = false |- _ => apply andb_false_iff in H as [H|H]; zbool
      end.
    all: try (exfalso; div_lia).
    all: eexists; split; [done|]; split; [done|]; split; [|div_lia].
    all: repeat (constructor; [simpl; div_lia|]); constructor. }
  exists c, bs, rs. rewrite E in Hb. apply Forall_cons in Hb as [? ?]. by split_and!.
Qed.
(** ** Whole strings *)

(** One scalar value of the text, then the loop goes on. *)
Lemma reads_scalar ea cp fuel l r y Q : at_text l (scalar_text ea cp ++ r) y → scalar cp →
  (∀ l', at_text l' r (y ++ utf8_encode cp) → safe (scan_string_loop fuel) Q l') →
  safe (scan_string_loop (S fuel)) Q l.
Proof.
  intros Hl Hcp Hk. unfold scalar_text in Hl.
  assert (∀ rest, at_text l (92 :: rest) y →
    (∀ l1, at_text l1 rest y → safe scan_escape (unescaped r y cp) l1) →
    safe (scan_string_loop (S fuel)) Q l) as Hesc.
  { intros rest H0 He. cbn [scan_string_loop]. eapply text_get; [done|]. intros l1 H1 _.
    cbn [Z.eqb Pos.eqb]. apply wp_bind. eapply wp_mono; [by apply He|].
    intros b l2 [-> H2]. by apply Hk. }
  assert (at_text l (codepoint_text cp ++ r) y → safe (scan_string_loop (S fuel)) Q l) as Hpoint.
  { intros H1. replace (codepoint_text cp) with (92 :: tail (codepoint_text cp)) in H1
      by (unfold codepoint_text; by destruct (cp <? 0x10000)).
    eapply Hesc; [done|]. intros l1 H2. by apply reads_escape_unicode. }
  destruct (short_escape cp) eqn:Es.
  { eapply Hesc; [done|]. intros l1 H1. by apply reads_escape_short. }
  destruct (control_escape cp) eqn:Ec; [by apply Hpoint|].
  destruct (ea && (127 <=? cp)); [by apply Hpoint|]. clear Hpoint Hesc.
  cbn [scan_string_loop].
  destruct (decide (cp < 0x80)) as [Hlt|Hge].
  - rewrite utf8_encode_ascii in Hl, Hk by (destruct Hcp; lia).
    unfold short_escape in Es. unfold control_escape in Ec.
    assert (32 ≤ cp) as H32.
    { destruct (decide (cp < 32)); [|lia]. destruct Hcp. exfalso. zbool.
      repeat match goal with
      | H : (_ && _) = false |- _ => apply andb_false_iff in H as [H|H]; zbool
      end; lia. }
    eapply text_get; [done|]. intros l1 H1 Hc1. unfold eof. zbool. ztests.
    eapply reads_add; [done|unfold is_byte; lia|]. done.
  - destruct (utf8_ranges_complete cp Hcp) as (c & bs & rs & E & Hrs & Hin & Hcb & Hch & Hbs); [lia|].
    rewrite E in Hl, Hk. eapply text_get; [done|]. intros l1 H1 Hc1.
    unfold is_byte, eof in *. ztests. rewrite Hrs. apply wp_bind. unfold next_byte_in_range.
    apply wp_bind, wp_gets. rewrite Hc1. eapply reads_add; [done|done|]. intros l2 H2.
    eapply wp_mono; [by eapply reads_bytes_in_ranges|]. intros b l3 [-> H3].
    apply Hk. by rewrite <-app_assoc in H3.
Qed.

Lemma reads_string_loop ea cps fuel l r y :
  at_text l (concat (scalar_text ea <$> cps) ++ 34 :: r) y → Forall scalar cps →
  (length cps < fuel)%nat →
  safe (scan_string_loop fuel) (λ t l', t = value_string ∧ at_text l' r (y ++ utf8_text cps)) l.
Proof.
  intros Hl Hcps. revert fuel l y Hl. induction Hcps as [|cp cps Hcp _ IH]; intros fuel l y Hl Hf.
  - destruct fuel as [|fuel]; [lia|]. cbn [scan_string_loop concat fmap list_fmap app] in *.
    eapply text_get; [done|]. intros l1 H1 _. cbn [Z.eqb Pos.eqb].
    split; [done|]. unfold utf8_text. simpl. by rewrite app_nil_r.
  - destruct fuel as [|fuel]; [simpl in Hf; lia|]. rewrite fmap_cons in Hl. cbn [concat] in Hl.
    rewrite <-app_assoc in Hl. eapply reads_scalar; [done|done|]. intros l1 H1.
    eapply wp_mono; [apply IH; [done|simpl in Hf; lia]|]. intros t l2 [-> H2].
    split; [done|]. by rewrite <-app_assoc in H2.
Qed.
Lemma reads_scan_string ea cps fuel l r y :
  at_text l (concat (scalar_text ea <$> cps) ++ 34 :: r) y → Forall scalar cps →
  lx_current l = 34 → (length cps < fuel)%nat →
  safe (scan_string fuel) (λ t l', t = value_string ∧ at_text l' r (utf8_text cps)) l.
Proof.
  intros (Hl & Hi & Hy & Hdp) Hcps Hc Hf. unfold scan_string. apply wp_bind. unfold wp, reset at 1.
  apply wp_bind, wp_gets. cbn [lx_current]. apply safe_assert; [by rewrite Hc|].
  by eapply (reads_string_loop _ _ _ _ _ []).
Qed.

(** ** Numbers *)

(** A text behind a number that does not continue it. *)
Definition stops (r : list Z) : Prop :=
  match r with
  | [] => True
  | c :: _ => F64.is_digit c = false ∧ c ≠ 46 ∧ c ≠ 101 ∧ c ≠ 69
  end.

Lemma got_stops l r y c l' : at_text l r y → stops r → got l c l' →
  F64.is_digit c = false ∧ c ≠ 46 ∧ c ≠ 101 ∧ c ≠ 69.
Proof.
  intros (_ & Hi & _) Hs ([(_ & -> & _)|(E & _)] & _); [done|].
  rewrite <-Hi, E in Hs. exact Hs.
Qed.

(** The end of a number, in front of [r]. *)
Definition number_end (nt : token_type) (r y : list Z) (Q : token_type → lexer A → Prop) : Prop :=
  ∀ l1 c l2, at_text l1 r y → got l1 c l2 → safe (scan_number_done nt) Q l2.

Lemma mark_false c : c ≠ 101 → c ≠ 69 → (c =? 101) || (c =? 69) = false.
Proof. intros. by ztests. Qed.

Lemma reads_any2 nt ds fuel l r y Q : at_text l (ds ++ r) y →
  Forall (λ c, F64.is_digit c = true) ds → stops r → (length ds < fuel)%nat →
  number_end nt r (y ++ ds) Q → safe (scan_number_any2 fuel nt) Q l.
Proof.
  intros Hl Hds Hs. revert fuel l y Hl. induction Hds as [|d ds Hd _ IH]; intros fuel l y Hl Hf HQ;
    (destruct fuel as [|fuel]; [simpl in Hf; lia|]); cbn [scan_number_any2].
  - apply safe_get; [apply Hl|]. intros c l1 Hg Hl1.
    destruct (got_stops _ _ _ _ _ Hl Hs Hg) as (-> & _). rewrite app_nil_r in HQ. by eapply HQ.
  - cbn [app] in Hl. eapply text_get; [done|]. intros l1 H1 _. rewrite Hd.
    eapply reads_add; [done|by apply digit_byte|]. intros l2 H2.
    apply (IH _ _ (y ++ [d])); [done|simpl in Hf; lia|]. by rewrite <-app_assoc.
Qed.

(** The exponent of a numeral, or its absence. *)
Lemma reads_exponent e sg ds fuel l r y Q : at_text l (sg ++ ds ++ r) (y ++ [e]) →
  exp_ok (Some (e, sg, ds)) → stops r → (length ds ≤ fuel)%nat →
  number_end value_float r (y ++ exp_text (Some (e, sg, ds))) Q →
  safe (scan_number_exponent fuel) Q l.
Proof.
  intros Hl (He & Hsg & [Hds Hne]) Hs Hf HQ. destruct ds as [|d ds]; [done|].
  apply Forall_cons in Hds as [Hd Hds].
  assert (∀ l1 y', at_text l1 (ds ++ r) y' → y' ++ ds = y ++ exp_text (Some (e, sg, d :: ds)) →
    safe (scan_number_any2 fuel value_float) Q l1) as Hgo.
  { intros l1 y' H1 Ey. eapply reads_any2; [done..|simpl in Hf; lia|]. by rewrite Ey. }
  unfold scan_number_exponent. pose proof (is_digit_range d) as Hdr. apply Hdr in Hd as Hdr'.
  destruct Hsg as [->|Hsg].
  - cbn [app] in Hl. eapply text_get; [done|]. intros l1 H1 _. ztests. rewrite Hd.
    eapply reads_add; [done|by apply digit_byte|]. intros l2 H2. eapply Hgo; [done|].
    simpl. by rewrite <-!app_assoc.
  - assert (∃ s, sg = [s] ∧ (s = 43 ∨ s = 45)) as (s & -> & Hss) by (destruct Hsg; eauto).
    cbn [app] in Hl. eapply text_get; [done|]. intros l1 H1 _.
    replace ((s =? 43) || (s =? 45)) with true by (destruct Hss as [->| ->]; done).
    eapply reads_add; [done|unfold is_byte; lia|]. intros l2 H2. unfold scan_number_sign.
    eapply text_get; [done|]. intros l3 H3 _. rewrite Hd.
    eapply reads_add; [done|by apply digit_byte|]. intros l4 H4. eapply Hgo; [done|].
    simpl. by rewrite <-!app_assoc.
Qed.

(** What follows the digits of a numeral: an exponent, or its end. *)
Lemma reads_exp_branch x fuel l r y nt Q (k : Z → L token_type) :
  at_text l (exp_text x ++ r) y → exp_ok x → stops r → (length (exp_text x) ≤ S fuel)%nat →
  number_end (match x with Some _ => value_float | None => nt end) r (y ++ exp_text x) Q →
  (∀ c, F64.is_digit c = false → c ≠ 46 →
     k c = if (c =? 101) || (c =? 69) then add c ;; scan_number_exponent fuel
           else scan_number_done nt) →
  safe (get ≫= k) Q l.
Proof.
  intros Hl Hx Hs Hf HQ Hk. destruct x as [[[e sg] ds]|].
  - pose proof Hx as (He & _ & _). cbn [exp_text app] in Hl. rewrite <-app_assoc in Hl.
    eapply text_get; [done|]. intros l1 H1 _.
    rewrite Hk by (destruct He as [->| ->]; done).
    replace ((e =? 101) || (e =? 69)) with true by (destruct He as [->| ->]; done).
    eapply reads_add; [done|unfold is_byte; lia|]. intros l2 H2.
    eapply reads_exponent; [done..| |done]. simpl in Hf. rewrite length_app in Hf. lia.
  - cbn [exp_text app] in Hl. rewrite app_nil_r in HQ. apply safe_get; [apply Hl|].
    intros c l1 Hg _. destruct (got_stops _ _ _ _ _ Hl Hs Hg) as (Hd & H46 & H101 & H69).
    rewrite Hk, mark_false by done. by eapply HQ.
Qed.

Lemma reads_decimal2 ds x fuel l r y Q : at_text l (ds ++ exp_text x ++ r) y →
  Forall (λ c, F64.is_digit c = true) ds → exp_ok x → stops r →
  (length (ds ++ exp_text x) < fuel)%nat →
  number_end value_float r (y ++ ds ++ exp_text x) Q →
  safe (scan_number_decimal2 fuel value_float) Q l.
Proof.
  intros Hl Hds Hx Hs. revert fuel l y Hl.
  induction Hds as [|d ds Hd _ IH]; intros fuel l y Hl Hf HQ;
    (destruct fuel as [|fuel]; [simpl in Hf; lia|]); cbn [scan_number_decimal2].
  - eapply (reads_exp_branch x fuel); [done..|simpl in Hf; lia| |].
    + by destruct x.
    + intros c Hd Hc. by rewrite Hd.
  - cbn [app] in Hl. eapply text_get; [done|]. intros l1 H1 _. rewrite Hd.
    eapply reads_add; [done|by apply digit_byte|]. intros l2 H2.
    apply (IH _ _ (y ++ [d])); [done|simpl in Hf; lia|]. by rewrite <-app_assoc.
Qed.

(** The fraction and the exponent of a numeral, or its end. *)
Lemma reads_frac_branch f x fuel l r y nt Q (k : Z → L token_type) :
  at_text l (frac_text 46 f ++ exp_text x ++ r) y → frac_ok f → exp_ok x → stops r →
  (length (frac_text 46 f ++ exp_text x) ≤ S fuel)%nat →
  number_end (match f, x with None, None => nt | _, _ => value_float end) r
    (y ++ frac_text 46 f ++ exp_text x) Q →
  (∀ c, F64.is_digit c = false →
     k c = if c =? 46 then dp ← gets lx_decimal_point_char; add dp ;; scan_number_decimal1 fuel
           else if (c =? 101) || (c =? 69) then add c ;; scan_number_exponent fuel
           else scan_number_done nt) →
  safe (get ≫= k) Q l.
Proof.
  intros Hl Hf Hx Hs Hlen HQ Hk. destruct f as [fp|].
  - destruct Hf as [Hfp Hne]. destruct fp as [|d fp]; [done|].
    apply Forall_cons in Hfp as [Hd Hfp]. cbn [frac_text app] in Hl.
    eapply text_get; [done|]. intros l1 H1 _. rewrite Hk by done. cbn [Z.eqb Pos.eqb].
    apply wp_bind, wp_gets. pose proof H1 as (_ & _ & _ & ->).
    eapply reads_add; [done|by split|]. intros l2 H2. unfold scan_number_decimal1.
    eapply text_get; [done|]. intros l3 H3 _. rewrite Hd.
    eapply reads_add; [done|by apply digit_byte|]. intros l4 H4.
    eapply reads_decimal2; [done..| |].
    + simpl in Hlen. lia.
    + rewrite <-!app_assoc. exact HQ.
  - cbn [frac_text app] in *. eapply reads_exp_branch; [done..| |].
    + by destruct x.
    + intros c Hd Hc. rewrite Hk by done. by ztest.
Qed.

Lemma reads_any1 ds f x fuel l r y nt Q :
  at_text l (ds ++ frac_text 46 f ++ exp_text x ++ r) y →
  Forall (λ c, F64.is_digit c = true) ds → frac_ok f → exp_ok x → stops r →
  (length (ds ++ frac_text 46 f ++ exp_text x) < fuel)%nat →
  number_end (match f, x with None, None => nt | _, _ => value_float end) r
    (y ++ ds ++ frac_text 46 f ++ exp_text x) Q →
  safe (scan_number_any1 fuel nt) Q l.
Proof.
  intros Hl Hds Hf Hx Hs. revert fuel l y Hl.
  induction Hds as [|d ds Hd _ IH]; intros fuel l y Hl Hlen HQ;
    (destruct fuel as [|fuel]; [simpl in Hlen; lia|]); cbn [scan_number_any1].
  - eapply (reads_frac_branch f x fuel); [done..|simpl in Hlen; lia|done|].
    intros c Hd. by rewrite Hd.
  - cbn [app] in Hl. eapply text_get; [done|]. intros l1 H1 _. rewrite Hd.
    eapply reads_add; [done|by apply digit_byte|]. intros l2 H2.
    apply (IH _ _ (y ++ [d])); [done|simpl in Hlen; lia|]. by rewrite <-app_assoc.
Qed.

(** The digits of a number from the first on, after the sign [y]. *)
Lemma reads_int c ds f x fuel l r y nt Q : is_int (c :: ds) →
  at_text l (ds ++ frac_text 46 f ++ exp_text x ++ r) y →
  frac_ok f → exp_ok x → stops r →
  (length (ds ++ frac_text 46 f ++ exp_text x) < fuel)%nat →
  number_end (match f, x with None, None => nt | _, _ => value_float end) r
    (y ++ (c :: ds) ++ frac_text 46 f ++ exp_text x) Q →
  safe (if c =? 48 then add c ;; scan_number_zero fuel nt
        else add c ;; scan_number_any1 fuel nt) Q l.
Proof.
  intros [[Hds _] Hi] Hl Hf Hx Hs Hlen HQ. apply Forall_cons in Hds as [Hd Hds].
  destruct Hi as [[= -> ->]|(c' & ds' & [= <- <-] & Hc)].
  - cbn [Z.eqb Pos.eqb]. eapply reads_add; [done|by split|]. intros l2 H2.
    unfold scan_number_zero. cbn [app] in *.
    eapply (reads_frac_branch f x fuel); [done..|lia| |].
    + by rewrite <-app_assoc.
    + done.
  - unfold is_digit1_9 in Hc. zbool. ztest. eapply reads_add; [done|by apply digit_byte|].
    intros l2 H2. eapply reads_any1; [done..|]. by rewrite <-app_assoc.
Qed.
Lemma first_digit {T} d (a b e : T) : F64.is_digit d = true →
  (if d =? 48 then a else if is_digit1_9 d then b else e) = if d =? 48 then a else b.
Proof. rewrite digit_cases. intros Hd. destruct (d =? 48); [done|]. simpl in Hd. by rewrite Hd. Qed.

(** A whole numeral, whose first character is the current one. *)
Lemma reads_scan_number n c0 tl fuel l r y Q : numeral_ok n → is_int (nm_int n) →
  numeral_text 46 n = c0 :: tl → lx_current l = c0 → at_text l (tl ++ r) y → stops r →
  (length (numeral_text 46 n) < fuel)%nat →
  number_end (type_of_numeral n) r (numeral_text 46 n) Q →
  safe (scan_number fuel) Q l.
Proof.
  intros Hn Hi Ht Hc (Hl & Hinp & _ & Hdp) Hs Hlen HQ. destruct Hn as (_ & Hf & Hx).
  unfold scan_number. apply wp_bind. unfold wp, reset at 1. apply wp_bind, wp_gets.
  cbn [lx_current]. set (l1 := mk_lexer _ _ _ _ _ _ _ _ _ _).
  assert (at_text l1 (tl ++ r) []) as H1 by by split_and!. clearbody l1. rewrite Hc.
  unfold numeral_text, type_of_numeral in *.
  destruct (nm_int n) as [|d ds]; [by destruct Hi as [[_ ?] _]|].
  pose proof Hi as [[[Hd _]%Forall_cons _] _]. pose proof Hd as Hdr%is_digit_range.
  destruct (nm_neg n); cbn [app] in Ht; injection Ht as <- <-; cbn [app] in H1.
  - cbn [Z.eqb Pos.eqb]. eapply reads_add; [done|by split|]. intros l2 H2. unfold scan_number_minus.
    eapply text_get; [done|]. intros l3 H3 _. rewrite <-!app_assoc in H3.
    rewrite first_digit by done.
    eapply (reads_int d ds (nm_frac n) (nm_exp n)); [done..| |].
    + simpl in Hlen. lia.
    + done.
  - ztest. rewrite <-!app_assoc in H1.
    rewrite first_digit by done.
    eapply (reads_int d ds (nm_frac n) (nm_exp n)); [done..| |].
    + simpl in Hlen. lia.
    + done.
Qed.

(** The lexer in front of [r]. *)
Definition before (r : list Z) (l : lexer A) : Prop :=
  lex_ok l ∧ inp l = r ∧ lx_decimal_point_char l = 46.

Lemma number_end_unsigned z r : in_u 64 z →
  number_end value_unsigned r (to_string z)
    (λ t l, t = value_unsigned ∧ lx_value_unsigned l = z ∧ before r l).
Proof.
  intros Hz l1 c l2 (Hl & Hi & Hy & Hdp) Hg. unfold scan_number_done.
  pose proof Hg as (_ & _ & Hy2 & Hd2). eapply safe_unget; [done|]. intros l3 Hia Hy3 Hd3.
  apply wp_bind, wp_gets. rewrite Hy3, Hy2, Hy. unfold to_string, in_u in *. ztest.
  destruct (digits_spec z) as [[[Hds _] _] Hv]; [lia|].
  unfold strtoull. rewrite span_digits_all, Hv by done. ztest.
  apply safe_assert; [done|]. rewrite uwrap_small, Z.eqb_refl by done.
  split; [done|]. split; [done|]. unfold before, lex_ok in *.
  cbn [lx_ia lx_decimal_point_char]. subst r. by rewrite Hia, Hd3, Hd2.
Qed.

Lemma number_end_integer z r : in_s 64 z → z < 0 →
  number_end value_integer r (to_string z)
    (λ t l, t = value_integer ∧ lx_value_integer l = z ∧ before r l).
Proof.
  intros Hz Hneg l1 c l2 (Hl & Hi & Hy & Hdp) Hg. unfold scan_number_done.
  pose proof Hg as (_ & _ & Hy2 & Hd2). eapply safe_unget; [done|]. intros l3 Hia Hy3 Hd3.
  apply wp_bind, wp_gets. rewrite Hy3, Hy2, Hy. unfold to_string. ztest.
  destruct (digits_spec (- z)) as [[[Hds _] _] Hv]; [lia|].
  unfold strtoll. cbn [Z.eqb Pos.eqb]. rewrite span_digits_all, Hv, Z.opp_involutive by done.
  pose proof Hz as [Hz1 Hz2]. change (64 - 1) with 63 in *. do 2 ztest.
  apply safe_assert; [done|]. rewrite swrap_small, Z.eqb_refl by done.
  split; [done|]. split; [done|]. unfold before, lex_ok in *.
  cbn [lx_ia lx_decimal_point_char]. subst r. by rewrite Hia, Hd3, Hd2.
Qed.

Lemma number_end_float n r : numeral_ok n →
  number_end value_float r (numeral_text 46 n)
    (λ t l, t = value_float ∧ lx_value_float l = numeral_float n ∧ before r l).
Proof.
  intros Hn l1 c l2 (Hl & Hi & Hy & Hdp) Hg. unfold scan_number_done.
  pose proof Hg as (_ & _ & Hy2 & Hd2). eapply safe_unget; [done|]. intros l3 Hia Hy3 Hd3.
  apply wp_bind, wp_gets. unfold scan_number_float. apply wp_bind, wp_gets, wp_bind, wp_gets.
  rewrite Hy3, Hy2, Hy, Hd3, Hd2, Hdp. rewrite strtod_numeral by done.
  apply wp_bind. unfold wp, set_float at 1. apply safe_assert; [done|].
  split; [done|]. split; [done|]. unfold before, lex_ok in *.
  cbn [lx_ia lx_decimal_point_char]. subst r. by rewrite Hia, Hd3, Hd2.
Qed.
End reads.
