(* ===== verification/TextRoundTrip.v ===== *)
(** Parsing what [dump] wrote.

    [scan_*]: the tokens of a rendered text, white space in front of them
    included.  [value_reads]: from the text of a value the parser builds the
    value, up to what the text format does not keep ([text_canon]). *)

From S2P Require Import Prelude Float64 JsonValue Adapters Serializer SerializerSpec Lexer.
From S2P Require Import Parser Numeral Utf8 LexerTotal ParserTotal LexerReads.

(** The double a reader gets for the text of [f]. *)
Definition reparse (f : Z) : Z := (F64.strtod 46 (float_text 0 46 f)).1.

(** A value after a trip through its text: non-negative integers come back
    unsigned, floating point numbers with fifteen digits, infinities and NaNs as
    null. *)
Fixpoint text_canon (j : json) : json :=
  match j with
  | JInt z => if 0 <=? z then JUInt z else JInt z
  | JFloat f => if F64.isfinite f then JFloat (reparse f) else JNull
  | JArray a => JArray ((fix go a := match a with [] => [] | v :: a => text_canon v :: go a end) a)
  | JObject o =>
      JObject ((fix go o := match o with
                            | [] => []
                            | kv :: o => (kv.1, text_canon kv.2) :: go o
                            end) o)
  | j => j
  end.

(** Every floating point number of the value is read back as a finite one. *)
Fixpoint floats_finite (j : json) : Prop :=
  match j with
  | JFloat f => F64.isfinite f = true → F64.isfinite (reparse f) = true
  | JObject o =>
      (fix go o := match o with [] => True | kv :: o => floats_finite kv.2 ∧ go o end) o
  | JArray a => (fix go a := match a with [] => True | v :: a => floats_finite v ∧ go a end) a
  | _ => True
  end.

Lemma floats_finite_array a : floats_finite (JArray a) ↔ Forall floats_finite a.
Proof. simpl. induction a; simpl; [by split; constructor|]. rewrite Forall_cons. naive_solver. Qed.

Lemma floats_finite_object o : floats_finite (JObject o) ↔ Forall (λ kv, floats_finite kv.2) o.
Proof. simpl. induction o; simpl; [by split; constructor|]. rewrite Forall_cons. naive_solver. Qed.

Definition spaces (ws : list Z) : Prop := Forall (λ c, is_space c = true) ws.

Section tokens.
Context {A : Type} `{InputAdapter A}.

Abbreviation L := (M exn (lexer A)).
Abbreviation inp l := (pending (lx_ia l)).
Abbreviation safe := (wp (λ _ : exn, False)).

Lemma before_at r (l : lexer A) : before r l → at_text l r (lx_yytext l).
Proof. intros (?&?&?). by split_and!. Qed.

Lemma at_before r y (l : lexer A) : at_text l r y → before r l.
Proof. intros (?&?&?&?). by split_and!. Qed.

Lemma reads_skip_spaces {T} ws c r fuel (k : Z → L T) Q l : before (ws ++ c :: r) l →
  spaces ws → is_space c = false → (length ws < fuel)%nat →
  (∀ l', before r l' → lx_current l' = c → safe (k c) Q l') →
  safe (skip_spaces fuel ≫= k) Q l.
Proof.
  intros Hl Hws Hc Hf Hk. apply wp_bind. revert fuel l Hl Hf.
  induction Hws as [|w ws Hw _ IH]; intros fuel l Hl Hf;
    (destruct fuel as [|fuel]; [simpl in Hf; lia|]); cbn [skip_spaces app] in *;
    (eapply text_get; [by apply before_at|]); intros l1 H1 Hc1.
  - rewrite Hc. apply Hk; [by eapply at_before|done].
  - rewrite Hw. apply IH; [by eapply at_before|simpl in Hf; lia].
Qed.

(** What is left of [scan] once the first character is known. *)
Abbreviation scan_reads ws text r t V :=
  (∀ fuel l, before (ws ++ text ++ r) l → spaces ws → (length (ws ++ text) < fuel)%nat →
     safe (scan fuel) (λ t' l', t' = t ∧ V l' ∧ before r l') l).

Lemma scan_structural c t ws r :
  (c, t) ∈ [(91, begin_array); (93, end_array); (123, begin_object); (125, end_object);
            (58, name_separator); (44, value_separator)] →
  scan_reads ws [c] r t (λ _, True).
Proof.
  intros Hc fuel l Hl Hws Hf. unfold scan. cbn [app] in Hl. rewrite length_app in Hf.
  repeat (apply elem_of_cons in Hc as [[= -> ->]|Hc]); [..|by apply elem_of_nil in Hc].
  all: eapply reads_skip_spaces; [done|done|done|lia|]; intros l' Hl' _; by split_and!.
Qed.

Lemma reads_literal_rest text t r (l : lexer A) : before (text ++ r) l →
  safe (scan_literal_rest text t) (λ t' l', t' = t ∧ True ∧ before r l') l.
Proof.
  revert l. induction text as [|c text IH]; intros l Hl; cbn [scan_literal_rest]; [by split_and!|].
  eapply text_get; [by apply before_at|]. intros l1 H1 _. rewrite Z.eqb_refl. cbn [negb].
  apply IH. by eapply at_before.
Qed.

Lemma scan_literals text t ws r :
  (text, t) ∈ [(lit "true", literal_true); (lit "false", literal_false);
               (lit "null", literal_null)] →
  scan_reads ws text r t (λ _, True).
Proof.
  intros Hc fuel l Hl Hws Hf. unfold scan. rewrite length_app in Hf.
  repeat (apply elem_of_cons in Hc as [[= -> ->]|Hc]); [..|by apply elem_of_nil in Hc].
  all: eapply reads_skip_spaces; [exact Hl|done|done|lia|]; intros l' Hl' Hc'.
  all: unfold scan_literal; cbn [Z.eqb Pos.eqb]; apply wp_bind, wp_gets.
  all: apply safe_assert; [by rewrite Hc'|]; by apply reads_literal_rest.
Qed.

Lemma scan_quoted ea s ws r : utf8_valid s →
  scan_reads ws (quoted s ea) r value_string (λ l, lx_yytext l = s).
Proof.
  intros (cps & Hcps & ->) fuel l Hl Hws Hf. unfold scan, quoted in *.
  destruct (escape_utf8 ea cps Hcps) as [_ Ht]. rewrite Ht in *. cbn [app] in Hl.
  rewrite <-app_assoc in Hl. cbn [app] in Hl.
  eapply reads_skip_spaces; [done|done|done|rewrite length_app in Hf; lia|].
  intros l' Hl' Hc'. cbn [Z.eqb Pos.eqb].
  eapply wp_mono; [eapply reads_scan_string; [by apply before_at|done|done|]|].
  - rewrite length_app in Hf. simpl in Hf. rewrite length_app in Hf.
    assert (length cps ≤ length (concat (scalar_text ea <$> cps)))%nat; [|lia].
    clear. induction cps as [|cp cps IH]; [done|]. csimpl. rewrite length_app.
    assert (1 ≤ length (scalar_text ea cp))%nat; [|lia].
    unfold scalar_text, utf8_encode, codepoint_text. repeat case_if; simpl; lia.
  - intros t l2 [-> H2]. split; [done|]. split; [apply H2|]. by eapply at_before.
Qed.

(** A number text starts with a minus sign or a digit. *)
Lemma numeral_head n : numeral_ok n → ∃ c tl, numeral_text 46 n = c :: tl ∧
  (c = 45 ∨ 48 ≤ c ≤ 57).
Proof.
  intros ([Hd Hne] & _). unfold numeral_text. destruct (nm_neg n); [by eauto|].
  destruct (nm_int n) as [|d ds]; [done|]. eexists _, _. split; [done|]. right.
  apply Forall_cons in Hd as [Hd _]. by apply is_digit_range.
Qed.

Lemma scan_numeral n ws r Q : numeral_ok n → is_int (nm_int n) → stops r →
  number_end (type_of_numeral n) r (numeral_text 46 n) Q →
  ∀ fuel l, before (ws ++ numeral_text 46 n ++ r) l → spaces ws →
    (length (ws ++ numeral_text 46 n) < fuel)%nat → safe (scan fuel) Q l.
Proof.
  intros Hn Hi Hs HQ fuel l Hl Hws Hf. destruct (numeral_head n Hn) as (c & tl & E & Hc).
  rewrite E in Hl. rewrite length_app in Hf. cbn [app] in Hl. unfold scan.
  eapply reads_skip_spaces; [done|done| |lia|].
  { unfold is_space. by ztests. }
  intros l' Hl' Hc'. do 10 ztest.
  replace ((c =? 45) || F64.is_digit c) with true; cycle 1.
  { symmetry. apply orb_true_iff. rewrite is_digit_range, Z.eqb_eq. done. }
  eapply reads_scan_number; [done|done|done|done|by apply before_at|done|lia|done].
Qed.

Lemma scan_unsigned z ws r : in_u 64 z → stops r →
  scan_reads ws (to_string z) r value_unsigned (λ l, lx_value_unsigned l = z).
Proof.
  intros Hz Hs. rewrite (integer_numeral_text 46). destruct (integer_numeral_ok z).
  apply scan_numeral; [done..|].
  rewrite <-integer_numeral_text. unfold type_of_numeral, integer_numeral. cbn [nm_frac nm_exp nm_neg].
  unfold in_u in Hz. ztest. by apply number_end_unsigned.
Qed.

Lemma scan_negative z ws r : in_s 64 z → z < 0 → stops r →
  scan_reads ws (to_string z) r value_integer (λ l, lx_value_integer l = z).
Proof.
  intros Hz Hneg Hs. rewrite (integer_numeral_text 46). destruct (integer_numeral_ok z).
  apply scan_numeral; [done..|].
  rewrite <-integer_numeral_text. unfold type_of_numeral, integer_numeral. cbn [nm_frac nm_exp nm_neg].
  ztest. by apply number_end_integer.
Qed.

Lemma scan_float f ws r : F64.isfinite f = true → stops r →
  scan_reads ws (float_text 0 46 f) r value_float (λ l, lx_value_float l = reparse f).
Proof.
  intros Hf Hs. unfold reparse.
  destruct (float_text_numeral f Hf) as (n & -> & Hn & Hi & Hx).
  rewrite strtod_numeral by (done || by split_and!). apply scan_numeral; [done..|].
  replace (type_of_numeral n) with value_float; [by apply number_end_float|].
  unfold type_of_numeral. destruct (nm_frac n), (nm_exp n); try done. by destruct Hx.
Qed.
End tokens.

(** ** The text of a container *)

(** White space, the first element, and every further one behind a comma. *)
Definition listed (ws : list Z) (es : list (list Z)) : list Z :=
  match es with
  | [] => []
  | e :: es => ws ++ e ++ concat ((λ e, 44 :: ws ++ e) <$> es)
  end.

Lemma listed_cons ws e e2 es : listed ws (e :: e2 :: es) = ws ++ e ++ 44 :: listed ws (e2 :: es).
Proof. unfold listed. csimpl. by rewrite <-app_assoc. Qed.

Lemma join_cons sep e e2 es : join sep (e :: e2 :: es) = e ++ sep ++ join sep (e2 :: es).
Proof. reflexivity. Qed.

Lemma join_listed (lead ind : list Z) e es :
  lead ++ join (44 :: lead) ((λ e, ind ++ e) <$> (e :: es)) = listed (lead ++ ind) (e :: es).
Proof.
  revert e. induction es as [|e2 es IH]; intros e.
  - unfold listed. csimpl. by rewrite app_nil_r, app_assoc.
  - rewrite listed_cons, <-IH, !fmap_cons, join_cons. rewrite <-!app_assoc. reflexivity.
Qed.

Lemma bracket_listed ichar (pretty : bool) step o c cur es : es ≠ [] →
  bracket ichar pretty step o c cur es =
  o :: listed (if pretty then 10 :: indentation ichar (cur + step) else []) es ++
  (if pretty then 10 :: indentation ichar cur else []) ++ [c].
Proof.
  destruct es as [|e es]; [done|]. intros _. unfold bracket. destruct pretty.
  - change (10 :: indentation ichar (cur + step)) with ([10] ++ indentation ichar (cur + step)).
    rewrite <-join_listed. reflexivity.
  - pose proof (join_listed [] [] e es) as E. cbn [app] in E. by rewrite list_fmap_id in E; rewrite <-E.
Qed.

Lemma indentation_spaces ichar n : is_space ichar = true → spaces (indentation ichar n).
Proof. intros. unfold indentation. apply Forall_app_2; by apply Forall_replicate. Qed.

(** Compare the lengths of concatenations. *)
Ltac len_lia := rewrite ?length_app, ?length_cons; repeat rewrite ?length_app, ?length_cons; lia.

Section parse.
Context {A : Type} `{InputAdapter A}.

Abbreviation P := (M exn (parser A ())).
Abbreviation inp p := (pending (lx_ia (ps_lexer p))).
Abbreviation run := (wp (λ _ : exn, False)).
Abbreviation value := (parse_internal None true).

(** The parser in front of [r]. *)
Definition pat (r : list Z) (p : parser A ()) : Prop :=
  before r (ps_lexer p) ∧ ps_errored p = false.

Lemma pat_inp r p : pat r p → inp p = r.
Proof. by intros [(_ & ? & _) _]. Qed.

(** A token whose scan is known. *)
Lemma reads_token {T} fuel (k : token_type → P T) Q p t r V :
  ps_errored p = false →
  wp (λ _, False) (scan fuel) (λ t' l', t' = t ∧ V l' ∧ before r l') (ps_lexer p) →
  (∀ p', pat r p' → ps_last_token p' = t → V (ps_lexer p') → run (k t) Q p') →
  run (get_token fuel ≫= k) Q p.
Proof.
  intros He Hs Hk. apply wp_bind. unfold get_token. apply wp_bind. unfold wp, with_lexer in *.
  destruct (scan fuel (ps_lexer p)) as [[t' l']| |]; [|done..].
  destruct Hs as (-> & HV & Hb).
  by apply (Hk (mk_parser (ps_depth p) t l' (ps_errored p) (ps_expected p) (ps_callback_state p))).
Qed.

Lemma reads_expect {T} t (k : bool → P T) Q p :
  ps_last_token p = t → run (k true) Q p → run (expect true t ≫= k) Q p.
Proof.
  intros Ht Hk. apply wp_bind. unfold expect. apply wp_bind, wp_gets.
  rewrite bool_decide_true by done. done.
Qed.

(** The parser reads [text] as the value [v]. *)
Definition value_reads (text : list Z) (v : json) : Prop :=
  ∀ ws r fuel fuel' p, pat (ws ++ text ++ r) p → spaces ws → stops r →
    (length (inp p) < fuel)%nat → (length (inp p) < fuel')%nat →
    run (get_token fuel ;; value fuel' true) (λ v' p', v' = v ∧ pat r p') p.

(** Values of one token. *)
Lemma scalar_reads text t v V :
  (∀ ws r, stops r → ∀ fuel (l : lexer A), before (ws ++ text ++ r) l → spaces ws →
     (length (ws ++ text) < fuel)%nat →
     wp (λ _, False) (scan fuel) (λ t' l', t' = t ∧ V l' ∧ before r l') l) →
  t ≠ begin_array → t ≠ begin_object →
  (∀ p r, pat r p → ps_last_token p = t → V (ps_lexer p) →
     run (parse_scalar true t) (λ x p', x = (v, true) ∧ pat r p') p) →
  value_reads text v.
Proof.
  intros Hscan Hna Hno Hv ws r fuel fuel' p Hp Hws Hs Hf Hf'.
  pose proof (pat_inp _ _ Hp) as Hi. destruct fuel' as [|fuel']; [lia|].
  assert (length (ws ++ text) < fuel)%nat.
  { rewrite Hi, !length_app in Hf. rewrite length_app. lia. }
  eapply reads_token; [apply Hp|eapply (Hscan ws r); [done|apply Hp|done|done]|].
  intros p1 Hp1 Ht HV. cbn [parse_internal]. apply wp_bind, wp_gets.
  pose proof Hp1 as [Hb1 He1]. rewrite He1. apply wp_bind, wp_ret, wp_bind, wp_gets. rewrite Ht.
  apply wp_bind. apply (wp_mono _ _ (λ x p', x = (true, (v, true)) ∧ pat r p')); cycle 1.
  { intros x p' [-> Hp']. by split. }
  pose proof (Hv p1 r (conj Hb1 He1) Ht HV) as Hrun.
  assert (run (r ← parse_scalar true t; mret (true, r))
    (λ x p', x = (true, (v, true)) ∧ pat r p') p1).
  { apply wp_bind. eapply wp_mono; [done|]. by intros x p' [-> ?]. }
  by destruct t.
Qed.
Lemma json_scalar_reads j loc ichar pretty ea step cur :
  loc = c_locale → json_good j → floats_finite j →
  match j with JArray _ | JObject _ => False | _ => True end →
  value_reads (render loc ichar pretty ea step cur j) (text_canon j).
Proof.
  intros -> (Hty & Hu & Hnd) Hff Hj.
  assert (∀ text t v, (text, t) ∈ [(lit "true", literal_true); (lit "false", literal_false);
    (lit "null", literal_null)] → parse_scalar (A := A) (C := ()) true t = mret (v, true) →
    value_reads text v) as Hlit.
  { intros text t v Ht Hv. eapply (scalar_reads _ t _ (λ _, True)).
    - intros ws r _. by apply scan_literals.
    - intros ->. set_solver.
    - intros ->. set_solver.
    - intros p r Hp _ _. rewrite Hv. by split. }
  destruct j as [| | |s|b|z|z|f|]; try done.
  - by eapply (Hlit _ literal_null); [set_solver|].
  - eapply (scalar_reads _ value_string _ (λ l, lx_yytext l = s)); [|done..|].
    + intros ws r _. by apply scan_quoted.
    + intros p r [(Hl & Hi & Hd) He] _ HV. unfold parse_scalar. apply wp_bind.
      unfold wp, with_lexer, move_string. simpl. rewrite HV. by split_and!.
  - destruct b; [by eapply (Hlit _ literal_true); [set_solver|]|
                 by eapply (Hlit _ literal_false); [set_solver|]].
  - simpl in Hty |- *. case_if.
    + eapply (scalar_reads _ value_unsigned _ (λ l, lx_value_unsigned l = z)); [|done..|].
      * intros ws r Hs. apply scan_unsigned; [|done]. unfold in_s, in_u in *. lia.
      * intros p r Hp _ HV. apply wp_bind, wp_gets. simpl in HV. rewrite HV. by split.
    + eapply (scalar_reads _ value_integer _ (λ l, lx_value_integer l = z)); [|done..|].
      * intros ws r Hs. by apply scan_negative.
      * intros p r Hp _ HV. apply wp_bind, wp_gets. simpl in HV. rewrite HV. by split.
  - eapply (scalar_reads _ value_unsigned _ (λ l, lx_value_unsigned l = z)); [|done..|].
    + intros ws r Hs. by apply scan_unsigned.
    + intros p r Hp _ HV. apply wp_bind, wp_gets. simpl in HV. rewrite HV. by split.
  - simpl in Hff |- *. destruct (F64.isfinite f) eqn:Ef.
    + eapply (scalar_reads _ value_float _ (λ l, lx_value_float l = reparse f)); [|done..|].
      * intros ws r Hs. by apply scan_float.
      * intros p r Hp _ HV. apply wp_bind, wp_gets. simpl in HV. cbv zeta. rewrite HV, Hff by done.
        by split.
    + replace (float_text 0 46 f) with (lit "null") by (unfold float_text; by rewrite Ef).
      by eapply (Hlit _ literal_null); [set_solver|].
Qed.

(** [parse_internal] at an opening bracket. *)
Lemma value_start fuel (p : parser A ()) t : ps_errored p = false → ps_last_token p = t →
  ∀ Q, run (match t with
            | begin_object =>
                t ← get_token fuel;
                if bool_decide (t = end_object) then mret (JObject [])
                else '(r, ended) ← parse_members None true (value fuel) true fuel (JObject []);
                     mret r
            | begin_array =>
                t ← get_token fuel;
                if bool_decide (t = end_array) then mret (JArray [])
                else '(r, ended) ← parse_elements true (value fuel) true fuel (JArray []);
                     mret r
            | _ => throw assert_failure
            end) Q p →
    run (value (S fuel) true) Q p.
Proof.
  intros He Ht Q. cbn [parse_internal]. intros HQ. apply wp_bind, wp_gets. rewrite He.
  apply wp_bind, wp_ret, wp_bind, wp_gets. rewrite Ht. apply wp_bind.
  destruct t; try done.
  all: unfold wp, mbind, M_bind in *; cbn;
    destruct (get_token fuel p) as [[t p1]| |]; [|done..];
    case_bool_decide; [done|].
  - destruct (parse_elements _ _ _ _ _ _) as [[[r b] p2]| |]; [|done..]. by destruct b.
  - destruct (parse_members _ _ _ _ _ _ _) as [[[r b] p2]| |]; [|done..]. by destruct b.
Qed.

Lemma value_reads_spaces text v ws r fuel fuel' k (Q : json * bool → parser A () → Prop) p :
  value_reads text v → pat (ws ++ text ++ r) p → spaces ws → stops r →
  (length (inp p) < fuel)%nat → (length (inp p) < fuel')%nat →
  (∀ p', pat r p' → run (k v) Q p') →
  run (get_token fuel ;; value fuel' true ≫= k) Q p.
Proof.
  intros Hv Hp Hws Hs Hf Hf' Hk.
  assert (run ((get_token fuel ;; value fuel' true) ≫= k) Q p) as Hr.
  { apply wp_bind. eapply wp_mono; [by eapply Hv|]. intros v' p' [-> Hp']. by apply Hk. }
  revert Hr. unfold wp, mbind, M_bind. by destruct (get_token fuel p) as [[? ?]| |].
Qed.
Lemma stops_spaces ws c r : spaces ws → F64.is_digit c = false → c ≠ 46 → c ≠ 101 → c ≠ 69 →
  stops (ws ++ c :: r).
Proof.
  intros Hws ? ? ? ?. destruct ws as [|w ws]; [simpl; by split_and!|].
  apply Forall_cons in Hws as [Hw _]. unfold is_space in Hw.
  repeat (apply orb_prop in Hw as [Hw|Hw]); zbool; subst; simpl; by split_and!.
Qed.

(** A structural character behind white space. *)
Lemma reads_structural {T} c t ws r fuel (k : token_type → P T) Q p :
  (c, t) ∈ [(91, begin_array); (93, end_array); (123, begin_object); (125, end_object);
            (58, name_separator); (44, value_separator)] →
  pat (ws ++ c :: r) p → spaces ws → (length (inp p) < fuel)%nat →
  (∀ p', pat r p' → ps_last_token p' = t → run (k t) Q p') →
  run (get_token fuel ≫= k) Q p.
Proof.
  intros Hc Hp Hws Hf Hk. pose proof (pat_inp _ _ Hp) as Hi.
  eapply (reads_token _ _ _ _ _ _ (λ _, True)); [apply Hp| |by intros p' Hp' Ht' _; apply Hk].
  eapply scan_structural; [done|apply Hp|done|].
  rewrite Hi, length_app in Hf. rewrite length_app. simpl in *. lia.
Qed.

(** The loop over the elements of an array. *)
Lemma elements_read ws we r texts vs : Forall2 value_reads texts vs →
  Forall (λ v, is_discarded v = false) vs → spaces ws → spaces we → texts ≠ [] →
  ∀ acc f1 fuel f p, pat (listed ws texts ++ we ++ 93 :: r) p →
    (length (inp p) < f1)%nat → (length (inp p) < fuel)%nat → (length (inp p) < f)%nat →
    run (get_token f1 ;; parse_elements true (value f) true fuel (JArray acc))
      (λ x p', x = (JArray (acc ++ vs), true) ∧ pat r p') p.
Proof.
  intros Hvs Hnd Hws Hwe. induction Hvs as [|e v texts vs Hv Hvs IH]; [done|].
  intros _ acc f1 fuel f p Hp Hf1 Hf Hf'. apply Forall_cons in Hnd as [Hdv Hnd].
  pose proof (pat_inp _ _ Hp) as Hi. destruct fuel as [|fuel]; [lia|].
  cbn [parse_elements]. destruct texts as [|e2 texts].
  - apply Forall2_nil_inv_l in Hvs as ->. unfold listed in *. cbn [fmap list_fmap concat] in *.
    rewrite <-!app_assoc in *. cbn [app] in *.
    eapply value_reads_spaces; [done|done|done|by apply stops_spaces|done|done|].
    intros p1 Hp1. apply wp_bind, wp_gets. pose proof Hp1 as [_ ->]. rewrite Hdv. cbn [negb andb].
    pose proof (pat_inp _ _ Hp1) as Hi1.
    eapply (reads_structural 93 end_array); [set_solver|done|done| |].
    { rewrite Hi1. rewrite Hi, !length_app in Hf. rewrite length_app. lia. }
    intros p2 Hp2 Ht2. rewrite bool_decide_false by done. apply reads_expect; [done|]. by split.
  - rewrite listed_cons in *. rewrite <-!app_assoc in *. cbn [app] in *.
    eapply value_reads_spaces; [done|done|done|simpl; by split_and!|done|done|].
    intros p1 Hp1. apply wp_bind, wp_gets. pose proof Hp1 as [_ ->]. rewrite Hdv. cbn [negb andb].
    pose proof (pat_inp _ _ Hp1) as Hi1.
    assert (length (inp p1) < S fuel ∧ length (inp p1) < f)%nat as [Hl1 Hl1'].
    { rewrite Hi1. rewrite Hi, !length_app in Hf, Hf'. split; lia. }
    eapply (reads_structural 44 value_separator []); [set_solver|done|constructor|done|].
    intros p2 Hp2 Ht2. rewrite bool_decide_true by done. cbn [array_push_back].
    pose proof (pat_inp _ _ Hp2) as Hi2.
    assert (length (inp p2) < length (inp p1))%nat by (rewrite Hi1, Hi2; simpl; lia).
    eapply wp_mono; [apply (IH Hnd); [done|done|lia..]|].
    intros x p3 [-> Hp3]. split; [|done]. by rewrite <-app_assoc.
Qed.

(** The key of a member and its colon, then the rest of the loop. *)
Lemma member_reads ea ws (k : list Z) colon r f1 fuel (f : nat) result p
    (Q : json * bool → parser A () → Prop) :
  pat (ws ++ quoted k ea ++ 58 :: colon ++ r) p → spaces ws → utf8_valid k →
  (length (inp p) < f1)%nat → (length (inp p) < S fuel)%nat →
  (∀ p1, pat (colon ++ r) p1 →
     run (get_token (S fuel) ;;
          v ← value f true;
          errored ← gets ps_errored;
          if (errored : bool) then mret (result, false) else
          let result := if negb (is_discarded v) then object_emplace k v result else result in
          t ← get_token (S fuel);
          if bool_decide (t = value_separator) then
            get_token (S fuel) ;; parse_members None true (value f) true fuel result
          else ok ← expect true end_object; mret (result, ok)) Q p1) →
  run (get_token f1 ;; parse_members None true (value f) true (S fuel) result) Q p.
Proof.
  intros Hp Hws Hk Hf1 Hf HQ. pose proof (pat_inp _ _ Hp) as Hi.
  eapply (reads_token _ _ _ _ value_string (58 :: colon ++ r) (λ l, lx_yytext l = k)); [apply Hp| |].
  { eapply scan_quoted; [done|apply Hp|done|].
    rewrite Hi, !length_app in Hf1. rewrite length_app. lia. }
  intros p1 Hp1 Ht1 HV. cbn [parse_members]. apply reads_expect; [done|]. cbn [negb].
  apply wp_bind. unfold wp, with_lexer, move_string at 1. rewrite HV.
  apply wp_bind, wp_ret. pose proof (pat_inp _ _ Hp1) as Hi1.
  eapply (reads_structural 58 name_separator []); [set_solver| |constructor| |].
  { destruct Hp1 as [(Hl1 & Hin1 & Hd1) He1]. split; [|done]. by split_and!. }
  { cbn. rewrite Hi1. rewrite Hi, !length_app in Hf. lia. }
  intros p2 Hp2 Ht2. apply reads_expect; [done|]. cbn [negb andb]. by apply HQ.
Qed.

(** The loop over the members of an object: keys in order are appended. *)
Lemma members_read ea ws we colon r (kvs : list (list Z * json)) (texts : list (list Z)) :
  Forall2 (λ kv t, utf8_valid kv.1 ∧ is_discarded kv.2 = false ∧ value_reads t kv.2) kvs texts →
  spaces ws → spaces we → spaces colon → kvs ≠ [] →
  ∀ acc f1 fuel f p, omap_sorted (acc ++ kvs) →
    pat (listed ws (zip_with (λ kv t, quoted kv.1 ea ++ 58 :: colon ++ t) kvs texts) ++
         we ++ 125 :: r) p →
    (length (inp p) < f1)%nat → (length (inp p) < fuel)%nat → (length (inp p) < f)%nat →
    run (get_token f1 ;; parse_members None true (value f) true fuel (JObject acc))
      (λ x p', x = (JObject (acc ++ kvs), true) ∧ pat r p') p.
Proof.
  intros Hvs Hws Hwe Hcolon. induction Hvs as [|[k v] t kvs texts (Hk & Hdv & Hv) Hvs IH]; [done|].
  intros _ acc f1 fuel f p Hsort Hp Hf1 Hf Hf'. cbn [fst snd zip_with] in *.
  assert (omap_emplace k v acc = acc ++ [(k, v)]) as Hemp.
  { rewrite (app_cons_snoc acc (k, v) kvs) in Hsort.
    apply omap_emplace_keys. by eapply omap_sorted_app_keys. }
  pose proof (pat_inp _ _ Hp) as Hi. destruct fuel as [|fuel]; [lia|].
  inversion Hvs as [Hn1 Hn2|[k2 v2] t2 kvs' texts' Hkv2 Hvs' Hn1 Hn2].
  - subst. cbn [zip_with] in *. unfold listed in *. cbn [fmap list_fmap concat] in *.
    rewrite <-!app_assoc in *. cbn [app] in *. rewrite <-!app_assoc in *. cbn [app] in *.
    eapply member_reads; [done|done|done|done|done|].
    intros p1 Hp1. pose proof (pat_inp _ _ Hp1) as Hi1.
    assert (length (inp p1) < length (inp p))%nat.
    { rewrite Hi, Hi1. len_lia. }
    eapply value_reads_spaces; [done|done|done|by apply stops_spaces|lia|lia|].
    intros p2 Hp2. apply wp_bind, wp_gets. pose proof Hp2 as [_ ->]. rewrite Hdv. cbn [negb].
    pose proof (pat_inp _ _ Hp2) as Hi2.
    eapply (reads_structural 125 end_object); [set_solver|done|done| |].
    { rewrite Hi2. rewrite Hi1, !length_app in *. simpl in *. lia. }
    intros p3 Hp3 Ht3. rewrite bool_decide_false by done. apply reads_expect; [done|].
    cbn [object_emplace]. by rewrite Hemp.
  - subst. cbn [zip_with] in *. rewrite listed_cons in *.
    rewrite <-!app_assoc in *. cbn [app] in *. rewrite <-!app_assoc in *. cbn [app] in *.
    eapply member_reads; [done|done|done|done|done|].
    intros p1 Hp1. pose proof (pat_inp _ _ Hp1) as Hi1.
    assert (length (inp p1) < length (inp p))%nat.
    { rewrite Hi, Hi1. len_lia. }
    eapply value_reads_spaces; [done|done|done|simpl; by split_and!|lia|lia|].
    intros p2 Hp2. apply wp_bind, wp_gets. pose proof Hp2 as [_ ->]. rewrite Hdv. cbn [negb].
    pose proof (pat_inp _ _ Hp2) as Hi2.
    assert (length (inp p2) ≤ length (inp p1))%nat by (rewrite Hi1, Hi2; len_lia).
    eapply (reads_structural 44 value_separator []); [set_solver|done|constructor|lia|].
    intros p3 Hp3 Ht3. rewrite bool_decide_true by done. cbn [object_emplace].
    pose proof (pat_inp _ _ Hp3) as Hi3.
    assert (length (inp p3) < length (inp p2))%nat by (rewrite Hi2, Hi3; len_lia).
    rewrite Hemp. eapply wp_mono; [apply IH; [done|by rewrite <-app_assoc|done|lia..]|].
    intros x p4 [-> Hp4]. split; [|done]. by rewrite <-app_assoc.
Qed.
Lemma get_token_last fuel (p p1 : parser A ()) t :
  get_token fuel p = Ok (t, p1) → ps_last_token p1 = t.
Proof.
  unfold get_token. intros (t' & p' & E1 & E2)%M_bind_Ok_inv.
  by inversion E2.
Qed.

Lemma value_close f (p : parser A ()) : ps_last_token p = end_array →
  ∃ e, value (S f) true p = Throw e.
Proof.
  intros Ht. cbn [parse_internal]. unfold mbind, M_bind, gets, assert.
  destruct (ps_errored p); cbn; [by eexists|]. rewrite Ht.
  unfold parse_scalar, expect, mbind, M_bind, gets. rewrite Ht. by eexists.
Qed.

(** The first token of a list that is read is no closing bracket. *)
Lemma elements_not_empty f1 f fuel r (Q : json → parser A () → Prop) p :
  run (get_token f1 ;; parse_elements true (value f) true fuel r) (λ x, Q x.1) p →
  run (t ← get_token f1;
       if bool_decide (t = end_array) then mret (JArray [])
       else '(r, _) ← parse_elements true (value f) true fuel r; mret r) Q p.
Proof.
  unfold wp, mbind, M_bind. destruct (get_token f1 p) as [[t p1]| |] eqn:E; [|done..].
  apply get_token_last in E. case_bool_decide as Ht.
  - destruct fuel as [|fuel], f as [|f]; [done..|].
    cbn [parse_elements]. destruct (value_close f p1) as [e He]; [congruence|].
    by erewrite M_bind_Throw.
  - by destruct (parse_elements _ _ _ _ _ p1) as [[[r' b] p2]| |].
Qed.

Lemma members_not_empty f1 f fuel r (Q : json → parser A () → Prop) p :
  run (get_token f1 ;; parse_members None true (value f) true fuel r) (λ x, Q x.1) p →
  run (t ← get_token f1;
       if bool_decide (t = end_object) then mret (JObject [])
       else '(r, _) ← parse_members None true (value f) true fuel r; mret r) Q p.
Proof.
  unfold wp, mbind, M_bind. destruct (get_token f1 p) as [[t p1]| |] eqn:E; [|done..].
  apply get_token_last in E. case_bool_decide as Ht.
  - subst t. destruct fuel as [|fuel]; [done|].
    cbn [parse_members]. unfold mbind, M_bind, expect, mbind, M_bind, gets. by rewrite Ht.
  - by destruct (parse_members _ _ _ _ _ _ p1) as [[[r' b] p2]| |].
Qed.

(** An opening bracket and what is behind it. *)
Lemma container_reads c t text v :
  (c, t) ∈ [(91, begin_array); (123, begin_object)] →
  (∀ r fuel p, pat (text ++ r) p → (length (inp p) < fuel)%nat → stops r →
     ps_errored p = false → ps_last_token p = t →
     run (value (S fuel) true) (λ v' p', v' = v ∧ pat r p') p) →
  value_reads (c :: text) v.
Proof.
  intros Hc Hv ws r fuel fuel' p Hp Hws Hs Hf Hf'. pose proof (pat_inp _ _ Hp) as Hi.
  destruct fuel' as [|fuel']; [lia|]. cbn [app] in Hp.
  eapply (reads_structural c t ws); [set_solver|done|done|done|].
  intros p1 Hp1 Ht1. apply Hv; [done| |done|apply Hp1|done].
  assert (length (inp p1) < length (inp p))%nat; [|lia].
  rewrite Hi, (pat_inp _ _ Hp1). len_lia.
Qed.

Lemma text_canon_kept j : no_discarded j → is_discarded (text_canon j) = false.
Proof. destruct j; try done; simpl; by case_if. Qed.

(** The members of an object as [render] writes them. *)
Lemma members_text ichar (pretty : bool) ea step cur (o : list (list Z * json)) :
  zip_with (λ (kv : list Z * json) t, quoted kv.1 ea ++ 58 :: (if pretty then [32] else []) ++ t)
    ((λ kv, (kv.1, text_canon kv.2)) <$> o)
    ((λ kv, render c_locale ichar pretty ea step cur kv.2) <$> o) =
  (λ kv, key_text pretty ea kv.1 ++ render c_locale ichar pretty ea step cur kv.2) <$> o.
Proof.
  induction o as [|kv o IH]; [done|]. csimpl. f_equal; [|done].
  unfold key_text. destruct pretty; by rewrite <-!app_assoc.
Qed.

Lemma json_reads ichar pretty ea step j : (pretty = true → is_space ichar = true) →
  json_good j → floats_finite j →
  ∀ cur, value_reads (render c_locale ichar pretty ea step cur j) (text_canon j).
Proof.
  intros Hichar.
  assert (∀ n, spaces (if pretty then 10 :: indentation ichar n else [])) as Hline.
  { intros n. destruct pretty; [|constructor]. constructor; [done|]. by apply indentation_spaces, Hichar. }
  induction j as [|o IH|a IH|s|b|z|z|f|] using json_induction;
    intros Hgood Hff cur; try by apply json_scalar_reads.
  - destruct Hgood as (Hty & Hu & Hnd). apply json_typed_object in Hty as (Hsort & _ & Hty).
    apply json_utf8_object in Hu. apply no_discarded_object in Hnd. apply floats_finite_object in Hff.
    destruct o as [|kv o].
    { apply (container_reads 123 begin_object [125]); [set_solver|].
      intros r fuel p Hp Hf Hs He Ht. eapply value_start; [done|done|]. cbn [app] in Hp.
      eapply (reads_structural 125 end_object []); [set_solver|done|constructor|done|].
      intros p1 Hp1 _. by split. }
    rewrite render_object, bracket_listed by done.
    apply (container_reads 123 begin_object); [set_solver|].
    intros r fuel p Hp Hf Hs He Ht. eapply value_start; [done|done|]. cbn iota.
    apply members_not_empty. rewrite <-!app_assoc in Hp.
    eapply wp_mono; [eapply (members_read ea _ _ (if pretty then [32] else []) r
      ((λ kv, (kv.1, text_canon kv.2)) <$> (kv :: o))
      ((λ kv, render c_locale ichar pretty ea step (cur + step) kv.2) <$> (kv :: o)))|].
    + apply Forall2_fmap, Forall_Forall2_diag. rewrite Forall_forall in *. intros [k v] Hkv. cbn.
      specialize (Hu _ Hkv) as [Hk Hu]. split; [done|]. split; [by apply text_canon_kept, (Hnd _ Hkv)|].
      apply (IH _ Hkv); [|by apply (Hff _ Hkv)]. split_and!; [by apply (Hty _ Hkv)|done|by apply (Hnd _ Hkv)].
    + exact (Hline (cur + step)).
    + exact (Hline cur).
    + destruct pretty; by repeat constructor.
    + done.
    + cbn [app]. by apply fmap_snd_sorted.
    + rewrite members_text. exact Hp.
    + done.
    + done.
    + done.
    + intros x p' [-> Hp']. by split.
  - destruct Hgood as (Hty & Hu & Hnd). apply json_typed_array in Hty.
    apply json_utf8_array in Hu. apply no_discarded_array in Hnd. apply floats_finite_array in Hff.
    destruct a as [|v a].
    { apply (container_reads 91 begin_array [93]); [set_solver|].
      intros r fuel p Hp Hf Hs He Ht. eapply value_start; [done|done|]. cbn [app] in Hp.
      eapply (reads_structural 93 end_array []); [set_solver|done|constructor|done|].
      intros p1 Hp1 _. by split. }
    rewrite render_array, bracket_listed by done.
    apply (container_reads 91 begin_array); [set_solver|].
    intros r fuel p Hp Hf Hs He Ht. eapply value_start; [done|done|]. cbn iota.
    apply elements_not_empty. rewrite <-!app_assoc in Hp.
    eapply wp_mono; [eapply (elements_read _ _ r
      (render c_locale ichar pretty ea step (cur + step) <$> (v :: a))
      (text_canon <$> (v :: a)))|].
    + apply Forall2_fmap, Forall_Forall2_diag. rewrite Forall_forall in *. intros w Hw.
      apply (IH _ Hw); [|by apply (Hff _ Hw)].
      split_and!; [by apply (Hty _ Hw)|by apply (Hu _ Hw)|by apply (Hnd _ Hw)].
    + apply Forall_fmap. eapply Forall_impl; [exact Hnd|]. intros w. apply text_canon_kept.
    + exact (Hline (cur + step)).
    + exact (Hline cur).
    + done.
    + exact Hp.
    + done.
    + done.
    + done.
    + intros x p' [-> Hp']. by split.
Qed.
End parse.

(** ** The whole text *)

Lemma scalar_text_bytes ea cp : scalar cp → is_bytes (scalar_text ea cp).
Proof.
  intros Hcp. assert (is_bytes (codepoint_text cp)) as Hp.
  { eapply Forall_impl; [apply codepoint_text_printable|]. unfold printable, is_byte. lia. }
  unfold scalar_text. destruct (short_escape cp) eqn:Es.
  - apply short_escape_ascii in Es. unfold short_text.
    repeat (constructor; [unfold is_byte; repeat case_if; lia|]). constructor.
  - destruct (control_escape cp); [done|]. destruct (ea && (127 <=? cp)); [done|].
    by apply utf8_encode_bytes.
Qed.

(** The characters of a text: any property that printable ASCII, the line feed,
    the indentation character and the escaped strings have. *)
Section characters.
Variables (P : Z → Prop) (ea : bool) (ichar : Z).
Hypothesis P_printable : ∀ c, printable c → P c.
Hypothesis P_newline : P 10.
Hypothesis P_ichar : P ichar.
Hypothesis P_scalar : ∀ cp, scalar cp → Forall P (scalar_text ea cp).

Ltac chars := repeat (constructor; [apply P_printable; unfold printable; lia|]); constructor.

Lemma quoted_chars s : utf8_valid s → Forall P (quoted s ea).
Proof.
  intros (cps & Hcps & ->). unfold quoted. destruct (escape_utf8 ea cps Hcps) as [_ ->].
  constructor; [by apply P_printable|]. apply Forall_app_2; [|chars].
  induction Hcps; csimpl; [constructor|]. apply Forall_app_2; [by apply P_scalar|done].
Qed.

Lemma digits_chars ds : Forall (λ c, F64.is_digit c = true) ds → Forall P ds.
Proof.
  intros H. eapply Forall_impl; [done|]. intros c ?%is_digit_range.
  apply P_printable. unfold printable. lia.
Qed.

Lemma numeral_chars n : numeral_ok n → Forall P (numeral_text 46 n).
Proof.
  intros ([Hi _] & Hf & Hx). unfold numeral_text.
  apply Forall_app_2; [destruct (nm_neg n); chars|].
  apply Forall_app_2; [by apply digits_chars|]. apply Forall_app_2.
  - destruct (nm_frac n) as [fp|]; [|constructor]. destruct Hf as [Hf _].
    constructor; [by apply P_printable|by apply digits_chars].
  - destruct (nm_exp n) as [[[e sg] ds]|]; [|constructor]. destruct Hx as (He & Hsg & [Hds _]).
    constructor; [apply P_printable; unfold printable; lia|].
    apply Forall_app_2; [|by apply digits_chars]. destruct Hsg as [->|[->| ->]]; chars.
Qed.

Lemma float_text_chars f : Forall P (float_text 0 46 f).
Proof.
  destruct (F64.isfinite f) eqn:E.
  - destruct (float_text_numeral f E) as (n & -> & Hn & _). by apply numeral_chars.
  - unfold float_text. rewrite E. simpl. chars.
Qed.

Lemma join_chars sep ls : Forall P sep → Forall (Forall P) ls → Forall P (join sep ls).
Proof.
  intros Hsep. induction 1 as [|l ls Hl Hls IH]; [constructor|]. destruct ls as [|l2 ls]; [done|].
  rewrite join_cons. apply Forall_app_2; [done|]. by apply Forall_app_2.
Qed.

Lemma bracket_chars pretty step o c cur es : printable o → printable c →
  Forall (Forall P) es → Forall P (bracket ichar pretty step o c cur es).
Proof.
  intros Ho Hc Hes. assert (∀ n, Forall P (indentation ichar n)) as Hind.
  { intros n. apply Forall_app_2; apply Forall_replicate; [done|by apply P_printable]. }
  unfold bracket. destruct pretty; cbn [app].
  - constructor; [auto|]. constructor; [done|]. apply Forall_app_2.
    + apply join_chars; [constructor; [by apply P_printable|by constructor]|]. apply Forall_fmap.
      eapply Forall_impl; [exact Hes|]. intros e He. apply Forall_app_2; [apply Hind|exact He].
    + constructor; [done|]. apply Forall_app_2; [apply Hind|constructor; auto].
  - constructor; [auto|]. apply Forall_app_2; [|constructor; auto].
    apply join_chars; [chars|done].
Qed.

Lemma render_chars pretty step cur j : json_utf8 j →
  Forall P (render c_locale ichar pretty ea step cur j).
Proof.
  revert cur. induction j as [|o IH|a IH|s|b|z|z|f|] using json_induction; intros cur Hu.
  - simpl. chars.
  - destruct o as [|kv o]; [simpl; chars|]. rewrite render_object. apply json_utf8_object in Hu.
    apply bracket_chars; [by split|by split|]. apply Forall_fmap.
    rewrite Forall_forall in *. intros [k v] Hkv. destruct (Hu _ Hkv). cbn [fst snd] in *.
    apply (Forall_app_2 _ (key_text pretty ea k)); [|by apply (IH _ Hkv)]. unfold key_text.
    apply Forall_app_2; [by apply quoted_chars|]. destruct pretty; chars.
  - destruct a as [|v a]; [simpl; chars|]. rewrite render_array. apply json_utf8_array in Hu.
    apply bracket_chars; [by split|by split|]. apply Forall_fmap.
    rewrite Forall_forall in *. intros w Hw. apply (IH _ Hw). by apply Hu.
  - by apply quoted_chars.
  - destruct b; simpl; chars.
  - simpl. rewrite (integer_numeral_text 46). apply numeral_chars, integer_numeral_ok.
  - simpl. rewrite (integer_numeral_text 46). apply numeral_chars, integer_numeral_ok.
  - apply float_text_chars.
  - simpl. chars.
Qed.
End characters.

Lemma render_bytes ichar pretty ea step cur j : is_byte ichar → json_utf8 j →
  is_bytes (render c_locale ichar pretty ea step cur j).
Proof.
  intros. apply render_chars; [|by split|done|apply scalar_text_bytes|done].
  unfold printable, is_byte. lia.
Qed.

(** No text starts with a byte order mark. *)
Lemma render_no_bom ichar pretty ea step cur j : no_discarded j →
  skip_bom (render c_locale ichar pretty ea step cur j) = render c_locale ichar pretty ea step cur j.
Proof.
  intros Hnd. assert (∃ c r, render c_locale ichar pretty ea step cur j = c :: r ∧ c < 0xEF) as
    (c & r & -> & Hc).
  { assert (∀ n, numeral_ok n → ∃ c r, numeral_text 46 n = c :: r ∧ c < 0xEF) as Hnum.
    { intros n Hn. destruct (numeral_head n Hn) as (c & tl & E & Hc). exists c, tl. split; [done|lia]. }
    destruct j as [|o|a|s|b|z|z|f|].
    - by eexists _, _.
    - destruct o; [by eexists _, _|]. rewrite render_object. unfold bracket.
      destruct pretty; by eexists _, _.
    - destruct a; [by eexists _, _|]. rewrite render_array. unfold bracket.
      destruct pretty; by eexists _, _.
    - by eexists _, _.
    - destruct b; by eexists _, _.
    - simpl. rewrite (integer_numeral_text 46). apply Hnum, integer_numeral_ok.
    - simpl. rewrite (integer_numeral_text 46). apply Hnum, integer_numeral_ok.
    - simpl. destruct (F64.isfinite f) eqn:E.
      + destruct (float_text_numeral f E) as (n & -> & Hn & _). by apply Hnum.
      + unfold float_text. rewrite E. by eexists _, _.
    - done. }
  unfold skip_bom. destruct r as [|? [|? ?]]; [done..|]. by ztest.
Qed.

Section whole.
Context {A : Type} `{InputAdapter A}.

Lemma lexer_new_before (a : A) text : pending a = text → is_bytes text →
  before text (lexer_new c_locale a).
Proof. intros <- Hb. split_and!; [|done|done]. split; [exact Hb|]. by split_and!. Qed.

(** [scan] at the end of the text. *)
Lemma scan_end fuel (l : lexer A) : before [] l → (0 < fuel)%nat →
  wp (λ _ : exn, False) (scan fuel) (λ t l', t = end_of_input ∧ True ∧ before [] l') l.
Proof.
  intros (Hl & Hi & Hd) Hf. destruct fuel as [|fuel]; [lia|]. unfold scan. apply wp_bind.
  cbn [skip_spaces]. apply safe_get; [done|]. intros c l1 Hg Hl1.
  destruct Hg as ([(_ & -> & Hia)|(Hi' & _)] & _ & _ & Hd1); [|congruence].
  split; [done|]. split; [done|]. split; [done|]. split; [by rewrite Hia|congruence].
Qed.

(** [parse] on a text that is read as [v], over any adapter. *)
Lemma parse_reads (a : A) text v fuel : pending a = text → is_bytes text →
  value_reads (A := A) text v → is_discarded v = false → (length text < fuel)%nat →
  wp (λ _, False) (parse None true fuel true) (λ v' _, v' = v) (parser_new c_locale a ()).
Proof.
  intros Hp Hb Hv Hd Hf. unfold parse.
  assert (pat text (parser_new c_locale a ())) as Hpat by (split; [by apply lexer_new_before|done]).
  assert (wp (λ _, False) ((get_token fuel ;; parse_internal None true fuel true) ≫= λ result,
      (get_token fuel ;; expect true end_of_input ;; mret ()) ;;
      errored ← gets ps_errored;
      if (errored : bool) then mret JDiscarded
      else if is_discarded result then mret JNull else mret result)
      (λ v' _, v' = v) (parser_new c_locale a ())) as Hr.
  { apply wp_bind. eapply wp_mono; [apply (Hv [] []); [|constructor|done|..]|].
    - by rewrite app_nil_r.
    - cbn. by rewrite Hp.
    - cbn. by rewrite Hp.
    - intros v' p1 [-> Hp1]. pose proof Hp1 as [Hb1 He1].
      apply wp_bind. eapply (reads_token _ _ _ _ end_of_input [] (λ _, True)); [done| |].
      + apply scan_end; [done|lia].
      + intros p2 Hp2 Ht2 _. apply reads_expect; [done|]. apply wp_ret, wp_bind, wp_gets.
        pose proof Hp2 as [_ ->]. by rewrite Hd. }
  revert Hr. unfold wp, mbind, M_bind.
  by destruct (get_token fuel (parser_new c_locale a ())) as [[? ?]| |].
Qed.
End whole.

(** [json::parse] of a rendered value. *)
Lemma json_parse_render ichar (pretty : bool) ea step j : json_good j → floats_finite j →
  (pretty = true → is_space ichar = true) → is_byte ichar →
  json_parse c_locale (render c_locale ichar pretty ea step 0 j) = Ok (text_canon j).
Proof.
  intros Hgood Hff Hs Hi. pose proof Hgood as (_ & Hu & Hnd).
  set (text := render c_locale ichar pretty ea step 0 j).
  assert (is_bytes text) as Hb by by apply render_bytes.
  pose proof (parse_reads (input_buffer_adapter_new text) text (text_canon j) (S (length text))) as Hp.
  unfold json_parse, json_parse_with. unfold wp in Hp.
  destruct (parse None true _ true _) as [[v p]| |]; simpl; [f_equal|exfalso|exfalso].
  all: apply Hp; [|done| |by apply text_canon_kept|lia];
    [rewrite buffer_new_pending; by apply render_no_bom|by apply json_reads].
Qed.
