(* ===== verification/JsonTheorems.v ===== *)
(** The properties of the JSON library, stated for its public functions:
    [json_dump], [json_parse], [json_accept], [to_cbor], [from_cbor],
    [to_msgpack], [from_msgpack].  Each is followed by a use of it on concrete
    data. *)

From S2P Require Import Prelude Machine Float64 JsonValue Adapters BinaryWriter BinaryReader.
From S2P Require Import BinaryRoundTrip BinaryTotal Serializer SerializerSpec Lexer Parser.
From S2P Require Import Numeral Utf8 LexerTotal ParserTotal AcceptParse LexerReads.
From S2P Require Import TextRoundTrip.

(** A value with every kind of part: a string with a quote, a control character
    and a character outside ASCII, numbers of all three kinds, nesting. *)
Definition sample : json :=
  JObject [(lit "a", JArray [JInt (-5); JUInt 7; JBool true; JNull]);
           (lit "b", JFloat 0x3FF8000000000000);
           ([195; 169], JString [34; 9; 226; 130; 172])].

Lemma sample_wf : json_wf sample.
Proof.
  apply json_wf_object. split_and!.
  - repeat constructor.
  - unfold size_ok. simpl. lia.
  - repeat (constructor; [split; [repeat constructor; unfold is_byte; simpl; lia|
                                  unfold size_ok; simpl; lia]|]). constructor.
  - repeat (constructor; [simpl; unfold size_ok, in_s, in_u; split_and?; simpl; try done; try lia;
      repeat constructor; unfold is_byte; lia|]). constructor.
Qed.

Lemma utf8_valid_of s cps : utf8_text cps = s → forallb (λ cp, bool_decide (scalar cp)) cps = true →
  utf8_valid s.
Proof.
  intros <- H. exists cps. split; [|done]. apply Forall_forall. intros cp Hcp.
  rewrite forallb_forall in H. apply list_elem_of_In, H in Hcp. by apply bool_decide_eq_true in Hcp.
Qed.

Lemma sample_good : json_good sample.
Proof.
  split_and!; [by apply json_wf_typed, sample_wf| |done].
  apply json_utf8_object. repeat (constructor; [split; [|simpl]|]).
  - by apply (utf8_valid_of _ [97]).
  - done.
  - by apply (utf8_valid_of _ [98]).
  - done.
  - by apply (utf8_valid_of _ [233]).
  - by apply (utf8_valid_of _ [34; 9; 0x20AC]).
  - constructor.
Qed.

Lemma sample_finite : floats_finite sample.
Proof. simpl. by split_and!. Qed.

(** ** Text *)



(** C9. [parse] on every input: with any callback that does not build malformed
    values, on any sequence of bytes, it finishes within the fuel it is given and
    no assertion fails.  It returns a value that is typed, has no discarded part
    and only UTF-8 strings, or throws parse error 101 or out of range 406; without
    [allow_exceptions] it never throws and returns a discarded value instead. *)
Theorem parse_total {C} loc (cb : option (parser_callback_t C)) c allow text :
  dp_ok (lc_decimal_point loc) → callback_good cb → is_bytes text →
  match json_parse_with loc cb c allow text with
  | Ok j => json_good j ∨ (allow = false ∧ j = JDiscarded)
  | Throw e => parser_exn allow e
  | NoFuel => False
  end.
Proof.
  intros Hdp Hcb Hb.
  pose proof (parse_run cb allow Hcb (S (length text)) true
    (parser_new loc (input_buffer_adapter_new text) c)) as H.
  unfold json_parse_with, wp in *.
  destruct (parse cb allow _ _ _) as [[j p]|e|]; apply H; try done.
  all: try (split; [|done]; cbn; rewrite buffer_new_pending; by apply skip_bom_bytes).
  all: cbn; rewrite buffer_new_pending; pose proof (skip_bom_length text); lia.
Qed.

Lemma parse_total_witness :
  match json_parse_with c_locale (C := ()) None () true (lit "[1, {") with
  | Ok j => json_good j ∨ (true = false ∧ j = JDiscarded)
  | Throw e => parser_exn true e
  | NoFuel => False
  end.
Proof. apply parse_total; [by split_and!|done|apply lit_bytes]. Defined.

(** C10. [accept] always returns, and returns true exactly for the texts that
    [parse] accepts. *)
Theorem accept_iff_parse loc text : dp_ok (lc_decimal_point loc) → is_bytes text →
  ∃ b, json_accept loc text = Ok b ∧ (b = true ↔ ∃ j, json_parse loc text = Ok j).
Proof.
  intros Hdp Hb.
  pose proof (parse_run (C := ()) None true I (S (length text)) true
    (parser_new loc (input_buffer_adapter_new text) ())) as Hrun.
  pose proof (agree_parse (S (length text)) true
    (parser_new loc (input_buffer_adapter_new text) ()) eq_refl) as Hag.
  unfold json_accept, json_parse, json_parse_with, wp, agree in *.
  destruct (parse None true _ _ _) as [[j p]|e|], (accept _ _ _) as [[b a]|e'|]; try done; cbn.
  - exists b. split; [done|]. destruct Hag as [-> _]. naive_solver.
  - exists b. subst. split; [done|]. split; [done|]. by intros [? ?].
  - exfalso. destruct Hrun as [_ [(? & ? & ?)|[? ?]]]; [..|congruence|congruence];
      [split; [|done]; cbn; rewrite buffer_new_pending; by apply skip_bom_bytes|done|].
    cbn. rewrite buffer_new_pending. pose proof (skip_bom_length text). lia.
  - exfalso. apply Hrun; [split; [|done]; cbn; rewrite buffer_new_pending; by apply skip_bom_bytes|done|].
    cbn. rewrite buffer_new_pending. pose proof (skip_bom_length text). lia.
Qed.

Lemma accept_iff_parse_witness :
  ∃ b, json_accept c_locale (lit "[true,12]") = Ok b ∧
       (b = true ↔ ∃ j, json_parse c_locale (lit "[true,12]") = Ok j).
Proof. apply accept_iff_parse; [by split_and!|apply lit_bytes]. Defined.

(** ** Binary formats *)

(** C3. What [to_cbor] writes, [from_cbor] reads back, whatever the byte order of
    the two hosts and whether or not trailing bytes are refused: the same value up
    to the signedness of its non-negative integers, and [operator==] calls the two
    equal when no number is a NaN. *)
Theorem cbor_roundtrip le le' j strict : json_wf j → no_discarded j →
  ∃ j', from_cbor le' (to_cbor le j) strict = Ok j' ∧ j' = canon j ∧
        (no_nan j → json_eq j' j = true).
Proof.
  intros Hwf Hd. eexists. split; [|split; [done|by apply json_eq_canon; [apply json_wf_typed|]]].
  unfold from_cbor, parse_cbor. rewrite to_cbor_encode by done.
  destruct (strict_reads (parse_cbor_internal le' (S (length (cbor_encode j))) true)
    (cbor_encode j) (canon j) strict
    (binary_reader_new (input_buffer_adapter_new (cbor_encode j))) []) as (r & -> & _); [..|done].
  - intros c. apply cbor_reads; [done..|lia].
  - cbn. rewrite buffer_new_pending, skip_bom_cbor by done. by rewrite app_nil_r.
  - done.
Qed.

Lemma cbor_roundtrip_witness :
  ∃ j', from_cbor false (to_cbor true sample) true = Ok j' ∧ j' = canon sample ∧
        (no_nan sample → json_eq j' sample = true).
Proof. apply cbor_roundtrip; [apply sample_wf|apply sample_good]. Defined.

(** C4. What [to_msgpack] writes, [from_msgpack] reads back, whatever the byte
    order of the two hosts, for strings, arrays and objects that have a length the
    format can express: the same value up to the signedness of its non-negative
    integers, and [operator==] calls the two equal when no number is a NaN. *)
Theorem msgpack_roundtrip le le' j strict : json_wf j → no_discarded j → msgpack_sizes j →
  ∃ j', from_msgpack le' (to_msgpack le j) strict = Ok j' ∧ j' = canon j ∧
        (no_nan j → json_eq j' j = true).
Proof.
  intros Hwf Hd Hs. eexists. split; [|split; [done|by apply json_eq_canon; [apply json_wf_typed|]]].
  unfold from_msgpack, parse_msgpack. rewrite to_msgpack_encode by done.
  destruct (strict_reads (parse_msgpack_internal le' (S (length (msgpack_encode j))))
    (msgpack_encode j) (canon j) strict
    (binary_reader_new (input_buffer_adapter_new (msgpack_encode j))) []) as (r & -> & _); [..|done].
  - intros c. apply msgpack_reads; [done..|lia].
  - cbn. rewrite buffer_new_pending, skip_bom_msgpack by done. by rewrite app_nil_r.
  - done.
Qed.

Lemma msgpack_roundtrip_witness :
  ∃ j', from_msgpack true (to_msgpack false sample) true = Ok j' ∧ j' = canon sample ∧
        (no_nan sample → json_eq j' sample = true).
Proof.
  apply msgpack_roundtrip; [apply sample_wf|apply sample_good|]. simpl. split_and!; done.
Defined.

(** C21. [from_cbor] on every input finishes within its fuel, throws nothing but
    parse errors 110, 112 and 113, and what it returns is a typed value (objects
    sorted by distinct keys, strings of bytes, numbers that fit) without discarded
    parts. *)
Theorem from_cbor_total le bytes strict :
  match from_cbor le bytes strict with
  | Ok j => read_value j
  | Throw e => binary_exn e
  | NoFuel => False
  end.
Proof.
  assert (wp binary_exn (parse_cbor le (S (length bytes)) strict) (λ j _, read_value j)
    (binary_reader_new (input_buffer_adapter_new bytes))) as H.
  { eapply document_good; [|apply buffer_left]. apply strict_good, parse_cbor_internal_finished. }
  unfold from_cbor, wp in *. by destruct (parse_cbor _ _ _ _) as [[j r]|e|].
Qed.

(** C22. [from_msgpack] on every input finishes within its fuel, throws nothing
    but parse errors 110, 112 and 113, and what it returns is a typed value without
    discarded parts. *)
Theorem from_msgpack_total le bytes strict :
  match from_msgpack le bytes strict with
  | Ok j => read_value j
  | Throw e => binary_exn e
  | NoFuel => False
  end.
Proof.
  assert (wp binary_exn (parse_msgpack le (S (length bytes)) strict) (λ j _, read_value j)
    (binary_reader_new (input_buffer_adapter_new bytes))) as H.
  { eapply document_good; [|apply buffer_left]. apply strict_good, parse_msgpack_internal_finished. }
  unfold from_msgpack, wp in *. by destruct (parse_msgpack _ _ _ _) as [[j r]|e|].
Qed.

(** C18. [write_cbor] writes the encoding of RFC 7049, with the shortest head for
    every length and integer, behind what the output holds: for every output
    adapter and either byte order of the host. *)
Theorem write_cbor_refines {O} `{OutputAdapter O} le j (oa : O) : json_wf j →
  contents (write_cbor le j oa) = contents oa ++ cbor_encode j.
Proof. apply write_cbor_contents. Qed.

Lemma write_cbor_refines_witness :
  contents (write_cbor false sample {| stream := [1] |}) =
  contents {| stream := [1] |} ++ cbor_encode sample.
Proof. apply (write_cbor_refines false sample {| stream := [1] |}), sample_wf. Defined.

(** C19. [write_msgpack] writes the encoding of the MessagePack specification, for
    values whose lengths it can express. *)
Theorem write_msgpack_refines {O} `{OutputAdapter O} le j (oa : O) : json_wf j → msgpack_sizes j →
  contents (write_msgpack le j oa) = contents oa ++ msgpack_encode j.
Proof. apply write_msgpack_contents. Qed.

Lemma write_msgpack_refines_witness :
  contents (write_msgpack true sample {| str := [] |}) =
  contents {| str := [] |} ++ msgpack_encode sample.
Proof.
  apply (write_msgpack_refines true sample {| str := [] |}); [apply sample_wf|].
  simpl. split_and!; done.
Defined.

(** ** Parts of the text functions *)





(** C30. [dump_escaped] on UTF-8: the buffer that [extra_space] sizes is filled
    exactly, no index leaves it and no assertion fails, and the result is the
    escape of each character in turn. *)
Theorem escaped_utf8 ea cps : Forall scalar cps →
  escaped (utf8_text cps) ea = Ok (concat (scalar_text ea <$> cps)) ∧
  extra_space (utf8_text cps) ea =
    Z.of_nat (length (concat (scalar_text ea <$> cps))) - Z.of_nat (length (utf8_text cps)).
Proof.
  intros Hcps. destruct (escape_utf8 ea cps Hcps) as [Hesc <-].
  assert (is_bytes (utf8_text cps)) by (apply utf8_valid_bytes; by exists cps).
  split; [by apply escaped_text|]. unfold extra_space. rewrite extra_space_text by done. lia.
Qed.

Lemma escaped_utf8_witness :
  escaped (utf8_text [34; 0x1F600; 1]) true =
    Ok (concat (scalar_text true <$> [34; 0x1F600; 1])) ∧
  extra_space (utf8_text [34; 0x1F600; 1]) true =
    Z.of_nat (length (concat (scalar_text true <$> [34; 0x1F600; 1]))) -
    Z.of_nat (length (utf8_text [34; 0x1F600; 1])).
Proof. apply escaped_utf8. repeat constructor; lia. Defined.

(** C32. [dump_integer] writes the decimal digits of every value of both integer
    types, the most negative included, without leaving its 64 byte buffer. *)
Theorem integer_text_total x : - 2 ^ 63 ≤ x < 2 ^ 64 → integer_text x = Ok (to_string x).
Proof. apply integer_text_digits. Qed.

Lemma integer_text_total_witness : integer_text (- 2 ^ 63) = Ok (to_string (- 2 ^ 63)).
Proof. apply integer_text_total. lia. Defined.

(** C33. [scan] on any adapter: it finishes with as much fuel as there are bytes,
    fails no assertion (in particular [unget] never runs on an empty token, and
    [strtoull], [strtoll] and [strtod] always consume the whole number), consumes a
    prefix of the input that is not empty unless the input is at its end, and the
    string or number of the token it returns is valid. *)
Theorem scan_total {A} `{InputAdapter A} (l : lexer A) fuel :
  lex_ok l → (length (pending (lx_ia l)) < fuel)%nat →
  ∃ t l', scan fuel l = Ok (t, l') ∧ token_ok t l' ∧ lex_ok l' ∧
    (∃ cs, pending (lx_ia l) = cs ++ pending (lx_ia l')) ∧
    ((t = end_of_input ∧ pending (lx_ia l') = []) ∨
     (length (pending (lx_ia l')) < length (pending (lx_ia l)))%nat).
Proof.
  intros Hl Hf. pose proof (scan_safe fuel l Hl Hf) as Hs. unfold wp in Hs.
  destruct (scan fuel l) as [[t l']|e|]; [|done..]. destruct Hs as [[Ha Ht] Hend].
  exists t, l'. split_and!; [done|done|by eapply adv_ok|apply Ha|done].
Qed.

Definition sample_lexer : lexer input_buffer_adapter :=
  lexer_new c_locale (input_buffer_adapter_new (lit "-x")).

Lemma scan_total_witness :
  ∃ t l', scan 3 sample_lexer = Ok (t, l') ∧ token_ok t l' ∧ lex_ok l' ∧
    (∃ cs, pending (lx_ia sample_lexer) = cs ++ pending (lx_ia l')) ∧
    ((t = end_of_input ∧ pending (lx_ia l') = []) ∨
     (length (pending (lx_ia l')) < length (pending (lx_ia sample_lexer)))%nat).
Proof.
  apply scan_total; [|simpl; lia]. split; [apply lit_bytes|by split_and!].
Defined.

(** C34. A stream and a buffer with the same bytes hold the same input: both
    constructors skip a byte order mark, and the stream gets back all it read when
    there is none, even at the end of the input. *)
Theorem adapters_agree b : is_bytes b →
  pending (input_stream_adapter_new {| get_area_before := []; get_area_after := b |}) =
  pending (input_buffer_adapter_new b).
Proof. intros Hb. by rewrite buffer_new_pending, stream_new_pending. Qed.

Lemma adapters_agree_witness :
  pending (input_stream_adapter_new {| get_area_before := []; get_area_after := [0xEF; 0xBB] |}) =
  pending (input_buffer_adapter_new [0xEF; 0xBB]).
Proof. apply adapters_agree. repeat constructor; unfold is_byte; lia. Defined.

(** ** Where the library departs from what it documents *)

(** [operator==] converts an unsigned number to the signed type before it
    compares: every negative integer equals the unsigned number 2^64 above it. *)
Theorem unsigned_equals_negative z : in_s 64 z → z < 0 →
  json_eq (JUInt (z + 2 ^ 64)) (JInt z) = true ∧ json_eq (JInt z) (JUInt (z + 2 ^ 64)) = true.
Proof.
  intros Hz Hn. simpl. assert (swrap 64 (z + 2 ^ 64) = z) as ->; [|by rewrite Z.eqb_refl].
  rewrite <-(swrap_uwrap 64 z) at 2 by done. unfold swrap, uwrap, in_s in *.
  rewrite <-(Z.mod_add z 1 (2 ^ 64)), Z.mod_mod by lia. by rewrite Z.mul_1_l.
Qed.

Lemma unsigned_equals_negative_witness :
  json_eq (JUInt (-1 + 2 ^ 64)) (JInt (-1)) = true ∧
  json_eq (JInt (-1)) (JUInt (-1 + 2 ^ 64)) = true.
Proof. apply unsigned_equals_negative; [split; reflexivity || lia|lia]. Defined.

(** A repeated key keeps its first value in a text and in a CBOR map of known
    length, but its last value in a CBOR map of indefinite length. *)
Theorem repeated_keys :
  json_parse c_locale (lit "{" ++ [34; 97; 34] ++ lit ":1," ++ [34; 97; 34] ++ lit ":2}")
    = Ok (JObject [(lit "a", JUInt 1)]) ∧
  from_cbor true [0xa2; 0x61; 97; 1; 0x61; 97; 2] true = Ok (JObject [(lit "a", JUInt 1)]) ∧
  from_cbor true [0xbf; 0x61; 97; 1; 0x61; 97; 2; 0xff] true = Ok (JObject [(lit "a", JUInt 2)]).
Proof. vm_compute. by split_and!. Qed.

(** An indentation of more than 1025 columns is read behind the end of the
    indentation string, which [dump] doubles only once. *)
Theorem wide_indent loc indent ichar ea : 1025 < indent < 2 ^ 31 →
  json_dump loc (JArray [JNull]) indent ichar ea = Throw out_of_bounds.
Proof.
  intros Hi. unfold json_dump. ztest. cbn [dump]. 
  rewrite (uwrap_small 32 indent) by (split; lia). rewrite (uwrap_small 32 (0 + indent)) by (split; lia).
  unfold grow_indent, put_indent, put_chars, emit, mbind, M_bind, gets, each.
  cbn -[Z.of_nat Z.ltb Z.leb replicate]. rewrite length_replicate. ztest.
  cbn [indent_string]. rewrite length_app, !length_replicate. by ztest.
Qed.

Lemma wide_indent_witness :
  json_dump c_locale (JArray [JNull]) 1500 32 false = Throw out_of_bounds.
Proof. apply wide_indent. lia. Defined.

(** Fifteen digits do not identify a double: the greatest one is dumped as a
    text that [parse] refuses as too large. *)
Theorem max_double_dump :
  json_dump c_locale (JFloat 0x7FEFFFFFFFFFFFFF) (-1) 32 false
    = Ok (lit "1.79769313486232e+308") ∧
  ∃ what, json_parse c_locale (lit "1.79769313486232e+308") = Throw (out_of_range 406 what).
Proof. split; [vm_compute; reflexivity|]. eexists. vm_compute. reflexivity. Qed.

(** A negative CBOR integer below -2^63 is read as a non-negative number. *)
Theorem cbor_negative_wraps le n strict : 2 ^ 63 ≤ n < 2 ^ 64 →
  from_cbor le (0x3b :: be_bytes 8 n) strict = Ok (JInt (2 ^ 64 - 1 - n)).
Proof.
  intros Hn. unfold from_cbor, parse_cbor.
  destruct (strict_reads (parse_cbor_internal le (S (length (0x3b :: be_bytes 8 n))) true)
    (0x3b :: be_bytes 8 n) (JInt (2 ^ 64 - 1 - n)) strict
    (binary_reader_new (input_buffer_adapter_new (0x3b :: be_bytes 8 n))) [])
    as (r & -> & _); [| |done|done].
  - intros c. cbn [parse_cbor_internal]. apply reads_get. cbn -[be_bytes].
    rewrite <-(app_nil_r (be_bytes _ _)). apply (get_number_reads le _ 8); [split; lia|]. intros c'.
    replace (2 ^ 64 - 1 - n) with (-1 - swrap 64 n); [apply reads_ret|].
    unfold swrap. rewrite Z.mod_small by lia. change (64 - 1) with 63. ztest. lia.
  - cbn. by rewrite app_nil_r.
Qed.

Lemma cbor_negative_wraps_witness :
  from_cbor true (0x3b :: be_bytes 8 (2 ^ 63)) true = Ok (JInt (2 ^ 64 - 1 - 2 ^ 63)).
Proof. apply cbor_negative_wraps. lia. Defined.

(** The byte order mark is skipped in binary input too: a MessagePack document
    that starts with the bytes of one is read from its fourth byte. *)
Theorem msgpack_skips_bom le bytes :
  from_msgpack le (0xEF :: 0xBB :: 0xBF :: 1 :: bytes) false = Ok (JUInt 1).
Proof. reflexivity. Qed.

(** A callback that records the depth of every call and keeps no outermost array. *)
Definition record_depth : parser_callback_t (list Z) := λ d ev j c,
  (negb (bool_decide (d = 0) && match ev with array_start => true | _ => false end), j, c ++ [d]).

(** An array that ends at once calls the callback even when its start was
    refused: the depths the callback sees for two empty arrays in one it refused
    fall below zero. *)
Theorem callback_depth_negative :
  match parse (Some record_depth) true 20 true
          (parser_new c_locale (input_buffer_adapter_new (lit "[[],[]]")) []) with
  | Ok (j, p) => j = JNull ∧ ps_callback_state p = [0; 0; -1]
  | _ => False
  end.
Proof. vm_compute. by split. Qed.
