(* ===== verification/CLib.v ===== *)
(** What the programs use of the C library: character arrays, [sprintf],
    [strcat], [snprintf], [strncmp] and [atoi].

    A [char] array is a list of bytes of fixed length.  A write behind its end and
    a search for the terminating zero that leaves it end a run. *)

From S2P Require Import Prelude.

Inductive c_fault := buffer_overflow | over_read | null_pointer.

(** Text without the terminating zero. *)
Definition no_zero (s : list Z) : Prop := Forall (λ c, c ≠ 0) s.

#[global] Instance no_zero_dec s : Decision (no_zero s).
Proof. unfold no_zero. apply _. Defined.

(** ** Character arrays *)

(** Copy bytes into an array. *)
Definition write_at (buf : list Z) (pos : nat) (bytes : list Z) : res c_fault (list Z) :=
  if (pos + length bytes <=? length buf)%nat
  then Ok (take pos buf ++ bytes ++ drop (pos + length bytes) buf)
  else Throw buffer_overflow.

(** The text in an array. *)
Fixpoint c_str (buf : list Z) : res c_fault (list Z) :=
  match buf with
  | [] => Throw over_read
  | c :: buf => if c =? 0 then Ok [] else s ← c_str buf; mret (c :: s)
  end.

(** [sprintf (buf, ...)] for the text that the format produces. *)
Definition sprintf (buf text : list Z) : res c_fault (list Z) := write_at buf 0 (text ++ [0]).

Definition strcat (dst text : list Z) : res c_fault (list Z) :=
  s ← c_str dst; write_at dst (length s) (text ++ [0]).

(** [snprintf (buf, size, ...)]: at most [size - 1] characters and a zero. *)
Definition snprintf (buf : list Z) (size : nat) (text : list Z) : res c_fault (list Z) :=
  match size with
  | O => Ok buf
  | S n => write_at buf 0 (take n text ++ [0])
  end.

(** [%s] of a pointer that may be null (glibc). *)
Definition percent_s_or_null (p : option (list Z)) : list Z := default (lit "(null)") p.

(** [strncmp (s, t, n) == 0] for strings: the first [n] characters, up to the end
    of both, agree. *)
Fixpoint strncmp_eq (s t : list Z) (n : nat) : bool :=
  match n with
  | O => true
  | S n =>
      match s, t with
      | [], [] => true
      | c :: s, d :: t => (c =? d) && strncmp_eq s t n
      | _, _ => false
      end
  end.

(** ** Numbers *)

(** [atoi]: white space, a sign, digits; the [long] that [strtol] returns becomes
    an [int]. *)
Definition is_c_space (c : Z) : bool := (c =? 32) || ((9 <=? c) && (c <=? 13)).

Definition is_c_digit (c : Z) : bool := (48 <=? c) && (c <=? 57).

Fixpoint atoi_digits (acc : Z) (s : list Z) : Z :=
  match s with
  | c :: s => if is_c_digit c then atoi_digits (acc * 10 + (c - 48)) s else acc
  | [] => acc
  end.

Fixpoint atoi (s : list Z) : Z :=
  match s with
  | c :: s' =>
      if is_c_space c then atoi s'
      else
        let x := if c =? 45 then - atoi_digits 0 s'
                 else if c =? 43 then atoi_digits 0 s' else atoi_digits 0 s in
        swrap 32 (Z.min (Z.max x (- 2 ^ 63)) (2 ^ 63 - 1))
  | [] => 0
  end.

(** ** Facts *)

Lemma write_at_ok buf pos bytes : (pos + length bytes ≤ length buf)%nat →
  write_at buf pos bytes = Ok (take pos buf ++ bytes ++ drop (pos + length bytes) buf).
Proof. intros H. unfold write_at. by rewrite (proj2 (Nat.leb_le _ _) H). Qed.

Lemma c_str_app s r : no_zero s → c_str (s ++ 0 :: r) = Ok s.
Proof. induction 1 as [|c s Hc _ IH]; simpl; [done|]. ztests. by rewrite IH. Qed.

Lemma c_str_spec buf : match c_str buf with
                       | Ok s => no_zero s ∧ ∃ r, buf = s ++ 0 :: r
                       | Throw e => e = over_read ∧ no_zero buf
                       | NoFuel => False
                       end.
Proof.
  induction buf as [|c buf IH]; simpl; [by repeat constructor|].
  destruct (Z.eqb_spec c 0) as [->|Hc].
  - split; [constructor|]. by exists buf.
  - destruct (c_str buf) as [s|e|]; simpl; [|by destruct IH as [-> ?]; repeat constructor|done].
    destruct IH as [Hs [r ->]]. split; [by constructor|]. by exists r.
Qed.

(** The array [buf] of [size] bytes holds the text [s]. *)
Definition holds (size : nat) (buf s : list Z) : Prop :=
  length buf = size ∧ no_zero s ∧ ∃ r, buf = s ++ 0 :: r.

Lemma holds_c_str size buf s : holds size buf s → c_str buf = Ok s.
Proof. intros (_ & Hs & r & ->). by apply c_str_app. Qed.

Lemma sprintf_spec size buf text : length buf = size → no_zero text →
  match sprintf buf text with
  | Ok buf' => (length text < size)%nat ∧ holds size buf' text
  | Throw e => e = buffer_overflow ∧ (size ≤ length text)%nat
  | NoFuel => False
  end.
Proof.
  intros Hl Ht. unfold sprintf, write_at. rewrite length_app. cbn [length].
  destruct (Nat.leb_spec (0 + (length text + 1)) (length buf)) as [H|H]; [|split; [done|lia]].
  split; [lia|]. split.
  - rewrite length_app, length_take, !length_app, length_drop. cbn [length]. lia.
  - split; [done|]. eexists. rewrite take_0, app_nil_l, <-app_assoc. done.
Qed.

Lemma strcat_spec size dst s text : holds size dst s → no_zero text →
  match strcat dst text with
  | Ok dst' => (length s + length text < size)%nat ∧ holds size dst' (s ++ text)
  | Throw e => e = buffer_overflow ∧ (size ≤ length s + length text)%nat
  | NoFuel => False
  end.
Proof.
  intros Hh Ht. unfold strcat. rewrite (holds_c_str _ _ _ Hh). cbn [mbind res_bind].
  destruct Hh as (Hl & Hs & r & ->). unfold write_at. rewrite length_app. cbn [length].
  rewrite length_app in *. cbn [length] in *.
  destruct (Nat.leb_spec (length s + (length text + 1)) (length s + S (length r))) as [H|H];
    [|split; [done|lia]].
  split; [lia|]. split.
  - rewrite !length_app, length_take, length_drop, length_app. cbn [length]. lia.
  - split; [by apply Forall_app|]. eexists. rewrite take_app_length, <-!app_assoc. done.
Qed.
