(* ===== verification/Libevent.v ===== *)
(** The part of libevent 2 that the programs of libevent_t/ call: bufferevents
    and their evbuffers.

    libevent is not part of the repository.  Its functions are the fields of the
    class [bufferevent_api], parameters of every program model, and what its
    documentation promises is the class [BuffereventApi], stated in terms of the
    bufferevents that are alive.  The promises say nothing about a bufferevent
    that was freed, so a program proved against them never uses one.
    [model_libevent] is a concrete implementation, which shows that the promises
    can be kept and runs the programs in examples. *)

From S2P Require Import Prelude.
From stdpp Require Export gmap.
#[global] Open Scope Z_scope.

(** A [bufferevent *] is its address; 0 is [NULL].  A [void *] argument of a
    callback is an address as well. *)
Abbreviation ptr := Z (only parsing).
Definition NULL : Z := 0.

(** The flags of event2/event.h and event2/bufferevent.h. *)
Definition EV_READ : Z := 0x02.
Definition EV_WRITE : Z := 0x04.
Definition BEV_OPT_CLOSE_ON_FREE : Z := 1.
Definition BEV_OPT_DEFER_CALLBACKS : Z := 4.
Definition BEV_EVENT_EOF : Z := 0x10.
Definition BEV_EVENT_ERROR : Z := 0x20.
Definition BEV_EVENT_CONNECTED : Z := 0x80.

(** What ends a program: an access through a pointer to a freed object, a failed
    [assert]. *)
Inductive fault := use_after_free | assertion_failed.

(** The two buffers of a bufferevent. *)
Inductive evbuffer := input_of (bev : ptr) | output_of (bev : ptr).

(** A bufferevent: its buffers, its callbacks (functions of the program, of type
    [F]; a null pointer is [None]), their argument, the events enabled, and the
    write watermarks. *)
Record bufferevent (F : Type) := mk_bev {
  bev_input : list Z;
  bev_output : list Z;
  bev_readcb : option F;
  bev_writecb : option F;
  bev_eventcb : option F;
  bev_cbarg : ptr;
  bev_enabled : Z;
  bev_wm_write : Z * Z;
}.
Arguments mk_bev {F} _ _ _ _ _ _ _ _.
Arguments bev_input {F} _.
Arguments bev_output {F} _.
Arguments bev_readcb {F} _.
Arguments bev_writecb {F} _.
Arguments bev_eventcb {F} _.
Arguments bev_cbarg {F} _.
Arguments bev_enabled {F} _.
Arguments bev_wm_write {F} _.

(** The functions; [W] is the state of the library. *)
Class bufferevent_api (W F : Type) := {
  bufferevent_socket_new : Z → Z → M fault W ptr;
  bufferevent_socket_connect : ptr → M fault W Z;
  bufferevent_free : ptr → M fault W ();
  bufferevent_setcb : ptr → option F → option F → option F → ptr → M fault W ();
  bufferevent_enable : ptr → Z → M fault W ();
  bufferevent_disable : ptr → Z → M fault W ();
  bufferevent_setwatermark : ptr → Z → Z → Z → M fault W ();
  evbuffer_get_length : evbuffer → M fault W Z;
  evbuffer_drain : evbuffer → Z → M fault W ();
  evbuffer_add_buffer : evbuffer → evbuffer → M fault W ();
  bufferevent_write : ptr → list Z → M fault W ();
}.

Definition bufferevent_get_input (bev : ptr) : evbuffer := input_of bev.
Definition bufferevent_get_output (bev : ptr) : evbuffer := output_of bev.

(** ** The effect of each function on the bufferevent it is given *)

Section effects.
Context {F : Type}.
Implicit Types s : bufferevent F.

(** A new bufferevent: writing is enabled, reading is not. *)
Definition new_bev : bufferevent F := mk_bev [] [] None None None NULL EV_WRITE (0, 0).

Definition set_callbacks (r w e : option F) (arg : ptr) s : bufferevent F :=
  mk_bev (bev_input s) (bev_output s) r w e arg (bev_enabled s) (bev_wm_write s).
Definition set_enabled (flags : Z) s : bufferevent F :=
  mk_bev (bev_input s) (bev_output s) (bev_readcb s) (bev_writecb s) (bev_eventcb s)
    (bev_cbarg s) flags (bev_wm_write s).
Definition set_watermark (ev low high : Z) s : bufferevent F :=
  mk_bev (bev_input s) (bev_output s) (bev_readcb s) (bev_writecb s) (bev_eventcb s)
    (bev_cbarg s) (bev_enabled s)
    (if negb (Z.land ev EV_WRITE =? 0) then (low, high) else bev_wm_write s).
Definition set_input (d : list Z) s : bufferevent F :=
  mk_bev d (bev_output s) (bev_readcb s) (bev_writecb s) (bev_eventcb s)
    (bev_cbarg s) (bev_enabled s) (bev_wm_write s).
Definition set_output (d : list Z) s : bufferevent F :=
  mk_bev (bev_input s) d (bev_readcb s) (bev_writecb s) (bev_eventcb s)
    (bev_cbarg s) (bev_enabled s) (bev_wm_write s).

Definition enables (ev : Z) s : bool := negb (Z.land (bev_enabled s) ev =? 0).
End effects.

(** ** What the library promises

    [alive w] holds the bufferevents that exist. *)
Class BuffereventApi (W F : Type) `{!bufferevent_api W F} := {
  alive : W → gmap Z (bufferevent F);
  socket_new_spec : ∀ fd opts w, ∃ b w',
    bufferevent_socket_new fd opts w = Ok (b, w') ∧
    ((b = NULL ∧ alive w' = alive w) ∨
     (b ≠ NULL ∧ alive w !! b = None ∧ alive w' = <[b := new_bev]> (alive w)));
  socket_connect_spec : ∀ b s w, alive w !! b = Some s → ∃ r w',
    bufferevent_socket_connect b w = Ok (r, w') ∧ alive w' = alive w;
  free_spec : ∀ b s w, alive w !! b = Some s → ∃ w',
    bufferevent_free b w = Ok ((), w') ∧ alive w' = delete b (alive w);
  setcb_spec : ∀ b s r wr e arg w, alive w !! b = Some s → ∃ w',
    bufferevent_setcb b r wr e arg w = Ok ((), w') ∧
    alive w' = <[b := set_callbacks r wr e arg s]> (alive w);
  enable_spec : ∀ b s ev w, alive w !! b = Some s → ∃ w',
    bufferevent_enable b ev w = Ok ((), w') ∧
    alive w' = <[b := set_enabled (Z.lor (bev_enabled s) ev) s]> (alive w);
  disable_spec : ∀ b s ev w, alive w !! b = Some s → ∃ w',
    bufferevent_disable b ev w = Ok ((), w') ∧
    alive w' = <[b := set_enabled (Z.ldiff (bev_enabled s) ev) s]> (alive w);
  setwatermark_spec : ∀ b s ev low high w, alive w !! b = Some s → ∃ w',
    bufferevent_setwatermark b ev low high w = Ok ((), w') ∧
    alive w' = <[b := set_watermark ev low high s]> (alive w);
  input_length_spec : ∀ b s w, alive w !! b = Some s →
    evbuffer_get_length (input_of b) w = Ok (Z.of_nat (length (bev_input s)), w);
  output_length_spec : ∀ b s w, alive w !! b = Some s →
    evbuffer_get_length (output_of b) w = Ok (Z.of_nat (length (bev_output s)), w);
  (** [len] bytes are removed from the front. *)
  drain_input_spec : ∀ b s len w, alive w !! b = Some s → ∃ w',
    evbuffer_drain (input_of b) len w = Ok ((), w') ∧
    alive w' = <[b := set_input (drop (Z.to_nat len) (bev_input s)) s]> (alive w);
  (** All data moves from the source to the end of the destination. *)
  add_buffer_spec : ∀ b s p t w, b ≠ p → alive w !! b = Some s → alive w !! p = Some t → ∃ w',
    evbuffer_add_buffer (output_of p) (input_of b) w = Ok ((), w') ∧
    alive w' = <[p := set_output (bev_output t ++ bev_input s) t]>
                 (<[b := set_input [] s]> (alive w));
  (** The same between the two buffers of one bufferevent. *)
  add_buffer_self_spec : ∀ b s w, alive w !! b = Some s → ∃ w',
    evbuffer_add_buffer (output_of b) (input_of b) w = Ok ((), w') ∧
    alive w' = <[b := set_output (bev_output s ++ bev_input s) (set_input [] s)]> (alive w);
  write_spec : ∀ b s d w, alive w !! b = Some s → ∃ w',
    bufferevent_write b d w = Ok ((), w') ∧
    alive w' = <[b := set_output (bev_output s ++ d) s]> (alive w);
}.

(** ** Rules for the total correctness of a program, one per function *)

Section rules.
Context {W F : Type} `{BuffereventApi W F}.
Implicit Types (X : fault → Prop) (s t : bufferevent F).

Lemma wp_socket_new {T} X fd opts (k : ptr → M fault W T) Q w :
  (∀ w', alive w' = alive w → wp X (k NULL) Q w') →
  (∀ b w', b ≠ NULL → alive w !! b = None → alive w' = <[b := new_bev]> (alive w) →
     wp X (k b) Q w') →
  wp X (bufferevent_socket_new fd opts ≫= k) Q w.
Proof.
  intros H0 H1. destruct (socket_new_spec fd opts w) as (b & w' & E & [[-> ?]|(? & ? & ?)]);
    apply wp_bind; unfold wp at 1; rewrite E; auto.
Qed.

Lemma wp_socket_connect {T} X b s (k : Z → M fault W T) Q w : alive w !! b = Some s →
  (∀ r w', alive w' = alive w → wp X (k r) Q w') →
  wp X (bufferevent_socket_connect b ≫= k) Q w.
Proof.
  intros Hb Hk. destruct (socket_connect_spec b s w Hb) as (r & w' & E & ?).
  apply wp_bind. unfold wp at 1. rewrite E. auto.
Qed.

(** The functions that change one bufferevent. *)
Lemma wp_update {T} X (m : M fault W ()) (k : () → M fault W T) Q w v :
  (∃ w', m w = Ok ((), w') ∧ alive w' = v) →
  (∀ w', alive w' = v → wp X (k ()) Q w') → wp X (m ≫= k) Q w.
Proof. intros (w' & E & ?) Hk. apply wp_bind. unfold wp at 1. rewrite E. auto. Qed.

Lemma wp_last X (m : M fault W ()) Q w v :
  (∃ w', m w = Ok ((), w') ∧ alive w' = v) → (∀ w', alive w' = v → Q () w') → wp X m Q w.
Proof. intros (w' & E & ?) Hk. unfold wp. rewrite E. auto. Qed.

Lemma wp_input_length {T} X b s (k : Z → M fault W T) Q w : alive w !! b = Some s →
  wp X (k (Z.of_nat (length (bev_input s)))) Q w →
  wp X (evbuffer_get_length (bufferevent_get_input b) ≫= k) Q w.
Proof.
  intros Hb Hk. apply wp_bind. unfold wp at 1, bufferevent_get_input.
  by rewrite (input_length_spec b s w Hb).
Qed.

Lemma wp_output_length {T} X b s (k : Z → M fault W T) Q w : alive w !! b = Some s →
  wp X (k (Z.of_nat (length (bev_output s)))) Q w →
  wp X (evbuffer_get_length (bufferevent_get_output b) ≫= k) Q w.
Proof.
  intros Hb Hk. apply wp_bind. unfold wp at 1, bufferevent_get_output.
  by rewrite (output_length_spec b s w Hb).
Qed.
End rules.

(** ** The flags of a bufferevent *)

Lemma land_pow2 x n : 0 ≤ n → (Z.land x (2 ^ n) =? 0) = negb (Z.testbit x n).
Proof.
  intros Hn. assert (Z.land x (2 ^ n) = if Z.testbit x n then 2 ^ n else 0) as ->.
  { apply Z.bits_inj'. intros m Hm. rewrite Z.land_spec, Z.pow2_bits_eqb by done.
    destruct (Z.eqb_spec n m) as [->|Hne].
    - destruct (Z.testbit x m) eqn:E; [by rewrite Z.pow2_bits_true|by rewrite Z.bits_0].
    - rewrite andb_false_r. destruct (Z.testbit x n);
        [by rewrite Z.pow2_bits_false by lia|by rewrite Z.bits_0]. }
  destruct (Z.testbit x n); simpl; [|done]. apply Z.eqb_neq. pose proof (Z.pow_pos_nonneg 2 n). lia.
Qed.

Lemma enables_read {F} (s : bufferevent F) : enables EV_READ s = Z.testbit (bev_enabled s) 1.
Proof. unfold enables. change EV_READ with (2 ^ 1). by rewrite land_pow2, negb_involutive by lia. Qed.

Lemma enables_write {F} (s : bufferevent F) : enables EV_WRITE s = Z.testbit (bev_enabled s) 2.
Proof. unfold enables. change EV_WRITE with (2 ^ 2). by rewrite land_pow2, negb_involutive by lia. Qed.

Lemma disable_read x : Z.testbit (Z.ldiff x EV_READ) 1 = false ∧
  Z.testbit (Z.ldiff x EV_READ) 2 = Z.testbit x 2.
Proof. rewrite !Z.ldiff_spec by lia. simpl. by rewrite andb_false_r, andb_true_r. Qed.

Lemma enable_read x : Z.testbit (Z.lor x EV_READ) 1 = true ∧
  Z.testbit (Z.lor x EV_READ) 2 = Z.testbit x 2.
Proof. rewrite !Z.lor_spec. simpl. by rewrite orb_true_r, orb_false_r. Qed.

Lemma enable_both x : Z.testbit (Z.lor x (Z.lor EV_READ EV_WRITE)) 1 = true ∧
  Z.testbit (Z.lor x (Z.lor EV_READ EV_WRITE)) 2 = true.
Proof. rewrite !Z.lor_spec. simpl. by rewrite !orb_true_r. Qed.

(** Turn tests of the flags into tests of bits, after the updates of the goal. *)
Ltac flags :=
  rewrite ?enables_read, ?enables_write in *; cbn -[Z.testbit Z.ldiff Z.lor Z.of_nat] in *;
  rewrite ?(proj1 (disable_read _)), ?(proj2 (disable_read _)), ?(proj1 (enable_read _)),
    ?(proj2 (enable_read _)), ?(proj1 (enable_both _)), ?(proj2 (enable_both _)).

(** ** An implementation of the promises

    The state is the bufferevents that exist; a function applied to another one
    faults. A connection attempt succeeds. *)
Section model_libevent.
Context {F : Type}.

Abbreviation W := (gmap Z (bufferevent F)).

Definition with_bev {T} (b : ptr) (f : bufferevent F → T * W → T * W) (x : T) : M fault W T := λ w,
  match w !! b with
  | Some s => Ok (f s (x, w))
  | None => Throw use_after_free
  end.

Definition update_bev (b : ptr) (f : bufferevent F → bufferevent F) : M fault W () :=
  with_bev b (λ s xw, (xw.1, <[b := f s]> xw.2)) ().

#[global] Instance model_libevent : bufferevent_api W F := {
  bufferevent_socket_new fd opts w :=
    let b := fresh ({[NULL]} ∪ dom w) in Ok (b, <[b := new_bev]> w);
  bufferevent_socket_connect b := with_bev b (λ _ xw, xw) 0;
  bufferevent_free b := with_bev b (λ _ xw, (xw.1, delete b xw.2)) ();
  bufferevent_setcb b r wr e arg := update_bev b (set_callbacks r wr e arg);
  bufferevent_enable b ev := update_bev b (λ s, set_enabled (Z.lor (bev_enabled s) ev) s);
  bufferevent_disable b ev := update_bev b (λ s, set_enabled (Z.ldiff (bev_enabled s) ev) s);
  bufferevent_setwatermark b ev low high := update_bev b (set_watermark ev low high);
  evbuffer_get_length ev :=
    match ev with
    | input_of b => λ w, with_bev b (λ s xw, (Z.of_nat (length (bev_input s)), xw.2)) 0 w
    | output_of b => λ w, with_bev b (λ s xw, (Z.of_nat (length (bev_output s)), xw.2)) 0 w
    end;
  evbuffer_drain ev len :=
    match ev with
    | input_of b => update_bev b (λ s, set_input (drop (Z.to_nat len) (bev_input s)) s)
    | output_of b => update_bev b (λ s, set_output (drop (Z.to_nat len) (bev_output s)) s)
    end;
  evbuffer_add_buffer dst src :=
    match dst, src with
    | output_of p, input_of b => λ w,
        match w !! b with
        | Some s =>
            let w := <[b := set_input [] s]> w in
            match w !! p with
            | Some t => Ok ((), <[p := set_output (bev_output t ++ bev_input s) t]> w)
            | None => Throw use_after_free
            end
        | None => Throw use_after_free
        end
    | _, _ => throw assertion_failed
    end;
  bufferevent_write b d := update_bev b (λ s, set_output (bev_output s ++ d) s);
}.

#[global] Instance model_libevent_spec : BuffereventApi W F.
Proof.
  refine {| alive := λ w, w |};
    try by intros; unfold update_bev, with_bev; simpl; unfold update_bev, with_bev; simplify_map_eq; eauto.
  2: { intros b s w Hb. simpl. eexists. simplify_map_eq. split; [done|]. by rewrite insert_insert_eq. }
  intros fd opts w. simpl. eexists _, _. split; [done|]. right.
  pose proof (is_fresh ({[NULL]} ∪ dom w)) as Hf. rewrite elem_of_union in Hf.
  split_and!; [set_solver| |done]. apply not_elem_of_dom. tauto.
Defined.
End model_libevent.
