(* ===== verification/Proxy.v ===== *)
(** libevent_t/proxy.cpp: a TCP proxy.

    Every accepted connection is a pair of bufferevents, each the callback
    argument of the other.  The callbacks are state-passing functions over any
    implementation of libevent; [step] is the event loop: data arrives and leaves
    on the sockets, and registered callbacks run.  [inv] is the invariant of all
    reachable states: partners are alive and point at each other, no byte is lost
    or reordered, and a side whose reading is suspended is woken again. *)

From S2P Require Import Prelude CLib Libevent.
From stdpp Require Import functions.
#[local] Open Scope Z_scope.

Definition MAX_OUTPUT : Z := 512 * 1024.

(** The callbacks of the program. *)
Inductive callback := cb_readcb | cb_drained_writecb | cb_close_on_finished_writecb | cb_eventcb.

Section program.
Context {W : Type} `{!bufferevent_api W callback}.

Definition readcb (bev ctx : ptr) : M fault W () :=
  let partner := ctx in
  let src := bufferevent_get_input bev in
  len ← evbuffer_get_length src;
  if partner =? NULL then evbuffer_drain src len
  else
    let dst := bufferevent_get_output partner in
    evbuffer_add_buffer dst src ;;
    n ← evbuffer_get_length dst;
    if MAX_OUTPUT <=? n then
      bufferevent_setcb partner (Some cb_readcb) (Some cb_drained_writecb) (Some cb_eventcb) bev ;;
      bufferevent_setwatermark partner EV_WRITE (MAX_OUTPUT / 2) MAX_OUTPUT ;;
      bufferevent_disable bev EV_READ
    else mret ().

Definition drained_writecb (bev ctx : ptr) : M fault W () :=
  let partner := ctx in
  bufferevent_setcb bev (Some cb_readcb) None (Some cb_eventcb) partner ;;
  bufferevent_setwatermark bev EV_WRITE 0 0 ;;
  if negb (partner =? NULL) then bufferevent_enable partner EV_READ else mret ().

Definition accept_cb (fd : Z) : M fault W () :=
  b_in ← bufferevent_socket_new fd (Z.lor BEV_OPT_CLOSE_ON_FREE BEV_OPT_DEFER_CALLBACKS);
  b_out ← bufferevent_socket_new (-1) (Z.lor BEV_OPT_CLOSE_ON_FREE BEV_OPT_DEFER_CALLBACKS);
  if negb (negb (b_in =? NULL) && negb (b_out =? NULL)) then throw assertion_failed
  else
    r ← bufferevent_socket_connect b_out;
    if r <? 0 then bufferevent_free b_out ;; bufferevent_free b_in
    else
      bufferevent_setcb b_in (Some cb_readcb) None (Some cb_eventcb) b_out ;;
      bufferevent_setcb b_out (Some cb_readcb) None (Some cb_eventcb) b_in ;;
      bufferevent_enable b_in (Z.lor EV_READ EV_WRITE) ;;
      bufferevent_enable b_out (Z.lor EV_READ EV_WRITE).

Definition close_on_finished_writecb (bev ctx : ptr) : M fault W () :=
  n ← evbuffer_get_length (bufferevent_get_output bev);
  if n =? 0 then bufferevent_free bev else mret ().

Definition eventcb (bev : ptr) (what : Z) (ctx : ptr) : M fault W () :=
  let partner := ctx in
  if negb (Z.land what (Z.lor BEV_EVENT_EOF BEV_EVENT_ERROR) =? 0) then
    (if negb (partner =? NULL) then
       readcb bev ctx ;;
       n ← evbuffer_get_length (bufferevent_get_output partner);
       if negb (n =? 0) then
         bufferevent_setcb partner None (Some cb_close_on_finished_writecb) (Some cb_eventcb) NULL ;;
         bufferevent_disable partner EV_READ
       else bufferevent_free partner
     else mret ()) ;;
    bufferevent_free bev
  else mret ().

(** A call through a callback pointer; [what] is used by [eventcb] only. *)
Definition invoke (f : callback) (bev : ptr) (what : Z) (ctx : ptr) : M fault W () :=
  match f with
  | cb_readcb => readcb bev ctx
  | cb_drained_writecb => drained_writecb bev ctx
  | cb_close_on_finished_writecb => close_on_finished_writecb bev ctx
  | cb_eventcb => eventcb bev what ctx
  end.
End program.

(** ** The event loop *)

(** What happened on the sockets: the bytes sent on the connection of a
    bufferevent, the bytes received on the connection it was accepted with, and
    which bufferevent that is. *)
Record history := mk_history {
  sent : Z → list Z;
  due : Z → list Z;
  peer : Z → ptr;
}.

Section loop.
Context {W : Type} `{BuffereventApi W callback}.
Implicit Types (v : gmap Z (bufferevent callback)) (s t : bufferevent callback).

Record state := mk_state { world : W; past : history }.

(** A connection was accepted: its two bufferevents begin with no history. *)
Definition accepted (b_in b_out : ptr) (g : history) : history :=
  mk_history (<[b_in := []]> (<[b_out := []]> (sent g)))
             (<[b_in := []]> (<[b_out := []]> (due g)))
             (<[b_in := b_out]> (<[b_out := b_in]> (peer g))).

Definition received (b : ptr) (d : list Z) (g : history) : history :=
  mk_history (sent g) (<[peer g b := due g (peer g b) ++ d]> (due g)) (peer g).

Definition delivered (b : ptr) (d : list Z) (g : history) : history :=
  mk_history (<[b := sent g b ++ d]> (sent g)) (due g) (peer g).

(** The steps of [event_base_dispatch].  A callback runs for a bufferevent that
    exists; the write callback when the output is at most the low watermark. *)
Inductive step : state → state → Prop :=
  | step_accept fd w w' g b_in b_out :
      accept_cb fd w = Ok ((), w') →
      alive w !! b_in = None → alive w !! b_out = None → b_in ≠ b_out →
      dom (alive w') = {[b_in; b_out]} ∪ dom (alive w) →
      step (mk_state w g) (mk_state w' (accepted b_in b_out g))
  | step_refuse fd w w' g :
      accept_cb fd w = Ok ((), w') → alive w' = alive w →
      step (mk_state w g) (mk_state w' g)
  | step_receive b s d w w' g :
      alive w !! b = Some s → enables EV_READ s = true →
      alive w' = <[b := set_input (bev_input s ++ d) s]> (alive w) →
      step (mk_state w g) (mk_state w' (received b d g))
  | step_send b s n w w' g :
      alive w !! b = Some s → enables EV_WRITE s = true →
      alive w' = <[b := set_output (drop n (bev_output s)) s]> (alive w) →
      step (mk_state w g) (mk_state w' (delivered b (take n (bev_output s)) g))
  | step_readcb b s f w w' g :
      alive w !! b = Some s → bev_readcb s = Some f →
      invoke f b 0 (bev_cbarg s) w = Ok ((), w') →
      step (mk_state w g) (mk_state w' g)
  | step_writecb b s f w w' g :
      alive w !! b = Some s → bev_writecb s = Some f →
      Z.of_nat (length (bev_output s)) ≤ (bev_wm_write s).1 →
      invoke f b 0 (bev_cbarg s) w = Ok ((), w') →
      step (mk_state w g) (mk_state w' g)
  | step_eventcb b s f what w w' g :
      alive w !! b = Some s → bev_eventcb s = Some f →
      invoke f b what (bev_cbarg s) w = Ok ((), w') →
      step (mk_state w g) (mk_state w' g).

(** The proxy starts without connections. *)
Definition reachable (st : state) : Prop :=
  ∃ w g, alive w = ∅ ∧ rtc step (mk_state w g) st.

(** ** The invariant *)

(** Bufferevent [b] in state [s] relays to its partner [p] in state [t]. *)
Record linked (g : history) (b : ptr) s (p : ptr) t : Prop := {
  lk_null : b ≠ NULL;
  lk_ne : b ≠ p;
  lk_arg : bev_cbarg s = p;
  lk_peer : peer g b = p;
  lk_readcb : bev_readcb s = Some cb_readcb;
  lk_eventcb : bev_eventcb s = Some cb_eventcb;
  lk_writecb : bev_writecb s = None ∨
               bev_writecb s = Some cb_drained_writecb ∧ (bev_wm_write s).1 = MAX_OUTPUT / 2;
  lk_wm : 0 ≤ (bev_wm_write s).1;
  lk_write : enables EV_WRITE s = true;
  (** Suspended reading is resumed by the partner's write callback. *)
  lk_wakeup : enables EV_READ s = false → bev_writecb t = Some cb_drained_writecb;
  (** Reading is suspended while the partner's output is too long. *)
  lk_choked : MAX_OUTPUT ≤ Z.of_nat (length (bev_output t)) → enables EV_READ s = false;
  (** Every byte is sent, waiting to be sent, or not yet looked at. *)
  lk_data : sent g p ++ bev_output t ++ bev_input s = due g p;
}.

(** The other side is gone: send what is left, then close. *)
Record closing (g : history) (b : ptr) s : Prop := {
  cl_null : b ≠ NULL;
  cl_arg : bev_cbarg s = NULL;
  cl_readcb : bev_readcb s = None;
  cl_writecb : bev_writecb s = Some cb_close_on_finished_writecb;
  cl_eventcb : bev_eventcb s = Some cb_eventcb;
  cl_wm : 0 ≤ (bev_wm_write s).1;
  cl_read : enables EV_READ s = false;
  cl_write : enables EV_WRITE s = true;
  cl_data : sent g b ++ bev_output s = due g b;
}.

Definition bev_ok v (g : history) (b : ptr) s : Prop :=
  closing g b s ∨ ∃ p t, v !! p = Some t ∧ linked g b s p t ∧ linked g p t b s.

Definition inv v (g : history) : Prop := ∀ b s, v !! b = Some s → bev_ok v g b s.

(** The rest of the proxy is not concerned by what happens to the bufferevents of
    [D], when no partner of theirs is outside. *)
Lemma inv_frame (D : gset Z) v v' g g' : inv v g →
  (∀ d t, d ∈ D → v !! d = Some t → bev_cbarg t = NULL ∨ bev_cbarg t ∈ D) →
  (∀ c, c ∉ D → v' !! c = v !! c ∧ sent g' c = sent g c ∧ due g' c = due g c ∧ peer g' c = peer g c) →
  (∀ d t, d ∈ D → v' !! d = Some t → bev_ok v' g' d t) → inv v' g'.
Proof.
  intros Hinv Hcl Hout Hin c s Hc. destruct (decide (c ∈ D)) as [Hd|Hd]; [by apply Hin|].
  destruct (Hout c Hd) as (Hv & Hs & Hdue & Hp). rewrite Hv in Hc.
  destruct (Hinv c s Hc) as [[]|(p & t & Ht & H1 & H2)].
  - left. constructor; congruence.
  - assert (p ∉ D) as Hpd.
    { intros Hpd. destruct (Hcl p t Hpd Ht) as [E|E]; rewrite (lk_arg _ _ _ _ _ H2) in E;
        [|done]. by apply (lk_null _ _ _ _ _ H1). }
    destruct (Hout p Hpd) as (Hv2 & Hs2 & Hdue2 & Hp2). right. exists p, t.
    rewrite Hv2. split; [done|]. destruct H1, H2. split; constructor; rewrite ?Hs, ?Hs2, ?Hdue, ?Hdue2, ?Hp, ?Hp2; auto.
Qed.

(** ** Each callback keeps the invariant *)

Lemma inv_pair v g b s p t : inv v g → v !! b = Some s → v !! p = Some t → bev_cbarg s = p →
  p ≠ NULL → linked g b s p t ∧ linked g p t b s.
Proof.
  intros Hinv Hb Hp Ha Hn. destruct (Hinv b s Hb) as [[]|(p' & t' & Hp' & H1 & H2)]; [congruence|].
  pose proof (lk_arg _ _ _ _ _ H1). by simplify_map_eq.
Qed.

(** Symmetric half-links after an update of both bufferevents of a pair. *)
Lemma inv_pair_update v v' g g' b s p t s' t' : inv v g →
  v !! b = Some s → v !! p = Some t → linked g b s p t → linked g p t b s →
  v' !! b = Some s' → v' !! p = Some t' → (∀ c, c ≠ b → c ≠ p → v' !! c = v !! c) →
  (∀ c, c ≠ b → c ≠ p → sent g' c = sent g c ∧ due g' c = due g c ∧ peer g' c = peer g c) →
  linked g' b s' p t' → linked g' p t' b s' → inv v' g'.
Proof.
  intros Hinv Hb Hp H1 H2 Hb' Hp' Hv Hg H1' H2'. apply (inv_frame {[b; p]} v v' g g'); [done| | |].
  - intros d q Hd Hq. right. apply elem_of_union in Hd as [->%elem_of_singleton| ->%elem_of_singleton];
      simplify_map_eq; [rewrite (lk_arg _ _ _ _ _ H1)|rewrite (lk_arg _ _ _ _ _ H2)]; set_solver.
  - intros c Hc. apply not_elem_of_union in Hc as [?%not_elem_of_singleton ?%not_elem_of_singleton].
    split; [by apply Hv|by apply Hg].
  - intros d q Hd Hq. right. apply elem_of_union in Hd as [->%elem_of_singleton| ->%elem_of_singleton];
      simplify_map_eq; eauto.
Qed.

(** A callback that is safe: it returns, and leaves a state as described. *)
Abbreviation safe m Q := (wp (λ _ : fault, False) m (λ (_ : ()) w', Q (alive w'))).

Ltac look := simplify_map_eq; eauto.

(** One call of the library; [Hw] describes the bufferevents that exist. *)
Ltac lib_step Hw :=
  first
  [ eapply wp_input_length; [rewrite ?Hw; by look|]
  | eapply wp_output_length; [rewrite ?Hw; by look|]
  | eapply wp_update; [first [eapply setcb_spec|eapply setwatermark_spec|eapply disable_spec
                             |eapply enable_spec|eapply free_spec]; rewrite ?Hw; by look|];
    let w := fresh "w" in let E := fresh "E" in intros w E; rewrite ?Hw in E; clear Hw;
    rename E into Hw
  | eapply wp_last; [first [eapply setcb_spec|eapply setwatermark_spec|eapply disable_spec
                           |eapply enable_spec|eapply free_spec]; rewrite ?Hw; by look|];
    let w := fresh "w" in let E := fresh "E" in intros w E; rewrite ?Hw in E; clear Hw;
    rename E into Hw ].

(** Both bufferevents of a pair after an update, found in the map. *)
Ltac pair_update :=
  eexists _, _; split; [by look|]; split; [by look|]; split; [by intros; look|];
  repeat match goal with H : linked _ _ _ _ _ |- _ => destruct H end;
  split_and?; try (constructor; try done).

Lemma readcb_safe w g b s p t :
  alive w !! b = Some s → alive w !! p = Some t → linked g b s p t → linked g p t b s →
  safe (readcb b p) (λ v', ∃ s' t', v' !! b = Some s' ∧ v' !! p = Some t' ∧
    (∀ c, c ≠ b → c ≠ p → v' !! c = alive w !! c) ∧
    linked g b s' p t' ∧ linked g p t' b s' ∧ bev_input s' = []) w.
Proof.
  intros Hb Hp H1 H2. pose proof (lk_null _ _ _ _ _ H2). pose proof (lk_ne _ _ _ _ _ H1).
  unfold readcb. eapply wp_input_length; [done|]. rewrite (proj2 (Z.eqb_neq p NULL)) by done.
  eapply wp_update; [by apply add_buffer_spec|]. intros w1 Hw. lib_step Hw.
  case_if.
  - do 3 lib_step Hw. rewrite Hw. pair_update; flags; rewrite ?app_nil_r; auto.
  - eapply wp_ret. rewrite Hw. pair_update; flags; rewrite ?app_nil_r; auto with lia.
Qed.

Lemma drained_writecb_safe w g b s p t :
  alive w !! b = Some s → alive w !! p = Some t → linked g b s p t → linked g p t b s →
  Z.of_nat (length (bev_output s)) < MAX_OUTPUT →
  safe (drained_writecb b p) (λ v', ∃ s' t', v' !! b = Some s' ∧ v' !! p = Some t' ∧
    (∀ c, c ≠ b → c ≠ p → v' !! c = alive w !! c) ∧
    linked g b s' p t' ∧ linked g p t' b s') w.
Proof.
  intros Hb Hp H1 H2 Hlen. pose proof (lk_null _ _ _ _ _ H2). pose proof (lk_ne _ _ _ _ _ H1).
  unfold drained_writecb. eapply wp_update; [by eapply setcb_spec|]. intros w1 Hw. lib_step Hw.
  rewrite (proj2 (Z.eqb_neq p NULL)) by done. cbn [negb]. lib_step Hw.
  rewrite Hw. pair_update; flags; auto with lia.
Qed.

(** What [eventcb] does to a pair: [b] is gone; [p] sends the rest of its output,
    or is gone as well, with everything sent. *)
Definition closed_pair v (g : history) (b p : ptr) v' : Prop :=
  v' !! b = None ∧ (∀ c, c ≠ b → c ≠ p → v' !! c = v !! c) ∧
  match v' !! p with
  | Some t' => closing g p t' ∧ bev_output t' ≠ []
  | None => sent g p = due g p
  end.

Lemma eventcb_safe w g b s p t what :
  alive w !! b = Some s → alive w !! p = Some t → linked g b s p t → linked g p t b s →
  safe (eventcb b what p) (λ v', v' = alive w ∨ closed_pair (alive w) g b p v') w.
Proof.
  intros Hb Hp H1 H2. unfold eventcb. case_if; [|by left].
  pose proof (lk_null _ _ _ _ _ H2). pose proof (lk_ne _ _ _ _ _ H1).
  rewrite (proj2 (Z.eqb_neq p NULL)) by done. cbn [negb]. apply wp_bind, wp_bind.
  eapply wp_mono; [by eapply readcb_safe|]. cbn beta.
  intros _ w1 (s1 & t1 & Hb1 & Hp1 & Hc & H1' & H2' & Hin).
  pose proof (lk_data _ _ _ _ _ H1') as Hdata. rewrite Hin, app_nil_r in Hdata.
  eapply wp_output_length; [done|]. case_if.
  - eapply wp_update; [by eapply setcb_spec|]. intros w2 Hw. lib_step Hw. lib_step Hw.
    right. unfold closed_pair. rewrite Hw. split_and!; [by look|intros; rewrite <-Hc by done; by look|].
    simplify_map_eq. destruct H2'. split; [constructor|]; flags; auto.
    intros E'. rewrite E' in *. by apply E0.
  - eapply wp_last; [by eapply free_spec|]. intros w2 Hw. lib_step Hw.
    right. unfold closed_pair. rewrite Hw. split_and!; [by look|intros; rewrite <-Hc by done; by look|].
    simplify_map_eq. destruct (bev_output t1); [|done]. by rewrite app_nil_r in Hdata.
Qed.

Lemma eventcb_closing_safe w g b s what :
  alive w !! b = Some s → closing g b s →
  safe (eventcb b what NULL) (λ v', v' = alive w ∨ v' = delete b (alive w)) w.
Proof.
  intros Hb Hcl. unfold eventcb. case_if; [|by left]. cbn [Z.eqb NULL negb].
  apply wp_bind, wp_ret. eapply wp_last; [by eapply free_spec|]. auto.
Qed.

Lemma close_on_finished_safe w g b s ctx :
  alive w !! b = Some s → closing g b s →
  safe (close_on_finished_writecb b ctx)
    (λ v', v' = alive w ∨ v' = delete b (alive w) ∧ sent g b = due g b) w.
Proof.
  intros Hb Hcl. unfold close_on_finished_writecb. eapply wp_output_length; [done|]. case_if.
  - eapply wp_last; [by eapply free_spec|]. intros w' ->. right. split; [done|].
    rewrite <-(cl_data _ _ _ Hcl). destruct (bev_output s); [by rewrite app_nil_r|done].
  - by left.
Qed.

(** A connection attempt: an assertion fails when no bufferevent is left, and
    otherwise there is a new pair, or nothing new. *)
Definition new_pair (g : history) (b p : ptr) : Prop :=
  sent g b = [] ∧ due g b = [] ∧ peer g b = p ∧ sent g p = [] ∧ due g p = [] ∧ peer g p = b.

Lemma accept_cb_safe fd w :
  wp (λ e, e = assertion_failed) (accept_cb fd) (λ _ w', alive w' = alive w ∨
    ∃ b_in b_out s t, alive w !! b_in = None ∧ alive w !! b_out = None ∧ b_in ≠ b_out ∧
      alive w' = <[b_in := s]> (<[b_out := t]> (alive w)) ∧
      ∀ g, new_pair g b_in b_out → linked g b_in s b_out t ∧ linked g b_out t b_in s) w.
Proof.
  unfold accept_cb. apply wp_socket_new.
  { intros w1 Hw1. apply wp_socket_new; intros; by case_if. }
  intros b_in w1 Hn1 Hf1 Hw1. apply wp_socket_new; [by intros; rewrite andb_false_r|].
  intros b_out w2 Hn2 Hf2 Hw2. rewrite !(proj2 (Z.eqb_neq _ NULL)) by done. cbn [negb andb].
  assert (b_in ≠ b_out) as Hne by (intros ->; rewrite Hw1 in Hf2; by simplify_map_eq).
  rewrite Hw1 in Hw2, Hf2. rewrite lookup_insert_ne in Hf2 by done.
  eapply wp_socket_connect; [rewrite Hw2; by look|]. intros r w3 Hw. rewrite Hw2 in Hw. clear Hw1 Hw2.
  case_if.
  - lib_step Hw. lib_step Hw. left. rewrite Hw. apply map_eq. intros c.
    destruct (decide (b_in = c)), (decide (b_out = c)); by simplify_map_eq.
  - lib_step Hw. lib_step Hw. lib_step Hw. lib_step Hw. right.
    eexists b_in, b_out, _, _. split_and!; [done|done|done| |].
    + rewrite Hw. apply map_eq. intros c.
      destruct (decide (b_in = c)), (decide (b_out = c)); by simplify_map_eq.
    + intros g (E1 & E2 & E3 & E4 & E5 & E6).
      split; constructor; try done; cbn; rewrite ?E1, ?E2, ?E4, ?E5; auto.
Qed.

(** *** The steps *)

Lemma inv_delete v g b s : inv v g → v !! b = Some s → closing g b s → inv (delete b v) g.
Proof.
  intros Hinv Hb Hcl. apply (inv_frame {[b]} v _ g g); [done| | |].
  - intros d t ->%elem_of_singleton Ht. left. simplify_map_eq. apply Hcl.
  - intros c Hc%not_elem_of_singleton. by simplify_map_eq.
  - intros d t ->%elem_of_singleton Ht. by simplify_map_eq.
Qed.

Lemma inv_closed_pair v v' g b s p t : inv v g → v !! b = Some s → v !! p = Some t →
  linked g b s p t → linked g p t b s → closed_pair v g b p v' → inv v' g.
Proof.
  intros Hinv Hb Hp H1 H2 (Hb' & Hc & Hp'). apply (inv_frame {[b; p]} v v' g g); [done| | |].
  - intros d q Hd Hq. right. apply elem_of_union in Hd as [->%elem_of_singleton| ->%elem_of_singleton];
      simplify_map_eq; [rewrite (lk_arg _ _ _ _ _ H1)|rewrite (lk_arg _ _ _ _ _ H2)]; set_solver.
  - intros c Hd. apply not_elem_of_union in Hd as [?%not_elem_of_singleton ?%not_elem_of_singleton].
    split; [by apply Hc|done].
  - intros d q Hd Hq. left. apply elem_of_union in Hd as [->%elem_of_singleton| ->%elem_of_singleton];
      [congruence|]. rewrite Hq in Hp'. apply Hp'.
Qed.

(** A registered callback, run on a state that satisfies the invariant, returns
    and keeps it. *)
Definition keeps (g : history) (m : M fault W ()) (w : W) : Prop := safe m (λ v', inv v' g) w.

Lemma pair_keeps w g b s p t m (R : bufferevent callback → Prop) : inv (alive w) g →
  alive w !! b = Some s → alive w !! p = Some t → linked g b s p t → linked g p t b s →
  safe m (λ v', ∃ s' t', v' !! b = Some s' ∧ v' !! p = Some t' ∧
    (∀ c, c ≠ b → c ≠ p → v' !! c = alive w !! c) ∧ linked g b s' p t' ∧ linked g p t' b s' ∧ R s') w →
  keeps g m w.
Proof.
  intros Hinv Hb Hp H1 H2 Hm. eapply wp_mono; [exact Hm|]. cbn beta.
  intros _ w' (s' & t' & Hb' & Hp' & Hc & H1' & H2' & _).
  eapply (inv_pair_update (alive w) _ g g b s p t); eauto.
Qed.

Lemma readcb_keeps w g b s f : inv (alive w) g → alive w !! b = Some s → bev_readcb s = Some f →
  keeps g (invoke f b 0 (bev_cbarg s)) w.
Proof.
  intros Hinv Hb Hf. destruct (Hinv b s Hb) as [Hcl|(p & t & Hp & H1 & H2)].
  { rewrite (cl_readcb _ _ _ Hcl) in Hf. done. }
  rewrite (lk_readcb _ _ _ _ _ H1) in Hf. simplify_eq. rewrite (lk_arg _ _ _ _ _ H1).
  eapply (pair_keeps w g b s p t _ (λ s', bev_input s' = [])); [done..|]. by eapply readcb_safe.
Qed.

Lemma writecb_keeps w g b s f : inv (alive w) g → alive w !! b = Some s → bev_writecb s = Some f →
  Z.of_nat (length (bev_output s)) ≤ (bev_wm_write s).1 →
  keeps g (invoke f b 0 (bev_cbarg s)) w.
Proof.
  intros Hinv Hb Hf Hlen. destruct (Hinv b s Hb) as [Hcl|(p & t & Hp & H1 & H2)].
  - rewrite (cl_writecb _ _ _ Hcl) in Hf. simplify_eq.
    eapply wp_mono; [by eapply close_on_finished_safe|]. cbn beta.
    intros _ w' [->|[-> _]]; [done|]. by eapply inv_delete.
  - destruct (lk_writecb _ _ _ _ _ H1) as [E|[E Hwm]]; rewrite E in Hf; simplify_eq.
    rewrite (lk_arg _ _ _ _ _ H1). eapply (pair_keeps w g b s p t _ (λ _, True)); [done..|].
    eapply wp_mono; [eapply drained_writecb_safe; [done..|]|].
    + rewrite Hwm in Hlen. change (MAX_OUTPUT / 2) with 262144 in Hlen. unfold MAX_OUTPUT. lia.
    + cbn beta. intros _ w' (s' & t' & ?). exists s', t'. tauto.
Qed.

Lemma eventcb_keeps w g b s f what : inv (alive w) g → alive w !! b = Some s →
  bev_eventcb s = Some f → keeps g (invoke f b what (bev_cbarg s)) w.
Proof.
  intros Hinv Hb Hf. destruct (Hinv b s Hb) as [Hcl|(p & t & Hp & H1 & H2)].
  - rewrite (cl_eventcb _ _ _ Hcl) in Hf. simplify_eq. rewrite (cl_arg _ _ _ Hcl).
    eapply wp_mono; [by eapply eventcb_closing_safe|]. cbn beta.
    intros _ w' [->| ->]; [done|]. by eapply inv_delete.
  - rewrite (lk_eventcb _ _ _ _ _ H1) in Hf. simplify_eq. rewrite (lk_arg _ _ _ _ _ H1).
    eapply wp_mono; [by eapply eventcb_safe|]. cbn beta.
    intros _ w' [->|?]; [done|]. by apply (inv_closed_pair (alive w) _ g b s p t).
Qed.

(** Evaluate updated histories. *)
Ltac fn_simpl := repeat first [rewrite fn_lookup_insert|rewrite fn_lookup_insert_ne by done].

Lemma inv_accepted w w' g b_in b_out fd : inv (alive w) g →
  accept_cb fd w = Ok ((), w') → alive w !! b_in = None → alive w !! b_out = None →
  b_in ≠ b_out → dom (alive w') = {[b_in; b_out]} ∪ dom (alive w) →
  inv (alive w') (accepted b_in b_out g).
Proof.
  intros Hinv E Hi Ho Hne Hd. pose proof (wp_Ok _ _ _ _ _ _ (accept_cb_safe fd w) E) as [Hv|Hv].
  { exfalso. apply not_elem_of_dom in Hi. rewrite Hv in Hd. set_solver. }
  destruct Hv as (b & p & s & t & Hb & Hp & Hbp & Hv & Hl).
  assert ((b = b_in ∧ p = b_out) ∨ (b = b_out ∧ p = b_in)) as Hbs.
  { rewrite Hv, !dom_insert_L in Hd. apply not_elem_of_dom in Hi, Ho, Hb, Hp.
    assert (b ∈ {[b_in; b_out]} ∪ dom (alive w)) by set_solver.
    assert (p ∈ {[b_in; b_out]} ∪ dom (alive w)) by set_solver. set_solver. }
  assert (new_pair (accepted b_in b_out g) b p) as Hnew.
  { destruct Hbs as [[-> ->]|[-> ->]]; unfold new_pair, accepted; cbn; split_and!; by fn_simpl. }
  destruct (Hl _ Hnew) as [H1 H2].
  apply (inv_frame {[b; p]} (alive w) _ g); [done| | |].
  - intros d q Hq ?. set_solver by congruence.
  - intros c Hc. apply not_elem_of_union in Hc as [?%not_elem_of_singleton ?%not_elem_of_singleton].
    rewrite Hv. destruct Hbs as [[-> ->]|[-> ->]]; simplify_map_eq; split_and!; try done;
      unfold accepted; cbn; by fn_simpl.
  - intros d q Hq. rewrite Hv. right.
    apply elem_of_union in Hq as [->%elem_of_singleton| ->%elem_of_singleton]; simplify_map_eq.
    + exists p, t. by simplify_map_eq.
    + exists b, s. by simplify_map_eq.
Qed.

Lemma inv_received w w' g b s d : inv (alive w) g → alive w !! b = Some s →
  enables EV_READ s = true → alive w' = <[b := set_input (bev_input s ++ d) s]> (alive w) →
  inv (alive w') (received b d g).
Proof.
  intros Hinv Hb Hr Hw. destruct (Hinv b s Hb) as [Hcl|(p & t & Hp & H1 & H2)].
  { rewrite (cl_read _ _ _ Hcl) in Hr. done. }
  pose proof (lk_peer _ _ _ _ _ H1) as Hpeer. pose proof (lk_ne _ _ _ _ _ H1) as Hne.
  apply (inv_pair_update (alive w) _ g _ b s p t (set_input (bev_input s ++ d) s) t);
    rewrite ?Hw; try done; try by look.
  - intros c ??. by look.
  - intros c ??. unfold received. cbn. rewrite Hpeer. by fn_simpl.
  - destruct H1. constructor; try done. unfold received. cbn. rewrite Hpeer. fn_simpl.
    rewrite <-lk_data0. by rewrite <-!app_assoc.
  - destruct H2. constructor; try done. unfold received. cbn. rewrite Hpeer. by fn_simpl.
Qed.

Lemma inv_delivered w w' g b s n : inv (alive w) g → alive w !! b = Some s →
  alive w' = <[b := set_output (drop n (bev_output s)) s]> (alive w) →
  inv (alive w') (delivered b (take n (bev_output s)) g).
Proof.
  intros Hinv Hb Hw. destruct (Hinv b s Hb) as [Hcl|(p & t & Hp & H1 & H2)].
  - apply (inv_frame {[b]} (alive w) _ g); [done| | |].
    + intros d t ->%elem_of_singleton Ht. left. simplify_map_eq. apply Hcl.
    + intros c Hc%not_elem_of_singleton. rewrite Hw. unfold delivered. cbn. fn_simpl. by look.
    + intros d t ->%elem_of_singleton. rewrite Hw. intros ?. simplify_map_eq. left.
      destruct Hcl. constructor; try done. unfold delivered. cbn. fn_simpl.
      by rewrite <-app_assoc, take_drop.
  - pose proof (lk_ne _ _ _ _ _ H1) as Hne.
    apply (inv_pair_update (alive w) _ g _ b s p t (set_output (drop n (bev_output s)) s) t);
      rewrite ?Hw; try done; try by look.
    + intros c ??. by look.
    + intros c ??. unfold delivered. cbn. by fn_simpl.
    + destruct H1. constructor; try done. unfold delivered. cbn. by fn_simpl.
    + destruct H2. constructor; try done.
      * cbn. rewrite length_drop. intros. apply lk_choked0. lia.
      * unfold delivered. cbn. fn_simpl. rewrite <-lk_data0, <-app_assoc.
        by rewrite (app_assoc (take _ _)), take_drop.
Qed.

Lemma step_inv st st' : step st st' → inv (alive (world st)) (past st) →
  inv (alive (world st')) (past st').
Proof.
  destruct 1; cbn; intros Hinv.
  - by eapply inv_accepted.
  - match goal with E : alive _ = alive _ |- _ => by rewrite E end.
  - by eapply inv_received.
  - by eapply inv_delivered.
  - eapply (wp_Ok _ _ _ _ _ _ (readcb_keeps _ _ _ _ _ Hinv ltac:(eassumption) ltac:(eassumption))). done.
  - eapply (wp_Ok _ _ _ _ _ _ (writecb_keeps _ _ _ _ _ Hinv ltac:(eassumption) ltac:(eassumption)
      ltac:(eassumption))). done.
  - eapply (wp_Ok _ _ _ _ _ _ (eventcb_keeps _ _ _ _ _ _ Hinv ltac:(eassumption) ltac:(eassumption))).
    done.
Qed.

Lemma reachable_inv st : reachable st → inv (alive (world st)) (past st).
Proof.
  intros (w & g & Hw & Hst). assert (inv (alive (world (mk_state w g))) (past (mk_state w g))) as H0.
  { intros b s Hb. cbn in Hb. rewrite Hw in Hb. by simplify_map_eq. }
  clear Hw. revert H0 Hst. generalize (mk_state w g). intros st0 H0 Hst.
  induction Hst; eauto using step_inv.
Qed.

(** *** Which bufferevents a callback frees *)

Lemma readcb_frees w w' g b s f c r : inv (alive w) g → alive w !! b = Some s →
  bev_readcb s = Some f → invoke f b 0 (bev_cbarg s) w = Ok ((), w') →
  alive w !! c = Some r → alive w' !! c ≠ None.
Proof.
  intros Hinv Hb Hf E Hc. destruct (Hinv b s Hb) as [Hcl|(p & t & Hp & H1 & H2)].
  { rewrite (cl_readcb _ _ _ Hcl) in Hf. done. }
  rewrite (lk_readcb _ _ _ _ _ H1) in Hf. simplify_eq. rewrite (lk_arg _ _ _ _ _ H1) in E.
  destruct (wp_Ok _ _ _ _ _ _ (readcb_safe _ _ _ _ _ _ Hb Hp H1 H2) E) as (s' & t' & ? & ? & Hv & _).
  destruct (decide (c = b)) as [->|]; [congruence|]. destruct (decide (c = p)) as [->|]; [congruence|].
  by rewrite Hv, Hc.
Qed.

Lemma writecb_frees w w' g b s f c r : inv (alive w) g → alive w !! b = Some s →
  bev_writecb s = Some f → Z.of_nat (length (bev_output s)) ≤ (bev_wm_write s).1 →
  invoke f b 0 (bev_cbarg s) w = Ok ((), w') →
  alive w !! c = Some r → alive w' !! c = None → sent g c = due g c.
Proof.
  intros Hinv Hb Hf Hlen E Hc Hc'. destruct (Hinv b s Hb) as [Hcl|(p & t & Hp & H1 & H2)].
  - rewrite (cl_writecb _ _ _ Hcl) in Hf. simplify_eq.
    destruct (wp_Ok _ _ _ _ _ _ (close_on_finished_safe _ _ _ _ (bev_cbarg s) Hb Hcl) E) as [Hv|[Hv Hd]];
      rewrite Hv in Hc'; [congruence|]. apply lookup_delete_None in Hc' as [->|]; [done|congruence].
  - destruct (lk_writecb _ _ _ _ _ H1) as [E'|[E' Hwm]]; rewrite E' in Hf; simplify_eq.
    rewrite (lk_arg _ _ _ _ _ H1) in E. exfalso.
    edestruct (wp_Ok _ _ _ _ _ _ (drained_writecb_safe _ _ _ _ _ _ Hb Hp H1 H2
      ltac:(rewrite Hwm in Hlen; change (MAX_OUTPUT / 2) with 262144 in Hlen; unfold MAX_OUTPUT; lia)) E)
      as (s' & t' & ? & ? & Hv & _).
    destruct (decide (c = b)) as [->|]; [congruence|]. destruct (decide (c = p)) as [->|]; [congruence|].
    rewrite Hv in Hc' by done. congruence.
Qed.

Lemma eventcb_frees w w' g b s f what c r : inv (alive w) g → alive w !! b = Some s →
  bev_eventcb s = Some f → invoke f b what (bev_cbarg s) w = Ok ((), w') →
  alive w !! c = Some r → alive w' !! c = None →
  sent g c = due g c ∨ c = b ∧ f = cb_eventcb ∧
    Z.land what (Z.lor BEV_EVENT_EOF BEV_EVENT_ERROR) ≠ 0.
Proof.
  intros Hinv Hb Hf E Hc Hc'.
  assert (f = cb_eventcb) as -> by (destruct (Hinv b s Hb) as [[]|(p & t & Hp & [] & _)]; congruence).
  assert (Z.land what (Z.lor BEV_EVENT_EOF BEV_EVENT_ERROR) ≠ 0) as Hw.
  { intros H0. cbn in E. unfold eventcb in E. rewrite H0 in E. cbn in E.
    unfold mret, M_ret in E. simplify_eq. }
  destruct (Hinv b s Hb) as [Hcl|(p & t & Hp & H1 & H2)].
  - rewrite (cl_arg _ _ _ Hcl) in E.
    destruct (wp_Ok _ _ _ _ _ _ (eventcb_closing_safe _ _ _ _ what Hb Hcl) E) as [Hv|Hv];
      rewrite Hv in Hc'; [congruence|]. apply lookup_delete_None in Hc' as [->|]; [auto|congruence].
  - rewrite (lk_arg _ _ _ _ _ H1) in E.
    destruct (wp_Ok _ _ _ _ _ _ (eventcb_safe _ _ _ _ _ _ what Hb Hp H1 H2) E) as [Hv|(_ & Hv & Hpv)];
      [rewrite Hv in Hc'; congruence|].
    destruct (decide (c = b)) as [->|]; [auto|]. left. destruct (decide (c = p)) as [->|].
    + by rewrite Hc' in Hpv.
    + rewrite Hv in Hc' by done. congruence.
Qed.

(** ** What the proxy guarantees *)

(** C7. In every state the event loop reaches, any callback that is registered
    runs to its end: no callback touches a bufferevent that was freed. *)
Theorem proxy_safe st b s f what : reachable st → alive (world st) !! b = Some s →
  (bev_readcb s = Some f → ∃ w', invoke f b 0 (bev_cbarg s) (world st) = Ok ((), w')) ∧
  (bev_writecb s = Some f → Z.of_nat (length (bev_output s)) ≤ (bev_wm_write s).1 →
     ∃ w', invoke f b 0 (bev_cbarg s) (world st) = Ok ((), w')) ∧
  (bev_eventcb s = Some f → ∃ w', invoke f b what (bev_cbarg s) (world st) = Ok ((), w')).
Proof.
  intros Hinv%reachable_inv Hb.
  assert (∀ m, keeps (past st) m (world st) → ∃ w', m (world st) = Ok ((), w')) as Hk.
  { intros m Hm. unfold keeps, wp in Hm. destruct (m (world st)) as [[[] w']|e|]; by eauto. }
  split_and!; intros; apply Hk; [by eapply readcb_keeps|by eapply writecb_keeps|by eapply eventcb_keeps].
Qed.

(** C23. In every reachable state a bufferevent with a partner relays to it: the
    partner is alive, was accepted with it, and has it as its partner; the bytes
    sent to the partner, those waiting in its output, and those still in the input
    are together exactly the bytes received, in order. *)
Theorem proxy_relays st b s : reachable st → alive (world st) !! b = Some s →
  bev_cbarg s ≠ NULL →
  let p := bev_cbarg s in
  ∃ t, alive (world st) !! p = Some t ∧ bev_cbarg t = b ∧ peer (past st) b = p ∧
    sent (past st) p ++ bev_output t ++ bev_input s = due (past st) p.
Proof.
  intros Hinv%reachable_inv Hb Hn. destruct (Hinv b s Hb) as [[]|(p & t & Hp & [] & [])]; [done|].
  subst p. eauto.
Qed.

(** C24. Back pressure without deadlock: in every reachable state, reading from a
    connection is suspended as long as its partner has 512 KiB or more to send, and
    whenever it is suspended and the partner has at most 256 KiB left, the
    partner's write callback is due and resumes it. *)
Theorem proxy_backpressure st b s t : reachable st → alive (world st) !! b = Some s →
  bev_cbarg s ≠ NULL → alive (world st) !! bev_cbarg s = Some t →
  (MAX_OUTPUT ≤ Z.of_nat (length (bev_output t)) → enables EV_READ s = false) ∧
  (enables EV_READ s = false → Z.of_nat (length (bev_output t)) ≤ MAX_OUTPUT / 2 →
   Z.of_nat (length (bev_output t)) ≤ (bev_wm_write t).1 ∧
   ∃ f w' s', bev_writecb t = Some f ∧
     invoke f (bev_cbarg s) 0 (bev_cbarg t) (world st) = Ok ((), w') ∧
     alive w' !! b = Some s' ∧ enables EV_READ s' = true).
Proof.
  intros Hinv%reachable_inv Hb Hn Hp. destruct (inv_pair _ _ _ _ _ _ Hinv Hb Hp eq_refl Hn) as [H1 H2].
  split; [apply H1|]. intros Hr Hlen. pose proof (lk_wakeup _ _ _ _ _ H1 Hr) as Hcb.
  destruct (lk_writecb _ _ _ _ _ H2) as [E|[_ Hwm]]; [congruence|]. split; [lia|].
  assert (safe (drained_writecb (bev_cbarg s) b)
    (λ v', ∃ s', v' !! b = Some s' ∧ enables EV_READ s' = true) (world st)) as Hrun.
  { pose proof (lk_ne _ _ _ _ _ H1). pose proof (lk_null _ _ _ _ _ H1). unfold drained_writecb.
    eapply wp_update; [by eapply setcb_spec|]. intros w1 Hw. lib_step Hw.
    rewrite (proj2 (Z.eqb_neq b NULL)) by done. cbn [negb]. lib_step Hw. rewrite Hw.
    eexists. split; [by look|]. by flags. }
  unfold wp in Hrun. rewrite (lk_arg _ _ _ _ _ H2).
  destruct (drained_writecb (bev_cbarg s) b (world st)) as [[[] w']|e|] eqn:Erun; [|done..].
  destruct Hrun as (s' & Hs' & Hen). exists cb_drained_writecb, w', s'. by split_and!.
Qed.

(** C6. A connection is closed only when every byte received for it has been
    sent, or when its own end of file or error is handled. *)
Theorem proxy_delivers st st' b s : reachable st → step st st' →
  alive (world st) !! b = Some s → alive (world st') !! b = None →
  sent (past st) b = due (past st) b ∨
  ∃ what, Z.land what (Z.lor BEV_EVENT_EOF BEV_EVENT_ERROR) ≠ 0 ∧
    eventcb b what (bev_cbarg s) (world st) = Ok ((), world st').
Proof.
  intros Hinv%reachable_inv Hstep Hb Hb'.
  destruct Hstep as [fd w w' g b_in b_out E Hi Ho Hne Hd|fd w w' g E Hv|c t d w w' g Hc Hr Hv
    |c t n w w' g Hc Hr Hv|c t f w w' g Hc Hf E|c t f w w' g Hc Hf Hl E|c t f what w w' g Hc Hf E]; cbn in *.
  - apply not_elem_of_dom in Hb'. apply elem_of_dom_2 in Hb. set_solver.
  - congruence.
  - rewrite Hv in Hb'. apply lookup_insert_None in Hb' as [? _]. congruence.
  - rewrite Hv in Hb'. apply lookup_insert_None in Hb' as [? _]. congruence.
  - destruct (readcb_frees _ _ _ _ _ _ _ _ Hinv Hc Hf E Hb Hb').
  - left. apply (writecb_frees _ _ _ _ _ _ _ _ Hinv Hc Hf Hl E Hb Hb').
  - destruct (eventcb_frees _ _ _ _ _ _ _ _ _ Hinv Hc Hf E Hb Hb') as [?|(-> & -> & ?)]; [by left|].
    right. exists what. simplify_map_eq. eauto.
Qed.

(** C25. The last part of closing: when nothing is left to send, the write
    callback is due, and it frees the bufferevent and nothing else. *)
Theorem proxy_closes st b s : reachable st → alive (world st) !! b = Some s →
  bev_cbarg s = NULL → bev_output s = [] →
  ∃ f w', bev_writecb s = Some f ∧ Z.of_nat (length (bev_output s)) ≤ (bev_wm_write s).1 ∧
    invoke f b 0 (bev_cbarg s) (world st) = Ok ((), w') ∧
    alive w' = delete b (alive (world st)) ∧ sent (past st) b = due (past st) b.
Proof.
  intros Hinv%reachable_inv Hb Hn Ho. destruct (Hinv b s Hb) as [Hcl|(p & t & Hp & H1 & H2)].
  - destruct (free_spec b s (world st) Hb) as (w' & E & Hw). destruct Hcl.
    exists cb_close_on_finished_writecb, w'. rewrite Ho in *. split_and!; try done.
    + cbn. unfold close_on_finished_writecb, bufferevent_get_output.
      rewrite (M_bind_Ok _ _ _ _ _ (output_length_spec b s _ Hb)). by rewrite Ho.
    + by rewrite app_nil_r in cl_data0.
  - destruct (lk_null _ _ _ _ _ H2). by rewrite <-(lk_arg _ _ _ _ _ H1), Hn.
Qed.
End loop.

(** ** A run of the proxy

    One connection is accepted, three bytes arrive from the client, which then
    closes; they are flushed to the server and the server side is closed. *)
Section run.
Abbreviation W := (gmap Z (bufferevent callback)).

Definition after (m : M fault W ()) (w : W) : W :=
  match m w with Ok (_, w') => w' | _ => ∅ end.

Definition no_history : history := mk_history (λ _, []) (λ _, []) (λ _, NULL).

Definition get_bev (w : W) (b : ptr) : bufferevent callback := default new_bev (w !! b).

Definition run0 : W := ∅.
Definition run1 : W := after (accept_cb 5) run0.
Definition run2 : W := <[1 := set_input [104; 105; 33] (get_bev run1 1)]> run1.
Definition run3 : W := after (eventcb 1 BEV_EVENT_EOF 2) run2.
Definition run4 : W := <[2 := set_output [] (get_bev run3 2)]> run3.

Definition state1 : state := mk_state run1 (accepted 1 2 no_history).
Definition state2 : state := mk_state run2 (received 1 [104; 105; 33] (past state1)).
Definition state3 : state := mk_state run3 (past state2).
Definition state4 : state := mk_state run4 (delivered 2 [104; 105; 33] (past state3)).

Lemma state1_reachable : reachable state1.
Proof.
  exists run0, no_history. split; [done|]. apply rtc_once.
  apply (step_accept 5 run0 run1 no_history 1 2); try done.
Qed.

Lemma state4_reachable : reachable state4 ∧ step state2 state3 ∧ reachable state2.
Proof.
  assert (step state1 state2) as H1.
  { apply (step_receive 1 (get_bev run1 1) [104; 105; 33] run1 run2); by vm_compute. }
  assert (step state2 state3) as H2.
  { apply (step_eventcb 1 (get_bev run2 1) cb_eventcb BEV_EVENT_EOF run2 run3); by vm_compute. }
  assert (step state3 state4) as H3.
  { apply (step_send 2 (get_bev run3 2) 3 run3 run4); by vm_compute. }
  destruct state1_reachable as (w & g & Hw & Hr).
  split; [|split; [done|]]; exists w, g; (split; [done|]); eauto using rtc_r.
Qed.

Lemma proxy_safe_witness :
  ∃ w', invoke cb_readcb 1 0 (bev_cbarg (get_bev run1 1)) run1 = Ok ((), w').
Proof.
  apply (proj1 (proxy_safe state1 1 (get_bev run1 1) cb_readcb 0 state1_reachable eq_refl)).
  reflexivity.
Defined.

Lemma proxy_relays_witness :
  let p := bev_cbarg (get_bev run2 1) in
  ∃ t, alive run2 !! p = Some t ∧ bev_cbarg t = 1 ∧ peer (past state2) 1 = p ∧
    sent (past state2) p ++ bev_output t ++ bev_input (get_bev run2 1) = due (past state2) p.
Proof.
  apply (proxy_relays state2 1 (get_bev run2 1)); [apply state4_reachable|reflexivity|by vm_compute].
Defined.

(** A flood: [d] arrives at once, too much for the output of the partner, reading
    is suspended, and then all of it is sent. *)
Section flood.
Variable d : list Z.
Hypothesis Hd : MAX_OUTPUT ≤ Z.of_nat (length d).

Definition run5 : W := <[1 := set_input (bev_input (get_bev run1 1) ++ d) (get_bev run1 1)]> run1.
Definition run6 : W :=
  after (bufferevent_setcb 2 (Some cb_readcb) (Some cb_drained_writecb) (Some cb_eventcb) 1 ;;
         bufferevent_setwatermark 2 EV_WRITE (MAX_OUTPUT / 2) MAX_OUTPUT ;;
         bufferevent_disable 1 EV_READ)
    (after (evbuffer_add_buffer (bufferevent_get_output 2) (bufferevent_get_input 1)) run5).
Definition run7 : W :=
  <[2 := set_output (drop (length d) (bev_output (get_bev run6 2))) (get_bev run6 2)]> run6.

Definition state5 : state := mk_state run5 (received 1 d (past state1)).
Definition state6 : state := mk_state run6 (past state5).
Definition state7 : state :=
  mk_state run7 (delivered 2 (take (length d) (bev_output (get_bev run6 2))) (past state6)).

Lemma flood_suspends : readcb 1 2 run5 = Ok ((), run6).
Proof.
  unfold readcb. erewrite M_bind_Ok by reflexivity. cbn [Z.eqb NULL].
  erewrite M_bind_Ok by reflexivity. erewrite M_bind_Ok by reflexivity.
  rewrite (proj2 (Z.leb_le _ _)) by exact Hd. reflexivity.
Qed.

Lemma state7_reachable : reachable state7.
Proof.
  assert (step state1 state5) as H1.
  { apply (step_receive 1 (get_bev run1 1) d run1 run5); reflexivity. }
  assert (step state5 state6) as H2.
  { apply (step_readcb 1 (get_bev run5 1) cb_readcb run5 run6);
      [reflexivity|reflexivity|exact flood_suspends]. }
  assert (step state6 state7) as H3.
  { apply (step_send 2 (get_bev run6 2) (length d) run6 run7); reflexivity. }
  destruct state1_reachable as (w & g & Hw & Hr). exists w, g. split; [done|]. eauto using rtc_r.
Qed.

Lemma run7_suspended :
  alive run7 !! 1 = Some (get_bev run7 1) ∧ alive run7 !! 2 = Some (get_bev run7 2) ∧
  bev_cbarg (get_bev run7 1) = 2 ∧ bev_cbarg (get_bev run7 2) = 1 ∧
  enables EV_READ (get_bev run7 1) = false ∧ bev_output (get_bev run7 2) = drop (length d) d.
Proof. repeat split. Qed.
End flood.

Definition flood : list Z := replicate (Z.to_nat MAX_OUTPUT) 0.

Lemma flood_length : MAX_OUTPUT ≤ Z.of_nat (length flood).
Proof. unfold flood. rewrite length_replicate, Z2Nat.id; [lia|done]. Qed.

Lemma proxy_backpressure_witness :
  enables EV_READ (get_bev (run7 flood) 1) = false ∧
  ∃ f w' s', bev_writecb (get_bev (run7 flood) 2) = Some f ∧
    invoke f 2 0 1 (run7 flood) = Ok ((), w') ∧
    alive w' !! 1 = Some s' ∧ enables EV_READ s' = true.
Proof.
  generalize flood flood_length. intros d Hd.
  destruct (run7_suspended d) as (H1 & H2 & E1 & E2 & E3 & E4). split; [done|].
  destruct (proxy_backpressure (state7 d) 1 (get_bev (run7 d) 1) (get_bev (run7 d) 2)
    (state7_reachable d Hd) H1) as [_ H]; [by rewrite E1|by rewrite E1|].
  rewrite E1, E2, E4, drop_all in H. by apply H.
Defined.

Lemma proxy_delivers_witness :
  sent (past state2) 1 = due (past state2) 1 ∨
  ∃ what, Z.land what (Z.lor BEV_EVENT_EOF BEV_EVENT_ERROR) ≠ 0 ∧
    eventcb 1 what (bev_cbarg (get_bev run2 1)) run2 = Ok ((), run3).
Proof.
  apply (proxy_delivers state2 state3 1 (get_bev run2 1));
    [apply state4_reachable|apply state4_reachable|reflexivity|reflexivity].
Defined.

Lemma proxy_closes_witness :
  ∃ f w', bev_writecb (get_bev run4 2) = Some f ∧
    Z.of_nat (length (bev_output (get_bev run4 2))) ≤ (bev_wm_write (get_bev run4 2)).1 ∧
    invoke f 2 0 (bev_cbarg (get_bev run4 2)) run4 = Ok ((), w') ∧
    alive w' = delete 2 (alive run4) ∧ sent (past state4) 2 = due (past state4) 2.
Proof.
  apply (proxy_closes state4 2 (get_bev run4 2)); [apply state4_reachable|reflexivity..].
Defined.
End run.

(** ** [main]

    [evutil_parse_sockaddr_port] belongs to libevent: a parameter that turns a
    text into an address, or fails.  The other parameters are the results of
    [event_base_new] and [evconnlistener_new_bind]. *)
Section main.
Context {Addr : Type}.
Variable evutil_parse_sockaddr_port : list Z → option Addr.

(** The [sockaddr_storage] of the program: what the library stored, or the
    [sockaddr_in] that [main] fills in itself. *)
Inductive sockaddr := parsed (a : Addr) | sockaddr_in (port addr : Z).

Inductive outcome :=
  | exited (status : Z)
  | returned (status : Z)
  | dispatched (listen_on_addr connect_to_addr : sockaddr).

Definition listen_address (arg : list Z) : option sockaddr :=
  match evutil_parse_sockaddr_port arg with
  | Some a => Some (parsed a)
  | None =>
      let p := atoi arg in
      if (p <? 1) || (65535 <? p) then None else Some (sockaddr_in p 0x7f000001)
  end.

(** [argv] without the program's name; [None] stands for [syntax ()]. *)
Definition proxy_main (argv : list (list Z)) (base_ok listener_ok : bool) : outcome :=
  match argv with
  | arg1 :: arg2 :: _ =>
      match listen_address arg1 with
      | None => exited 1
      | Some listen_on_addr =>
          match evutil_parse_sockaddr_port arg2 with
          | None => exited 1
          | Some connect_to_addr =>
              if negb base_ok then returned 1
              else if negb listener_ok then returned 1
              else dispatched listen_on_addr (parsed connect_to_addr)
          end
      end
  | _ => exited 1
  end.
End main.
