(* ===== verification/HelloWorld.v ===== *)
(** libevent_t/helloworld.cpp: a server that sends a greeting on every connection
    and closes it when the greeting is sent.

    The callbacks are functions over any implementation of libevent; [step] is
    the event loop.  [inv] is its invariant. *)

From S2P Require Import Prelude Libevent.
From stdpp Require Import functions.
#[local] Open Scope Z_scope.

(** ["Hello World\n"]. *)
Definition strMsg : list Z := lit "Hello World" ++ [10].

Inductive hello_callback := conn_writecb_ptr | conn_eventcb_ptr.

Section program.
Context {W : Type} `{!bufferevent_api W hello_callback}.

(** The result tells whether [event_base_loopbreak] was called. *)
Definition listener_cb (fd : Z) : M fault W bool :=
  pDev ← bufferevent_socket_new fd BEV_OPT_CLOSE_ON_FREE;
  if pDev =? NULL then mret true
  else
    bufferevent_setcb pDev None (Some conn_writecb_ptr) (Some conn_eventcb_ptr) NULL ;;
    bufferevent_enable pDev EV_WRITE ;;
    bufferevent_disable pDev EV_READ ;;
    bufferevent_write pDev strMsg ;;
    mret false.

Definition conn_writecb (pDev : ptr) : M fault W () :=
  n ← evbuffer_get_length (bufferevent_get_output pDev);
  if n =? 0 then bufferevent_free pDev else mret ().

Definition conn_eventcb (pDev : ptr) (events : Z) : M fault W () := bufferevent_free pDev.

Definition hello_invoke (f : hello_callback) (pDev : ptr) (events : Z) : M fault W () :=
  match f with
  | conn_writecb_ptr => conn_writecb pDev
  | conn_eventcb_ptr => conn_eventcb pDev events
  end.
End program.

Section loop.
Context {W : Type} `{BuffereventApi W hello_callback}.

(** The state of the library, the bytes sent on each connection, and whether the
    loop was left. *)
Record hello := mk_hello { hello_world : W; hello_sent : Z → list Z; hello_break : bool }.

Inductive hello_step : hello → hello → Prop :=
  | hello_accept fd w w' g b :
      listener_cb fd w = Ok (false, w') → alive w !! b = None →
      dom (alive w') = {[b]} ∪ dom (alive w) →
      hello_step (mk_hello w g false) (mk_hello w' (<[b := []]> g) false)
  | hello_accept_fails fd w w' g :
      listener_cb fd w = Ok (true, w') →
      hello_step (mk_hello w g false) (mk_hello w' g true)
  | hello_send b s n w w' g :
      alive w !! b = Some s → enables EV_WRITE s = true →
      alive w' = <[b := set_output (drop n (bev_output s)) s]> (alive w) →
      hello_step (mk_hello w g false)
        (mk_hello w' (<[b := g b ++ take n (bev_output s)]> g) false)
  | hello_writecb b s f w w' g :
      alive w !! b = Some s → bev_writecb s = Some f →
      Z.of_nat (length (bev_output s)) ≤ (bev_wm_write s).1 →
      hello_invoke f b 0 w = Ok ((), w') →
      hello_step (mk_hello w g false) (mk_hello w' g false)
  | hello_eventcb b s f events w w' g :
      alive w !! b = Some s → bev_eventcb s = Some f →
      hello_invoke f b events w = Ok ((), w') →
      hello_step (mk_hello w g false) (mk_hello w' g false).

Definition hello_reachable (st : hello) : Prop :=
  ∃ w g, alive w = ∅ ∧ rtc hello_step (mk_hello w g false) st.

(** Every connection: what was sent and what waits is the greeting. *)
Record greeting (g : Z → list Z) (b : ptr) (s : bufferevent hello_callback) : Prop := {
  gr_writecb : bev_writecb s = Some conn_writecb_ptr;
  gr_eventcb : bev_eventcb s = Some conn_eventcb_ptr;
  gr_readcb : bev_readcb s = None;
  gr_read : enables EV_READ s = false;
  gr_write : enables EV_WRITE s = true;
  gr_wm : (bev_wm_write s).1 = 0;
  gr_data : g b ++ bev_output s = strMsg;
}.

Definition hello_inv (v : gmap Z (bufferevent hello_callback)) (g : Z → list Z) : Prop :=
  ∀ b s, v !! b = Some s → greeting g b s.

Lemma listener_cb_safe fd w :
  wp (λ _ : fault, False) (listener_cb fd) (λ stop w',
    if (stop : bool) then alive w' = alive w
    else ∃ b s, alive w !! b = None ∧ alive w' = <[b := s]> (alive w) ∧
           ∀ g, g b = [] → greeting g b s) w.
Proof.
  unfold listener_cb. apply wp_socket_new; [done|]. intros b w1 Hn Hf Hw.
  rewrite (proj2 (Z.eqb_neq b NULL)) by done.
  eapply wp_update; [eapply setcb_spec; rewrite Hw; by simplify_map_eq|]. intros w2 Hw2.
  eapply wp_update; [eapply enable_spec; rewrite Hw2; by simplify_map_eq|]. intros w3 Hw3.
  eapply wp_update; [eapply disable_spec; rewrite Hw3; by simplify_map_eq|]. intros w4 Hw4.
  eapply wp_update; [eapply write_spec; rewrite Hw4; by simplify_map_eq|]. intros w5 Hw5.
  eapply wp_ret. rewrite Hw4, Hw3, Hw2, Hw, !insert_insert_eq in Hw5.
  exists b. eexists. split; [done|]. split; [exact Hw5|]. intros g Hg.
  constructor; try done. by rewrite Hg.
Qed.

(** A registered callback frees its own connection, or does nothing. *)
Lemma hello_invoke_safe w f b s events : alive w !! b = Some s →
  wp (λ _ : fault, False) (hello_invoke f b events)
    (λ _ w', alive w' = alive w ∧ bev_output s ≠ [] ∨ alive w' = delete b (alive w)) w.
Proof.
  intros Hb. destruct f; cbn.
  - unfold conn_writecb. eapply wp_output_length; [done|]. case_if.
    + eapply wp_last; [by eapply free_spec|]. auto.
    + apply wp_ret. left. split; [done|]. by intros E'; rewrite E' in E.
  - eapply wp_last; [by eapply free_spec|]. auto.
Qed.

Lemma hello_inv_delete v g b : hello_inv v g → hello_inv (delete b v) g.
Proof. intros Hinv c s [_ Hc]%lookup_delete_Some. by apply Hinv. Qed.

Lemma hello_step_inv st st' : hello_step st st' →
  hello_inv (alive (hello_world st)) (hello_sent st) →
  hello_inv (alive (hello_world st')) (hello_sent st').
Proof.
  destruct 1 as [fd w w' g b E Hb Hd|fd w w' g E|b s n w w' g Hb _ Hw|b s f w w' g Hb Hf Hl E
    |b s f events w w' g Hb Hf E]; cbn; intros Hinv.
  - destruct (wp_Ok _ _ _ _ _ _ (listener_cb_safe fd w) E) as (b' & s & Hb' & Hw & Hg).
    assert (b' = b) as ->.
    { rewrite Hw, dom_insert_L in Hd. apply not_elem_of_dom in Hb, Hb'. set_solver. }
    intros c t. rewrite Hw. intros [[<- <-]|[Hne Hc]]%lookup_insert_Some.
    + apply Hg. by rewrite fn_lookup_insert.
    + destruct (Hinv c t Hc). constructor; try done. by rewrite fn_lookup_insert_ne.
  - rewrite (wp_Ok _ _ _ _ _ _ (listener_cb_safe fd w) E). done.
  - intros c t. rewrite Hw. intros [[<- <-]|[Hne Hc]]%lookup_insert_Some.
    + destruct (Hinv b s Hb). constructor; try done. rewrite fn_lookup_insert. cbn.
      by rewrite <-app_assoc, take_drop.
    + destruct (Hinv c t Hc). constructor; try done. by rewrite fn_lookup_insert_ne.
  - destruct (wp_Ok _ _ _ _ _ _ (hello_invoke_safe w f b s 0 Hb) E) as [[-> _]| ->]; [done|].
    by apply hello_inv_delete.
  - destruct (wp_Ok _ _ _ _ _ _ (hello_invoke_safe w f b s events Hb) E) as [[-> _]| ->]; [done|].
    by apply hello_inv_delete.
Qed.

Lemma hello_reachable_inv st : hello_reachable st →
  hello_inv (alive (hello_world st)) (hello_sent st).
Proof.
  intros (w & g & Hw & Hst).
  assert (hello_inv (alive (hello_world (mk_hello w g false))) (hello_sent (mk_hello w g false))) as H0.
  { intros b s Hb. cbn in Hb. rewrite Hw in Hb. by simplify_map_eq. }
  clear Hw. revert H0 Hst. generalize (mk_hello w g false). intros st0 H0 Hst.
  induction Hst; eauto using hello_step_inv.
Qed.

(** C35. In every reachable state of the greeting server, each connection was sent
    a beginning of the greeting and the rest waits in its output; when nothing
    waits, the write callback is due, and it closes the connection, with the whole
    greeting sent. *)
Theorem hello_greets st b s : hello_reachable st → alive (hello_world st) !! b = Some s →
  hello_sent st b ++ bev_output s = strMsg ∧
  (bev_output s = [] → ∃ f w', bev_writecb s = Some f ∧
     Z.of_nat (length (bev_output s)) ≤ (bev_wm_write s).1 ∧
     hello_invoke f b 0 (hello_world st) = Ok ((), w') ∧
     alive w' = delete b (alive (hello_world st)) ∧ hello_sent st b = strMsg).
Proof.
  intros Hinv%hello_reachable_inv Hb. destruct (Hinv b s Hb). split; [done|]. intros Ho.
  pose proof (hello_invoke_safe _ conn_writecb_ptr b s 0 Hb) as Hrun. unfold wp in Hrun.
  destruct (hello_invoke _ _ _ _) as [[[] w']|e|] eqn:E; [|done..]. destruct Hrun as [[_ ?]|Hw]; [done|].
  rewrite Ho, app_nil_r in gr_data0. exists conn_writecb_ptr, w'. rewrite Ho, gr_wm0. by split_and!.
Qed.
End loop.

Section run.
Abbreviation W := (gmap Z (bufferevent hello_callback)).

Definition hello_after : W := match listener_cb 7 (∅ : W) with Ok (_, w) => w | _ => ∅ end.
Definition hello_state : hello := mk_hello hello_after (<[1 := []]> (λ _, [])) false.

Lemma hello_greets_witness :
  hello_sent hello_state 1 ++ bev_output (default new_bev (hello_after !! 1)) = strMsg.
Proof.
  apply (hello_greets hello_state 1 (default new_bev (hello_after !! 1))); [|reflexivity].
  exists ∅, (λ _, []). split; [done|]. apply rtc_once.
  by apply (hello_accept 7 (∅ : W) hello_after (λ _, []) 1).
Defined.
End run.

(** ** [main] and the signal handler *)

(** The objects and calls of [main]. *)
Inductive hello_call :=
  | call_base_new | call_listener_new | call_signal_new
  | call_event_add | call_dispatch
  | call_listener_free | call_event_free | call_base_free.

(** [main], for what the three constructors return: its result and its calls. *)
Definition hello_main (pBase pListener pSignal_event : bool) : Z * list hello_call :=
  if negb pBase then (-1, [call_base_new])
  else if negb pListener then (-1, [call_base_new; call_listener_new])
  else if negb pSignal_event then (-1, [call_base_new; call_listener_new; call_signal_new])
  else (0, [call_base_new; call_listener_new; call_signal_new; call_dispatch;
            call_listener_free; call_event_free; call_base_free]).

(** [signal_cb]: the delay after which the loop is left, in seconds. *)
Definition hello_signal_cb : Z := 2.

(** The signal event is created but never added, so that [signal_cb] is never
    called; and an error leaves what was created before. *)
Lemma signal_never_added b l s :
  call_event_add ∉ (hello_main b l s).2 ∧
  ((hello_main b l s).1 ≠ 0 → call_base_free ∉ (hello_main b l s).2).
Proof.
  unfold hello_main. destruct b, l, s; cbn; split; intros; rewrite !not_elem_of_cons;
    repeat split; try done; apply not_elem_of_nil.
Qed.
