(* ===== verification/EchoServer.v ===== *)
(** libevent_t/test.cpp: a server that sends back what it receives.

    [readcb] moves the input of a connection to its output and suspends reading
    until [drained_writecb] runs.  The names carry the prefix [echo] because
    proxy.cpp has callbacks of the same names. *)

From S2P Require Import Prelude Libevent.
From stdpp Require Import functions.
#[local] Open Scope Z_scope.

Inductive echo_callback := echo_readcb_ptr | echo_drained_writecb_ptr.

Section program.
Context {W : Type} `{!bufferevent_api W echo_callback}.

Definition echo_readcb (bev ctx : ptr) : M fault W () :=
  let src := bufferevent_get_input bev in
  let dst := bufferevent_get_output bev in
  evbuffer_add_buffer dst src ;;
  evbuffer_get_length dst ;;
  bufferevent_setcb bev (Some echo_readcb_ptr) (Some echo_drained_writecb_ptr) None bev ;;
  bufferevent_setwatermark bev EV_WRITE 38 0 ;;
  bufferevent_disable bev EV_READ.

Definition echo_drained_writecb (bev ctx : ptr) : M fault W () :=
  let partner := ctx in
  evbuffer_get_length (bufferevent_get_output bev) ;;
  bufferevent_setcb bev (Some echo_readcb_ptr) (Some echo_drained_writecb_ptr) None partner ;;
  bufferevent_setwatermark bev EV_WRITE 0 0 ;;
  if negb (partner =? NULL) then bufferevent_enable partner EV_READ else mret ().

(** The pointer that [bufferevent_socket_new] returns is not tested. *)
Definition echo_listener_cb (fd : Z) : M fault W () :=
  b_in ← bufferevent_socket_new fd (Z.lor BEV_OPT_CLOSE_ON_FREE BEV_OPT_DEFER_CALLBACKS);
  bufferevent_setcb b_in (Some echo_readcb_ptr) None None b_in ;;
  bufferevent_enable b_in (Z.lor EV_READ EV_WRITE).

Definition echo_invoke (f : echo_callback) (bev ctx : ptr) : M fault W () :=
  match f with
  | echo_readcb_ptr => echo_readcb bev ctx
  | echo_drained_writecb_ptr => echo_drained_writecb bev ctx
  end.
End program.

(** ** The event loop *)

Section loop.
Context {W : Type} `{BuffereventApi W echo_callback}.
Implicit Types (v : gmap Z (bufferevent echo_callback)) (s : bufferevent echo_callback).

(** The bytes sent and received on each connection. *)
Record echo := mk_echo { echo_world : W; echo_sent : Z → list Z; echo_received : Z → list Z }.

(** The steps of [event_base_dispatch].  [listener_cb] is run with a bufferevent
    that could be allocated. *)
Inductive echo_step : echo → echo → Prop :=
  | echo_accept fd w w1 w' g r b :
      bufferevent_socket_new fd (Z.lor BEV_OPT_CLOSE_ON_FREE BEV_OPT_DEFER_CALLBACKS) w = Ok (b, w1) →
      b ≠ NULL → echo_listener_cb fd w = Ok ((), w') →
      echo_step (mk_echo w g r) (mk_echo w' (<[b := []]> g) (<[b := []]> r))
  | echo_receive b s d w w' g r :
      alive w !! b = Some s → enables EV_READ s = true →
      alive w' = <[b := set_input (bev_input s ++ d) s]> (alive w) →
      echo_step (mk_echo w g r) (mk_echo w' g (<[b := r b ++ d]> r))
  | echo_send b s n w w' g r :
      alive w !! b = Some s → enables EV_WRITE s = true →
      alive w' = <[b := set_output (drop n (bev_output s)) s]> (alive w) →
      echo_step (mk_echo w g r) (mk_echo w' (<[b := g b ++ take n (bev_output s)]> g) r)
  | echo_run_readcb b s f w w' g r :
      alive w !! b = Some s → bev_readcb s = Some f →
      echo_invoke f b (bev_cbarg s) w = Ok ((), w') →
      echo_step (mk_echo w g r) (mk_echo w' g r)
  | echo_run_writecb b s f w w' g r :
      alive w !! b = Some s → bev_writecb s = Some f →
      Z.of_nat (length (bev_output s)) ≤ (bev_wm_write s).1 →
      echo_invoke f b (bev_cbarg s) w = Ok ((), w') →
      echo_step (mk_echo w g r) (mk_echo w' g r).

Definition echo_reachable (st : echo) : Prop :=
  ∃ w g r, alive w = ∅ ∧ rtc echo_step (mk_echo w g r) st.

(** ** The invariant *)

Record echoing (g r : Z → list Z) (b : ptr) s : Prop := {
  ec_null : b ≠ NULL;
  ec_arg : bev_cbarg s = b;
  ec_readcb : bev_readcb s = Some echo_readcb_ptr;
  ec_writecb : bev_writecb s = None ∨ bev_writecb s = Some echo_drained_writecb_ptr;
  ec_write : enables EV_WRITE s = true;
  (** Suspended reading is resumed once at most 38 bytes wait. *)
  ec_wakeup : enables EV_READ s = false →
    bev_writecb s = Some echo_drained_writecb_ptr ∧ (bev_wm_write s).1 = 38;
  ec_data : g b ++ bev_output s ++ bev_input s = r b;
}.

Definition echo_inv v g r : Prop := ∀ b s, v !! b = Some s → echoing g r b s.

Abbreviation safe m Q := (wp (λ _ : fault, False) m (λ (_ : ()) w', Q (alive w'))).

(** A callback changes its own connection only, and keeps the invariant. *)
Definition keeps g r (b : ptr) (P : bufferevent echo_callback → Prop) v : gmap Z _ → Prop :=
  λ v', ∃ s', v' = <[b := s']> v ∧ echoing g r b s' ∧ P s'.

Lemma echo_readcb_safe w g r b s : alive w !! b = Some s → echoing g r b s →
  safe (echo_readcb b b) (keeps g r b (λ _, True) (alive w)) w.
Proof.
  intros Hb He. unfold echo_readcb, bufferevent_get_input, bufferevent_get_output.
  eapply wp_update; [by apply add_buffer_self_spec|]. intros w1 Hw1.
  eapply wp_output_length; [rewrite Hw1; by simplify_map_eq|].
  eapply wp_update; [eapply setcb_spec; rewrite Hw1; by simplify_map_eq|]. intros w2 Hw2.
  eapply wp_update; [eapply setwatermark_spec; rewrite Hw2; by simplify_map_eq|]. intros w3 Hw3.
  eapply wp_last; [eapply disable_spec; rewrite Hw3; by simplify_map_eq|]. intros w4 Hw4.
  rewrite Hw3, Hw2, Hw1, !insert_insert_eq in Hw4. rewrite Hw4. eexists. split; [done|].
  destruct He. split; [|done]. constructor; flags; auto. by rewrite app_nil_r.
Qed.

Lemma echo_drained_writecb_safe w g r b s : alive w !! b = Some s → echoing g r b s →
  safe (echo_drained_writecb b b) (keeps g r b (λ s', enables EV_READ s' = true) (alive w)) w.
Proof.
  intros Hb He. unfold echo_drained_writecb, bufferevent_get_output.
  eapply wp_output_length; [done|].
  eapply wp_update; [by eapply setcb_spec|]. intros w2 Hw2.
  eapply wp_update; [eapply setwatermark_spec; rewrite Hw2; by simplify_map_eq|]. intros w3 Hw3.
  rewrite (proj2 (Z.eqb_neq b NULL)) by apply He. cbn [negb].
  eapply wp_last; [eapply enable_spec; rewrite Hw3; by simplify_map_eq|]. intros w4 Hw4.
  rewrite Hw3, Hw2, !insert_insert_eq in Hw4. rewrite Hw4. eexists. split; [done|].
  destruct He. split; [|by flags]. constructor; flags; auto. done.
Qed.

(** Any callback that is registered. *)
Lemma echo_invoke_safe w g r b s f : alive w !! b = Some s → echoing g r b s →
  safe (echo_invoke f b (bev_cbarg s))
    (keeps g r b (λ s', f = echo_drained_writecb_ptr → enables EV_READ s' = true) (alive w)) w.
Proof.
  intros Hb He. rewrite (ec_arg _ _ _ _ He). destruct f; cbn.
  - eapply wp_mono; [by eapply echo_readcb_safe|]. intros _ w' (s' & ? & ? & _). by exists s'.
  - eapply wp_mono; [by eapply echo_drained_writecb_safe|]. intros _ w' (s' & ? & ? & ?). by exists s'.
Qed.

Lemma echo_listener_cb_safe fd w w1 b :
  bufferevent_socket_new fd (Z.lor BEV_OPT_CLOSE_ON_FREE BEV_OPT_DEFER_CALLBACKS) w = Ok (b, w1) →
  b ≠ NULL →
  alive w !! b = None ∧
  safe (echo_listener_cb fd) (λ v', ∃ s', v' = <[b := s']> (alive w) ∧
    ∀ g r, g b = [] → r b = [] → echoing g r b s') w.
Proof.
  intros E Hn. destruct (socket_new_spec fd (Z.lor BEV_OPT_CLOSE_ON_FREE BEV_OPT_DEFER_CALLBACKS) w)
    as (b' & w1' & E' & [[-> _]|(_ & Hf & Hw1)]); rewrite E in E'; simplify_eq.
  split; [done|]. unfold echo_listener_cb. apply wp_bind. unfold wp at 1. rewrite E.
  eapply wp_update; [eapply setcb_spec; rewrite Hw1; by simplify_map_eq|]. intros w2 Hw2.
  eapply wp_last; [eapply enable_spec; rewrite Hw2; by simplify_map_eq|]. intros w3 Hw3.
  rewrite Hw2, Hw1, !insert_insert_eq in Hw3. rewrite Hw3. eexists. split; [done|].
  intros g r Hg Hr. constructor; flags; auto. done. by rewrite Hg, Hr.
Qed.

Lemma echo_inv_insert v g r g' r' b s : echo_inv v g r → echoing g' r' b s →
  (∀ c, c ≠ b → g' c = g c ∧ r' c = r c) → echo_inv (<[b := s]> v) g' r'.
Proof.
  intros Hinv Hb Hg c t [[<- <-]|[Hne Hc]]%lookup_insert_Some; [done|].
  destruct (Hg c) as [E1 E2]; [done|]. destruct (Hinv c t Hc). constructor; try done. by rewrite E1, E2.
Qed.

Lemma echo_step_inv st st' : echo_step st st' →
  echo_inv (alive (echo_world st)) (echo_sent st) (echo_received st) →
  echo_inv (alive (echo_world st')) (echo_sent st') (echo_received st') ∧
  dom (alive (echo_world st)) ⊆ dom (alive (echo_world st')).
Proof.
  destruct 1 as [fd w w1 w' g r b E1 Hn E|b s d w w' g r Hb _ Hw|b s n w w' g r Hb _ Hw
    |b s f w w' g r Hb Hf E|b s f w w' g r Hb Hf Hl E]; cbn; intros Hinv.
  - destruct (echo_listener_cb_safe fd w w1 b E1 Hn) as [Hnone Hs].
    destruct (wp_Ok _ _ _ _ _ _ Hs E) as (s' & Hw & Hs'). rewrite Hw. split; [|set_solver].
    eapply echo_inv_insert; [done|apply Hs'; by rewrite fn_lookup_insert|].
    intros c Hc. by rewrite !fn_lookup_insert_ne.
  - rewrite Hw. split; [|set_solver]. eapply echo_inv_insert; [done| |].
    + destruct (Hinv b s Hb). constructor; try done. cbn. rewrite fn_lookup_insert, <-ec_data0.
      by rewrite <-!app_assoc.
    + intros c Hc. by rewrite !fn_lookup_insert_ne.
  - rewrite Hw. split; [|set_solver]. eapply echo_inv_insert; [done| |].
    + destruct (Hinv b s Hb). constructor; try done. cbn. rewrite fn_lookup_insert, <-ec_data0.
      rewrite <-app_assoc. f_equal. by rewrite app_assoc, take_drop.
    + intros c Hc. by rewrite !fn_lookup_insert_ne.
  - destruct (wp_Ok _ _ _ _ _ _ (echo_invoke_safe w g r b s f Hb (Hinv b s Hb)) E) as (s' & Hw & Hs & _).
    rewrite Hw. split; [by eapply echo_inv_insert|set_solver].
  - destruct (wp_Ok _ _ _ _ _ _ (echo_invoke_safe w g r b s f Hb (Hinv b s Hb)) E) as (s' & Hw & Hs & _).
    rewrite Hw. split; [by eapply echo_inv_insert|set_solver].
Qed.

Lemma echo_reachable_inv st : echo_reachable st →
  echo_inv (alive (echo_world st)) (echo_sent st) (echo_received st).
Proof.
  intros (w & g & r & Hw & Hst).
  assert (let st0 := mk_echo w g r in
          echo_inv (alive (echo_world st0)) (echo_sent st0) (echo_received st0)) as H0.
  { intros st0 b s Hb. cbn in Hb. rewrite Hw in Hb. by simplify_map_eq. }
  cbv zeta in H0. clear Hw. induction Hst as [|st0 st1 st2 H1 _ IH]; [done|].
  apply IH. by apply (echo_step_inv _ _ H1).
Qed.

(** C27. The echo server, in every reachable state and for every connection: what
    was sent back, what waits to be sent and what was not looked at yet are
    together exactly the bytes received, in order; every callback that is
    registered runs without a fault; and whenever reading is suspended and at most
    38 bytes wait, the write callback is due and resumes reading. *)
Theorem echo_echoes st b s : echo_reachable st → alive (echo_world st) !! b = Some s →
  echo_sent st b ++ bev_output s ++ bev_input s = echo_received st b ∧
  (∀ f, bev_readcb s = Some f ∨ bev_writecb s = Some f →
     ∃ w', echo_invoke f b (bev_cbarg s) (echo_world st) = Ok ((), w')) ∧
  (enables EV_READ s = false → Z.of_nat (length (bev_output s)) ≤ 38 →
     ∃ f w' s', bev_writecb s = Some f ∧ Z.of_nat (length (bev_output s)) ≤ (bev_wm_write s).1 ∧
       echo_invoke f b (bev_cbarg s) (echo_world st) = Ok ((), w') ∧
       alive w' !! b = Some s' ∧ enables EV_READ s' = true).
Proof.
  intros Hinv%echo_reachable_inv Hb. pose proof (Hinv b s Hb) as He.
  assert (∀ f, ∃ w' s', echo_invoke f b (bev_cbarg s) (echo_world st) = Ok ((), w') ∧
    alive w' = <[b := s']> (alive (echo_world st)) ∧
    (f = echo_drained_writecb_ptr → enables EV_READ s' = true)) as Hrun.
  { intros f. pose proof (echo_invoke_safe _ _ _ _ _ f Hb He) as Hs. unfold wp in Hs.
    destruct (echo_invoke f b (bev_cbarg s) (echo_world st)) as [[[] w']|e|]; [|done..].
    destruct Hs as (s' & ? & _ & ?). by exists w', s'. }
  split; [apply He|]. split.
  - intros f _. destruct (Hrun f) as (w' & _ & ? & _). by exists w'.
  - intros Hr Hl. destruct (ec_wakeup _ _ _ _ He Hr) as [Hcb Hwm].
    destruct (Hrun echo_drained_writecb_ptr) as (w' & s' & E & Hw & Hs').
    exists echo_drained_writecb_ptr, w', s'. rewrite Hwm, Hw. split_and!; auto. by simplify_map_eq.
Qed.

(** No connection is ever closed: the server registers no event callback and never
    frees a bufferevent. *)
Lemma echo_never_closes st st' : echo_reachable st → echo_step st st' →
  dom (alive (echo_world st)) ⊆ dom (alive (echo_world st')).
Proof. intros Hinv%echo_reachable_inv Hstep. by apply (echo_step_inv _ _ Hstep). Qed.
End loop.

(** ** A run: a connection sends three bytes, which are echoed *)
Section run.
Abbreviation W := (gmap Z (bufferevent echo_callback)).

Definition echo_after (m : M fault W ()) (w : W) : W :=
  match m w with Ok (_, w') => w' | _ => ∅ end.
Definition echo_bev (w : W) : bufferevent echo_callback := default new_bev (w !! 1).

Definition echo1 : W := echo_after (echo_listener_cb 7) ∅.
Definition echo2 : W := <[1 := set_input [104; 105; 33] (echo_bev echo1)]> echo1.
Definition echo3 : W := echo_after (echo_readcb 1 1) echo2.

Definition echo_state : echo :=
  mk_echo echo3 (<[1 := []]> (λ _, [])) (<[1 := [] ++ [104; 105; 33]]> (<[1 := []]> (λ _, []))).

Lemma echo_state_reachable : echo_reachable echo_state.
Proof.
  exists ∅, (λ _, []), (λ _, []). split; [done|].
  eapply rtc_l; [by apply (echo_accept 7 ∅ (<[1 := new_bev]> ∅) echo1)|].
  eapply rtc_l; [by apply (echo_receive 1 (echo_bev echo1) [104; 105; 33] echo1 echo2)|].
  eapply rtc_l; [by apply (echo_run_readcb 1 (echo_bev echo2) echo_readcb_ptr echo2 echo3)|].
  apply rtc_refl.
Qed.

Lemma echo_echoes_witness :
  echo_sent echo_state 1 ++ [104; 105; 33] ++ [] = echo_received echo_state 1 ∧
  ∃ f w' s', bev_writecb (echo_bev echo3) = Some f ∧
    echo_invoke f 1 1 echo3 = Ok ((), w') ∧ alive w' !! 1 = Some s' ∧ enables EV_READ s' = true.
Proof.
  destruct (echo_echoes echo_state 1 (echo_bev echo3) echo_state_reachable eq_refl) as (H1 & _ & H3).
  split; [exact H1|]. destruct (H3 eq_refl) as (f & w' & s' & ? & _ & ? & ? & ?);
    [by vm_compute|]. by exists f, w', s'.
Defined.
End run.
