(* ===== verification/HttpClient.v ===== *)
(** libevent_t/http-client.cpp: a client for one HTTP request.

    The request object is a record; the functions of the program update it and
    make a sequence of calls to libevent, which is the output of the model.
    Dereferencing a null pointer and writing behind the end of a heap block end a
    run.  [evhttp_uri_parse] belongs to libevent: a parameter that turns a text
    into the parts of a URI, or fails. *)

From S2P Require Import Prelude.

Definition REQUEST_POST_FLAG : Z := 2.
Definition REQUEST_GET_FLAG : Z := 3.
Definition HTTP_OK : Z := 200.
Definition HTTP_MOVEPERM : Z := 301.
Definition HTTP_MOVETEMP : Z := 302.
Definition HTTP_CONTENT_TYPE_URL_ENCODED : list Z := lit "application/x-www-form-urlencoded".

Inductive http_fault := null_dereference | heap_overflow.

(** The parts of an [evhttp_uri] that the program reads; the port is -1 when the
    URI has none. *)
Record evhttp_uri := {
  uri_host : option (list Z);
  uri_port : Z;
  uri_path : option (list Z);
  uri_query : option (list Z);
}.

Inductive evhttp_cmd_type := EVHTTP_REQ_GET | EVHTTP_REQ_POST.

(** The calls to libevent that act on the connection, the request and the loop. *)
Inductive call :=
  | evhttp_connection_free
  | evhttp_connection_base_new (address : option (list Z)) (port : Z)
  | evhttp_request_new (cb_flag : Z)
  | evhttp_make_request (type : evhttp_cmd_type) (uri : list Z)
  | evbuffer_add (data : list Z)
  | evhttp_add_header (key : list Z) (value : option (list Z))
  | evhttp_uri_free
  | event_base_loopexit.

(** [struct http_request_get] and [struct http_request_post], which begin with the
    same members.  [hr_uri] is [None] when the pointer is null; [hr_cn] tells
    whether [cn] is set. *)
Record http_request := mk_request {
  hr_uri : option evhttp_uri;
  hr_cn : bool;
  hr_content_type : option (list Z);
  hr_post_data : option (list Z);
}.

(** The request and the calls made so far. *)
Record client := mk_client { cl_req : http_request; cl_calls : list call }.

Abbreviation H := (M http_fault client).

Definition emit (c : call) : H () := λ s, Ok ((), mk_client (cl_req s) (cl_calls s ++ [c])).

Definition set_cn : H () := λ s,
  let r := cl_req s in
  Ok ((), mk_client (mk_request (hr_uri r) true (hr_content_type r) (hr_post_data r)) (cl_calls s)).

Definition set_uri (u : option evhttp_uri) : H () := λ s,
  let r := cl_req s in
  Ok ((), mk_client (mk_request u (hr_cn r) (hr_content_type r) (hr_post_data r)) (cl_calls s)).

(** A pointer that is dereferenced. *)
Definition deref {T} (p : option T) : H T :=
  match p with Some x => mret x | None => throw null_dereference end.

(** [strlen], for a pointer that the code tested. *)
Definition strlen_or_0 (p : option (list Z)) : Z :=
  match p with Some s => Z.of_nat (length s) | None => 0 end.

(** ["%s"] of a null pointer, as the C library prints it. *)
Definition percent_s (p : option (list Z)) : list Z := default (lit "(null)") p.

(** [calloc(len, 1)] and [sprintf(buf, "%s?%s", path, query)]. *)
Definition calloc_sprintf (len : Z) (path query : option (list Z)) : H (list Z) :=
  let text := percent_s path ++ lit "?" ++ percent_s query in
  if Z.of_nat (length text) + 1 <=? len then mret text else throw heap_overflow.

Definition start_url_request (req_get_flag : Z) : H () :=
  cn ← gets (λ s, hr_cn (cl_req s));
  (if (cn : bool) then emit evhttp_connection_free else mret ()) ;;
  p ← gets (λ s, hr_uri (cl_req s));
  uri ← deref p;
  let port := uri_port uri in
  emit (evhttp_connection_base_new (uri_host uri) (if port =? -1 then 80 else port)) ;;
  set_cn ;;
  (if (req_get_flag =? REQUEST_POST_FLAG) || (req_get_flag =? REQUEST_GET_FLAG)
   then emit (evhttp_request_new req_get_flag) else mret ()) ;;
  (if req_get_flag =? REQUEST_POST_FLAG then
     emit (evhttp_make_request EVHTTP_REQ_POST (default (lit "/") (uri_path uri))) ;;
     d ← gets (λ s, hr_post_data (cl_req s));
     post_data ← deref d;
     emit (evbuffer_add post_data) ;;
     ct ← gets (λ s, hr_content_type (cl_req s));
     emit (evhttp_add_header (lit "Content-Type") ct)
   else if req_get_flag =? REQUEST_GET_FLAG then
     let query := uri_query uri in
     let path := uri_path uri in
     let len := strlen_or_0 query + strlen_or_0 path + 1 in
     target ← (if 1 <? len then calloc_sprintf len path query else mret (lit "/"));
     emit (evhttp_make_request EVHTTP_REQ_GET target)
   else mret ()) ;;
  emit (evhttp_add_header (lit "Host") (uri_host uri)).

Section client.
Variable evhttp_uri_parse : list Z → option evhttp_uri.

(** Both response callbacks; they differ in the flag of the next request.
    [location] is the header of the response. *)
Definition http_request_cb (req_get_flag : Z) (response_code : Z) (location : option (list Z)) :
    H () :=
  if response_code =? HTTP_OK then emit event_base_loopexit
  else if response_code =? HTTP_MOVEPERM then mret ()
  else if response_code =? HTTP_MOVETEMP then
    new_location ← deref location;
    let new_uri := evhttp_uri_parse new_location in
    emit evhttp_uri_free ;;
    set_uri new_uri ;;
    start_url_request req_get_flag
  else emit event_base_loopexit.

Definition http_requset_post_cb (response_code : Z) (location : option (list Z)) : H () :=
  http_request_cb REQUEST_POST_FLAG response_code location.
Definition http_requset_get_cb (response_code : Z) (location : option (list Z)) : H () :=
  http_request_cb REQUEST_GET_FLAG response_code location.

(** [http_request_free]: the connection and the URI are given back to libevent;
    the blocks of the request itself are freed as well. *)
Definition http_request_free : H () := emit evhttp_connection_free ;; emit evhttp_uri_free.

(** [http_request_new]: the members of the request; printing the parts of a URI
    that could not be parsed dereferences a null pointer. *)
Definition http_request_new (url : list Z) (req_get_flag : Z) (content_type data : option (list Z)) :
    res http_fault http_request :=
  match evhttp_uri_parse url with
  | None => Throw null_dereference
  | Some uri =>
      if req_get_flag =? REQUEST_POST_FLAG then
        Ok (mk_request (Some uri) false
              (Some (default HTTP_CONTENT_TYPE_URL_ENCODED content_type)) data)
      else Ok (mk_request (Some uri) false None None)
  end.

Definition start_http_requset (url : list Z) (req_get_flag : Z)
    (content_type data : option (list Z)) : res http_fault client :=
  req ← http_request_new url req_get_flag content_type data;
  match start_url_request req_get_flag (mk_client req []) with
  | Ok (_, s) => Ok s
  | Throw e => Throw e
  | NoFuel => NoFuel
  end.
End client.

(** ** What it does *)

Lemma percent_s_length p : strlen_or_0 p ≤ Z.of_nat (length (percent_s p)).
Proof. destruct p; simpl; lia. Qed.

(** C37. A GET request for a URI with a path or a query overflows the block that
    is allocated for the request target: there is no room for the question mark. *)
Theorem get_request_overflows uri cn ct d calls :
  0 < strlen_or_0 (uri_path uri) + strlen_or_0 (uri_query uri) →
  start_url_request REQUEST_GET_FLAG (mk_client (mk_request (Some uri) cn ct d) calls) =
    Throw heap_overflow.
Proof.
  intros Hlen. pose proof (percent_s_length (uri_path uri)).
  pose proof (percent_s_length (uri_query uri)).
  unfold start_url_request, mbind, M_bind. destruct cn; cbn -[calloc_sprintf strlen_or_0 Z.add Z.ltb];
    ztest; unfold calloc_sprintf; rewrite !length_app; cbn -[percent_s strlen_or_0 Z.of_nat Z.add Z.leb];
    by ztest.
Qed.

Lemma get_request_overflows_witness :
  let uri := {| uri_host := Some (lit "h"); uri_port := -1; uri_path := Some (lit "/a");
                uri_query := None |} in
  start_url_request REQUEST_GET_FLAG (mk_client (mk_request (Some uri) false None None) []) =
    Throw heap_overflow.
Proof. apply get_request_overflows. reflexivity. Defined.

(** A GET request for a URI without path and query: the old connection is
    freed, a new one is opened to the host, on port 80 when the URI has none, and
    the root is requested with the Host header. *)
Theorem get_request_root uri cn ct d calls :
  strlen_or_0 (uri_path uri) = 0 → strlen_or_0 (uri_query uri) = 0 →
  start_url_request REQUEST_GET_FLAG (mk_client (mk_request (Some uri) cn ct d) calls) =
    Ok ((), mk_client (mk_request (Some uri) true ct d)
      (calls ++ (if cn then [evhttp_connection_free] else []) ++
       [evhttp_connection_base_new (uri_host uri) (if uri_port uri =? -1 then 80 else uri_port uri);
        evhttp_request_new REQUEST_GET_FLAG; evhttp_make_request EVHTTP_REQ_GET (lit "/");
        evhttp_add_header (lit "Host") (uri_host uri)])).
Proof.
  intros Hp Hq. unfold start_url_request, mbind, M_bind.
  destruct cn; cbn -[strlen_or_0 Z.add]; rewrite Hp, Hq; change (1 <? 0 + 0 + 1) with false; cbn;
    unfold emit; cbn; by rewrite <-!app_assoc.
Qed.

Lemma get_request_root_witness :
  let uri := {| uri_host := Some (lit "www.baidu.com"); uri_port := -1; uri_path := Some [];
                uri_query := None |} in
  start_url_request REQUEST_GET_FLAG (mk_client (mk_request (Some uri) false None None) []) =
    Ok ((), mk_client (mk_request (Some uri) true None None)
      ([] ++ [] ++
       [evhttp_connection_base_new (uri_host uri) (if uri_port uri =? -1 then 80 else uri_port uri);
        evhttp_request_new REQUEST_GET_FLAG; evhttp_make_request EVHTTP_REQ_GET (lit "/");
        evhttp_add_header (lit "Host") (uri_host uri)])).
Proof. apply (get_request_root _ false); reflexivity. Defined.


Definition sample_uri : evhttp_uri :=
  {| uri_host := Some (lit "h"); uri_port := 8899; uri_path := Some (lit "/base");
     uri_query := None |}.


(** Every way a response is handled: it leaves the loop, does nothing (301), or,
    for 302, frees the URI and requests the new location; a missing or malformed
    location dereferences a null pointer. *)
Lemma response_cases parse flag code location s :
  http_request_cb parse flag code location s =
    if code =? 301 then Ok ((), s)
    else if code =? 302 then
      match location with
      | None => Throw null_dereference
      | Some l =>
          match parse l with
          | None => Throw null_dereference
          | Some uri =>
              start_url_request flag
                (mk_client (mk_request (Some uri) (hr_cn (cl_req s)) (hr_content_type (cl_req s))
                              (hr_post_data (cl_req s))) (cl_calls s ++ [evhttp_uri_free]))
          end
      end
    else Ok ((), mk_client (cl_req s) (cl_calls s ++ [event_base_loopexit])).
Proof.
  unfold http_request_cb, HTTP_OK, HTTP_MOVEPERM, HTTP_MOVETEMP. destruct (code =? 200) eqn:E.
  { zbool. subst. done. }
  destruct (code =? 301); [done|]. destruct (code =? 302); [|done].
  destruct location as [l|]; [|done]. unfold deref, mbind, M_bind. cbn.
  destruct (parse l) as [u|]; [done|].
  unfold start_url_request, mbind, M_bind. cbn. by destruct (hr_cn (cl_req s)).
Qed.

(** Connections opened and not yet freed by a sequence of calls. *)
Fixpoint open_connections (cs : list call) : Z :=
  match cs with
  | evhttp_connection_base_new _ _ :: cs => 1 + open_connections cs
  | evhttp_connection_free :: cs => open_connections cs - 1
  | _ :: cs => open_connections cs
  | [] => 0
  end.

Lemma open_connections_app a b :
  open_connections (a ++ b) = open_connections a + open_connections b.
Proof. induction a as [|[] a IH]; cbn [app open_connections]; lia. Qed.

Definition one_connection (s : client) : Prop :=
  open_connections (cl_calls s) = if hr_cn (cl_req s) then 1 else 0.

Lemma start_url_request_connection flag s : one_connection s →
  wp (λ _, True) (start_url_request flag) (λ _ s', one_connection s' ∧ hr_cn (cl_req s') = true) s.
Proof.
  destruct s as [[u cn ct d] calls]. unfold one_connection. cbn [cl_calls cl_req hr_cn]. intros Hc.
  unfold wp, start_url_request, mbind, M_bind, deref, calloc_sprintf, set_cn, emit, gets, throw, mret, M_ret.
  destruct cn; cbn -[open_connections Z.ltb Z.leb strlen_or_0 Z.add Z.of_nat];
    (destruct u as [u|]; [|done]); cbn -[open_connections Z.ltb Z.leb strlen_or_0 Z.add Z.of_nat];
    repeat case_if; destruct d; cbn -[open_connections]; try done;
    (split; [|done]); rewrite !open_connections_app; cbn; lia.
Qed.

(** The responses of a run, one after the other, through the callback that was
    registered with the request. *)
Fixpoint handle_responses (parse : list Z → option evhttp_uri) (flag : Z)
    (rs : list (Z * option (list Z))) : H () :=
  match rs with
  | [] => mret ()
  | (code, location) :: rs =>
      (if flag =? REQUEST_POST_FLAG then http_requset_post_cb parse code location
       else http_requset_get_cb parse code location) ;;
      handle_responses parse flag rs
  end.


Definition posted : client :=
  match start_http_requset (λ _, Some sample_uri) [] REQUEST_POST_FLAG None (Some []) with
  | Ok s => s
  | _ => mk_client (mk_request None false None None) []
  end.

Definition redirected : client :=
  match handle_responses (λ _, Some sample_uri) REQUEST_POST_FLAG
          [(302, Some []); (302, Some []); (200, None)] posted with
  | Ok (_, s) => s
  | _ => posted
  end.

