(* ===== verification/HttpServers.v ===== *)
(** The HTTP servers of libevent_t/: http-server-a.cpp, MgrHttpServer.cpp and
    http-server.cpp.

    libevent parses a request and hands it to a callback; the functions the
    callbacks take apart a URI with ([evhttp_decode_uri], [evhttp_parse_query]
    with [evhttp_find_header]) are parameters.  A callback is a function from the
    request to the reply it sends, or to a fault; [None] stands for no reply. *)

From S2P Require Import Prelude CLib.

Definition HTTP_OK : Z := 200.
Definition HTTP_NOTIMPLEMENTED : Z := 501.

(** The part of [struct evhttp_request] that the callbacks read. *)
Record evhttp_request := mk_evhttp_request {
  rq_command : Z;
  rq_uri : list Z;
  rq_input_buffer : list Z;
}.

Record reply := mk_reply {
  rp_code : Z;
  rp_reason : list Z;
  rp_headers : list (list Z * list Z);
  rp_body : list Z;
}.

(** ** http-server-a.cpp *)

Definition MYHTTPD_SIGNATURE : list Z := lit "myhttpd v 0.0.1".

(** [sprintf (tmp, ...); strcat (output, tmp);] *)
Definition append_line (output tmp text : list Z) : res c_fault (list Z * list Z) :=
  tmp ← sprintf tmp text;
  line ← c_str tmp;
  output ← strcat output line;
  mret (output, tmp).

Section httpd_handler.
Variable evhttp_decode_uri : list Z → option (list Z).
(** [evhttp_parse_query] followed by [evhttp_find_header]. *)
Variable query_header : list Z → list Z → option (list Z).

(** [tmp] is the array of 1024 bytes as it is found on the stack. *)
Definition httpd_handler (tmp : list Z) (req : evhttp_request) : res c_fault reply :=
  let output := replicate 2048 0 in
  let uri := rq_uri req in
  '(output, tmp) ← append_line output tmp (lit "uri=" ++ uri ++ [10]);
  '(output, tmp) ← append_line output tmp (lit "uri=" ++ rq_uri req ++ [10]);
  let decoded_uri := evhttp_decode_uri uri in
  '(output, tmp) ← append_line output tmp
                     (lit "decoded_uri=" ++ percent_s_or_null decoded_uri ++ [10]);
  decoded_uri ← match decoded_uri with Some d => Ok d | None => Throw null_pointer end;
  '(output, tmp) ← append_line output tmp
                     (lit "q=" ++ percent_s_or_null (query_header decoded_uri (lit "q")) ++ [10]);
  '(output, tmp) ← append_line output tmp
                     (lit "s=" ++ percent_s_or_null (query_header decoded_uri (lit "s")) ++ [10]);
  post_data ← write_at (replicate 512 0) 0 (rq_input_buffer req);
  post_text ← c_str post_data;
  '(output, tmp) ← append_line output tmp (lit "post_data=" ++ post_text ++ [10]);
  output_text ← c_str output;
  mret (mk_reply HTTP_OK (lit "OK")
          [(lit "Server", MYHTTPD_SIGNATURE);
           (lit "Content-Type", lit "text/plain; charset=UTF-8");
           (lit "Connection", lit "close")]
          (lit "It works!" ++ [10] ++ output_text ++ [10])).

(** *** What the handler does *)

(** The body up to its first zero, as it is found in [post_data]. *)
Fixpoint before_zero (s : list Z) : list Z :=
  match s with
  | [] => []
  | c :: s => if c =? 0 then [] else c :: before_zero s
  end.

Definition httpd_lines (req : evhttp_request) (d : list Z) : list (list Z) :=
  [lit "uri=" ++ rq_uri req ++ [10]; lit "uri=" ++ rq_uri req ++ [10];
   lit "decoded_uri=" ++ d ++ [10];
   lit "q=" ++ percent_s_or_null (query_header d (lit "q")) ++ [10];
   lit "s=" ++ percent_s_or_null (query_header d (lit "s")) ++ [10];
   lit "post_data=" ++ before_zero (rq_input_buffer req) ++ [10]].

(** Every line fits [tmp], all of them together [output], and the body with a zero
    [post_data]. *)
Definition httpd_fits (req : evhttp_request) (d : list Z) : Prop :=
  Forall (λ line, length line < 1024)%nat (httpd_lines req d) ∧
  (length (concat (httpd_lines req d)) < 2048)%nat ∧
  (length (rq_input_buffer req) ≤ 512)%nat ∧
  (length (before_zero (rq_input_buffer req)) < 512)%nat.

Lemma before_zero_no_zero s : no_zero (before_zero s).
Proof.
  induction s as [|c s IH]; simpl; [constructor|]. case_if; [constructor|]. by constructor.
Qed.

Lemma before_zero_app s n : (0 < n)%nat → c_str (s ++ replicate n 0) = Ok (before_zero s).
Proof.
  intros Hn. induction s as [|c s IH]; simpl; [by destruct n; [lia|]|].
  case_if; [done|]. by rewrite IH.
Qed.

Lemma before_zero_full s : match c_str s with
                           | Ok t => t = before_zero s ∧ (length t < length s)%nat
                           | Throw _ => before_zero s = s
                           | NoFuel => False
                           end.
Proof.
  induction s as [|c s IH]; simpl; [done|]. case_if; [simpl; split; [done|lia]|].
  destruct (c_str s) as [t|e|]; simpl; [|by f_equal|done]. destruct IH as [-> ?]. split; [done|lia].
Qed.

Lemma append_line_spec n output tmp o text : length tmp = 1024%nat → holds n output o → no_zero text →
  match append_line output tmp text with
  | Ok (output', tmp') =>
      (length text < 1024)%nat ∧ (length o + length text < n)%nat ∧
      holds n output' (o ++ text) ∧ length tmp' = 1024%nat
  | Throw e => ¬ ((length text < 1024)%nat ∧ (length o + length text < n)%nat)
  | NoFuel => False
  end.
Proof.
  intros Hl Ho Ht. unfold append_line. pose proof (sprintf_spec 1024 tmp text Hl Ht) as H1.
  destruct (sprintf tmp text) as [tmp'|e|]; cbn [mbind res_bind]; [|lia|done].
  destruct H1 as [H1 Htmp]. rewrite (holds_c_str _ _ _ Htmp). cbn [mbind res_bind].
  pose proof (strcat_spec n output o text Ho Ht) as H2.
  destruct (strcat output text) as [out'|e|]; cbn [mbind res_bind]; [|lia|done].
  destruct H2 as [H2 Hout]. split_and!; try done. apply Htmp.
Qed.

(** The body as [post_data] receives it. *)
Definition post_text (body : list Z) : res c_fault (list Z) :=
  post_data ← write_at (replicate 512 0) 0 body; c_str post_data.

Lemma post_data_spec body :
  match post_text body with
  | Ok t => t = before_zero body ∧ (length body ≤ 512)%nat ∧ (length t < 512)%nat
  | Throw e => ¬ ((length body ≤ 512)%nat ∧ (length (before_zero body) < 512)%nat)
  | NoFuel => False
  end.
Proof.
  unfold post_text, write_at. rewrite length_replicate. cbn [Nat.add].
  destruct (Nat.leb_spec (length body) 512) as [H|H]; cbn [mbind res_bind]; [|lia].
  rewrite take_0, app_nil_l, drop_replicate.
  destruct (decide (length body = 512)%nat) as [E|E].
  - rewrite E. change (512 - 512)%nat with 0%nat. cbn [replicate]. rewrite app_nil_r.
    pose proof (before_zero_full body) as Hb. destruct (c_str body) as [t|e|]; [|rewrite Hb; lia|done].
    destruct Hb as [-> ?]. split; [done|lia].
  - rewrite before_zero_app by lia. split; [done|]. split; [done|].
    assert (length (before_zero body) ≤ length body)%nat; [|lia].
    clear. induction body as [|c s IH]; simpl; [done|]. case_if; simpl; lia.
Qed.

Definition httpd_reply (req : evhttp_request) (d : list Z) : reply :=
  mk_reply HTTP_OK (lit "OK")
    [(lit "Server", MYHTTPD_SIGNATURE);
     (lit "Content-Type", lit "text/plain; charset=UTF-8");
     (lit "Connection", lit "close")]
    (lit "It works!" ++ [10] ++ concat (httpd_lines req d) ++ [10]).

Lemma percent_s_no_zero p : (∀ v, p = Some v → no_zero v) → no_zero (percent_s_or_null p).
Proof. intros H. destruct p as [v|]; [by apply H|].
  exact (bool_decide_unpack (no_zero (lit "(null)")) I).
Qed.

Lemma line_no_zero p t : forallb (λ c, negb (c =? 0)) p = true → no_zero t → no_zero (p ++ t ++ [10]).
Proof.
  intros Hp Ht. apply Forall_app. split.
  - apply Forall_forall. intros c Hc. rewrite forallb_forall in Hp.
    apply list_elem_of_In, Hp in Hc. zbool. done.
  - apply Forall_app. split; [done|]. repeat constructor; lia.
Qed.

(** Several lines. *)
Fixpoint append_lines (output tmp : list Z) (lines : list (list Z)) : res c_fault (list Z * list Z) :=
  match lines with
  | [] => Ok (output, tmp)
  | text :: lines => '(output, tmp) ← append_line output tmp text; append_lines output tmp lines
  end.

Lemma append_lines_spec n lines output tmp o : length tmp = 1024%nat → holds n output o →
  Forall no_zero lines →
  match append_lines output tmp lines with
  | Ok (output', tmp') =>
      Forall (λ line, length line < 1024)%nat lines ∧ (length o + length (concat lines) < n)%nat ∧
      holds n output' (o ++ concat lines) ∧ length tmp' = 1024%nat
  | Throw e => ¬ (Forall (λ line, length line < 1024)%nat lines ∧
                  (length o + length (concat lines) < n)%nat)
  | NoFuel => False
  end.
Proof.
  revert output tmp o. induction lines as [|text lines IH]; intros output tmp o Ht Ho Hz; cbn [append_lines].
  - rewrite app_nil_r. split_and!; try done. destruct Ho as (<- & _ & r & ->).
    rewrite length_app. cbn [length concat]. lia.
  - apply Forall_cons in Hz as [Hz1 Hz]. pose proof (append_line_spec n output tmp o text Ht Ho Hz1) as H1.
    cbn [concat]. rewrite length_app.
    destruct (append_line output tmp text) as [[o1 t1]|e|]; cbn [mbind res_bind];
      [|rewrite Forall_cons; lia|done].
    destruct H1 as (Hl & Hs & Ho1 & Ht1). specialize (IH o1 t1 (o ++ text) Ht1 Ho1 Hz).
    rewrite length_app in IH.
    destruct (append_lines o1 t1 lines) as [[o2 t2]|e|]; rewrite ?Forall_cons;
      [|contradict IH; split; [tauto|lia]|done].
    destruct IH as (Hl2 & Hs2 & Ho2 & Ht2). rewrite <-app_assoc in Ho2. split_and!; try done. lia.
Qed.

(** The handler, its first five lines put together. *)
Lemma httpd_handler_lines tmp req d : evhttp_decode_uri (rq_uri req) = Some d →
  httpd_handler tmp req =
    '(output, tmp) ← append_lines (replicate 2048 0) tmp (take 5 (httpd_lines req d));
    text ← post_text (rq_input_buffer req);
    '(output, tmp) ← append_lines output tmp [lit "post_data=" ++ text ++ [10]];
    output_text ← c_str output;
    mret (mk_reply HTTP_OK (lit "OK")
            [(lit "Server", MYHTTPD_SIGNATURE);
             (lit "Content-Type", lit "text/plain; charset=UTF-8");
             (lit "Connection", lit "close")]
            (lit "It works!" ++ [10] ++ output_text ++ [10])).
Proof.
  intros Hd. unfold httpd_handler. rewrite Hd. cbn [httpd_lines take append_lines percent_s_or_null default].
  do 5 (destruct (append_line _ _ _) as [[? ?]|?|]; cbn -[replicate write_at c_str append_line lit]; [|done..]).
  unfold post_text.
  destruct (write_at _ _ _) as [post|?|]; cbn -[replicate c_str append_line lit]; [|done..].
  destruct (c_str post) as [t|?|]; cbn -[append_line lit c_str]; [|done..].
  by destruct (append_line _ _ _) as [[? ?]|?|].
Qed.

Lemma httpd_lines_no_zero req d : no_zero (rq_uri req) → no_zero d →
  (∀ k v, query_header d k = Some v → no_zero v) → Forall no_zero (httpd_lines req d).
Proof.
  intros Hu Hd Hq. unfold httpd_lines.
  repeat (apply Forall_cons_2;
    [apply line_no_zero; [done|eauto using percent_s_no_zero, before_zero_no_zero]|]).
  constructor.
Qed.

(** C29. [httpd_handler] on a URI that decodes: it sends its reply exactly when
    every line is shorter than 1024 bytes, all lines together are shorter than
    2048, and the body has at most 512 bytes with a zero within [post_data]; any
    other request makes it write or read outside an array on its stack. *)
Theorem httpd_handler_exact tmp req d :
  length tmp = 1024%nat → no_zero (rq_uri req) →
  evhttp_decode_uri (rq_uri req) = Some d → no_zero d →
  (∀ k v, query_header d k = Some v → no_zero v) →
  match httpd_handler tmp req with
  | Ok r => httpd_fits req d ∧ r = httpd_reply req d
  | Throw e => ¬ httpd_fits req d
  | NoFuel => False
  end.
Proof.
  intros Ht Hu Hd Hdz Hq. rewrite (httpd_handler_lines _ _ d) by done.
  pose proof (httpd_lines_no_zero req d Hu Hdz Hq) as Hz. unfold httpd_fits, httpd_reply.
  assert (httpd_lines req d = take 5 (httpd_lines req d) ++
    [lit "post_data=" ++ before_zero (rq_input_buffer req) ++ [10]]) as El by done.
  set (l5 := take 5 (httpd_lines req d)) in *. clearbody l5. rewrite El in *. clear El.
  apply Forall_app in Hz as [Hz5 Hz6]. rewrite concat_app, length_app. cbn [concat]. rewrite app_nil_r.
  assert (holds 2048 (replicate 2048 0) []) as Ho.
  { split; [apply length_replicate|]. split; [constructor|]. by exists (replicate 2047 0). }
  pose proof (append_lines_spec 2048 l5 _ tmp [] Ht Ho Hz5) as H1.
  destruct (append_lines (replicate 2048 0) tmp l5) as [[o1 t1]|e|]; cbn [mbind res_bind];
    [|rewrite Forall_app; cbn [length Nat.add] in H1; contradict H1; split; [tauto|lia]|done].
  destruct H1 as (Hl1 & Hs1 & Ho1 & Ht1).
  pose proof (post_data_spec (rq_input_buffer req)) as Hp.
  destruct (post_text (rq_input_buffer req)) as [t|e|]; cbn [mbind res_bind]; [|tauto|done].
  destruct Hp as (-> & Hb1 & Hb2).
  pose proof (append_lines_spec 2048 _ o1 t1 _ Ht1 Ho1 Hz6) as H2. cbn [concat] in H2.
  rewrite app_nil_r in H2. rewrite app_nil_l in *.
  destruct (append_lines o1 t1 _) as [[o2 t2]|e|]; cbn [mbind res_bind]; [|rewrite Forall_app; tauto|done].
  destruct H2 as (Hl2 & Hs2 & Ho2 & _). rewrite (holds_c_str _ _ _ Ho2). cbn [mbind res_bind].
  split; [|done]. rewrite Forall_app. tauto.
Qed.
End httpd_handler.

Definition no_query : list Z → list Z → option (list Z) := λ _ _, None.

Lemma httpd_handler_exact_witness :
  ∃ r, httpd_handler Some no_query (replicate 1024 7) (mk_evhttp_request 1 (lit "/a") (lit "x=1")) = Ok r ∧
       httpd_fits no_query (mk_evhttp_request 1 (lit "/a") (lit "x=1")) (lit "/a").
Proof.
  pose proof (httpd_handler_exact Some no_query (replicate 1024 7)
    (mk_evhttp_request 1 (lit "/a") (lit "x=1")) (lit "/a")) as H.
  destruct (httpd_handler Some no_query (replicate 1024 7)
    (mk_evhttp_request 1 (lit "/a") (lit "x=1"))) as [r|e|] eqn:E; [|exfalso; vm_compute in E; congruence..].
  exists r. split; [done|]. apply H; try done.
  - by apply (bool_decide_unpack _).
  - by apply (bool_decide_unpack _).
Defined.

(** A URI of 1019 bytes or more always overflows. *)
Lemma httpd_long_uri decode query tmp req d :
  length tmp = 1024%nat → no_zero (rq_uri req) → decode (rq_uri req) = Some d → no_zero d →
  (∀ k v, query d k = Some v → no_zero v) → (1019 ≤ length (rq_uri req))%nat →
  ∃ e, httpd_handler decode query tmp req = Throw e.
Proof.
  intros Ht Hu Hd Hdz Hq Hl. unfold httpd_handler.
  pose proof (append_line_spec 2048 (replicate 2048 0) tmp [] (lit "uri=" ++ rq_uri req ++ [10]) Ht) as H.
  destruct (append_line _ _ _) as [[o t]|e|]; cbn [mbind res_bind]; [|by eexists|].
  - exfalso. destruct H as (H & _); [|by apply line_no_zero|].
    + split; [apply length_replicate|]. split; [constructor|]. by exists (replicate 2047 0).
    + rewrite !length_app in H. simpl in H. lia.
  - exfalso. apply H; [|by apply line_no_zero].
    split; [apply length_replicate|]. split; [constructor|]. by exists (replicate 2047 0).
Qed.

(** *** [main]: the options

    [getopt] is modelled by what it returns: the option characters in order, each
    with its argument. *)
Record httpd_options := mk_httpd_options {
  httpd_option_listen : list Z;
  httpd_option_port : Z;
  httpd_option_daemon : bool;
  httpd_option_timeout : Z;
}.

Definition httpd_defaults : httpd_options := mk_httpd_options (lit "0.0.0.0") 8080 false 120.

(** [None]: the help was printed and the program exits. *)
Fixpoint httpd_getopt (opts : list (Z * list Z)) (o : httpd_options) : option httpd_options :=
  match opts with
  | [] => Some o
  | (c, optarg) :: opts =>
      if c =? 108 then
        httpd_getopt opts (mk_httpd_options optarg (httpd_option_port o) (httpd_option_daemon o)
                             (httpd_option_timeout o))
      else if c =? 112 then
        httpd_getopt opts (mk_httpd_options (httpd_option_listen o) (atoi optarg) (httpd_option_daemon o)
                             (httpd_option_timeout o))
      else if c =? 100 then
        httpd_getopt opts (mk_httpd_options (httpd_option_listen o) (httpd_option_port o) true
                             (httpd_option_timeout o))
      else if c =? 116 then
        httpd_getopt opts (mk_httpd_options (httpd_option_listen o) (httpd_option_port o)
                             (httpd_option_daemon o) (atoi optarg))
      else None
  end.

(** [signal_handler]: whether the loop is left. *)
Definition SIGHUP : Z := 1.
Definition SIGINT : Z := 2.
Definition SIGQUIT : Z := 3.
Definition SIGTERM : Z := 15.

Definition signal_handler (sig : Z) : bool :=
  (sig =? SIGTERM) || (sig =? SIGHUP) || (sig =? SIGQUIT) || (sig =? SIGINT).

(** ** MgrHttpServer.cpp *)

(** [enum evhttp_cmd_type]. *)
Definition EVHTTP_REQ_GET : Z := 1.
Definition EVHTTP_REQ_POST : Z := 2.

Definition GET_TARG_POSITION : list Z := lit "/Target/GetPosition".
Definition GET_TARG_POSITION_SIZE : nat := 19.
Definition GET_TARG_BASICINFO : list Z := lit "/Target/GetInfo".
Definition GET_TARG_BASICINFO_SIZE : nat := 15.

(** The code and the text. *)
Definition decode_get_targ_position (str : list Z) : Z * list Z := (HTTP_OK, str).

Definition handle_request_get (req : evhttp_request) : reply :=
  let uri := rq_uri req in
  let '(CODE, strOut) :=
    if strncmp_eq uri GET_TARG_POSITION GET_TARG_POSITION_SIZE then decode_get_targ_position []
    else if strncmp_eq uri GET_TARG_BASICINFO GET_TARG_BASICINFO_SIZE then
      (HTTP_NOTIMPLEMENTED, lit "Get Target Info not implemented")
    else (HTTP_NOTIMPLEMENTED, lit "not implemented") in
  mk_reply CODE (lit "OK") [] strOut.

Definition handle_request_post (req : evhttp_request) : option reply := None.

(** The reply that is sent, if any; the other commands are logged only. *)
Definition dump_request_cb (req : evhttp_request) : option reply :=
  if rq_command req =? EVHTTP_REQ_GET then Some (handle_request_get req)
  else if rq_command req =? EVHTTP_REQ_POST then handle_request_post req
  else None.

(** The calls of [CreateHttpServerThread] that can fail, and its result with what
    was allocated and not freed on the way. *)
Inductive mgr_object := an_event_base | an_evhttp | a_bound_socket | a_thread.

Definition CreateHttpServerThread (base http handle : bool) (pthread_create : Z) : Z * list mgr_object :=
  if negb base then (-1, [])
  else if negb http then (-1, [an_event_base])
  else if negb handle then (-1, [an_event_base; an_evhttp])
  else if negb (pthread_create =? 0) then (-1, [an_event_base; an_evhttp; a_bound_socket])
  else (0, [an_event_base; an_evhttp; a_bound_socket; a_thread]).

Lemma strncmp_eq_prefix s t : strncmp_eq s t (length t) = bool_decide (t `prefix_of` s).
Proof.
  revert s. induction t as [|d t IH]; intros s.
  - rewrite bool_decide_true by apply prefix_nil. by destruct s.
  - destruct s as [|c s]; cbn [strncmp_eq length].
    + rewrite bool_decide_false; [done|]. by intros ?%prefix_nil_inv.
    + rewrite IH. destruct (Z.eqb_spec c d) as [->|Hne]; cbn [andb].
      * apply bool_decide_ext. split; [apply prefix_cons|apply prefix_cons_inv_2].
      * rewrite bool_decide_false; [done|]. intros ?%prefix_cons_inv_1. done.
Qed.

(** What is answered, and how: only GET requests get a reply, the two interfaces
    are told apart by the beginning of the URI, and only the first succeeds. *)
Lemma dump_request_cb_spec req :
  dump_request_cb req =
    if decide (rq_command req = EVHTTP_REQ_GET) then
      Some (if decide (GET_TARG_POSITION `prefix_of` rq_uri req)
            then mk_reply HTTP_OK (lit "OK") [] []
            else mk_reply HTTP_NOTIMPLEMENTED (lit "OK") []
                   (if decide (GET_TARG_BASICINFO `prefix_of` rq_uri req)
                    then lit "Get Target Info not implemented" else lit "not implemented"))
    else None.
Proof.
  unfold dump_request_cb, handle_request_post, handle_request_get.
  change GET_TARG_POSITION_SIZE with (length GET_TARG_POSITION).
  change GET_TARG_BASICINFO_SIZE with (length GET_TARG_BASICINFO).
  rewrite !strncmp_eq_prefix.
  destruct (Z.eqb_spec (rq_command req) EVHTTP_REQ_GET) as [E|E]; [|rewrite decide_False by done; by case_match].
  rewrite decide_True by done. unfold bool_decide. by repeat case_decide.
Qed.

(** ** http-server.cpp *)

(** The text added to the output buffer, and the reply. *)
Definition generic_cb (req : evhttp_request) : reply :=
  mk_reply 200 (lit "ok") [] (lit "This is the generic buf").

Definition testcb (req : evhttp_request) : reply :=
  mk_reply 200 (lit "OK") [] (lit "This is the test buf").

(** [main]: the results of the calls that can fail. *)
Definition http_server_main (http_server : bool) (bind : Z) : Z :=
  if negb http_server then -1 else if negb (bind =? 0) then -1 else 0.
