(* ===== verification/Dns.v ===== *)
(** libevent_t/DNSTOIP.cpp: a DNS client with a small test server.

    evdns is not part of the repository: its callbacks' arguments are data, the
    functions it offers are parameters or the calls a function makes.  What the
    program prints is the result of the model. *)

From S2P Require Import Prelude Machine CLib Float64 JsonValue Lexer Numeral.

(** ** [debug_ntoa] *)

(** [ntohl] on a host whose endianness is [le]: the bytes of the object, most
    significant first. *)
Definition ntohl (le : bool) (address : Z) : Z := object_value false (object_repr le 4 address).

(** The text of the four numbers. *)
Definition dotted (b1 b2 b3 b4 : Z) : list Z :=
  to_string b1 ++ lit "." ++ to_string b2 ++ lit "." ++ to_string b3 ++ lit "." ++ to_string b4.

(** [buf] is the static array of 32 bytes; the result is the text in it. *)
Definition debug_ntoa (le : bool) (buf : list Z) (address : Z) : res c_fault (list Z) :=
  let a := ntohl le address in
  buf ← snprintf buf 32
          (dotted (uwrap 8 (Z.land (Z.shiftr a 24) 0xff)) (uwrap 8 (Z.land (Z.shiftr a 16) 0xff))
                  (uwrap 8 (Z.land (Z.shiftr a 8) 0xff)) (uwrap 8 (Z.land a 0xff)));
  c_str buf.

(** ** [main_callback] *)

Definition DNS_IPv4_A : Z := 1.
Definition DNS_PTR : Z := 2.

(** The array [addrs]: addresses or names, by the type of the answer. *)
Inductive answers := addresses (l : list Z) | names (l : list (list Z)).

(** [((u32 * ) addrs)[i]] and [((char ** ) addrs)[i]]; [null_pointer] stands for an
    access that does not fit the array. *)
Definition answer_address (a : answers) (i : nat) : res c_fault Z :=
  match a with
  | addresses l => match l !! i with Some x => Ok x | None => Throw over_read end
  | names _ => Throw null_pointer
  end.

Definition answer_name (a : answers) (i : nat) : res c_fault (list Z) :=
  match a with
  | names l => match l !! i with Some x => Ok x | None => Throw over_read end
  | addresses _ => Throw null_pointer
  end.

Section callbacks.
Variable le : bool.
Variable buf : list Z.

(** The loop, for the [n] answers from the [i]-th on. *)
Fixpoint print_answers (type : Z) (addrs : answers) (name : list Z) (n i : nat) : res c_fault (list Z) :=
  match n with
  | O => Ok []
  | S n =>
      line ← (if type =? DNS_IPv4_A then
                address ← answer_address addrs i;
                text ← debug_ntoa le buf address;
                mret (name ++ lit ": " ++ text ++ [10])
              else if type =? DNS_PTR then
                host ← answer_name addrs i;
                mret (name ++ lit ": " ++ host ++ [10])
              else mret []);
      rest ← print_answers type addrs name n (S i);
      mret (line ++ rest)
  end.

Definition main_callback (result type count : Z) (addrs : answers) (orig : list Z) :
    res c_fault (list Z) :=
  lines ← print_answers type addrs orig (Z.to_nat count) 0;
  mret (lines ++
        if count =? 0 then orig ++ lit ": No answer (" ++ to_string result ++ lit ")" ++ [10] else []).
End callbacks.

(** ** [gai_callback]

    [evutil_inet_ntop] is a parameter. *)
Record addrinfo := mk_addrinfo {
  ai_canonname : option (list Z);
  ai_inet : bool;
  ai_addr : list Z;
}.

Section gai.
Variable evutil_gai_strerror : Z → list Z.
Variable evutil_inet_ntop : bool → list Z → list Z.

Fixpoint print_addrinfo (name : list Z) (i : Z) (ai : list addrinfo) : list Z :=
  match ai with
  | [] => []
  | a :: ai =>
      lit "[" ++ to_string i ++ lit "] " ++ name ++ lit ": " ++
      evutil_inet_ntop (ai_inet a) (ai_addr a) ++ [10] ++ print_addrinfo name (i + 1) ai
  end.

Definition gai_callback (err : Z) (ai : list addrinfo) (name : list Z) : list Z :=
  (if negb (err =? 0) then name ++ lit ": " ++ evutil_gai_strerror err ++ [10] else []) ++
  match ai with
  | a :: _ =>
      match ai_canonname a with
      | Some c => lit "    " ++ name ++ lit " ==> " ++ c ++ [10]
      | None => []
      end
  | [] => []
  end ++
  print_addrinfo name 0 ai.
End gai.

(** [logfn]: the line on the standard error output. *)
Definition logfn (verbose is_warn : Z) (msg : list Z) : list Z :=
  if (is_warn =? 0) && (verbose =? 0) then []
  else (if negb (is_warn =? 0) then lit "WARN" else lit "INFO") ++ lit ": " ++ msg ++ [10].

(** ** [evdns_server_callback] *)

Definition EVDNS_TYPE_A : Z := 1.
Definition EVDNS_TYPE_PTR : Z := 12.
Definition EVDNS_CLASS_INET : Z := 1.

Record question := mk_question { q_name : list Z; q_type : Z; q_class : Z }.

Inductive server_call :=
  | add_a_reply (name : list Z) (n : Z) (address : Z) (ttl : Z)
  | add_ptr_reply (inaddr_name hostname : list Z) (ttl : Z)
  | respond (err : Z).

(** [htonl (0xc0a80b0b)]. *)
Definition htonl (le : bool) (z : Z) : Z := object_value le (be_bytes 4 z).

Definition server_answer (le : bool) (q : question) : list server_call :=
  let ans := htonl le 0xc0a80b0b in
  if (q_type q =? EVDNS_TYPE_A) && (q_class q =? EVDNS_CLASS_INET) then
    [add_a_reply (q_name q) 1 ans 10]
  else if (q_type q =? EVDNS_TYPE_PTR) && (q_class q =? EVDNS_CLASS_INET) then
    [add_ptr_reply (q_name q) (lit "foo.bar.example.com") 10]
  else [].

Definition evdns_server_callback (le : bool) (questions : list question) : list server_call :=
  questions ≫= server_answer le.

(** ** [main] *)

Record dns_options := mk_dns_options {
  o_reverse : bool;
  o_use_getaddrinfo : bool;
  o_servertest : bool;
  o_resolv_conf : option (list Z);
  o_ns : option (list Z);
  o_verbose : Z;
}.

Definition dns_defaults : dns_options := mk_dns_options false false false None None 0.

(** The loop over [getopt]'s results. *)
Definition dns_option (o : dns_options) (c : Z) (optarg : list Z) : dns_options :=
  let '(mk_dns_options x g t rc ns v) := o in
  if c =? 120 then mk_dns_options true g t rc ns v
  else if c =? 118 then mk_dns_options x g t rc ns (v + 1)
  else if c =? 103 then mk_dns_options x true t rc ns v
  else if c =? 84 then mk_dns_options x g true rc ns v
  else if c =? 99 then mk_dns_options x g t (Some optarg) ns v
  else if c =? 115 then mk_dns_options x g t rc (Some optarg) v
  else o.

Definition dns_getopt (opts : list (Z * list Z)) : dns_options :=
  fold_left (λ o co, dns_option o co.1 co.2) opts dns_defaults.

Inductive dns_action :=
  | open_server
  | nameserver_ip_add (ns : list Z)
  | resolv_conf_parse (file : option (list Z))
  | resolve_reverse (addr : Z) (name : list Z)
  | getaddrinfo (name : list Z)
  | resolve_ipv4 (name : list Z)
  | dispatch.

Section main.
Variable evutil_inet_pton : list Z → option Z.

Definition lookup_host (o : dns_options) (host : list Z) : list dns_action :=
  if o_reverse o then
    match evutil_inet_pton host with
    | None => []
    | Some addr => [resolve_reverse addr host]
    end
  else if o_use_getaddrinfo o then [getaddrinfo host]
  else [resolve_ipv4 host].

(** [argc] is the number of arguments with the program's name, [hosts] those that
    are not options, [configured] the result of configuring the nameservers, and
    [socket_ok] whether the test server could be bound. *)
Definition dns_main (argc : Z) (opts : list (Z * list Z)) (hosts : list (list Z))
    (configured : Z) (socket_ok : bool) : Z * list dns_action :=
  if argc <? 2 then (1, [])
  else
    let o := dns_getopt opts in
    if o_servertest o && negb socket_ok then (1, [])
    else
      let server := if o_servertest o then [open_server] else [] in
      match hosts with
      | [] => (0, server ++ [dispatch])
      | _ =>
          let config := match o_ns o with
                        | Some ns => [nameserver_ip_add ns]
                        | None => [resolv_conf_parse (o_resolv_conf o)]
                        end in
          if configured <? 0 then (1, server ++ config)
          else (0, server ++ config ++ (hosts ≫= lookup_host o) ++ [dispatch])
      end.
End main.

(** ** Facts *)

Lemma digits_byte_length b : 0 ≤ b < 256 → (length (digits b) ≤ 3)%nat ∧ no_zero (digits b).
Proof.
  intros Hb. assert (Forall (λ b, (length (digits b) ≤ 3)%nat ∧ no_zero (digits b)) (seqZ 0 256)) as H.
  { apply (bool_decide_unpack _). by vm_compute. }
  rewrite Forall_forall in H. apply H, elem_of_seqZ. lia.
Qed.

Lemma to_string_byte b : 0 ≤ b < 256 → to_string b = digits b.
Proof. intros. unfold to_string. by ztests. Qed.

Lemma is_bytes4 b1 b2 b3 b4 : is_bytes [b1; b2; b3; b4] →
  0 ≤ b1 < 256 ∧ 0 ≤ b2 < 256 ∧ 0 ≤ b3 < 256 ∧ 0 ≤ b4 < 256.
Proof. unfold is_bytes, is_byte. rewrite !Forall_cons. naive_solver. Qed.

Lemma dotted_fits b1 b2 b3 b4 : is_bytes [b1; b2; b3; b4] →
  (length (dotted b1 b2 b3 b4) ≤ 15)%nat ∧ no_zero (dotted b1 b2 b3 b4).
Proof.
  intros (H1 & H2 & H3 & H4)%is_bytes4. unfold dotted. rewrite !to_string_byte by done.
  destruct (digits_byte_length b1 H1), (digits_byte_length b2 H2),
    (digits_byte_length b3 H3), (digits_byte_length b4 H4).
  rewrite !length_app. change (length (lit ".")) with 1%nat. split; [lia|].
  unfold no_zero in *. rewrite !Forall_app.
  assert (Forall (λ c, c ≠ 0) (lit ".")) by exact (bool_decide_unpack (no_zero (lit ".")) I). tauto.
Qed.

(** The four bytes of an address, in the order they have in memory. *)
Lemma object_repr4 le address : ∃ b1 b2 b3 b4,
  object_repr le 4 address = [b1; b2; b3; b4] ∧ is_bytes [b1; b2; b3; b4].
Proof.
  assert (is_bytes (object_repr le 4 address) ∧ length (object_repr le 4 address) = 4%nat) as [Hb Hl].
  { unfold object_repr. destruct le;
      split; first [apply le_bytes_bytes|apply be_bytes_bytes|apply length_le_bytes|apply length_be_bytes]. }
  destruct (object_repr le 4 address) as [|b1 [|b2 [|b3 [|b4 []]]]]; try done. eauto 6.
Qed.

Lemma byte_field a n h b r : 0 ≤ n → 0 ≤ b < 256 → 0 ≤ r < 2 ^ n →
  a = 2 ^ n * (256 * h + b) + r → uwrap 8 (Z.land (Z.shiftr a n) 0xff) = b.
Proof.
  intros Hn Hb Hr Ha. rewrite Z.shiftr_div_pow2 by done.
  rewrite <-(Z.div_unique a (2 ^ n) (256 * h + b) r) by auto.
  change 0xff with (Z.ones 8). rewrite Z.land_ones by lia. unfold uwrap.
  rewrite Z.mod_mod by done. change (2 ^ 8) with 256.
  rewrite Z.add_comm, Z.mul_comm, Z.mod_add, Z.mod_small by lia. done.
Qed.

Lemma snprintf_holds size buf text : length buf = S size → (length text ≤ size)%nat → no_zero text →
  ∃ buf', snprintf buf (S size) text = Ok buf' ∧ holds (S size) buf' text.
Proof.
  intros Hb Hl Hz. unfold snprintf. rewrite firstn_all2 by lia.
  pose proof (sprintf_spec (S size) buf text Hb Hz) as H. unfold sprintf in H.
  destruct (write_at buf 0 (text ++ [0])) as [buf'|e|]; [|lia|done]. destruct H. by exists buf'.
Qed.

Lemma debug_ntoa_dotted le buf address b1 b2 b3 b4 : length buf = 32%nat →
  object_repr le 4 address = [b1; b2; b3; b4] → is_bytes [b1; b2; b3; b4] →
  debug_ntoa le buf address = Ok (dotted b1 b2 b3 b4).
Proof.
  intros Hbuf Hr Hb. unfold debug_ntoa. set (a := ntohl le address).
  assert (a = b4 + 256 * (b3 + 256 * (b2 + 256 * b1))) as Ha.
  { unfold a, ntohl, object_value. rewrite Hr. simpl. lia. }
  pose proof (is_bytes4 _ _ _ _ Hb) as (H1 & H2 & H3 & H4).
  rewrite (byte_field a 24 0 b1 (b4 + 256 * (b3 + 256 * b2))) by lia.
  rewrite (byte_field a 16 b1 b2 (b4 + 256 * b3)) by lia.
  rewrite (byte_field a 8 (256 * b1 + b2) b3 b4) by lia.
  rewrite <-(Z.shiftr_0_r a) at 1. rewrite (byte_field a 0 (65536 * b1 + 256 * b2 + b3) b4 0) by lia.
  destruct (dotted_fits b1 b2 b3 b4 Hb) as [Hl Hz].
  destruct (snprintf_holds 31 buf (dotted b1 b2 b3 b4)) as (buf' & -> & Hh); [done|lia|done|].
  cbn [mbind res_bind]. by eapply holds_c_str.
Qed.

(** The numbers can be read off the text. *)
Lemma dotted_inj b1 b2 b3 b4 c1 c2 c3 c4 : is_bytes [b1; b2; b3; b4] → is_bytes [c1; c2; c3; c4] →
  dotted b1 b2 b3 b4 = dotted c1 c2 c3 c4 → [b1; b2; b3; b4] = [c1; c2; c3; c4].
Proof.
  intros (H1 & H2 & H3 & H4)%is_bytes4 (G1 & G2 & G3 & G4)%is_bytes4. unfold dotted.
  rewrite !to_string_byte by done.
  assert (∀ b c r r', 0 ≤ b → 0 ≤ c → digits b ++ lit "." ++ r = digits c ++ lit "." ++ r' →
            b = c ∧ r = r') as Hsplit.
  { intros b c r r' Hb Hc E. destruct (digits_spec b Hb) as [[[Db _] _] Vb].
    destruct (digits_spec c Hc) as [[[Dc _] _] Vc].
    assert (∀ l t, Forall (λ c, F64.is_digit c = true) l →
              F64.span_digits (l ++ lit "." ++ t) = (l, lit "." ++ t)) as Hspan.
    { intros l t Hl. apply span_digits_app; [done|]. by intros ? ? [= <- _]. }
    pose proof (Hspan _ r Db) as E1. rewrite E, (Hspan _ r' Dc) in E1. simplify_eq/=.
    split; [congruence|done]. }
  intros E. apply Hsplit in E as [-> E]; [|lia..]. apply Hsplit in E as [-> E]; [|lia..].
  apply Hsplit in E as [-> E]; [|lia..]. f_equal. f_equal. f_equal. f_equal.
  rewrite <-(proj2 (digits_spec b4 (proj1 H4))), <-(proj2 (digits_spec c4 (proj1 G4))). by rewrite E.
Qed.

(** C39. [debug_ntoa], on either byte order: the four bytes of the address, in the
    order they have in memory, as decimal numbers separated by dots; the text fits
    its array, and different addresses have different texts. *)
Theorem debug_ntoa_exact le buf address : length buf = 32%nat → in_u 32 address →
  (∃ b1 b2 b3 b4, object_repr le 4 address = [b1; b2; b3; b4] ∧
     debug_ntoa le buf address = Ok (dotted b1 b2 b3 b4) ∧ (length (dotted b1 b2 b3 b4) < 32)%nat) ∧
  ∀ buf' address', length buf' = 32%nat → in_u 32 address' →
    debug_ntoa le buf' address' = debug_ntoa le buf address → address' = address.
Proof.
  intros Hbuf Ha. destruct (object_repr4 le address) as (b1 & b2 & b3 & b4 & Hr & Hb). split.
  { exists b1, b2, b3, b4. split; [done|]. split; [by apply debug_ntoa_dotted|].
    destruct (dotted_fits b1 b2 b3 b4 Hb). lia. }
  intros buf' address' Hbuf' Ha'. destruct (object_repr4 le address') as (c1 & c2 & c3 & c4 & Hr' & Hc).
  rewrite (debug_ntoa_dotted le buf address b1 b2 b3 b4), (debug_ntoa_dotted le buf' address' c1 c2 c3 c4) by done.
  intros [= E]. apply dotted_inj in E; [|done..]. rewrite <-Hr, <-Hr' in E.
  assert (∀ z, in_u 32 z → object_value le (object_repr le 4 z) = z) as Hv.
  { intros z Hz. unfold object_value, object_repr.
    assert (le_value (le_bytes 4 z) = z) by (rewrite le_value_le_bytes; by apply Z.mod_small).
    destruct le; [done|]. unfold be_bytes. by rewrite rev_involutive. }
  by rewrite <-(Hv address Ha), <-(Hv address' Ha'), E.
Qed.

Lemma debug_ntoa_exact_witness :
  ∃ b1 b2 b3 b4, object_repr true 4 0x0100007f = [b1; b2; b3; b4] ∧
     debug_ntoa true (replicate 32 0) 0x0100007f = Ok (dotted b1 b2 b3 b4) ∧
     (length (dotted b1 b2 b3 b4) < 32)%nat.
Proof. apply (debug_ntoa_exact true (replicate 32 0) 0x0100007f); by vm_compute. Defined.

Example debug_ntoa_loopback : debug_ntoa true (replicate 32 0) 0x0100007f = Ok (lit "127.0.0.1").
Proof. by vm_compute. Qed.

(** The test server adds an answer for every question it knows, in order, and never
    sends them: no call is [respond]. *)
Lemma server_never_responds le questions :
  length (evdns_server_callback le questions) =
    length (filter (λ q, (q_type q = EVDNS_TYPE_A ∨ q_type q = EVDNS_TYPE_PTR) ∧
                         q_class q = EVDNS_CLASS_INET) questions) ∧
  Forall (λ c, ∀ err, c ≠ respond err) (evdns_server_callback le questions).
Proof.
  unfold evdns_server_callback. induction questions as [|q qs [IH1 IH2]]; [by split|].
  csimpl. rewrite length_app, IH1, filter_cons. unfold server_answer at 1 2.
  destruct (Z.eqb_spec (q_type q) EVDNS_TYPE_A) as [E|E], (Z.eqb_spec (q_class q) EVDNS_CLASS_INET) as [F|F],
    (Z.eqb_spec (q_type q) EVDNS_TYPE_PTR) as [G|G]; cbn [andb app length];
    (split; [case_decide; simpl; tauto|try done; by constructor]).
Qed.
