(* ===== verification/Demos.v ===== *)
(** The small programs of libevent_t/: time.cpp (a timer), signal.cpp (a signal
    handler), fifo.cpp and writeFifo.cpp (a reader and a writer of a FIFO).

    Each is one callback on one event.  The model is the callback as a function of
    the global variables and of what the system delivers, and the sequence of
    callbacks the event loop makes. *)

From S2P Require Import Prelude CLib.

(** ** time.cpp *)

Record timeval := mk_timeval { tv_sec : Z; tv_usec : Z }.

(** [evutil_timersub]. *)
Definition evutil_timersub (a b : timeval) : timeval :=
  let sec := tv_sec a - tv_sec b in
  let usec := tv_usec a - tv_usec b in
  if usec <? 0 then mk_timeval (sec - 1) (usec + 1000000) else mk_timeval sec usec.

(** The callback: [lasttime] is the global variable, [NewTime] the time of day.
    Results: the difference it prints, the new [lasttime], and the time after which
    the event was added again. *)
Definition timeout_cb (event_is_persistent : bool) (NewTime lasttime : timeval) :
    timeval * timeval * option timeval :=
  let difference := evutil_timersub NewTime lasttime in
  (difference, NewTime, if event_is_persistent then None else Some (mk_timeval 3 0)).

(** [main]: the flag [-p], and the first time the event is added for. *)
Definition time_main (argv : list (list Z)) : bool * timeval :=
  (match argv with [arg] => bool_decide (arg = lit "-p") | _ => false end, mk_timeval 2 0).

(** The callbacks at the times [times]: the differences they print. *)
Fixpoint run_timer (event_is_persistent : bool) (times : list timeval) (lasttime : timeval) :
    list timeval * timeval :=
  match times with
  | [] => ([], lasttime)
  | t :: times =>
      let '(difference, lasttime, _) := timeout_cb event_is_persistent t lasttime in
      let '(differences, lasttime) := run_timer event_is_persistent times lasttime in
      (difference :: differences, lasttime)
  end.

Definition microseconds (t : timeval) : Z := tv_sec t * 1000000 + tv_usec t.

Definition normalized (t : timeval) : Prop := 0 ≤ tv_usec t < 1000000.

Lemma timersub_exact a b : normalized a → normalized b →
  normalized (evutil_timersub a b) ∧
  microseconds (evutil_timersub a b) = microseconds a - microseconds b.
Proof.
  unfold normalized, microseconds, evutil_timersub. intros Ha Hb.
  case_if; simpl; split; lia.
Qed.

(** The differences that the timer prints, whatever the clock shows (it may be set
    back): each is a proper [timeval] and exact to the microsecond, and together
    they are the time from the start to the last callback. *)
Lemma timer_elapsed p times t0 : Forall normalized times → normalized t0 →
  Forall normalized (run_timer p times t0).1 ∧
  (run_timer p times t0).2 = default t0 (last times) ∧
  foldr Z.add 0 (microseconds <$> (run_timer p times t0).1) =
    microseconds (default t0 (last times)) - microseconds t0.
Proof.
  intros Ht. revert t0. induction Ht as [|t times Hn _ IH]; intros t0 H0.
  { simpl. split; [constructor|]. split; [done|lia]. }
  cbn [run_timer timeout_cb]. destruct (IH t Hn) as (H1 & H2 & H3).
  destruct (run_timer p times t) as [ds lt]. cbn [fst snd] in *. subst lt.
  destruct (timersub_exact t t0 Hn H0) as [Hd Hm].
  assert (last (t :: times) = Some (default t (last times))) as El.
  { destruct times as [|t2 times]; [done|]. rewrite last_cons.
    destruct (last_is_Some (t2 :: times)) as [_ [l ->]]; done. }
  rewrite El. cbn [default]. split; [by constructor|]. split; [done|].
  csimpl. rewrite H3, Hm. cbn. lia.
Qed.

(** ** signal.cpp *)

Record signal_state := mk_signal_state { called : Z; added : bool }.

Definition signal_cb (s : signal_state) : signal_state :=
  mk_signal_state (called s + 1) (if 2 <=? called s then false else added s).

(** The state after [n] signals; a signal reaches the callback as long as the event
    is added. *)
Fixpoint run_signals (n : nat) (s : signal_state) : signal_state :=
  match n with
  | O => s
  | S n => run_signals n (if added s then signal_cb s else s)
  end.

(** The callback runs three times, however many signals arrive, and the third one
    deletes the event. *)
Lemma signal_three_times n :
  run_signals n (mk_signal_state 0 true) = mk_signal_state (Z.min (Z.of_nat n) 3) (n <? 3)%nat.
Proof.
  destruct n as [|[|[|n]]]; [done..|]. cbn [run_signals signal_cb called added Z.leb Z.compare].
  replace (Z.min (Z.of_nat (S (S (S n)))) 3) with 3 by lia.
  induction n as [|n IH]; [done|]. apply IH.
Qed.

(** ** fifo.cpp *)

(** What [read] returns: some bytes, the end of the file, or an error. *)
Inductive read_result := got (bytes : list Z) | end_of_file | read_error.

(** [signal_cb] of fifo.cpp leaves the loop; so does the end of the input. *)
Inductive fifo_action := print_read (text : list Z) | delete_event | loopbreak.

(** [buf] is the array of 255 bytes as it is found on the stack; [read] is asked for
    254 at most. *)
Definition fifo_read (buf : list Z) (r : read_result) : res c_fault (list fifo_action) :=
  match r with
  | got [] | end_of_file | read_error => Ok [delete_event; loopbreak]
  | got bytes =>
      buf ← write_at buf 0 bytes;
      buf ← write_at buf (length bytes) [0];
      text ← c_str buf;
      mret [print_read text]
  end.

Definition fifo_signal_cb : list fifo_action := [loopbreak].

(** [main] up to the loop: [Some mode] is what [lstat] found. *)
Definition S_IFMT : Z := 0xf000.
Definition S_IFREG : Z := 0x8000.

Definition fifo_main (st_mode : option Z) (mkfifo socket : Z) : Z :=
  match st_mode with
  | Some mode => if Z.land mode S_IFMT =? S_IFREG then 1
                 else if mkfifo =? -1 then 1 else if socket =? -1 then 1 else 0
  | None => if mkfifo =? -1 then 1 else if socket =? -1 then 1 else 0
  end.

(** writeFifo.cpp: what it writes. *)
Definition fifo_input : list Z := lit "hello world!".

(** The reader on the pieces in which the bytes arrive. *)
Fixpoint read_all (buf : list Z) (pieces : list (list Z)) : res c_fault (list Z) :=
  match pieces with
  | [] => Ok []
  | p :: pieces =>
      actions ← fifo_read buf (got p);
      rest ← read_all buf pieces;
      mret ((actions ≫= λ a, if a is print_read t then t else []) ++ rest)
  end.

Lemma fifo_read_prints buf bytes : length buf = 255%nat → bytes ≠ [] → (length bytes ≤ 254)%nat →
  no_zero bytes → fifo_read buf (got bytes) = Ok [print_read bytes].
Proof.
  intros Hb Hne Hl Hz. transitivity (buf ← write_at buf 0 bytes;
    buf ← write_at buf (length bytes) [0]; text ← c_str buf; mret [print_read text]);
    [by destruct bytes|].
  rewrite write_at_ok by lia. cbn [mbind res_bind]. rewrite take_0, app_nil_l.
  rewrite write_at_ok by (rewrite length_app, length_drop; cbn [length]; lia). cbn [mbind res_bind].
  rewrite take_app_length. cbn [app]. by rewrite c_str_app.
Qed.

(** Reader and writer together: however the pipe cuts the message into pieces, the
    reader prints all of it and stays within its array. *)
Lemma fifo_delivers buf pieces : length buf = 255%nat →
  concat pieces = fifo_input → Forall (λ p, p ≠ []) pieces →
  read_all buf pieces = Ok fifo_input.
Proof.
  intros Hb E Hne. assert (no_zero (concat pieces) ∧ (length (concat pieces) ≤ 254)%nat) as [Hz Hl].
  { rewrite E. split; [exact (bool_decide_unpack (no_zero fifo_input) I)|]. by vm_compute; lia. }
  rewrite <-E. clear E. induction Hne as [|p pieces Hp _ IH]; [done|].
  cbn [concat] in *. apply Forall_app in Hz as [Hz1 Hz2]. rewrite length_app in Hl.
  cbn [read_all]. rewrite fifo_read_prints by (done || lia). cbn [mbind res_bind].
  rewrite IH by (done || lia). cbn. by rewrite app_nil_r.
Qed.
