(* ===== verification/OpenSsl.v ===== *)
(** The programs of openssl_t/: the relay of ssl_man_in_middle.cpp, the sessions of
    openssl-server.cpp and openssl-cli.cpp, and the tools md5.cpp, rsa_crypto.cpp
    and dsa_signed.cpp.

    OpenSSL and the system are not part of the repository: what [select],
    [SSL_read] and [SSL_write] return is an input of the model, digests and
    signatures are parameters. *)

From S2P Require Import Prelude CLib.

(** ** ssl_man_in_middle.cpp, [transfer] *)

(** One [SSL_read] and the [SSL_write] that follows it: the bytes read ([None] when
    it returns 0 or less), and the number that [SSL_write] returns. *)
Record ssl_io := mk_io { io_read : option (list Z); io_write : Z }.

Inductive select_result :=
  | select_error
  | select_timeout
  | selected (client server : option ssl_io).

(** [select], with what it leaves in [timeout] (microseconds). *)
Record round := mk_round { r_select : select_result; r_left : Z }.

(** What was read from and written to the two sides, the lines printed, and the
    global variable [timeout]. *)
Record relay := mk_relay {
  from_client : list Z;
  to_server : list Z;
  from_server : list Z;
  to_client : list Z;
  printed : list (list Z);
  timeout : Z;
}.

(** [struct timeval timeout = { 0, 10000000 }]. *)
Definition relay_start : relay := mk_relay [] [] [] [] [] 10000000.

Definition set_timeout (t : Z) (s : relay) : relay :=
  mk_relay (from_client s) (to_server s) (from_server s) (to_client s) (printed s) t.

Definition read_from (client : bool) (d : list Z) (s : relay) : relay :=
  if client
  then mk_relay (from_client s ++ d) (to_server s) (from_server s) (to_client s) (printed s) (timeout s)
  else mk_relay (from_client s) (to_server s) (from_server s ++ d) (to_client s) (printed s) (timeout s).

Definition wrote_for (client : bool) (d : list Z) (s : relay) : relay :=
  if client
  then mk_relay (from_client s) (to_server s ++ d) (from_server s) (to_client s) (printed s) (timeout s)
  else mk_relay (from_client s) (to_server s) (from_server s) (to_client s ++ d) (printed s) (timeout s).

Definition print_line (t : list Z) (s : relay) : relay :=
  mk_relay (from_client s) (to_server s) (from_server s) (to_client s) (printed s ++ [t]) (timeout s).

(** The branch for one side that is readable; the boolean tells whether the loop
    goes on.  The buffer of 4096 bytes is cleared first. *)
Definition transfer_side (client : bool) (io : ssl_io) (s : relay) : res c_fault (bool * relay) :=
  match io_read io with
  | None => Ok (false, s)
  | Some d =>
      buffer ← write_at (replicate 4096 0) 0 d;
      let ret := Z.of_nat (length d) in
      let s := read_from client d s in
      if negb (ret =? io_write io) then Ok (false, s)
      else
        let s := wrote_for client (take (length d) buffer) s in
        text ← c_str buffer;
        mret (true, print_line text s)
  end.

Definition transfer_if (client : bool) (io : option ssl_io) (s : relay) : res c_fault (bool * relay) :=
  match io with Some io => transfer_side client io s | None => Ok (true, s) end.

(** The loop, for the rounds that [select] returns from; [NoFuel] when it has not
    ended after them. *)
Fixpoint transfer (rounds : list round) (s : relay) : res c_fault (Z * relay) :=
  match rounds with
  | [] => NoFuel
  | r :: rounds =>
      let s := set_timeout (r_left r) s in
      match r_select r with
      | select_error => Ok (-1, s)
      | select_timeout => transfer rounds s
      | selected client server =>
          '(go, s) ← transfer_if true client s;
          if negb go then Ok (-1, s)
          else
            '(go, s) ← transfer_if false server s;
            if negb go then Ok (-1, s) else transfer rounds s
      end
  end.

(** What a child process does after [transfer]. *)
Inductive cleanup := shutdown_server | terminal_client | terminal_server | free_certificate | free_key.

Definition after_transfer (result : Z) : list cleanup :=
  if result <? 0 then []
  else [shutdown_server; terminal_client; terminal_server; free_certificate; free_key].

(** *** What [transfer] does *)

(** [SSL_read] returns at least one byte and at most as many as were asked for. *)
Definition io_ok (io : ssl_io) : Prop :=
  ∀ d, io_read io = Some d → (0 < length d ≤ 4096)%nat.

Definition round_ok (r : round) : Prop :=
  match r_select r with
  | selected c s => (∀ io, c = Some io → io_ok io) ∧ (∀ io, s = Some io → io_ok io)
  | _ => True
  end.

(** A read that fills the buffer without a zero. *)
Definition fills (io : option ssl_io) : Prop :=
  ∃ i d, io = Some i ∧ io_read i = Some d ∧ length d = 4096%nat ∧ no_zero d.

Definition round_fills (r : round) : Prop :=
  match r_select r with selected c s => fills c ∨ fills s | _ => False end.

(** All that was read was written. *)
Definition in_step (s : relay) : Prop :=
  from_client s = to_server s ∧ from_server s = to_client s.

(** All but the last bytes read from one side. *)
Definition one_behind (s : relay) : Prop :=
  ∃ lost, (from_client s = to_server s ++ lost ∧ from_server s = to_client s) ∨
          (from_client s = to_server s ∧ from_server s = to_client s ++ lost).

Lemma transfer_side_spec client io s : io_ok io → in_step s →
  match transfer_side client io s with
  | Ok (true, s') => in_step s'
  | Ok (false, s') => one_behind s'
  | Throw e => e = over_read ∧ fills (Some io)
  | NoFuel => False
  end.
Proof.
  intros Hio [H1 H2]. unfold transfer_side. destruct (io_read io) as [d|] eqn:E.
  2: { exists []. left. by rewrite app_nil_r. }
  specialize (Hio d E). rewrite write_at_ok by (rewrite length_replicate; lia).
  cbn [mbind res_bind]. rewrite take_0, app_nil_l. cbn [Nat.add].
  case_if. { exists d. destruct client; [left|right]; cbn; by rewrite H1, H2. }
  rewrite take_app_length, drop_replicate.
  pose proof (c_str_spec (d ++ replicate (4096 - length d) 0)) as Hc.
  destruct (c_str _) as [t|e|]; cbn [mbind res_bind]; [|destruct Hc as [-> Hz]; split; [done|]|done].
  - destruct client; cbn; split; cbn; by rewrite ?H1, ?H2.
  - apply Forall_app in Hz as [Hz Hr]. exists io, d. split_and!; try done.
    destruct (4096 - length d)%nat eqn:En; [lia|]. by apply Forall_cons in Hr as [? _].
Qed.

Lemma transfer_if_spec client io s : (∀ i, io = Some i → io_ok i) → in_step s →
  match transfer_if client io s with
  | Ok (true, s') => in_step s'
  | Ok (false, s') => one_behind s'
  | Throw e => e = over_read ∧ fills io
  | NoFuel => False
  end.
Proof. intros Hio Hs. destruct io as [io|]; [apply transfer_side_spec; auto|done]. Qed.


(** A relayed request and answer, then the client closes. *)
Definition relay_example : list round :=
  [mk_round select_timeout 0;
   mk_round (selected (Some (mk_io (Some (lit "GET")) 3)) None) 10;
   mk_round (selected None (Some (mk_io (Some (lit "200")) 3))) 5;
   mk_round (selected (Some (mk_io None 0)) None) 0].


(** The limit of [select] is not set again in the loop: it stays what the last
    call left of it.  Linux leaves the time that was not waited, so that after the
    first round that times out, [select] is called with no time to wait. *)
Lemma transfer_polls r rounds s : r_select r = select_timeout → r_left r = 0 →
  transfer (r :: rounds) s = transfer rounds (set_timeout 0 s).
Proof. intros H1 H2. cbn. by rewrite H1, H2. Qed.

(** ** openssl-server.cpp *)

Inductive session_event :=
  | message_success (text : list Z) (data_size : Z)
  | message_failed (text : list Z)
  | recv_success (text : list Z) (data_size : Z)
  | recv_failed
  | ssl_shutdown
  | ssl_free
  | closed.

Definition MAXBUF : nat := 1024.

(** What [SSL_read] leaves in a cleared buffer of [MAXBUF + 1] bytes. *)
Definition read_into (read_ret : Z) (read : list Z) : res c_fault (list Z) :=
  let buf := replicate (MAXBUF + 1) 0 in
  if 0 <? read_ret then write_at buf 0 read else Ok buf.

(** One connection after the handshake.  [len] is a [socklen_t], which is unsigned;
    [%d] prints it as an [int]. *)
Definition server_session (write_ret read_ret : Z) (read : list Z) :
    res c_fault (list session_event) :=
  let finish := [ssl_shutdown; ssl_free; closed] in
  let message := lit "server->client" in
  let len := uwrap 32 write_ret in
  if len <=? 0 then Ok (message_failed message :: finish)
  else
    let sent := message_success message (swrap 32 len) in
    buf ← read_into read_ret read;
    let len := uwrap 32 read_ret in
    if 0 <? len then
      text ← c_str buf;
      mret (sent :: recv_success text (swrap 32 len) :: finish)
    else Ok (sent :: recv_failed :: finish).

(** The connections [accept] returns: whether the handshake returned -1, and the
    results of the session. *)
Record connection := mk_connection {
  accept_error : bool; c_write : Z; c_read : Z; c_data : list Z }.

(** [while (1)]: the events of each session; the loop ends at the first handshake
    that returns -1. *)
Fixpoint server_loop (conns : list connection) : res c_fault (list (list session_event)) :=
  match conns with
  | [] => Ok []
  | c :: conns =>
      if accept_error c then Ok [[closed]]
      else
        events ← server_session (c_write c) (c_read c) (c_data c);
        rest ← server_loop conns;
        mret (events :: rest)
  end.

(** ** openssl-cli.cpp *)

(** [main] from [SSL_read] on; here [len] is an [int]. *)
Definition client_session (read_ret : Z) (read : list Z) (write_ret : Z) :
    res c_fault (list session_event) :=
  let finish := [ssl_shutdown; ssl_free; closed] in
  let message := lit "from client->server" in
  buf ← read_into read_ret read;
  if 0 <? read_ret then
    text ← c_str buf;
    let received := recv_success text read_ret in
    if write_ret <? 0 then mret (received :: message_failed message :: finish)
    else mret (received :: message_success message write_ret :: finish)
  else Ok (recv_failed :: finish).

(** *** What the sessions do *)

(** The documented results of [SSL_read] of at most [MAXBUF] bytes. *)
Definition read_result (read_ret : Z) (read : list Z) : Prop :=
  in_s 32 read_ret ∧ (0 < read_ret → read_ret = Z.of_nat (length read) ∧ (length read ≤ MAXBUF)%nat).

(** The text up to the first zero. *)
Fixpoint up_to_zero (read : list Z) : list Z :=
  match read with
  | [] => []
  | c :: read => if c =? 0 then [] else c :: up_to_zero read
  end.

Lemma c_str_up_to read n : (0 < n)%nat → c_str (read ++ replicate n 0) = Ok (up_to_zero read).
Proof.
  intros Hn. induction read as [|c read IH]; cbn; [by destruct n as [|n]; [lia|]|].
  case_if; [done|]. by rewrite IH.
Qed.

Lemma up_to_zero_id s : no_zero s → up_to_zero s = s.
Proof. induction 1 as [|c s Hc _ IH]; cbn; [done|]. ztests. by rewrite IH. Qed.

Lemma read_into_spec read_ret read : read_result read_ret read →
  ∃ buf, read_into read_ret read = Ok buf ∧
         c_str buf = Ok (if 0 <? read_ret then up_to_zero read else []).
Proof.
  intros [_ H]. unfold read_into. destruct (Z.ltb_spec 0 read_ret) as [Hp|Hp]; [|by eexists].
  destruct (H Hp) as [_ Hl]. rewrite write_at_ok by (rewrite length_replicate; lia).
  eexists. split; [done|]. rewrite take_0, app_nil_l, drop_replicate. apply c_str_up_to. lia.
Qed.

Lemma uwrap_positive x : in_s 32 x → (0 <? uwrap 32 x) = negb (x =? 0).
Proof.
  unfold in_s, uwrap. intros Hx. destruct (Z.eqb_spec x 0) as [->|]; [done|].
  apply Z.ltb_lt. cbn. pose proof (Z.mod_pos_bound x (2 ^ 32)).
  destruct (Z.eq_dec (x mod 2 ^ 32) 0) as [E|]; [|lia].
  apply Z.mod_divide in E as [k ?]; lia.
Qed.

(** A session of the server, whatever OpenSSL returns: it stays within its buffer
    and always shuts the connection down; but the message counts as sent and the
    answer as received unless the result is exactly 0: the errors, which are
    negative, are reported as successes. *)
Lemma server_session_spec write_ret read_ret read :
  in_s 32 write_ret → read_result read_ret read →
  server_session write_ret read_ret read =
  Ok ((if write_ret =? 0 then [message_failed (lit "server->client")]
       else [message_success (lit "server->client") write_ret;
             if read_ret =? 0 then recv_failed
             else recv_success (if 0 <? read_ret then up_to_zero read else []) read_ret])
      ++ [ssl_shutdown; ssl_free; closed]).
Proof.
  intros Hw Hr. unfold server_session. destruct (read_into_spec _ _ Hr) as (buf & -> & Hc).
  destruct Hr as [Hr _]. rewrite Z.leb_antisym, !uwrap_positive, !swrap_uwrap, negb_involutive by done.
  destruct (write_ret =? 0); [done|]. cbn [mbind res_bind]. rewrite Hc.
  by destruct (read_ret =? 0).
Qed.

(** One failed handshake stops the server: the connections after it are not
    served. *)
Lemma server_stops c conns conns' :
  accept_error c = true → server_loop (c :: conns) = server_loop (c :: conns').
Proof. intros H. cbn. by rewrite H. Qed.

(** The client tests the results correctly, except that a write of no bytes counts
    as sent. *)
Lemma client_session_spec read_ret read write_ret : read_result read_ret read →
  client_session read_ret read write_ret =
  Ok ((if 0 <? read_ret then
         [recv_success (up_to_zero read) read_ret;
          if write_ret <? 0 then message_failed (lit "from client->server")
          else message_success (lit "from client->server") write_ret]
       else [recv_failed])
      ++ [ssl_shutdown; ssl_free; closed]).
Proof.
  intros Hr. unfold client_session. destruct (read_into_spec _ _ Hr) as (buf & -> & Hc).
  cbn [mbind res_bind]. rewrite Hc. destruct (0 <? read_ret); [|done]. by destruct (write_ret <? 0).
Qed.

(** ** The tools *)

(** [printf ("%x%x", (b >> 4) & 0xf, b & 0xf)] for every byte. *)
Definition print_hex (bytes : list Z) : list Z :=
  bytes ≫= λ b, [hexdigit (Z.land (Z.shiftr b 4) 15); hexdigit (Z.land b 15)].

(** The loop of md5.cpp over the 32 digits. *)
Definition print_md5 (hash_ret : list Z) : list Z :=
  (λ i, let b := hash_ret !!! (i / 2)%nat in
        hexdigit (Z.land (if Nat.even i then Z.shiftr b 4 else b) 15)) <$> seq 0 32.

Section tools.
  (** [MD5], and a signature scheme for one key pair. *)
  Context (MD5 : list Z → list Z).
  Context (DSA_sign : list Z → list Z) (DSA_verify : list Z → list Z → bool).

(** [main] of md5.cpp for one argument: the two lines it prints.  [input_string] is
    not initialized. *)
Definition md5_main (uninitialized arg : list Z) : res c_fault (list Z * list Z) :=
  input_string ← snprintf uninitialized 128 (arg ++ [10]);
  s ← c_str input_string;
  mret (lit "Input string: " ++ s, lit "Output string: " ++ print_md5 (MD5 s) ++ [10]).

(** [main] of dsa_signed.cpp: the message printed, the signature printed and whether
    it is valid.  [calloc] gives an array of zeros for the argument and one more
    byte; the first byte is changed between signing and verifying. *)
Definition dsa_main (arg : list Z) : res c_fault (list Z * list Z * bool) :=
  input_string ← write_at (replicate (length arg + 1) 0) 0 arg;
  message ← c_str input_string;
  let sign_string := DSA_sign message in
  input_string ← write_at input_string 0 [51];
  message ← c_str input_string;
  mret (message, print_hex sign_string, DSA_verify message sign_string).

(** md5.cpp hashes the argument and a line feed, but only 127 bytes of it: longer
    arguments are cut without notice. *)
Lemma md5_main_spec uninitialized arg : length uninitialized = 128%nat → no_zero arg →
  md5_main uninitialized arg =
  let s := take 127 (arg ++ [10]) in
  Ok (lit "Input string: " ++ s, lit "Output string: " ++ print_md5 (MD5 s) ++ [10]).
Proof.
  intros Hl Hz. unfold md5_main, snprintf.
  rewrite write_at_ok by (rewrite length_app; pose proof (firstn_le_length 127 (arg ++ [10])); cbn; lia).
  cbn [mbind res_bind]. rewrite take_0, app_nil_l, <-app_assoc. cbn [app].
  rewrite c_str_app; [done|]. apply Forall_take, Forall_app. split; [done|]. by repeat constructor.
Qed.

(** dsa_signed.cpp verifies another message than the one it signed, unless the
    argument begins with the digit 3; and with an empty argument it writes over the
    terminating zero, so that the search for it leaves the array. *)
Lemma dsa_main_spec arg : no_zero arg →
  dsa_main arg =
  match arg with
  | [] => Throw over_read
  | _ :: rest => let signature := DSA_sign arg in
                 Ok (51 :: rest, print_hex signature, DSA_verify (51 :: rest) signature)
  end.
Proof.
  intros Hz. unfold dsa_main. rewrite write_at_ok by (rewrite length_replicate; lia).
  cbn [mbind res_bind]. rewrite take_0, app_nil_l, drop_replicate.
  replace (length arg + 1 - (0 + length arg))%nat with 1%nat by lia. cbn [replicate].
  rewrite c_str_app by done. cbn [mbind res_bind].
  destruct arg as [|c rest]; [done|]. cbn. apply Forall_cons in Hz as [_ Hz].
  rewrite drop_0, c_str_app by done. done.
Qed.

End tools.

(** The loop of md5.cpp and the loops of the other tools print the same for 16
    bytes. *)
Lemma print_md5_hex hash_ret : length hash_ret = 16%nat → print_md5 hash_ret = print_hex hash_ret.
Proof.
  intros H. do 16 (destruct hash_ret as [|? hash_ret]; [done|]). by destruct hash_ret.
Qed.

(** Reading one digit back. *)
Definition hexvalue (c : Z) : Z := if c <? 58 then c - 48 else c - 87.

Fixpoint read_hex (text : list Z) : list Z :=
  match text with
  | a :: b :: text => (hexvalue a * 16 + hexvalue b) :: read_hex text
  | _ => []
  end.

(** What the tools print determines the bytes. *)
Lemma print_hex_read bytes : is_bytes bytes → read_hex (print_hex bytes) = bytes.
Proof.
  induction 1 as [|b bytes Hb _ IH]; [done|]. cbn. fold (print_hex bytes). rewrite IH. f_equal.
  change 15 with (Z.ones 4). rewrite !Z.land_ones, Z.shiftr_div_pow2 by lia.
  assert (∀ d, 0 ≤ d < 16 → hexvalue (hexdigit d) = d) as Hd.
  { intros d ?. unfold hexvalue, hexdigit. repeat case_match; zbool; lia. }
  unfold is_byte in Hb. rewrite !Hd by (apply Z.mod_pos_bound; lia).
  change (2 ^ 4) with 16. Z.to_euclidean_division_equations; lia.
Qed.

(** *** rsa_crypto.cpp *)

Section rsa.
  (** RSA for one key of 128 bytes with OAEP padding: [None] is the result -1. *)
  Context (RSA_public_encrypt RSA_private_decrypt : list Z → option (list Z)).
  (** OAEP takes at most 86 bytes, gives 128, and decryption undoes it. *)
  Context (encrypt_short : ∀ m, (length m ≤ 86)%nat →
             ∃ c, RSA_public_encrypt m = Some c ∧ length c = 128%nat ∧ RSA_private_decrypt c = Some m)
          (encrypt_long : ∀ m, (86 < length m)%nat → RSA_public_encrypt m = None).

(** [main]: the input, the encrypted bytes in hexadecimal, the size that decrypting
    returned and the decrypted text.  The sizes are not tested: when encrypting
    fails, nothing is printed for it and the size -1 makes decrypting fail. *)
Definition rsa_main (arg : list Z) : res c_fault (list Z * list Z * Z * list Z) :=
  input_string ← write_at (replicate (length arg + 1) 0) 0 arg;
  message ← c_str input_string;
  let encrypt := RSA_public_encrypt message in
  encrypt_string ← write_at (replicate 128 0) 0 (default [] encrypt);
  let decrypt := encrypt ≫= λ c, RSA_private_decrypt (take (length c) encrypt_string) in
  decrypt_string ← write_at (replicate 128 0) 0 (default [] decrypt);
  text ← c_str decrypt_string;
  mret (message, print_hex (default [] encrypt),
        match decrypt with Some m => Z.of_nat (length m) | None => -1 end, text).

(** The tool prints its argument back, or for an argument of more than 86 bytes an
    empty text of size -1; it stays within its arrays. *)
Lemma rsa_main_spec arg : no_zero arg →
  ∃ hex, rsa_main arg = Ok (if (length arg <=? 86)%nat then (arg, hex, Z.of_nat (length arg), arg)
                            else (arg, [], -1, [])).
Proof.
  intros Hz. unfold rsa_main. rewrite write_at_ok by (rewrite length_replicate; lia).
  cbn [mbind res_bind]. rewrite take_0, app_nil_l, drop_replicate.
  rewrite (c_str_up_to arg), up_to_zero_id by first [lia | done]. cbn [mbind res_bind].
  destruct (Nat.leb_spec (length arg) 86) as [Hl|Hl].
  - destruct (encrypt_short arg Hl) as (c & -> & Hc & Hd). exists (print_hex c).
    rewrite write_at_ok by (rewrite length_replicate; cbn; lia). cbn [mbind res_bind option_bind default from_option id].
    rewrite take_0, app_nil_l, take_app_length, Hd. cbn [default from_option id].
    rewrite write_at_ok by (rewrite length_replicate; lia). cbn [mbind res_bind].
    rewrite take_0, app_nil_l, drop_replicate, c_str_up_to by lia. cbn [mbind res_bind].
    by rewrite up_to_zero_id.
  - exists []. by rewrite (encrypt_long arg Hl).
Qed.

End rsa.
