(* ===== verification/OpenSslSetup.v ===== *)
(** The programs of openssl_t/ around their sessions: the arguments, the sockets, the
    contexts and connections of OpenSSL, the certificate that ssl_man_in_middle.cpp
    makes, its processes, and rsa_keygen.cpp.

    The system and OpenSSL are not part of the repository: what a call returns is a
    parameter [answer], which may depend on all the calls before; descriptors and
    pointers are the numbers that the calls return.  A program is the sequence of
    calls it makes. *)

From S2P Require Import Prelude CLib.

(** ** Calls *)

Inductive method := client_method | server_method.

Inductive call :=
  | c_socket
  | c_setsockopt (fd : Z)
  | c_bind (fd port : Z)
  | c_listen (fd backlog : Z)
  | c_accept (fd : Z)
  | c_getsockopt (fd : Z)
  | c_connect (fd : Z)
  | c_shutdown (fd : Z)
  | c_close (fd : Z)
  | c_fork
  | c_inet_aton (text : list Z)
  | c_ssl_library_init
  | c_SSL_CTX_new (m : method)
  | c_SSL_CTX_use_certificate (ctx cert : Z)
  | c_SSL_CTX_use_PrivateKey (ctx key : Z)
  | c_SSL_CTX_use_certificate_file (ctx : Z) (file : option (list Z))
  | c_SSL_CTX_use_PrivateKey_file (ctx : Z) (file : option (list Z))
  | c_SSL_CTX_check_private_key (ctx : Z)
  | c_SSL_CTX_free (ctx : Z)
  | c_SSL_get_SSL_CTX (ssl : Z)
  | c_SSL_new (ctx : Z)
  | c_SSL_set_fd (ssl fd : Z)
  | c_SSL_connect (ssl : Z)
  | c_SSL_accept (ssl : Z)
  | c_SSL_read (ssl : Z)
  | c_SSL_write (ssl : Z) (text : list Z)
  | c_SSL_shutdown (ssl : Z)
  | c_SSL_free (ssl : Z)
  | c_SSL_get_peer_certificate (ssl : Z)
  | c_X509_dup (x : Z)
  | c_X509_set_version (x from : Z)
  | c_X509_set_serial (x : Z)
  | c_X509_NAME_oneline (x : Z) (subject : bool)
  | c_free (p : Z)
  | c_X509_set_issuer_name (x : Z) (entries : list (list Z * list Z))
  | c_X509_sign (x key : Z)
  | c_X509_free (x : Z)
  | c_EVP_PKEY_new
  | c_EVP_PKEY_assign_RSA (key rsa : Z)
  | c_EVP_PKEY_free (key : Z)
  | c_fopen (name : list Z)
  | c_PEM_read_RSAPrivateKey (fp rsa : Z)
  | c_PEM_read_RSAPublicKey (fp rsa : Z)
  | c_RSA_new
  | c_RSA_generate_key (bits e : Z)
  | c_RSA_generate_key_ex (rsa bits bn : Z)
  | c_RSA_print (rsa : Z)
  | c_RSA_free (rsa : Z)
  | c_BN_new
  | c_BN_set_word (bn word : Z)
  | c_transfer (to_client to_server : Z).

(** How a program goes on: with a result, by [exit], or undefined. *)
Inductive run (A : Type) :=
  | returned (a : A)
  | exited (status : Z)
  | undefined_run.
Arguments returned {A}.
Arguments exited {A}.
Arguments undefined_run {A}.

(** The calls made so far, with what they returned. *)
Abbreviation history := (list (call * Z)).

Definition sys (A : Type) : Type := history → run A * history.

#[global] Instance sys_ret : MRet sys := λ A a tr, (returned a, tr).
#[global] Instance sys_bind : MBind sys := λ A B f x tr,
  match x tr with
  | (returned a, tr) => f a tr
  | (exited s, tr) => (exited s, tr)
  | (undefined_run, tr) => (undefined_run, tr)
  end.

Definition exit {A} (status : Z) : sys A := λ tr, (exited status, tr).
Definition undefined {A} : sys A := λ tr, (undefined_run, tr).

Section programs.
Context (answer : history → call → Z).

Definition invoke (c : call) : sys Z := λ tr,
  (returned (answer tr c), tr ++ [(c, answer tr c)]).

Definition EXIT_FAILURE : Z := 1.

(** ** ssl_man_in_middle.cpp *)

(** The end of [socket_to_client_init] has no [return]: the result is undefined. *)
Definition socket_to_client_init (port : Z) : sys Z :=
  sockfd ← invoke c_socket;
  if sockfd <? 0 then exit EXIT_FAILURE else
  r ← invoke (c_setsockopt sockfd);
  if r <? 0 then exit EXIT_FAILURE else
  r ← invoke (c_bind sockfd port);
  if r <? 0 then _ ← invoke (c_shutdown sockfd); exit EXIT_FAILURE else
  r ← invoke (c_listen sockfd 50);
  if r <? 0 then _ ← invoke (c_shutdown sockfd); exit EXIT_FAILURE else
  undefined.

Definition get_socket_to_client (socket : Z) : sys Z :=
  client_fd ← invoke (c_accept socket);
  if client_fd <? 0 then mret (-1)
  else _ ← invoke (c_getsockopt client_fd); mret client_fd.

(** [SSL_Error] is not declared in the program. *)
Context (SSL_Error : sys ()).

Definition SSL_to_client_init (socket cert key : Z) : sys Z :=
  ctx ← invoke (c_SSL_CTX_new server_method);
  (if ctx =? 0 then SSL_Error else mret ()) ;;
  (if negb (cert =? 0) && negb (key =? 0) then
     r ← invoke (c_SSL_CTX_use_certificate ctx cert);
     (if negb (r =? 1) then SSL_Error else mret ()) ;;
     r ← invoke (c_SSL_CTX_use_PrivateKey ctx key);
     (if negb (r =? 1) then SSL_Error else mret ()) ;;
     r ← invoke (c_SSL_CTX_check_private_key ctx);
     (if negb (r =? 1) then SSL_Error else mret ())
   else mret ()) ;;
  ssl ← invoke (c_SSL_new ctx);
  (if ssl =? 0 then SSL_Error else mret ()) ;;
  r ← invoke (c_SSL_set_fd ssl socket);
  (if negb (r =? 1) then SSL_Error else mret ()) ;;
  mret ssl.

Definition SSL_terminal (ssl : Z) : sys () :=
  ctx ← invoke (c_SSL_get_SSL_CTX ssl);
  _ ← invoke (c_SSL_shutdown ssl);
  _ ← invoke (c_SSL_free ssl);
  if negb (ctx =? 0) then _ ← invoke (c_SSL_CTX_free ctx); mret () else mret ().

Definition create_key : sys Z :=
  key ← invoke c_EVP_PKEY_new;
  rsa ← invoke c_RSA_new;
  fp ← invoke (c_fopen (lit "private.key"));
  if fp =? 0 then exit EXIT_FAILURE else
  _ ← invoke (c_PEM_read_RSAPrivateKey fp rsa);
  fp ← invoke (c_fopen (lit "public.key"));
  if fp =? 0 then exit EXIT_FAILURE else
  _ ← invoke (c_PEM_read_RSAPublicKey fp rsa);
  _ ← invoke (c_EVP_PKEY_assign_RSA key rsa);
  mret key.

Definition SSL_to_server_init (socket : Z) : sys Z :=
  ctx ← invoke (c_SSL_CTX_new client_method);
  if ctx =? 0 then exit EXIT_FAILURE else
  ssl ← invoke (c_SSL_new ctx);
  if ssl =? 0 then exit EXIT_FAILURE else
  r ← invoke (c_SSL_set_fd ssl socket);
  if negb (r =? 1) then exit EXIT_FAILURE else mret ssl.

Definition get_socket_to_server : sys Z :=
  sockfd ← invoke c_socket;
  if sockfd <? 0 then exit EXIT_FAILURE else
  r ← invoke (c_connect sockfd);
  if r <? 0 then exit EXIT_FAILURE else mret sockfd.

(** The certificate of the server, with another serial number and issuer, signed
    with the key of the program. *)
Definition create_fake_certificate (ssl_to_server key : Z) : sys Z :=
  server_x509 ← invoke (c_SSL_get_peer_certificate ssl_to_server);
  fake_x509 ← invoke (c_X509_dup server_x509);
  if server_x509 =? 0 then exit EXIT_FAILURE else
  _ ← invoke (c_X509_set_version fake_x509 server_x509);
  _ ← invoke (c_X509_set_serial fake_x509);
  _ ← invoke (c_X509_set_issuer_name fake_x509
        [(lit "CN", lit "Thawte SGC CA"); (lit "O", lit "Thawte Consulting (Pty) Ltd.");
         (lit "OU", lit "Thawte SGC CA")]);
  _ ← invoke (c_X509_sign fake_x509 key);
  mret fake_x509.

(** The child process for one connection; whether it leaves the loop. *)
Definition child (socket_to_client key : Z) : sys bool :=
  socket_to_server ← get_socket_to_server;
  ssl_to_server ← SSL_to_server_init socket_to_server;
  r ← invoke (c_SSL_connect ssl_to_server);
  if r <? 0 then exit EXIT_FAILURE else
  fake_x509 ← create_fake_certificate ssl_to_server key;
  ssl_to_client ← SSL_to_client_init socket_to_client fake_x509 key;
  r ← invoke (c_SSL_accept ssl_to_client);
  if r <=? 0 then exit EXIT_FAILURE else
  r ← invoke (c_transfer ssl_to_client ssl_to_server);
  if r <? 0 then mret true
  else
    _ ← invoke (c_shutdown socket_to_server);
    SSL_terminal ssl_to_client ;;
    SSL_terminal ssl_to_server ;;
    _ ← invoke (c_X509_free fake_x509);
    _ ← invoke (c_EVP_PKEY_free key);
    mret false.

(** [n] rounds of the loop, with the number [sum] of the connection. *)
Fixpoint mitm_loop (n : nat) (socket key sum : Z) : sys Z :=
  match n with
  | O => mret sum
  | S n =>
      socket_to_client ← get_socket_to_client socket;
      if socket_to_client <? 0 then mitm_loop n socket key sum
      else
        pid ← invoke c_fork;
        if pid =? 0 then
          leaves ← child socket_to_client key;
          if (leaves : bool) then exit 0 else mitm_loop n socket key sum
        else mitm_loop n socket key (sum + 1)
  end.

Definition mitm_main (n : nat) : sys Z :=
  socket ← socket_to_client_init 443;
  key ← create_key;
  _ ← invoke c_ssl_library_init;
  mitm_loop n socket key 1.

(** ** openssl-cli.cpp *)

Definition ShowCerts (ssl : Z) : sys () :=
  cert ← invoke (c_SSL_get_peer_certificate ssl);
  if negb (cert =? 0) then
    line ← invoke (c_X509_NAME_oneline cert true);
    _ ← invoke (c_free line);
    line ← invoke (c_X509_NAME_oneline cert false);
    _ ← invoke (c_free line);
    _ ← invoke (c_X509_free cert);
    mret ()
  else mret ().

(** [main]; [errno] is what the failed call left. *)
Definition client_main (argv : list (list Z)) (errno : Z) : sys Z :=
  if negb (Z.of_nat (length argv) =? 3) then exit 0 else
  _ ← invoke c_ssl_library_init;
  ctx ← invoke (c_SSL_CTX_new client_method);
  if ctx =? 0 then exit 1 else
  sockfd ← invoke c_socket;
  if sockfd <? 0 then exit errno else
  r ← invoke (c_inet_aton (argv !!! 1%nat));
  if r =? 0 then exit errno else
  r ← invoke (c_connect sockfd);
  if negb (r =? 0) then exit errno else
  ssl ← invoke (c_SSL_new ctx);
  _ ← invoke (c_SSL_set_fd ssl sockfd);
  r ← invoke (c_SSL_connect ssl);
  (if r =? -1 then mret () else ShowCerts ssl) ;;
  len ← invoke (c_SSL_read ssl);
  (if 0 <? len then
     _ ← invoke (c_SSL_write ssl (lit "from client->server")); mret ()
   else mret ()) ;;
  _ ← invoke (c_SSL_shutdown ssl);
  _ ← invoke (c_SSL_free ssl);
  _ ← invoke (c_close sockfd);
  _ ← invoke (c_SSL_CTX_free ctx);
  mret 0.

(** ** openssl-server.cpp *)

(** [argv[i]]: [argv[argc]] is null, and there is nothing behind it. *)
Definition arg (argv : list (list Z)) (i : nat) : sys (option (list Z)) :=
  if (i <=? length argv)%nat then mret (argv !! i) else undefined.

(** [main] up to the loop: the context, the socket and the address. *)
Definition server_setup (argv : list (list Z)) : sys (Z * Z * option (list Z)) :=
  port ← arg argv 1;
  let myport := match port with Some s => uwrap 32 (atoi s) | None => 8888 end in
  num ← arg argv 2;
  let lisnum := match num with Some s => uwrap 32 (atoi s) | None => 2 end in
  _ ← invoke c_ssl_library_init;
  ctx ← invoke (c_SSL_CTX_new server_method);
  if ctx =? 0 then exit 1 else
  file ← arg argv 4;
  r ← invoke (c_SSL_CTX_use_certificate_file ctx file);
  if r <=? 0 then exit 1 else
  file ← arg argv 5;
  r ← invoke (c_SSL_CTX_use_PrivateKey_file ctx file);
  if r <=? 0 then exit 1 else
  r ← invoke (c_SSL_CTX_check_private_key ctx);
  if r =? 0 then exit 1 else
  sockfd ← invoke c_socket;
  if sockfd =? -1 then exit 1 else
  ip ← arg argv 3;
  r ← invoke (c_bind sockfd (uwrap 16 myport));
  if r =? -1 then exit 1 else
  r ← invoke (c_listen sockfd (swrap 32 lisnum));
  if r =? -1 then exit 1 else
  mret (ctx, sockfd, ip).

(** ** rsa_keygen.cpp *)

Definition RSA_3 : Z := 3.

Definition keygen_main : sys Z :=
  r ← invoke (c_RSA_generate_key 512 RSA_3);
  _ ← invoke (c_RSA_print r);
  _ ← invoke (c_RSA_free r);
  bne ← invoke c_BN_new;
  _ ← invoke (c_BN_set_word bne RSA_3);
  r ← invoke c_RSA_new;
  ret ← invoke (c_RSA_generate_key_ex r 512 bne);
  if negb (ret =? 1) then mret (-1)
  else _ ← invoke (c_RSA_free r); mret 0.
End programs.

(** ** What the programs do *)

Section theorems.
Context (answer : history → call → Z) (SSL_Error : sys ()).

Lemma bind_returned {A B} (x : sys A) (f : A → sys B) tr b tr' :
  (x ≫= f) tr = (returned b, tr') →
  ∃ a tr1, x tr = (returned a, tr1) ∧ f a tr1 = (returned b, tr').
Proof.
  unfold mbind, sys_bind. destruct (x tr) as [[a|s|] tr1]; [|done|done]. by eauto.
Qed.

Lemma invoke_returned {B} c (f : Z → sys B) tr b tr' :
  (invoke answer c ≫= f) tr = (returned b, tr') →
  ∃ v, f v (tr ++ [(c, v)]) = (returned b, tr').
Proof. intros H. by exists (answer tr c). Qed.

(** Inverts a run that returned. *)
Ltac returns := repeat match goal with
  | H : (invoke _ _ ≫= _) _ = (returned _, _) |- _ =>
      apply invoke_returned in H as [? H]; cbn beta in H
  | H : (if ?b then _ else _) _ = (returned _, _) |- _ => destruct b eqn:?; try done
  | H : mret _ _ = (returned _, _) |- _ => injection H as; subst
  end.

(** The calls of a run. *)
Definition calls_in (P : call → Prop) {A} (x : sys A) : Prop :=
  ∀ tr, Forall (P ∘ fst) tr → Forall (P ∘ fst) (x tr).2.

Lemma calls_bind P {A B} (x : sys A) (f : A → sys B) :
  calls_in P x → (∀ a, calls_in P (f a)) → calls_in P (x ≫= f).
Proof.
  intros Hx Hf tr Htr. unfold mbind, sys_bind. specialize (Hx tr Htr).
  destruct (x tr) as [[a|s|] tr1]; [|done|done]. by apply Hf.
Qed.

Lemma calls_invoke (P : call → Prop) c : P c → calls_in P (invoke answer c).
Proof. intros Hc tr Htr. cbn. apply Forall_app. by repeat constructor. Qed.

Lemma calls_none P {A} (x : sys A) : (∀ tr, (x tr).2 = tr) → calls_in P x.
Proof. intros Hx tr Htr. by rewrite Hx. Qed.

(** Every call of a program satisfies [P]. *)
Ltac all_calls := repeat first
  [ apply calls_bind; [|intros ?]
  | apply calls_invoke; done
  | apply calls_none; done
  | match goal with |- calls_in _ (if ?b then _ else _) => destruct b end ].

(** *** ssl_man_in_middle.cpp *)

Definition not_accept (c : call) : Prop := match c with c_accept _ => False | _ => True end.
Definition not_close (c : call) : Prop := match c with c_close _ => False | _ => True end.

(** [main] does not get as far as [accept]: setting the socket up exits, or reaches
    the end of a function that has no [return]. *)
Theorem mitm_main_undefined n tr :
  Forall (not_accept ∘ fst) tr →
  match mitm_main answer SSL_Error n tr with
  | (returned _, _) => False
  | (_, tr') => Forall (not_accept ∘ fst) tr'
  end.
Proof.
  intros Htr. unfold mitm_main.
  assert (calls_in not_accept (socket_to_client_init answer 443)) as Hc
    by (unfold socket_to_client_init; all_calls).
  specialize (Hc tr Htr). unfold mbind at 1, sys_bind at 1.
  destruct (socket_to_client_init answer 443 tr) as [[a|s|] tr1] eqn:E; [|done|done].
  unfold socket_to_client_init in E. returns.
Qed.

(** [SSL_Error] ends the process, like the macro [error]. *)
Context (SSL_Error_exits : ∀ tr, ∃ s, SSL_Error tr = (exited s, tr)).

(** A descriptor that was accepted is never closed, neither by the parent, which does
    not use it, nor by the child. *)
Theorem mitm_never_closes n socket key sum tr :
  Forall (not_close ∘ fst) tr →
  Forall (not_close ∘ fst) (mitm_loop answer SSL_Error n socket key sum tr).2.
Proof.
  revert tr. change (calls_in not_close (mitm_loop answer SSL_Error n socket key sum)).
  assert (calls_in not_close SSL_Error) as Herr.
  { apply calls_none. intros tr. by destruct (SSL_Error_exits tr) as [s ->]. }
  revert sum. induction n as [|n IH]; intros sum; cbn; [by apply calls_none|].
  unfold get_socket_to_client, child, get_socket_to_server, SSL_to_server_init,
    create_fake_certificate, SSL_to_client_init, SSL_terminal.
  repeat first [apply IH | exact Herr | progress all_calls].
Qed.

(** What the parts of a child have done when they return. *)
Lemma get_socket_to_server_returns tr fd tr' :
  get_socket_to_server answer tr = (returned fd, tr') →
  ∃ r, tr' = tr ++ [(c_socket, fd); (c_connect fd, r)] ∧ 0 ≤ fd ∧ 0 ≤ r.
Proof.
  intros H. unfold get_socket_to_server in H. returns.
  rewrite <-app_assoc. eexists. split; [done|]. lia.
Qed.

Lemma SSL_to_server_init_returns socket tr ssl tr' :
  SSL_to_server_init answer socket tr = (returned ssl, tr') →
  ∃ ctx, tr' = tr ++ [(c_SSL_CTX_new client_method, ctx); (c_SSL_new ctx, ssl);
                      (c_SSL_set_fd ssl socket, 1)] ∧ ctx ≠ 0 ∧ ssl ≠ 0.
Proof.
  intros H. unfold SSL_to_server_init in H. returns.
  rewrite <-!app_assoc. zbool. subst. eexists. split; [done|]. done.
Qed.

(** [X509_dup] copies a certificate. *)
Definition copies_certificates : Prop := ∀ tr x, x ≠ 0 → answer tr (c_X509_dup x) ≠ 0.

Lemma create_fake_certificate_returns ssl key tr fake tr' :
  copies_certificates → create_fake_certificate answer ssl key tr = (returned fake, tr') →
  ∃ cert changes signed, cert ≠ 0 ∧ fake ≠ 0 ∧
    tr' = tr ++ [(c_SSL_get_peer_certificate ssl, cert); (c_X509_dup cert, fake)] ++ changes ++
          [(c_X509_sign fake key, signed)].
Proof.
  intros Hd H. unfold create_fake_certificate in H. apply invoke_returned in H as [cert H].
  apply bind_returned in H as (fake' & tr1 & Hf & H).
  assert (cert ≠ 0 → fake' ≠ 0) by (injection Hf as <- _; apply Hd).
  assert (tr1 = (tr ++ [(c_SSL_get_peer_certificate ssl, cert)]) ++ [(c_X509_dup cert, fake')]) as ->
    by (injection Hf as <- <-; done).
  clear Hf. returns. rewrite <-!app_assoc. zbool. eexists _, [_; _; _], _. split; [|split; [|done]]; auto.
Qed.

(** Where [SSL_Error] does not return, its test holds. *)
Lemma passes (b : bool) tr a tr' :
  (if b then SSL_Error else mret ()) tr = (returned a, tr') → b = false ∧ tr' = tr.
Proof.
  destruct b; intros H; [|by injection H].
  destruct (SSL_Error_exits tr) as [s Hs]. by rewrite Hs in H.
Qed.

Ltac passed := repeat match goal with
  | H : (invoke _ _ ≫= _) _ = (returned _, _) |- _ =>
      apply invoke_returned in H as [? H]; cbn beta in H
  | H : (if _ then SSL_Error else _) _ = (returned _, _) |- _ => apply passes in H as [? ->]
  | H : mbind _ _ _ = (returned _, _) |- _ =>
      let HP := fresh "HP" in
      apply bind_returned in H as (? & ? & HP & H); apply passes in HP as [? ->]; cbn beta in H
  | H : mret _ _ = (returned _, _) |- _ => injection H as; subst
  end.

Lemma SSL_to_client_init_returns socket cert key tr ssl tr' :
  cert ≠ 0 → key ≠ 0 →
  SSL_to_client_init answer SSL_Error socket cert key tr = (returned ssl, tr') →
  ∃ ctx, tr' = tr ++ [(c_SSL_CTX_new server_method, ctx); (c_SSL_CTX_use_certificate ctx cert, 1);
                      (c_SSL_CTX_use_PrivateKey ctx key, 1);
                      (c_SSL_CTX_check_private_key ctx, 1);
                      (c_SSL_new ctx, ssl); (c_SSL_set_fd ssl socket, 1)] ∧ ctx ≠ 0 ∧ ssl ≠ 0.
Proof.
  intros Hc Hk H. unfold SSL_to_client_init in H.
  apply Z.eqb_neq in Hc. apply Z.eqb_neq in Hk. rewrite Hc, Hk in H. cbn [negb andb] in H.
  passed. apply bind_returned in H as (u & tr1 & H1 & H). cbn beta in H. passed.
  rewrite <-!app_assoc. zbool. subst. eexists. split; [done|]. done.
Qed.

(** A child that leaves the loop has connected to the server, finished the handshake
    with it as far as [SSL_connect] is not negative, made a certificate from the one
    of the server and signed it, finished the handshake with the client, and relayed. *)
Theorem child_relays socket key tr tr' :
  copies_certificates → key ≠ 0 → child answer SSL_Error socket key tr = (returned true, tr') →
  ∃ sock connected ctx_s ssl_s handshake cert fake changes signed ctx_c ssl_c accepted result,
    tr' = tr ++ [(c_socket, sock); (c_connect sock, connected);
                 (c_SSL_CTX_new client_method, ctx_s); (c_SSL_new ctx_s, ssl_s);
                 (c_SSL_set_fd ssl_s sock, 1); (c_SSL_connect ssl_s, handshake);
                 (c_SSL_get_peer_certificate ssl_s, cert); (c_X509_dup cert, fake)] ++
          changes ++
          [(c_X509_sign fake key, signed);
           (c_SSL_CTX_new server_method, ctx_c); (c_SSL_CTX_use_certificate ctx_c fake, 1);
           (c_SSL_CTX_use_PrivateKey ctx_c key, 1); (c_SSL_CTX_check_private_key ctx_c, 1);
           (c_SSL_new ctx_c, ssl_c); (c_SSL_set_fd ssl_c socket, 1);
           (c_SSL_accept ssl_c, accepted); (c_transfer ssl_c ssl_s, result)] ∧
    0 ≤ connected ∧ 0 ≤ handshake ∧ cert ≠ 0 ∧ 0 < accepted ∧ result < 0.
Proof.
  intros Hd Hk H. unfold child in H.
  apply bind_returned in H as (sock & tr1 & (r & -> & _ & Hr)%get_socket_to_server_returns & H).
  apply bind_returned in H as (ssl_s & tr2 & (ctx & -> & _)%SSL_to_server_init_returns & H).
  returns. apply bind_returned in H as (fake & tr3 & Hc & H).
  apply create_fake_certificate_returns in Hc as (cert & changes & signed & Hcert & Hf & ->); [|done].
  apply bind_returned in H as (ssl_c & tr4 & Hc & H).
  apply SSL_to_client_init_returns in Hc as (ctx_c & -> & _); [|done..].
  returns; [|by repeat apply bind_returned in H as (? & ? & _ & H)].
  rewrite <-!app_assoc. zbool. cbn [app]. rewrite <-app_assoc.
  eexists _, _, _, _, _, _, _, _, _, _, _, _, _. split; [done|]. lia.
Qed.

(** *** openssl-cli.cpp *)

Lemma ShowCerts_extends ssl tr :
  ∃ shown, ShowCerts answer ssl tr = (returned (), tr ++ shown).
Proof.
  unfold ShowCerts, mbind, sys_bind, invoke. cbn.
  destruct (negb _); cbn; rewrite <-?app_assoc; by eexists.
Qed.

(** The client: when it returns, it has shut its connection down and freed the
    connection, the socket and the context, whatever the handshake and the transfer
    returned.  A handshake that failed (-1) does not keep it from reading. *)
Theorem client_main_returns argv errno tr status tr' :
  client_main answer argv errno tr = (returned status, tr') →
  status = 0 ∧ length argv = 3%nat ∧
  ∃ init ctx sockfd aton ssl fd_set handshake shown len written r1 r2 r3 r4,
    tr' = tr ++ [(c_ssl_library_init, init); (c_SSL_CTX_new client_method, ctx);
                 (c_socket, sockfd); (c_inet_aton (argv !!! 1%nat), aton);
                 (c_connect sockfd, 0); (c_SSL_new ctx, ssl); (c_SSL_set_fd ssl sockfd, fd_set);
                 (c_SSL_connect ssl, handshake)] ++
          shown ++ [(c_SSL_read ssl, len)] ++ written ++
          [(c_SSL_shutdown ssl, r1); (c_SSL_free ssl, r2); (c_close sockfd, r3);
           (c_SSL_CTX_free ctx, r4)] ∧
    ctx ≠ 0 ∧ 0 ≤ sockfd ∧ aton ≠ 0 ∧ (handshake = -1 → shown = []) ∧ (len ≤ 0 → written = []).
Proof.
  intros H. unfold client_main in H. destruct (Z.of_nat (length argv) =? 3) eqn:Ha; [|done].
  cbn [negb] in H. returns. rename x6 into handshake, x4 into ssl.
  apply bind_returned in H as (u & tr1 & Hs & H). cbn beta in H.
  match type of Hs with _ ?tr0 = _ => set (before := tr0) in * end.
  assert (∃ shown, tr1 = before ++ shown ∧ (handshake = -1 → shown = [])) as (shown & -> & Hshown).
  { destruct (Z.eqb_spec handshake (-1)); [exists []; injection Hs as _ <-; by rewrite app_nil_r|].
    destruct (ShowCerts_extends ssl before) as [shown Hsh]. rewrite Hsh in Hs.
    injection Hs as _ <-. by exists shown. }
  clear Hs. returns. rename x4 into len. apply bind_returned in H as (u' & tr2 & Hw & H). cbn beta in H.
  match type of Hw with _ ?tr0 = _ => set (read := tr0) in * end.
  assert (∃ written, tr2 = read ++ written ∧ (len ≤ 0 → written = [])) as (written & -> & Hwritten).
  { destruct (Z.ltb_spec 0 len); returns; [by eexists; split; [|lia]|].
    exists []. by rewrite app_nil_r. }
  clear Hw. returns. zbool. split; [done|]. split; [lia|]. subst x3.
  exists x, x0, x1, x2, ssl, x5, handshake, shown, len, written, x4, x6, x7, x8.
  split; [|done]. unfold read, before. by rewrite <-!app_assoc.
Qed.

(** *** openssl-server.cpp *)

(** Started without arguments, the server reads [argv[2]], behind the null pointer
    that ends [argv]; with four arguments or more all its reads are inside. *)
Theorem server_setup_arguments argv tr :
  (length argv = 1%nat → server_setup answer argv tr = (undefined_run, tr)) ∧
  ((5 ≤ length argv)%nat → (server_setup answer argv tr).1 ≠ undefined_run).
Proof.
  split.
  - intros Ha. unfold server_setup, arg. rewrite Ha. done.
  - intros Ha. unfold server_setup, arg. rewrite !(proj2 (Nat.leb_le _ _)) by lia.
    unfold mbind, sys_bind, invoke. cbn. by repeat case_match; simplify_eq/=.
Qed.

(** *** rsa_keygen.cpp *)

(** The exact calls: the number [bne] is never freed, and when the second key cannot
    be made, neither is the key. *)
Theorem keygen_main_returns tr status tr' :
  keygen_main answer tr = (returned status, tr') →
  ∃ r1 p f1 bne set r2 ret freed,
    tr' = tr ++ [(c_RSA_generate_key 512 RSA_3, r1); (c_RSA_print r1, p); (c_RSA_free r1, f1);
                 (c_BN_new, bne); (c_BN_set_word bne RSA_3, set); (c_RSA_new, r2);
                 (c_RSA_generate_key_ex r2 512 bne, ret)] ++ freed ∧
    if ret =? 1 then status = 0 ∧ ∃ f2, freed = [(c_RSA_free r2, f2)] else status = -1 ∧ freed = [].
Proof.
  intros H. unfold keygen_main in H. returns; rewrite <-!app_assoc.
  - eexists _, _, _, _, _, _, _, []. split; [done|].
    by match goal with H : negb ?b = true |- _ => destruct b end.
  - eexists _, _, _, _, _, _, _, [_]. split; [done|].
    match goal with H : negb ?b = false |- _ => destruct b end; [|done]. by eauto.
Qed.
End theorems.
