(* ===== verification/JsonAccess.v ===== *)
(** Element access and modifiers of [basic_json].

    A C++ reference to an element is modelled by what the caller does with it: a
    function [use] from the element to a result and the element's new value.
    Reading leaves the element as it is ([read]), assigning replaces it
    ([assign]).  The elements that an access creates before it throws are not
    modelled: the callers modelled here discard the value in that case. *)

From S2P Require Import Prelude JsonValue.

Definition type_name (j : json) : list Z :=
  match j with
  | JNull => lit "null"
  | JObject _ => lit "object"
  | JArray _ => lit "array"
  | JString _ => lit "string"
  | JBool _ => lit "boolean"
  | JDiscarded => lit "discarded"
  | JInt _ | JUInt _ | JFloat _ => lit "number"
  end.

Definition is_array (j : json) : bool := match j with JArray _ => true | _ => false end.
Definition is_object (j : json) : bool := match j with JObject _ => true | _ => false end.
Definition is_string (j : json) : bool := match j with JString _ => true | _ => false end.

(** [is_primitive]: null, string, boolean or number. *)
Definition is_primitive (j : json) : bool :=
  match j with JObject _ | JArray _ | JDiscarded => false | _ => true end.

(** [size]. *)
Definition json_size (j : json) : Z :=
  match j with
  | JNull => 0
  | JArray a => Z.of_nat (length a)
  | JObject o => Z.of_nat (length o)
  | _ => 1
  end.

(** What is done with a reference to an element. *)
Abbreviation ref_use A := (json → result (A * json)).

Definition read : ref_use json := λ v, Ok (v, v).
Definition assign (x : json) : ref_use () := λ _, Ok ((), x).

(** The largest number of elements of a [std::vector<basic_json>]; an element has
    16 bytes. *)
Definition vector_max_size : Z := 2 ^ 60 - 1.

Section access.
Context {A : Type}.
Variable use : ref_use A.

(** [at(size_type)]. *)
Definition at_idx (idx : Z) (j : json) : result (A * json) :=
  match j with
  | JArray a =>
      if idx <? Z.of_nat (length a) then
        match a !! Z.to_nat idx with
        | Some v => '(x, v) ← use v; mret (x, JArray (<[Z.to_nat idx := v]> a))
        | None => Throw out_of_bounds
        end
      else Throw (out_of_range_create 401
                    (lit "array index " ++ to_string idx ++ lit " is out of range"))
  | j => Throw (type_error_create 304 (lit "cannot use at() with " ++ type_name j))
  end.

(** [at(key)]. *)
Definition at_key (key : list Z) (j : json) : result (A * json) :=
  match j with
  | JObject o =>
      match omap_find key o with
      | Some v => '(x, v) ← use v; mret (x, JObject (omap_assign key v o))
      | None => Throw (out_of_range_create 403 (lit "key '" ++ key ++ lit "' not found"))
      end
  | j => Throw (type_error_create 304 (lit "cannot use at() with " ++ type_name j))
  end.

(** [operator[](size_type)]: a null value becomes an array, and an array is filled
    up with null values.  The number of them is computed in [size_type]: the
    index 2^64-1 of an empty array adds none, and is then accessed. *)
Definition index (idx : Z) (j : json) : result (A * json) :=
  let j := match j with JNull => JArray [] | j => j end in
  match j with
  | JArray a =>
      let size := Z.of_nat (length a) in
      let missing := if size <=? idx then uwrap 64 (idx - size + 1) else 0 in
      if (size <=? idx) && (vector_max_size - size <? missing) then Throw std_length_error
      else
        let a := a ++ replicate (Z.to_nat missing) JNull in
        match a !! Z.to_nat idx with
        | Some v => '(x, v) ← use v; mret (x, JArray (<[Z.to_nat idx := v]> a))
        | None => Throw out_of_bounds
        end
  | j => Throw (type_error_create 305 (lit "cannot use operator[] with " ++ type_name j))
  end.

(** [operator[](key)]: a null value becomes an object, and a missing member a null
    value. *)
Definition index_key (key : list Z) (j : json) : result (A * json) :=
  let j := match j with JNull => JObject [] | j => j end in
  match j with
  | JObject o =>
      '(x, v) ← use (default JNull (omap_find key o));
      mret (x, JObject (omap_assign key v o))
  | j => Throw (type_error_create 305 (lit "cannot use operator[] with " ++ type_name j))
  end.
End access.

(** [operator[]] of a constant value: the element has to exist. *)
Definition const_index (idx : Z) (j : json) : result json :=
  match j with
  | JArray a => match a !! Z.to_nat idx with Some v => Ok v | None => Throw out_of_bounds end
  | j => Throw (type_error_create 305 (lit "cannot use operator[] with " ++ type_name j))
  end.

Definition const_index_key (key : list Z) (j : json) : result json :=
  match j with
  | JObject o => match omap_find key o with Some v => Ok v | None => Throw assert_failure end
  | j => Throw (type_error_create 305 (lit "cannot use operator[] with " ++ type_name j))
  end.

(** [erase(size_type)]. *)
Definition erase_idx (idx : Z) (j : json) : result json :=
  match j with
  | JArray a =>
      if Z.of_nat (length a) <=? idx then
        Throw (out_of_range_create 401
                 (lit "array index " ++ to_string idx ++ lit " is out of range"))
      else Ok (JArray (delete (Z.to_nat idx) a))
  | j => Throw (type_error_create 307 (lit "cannot use erase() with " ++ type_name j))
  end.

(** [erase(key)]: the number of members removed, and the value. *)
Definition erase_key (key : list Z) (j : json) : result (Z * json) :=
  match j with
  | JObject o =>
      Ok (if omap_find key o is Some _ then 1 else 0, JObject (omap_erase key o))
  | j => Throw (type_error_create 307 (lit "cannot use erase() with " ++ type_name j))
  end.

(** [push_back(const basic_json&)]. *)
Definition push_back (val j : json) : result json :=
  match j with
  | JNull => Ok (JArray [val])
  | JArray a => Ok (JArray (a ++ [val]))
  | j => Throw (type_error_create 308 (lit "cannot use push_back() with " ++ type_name j))
  end.

(** [push_back(const object_t::value_type&)]. *)
Definition push_back_member (key : list Z) (val j : json) : result json :=
  match j with
  | JNull => Ok (JObject [(key, val)])
  | JObject o => Ok (JObject (omap_emplace key val o))
  | j => Throw (type_error_create 308 (lit "cannot use push_back() with " ++ type_name j))
  end.

(** [insert(begin() + idx, val)]; an iterator behind the end is undefined. *)
Definition insert_at (idx : Z) (val j : json) : result json :=
  match j with
  | JArray a =>
      if (0 <=? idx) && (idx <=? Z.of_nat (length a))
      then Ok (JArray (take (Z.to_nat idx) a ++ val :: drop (Z.to_nat idx) a))
      else Throw out_of_bounds
  | j => Throw (type_error_create 309 (lit "cannot use insert() with " ++ type_name j))
  end.

(** [update(const_reference)]. *)
Definition update (j other : json) : result json :=
  let j := match j with JNull => JObject [] | j => j end in
  match j with
  | JObject o =>
      match other with
      | JObject o2 => Ok (JObject (fold_left (λ o kv, omap_assign kv.1 kv.2 o) o2 o))
      | other => Throw (type_error_create 312 (lit "cannot use update() with " ++ type_name other))
      end
  | j => Throw (type_error_create 312 (lit "cannot use update() with " ++ type_name j))
  end.

(** [clear]. *)
Definition clear (j : json) : json :=
  match j with
  | JInt _ => JInt 0
  | JUInt _ => JUInt 0
  | JFloat _ => JFloat 0
  | JBool _ => JBool false
  | JString _ => JString []
  | JArray _ => JArray []
  | JObject _ => JObject []
  | j => j
  end.
