(* ===== verification/JsonIterators.v ===== *)
(** Iterators of [basic_json]: [primitive_iterator_t], [iter_impl],
    [iteration_proxy] and [json_reverse_iterator].

    An iterator holds a pointer to a value and the positions of three iterators, of
    which the type of the value selects one.  A pointer is the address of the value
    (0 is null); every operation takes the value that its iterator points to.  A
    container iterator is an index, or [None] when it was only default constructed.
    What the standard leaves undefined (to leave the container, to compare
    iterators of different containers, signed overflow) is [out_of_bounds]. *)

From S2P Require Import Prelude JsonValue JsonAccess.

(** ** [primitive_iterator_t] *)

Definition begin_value : Z := 0.
Definition end_value : Z := begin_value + 1.
Definition ptrdiff_min : Z := - 2 ^ 63.

Definition is_begin (it : Z) : bool := it =? begin_value.
Definition is_end (it : Z) : bool := it =? end_value.

(** Arithmetic on [std::ptrdiff_t]. *)
Definition ptrdiff (z : Z) : result Z :=
  if bool_decide (in_s 64 z) then Ok z else Throw out_of_bounds.

Definition primitive_add (it i : Z) : result Z := ptrdiff (it + i).
Definition primitive_sub (lhs rhs : Z) : result Z := ptrdiff (lhs - rhs).

(** ** [iter_impl] *)

Record internal_iterator := mk_internal {
  object_iterator : option Z;
  array_iterator : option Z;
  primitive_iterator : Z;
}.

Record iter := mk_iter { m_object : Z; m_it : internal_iterator }.

(** [iter_impl()]. *)
Definition iter_default : iter := mk_iter 0 (mk_internal None None ptrdiff_min).

Definition set_object (p : option Z) (it : iter) : iter :=
  mk_iter (m_object it) (mk_internal p (array_iterator (m_it it)) (primitive_iterator (m_it it))).
Definition set_array (p : option Z) (it : iter) : iter :=
  mk_iter (m_object it) (mk_internal (object_iterator (m_it it)) p (primitive_iterator (m_it it))).
Definition set_primitive (p : Z) (it : iter) : iter :=
  mk_iter (m_object it) (mk_internal (object_iterator (m_it it)) (array_iterator (m_it it)) p).

(** [iter_impl(pointer)], for the value at [this]. *)
Definition iter_of (this : Z) : iter := mk_iter this (m_it iter_default).

Definition set_begin (j : json) (it : iter) : iter :=
  match j with
  | JObject _ => set_object (Some 0) it
  | JArray _ => set_array (Some 0) it
  | JNull => set_primitive end_value it
  | _ => set_primitive begin_value it
  end.

Definition set_end (j : json) (it : iter) : iter :=
  match j with
  | JObject o => set_object (Some (Z.of_nat (length o))) it
  | JArray a => set_array (Some (Z.of_nat (length a))) it
  | _ => set_primitive end_value it
  end.

(** [begin()] and [end()] of [basic_json]. *)
Definition json_begin (this : Z) (j : json) : iter := set_begin j (iter_of this).
Definition json_end (this : Z) (j : json) : iter := set_end j (iter_of this).

(** [assert(m_object != nullptr)]. *)
Definition initialized {A} (it : iter) (k : result A) : result A :=
  if m_object it =? 0 then Throw assert_failure else k.

(** [std::advance] in a container of [n] elements. *)
Definition advance {A} (l : list A) (p : option Z) (i : Z) : result (option Z) :=
  match p with
  | Some p => if (0 <=? p + i) && (p + i <=? Z.of_nat (length l)) then Ok (Some (p + i))
              else Throw out_of_bounds
  | None => Throw out_of_bounds
  end.

(** The element at a position; [assert] finds the end. *)
Definition element {A} (l : list A) (p : option Z) : result (nat * A) :=
  match p with
  | Some p =>
      if p =? Z.of_nat (length l) then Throw assert_failure
      else match l !! Z.to_nat p with
           | Some v => if 0 <=? p then Ok (Z.to_nat p, v) else Throw out_of_bounds
           | None => Throw out_of_bounds
           end
  | None => Throw out_of_bounds
  end.

Definition cannot_get_value : exn := invalid_iterator_create 214 (lit "cannot get value").

Section reference.
Context {A : Type}.
Variable use : ref_use A.

(** [operator*] and [value()]. *)
Definition iter_deref (it : iter) (j : json) : result (A * json) :=
  initialized it
    match j with
    | JObject o =>
        '(i, (k, v)) ← element o (object_iterator (m_it it));
        '(x, v) ← use v; mret (x, JObject (<[i := (k, v)]> o))
    | JArray a =>
        '(i, v) ← element a (array_iterator (m_it it));
        '(x, v) ← use v; mret (x, JArray (<[i := v]> a))
    | JNull => Throw cannot_get_value
    | j => if is_begin (primitive_iterator (m_it it)) then use j else Throw cannot_get_value
    end.

(** [operator->]: as [operator*], but a null value is treated as the other values
    that are no containers. *)
Definition iter_arrow (it : iter) (j : json) : result (A * json) :=
  match j with
  | JNull =>
      initialized it
        (if is_begin (primitive_iterator (m_it it)) then use j else Throw cannot_get_value)
  | j => iter_deref it j
  end.

(** [operator[]]: [*std::next(array_iterator, n)] is not checked. *)
Definition iter_index (n : Z) (it : iter) (j : json) : result (A * json) :=
  initialized it
    match j with
    | JObject _ => Throw (invalid_iterator_create 208 (lit "cannot use operator[] for object iterators"))
    | JArray a =>
        p ← advance a (array_iterator (m_it it)) n;
        match p ≫= λ p, a !! Z.to_nat p with
        | Some v => '(x, v) ← use v; mret (x, JArray (<[Z.to_nat (default 0 p) := v]> a))
        | None => Throw out_of_bounds
        end
    | JNull => Throw cannot_get_value
    | j =>
        minus_n ← ptrdiff (- n);
        if primitive_iterator (m_it it) =? minus_n then use j else Throw cannot_get_value
    end.
End reference.

(** The step of [++] and [--]. *)
Definition iter_step (i : Z) (it : iter) (j : json) : result iter :=
  initialized it
    match j with
    | JObject o => p ← advance o (object_iterator (m_it it)) i; mret (set_object p it)
    | JArray a => p ← advance a (array_iterator (m_it it)) i; mret (set_array p it)
    | _ => p ← primitive_add (primitive_iterator (m_it it)) i; mret (set_primitive p it)
    end.

Definition iter_incr : iter → json → result iter := iter_step 1.
Definition iter_decr : iter → json → result iter := iter_step (-1).

(** Equality and order of container iterators. *)
Definition position_eq (p q : option Z) : result bool :=
  match p, q with
  | Some p, Some q => Ok (p =? q)
  | None, None => Ok true
  | _, _ => Throw out_of_bounds
  end.

Definition position_lt (p q : option Z) : result bool :=
  match p, q with
  | Some p, Some q => Ok (p <? q)
  | None, None => Ok false
  | _, _ => Throw out_of_bounds
  end.

Definition other_container : exn :=
  invalid_iterator_create 212 (lit "cannot compare iterators of different containers").

Definition iter_eq (it other : iter) (j : json) : result bool :=
  if negb (m_object it =? m_object other) then Throw other_container
  else
    initialized it
      match j with
      | JObject _ => position_eq (object_iterator (m_it it)) (object_iterator (m_it other))
      | JArray _ => position_eq (array_iterator (m_it it)) (array_iterator (m_it other))
      | _ => Ok (primitive_iterator (m_it it) =? primitive_iterator (m_it other))
      end.

Definition iter_ne (it other : iter) (j : json) : result bool :=
  b ← iter_eq it other j; mret (negb b).

Definition iter_lt (it other : iter) (j : json) : result bool :=
  if negb (m_object it =? m_object other) then Throw other_container
  else
    initialized it
      match j with
      | JObject _ => Throw (invalid_iterator_create 213 (lit "cannot compare order of object iterators"))
      | JArray _ => position_lt (array_iterator (m_it it)) (array_iterator (m_it other))
      | _ => Ok (primitive_iterator (m_it it) <? primitive_iterator (m_it other))
      end.

Definition iter_le (it other : iter) (j : json) : result bool :=
  b ← iter_lt other it j; mret (negb b).
Definition iter_gt (it other : iter) (j : json) : result bool :=
  b ← iter_le it other j; mret (negb b).
Definition iter_ge (it other : iter) (j : json) : result bool :=
  b ← iter_lt it other j; mret (negb b).

Definition no_offsets : exn :=
  invalid_iterator_create 209 (lit "cannot use offsets with object iterators").

(** [operator+=], [operator-=] and the binary forms, which work on a copy. *)
Definition iter_add (i : Z) (it : iter) (j : json) : result iter :=
  match j with
  | JObject _ => initialized it (Throw no_offsets)
  | j => iter_step i it j
  end.

Definition iter_sub (i : Z) (it : iter) (j : json) : result iter :=
  minus_i ← ptrdiff (- i); iter_add minus_i it j.

(** [operator-] of two iterators; it does not test that they belong to one value. *)
Definition iter_diff (it other : iter) (j : json) : result Z :=
  initialized it
    match j with
    | JObject _ => Throw no_offsets
    | JArray _ =>
        match array_iterator (m_it it), array_iterator (m_it other) with
        | Some p, Some q => if m_object it =? m_object other then Ok (p - q) else Throw out_of_bounds
        | _, _ => Throw out_of_bounds
        end
    | _ => primitive_sub (primitive_iterator (m_it it)) (primitive_iterator (m_it other))
    end.

(** [key()]; at the end it reads behind the last member. *)
Definition iter_key (it : iter) (j : json) : result (list Z) :=
  initialized it
    match j with
    | JObject o =>
        match object_iterator (m_it it) with
        | Some p => if 0 <=? p
                    then match o !! Z.to_nat p with Some kv => Ok kv.1 | None => Throw out_of_bounds end
                    else Throw out_of_bounds
        | None => Throw out_of_bounds
        end
    | _ => Throw (invalid_iterator_create 207 (lit "cannot use key() for non-object iterators"))
    end.

(** ** [iteration_proxy] *)

Record proxy := mk_proxy { anchor : iter; proxy_index : Z }.

Definition proxy_begin (this : Z) (j : json) : proxy := mk_proxy (json_begin this j) 0.
Definition proxy_end (this : Z) (j : json) : proxy := mk_proxy (json_end this j) 0.

Definition proxy_incr (it : proxy) (j : json) : result proxy :=
  a ← iter_incr (anchor it) j; mret (mk_proxy a (uwrap 64 (proxy_index it + 1))).

Definition proxy_ne (it o : proxy) (j : json) : result bool := iter_ne (anchor it) (anchor o) j.

Definition proxy_key (it : proxy) (j : json) : result (list Z) :=
  match j with
  | JArray _ => initialized (anchor it) (Ok (to_string (proxy_index it)))
  | JObject _ => initialized (anchor it) (iter_key (anchor it) j)
  | _ => initialized (anchor it) (Ok [])
  end.

Definition proxy_value (it : proxy) (j : json) : result json :=
  '(v, _) ← iter_deref read (anchor it) j; mret v.

(** ** [json_reverse_iterator], by the iterator it is based on *)

Definition json_rbegin (this : Z) (j : json) : iter := json_end this j.
Definition json_rend (this : Z) (j : json) : iter := json_begin this j.

Definition reverse_incr : iter → json → result iter := iter_decr.
Definition reverse_decr : iter → json → result iter := iter_incr.
Definition reverse_add (i : Z) (it : iter) (j : json) : result iter := iter_sub i it j.
Definition reverse_sub (i : Z) (it : iter) (j : json) : result iter := iter_add i it j.
Definition reverse_diff (it other : iter) (j : json) : result Z := iter_diff other it j.

(** [operator*] and [value()] step back on a copy; [key()] too. *)
Definition reverse_deref {A} (use : ref_use A) (it : iter) (j : json) : result (A * json) :=
  tmp ← iter_decr it j; iter_deref use tmp j.

Definition reverse_key (it : iter) (j : json) : result (list Z) :=
  tmp ← iter_decr it j; iter_key tmp j.

(** [operator[]]. *)
Definition reverse_index {A} (use : ref_use A) (n : Z) (it : iter) (j : json) : result (A * json) :=
  tmp ← reverse_add n it j; reverse_deref use tmp j.

(** ** Loops *)

(** [for (auto& x : iterator_wrapper(j))], for the keys and values it sees. *)
Fixpoint range_for (fuel : nat) (it last : proxy) (j : json) : result (list (list Z * json)) :=
  match fuel with
  | O => NoFuel
  | S fuel =>
      more ← proxy_ne it last j;
      if negb more then Ok []
      else
        k ← proxy_key it j;
        v ← proxy_value it j;
        it ← proxy_incr it j;
        rest ← range_for fuel it last j;
        mret ((k, v) :: rest)
  end.

(** [for (auto it = j.rbegin(); it != j.rend(); ++it)]. *)
Fixpoint reverse_for (fuel : nat) (it last : iter) (j : json) : result (list json) :=
  match fuel with
  | O => NoFuel
  | S fuel =>
      more ← iter_ne it last j;
      if negb more then Ok []
      else
        '(v, _) ← reverse_deref read it j;
        it ← reverse_incr it j;
        rest ← reverse_for fuel it last j;
        mret (v :: rest)
  end.

(** *** What the loops see *)

(** Keys and values of a value. *)
Definition items (j : json) : list (list Z * json) :=
  match j with
  | JNull => []
  | JArray a => imap (λ i v, (to_string (Z.of_nat i), v)) a
  | JObject o => o
  | j => [([], j)]
  end.

Lemma items_size j : json_size j = Z.of_nat (length (items j)).
Proof. destruct j; try done. cbn. by rewrite length_imap. Qed.

(** The iterator at the index [i] of a container. *)
Definition iter_at (this : Z) (j : json) (i : nat) : iter :=
  match j with
  | JObject _ => set_object (Some (Z.of_nat i)) (iter_of this)
  | JArray _ => set_array (Some (Z.of_nat i)) (iter_of this)
  | JNull => set_primitive (Z.of_nat i + 1) (iter_of this)
  | _ => set_primitive (Z.of_nat i) (iter_of this)
  end.

Section positions.
Context (this : Z) (Hthis : this ≠ 0).

Lemma begin_at j : json_begin this j = iter_at this j 0.
Proof. by destruct j. Qed.

Lemma end_at j : json_end this j = iter_at this j (length (items j)).
Proof. destruct j; try done. cbn. by rewrite length_imap. Qed.

Lemma initialized_at {A} j i (k : result A) : initialized (iter_at this j i) k = k.
Proof. unfold initialized. destruct j; cbn; by ztests. Qed.

Lemma iter_ne_at j i k : iter_ne (iter_at this j i) (iter_at this j k) j = Ok (negb (i =? k)%nat).
Proof.
  unfold iter_ne, iter_eq. assert (m_object (iter_at this j i) = this) as -> by by destruct j.
  assert (m_object (iter_at this j k) = this) as -> by by destruct j.
  rewrite Z.eqb_refl, initialized_at.
  destruct j; cbn; destruct (Nat.eqb_spec i k) as [->|]; by ztests.
Qed.

Lemma advance_at {A} (l : list A) p i : 0 ≤ p + i ≤ Z.of_nat (length l) →
  advance l (Some p) i = Ok (Some (p + i)).
Proof. intros H. unfold advance. by ztests. Qed.

Lemma iter_incr_at j i : (i < length (items j))%nat →
  iter_incr (iter_at this j i) j = Ok (iter_at this j (S i)).
Proof.
  intros Hi. unfold iter_incr, iter_step. rewrite initialized_at.
  destruct j; cbn in Hi; rewrite ?length_imap in Hi; try lia;
    try (by assert (i = 0%nat) as -> by lia);
    cbn [iter_at m_it set_object set_array object_iterator array_iterator];
    rewrite advance_at by lia; by replace (Z.of_nat (S i)) with (Z.of_nat i + 1) by lia.
Qed.

Lemma iter_decr_at j i : (S i ≤ length (items j))%nat →
  iter_decr (iter_at this j (S i)) j = Ok (iter_at this j i).
Proof.
  intros Hi. unfold iter_decr, iter_step. rewrite initialized_at.
  destruct j; cbn in Hi; rewrite ?length_imap in Hi; try lia;
    try (by assert (i = 0%nat) as -> by lia);
    cbn [iter_at m_it set_object set_array object_iterator array_iterator];
    rewrite advance_at by lia; by replace (Z.of_nat (S i) + -1) with (Z.of_nat i) by lia.
Qed.

Lemma element_at {A} (l : list A) i v : l !! i = Some v →
  element l (Some (Z.of_nat i)) = Ok (i, v).
Proof.
  intros H. pose proof (lookup_lt_Some _ _ _ H). unfold element. ztests.
  by rewrite Nat2Z.id, H.
Qed.

Lemma iter_deref_at j i kv : items j !! i = Some kv →
  iter_deref read (iter_at this j i) j = Ok (kv.2, j).
Proof.
  intros H. unfold iter_deref. rewrite initialized_at.
  destruct j as [|o|a|s|b|z|z|f|]; cbn in H; try done;
    try (by destruct i; [injection H as <-|]).
  - destruct kv as [k v]. cbn [iter_at m_it set_object object_iterator].
    rewrite (element_at _ _ _ H). cbn. by rewrite list_insert_id.
  - rewrite list_lookup_imap in H. apply fmap_Some in H as (v & Hv & ->).
    cbn [iter_at m_it set_array array_iterator].
    rewrite (element_at _ _ _ Hv). cbn. by rewrite list_insert_id.
Qed.

Lemma proxy_key_at j i kv : items j !! i = Some kv →
  proxy_key (mk_proxy (iter_at this j i) (Z.of_nat i)) j = Ok kv.1.
Proof.
  intros H. unfold proxy_key. cbn [anchor proxy_index].
  destruct j as [|o|a|s|b|z|z|f|]; rewrite initialized_at; cbn in H; try done;
    try (by destruct i; [injection H as <-|]).
  - unfold iter_key. rewrite initialized_at. cbn. ztests. by rewrite Nat2Z.id, H.
  - rewrite list_lookup_imap in H. by apply fmap_Some in H as (v & Hv & ->).
Qed.

Lemma range_for_at j i fuel : size_ok (items j) → (i ≤ length (items j))%nat →
  (length (items j) - i < fuel)%nat →
  range_for fuel (mk_proxy (iter_at this j i) (Z.of_nat i)) (proxy_end this j) j =
  Ok (drop i (items j)).
Proof.
  intros Hs. unfold size_ok in Hs. revert i. induction fuel as [|fuel IH]; intros i Hi Hf; [lia|].
  cbn [range_for]. unfold proxy_ne, proxy_end. cbn [anchor]. rewrite end_at, iter_ne_at.
  cbn [mbind res_bind]. destruct (Nat.eqb_spec i (length (items j))) as [->|Hn].
  { by rewrite drop_all. }
  cbn [negb]. destruct (lookup_lt_is_Some_2 (items j) i) as [kv Hkv]; [lia|].
  rewrite (proxy_key_at _ _ _ Hkv). unfold proxy_value, proxy_incr. cbn [mbind res_bind anchor proxy_index].
  rewrite (iter_deref_at _ _ _ Hkv), iter_incr_at by lia. cbn [mbind res_bind mret res_ret].
  rewrite uwrap_small by (unfold in_u; lia).
  replace (Z.of_nat i + 1) with (Z.of_nat (S i)) by lia. rewrite <-end_at. fold (proxy_end this j).
  rewrite IH by lia. cbn. by rewrite (drop_S _ _ _ Hkv), <-surjective_pairing.
Qed.

Lemma reverse_for_at j i fuel : (i ≤ length (items j))%nat → (i < fuel)%nat →
  reverse_for fuel (iter_at this j i) (json_rend this j) j = Ok (rev (take i (items j)).*2).
Proof.
  revert i. induction fuel as [|fuel IH]; intros i Hi Hf; [lia|].
  cbn [reverse_for]. unfold json_rend. rewrite begin_at, iter_ne_at. cbn [mbind res_bind].
  destruct i as [|i]; [done|]. cbn [Nat.eqb negb].
  destruct (lookup_lt_is_Some_2 (items j) i) as [kv Hkv]; [lia|].
  unfold reverse_deref, reverse_incr. rewrite iter_decr_at by lia. cbn [mbind res_bind].
  rewrite (iter_deref_at _ _ _ Hkv). cbn [mbind res_bind]. rewrite <-begin_at.
  fold (json_rend this j). rewrite IH by lia. cbn.
  by rewrite (take_S_r _ _ _ Hkv), fmap_app, rev_app_distr.
Qed.
End positions.

(** C16. Iteration, for a value of any type: the loop over [iterator_wrapper] ends
    and sees every element once, in order, with its key (the index of an array
    element, the key of an object member, the empty text for a value that is no
    container); the loop from [rbegin()] to [rend()] sees the same elements in the
    opposite order; and [size()] is their number. *)
Theorem iteration_complete this j fuel :
  this ≠ 0 → size_ok (items j) → (length (items j) < fuel)%nat →
  range_for fuel (proxy_begin this j) (proxy_end this j) j = Ok (items j) ∧
  reverse_for fuel (json_rbegin this j) (json_rend this j) j = Ok (rev (items j).*2) ∧
  json_size j = Z.of_nat (length (items j)).
Proof.
  intros Ht Hs Hf. split_and!.
  - unfold proxy_begin. rewrite begin_at. apply (range_for_at this Ht j 0); [done|lia|lia].
  - unfold json_rbegin. rewrite end_at, reverse_for_at by (done || lia). by rewrite take_ge.
  - apply items_size.
Qed.

Lemma iteration_complete_witness :
  let j := JArray [JInt 7; JNull; JString (lit "x")] in
  range_for 4 (proxy_begin 1 j) (proxy_end 1 j) j =
    Ok [(lit "0", JInt 7); (lit "1", JNull); (lit "2", JString (lit "x"))] ∧
  reverse_for 4 (json_rbegin 1 j) (json_rend 1 j) j = Ok [JString (lit "x"); JNull; JInt 7] ∧
  json_size j = 3.
Proof.
  apply (iteration_complete 1 (JArray [JInt 7; JNull; JString (lit "x")]) 4);
    [done|by vm_compute|cbn; lia].
Defined.

(** *** Arithmetic of array iterators *)

(** The order and the difference of array iterators are those of their indices;
    adding an offset is defined as long as it stays between begin and end, and the
    difference gives it back. *)
Lemma array_iterator_order this a i k : this ≠ 0 →
  let j := JArray a in
  iter_lt (iter_at this j i) (iter_at this j k) j = Ok (i <? k)%nat ∧
  iter_le (iter_at this j i) (iter_at this j k) j = Ok (i <=? k)%nat ∧
  iter_gt (iter_at this j i) (iter_at this j k) j = Ok (k <? i)%nat ∧
  iter_ge (iter_at this j i) (iter_at this j k) j = Ok (k <=? i)%nat ∧
  iter_diff (iter_at this j i) (iter_at this j k) j = Ok (Z.of_nat i - Z.of_nat k).
Proof.
  intros Ht j. unfold iter_gt, iter_le, iter_ge, iter_lt, iter_diff.
  rewrite !initialized_at by done. cbn -[Nat.ltb]. rewrite !Z.eqb_refl. cbn -[Nat.ltb].
  assert (∀ x y, (Z.of_nat x <? Z.of_nat y) = (x <? y)%nat) as E.
  { intros x y. destruct (Nat.ltb_spec x y); by ztests. }
  rewrite !E, negb_involutive, <-!Nat.leb_antisym. by split_and!.
Qed.

Lemma array_iterator_add this a i n : this ≠ 0 → 0 ≤ Z.of_nat i + n ≤ Z.of_nat (length a) →
  iter_add n (iter_at this (JArray a) i) (JArray a) =
  Ok (iter_at this (JArray a) (Z.to_nat (Z.of_nat i + n))).
Proof.
  intros Ht Hn. unfold iter_add, iter_step. rewrite initialized_at by done. cbn [iter_at m_it set_array array_iterator].
  rewrite advance_at by done. cbn. by rewrite Z2Nat.id by lia.
Qed.

(** Iterators of different values cannot be compared, object iterators have no
    order and no arithmetic. *)
Lemma iterator_errors it other o :
  (m_object it ≠ m_object other → ∀ j, iter_eq it other j = Throw other_container) ∧
  (m_object it ≠ 0 → ∀ n, iter_add n it (JObject o) = Throw no_offsets ∧
                          iter_diff it other (JObject o) = Throw no_offsets).
Proof.
  unfold iter_eq, iter_add, iter_diff, initialized. split; intros H; [intros j|intros n; split]; by ztests.
Qed.

(** A null value can be reached through [operator->] of an iterator that was moved
    back from its end, but not through [operator*]. *)
Lemma null_arrow this : this ≠ 0 →
  ∃ it, iter_decr (json_end this JNull) JNull = Ok it ∧
        iter_arrow read it JNull = Ok (JNull, JNull) ∧
        iter_deref read it JNull = Throw cannot_get_value.
Proof.
  intros Ht. exists (set_primitive 0 (iter_of this)).
  unfold iter_decr, iter_step, iter_arrow, iter_deref, initialized. cbn. by ztests.
Qed.
