(* ===== verification/JsonPointer.v ===== *)
(** [json_pointer] of json.hpp (RFC 6901), [flatten] and [unflatten].

    A pointer is its reference tokens. [split] and [to_string] are the two
    conversions; [get_checked] and [get_unchecked] follow the tokens to an
    element, [get_and_create] creates what is missing. *)

From S2P Require Import Prelude Float64 JsonValue JsonAccess Numeral.

Abbreviation json_pointer := (list (list Z)) (only parsing).

(** [replace_substring]: replace the occurrences of [f], each search starting
    behind the previous replacement.  [skip] counts the characters of an
    occurrence that are still to be left out. *)
Fixpoint replace_substring_from (f t : list Z) (skip : nat) (s : list Z) : list Z :=
  match s with
  | [] => []
  | c :: s' =>
      match skip with
      | S skip => replace_substring_from f t skip s'
      | O =>
          if bool_decide (f `prefix_of` s)
          then t ++ replace_substring_from f t (pred (length f)) s'
          else c :: replace_substring_from f t 0 s'
      end
  end.

Definition replace_substring (s f t : list Z) : list Z := replace_substring_from f t 0 s.

Definition escape (s : list Z) : list Z :=
  replace_substring (replace_substring s (lit "~") (lit "~0")) (lit "/") (lit "~1").

Definition unescape_token (s : list Z) : list Z :=
  replace_substring (replace_substring s (lit "~1") (lit "/")) (lit "~0") (lit "~").

(** The text up to the next slash, and the text behind it. *)
Fixpoint find_slash (s : list Z) : list Z * option (list Z) :=
  match s with
  | [] => ([], None)
  | c :: s =>
      if c =? 47 then ([], Some s)
      else let '(token, rest) := find_slash s in (c :: token, rest)
  end.

(** Every tilde is followed by 0 or 1. *)
Fixpoint well_escaped (token : list Z) : bool :=
  match token with
  | [] => true
  | c :: s =>
      (if c =? 126 then match s with d :: _ => (d =? 48) || (d =? 49) | [] => false end else true) &&
      well_escaped s
  end.

(** The loop of [split], on the text behind a slash; one unit of fuel per
    token. *)
Fixpoint split_tokens (fuel : nat) (s : list Z) : result json_pointer :=
  match fuel with
  | O => NoFuel
  | S fuel =>
      let '(token, rest) := find_slash s in
      if negb (well_escaped token) then
        Throw (parse_error_create 108 0
                 (lit "escape character '~' must be followed with '0' or '1'"))
      else
        match rest with
        | None => Ok [unescape_token token]
        | Some s => tokens ← split_tokens fuel s; mret (unescape_token token :: tokens)
        end
  end.

Definition split (reference_string : list Z) : result json_pointer :=
  match reference_string with
  | [] => Ok []
  | c :: s =>
      if negb (c =? 47) then
        Throw (parse_error_create 107 1
                 (lit "JSON pointer must be empty or begin with '/' - was: '" ++
                  reference_string ++ lit "'"))
      else split_tokens (length reference_string) s
  end.

(** [to_string]. *)
Definition pointer_string (ptr : json_pointer) : list Z :=
  fold_left (λ a b, a ++ lit "/" ++ escape b) ptr [].

(** [pop_back]: the last token, and the pointer without it. *)
Definition pop_back (ptr : json_pointer) : result (list Z * json_pointer) :=
  match last ptr with
  | None => Throw (out_of_range_create 405 (lit "JSON pointer has no parent"))
  | Some token => Ok (token, removelast ptr)
  end.

Definition top (ptr : json_pointer) : result json_pointer :=
  match ptr with
  | [] => Throw (out_of_range_create 405 (lit "JSON pointer has no parent"))
  | token :: _ => Ok [token]
  end.

(** [std::stoi]: white space, a sign, digits; what follows is ignored. *)
Fixpoint skip_c_spaces (s : list Z) : list Z :=
  match s with
  | c :: s' => if (c =? 32) || ((9 <=? c) && (c <=? 13)) then skip_c_spaces s' else s
  | [] => []
  end.

Definition stoi (s : list Z) : result Z :=
  let s := skip_c_spaces s in
  let '(neg, s) := match s with
                   | c :: s' => if c =? 45 then (true, s') else if c =? 43 then (false, s') else (false, s)
                   | [] => (false, s)
                   end in
  match F64.span_digits s with
  | ([], _) => Throw std_invalid_argument
  | (ds, _) =>
      let x := if (neg : bool) then - F64.digits_value 0 ds else F64.digits_value 0 ds in
      if (x <? - 2 ^ 31) || (2 ^ 31 <=? x) then Throw std_out_of_range else Ok x
  end.

(** The index of a token: [stoi], converted to [size_type]; what is not a number
    becomes a parse error. *)
Definition array_index (token : list Z) : result Z :=
  match stoi token with
  | Ok x => Ok (uwrap 64 x)
  | Throw std_invalid_argument =>
      Throw (parse_error_create 109 0 (lit "array index '" ++ token ++ lit "' is not a number"))
  | Throw e => Throw e
  | NoFuel => NoFuel
  end.

Definition dash : list Z := lit "-".

(** [reference_token.size() > 1 and reference_token[0] == '0']. *)
Definition leading_zero (token : list Z) : bool :=
  (1 <? Z.of_nat (length token)) && match token with c :: _ => c =? 48 | [] => false end.

Definition leading_zero_error (token : list Z) : exn :=
  parse_error_create 106 0 (lit "array index '" ++ token ++ lit "' must not begin with '0'").

Definition dash_error (a : list json) : exn :=
  out_of_range_create 402
    (lit "array index '-' (" ++ to_string (Z.of_nat (length a)) ++ lit ") is out of range").

Definition unresolved (token : list Z) : exn :=
  out_of_range_create 404 (lit "unresolved reference token '" ++ token ++ lit "'").

Section follow.
Context {A : Type}.

Fixpoint get_checked (ptr : json_pointer) (use : ref_use A) (j : json) : result (A * json) :=
  match ptr with
  | [] => use j
  | token :: ptr =>
      match j with
      | JObject _ => at_key (get_checked ptr use) token j
      | JArray a =>
          if bool_decide (token = dash) then Throw (dash_error a)
          else if leading_zero token then Throw (leading_zero_error token)
          else idx ← array_index token; at_idx (get_checked ptr use) idx j
      | _ => Throw (unresolved token)
      end
  end.

Fixpoint get_unchecked (ptr : json_pointer) (use : ref_use A) (j : json) : result (A * json) :=
  match ptr with
  | [] => use j
  | token :: ptr =>
      let nums := forallb F64.is_digit token in
      let j := match j with
               | JNull => if nums || bool_decide (token = dash) then JArray [] else JObject []
               | j => j
               end in
      match j with
      | JObject _ => index_key (get_unchecked ptr use) token j
      | JArray a =>
          if leading_zero token then Throw (leading_zero_error token)
          else if bool_decide (token = dash)
          then index (get_unchecked ptr use) (Z.of_nat (length a)) j
          else idx ← array_index token; index (get_unchecked ptr use) idx j
      | _ => Throw (unresolved token)
      end
  end.

Fixpoint get_and_create (ptr : json_pointer) (use : ref_use A) (j : json) : result (A * json) :=
  match ptr with
  | [] => use j
  | token :: ptr =>
      match j with
      | JNull =>
          if bool_decide (token = lit "0") then index (get_and_create ptr use) 0 j
          else index_key (get_and_create ptr use) token j
      | JObject _ => index_key (get_and_create ptr use) token j
      | JArray _ => idx ← array_index token; index (get_and_create ptr use) idx j
      | _ => Throw (type_error_create 313 (lit "invalid value to unflatten"))
      end
  end.
End follow.

(** [get_unchecked] of a constant value. *)
Fixpoint const_get_unchecked (ptr : json_pointer) (j : json) : result json :=
  match ptr with
  | [] => Ok j
  | token :: ptr =>
      match j with
      | JObject _ => v ← const_index_key token j; const_get_unchecked ptr v
      | JArray a =>
          if bool_decide (token = dash) then Throw (dash_error a)
          else if leading_zero token then Throw (leading_zero_error token)
          else idx ← array_index token; v ← const_index idx j; const_get_unchecked ptr v
      | _ => Throw (unresolved token)
      end
  end.

(** [get_checked] of a constant value, [at(json_pointer)]. *)
Definition at_pointer (ptr : json_pointer) (j : json) : result json :=
  '(v, _) ← get_checked ptr read j; mret v.

(** [flatten]: the members added to [result]. *)
Fixpoint flatten_into (reference_string : list Z) (value : json)
    (result : list (list Z * json)) : list (list Z * json) :=
  match value with
  | JArray [] => omap_assign reference_string JNull result
  | JArray a =>
      (fix each (i : Z) (a : list json) result :=
         match a with
         | [] => result
         | v :: a =>
             each (i + 1) a (flatten_into (reference_string ++ lit "/" ++ to_string i) v result)
         end) 0 a result
  | JObject [] => omap_assign reference_string JNull result
  | JObject o =>
      (fix each (o : list (list Z * json)) result :=
         match o with
         | [] => result
         | kv :: o =>
             each o (flatten_into (reference_string ++ lit "/" ++ escape kv.1) kv.2 result)
         end) o result
  | value => omap_assign reference_string value result
  end.

Definition flatten (j : json) : json := JObject (flatten_into [] j []).

Fixpoint unflatten_members (o : list (list Z * json)) (result : json) : JsonValue.result json :=
  match o with
  | [] => Ok result
  | (k, v) :: o =>
      if negb (is_primitive v) then
        Throw (type_error_create 315 (lit "values in object must be primitive"))
      else
        ptr ← split k;
        '(_, result) ← get_and_create ptr (assign v) result;
        unflatten_members o result
  end.

Definition unflatten (value : json) : result json :=
  match value with
  | JObject o => unflatten_members o JNull
  | _ => Throw (type_error_create 314 (lit "only objects can be unflattened"))
  end.

Example unflatten_flatten_example :
  let j := JObject [(lit "a/b", JArray [JUInt 1; JObject [(lit "~", JBool true)]]); (lit "c", JString [])] in
  unflatten (flatten j) = Ok j.
Proof. vm_compute. reflexivity. Qed.
