(* ===== verification/PointerText.v ===== *)
(** The text of a JSON pointer: [escape] and [unescape], and that [split] and
    [to_string] are inverse. *)

From S2P Require Import Prelude Float64 JsonValue Numeral JsonPointer.

(** ** Escaping *)

Definition escape_char (c : Z) : list Z :=
  if c =? 126 then [126; 48] else if c =? 47 then [126; 49] else [c].

Lemma replace_cons f t c s : ¬ f `prefix_of` c :: s →
  replace_substring_from f t 0 (c :: s) = c :: replace_substring_from f t 0 s.
Proof. intros H. cbn [replace_substring_from]. by rewrite bool_decide_false. Qed.

Lemma replace_hit1 d t s :
  replace_substring_from [d] t 0 (d :: s) = t ++ replace_substring_from [d] t 0 s.
Proof. cbn [replace_substring_from]. rewrite bool_decide_true; [done|]. by eexists. Qed.

Lemma replace_hit2 d e t s :
  replace_substring_from [d; e] t 0 (d :: e :: s) = t ++ replace_substring_from [d; e] t 0 s.
Proof. cbn [replace_substring_from]. rewrite bool_decide_true; [done|]. by eexists. Qed.

Lemma not_prefix (d : Z) f c s : c ≠ d → ¬ d :: f `prefix_of` c :: s.
Proof. intros Hc [r H]. by simplify_eq/=. Qed.

Lemma not_prefix2 (d : Z) e f c s : c ≠ e → ¬ d :: e :: f `prefix_of` d :: c :: s.
Proof. intros Hc [r H]. by simplify_eq/=. Qed.

Lemma escape_cons c s : escape (c :: s) = escape_char c ++ escape s.
Proof.
  unfold escape, replace_substring, escape_char, lit; simpl Z.of_N.
  destruct (Z.eqb_spec c 126) as [->|]; [|destruct (Z.eqb_spec c 47) as [->|]].
  - rewrite replace_hit1. cbn [app]. rewrite !replace_cons by (by apply not_prefix). done.
  - rewrite replace_cons by (by apply not_prefix). by rewrite replace_hit1.
  - rewrite !replace_cons by (by apply not_prefix). done.
Qed.

Lemma unescape_escape s : unescape_token (escape s) = s.
Proof.
  induction s as [|c s IH]; [done|]. rewrite escape_cons.
  unfold unescape_token, replace_substring, escape_char, lit in *; simpl Z.of_N in *.
  destruct (Z.eqb_spec c 126) as [->|]; [|destruct (Z.eqb_spec c 47) as [->|]]; cbn [app].
  - rewrite replace_cons by (by apply not_prefix2).
    rewrite (replace_cons [126; 49] _ 48) by (by apply not_prefix).
    rewrite replace_hit2. cbn [app]. by f_equal.
  - rewrite replace_hit2. cbn [app]. rewrite replace_cons by (by apply not_prefix). by f_equal.
  - rewrite !replace_cons by (by apply not_prefix). by f_equal.
Qed.

Lemma escape_well_escaped s : well_escaped (escape s) = true.
Proof.
  induction s as [|c s IH]; [done|]. rewrite escape_cons. unfold escape_char.
  repeat case_if; simpl; rewrite IH; try done. ztests. done.
Qed.

Lemma escape_no_slash s : Forall (λ c, c ≠ 47) (escape s).
Proof.
  induction s as [|c s IH]; [constructor|]. rewrite escape_cons. unfold escape_char.
  apply Forall_app_2; [|done]. repeat case_if; repeat constructor; lia.
Qed.

(** A well escaped text without a slash is the escape of its token. *)
Lemma well_escaped_inv n s : (length s ≤ n)%nat → well_escaped s = true →
  Forall (λ c, c ≠ 47) s → ∃ t, s = escape t.
Proof.
  revert s. induction n as [|n IH]; intros [|c s] Hn Hw Hs; simpl in Hn; try lia;
    try (by exists []).
  apply Forall_cons in Hs as [Hc Hs]. cbn [well_escaped] in Hw. apply andb_true_iff in Hw as [H1 Hw].
  destruct (Z.eqb_spec c 126) as [->|Hne].
  - destruct s as [|d s]; [done|]. apply Forall_cons in Hs as [_ Hs]. simpl in Hn.
    cbn [well_escaped] in Hw. apply andb_true_iff in Hw as [_ Hw].
    destruct (IH s) as [t ->]; [lia|done..|].
    apply orb_true_iff in H1 as [->%Z.eqb_eq| ->%Z.eqb_eq].
    + exists (126 :: t). by rewrite escape_cons.
    + exists (47 :: t). by rewrite escape_cons.
  - destruct (IH s) as [t ->]; [lia|done..|]. exists (c :: t). rewrite escape_cons.
    unfold escape_char. by ztests.
Qed.

Lemma escape_plain s : Forall (λ c, c ≠ 126 ∧ c ≠ 47) s → escape s = s.
Proof.
  induction 1 as [|c s [? ?] _ IH]; [done|]. rewrite escape_cons, IH. unfold escape_char. by ztests.
Qed.

(** ** [split] and [to_string] *)

Definition pointer_text (ptr : json_pointer) : list Z := concat ((λ t, 47 :: escape t) <$> ptr).

Lemma pointer_string_text ptr : pointer_string ptr = pointer_text ptr.
Proof.
  unfold pointer_string, pointer_text.
  assert (∀ a, fold_left (λ a b, a ++ lit "/" ++ escape b) ptr a =
               a ++ concat ((λ t, 47 :: escape t) <$> ptr)) as H; [|apply H].
  induction ptr as [|t ptr IH]; intros a; csimpl; [by rewrite app_nil_r|].
  rewrite IH. by rewrite <-app_assoc.
Qed.

Lemma pointer_string_snoc ptr t : pointer_string (ptr ++ [t]) = pointer_string ptr ++ lit "/" ++ escape t.
Proof. unfold pointer_string. by rewrite fold_left_app. Qed.

Lemma find_slash_end s : Forall (λ c, c ≠ 47) s → find_slash s = (s, None).
Proof. induction 1 as [|c s Hc _ IH]; simpl; [done|]. ztests. by rewrite IH. Qed.

Lemma find_slash_app s r : Forall (λ c, c ≠ 47) s → find_slash (s ++ 47 :: r) = (s, Some r).
Proof. induction 1 as [|c s Hc _ IH]; simpl; [done|]. ztests. by rewrite IH. Qed.

Lemma find_slash_spec s : let '(token, rest) := find_slash s in
  Forall (λ c, c ≠ 47) token ∧
  s = token ++ match rest with Some r => 47 :: r | None => [] end.
Proof.
  induction s as [|c s IH]; simpl; [done|]. destruct (Z.eqb_spec c 47) as [->|Hc]; [done|].
  destruct (find_slash s) as [token rest]. destruct IH as [IH ->]. by repeat constructor.
Qed.

Lemma split_tokens_text fuel t ptr : (length ptr < fuel)%nat →
  split_tokens fuel (escape t ++ pointer_text ptr) = Ok (t :: ptr).
Proof.
  revert t ptr. induction fuel as [|fuel IH]; intros t ptr Hf; [lia|]. cbn [split_tokens].
  destruct ptr as [|t2 ptr].
  - unfold pointer_text. simpl. rewrite app_nil_r, find_slash_end by apply escape_no_slash.
    by rewrite escape_well_escaped, unescape_escape.
  - unfold pointer_text. csimpl. rewrite find_slash_app by apply escape_no_slash.
    rewrite escape_well_escaped, unescape_escape. cbn [negb].
    change (concat _) with (pointer_text ptr). rewrite IH by (simpl in Hf; lia). done.
Qed.

Lemma pointer_text_length ptr : (length ptr ≤ length (pointer_text ptr))%nat.
Proof.
  unfold pointer_text. induction ptr as [|t ptr IH]; csimpl; [lia|]. rewrite length_app. lia.
Qed.

Lemma split_pointer_string ptr : split (pointer_string ptr) = Ok ptr.
Proof.
  rewrite pointer_string_text. destruct ptr as [|t ptr]; [done|].
  unfold split. change (pointer_text (t :: ptr)) with (47 :: (escape t ++ pointer_text ptr)).
  cbn [Z.eqb Pos.eqb negb length]. apply split_tokens_text.
  rewrite length_app. pose proof (pointer_text_length ptr). lia.
Qed.

Lemma split_tokens_inv fuel s ptr : split_tokens fuel s = Ok ptr → 47 :: s = pointer_text ptr.
Proof.
  revert s ptr. induction fuel as [|fuel IH]; intros s ptr H; [done|]. cbn [split_tokens] in H.
  pose proof (find_slash_spec s) as Hs. destruct (find_slash s) as [token rest].
  destruct Hs as [Ht ->]. destruct (well_escaped token) eqn:Hw; [|done]. cbn [negb] in H.
  destruct (well_escaped_inv (length token) token) as [t ->]; [done..|].
  rewrite unescape_escape in H. destruct rest as [r|].
  - apply bind_Ok_inv in H as (ptr' & H%IH & [= <-]). rewrite H. by unfold pointer_text.
  - simplify_eq. by unfold pointer_text.
Qed.

(** C26. The text of a JSON pointer and its reference tokens determine each other:
    [split] accepts exactly the texts that [to_string] produces and returns the
    tokens they were produced from, whatever characters the tokens contain. *)
Theorem pointer_split_iff (reference_string : list Z) (ptr : list (list Z)) :
  split reference_string = Ok ptr ↔ reference_string = pointer_string ptr.
Proof.
  split; [|by intros ->; apply split_pointer_string]. rewrite pointer_string_text.
  unfold split. destruct reference_string as [|c s]; intros H; [by simplify_eq|].
  destruct (Z.eqb_spec c 47) as [->|]; [|done]. by apply split_tokens_inv in H.
Qed.
