(* ===== verification/JsonModifiers.v ===== *)
(** Constructors, lookup and the modifiers of [basic_json] that work with
    iterators.

    The value an operation is called on lives at the address [this]; an operation
    that changes it returns the new value.  Ranges that are given by iterators come
    with the value [src] that the iterators point to. *)

From S2P Require Import Prelude JsonValue JsonAccess JsonIterators JsonPointer.

(** ** Constructors *)

(** [basic_json(const value_t)]. *)
Definition json_of_type (v : value_t) : json :=
  match v with
  | t_object => JObject []
  | t_array => JArray []
  | t_string => JString []
  | t_boolean => JBool false
  | t_number_integer => JInt 0
  | t_number_unsigned => JUInt 0
  | t_number_float => JFloat 0
  | t_null => JNull
  | t_discarded => JDiscarded
  end.

(** An element of an initializer list that can become a member: an array of two
    whose first element is a string. *)
Definition is_member (e : json) : bool :=
  match e with JArray [JString _; _] => true | _ => false end.

(** [emplace] of such an element. *)
Definition emplace_member (o : list (list Z * json)) (e : json) : list (list Z * json) :=
  match e with JArray [JString k; v] => omap_emplace k v o | _ => o end.

(** [basic_json(initializer_list_t, bool type_deduction, value_t manual_type)]. *)
Definition init_json (init : list json) (type_deduction : bool) (manual_type : value_t) :
    result json :=
  let is_an_object := forallb is_member init in
  let is_an_object :=
    if negb type_deduction && bool_decide (manual_type = t_array) then false else is_an_object in
  if negb type_deduction && bool_decide (manual_type = t_object) && negb is_an_object
  then Throw (type_error_create 301 (lit "cannot create object from initializer list"))
  else if is_an_object then Ok (JObject (fold_left emplace_member init []))
  else Ok (JArray init).

(** [array(init)] and [object(init)]. *)
Definition json_array (init : list json) : result json := init_json init false t_array.
Definition json_object (init : list json) : result json := init_json init false t_object.

(** [basic_json(size_type, const basic_json&)]. *)
Definition json_fill (cnt : Z) (val : json) : result json :=
  if vector_max_size <? cnt then Throw std_length_error
  else Ok (JArray (replicate (Z.to_nat cnt) val)).

(** The elements between two positions of a container. *)
Definition range {A} (l : list A) (first last : option Z) : result (list A) :=
  match first, last with
  | Some p, Some q =>
      if (0 <=? p) && (p <=? q) && (q <=? Z.of_nat (length l))
      then Ok (take (Z.to_nat (q - p)) (drop (Z.to_nat p) l))
      else Throw out_of_bounds
  | _, _ => Throw out_of_bounds
  end.

(** [basic_json(InputIT first, InputIT last)]. *)
Definition json_of_range (first last : iter) (src : json) : result json :=
  if (m_object first =? 0) || (m_object last =? 0) then Throw assert_failure
  else if negb (m_object first =? m_object last)
  then Throw (invalid_iterator_create 201 (lit "iterators are not compatible"))
  else
    match src with
    | JObject o =>
        r ← range o (object_iterator (m_it first)) (object_iterator (m_it last)); mret (JObject r)
    | JArray a =>
        r ← range a (array_iterator (m_it first)) (array_iterator (m_it last)); mret (JArray r)
    | JNull | JDiscarded =>
        Throw (invalid_iterator_create 206 (lit "cannot construct with iterators from " ++ type_name src))
    | src =>
        if negb (is_begin (primitive_iterator (m_it first))) ||
           negb (is_end (primitive_iterator (m_it last)))
        then Throw (invalid_iterator_create 204 (lit "iterators out of range"))
        else Ok src
    end.

(** ** Lookup *)

(** [empty]. *)
Definition json_empty (j : json) : bool :=
  match j with
  | JNull => true
  | JArray a => match a with [] => true | _ => false end
  | JObject o => match o with [] => true | _ => false end
  | _ => false
  end.

(** The position of a key; the end when it is missing ([std::map::find]). *)
Fixpoint omap_position {V} (k : list Z) (m : list (list Z * V)) : nat :=
  match m with
  | [] => 0
  | (k', _) :: m => match string_compare k k' with Eq => 0 | _ => S (omap_position k m) end
  end.

(** [find(key)] and [count(key)]. *)
Definition json_find (this : Z) (key : list Z) (j : json) : iter :=
  match j with
  | JObject o => set_object (Some (Z.of_nat (omap_position key o))) (json_end this j)
  | _ => json_end this j
  end.

Definition json_count (key : list Z) (j : json) : Z :=
  match j with
  | JObject o => match omap_find key o with Some _ => 1 | None => 0 end
  | _ => 0
  end.

Definition not_for_value (j : json) : exn :=
  type_error_create 306 (lit "cannot use value() with " ++ type_name j).

(** [value(key, default_value)], where the value type is [basic_json]. *)
Definition json_value (this : Z) (key : list Z) (default_value : json) (j : json) : result json :=
  match j with
  | JObject _ =>
      let it := json_find this key j in
      found ← iter_ne it (json_end this j) j;
      if found : bool then '(v, _) ← iter_deref read it j; mret v else Ok default_value
  | j => Throw (not_for_value j)
  end.

(** [value(ptr, default_value)]: only [out_of_range] is caught. *)
Definition json_value_at (ptr : json_pointer) (default_value : json) (j : json) : result json :=
  match j with
  | JObject _ =>
      match get_checked ptr read j with
      | Ok (v, _) => Ok v
      | Throw (out_of_range _ _) => Ok default_value
      | Throw e => Throw e
      | NoFuel => NoFuel
      end
  | j => Throw (not_for_value j)
  end.

(** [front] and [back]. *)
Definition json_front {A} (use : ref_use A) (this : Z) (j : json) : result (A * json) :=
  iter_deref use (json_begin this j) j.

Definition json_back {A} (use : ref_use A) (this : Z) (j : json) : result (A * json) :=
  tmp ← iter_decr (json_end this j) j; iter_deref use tmp j.

(** ** Modifiers *)

Definition misfit (id : Z) (what : list Z) : exn := invalid_iterator_create id what.

(** Remove the elements between two positions of a container. *)
Definition erase_between {A} (l : list A) (first last : option Z) : result (option Z * list A) :=
  _ ← range l first last;
  let p := default 0 first in
  let q := default 0 last in
  mret (Some p, take (Z.to_nat p) l ++ drop (Z.to_nat q) l).

Definition next_position (p : option Z) : option Z := (λ p, p + 1) <$> p.

(** [erase(pos)]. *)
Definition erase_iter (this : Z) (pos : iter) (j : json) : result (iter * json) :=
  if negb (this =? m_object pos)
  then Throw (misfit 202 (lit "iterator does not fit current value"))
  else
    let result := json_end this j in
    match j with
    | JObject o =>
        let p := object_iterator (m_it pos) in
        '(p, o) ← erase_between o p (next_position p); mret (set_object p result, JObject o)
    | JArray a =>
        let p := array_iterator (m_it pos) in
        '(p, a) ← erase_between a p (next_position p); mret (set_array p result, JArray a)
    | JNull | JDiscarded =>
        Throw (type_error_create 307 (lit "cannot use erase() with " ++ type_name j))
    | _ =>
        if negb (is_begin (primitive_iterator (m_it pos)))
        then Throw (misfit 205 (lit "iterator out of range"))
        else Ok (result, JNull)
    end.

(** [erase(first, last)]. *)
Definition erase_range (this : Z) (first last : iter) (j : json) : result (iter * json) :=
  if negb (this =? m_object first) || negb (this =? m_object last)
  then Throw (misfit 203 (lit "iterators do not fit current value"))
  else
    let result := json_end this j in
    match j with
    | JObject o =>
        '(p, o) ← erase_between o (object_iterator (m_it first)) (object_iterator (m_it last));
        mret (set_object p result, JObject o)
    | JArray a =>
        '(p, a) ← erase_between a (array_iterator (m_it first)) (array_iterator (m_it last));
        mret (set_array p result, JArray a)
    | JNull | JDiscarded =>
        Throw (type_error_create 307 (lit "cannot use erase() with " ++ type_name j))
    | _ =>
        if negb (is_begin (primitive_iterator (m_it first))) ||
           negb (is_end (primitive_iterator (m_it last)))
        then Throw (misfit 204 (lit "iterators out of range"))
        else Ok (result, JNull)
    end.

Definition no_insert (j : json) : exn :=
  type_error_create 309 (lit "cannot use insert() with " ++ type_name j).

(** [std::vector::insert] of some elements; it returns the position of the first. *)
Definition insert_elements (a : list json) (p : option Z) (vals : list json) :
    result (option Z * list json) :=
  match p with
  | Some p =>
      if negb ((0 <=? p) && (p <=? Z.of_nat (length a))) then Throw out_of_bounds
      else if vector_max_size - Z.of_nat (length a) <? Z.of_nat (length vals) then Throw std_length_error
      else Ok (Some p, take (Z.to_nat p) a ++ vals ++ drop (Z.to_nat p) a)
  | None => Throw out_of_bounds
  end.

(** The part that the overloads of [insert] for arrays share: the value is an array,
    and [pos] fits it. *)
Definition insert_array (this : Z) (pos : iter) (j : json)
    (vals : list json → result (list json)) : result (iter * json) :=
  match j with
  | JArray a =>
      if negb (m_object pos =? this)
      then Throw (misfit 202 (lit "iterator does not fit current value"))
      else
        vals ← vals a;
        '(p, a) ← insert_elements a (array_iterator (m_it pos)) vals;
        mret (set_array p (iter_of this), JArray a)
  | j => Throw (no_insert j)
  end.

(** [insert(pos, val)], [insert(pos, cnt, val)], [insert(pos, ilist)]. *)
Definition insert_value (this : Z) (pos : iter) (val j : json) : result (iter * json) :=
  insert_array this pos j (λ _, Ok [val]).

Definition insert_count (this : Z) (pos : iter) (cnt : Z) (val j : json) : result (iter * json) :=
  insert_array this pos j (λ a,
    if vector_max_size - Z.of_nat (length a) <? cnt then Throw std_length_error
    else Ok (replicate (Z.to_nat cnt) val)).

Definition insert_list (this : Z) (pos : iter) (ilist : list json) (j : json) : result (iter * json) :=
  insert_array this pos j (λ _, Ok ilist).

(** [insert(pos, first, last)]: the array iterators are used whatever the type of
    the value that [first] and [last] point to. *)
Definition insert_range (this : Z) (pos first last : iter) (src j : json) : result (iter * json) :=
  insert_array this pos j (λ _,
    if negb (m_object first =? m_object last)
    then Throw (misfit 210 (lit "iterators do not fit"))
    else if m_object first =? this
    then Throw (misfit 211 (lit "passed iterators may not belong to container"))
    else
      match src with
      | JArray b => range b (array_iterator (m_it first)) (array_iterator (m_it last))
      | _ => Throw out_of_bounds
      end).

(** [insert(first, last)] for objects. *)
Definition insert_members (first last : iter) (src j : json) : result json :=
  match j with
  | JObject o =>
      if negb (m_object first =? m_object last)
      then Throw (misfit 210 (lit "iterators do not fit"))
      else
        match src with
        | JObject b =>
            r ← range b (object_iterator (m_it first)) (object_iterator (m_it last));
            mret (JObject (fold_left (λ o kv, omap_emplace kv.1 kv.2 o) r o))
        | _ => Throw (misfit 202 (lit "iterators first and last must point to objects"))
        end
  | j => Throw (no_insert j)
  end.

(** [update(first, last)]. *)
Definition update_range (first last : iter) (src j : json) : result json :=
  let j := match j with JNull => JObject [] | j => j end in
  match j with
  | JObject o =>
      if negb (m_object first =? m_object last)
      then Throw (misfit 210 (lit "iterators do not fit"))
      else
        match src with
        | JObject b =>
            r ← range b (object_iterator (m_it first)) (object_iterator (m_it last));
            mret (JObject (fold_left (λ o kv, omap_assign kv.1 kv.2 o) r o))
        | _ => Throw (misfit 202 (lit "iterators first and last must point to objects"))
        end
  | j => Throw (type_error_create 312 (lit "cannot use update() with " ++ type_name j))
  end.

(** [emplace_back] and [emplace]. *)
Definition emplace_back (val j : json) : result json :=
  match j with
  | JNull => Ok (JArray [val])
  | JArray a => Ok (JArray (a ++ [val]))
  | j => Throw (type_error_create 311 (lit "cannot use emplace_back() with " ++ type_name j))
  end.

Definition emplace (this : Z) (key : list Z) (val j : json) : result ((iter * bool) * json) :=
  let j := match j with JNull => JObject [] | j => j end in
  match j with
  | JObject o =>
      let o' := omap_emplace key val o in
      mret ((set_object (Some (Z.of_nat (omap_position key o'))) (json_begin this (JObject o')),
             match omap_find key o with Some _ => false | None => true end), JObject o')
  | j => Throw (type_error_create 311 (lit "cannot use emplace() with " ++ type_name j))
  end.

(** [push_back(initializer_list_t)]: two elements, of which the first is a string,
    are a member when the value is an object. *)
Definition push_back_list (init : list json) (j : json) : result json :=
  match j, init with
  | JObject _, [JString key; val] => push_back_member key val j
  | _, _ => v ← init_json init true t_array; push_back v j
  end.

(** [swap]: with another value, with an array, an object and a string. *)
Definition swap (other j : json) : json * json := (j, other).

Definition no_swap (j : json) : exn :=
  type_error_create 310 (lit "cannot use swap() with " ++ type_name j).

Definition swap_array (other : list json) (j : json) : result (list json * json) :=
  match j with JArray a => Ok (a, JArray other) | j => Throw (no_swap j) end.
Definition swap_object (other : list (list Z * json)) (j : json) : result (list (list Z * json) * json) :=
  match j with JObject o => Ok (o, JObject other) | j => Throw (no_swap j) end.
Definition swap_string (other : list Z) (j : json) : result (list Z * json) :=
  match j with JString s => Ok (s, JString other) | j => Throw (no_swap j) end.

(** ** Facts about lookup *)

Lemma omap_position_find {V} k (m : list (list Z * V)) :
  match omap_find k m with
  | Some v => m !! omap_position k m = Some (k, v)
  | None => omap_position k m = length m
  end.
Proof.
  induction m as [|[k' v'] m IH]; simpl; [done|]. destruct (string_compare k k') eqn:E.
  - by apply string_compare_eq in E as <-.
  - destruct (omap_find k m); simpl; [done|]. by f_equal.
  - destruct (omap_find k m); simpl; [done|]. by f_equal.
Qed.

(** [value(key, default)] is the member or the default; [count] tells which. *)
Lemma json_value_spec this key default_value o : this ≠ 0 →
  json_value this key default_value (JObject o) = Ok (default default_value (omap_find key o)) ∧
  json_count key (JObject o) = (if omap_find key o is Some _ then 1 else 0).
Proof.
  intros Ht. split; [|done]. unfold json_value.
  assert (json_find this key (JObject o) = iter_at this (JObject o) (omap_position key o)) as -> by done.
  rewrite end_at, iter_ne_at by done. cbn [mbind res_bind items].
  pose proof (omap_position_find key o) as H. destruct (omap_find key o) as [v|].
  - pose proof (lookup_lt_Some _ _ _ H). rewrite (proj2 (Nat.eqb_neq _ _)) by lia. cbn [negb].
    by rewrite (iter_deref_at this Ht (JObject o) _ (key, v) H).
  - by rewrite H, Nat.eqb_refl.
Qed.

(** [front] and [back] are the first and the last element; without one, the
    behaviour is undefined for containers and an exception for null. *)
Lemma json_front_spec this j : this ≠ 0 →
  match items j with
  | kv :: _ => json_front read this j = Ok (kv.2, j)
  | [] => json_front read this j = Throw (if j is JNull then cannot_get_value else assert_failure)
  end.
Proof.
  intros Ht. unfold json_front. rewrite begin_at. destruct (items j) as [|kv l] eqn:E.
  - unfold iter_deref. rewrite initialized_at by done.
    destruct j as [|[]|[]| | | | | |]; try done.
  - apply (iter_deref_at this Ht). by rewrite E.
Qed.

Lemma json_back_spec this j : this ≠ 0 →
  match last (items j) with
  | Some kv => json_back read this j = Ok (kv.2, j)
  | None => json_back read this j = Throw (if j is JNull then cannot_get_value else out_of_bounds)
  end.
Proof.
  intros Ht. unfold json_back. rewrite end_at. destruct (items j) as [|kv l] eqn:E.
  - unfold iter_decr, iter_step. rewrite initialized_at by done.
    destruct j as [|[]|[]| | | | | |]; try done. by apply (initialized_at this Ht JNull 0).
  - assert (last (kv :: l) = items j !! length l) as ->.
    { rewrite E, last_lookup. done. }
    destruct (lookup_lt_is_Some_2 (items j) (length l)) as [kv' Hl]; [rewrite E; cbn; lia|].
    rewrite Hl. cbn [length]. rewrite iter_decr_at by (try done; rewrite E; done).
    by apply (iter_deref_at this Ht).
Qed.
