(* ===== verification/JsonStorage.v ===== *)
(** How json/json.hpp stores values: the union [json_value] and its tag, the
    allocations of [create], the destructor, the copy and move constructors,
    assignment, and the modifiers as code on the heap (see [Heap]).

    A value is a [cell]; the strings, arrays and objects it points to are blocks
    of the heap.  A [std::vector] or [std::map] is one block with the cells of its
    elements; the memory such a container takes for itself (buffers, nodes, keys)
    is only counted: taking it may fail ([tick]), and the container frees it.  The
    variables of a program are blocks too, so that two references to a variable
    refer to the same one. *)

From S2P Require Import Prelude JsonValue JsonAccess JsonModifiers Heap.
From AAC_tactics Require Import AAC.
From stdpp Require Import gmap.
#[local] Open Scope nat_scope.

Module Storage.

(** ** Data *)

(** [union json_value]: the member that was written last. *)
Inductive json_value : Type :=
  | u_object (p : Z)
  | u_array (p : Z)
  | u_string (p : Z)
  | u_boolean (b : bool)
  | u_number_integer (z : Z)
  | u_number_unsigned (z : Z)
  | u_number_float (f : Z)
  | u_unset.

(** The members of [basic_json]. *)
Record cell := mk_cell { c_type : value_t; c_value : json_value }.

Inductive block : Type :=
  | BRaw
  | BObject (o : list (list Z * cell))
  | BArray (a : list cell)
  | BString (s : list Z)
  | BValue (c : cell).

Abbreviation code := (ST block).

(** Undefined behaviour, or an assertion that fails. *)
Definition stuck {A} : code A := λ _, undefined.

Definition read_object (v : json_value) : code (Z * list (list Z * cell)) :=
  match v with
  | u_object p => b ← load p; match b with BObject o => mret (p, o) | _ => stuck end
  | _ => stuck
  end.

Definition read_array (v : json_value) : code (Z * list cell) :=
  match v with
  | u_array p => b ← load p; match b with BArray a => mret (p, a) | _ => stuck end
  | _ => stuck
  end.

Definition read_string (v : json_value) : code (Z * list Z) :=
  match v with
  | u_string p => b ← load p; match b with BString s => mret (p, s) | _ => stuck end
  | _ => stuck
  end.

(** The value of the variable [*this]. *)
Definition value (this : Z) : code cell :=
  b ← load this; match b with BValue c => mret c | _ => stuck end.

Definition assert_invariant (c : cell) : code () :=
  match c_type c, c_value c with
  | t_object, u_object p | t_array, u_array p | t_string, u_string p =>
      if bool_decide (p = 0%Z) then stuck else mret ()
  | t_object, _ | t_array, _ | t_string, _ => stuck
  | _, _ => mret ()
  end.

(** ** Destruction *)

(** [json_value::destroy]; [dtor] destroys an element of a container. *)
Definition destroy (dtor : cell → code ()) (v : json_value) (t : value_t) : code () :=
  match t with
  | t_object => '(p, o) ← read_object v; iterate (λ kv, dtor kv.2) o ;; deallocate p
  | t_array => '(p, a) ← read_array v; iterate dtor a ;; deallocate p
  | t_string => '(p, _) ← read_string v; deallocate p
  | _ => mret ()
  end.

(** [~basic_json]. *)
Fixpoint destruct_in (fuel : nat) (c : cell) : code () :=
  match fuel with
  | O => λ _, out_of_fuel
  | S fuel => assert_invariant c ;; destroy (destruct_in fuel) (c_value c) (c_type c)
  end.

(** Values do not nest deeper than there are blocks. *)
Definition enough {A} (x : nat → code A) : code A := λ m, x (S (size (heap m))) m.

Definition destruct (c : cell) : code () := enough (λ n, destruct_in n c).

(** A local variable [c] while [x] runs. *)
Definition scoped {A} (c : cell) (x : code A) : code A :=
  r ← on_raise x (destruct c); destruct c ;; mret r.

#[global] Arguments read_object : simpl never.
#[global] Arguments read_array : simpl never.
#[global] Arguments read_string : simpl never.
#[global] Arguments assert_invariant : simpl never.

(** How the parser drops the value of [result]: where the callback refuses an array
    or an object at its end, and at the beginning of [parse_internal]... *)
Definition discard_container (this : Z) : code () :=
  c ← value this;
  destroy destruct (c_value c) (c_type c) ;;
  store this (BValue (mk_cell t_discarded (c_value c))).

(** ... and where the callback refuses a value. *)
Definition discard_value (this : Z) : code () :=
  c ← value this;
  store this (BValue (mk_cell t_discarded (c_value c))).

(** [erase] of a primitive value, at its only position. *)
Definition erase_primitive (this : Z) : code () :=
  c ← value this;
  v ← (if bool_decide (c_type c = t_string)
       then '(p, _) ← read_string (c_value c); deallocate p ;; mret (u_string 0)
       else mret (c_value c));
  store this (BValue (mk_cell t_null v)) ;;
  assert_invariant (mk_cell t_null v).

Section operations.
Context (malloc : gmap Z block → Z).

(** ** Construction *)

(** [create]: the memory is given back where the constructor throws. *)
Definition create (construct : code block) : code Z :=
  p ← allocate malloc BRaw;
  on_raise (b ← construct; store p b) (deallocate p) ;;
  mret p.

(** [json_value(value_t)]. *)
Definition json_value_of (t : value_t) : code json_value :=
  match t with
  | t_object => u_object <$> create (mret (BObject []))
  | t_array => u_array <$> create (mret (BArray []))
  | t_string => u_string <$> create (tick ;; mret (BString []))
  | t_boolean => mret (u_boolean false)
  | t_number_integer => mret (u_number_integer 0)
  | t_number_unsigned => mret (u_number_unsigned 0)
  | t_number_float => mret (u_number_float 0)
  | t_null | t_discarded => mret u_unset
  end.

(** [external_constructor]: the type is set, then the value that [make] creates.
    What the value was before is not destroyed. *)
Definition construct (this : Z) (t : value_t) (make : code json_value) : code () :=
  c ← value this;
  store this (BValue (mk_cell t (c_value c))) ;;
  v ← make;
  store this (BValue (mk_cell t v)) ;;
  assert_invariant (mk_cell t v).

Definition construct_boolean (this : Z) (b : bool) : code () :=
  construct this t_boolean (mret (u_boolean b)).
Definition construct_float (this val : Z) : code () :=
  construct this t_number_float (mret (u_number_float val)).
Definition construct_unsigned (this val : Z) : code () :=
  construct this t_number_unsigned (mret (u_number_unsigned val)).
Definition construct_integer (this val : Z) : code () :=
  construct this t_number_integer (mret (u_number_integer val)).
Definition construct_string (this : Z) (s : list Z) : code () :=
  construct this t_string (u_string <$> create (tick ;; mret (BString s))).

(** The constructors from rvalues, which take the contents over. *)
Definition construct_string_move (this : Z) (s : list Z) : code () :=
  construct this t_string (u_string <$> create (mret (BString s))).
Definition construct_array_move (this : Z) (arr : list cell) : code () :=
  construct this t_array (u_array <$> create (mret (BArray arr))).
Definition construct_object_move (this : Z) (obj : list (list Z * cell)) : code () :=
  construct this t_object (u_object <$> create (mret (BObject obj))).

(** [basic_json(const value_t)]. *)
Definition of_type (t : value_t) : code cell :=
  v ← json_value_of t;
  assert_invariant (mk_cell t v) ;;
  mret (mk_cell t v).

(** The elements that [copy] makes of the range [l], behind the elements [acc] that
    are there already; where a copy throws, these are destroyed. *)
Fixpoint copy_range {A C} (copy : A → code C) (dtor : C → code ()) (acc : list C) (l : list A) :
    code (list C) :=
  match l with
  | [] => mret acc
  | x :: l =>
      y ← on_raise (copy x) (iterate dtor acc);
      copy_range copy dtor (acc ++ [y]) l
  end.

(** The copy constructors of the containers. *)
Definition copy_vector (copy : cell → code cell) (dtor : cell → code ()) (a : list cell) :
    code block :=
  (if a is [] then mret () else tick) ;;
  BArray <$> copy_range copy dtor [] a.

Definition copy_map (copy : cell → code cell) (dtor : cell → code ())
    (o : list (list Z * cell)) : code block :=
  BObject <$> copy_range (λ kv, tick ;; tick ;; pair kv.1 <$> copy kv.2) (λ kv, dtor kv.2) [] o.

(** The switch of the copy constructor. *)
Definition copy_value (copy : cell → code cell) (dtor : cell → code ()) (other : cell) :
    code json_value :=
  match c_type other with
  | t_object =>
      '(_, o) ← read_object (c_value other);
      u_object <$> create (copy_map copy dtor o)
  | t_array =>
      '(_, a) ← read_array (c_value other);
      u_array <$> create (copy_vector copy dtor a)
  | t_string =>
      '(_, s) ← read_string (c_value other);
      u_string <$> create (tick ;; mret (BString s))
  | t_boolean => if c_value other is u_boolean b then mret (u_boolean b) else stuck
  | t_number_integer =>
      if c_value other is u_number_integer z then mret (u_number_integer z) else stuck
  | t_number_unsigned =>
      if c_value other is u_number_unsigned z then mret (u_number_unsigned z) else stuck
  | t_number_float =>
      if c_value other is u_number_float f then mret (u_number_float f) else stuck
  | t_null | t_discarded => mret u_unset
  end.

(** [basic_json(const basic_json&)]. *)
Fixpoint copy_in (fuel : nat) (other : cell) : code cell :=
  match fuel with
  | O => λ _, out_of_fuel
  | S fuel =>
      assert_invariant other ;;
      v ← copy_value (copy_in fuel) (destruct_in fuel) other;
      assert_invariant (mk_cell (c_type other) v) ;;
      mret (mk_cell (c_type other) v)
  end.

Definition copy (other : cell) : code cell := enough (λ n, copy_in n other).

(** [basic_json(basic_json&&)]. *)
Definition move (other : Z) : code cell :=
  c ← value other;
  assert_invariant c ;;
  store other (BValue (mk_cell t_null (u_object 0))) ;;
  assert_invariant c ;;
  mret c.

(** [external_constructor] from an array and from an object, which it copies. *)
Definition construct_array (this : Z) (arr : list cell) : code () :=
  construct this t_array (u_array <$> create (copy_vector copy destruct arr)).
Definition construct_object (this : Z) (obj : list (list Z * cell)) : code () :=
  construct this t_object (u_object <$> create (copy_map copy destruct obj)).

(** [json_ref::moved_or_copied]. *)
Definition moved_or_copied (is_rvalue : bool) (value_ref : Z) : code cell :=
  if is_rvalue then move value_ref else c ← value value_ref; copy c.

(** ** Assignment and swap *)

(** [operator=(basic_json other)]; [other] is destroyed behind it, with the old
    value. *)
Definition assign (this : Z) (other : cell) : code () :=
  assert_invariant other ;;
  old ← value this;
  store this (BValue other) ;;
  assert_invariant other ;;
  destruct old.

(** [swap(reference)]. *)
Definition swap (this other : Z) : code () :=
  c ← value this; d ← value other;
  store this (BValue d) ;; store other (BValue c) ;;
  c ← value this; assert_invariant c.

(** ** Modifiers *)

Definition type_error_of (id : Z) (what : list Z) (t : value_t) : exn :=
  type_error_create id (what ++ type_name (json_of_type t)).

(** The first part of the modifiers: null becomes an empty value of type [t]. *)
Definition transform_null (this : Z) (t : value_t) : code () :=
  c ← value this;
  if bool_decide (c_type c = t_null) then
    store this (BValue (mk_cell t (c_value c))) ;;
    v ← json_value_of t;
    store this (BValue (mk_cell t v)) ;;
    assert_invariant (mk_cell t v)
  else mret ().

(** The last step of [std::vector::push_back], and of [std::map::insert]: the new
    element is there, and becomes a part of the container. *)
Definition append (v : json_value) (e : cell) : code () :=
  '(p, a) ← read_array v; store p (BArray (a ++ [e])).

Definition add_member (v : json_value) (key : list Z) (e : cell) : code () :=
  '(p, o) ← read_object v; store p (BObject (omap_emplace key e o)).

(** [push_back(const basic_json&)]. [std::vector::push_back] makes the copy before
    it touches the other elements. *)
Definition push_back (this val : Z) : code (result ()) :=
  c ← value this;
  if negb (bool_decide (c_type c = t_null ∨ c_type c = t_array)) then
    mret (Throw (type_error_of 308 (lit "cannot use push_back() with ") (c_type c)))
  else
    transform_null this t_array ;;
    c ← value this;
    tick ;;
    d ← value val; e ← copy d;
    append (c_value c) e ;;
    mret (Ok ()).

(** [push_back(basic_json&&)]. *)
Definition push_back_move (this val : Z) : code (result ()) :=
  c ← value this;
  if negb (bool_decide (c_type c = t_null ∨ c_type c = t_array)) then
    mret (Throw (type_error_of 308 (lit "cannot use push_back() with ") (c_type c)))
  else
    transform_null this t_array ;;
    c ← value this;
    tick ;;
    e ← move val;
    append (c_value c) e ;;
    d ← value val;
    store val (BValue (mk_cell t_null (c_value d))) ;;
    mret (Ok ()).

(** [push_back(const object_t::value_type&)]: [std::map::insert] copies the pair
    where the key is new. *)
Definition push_back_member (this : Z) (val : list Z * cell) : code (result ()) :=
  c ← value this;
  if negb (bool_decide (c_type c = t_null ∨ c_type c = t_object)) then
    mret (Throw (type_error_of 308 (lit "cannot use push_back() with ") (c_type c)))
  else
    transform_null this t_object ;;
    c ← value this;
    '(_, o) ← read_object (c_value c);
    match omap_find val.1 o with
    | Some _ => mret (Ok ())
    | None =>
        tick ;; tick ;;
        e ← copy val.2;
        add_member (c_value c) val.1 e ;;
        mret (Ok ())
    end.

(** [erase(const size_type)]. *)
Definition erase_idx (this idx : Z) : code (result ()) :=
  c ← value this;
  if bool_decide (c_type c = t_array) then
    '(p, a) ← read_array (c_value c);
    if (Z.of_nat (length a) <=? idx)%Z then
      mret (Throw (out_of_range_create 401
        (lit "array index " ++ to_string idx ++ lit " is out of range")))
    else match a !! Z.to_nat idx with
         | Some e => store p (BArray (delete (Z.to_nat idx) a)) ;; destruct e ;; mret (Ok ())
         | None => stuck
         end
  else mret (Throw (type_error_of 307 (lit "cannot use erase() with ") (c_type c))).

(** [erase(const typename object_t::key_type&)]. *)
Definition erase_key (this : Z) (key : list Z) : code (result Z) :=
  c ← value this;
  if bool_decide (c_type c = t_object) then
    '(p, o) ← read_object (c_value c);
    match omap_find key o with
    | Some e => store p (BObject (omap_erase key o)) ;; destruct e ;; mret (Ok 1%Z)
    | None => mret (Ok 0%Z)
    end
  else mret (Throw (type_error_of 307 (lit "cannot use erase() with ") (c_type c))).

(** [clear]. *)
Definition clear (this : Z) : code () :=
  c ← value this;
  match c_type c with
  | t_number_integer => store this (BValue (mk_cell (c_type c) (u_number_integer 0)))
  | t_number_unsigned => store this (BValue (mk_cell (c_type c) (u_number_unsigned 0)))
  | t_number_float => store this (BValue (mk_cell (c_type c) (u_number_float 0)))
  | t_boolean => store this (BValue (mk_cell (c_type c) (u_boolean false)))
  | t_string => '(p, _) ← read_string (c_value c); store p (BString [])
  | t_array => '(p, a) ← read_array (c_value c); iterate destruct a ;; store p (BArray [])
  | t_object =>
      '(p, o) ← read_object (c_value c); iterate (λ kv, destruct kv.2) o ;; store p (BObject [])
  | t_null | t_discarded => mret ()
  end.

(** The initializer list constructor, where every element is an array of a string
    and a value: the elements are moved or copied out of the list and their parts
    moved into the new object. *)
Definition emplace_element (v : json_value) (element : cell) : code () :=
  '(p, a) ← read_array (c_value element);
  match a with
  | key :: val :: a =>
      '(q, k) ← read_string (c_value key);
      tick ;;
      store q (BString []) ;;
      store p (BArray (key :: mk_cell t_null (u_object 0) :: a)) ;;
      '(_, o) ← read_object v;
      match omap_find k o with
      | Some _ => destruct val
      | None => add_member v k val
      end
  | _ => stuck
  end.

Fixpoint emplace_elements (v : json_value) (init : list (bool * Z)) : code () :=
  match init with
  | [] => mret ()
  | (is_rvalue, value_ref) :: init =>
      element ← moved_or_copied is_rvalue value_ref;
      scoped element (emplace_element v element) ;;
      emplace_elements v init
  end.

Definition init_object (init : list (bool * Z)) : code cell :=
  v ← json_value_of t_object;
  emplace_elements v init ;;
  assert_invariant (mk_cell t_object v) ;;
  mret (mk_cell t_object v).

End operations.
End Storage.
