(* ===== verification/StorageSpec.v ===== *)
(** What the storage of values means: the blocks of the heap that hold a value,
    and what the constructors, the destructor, assignment and the modifiers do
    with them, also where an allocation fails. *)

From S2P Require Import Prelude JsonValue JsonAccess JsonModifiers Heap JsonStorage.
From AAC_tactics Require Import AAC.
From stdpp Require Import gmap.
Import Storage.
#[local] Open Scope nat_scope.

(** ** The shape of a stored value *)

(** A member of an object, by the way its value is stored. *)
Definition stored_member (stored : json → cell → assertion block)
    (kv : list Z * json) (kc : list Z * cell) : assertion block :=
  match kv with (k, v) => lift (k = kc.1) ∗ stored v kc.2 end.

(** The cell [c] and the blocks below it hold [j]. *)
Fixpoint stored (j : json) (c : cell) : assertion block :=
  match j with
  | JNull => lift (c_type c = t_null)
  | JDiscarded => lift (c_type c = t_discarded)
  | JBool b => lift (c = mk_cell t_boolean (u_boolean b))
  | JInt z => lift (c = mk_cell t_number_integer (u_number_integer z))
  | JUInt z => lift (c = mk_cell t_number_unsigned (u_number_unsigned z))
  | JFloat f => lift (c = mk_cell t_number_float (u_number_float f))
  | JString s =>
      some_of (λ p, lift (c = mk_cell t_string (u_string p)) ∗ p ↦ BString s)
  | JArray a =>
      some_of (λ pl, lift (c = mk_cell t_array (u_array pl.1)) ∗
        pl.1 ↦ BArray pl.2 ∗ big_star stored a pl.2)
  | JObject o =>
      some_of (λ pl, lift (c = mk_cell t_object (u_object pl.1)) ∗
        pl.1 ↦ BObject pl.2 ∗ big_star (stored_member stored) o pl.2)
  end.

(** How deep a value nests. *)
Fixpoint nesting (j : json) : nat :=
  match j with
  | JArray a => S (list_max (nesting <$> a))
  | JObject o => S (list_max ((λ kv, match kv with (_, v) => nesting v end) <$> o))
  | _ => 1
  end.

(** The allocations a copy makes. *)
Fixpoint allocations (j : json) : nat :=
  match j with
  | JString _ => 2
  | JArray a => (if a is [] then 1 else 2) + sum_list (allocations <$> a)
  | JObject o => 1 + sum_list ((λ kv, match kv with (_, v) => 2 + allocations v end) <$> o)
  | _ => 0
  end.

Lemma nesting_array a n : nesting (JArray a) ≤ S n → Forall (λ j, nesting j ≤ n) a.
Proof. simpl. intros H%le_S_n%list_max_le. by apply Forall_fmap in H. Qed.

Lemma nesting_object o n : nesting (JObject o) ≤ S n → Forall (λ kv, nesting kv.2 ≤ n) o.
Proof.
  simpl. intros H%le_S_n%list_max_le. apply Forall_fmap in H.
  eapply Forall_impl; [exact H|]. by intros [k v].
Qed.

(** ** Primitive steps *)

(** A stored value keeps the class invariant. *)
Lemma stored_invariant j c h :
  stored j c h → c_type c = m_type j ∧ assert_invariant c = mret ().
Proof.
  destruct j; simpl; intros H.
  all: try (apply some_elim in H as [x H]; apply star_elim in H as (h1 & h2 & _ & _ & ->%lift_elim & H)).
  all: try (apply lift_elim in H).
  all: try (apply star_elim in H as (h3 & h4 & _ & _ & H & _)).
  all: try (apply pto_elim in H as [H _]).
  all: try (split; [done|unfold assert_invariant; simpl; by rewrite bool_decide_false]).
  all: subst; unfold assert_invariant; try (destruct c as [t v]; simpl in *; subst); done.
Qed.

Lemma hoare_stored {A} k j c P F Q R (x : code A) :
  P ≡ stored j c ∗ F →
  (c_type c = m_type j → assert_invariant c = mret () → hoare k (stored j c ∗ F) x Q R) →
  hoare k P x Q R.
Proof.
  intros HP Hx. eapply hoare_pre; [exact HP|].
  eapply hoare_pre; [by rewrite (fact_star _ _ (stored_invariant j c))|].
  opens. destruct_and?. by apply Hx.
Qed.

(** One call that does not throw, and what it returns. *)
Ltac call lem :=
  eapply hoare_call; [apply lem|solve [part]|]; intros ?; cbv beta; opens; simplify_eq; cbv beta iota.

(** The last call. *)
Ltac tail lem :=
  eapply hoare_tail; [apply lem|solve [part]|lia|intros; simpl in *; reorder|by intros ? ?%never_star].

(** The result. *)
Ltac ends := opens; apply hoare_done; intros; simpl in *; reorder.

Ltac read_block :=
  call @hoare_load; apply hoare_done; intros h H; reorder.

Lemma read_object_spec p o :
  hoare 0 (p ↦ BObject o) (read_object (u_object p)) (λ r, lift (r = (p, o)) ∗ p ↦ BObject o) never.
Proof. read_block. Qed.

Lemma read_array_spec p a :
  hoare 0 (p ↦ BArray a) (read_array (u_array p)) (λ r, lift (r = (p, a)) ∗ p ↦ BArray a) never.
Proof. read_block. Qed.

Lemma read_string_spec p s :
  hoare 0 (p ↦ BString s) (read_string (u_string p)) (λ r, lift (r = (p, s)) ∗ p ↦ BString s) never.
Proof. read_block. Qed.

Lemma value_spec this c :
  hoare 0 (this ↦ BValue c) (value this) (λ c', lift (c' = c) ∗ this ↦ BValue c) never.
Proof. read_block. Qed.

(** ** Destruction *)

Definition children (j : json) : list json :=
  match j with JArray a => a | JObject o => o.*2 | _ => [] end.

Lemma nesting_children j n : nesting j ≤ S n → Forall (λ j, nesting j ≤ n) (children j).
Proof.
  destruct j as [|o|a|s|b|z|z|f|]; simpl; intros H; try by constructor.
  - apply Forall_fmap. by apply nesting_object.
  - by apply nesting_array.
Qed.

Definition destroys (dtor : cell → code ()) (j : json) : Prop := ∀ c,
  hoare 0 (stored j c) (dtor c) (λ _, emp) never.

(** [destroy] gives back the blocks of the value, where [dtor] does for its
    elements. *)
Lemma json_value_destroy_spec dtor j c :
  Forall (destroys dtor) (children j) →
  hoare 0 (stored j c) (destroy dtor (c_value c) (c_type c)) (λ _, emp) never.
Proof.
  intros Hd. eapply hoare_stored; [part|]. intros Ht _. rewrite Ht.
  destruct j as [|o|a|s|b|z|z|f|]; simpl; try ends; opens; simplify_eq/=.
  - call read_object_spec.
    eapply hoare_call; [apply (hoare_iterate (stored_member stored) _ o)|part|].
    { rewrite Forall_fmap in Hd. eapply Forall_impl; [exact Hd|].
      intros [k v] Hv kc. simpl in *. opens. by apply Hv. }
    intros []. tail @hoare_deallocate.
  - call read_array_spec.
    eapply hoare_call; [by apply (hoare_iterate stored _ a)|part|].
    intros []. tail @hoare_deallocate.
  - call read_string_spec. tail @hoare_deallocate.
Qed.

Lemma destruct_in_spec n j c :
  nesting j ≤ n → hoare 0 (stored j c) (destruct_in n c) (λ _, emp) never.
Proof.
  revert j c. induction n as [|n IH]; intros j c Hn; [destruct j; simpl in Hn; lia|].
  eapply hoare_stored; [part|]. intros _ Hi. simpl. rewrite Hi, ret_bind.
  eapply hoare_pre; [apply star_emp|]. apply json_value_destroy_spec.
  eapply Forall_impl; [by apply nesting_children|]. intros j' Hj' c'. by apply IH.
Qed.

(** There are enough blocks to bound the nesting. *)
Lemma big_star_nesting {X A} (E : X → A → assertion block) (d : X → nat) xs l h :
  Forall (λ x, ∀ a h, E x a h → d x ≤ S (size h)) xs → big_star E xs l h →
  list_max (d <$> xs) ≤ S (size h).
Proof.
  intros Hd. revert l h. induction Hd as [|x xs Hx _ IH]; intros [|a l] h; simpl; [lia|lia|done|].
  intros (h1 & h2 & -> & D & H1 & H2)%star_elim.
  apply Hx in H1. apply IH in H2. rewrite map_size_disj_union by done. unfold fmap in H2. lia.
Qed.

Lemma stored_nesting j c h : stored j c h → nesting j ≤ S (size h).
Proof.
  revert c h. induction j as [|o IH|a IH| | | | | |] using json_induction; intros c h H; simpl in *; try lia;
    apply some_elim in H as [[p l] H];
    apply star_elim in H as (h1 & h2 & -> & D & _ & H);
    apply star_elim in H as (h3 & h4 & -> & D' & [_ ->]%pto_elim & H).
  all: rewrite !map_size_disj_union, map_size_singleton by done.
  - apply (big_star_nesting _ (λ kv, match kv with (_, v) => nesting v end)) in H; [lia|].
    eapply Forall_impl; [exact IH|]. intros [k v] Hv a h. simpl in *.
    intros [_ Hs]%lift_star. by eapply Hv.
  - apply (big_star_nesting _ nesting) in H; [lia|]. done.
Qed.

Lemma enough_spec {A} k j c F Q R (x : nat → code A) :
  (∀ n, nesting j ≤ n → hoare k (stored j c ∗ F) (x n) Q R) →
  hoare k (stored j c ∗ F) (enough x) Q R.
Proof.
  intros Hx m h hf H E D. unfold enough. apply (Hx (S (size (heap m)))) with h; [|done..].
  apply star_elim in H as (h1 & h2 & -> & D' & H1 & H2). apply stored_nesting in H1.
  rewrite E, !map_size_disj_union by done. lia.
Qed.

Lemma destruct_spec j c : hoare 0 (stored j c) (destruct c) (λ _, emp) never.
Proof.
  eapply hoare_pre; [apply part_all|]. apply enough_spec. intros n Hn.
  eapply hoare_pre; [apply star_emp|]. by apply destruct_in_spec.
Qed.

(** ** Construction *)

Section construction.
Context (malloc : gmap Z block → Z) (malloc_ok : allocates malloc).

Lemma create_spec k P G (construct : code block) :
  hoare k P construct G P →
  hoare (S k) P (create malloc construct) (λ p, some_of (λ b, p ↦ b ∗ G b)) P.
Proof.
  intros Hc.
  eapply (hoare_try _ 1 k _ emp P); [by apply hoare_allocate|by rewrite emp_star|lia| |].
  { intros h H. reorder. }
  intros p. simpl.
  eapply (hoare_try _ k 0 _ _ emp _ _ _ P); [|by rewrite star_emp|lia|intros; reorder|].
  - eapply (hoare_on_raise _ _ _ (p ↦ BRaw ∗ P)).
    + eapply (hoare_try _ k 0); [exact Hc|part|lia|intros; reorder|].
      intros b. simpl.
      eapply (hoare_tail _ _ _ _ _ (λ _, some_of (λ b, p ↦ b ∗ G b)));
        [apply hoare_store|part|lia| |by intros ? ?%never_star].
      intros [] h H. simpl in *. apply some_elim. exists b. reorder.
    + tail @hoare_deallocate.
  - intros []. apply hoare_done. intros. reorder.
Qed.

(** A copy of a range: all of it, or none. *)
Lemma copy_range_spec {X A} (E : X → A → assertion block) (cost : X → nat) cp dtor xs l ys acc :
  Forall (λ x, ∀ a, hoare (cost x) (E x a) (cp a) (λ a', E x a ∗ E x a') (E x a)) xs →
  Forall (λ x, ∀ a, hoare 0 (E x a) (dtor a) (λ _, emp) never) (ys ++ xs) →
  length ys = length acc →
  hoare (sum_list (cost <$> xs)) (big_star E xs l ∗ big_star E ys acc)
    (copy_range cp dtor acc l) (λ r, big_star E xs l ∗ big_star E (ys ++ xs) r)
    (big_star E xs l).
Proof.
  intros Hcp. revert l ys acc.
  induction Hcp as [|x xs Hx _ IH]; intros [|a l] ys acc Hd Hl; simpl.
  - rewrite app_nil_r. by apply hoare_done.
  - intros ??? []%never_star.
  - intros ??? []%never_star.
  - eapply (hoare_try _ (cost x) (sum_list (cost <$> xs)) _ (E x a ∗ big_star E ys acc)
      (big_star E xs l) (λ a', E x a ∗ E x a' ∗ big_star E ys acc) _ _ (E x a));
      [|aac_reflexivity|done|intros; reorder|].
    + eapply (hoare_on_raise _ _ _ (E x a ∗ big_star E ys acc)).
      * eapply hoare_tail; [apply Hx|part|lia|intros; simpl in *; reorder|intros; reorder].
      * eapply hoare_tail; [apply (hoare_iterate E _ ys)|part|lia|intros; simpl in *; reorder|by intros ? ?%never_star].
        by apply Forall_app in Hd as [? _].
    + intros b. simpl.
      eapply (hoare_tail _ _ (big_star E xs l ∗ big_star E (ys ++ [x]) (acc ++ [b])) (E x a));
        [apply (IH l (ys ++ [x]) (acc ++ [b]))| |lia| |intros; reorder].
      * by rewrite <-app_assoc.
      * by rewrite !length_app, Hl.
      * rewrite big_star_app by done. simpl. aac_reflexivity.
      * intros r h H. simpl in *. rewrite <-app_assoc in H. simpl in H. reorder.
Qed.

Lemma copy_all_spec {X A} (E : X → A → assertion block) (cost : X → nat) cp dtor xs l :
  Forall (λ x, ∀ a, hoare (cost x) (E x a) (cp a) (λ a', E x a ∗ E x a') (E x a)) xs →
  Forall (λ x, ∀ a, hoare 0 (E x a) (dtor a) (λ _, emp) never) xs →
  hoare (sum_list (cost <$> xs)) (big_star E xs l)
    (copy_range cp dtor [] l) (λ r, big_star E xs l ∗ big_star E xs r) (big_star E xs l).
Proof.
  intros Hcp Hd. eapply hoare_pre; [by rewrite <-star_emp|].
  by apply (copy_range_spec E cost cp dtor xs l [] []).
Qed.

Definition copies (cp : cell → code cell) (j : json) : Prop := ∀ c,
  hoare (allocations j) (stored j c) (cp c) (λ c', stored j c ∗ stored j c') (stored j c).

Lemma copy_vector_spec cp dtor a l :
  Forall (copies cp) a → Forall (destroys dtor) a →
  hoare (pred (allocations (JArray a))) (big_star stored a l) (copy_vector cp dtor l)
    (λ b, some_of (λ l', lift (b = BArray l') ∗ big_star stored a l ∗ big_star stored a l'))
    (big_star stored a l).
Proof.
  intros Hcp Hd. unfold copy_vector.
  eapply (hoare_try _ (if a is [] then 0 else 1) (sum_list (allocations <$> a)) _ _ emp
    (λ _, big_star stored a l) _ _ (big_star stored a l)); [|apply part_all| |intros; reorder|].
  - destruct a as [|j a], l as [|c l]; try by intros ??? [].
    + by apply hoare_done.
    + apply hoare_tick.
  - by destruct a.
  - intros []. simpl. apply hoare_fmap.
    eapply hoare_tail; [by apply (copy_all_spec stored allocations cp dtor a l)
                       |part|lia| |intros; reorder].
    intros l' h H. simpl in *. apply some_elim. exists l'. reorder.
Qed.

Lemma copy_map_spec cp dtor o l :
  Forall (λ kv, copies cp kv.2) o → Forall (λ kv, destroys dtor kv.2) o →
  hoare (pred (allocations (JObject o))) (big_star (stored_member stored) o l)
    (copy_map cp dtor l)
    (λ b, some_of (λ l', lift (b = BObject l') ∗ big_star (stored_member stored) o l ∗
      big_star (stored_member stored) o l'))
    (big_star (stored_member stored) o l).
Proof.
  intros Hcp Hd. unfold copy_map. apply hoare_fmap.
  eapply hoare_tail; [apply (copy_all_spec (stored_member stored)
      (λ kv, match kv with (_, v) => 2 + allocations v end) _ _ o l)
    |part|simpl; lia| |intros; reorder].
  - eapply Forall_impl; [exact Hcp|]. intros [k v] Hv [k' c]. simpl in *.
    opens. subst k'.
    eapply (hoare_try _ 1 (1 + allocations v)); [apply hoare_tick|apply part_all|lia|intros; reorder|].
    intros []. eapply (hoare_try _ 1 (allocations v)); [apply hoare_tick|apply part_all|lia|intros; reorder|].
    intros []. apply hoare_fmap. simpl.
    eapply hoare_tail; [apply Hv|part|lia|intros; simpl in *; reorder|intros; reorder].
  - eapply Forall_impl; [exact Hd|]. intros [k v] Hv [k' c]. simpl in *. opens. apply Hv.
  - intros l' h H. simpl in *. apply some_elim. exists l'. reorder.
Qed.

(** A new string. *)
Lemma create_string_spec P s :
  hoare 2 P (create malloc (tick ;; mret (BString s))) (λ p, p ↦ BString s ∗ P) P.
Proof.
  eapply hoare_tail; [apply (create_spec 1 P (λ b, lift (b = BString s) ∗ P))
                     |apply part_all|lia| |intros; reorder].
  - eapply (hoare_try _ 1 0); [apply hoare_tick|apply part_all|lia|intros; reorder|].
    intros []. apply hoare_done. intros. reorder.
  - intros p h H. simpl in H. opens_in H. subst. reorder.
Qed.

Lemma copy_value_spec cp dtor j c :
  Forall (copies cp) (children j) → Forall (destroys dtor) (children j) →
  hoare (allocations j) (stored j c) (copy_value malloc cp dtor c)
    (λ v, stored j c ∗ stored j (mk_cell (c_type c) v)) (stored j c).
Proof.
  intros Hcp Hd. eapply hoare_stored; [part|]. intros Ht _. unfold copy_value.
  destruct j as [|o|a|s|b|z|z|f|]; simpl in *; rewrite Ht; opens; simplify_eq/=; try ends.
  - call read_object_spec. apply hoare_fmap. rewrite Forall_fmap in Hcp, Hd.
    eapply (hoare_tail _ _ (big_star (stored_member stored) o _));
      [by apply create_spec, copy_map_spec|part|done| |].
    + intros p h H. simpl in H. opens_in H. simplify_eq/=.
      gives c0. gives (p, x0). reorder.
    + intros h H. gives c0. reorder.
  - call read_array_spec. apply hoare_fmap.
    eapply (hoare_tail _ _ (big_star stored a _));
      [by apply create_spec, copy_vector_spec|part|by destruct a| |].
    + intros p h H. simpl in H. opens_in H. simplify_eq/=.
      gives c0. gives (p, x0). reorder.
    + intros h H. gives c0. reorder.
  - call read_string_spec. apply hoare_fmap.
    eapply hoare_tail; [apply create_string_spec|apply part_all|done| |].
    + intros p h H. simpl in H. gives c0. gives p. reorder.
    + intros h H. gives c0. reorder.
Qed.

Lemma copy_in_spec n j c :
  nesting j ≤ n →
  hoare (allocations j) (stored j c) (copy_in malloc n c) (λ c', stored j c ∗ stored j c') (stored j c).
Proof.
  revert j c. induction n as [|n IH]; intros j c Hn; [destruct j; simpl in Hn; lia|].
  apply nesting_children in Hn.
  eapply hoare_stored; [part|]. intros _ Hi. simpl. rewrite Hi, ret_bind.
  eapply (hoare_try _ (allocations j) 0); [apply copy_value_spec|part|lia|intros; reorder|].
  - eapply Forall_impl; [exact Hn|]. intros j' Hj' c'. by apply IH.
  - eapply Forall_impl; [exact Hn|]. intros j' Hj' c'. by apply destruct_in_spec.
  - intros v. simpl. eapply (hoare_stored _ j (mk_cell (c_type c) v)); [part|].
    intros _ Hi'. rewrite Hi', ret_bind. ends.
Qed.

Lemma copy_spec j c :
  hoare (allocations j) (stored j c) (copy malloc c) (λ c', stored j c ∗ stored j c') (stored j c).
Proof.
  eapply hoare_pre; [apply part_all|]. apply enough_spec. intros n Hn.
  eapply hoare_pre; [apply star_emp|]. by apply copy_in_spec.
Qed.

Lemma of_type_spec t :
  hoare (allocations (json_of_type t)) emp (of_type malloc t) (stored (json_of_type t)) emp.
Proof.
  eapply (hoare_try _ (allocations (json_of_type t)) 0 _ emp emp
    (λ v, stored (json_of_type t) (mk_cell t v)) _ _ emp);
    [|apply part_all|lia|intros; reorder|].
  - destruct t; simpl; try (apply hoare_done; intros; reorder); apply hoare_fmap.
    + eapply hoare_tail; [apply (create_spec 0 emp (λ b, lift (b = BObject [])))
                         |apply part_all|done| |intros; reorder].
      * ends.
      * intros p h H. simpl in H. opens_in H. subst. gives (p, @nil (list Z * cell)). reorder.
    + eapply hoare_tail; [apply (create_spec 0 emp (λ b, lift (b = BArray [])))
                         |apply part_all|done| |intros; reorder].
      * ends.
      * intros p h H. simpl in H. opens_in H. subst. gives (p, @nil cell). reorder.
    + eapply hoare_tail; [apply create_string_spec|apply part_all|done| |intros; reorder].
      intros p h H. simpl in H. gives p. reorder.
  - intros v. simpl. eapply (hoare_stored _ (json_of_type t)); [part|].
    intros _ Hi. rewrite Hi, ret_bind. ends.
Qed.
End construction.
