(* ===== verification/StorageRefines.v ===== *)
(** The triples of the operations on variables: the storage implements the
    operations on values of [JsonAccess] and [JsonModifiers], also where an
    allocation fails. *)

From S2P Require Import Prelude JsonValue JsonAccess JsonModifiers Heap JsonStorage StorageSpec.
From AAC_tactics Require Import AAC.
From stdpp Require Import gmap.
Import Storage.
#[local] Open Scope nat_scope.

(** ** Variables *)

(** The variable at [p] holds [j]. *)
Definition holds (j : json) (p : Z) : assertion block :=
  some_of (λ c, p ↦ BValue c ∗ stored j c).

Lemma move_spec j p :
  hoare 0 (holds j p) (move p) (λ c, holds JNull p ∗ stored j c) never.
Proof.
  unfold holds. opens. unfold move. call value_spec.
  eapply (hoare_stored _ j); [part|]. intros _ Hi. rewrite Hi, ret_bind.
  call @hoare_store. rewrite ret_bind.
  apply hoare_done. intros h H. gives (mk_cell t_null (u_object 0)). simpl in *. reorder.
Qed.

Lemma assign_spec old j this c :
  hoare 0 (holds old this ∗ stored j c) (assign this c) (λ _, holds j this) never.
Proof.
  unfold holds, assign. opens.
  eapply (hoare_stored _ j c); [part|]. intros _ Hi. rewrite Hi, ret_bind.
  call value_spec. call @hoare_store. rewrite ret_bind.
  eapply hoare_tail; [apply (destruct_spec old)|part|lia| |by intros ? ?%never_star].
  intros [] h H. gives c. reorder.
Qed.

Lemma swap_spec i j p q :
  hoare 0 (holds i p ∗ holds j q) (swap p q) (λ _, holds j p ∗ holds i q) never.
Proof.
  unfold holds, swap. opens. call value_spec. call value_spec.
  call @hoare_store. call @hoare_store. call value_spec.
  eapply (hoare_stored _ j); [part|]. intros _ Hi. rewrite Hi.
  apply hoare_done. intros h H. gives c0. gives c. reorder.
Qed.

Lemma swap_self_spec j p : hoare 0 (holds j p) (swap p p) (λ _, holds j p) never.
Proof.
  unfold holds, swap. opens. call value_spec. call value_spec.
  call @hoare_store. call @hoare_store. call value_spec.
  eapply (hoare_stored _ j); [part|]. intros _ Hi. rewrite Hi.
  apply hoare_done. intros h H. gives c. reorder.
Qed.

(** A local variable while [x] runs. *)
Lemma scoped_spec {A} k j c P F Q R (x : code A) :
  P ≡ stored j c ∗ F → hoare k P x (λ a, stored j c ∗ Q a) (stored j c ∗ R) →
  hoare k P (scoped c x) Q R.
Proof.
  intros HP Hx. unfold scoped. rewrite <-(Nat.add_0_r k).
  apply (hoare_bind _ _ _ (λ a, stored j c ∗ Q a)).
  - eapply hoare_on_raise; [exact Hx|]. tail destruct_spec.
  - intros a. eapply hoare_call; [apply destruct_spec|part|]. intros []. ends.
Qed.

(** ** Discarding and erasing *)

Lemma discard_container_spec j this :
  hoare 0 (holds j this) (discard_container this) (λ _, holds JDiscarded this) never.
Proof.
  unfold holds, discard_container. opens. call value_spec.
  eapply hoare_call; [apply (json_value_destroy_spec destruct j)|part|].
  { apply Forall_forall. intros j' _ c'. apply destruct_spec. }
  intros []. eapply hoare_tail; [apply hoare_store|part|lia| |by intros ? ?%never_star].
  intros [] h H. simpl in *. gives (mk_cell t_discarded (c_value c)). reorder.
Qed.

(** The value that the callback refuses is not destroyed: its blocks stay, and
    nothing refers to them. *)
Lemma discard_value_spec j this :
  hoare 0 (holds j this) (discard_value this) (λ _, holds JDiscarded this ∗ some_of (stored j)) never.
Proof.
  unfold holds, discard_value. opens. call value_spec.
  eapply hoare_tail; [apply hoare_store|part|lia| |by intros ? ?%never_star].
  intros [] h H. simpl in *. gives (mk_cell t_discarded (c_value c)). gives c. reorder.
Qed.

Lemma erase_primitive_spec j this :
  JsonAccess.is_primitive j = true →
  hoare 0 (holds j this) (erase_primitive this) (λ _, holds JNull this) never.
Proof.
  intros Hp. unfold holds, erase_primitive. opens. call value_spec.
  eapply (hoare_stored _ j); [part|]. intros Ht _. rewrite Ht.
  assert (hoare 0 (stored j c)
    (if bool_decide (m_type j = t_string)
     then '(p, _) ← read_string (c_value c); deallocate p ;; mret (u_string 0)
     else mret (c_value c)) (λ _, emp) never) as Hv.
  { destruct j as [| | |s| | | | |]; try done; simpl; try ends.
    opens. subst c. call read_string_spec. call @hoare_deallocate. ends. }
  eapply hoare_call; [exact Hv|part|]. intros v. call @hoare_store.
  apply hoare_done. intros h H. simpl. gives (mk_cell t_null v). reorder.
Qed.

(** ** [external_constructor] *)

Section external_constructor.
Context (malloc : gmap Z block → Z) (malloc_ok : allocates malloc).

(** The variable gets its value; the blocks of the value it had before stay, and
    nothing refers to them.  Where the allocation fails, the variable is not a
    value: it is one only when its constructor has returned. *)
Lemma construct_spec k j0 j this t F F' make :
  hoare k F make (λ v, stored j (mk_cell t v) ∗ F') F →
  hoare k (holds j0 this ∗ F) (construct this t make)
    (λ _, holds j this ∗ some_of (stored j0) ∗ F')
    (some_of (λ c, this ↦ BValue c) ∗ some_of (stored j0) ∗ F).
Proof.
  intros Hmake. unfold holds at 1, construct. opens. call value_spec. call @hoare_store.
  eapply (hoare_try _ k 0); [exact Hmake|part|lia| |].
  { intros h H. gives (mk_cell t (c_value c)). gives c. reorder. }
  intros v. cbv beta. call @hoare_store. eapply (hoare_stored _ j (mk_cell t v)); [part|].
  intros _ Hi. rewrite Hi. apply hoare_done. intros h H. unfold holds.
  gives (mk_cell t v). gives c. reorder.
Qed.

(** On a value under construction, which is null: nothing is lost. *)
Definition under_construction (this : Z) : assertion block := some_of (λ c, this ↦ BValue c).

Lemma construct_null_spec k j this t F F' make :
  hoare k F make (λ v, stored j (mk_cell t v) ∗ F') F →
  hoare k (holds JNull this ∗ F) (construct this t make) (λ _, holds j this ∗ F')
    (under_construction this ∗ F).
Proof.
  intros Hmake. eapply hoare_conseq; [by apply (construct_spec k JNull j)|done|done| |].
  - intros [] h H. cbv beta in H. unfold stored in H. opens_in H. reorder.
  - intros h H. unfold stored, under_construction in *. opens_in H. gives x. reorder.
Qed.

Lemma construct_scalars this :
  (∀ b, hoare 0 (holds JNull this ∗ emp) (construct_boolean this b)
    (λ _, holds (JBool b) this ∗ emp) (under_construction this ∗ emp)) ∧
  (∀ z, hoare 0 (holds JNull this ∗ emp) (construct_integer this z)
    (λ _, holds (JInt z) this ∗ emp) (under_construction this ∗ emp)) ∧
  (∀ z, hoare 0 (holds JNull this ∗ emp) (construct_unsigned this z)
    (λ _, holds (JUInt z) this ∗ emp) (under_construction this ∗ emp)) ∧
  (∀ f, hoare 0 (holds JNull this ∗ emp) (construct_float this f)
    (λ _, holds (JFloat f) this ∗ emp) (under_construction this ∗ emp)).
Proof.
  split_and!; intros x; apply construct_null_spec; simpl; apply hoare_done; intros; reorder.
Qed.

Lemma construct_string_spec this s :
  hoare 2 (holds JNull this ∗ emp) (construct_string malloc this s)
    (λ _, holds (JString s) this ∗ emp) (under_construction this ∗ emp).
Proof.
  apply construct_null_spec, hoare_fmap.
  eapply hoare_tail; [by apply create_string_spec|apply part_all|done| |intros; reorder].
  intros p h H. simpl in *. gives p. reorder.
Qed.

(** [create] of a block that is there already. *)
Lemma create_block_spec b F :
  hoare 1 F (create malloc (mret b)) (λ p, p ↦ b ∗ F) F.
Proof.
  eapply hoare_tail; [apply (create_spec malloc malloc_ok 0 F (λ b', lift (b' = b) ∗ F))
                     |apply part_all|done| |intros; reorder].
  - apply hoare_done. intros. reorder.
  - intros p h H. simpl in H. opens_in H. subst. reorder.
Qed.

Lemma construct_moves this :
  (∀ s, hoare 1 (holds JNull this ∗ emp) (construct_string_move malloc this s)
    (λ _, holds (JString s) this ∗ emp) (under_construction this ∗ emp)) ∧
  (∀ a l, hoare 1 (holds JNull this ∗ big_star stored a l) (construct_array_move malloc this l)
    (λ _, holds (JArray a) this ∗ emp) (under_construction this ∗ big_star stored a l)) ∧
  (∀ o l, hoare 1 (holds JNull this ∗ big_star (stored_member stored) o l)
    (construct_object_move malloc this l)
    (λ _, holds (JObject o) this ∗ emp)
    (under_construction this ∗ big_star (stored_member stored) o l)).
Proof.
  split_and!; intros; apply construct_null_spec, hoare_fmap;
    (eapply hoare_tail; [apply create_block_spec|apply part_all|done| |intros; reorder]);
    intros p h H; simpl in *; [gives p|gives (p, l)|gives (p, l)]; reorder.
Qed.

Lemma construct_copies this :
  (∀ a l, hoare (allocations (JArray a)) (holds JNull this ∗ big_star stored a l)
    (construct_array malloc this l)
    (λ _, holds (JArray a) this ∗ big_star stored a l)
    (under_construction this ∗ big_star stored a l)) ∧
  (∀ o l, hoare (allocations (JObject o)) (holds JNull this ∗ big_star (stored_member stored) o l)
    (construct_object malloc this l)
    (λ _, holds (JObject o) this ∗ big_star (stored_member stored) o l)
    (under_construction this ∗ big_star (stored_member stored) o l)).
Proof.
  assert (∀ j, copies (copy malloc) j) as Hcp by (intros j c; by apply copy_spec).
  assert (∀ j, destroys destruct j) as Hd by (intros j c; apply destruct_spec).
  split; intros x l; apply construct_null_spec, hoare_fmap;
    (eapply hoare_tail; [apply create_spec; [done|]|apply part_all|..]);
    [by apply copy_vector_spec; apply Forall_forall|by destruct x| |intros; reorder
    |by apply copy_map_spec; apply Forall_forall|done| |intros; reorder];
    intros p h H; simpl in *; opens_in H; subst; gives (p, x1); reorder.
Qed.
End external_constructor.

(** ** Modifiers *)

(** The value after a modifier, which may have thrown. *)
Definition modified (f : json → result json) (j : json) : json :=
  match f j with Ok j' => j' | _ => j end.

(** Whether it has thrown. *)
Definition status {A} (r : result A) : result () := (λ _, ()) <$> r.

(** The members of an object are in the order of [std::map]. *)
Definition sorted_members (j : json) : Prop :=
  match j with JObject o => omap_sorted o | _ => True end.

Lemma type_name_of_type j : type_name (json_of_type (m_type j)) = type_name j.
Proof. by destruct j. Qed.

Lemma transform_null_skip malloc this c t :
  c_type c ≠ t_null →
  hoare 0 (this ↦ BValue c) (transform_null malloc this t) (λ _, this ↦ BValue c) never.
Proof.
  intros Hc. call value_spec. rewrite bool_decide_false by done. ends.
Qed.

(** The test for null of a modifier, where the value is of another type. *)
Ltac call_skip c Ht :=
  eapply hoare_call; [apply (transform_null_skip _ _ c); by rewrite Ht|part|]; intros [].

Lemma append_spec a j c e :
  hoare 0 (stored (JArray a) c ∗ stored j e) (append (c_value c) e)
    (λ _, stored (JArray (a ++ [j])) c) never.
Proof.
  unfold append. cbn [stored]. opens. subst c. call read_array_spec.
  eapply hoare_tail; [apply hoare_store|part|lia| |by intros ? ?%never_star].
  intros [] h H. gives (c0.1, c0.2 ++ [e]).
  revert H. apply equiv_at. rewrite big_star_snoc, lift_emp by done. aac_reflexivity.
Qed.

(** The members of an object and the cells of its map have the same keys. *)
Lemma members_keys o l h : big_star (stored_member stored) o l h → l.*1 = o.*1.
Proof.
  revert l h. induction o as [|[k v] o IH]; intros [|[k' c] l] h; simpl; try done.
  intros (h1 & h2 & _ & _ & H & Hs)%star_elim. apply lift_star in H as [-> _].
  f_equal. by eapply IH.
Qed.

Lemma members_find k o l j :
  l.*1 = o.*1 → omap_find k o = Some j →
  ∃ e, omap_find k l = Some e ∧ big_star (stored_member stored) o l ≡
    stored j e ∗ big_star (stored_member stored) (omap_erase k o) (omap_erase k l).
Proof.
  revert l. induction o as [|[k1 v] o IH]; intros [|[k2 c] l] Hk Hf; simplify_eq/=.
  destruct (string_compare k k1); simplify_eq/=.
  1: { exists c. split; [done|]. rewrite lift_emp by done. aac_reflexivity. }
  all: destruct (IH l) as (e & He & HE); [done..|]; exists e; (split; [done|]);
    rewrite HE; aac_reflexivity.
Qed.

Lemma members_emplace k o l :
  l.*1 = o.*1 → omap_find k o = None →
  omap_find k l = None ∧ ∀ j e,
    big_star (stored_member stored) (omap_emplace k j o) (omap_emplace k e l) ≡
    big_star (stored_member stored) o l ∗ stored j e.
Proof.
  revert l. induction o as [|[k1 v] o IH]; intros [|[k2 c] l] Hk Hf; simplify_eq/=.
  - split; [done|]. intros j e. rewrite lift_emp by done. aac_reflexivity.
  - destruct (string_compare k k1); simplify_eq/=;
      (destruct (IH l) as [He HE]; [done..|]; split; [done|]; intros j e).
    + rewrite !lift_emp by done. aac_reflexivity.
    + rewrite HE, !lift_emp by done. aac_reflexivity.
Qed.

Lemma hoare_keys {A} k o l P F Q R (x : code A) :
  P ≡ big_star (stored_member stored) o l ∗ F →
  (l.*1 = o.*1 → hoare k (big_star (stored_member stored) o l ∗ F) x Q R) → hoare k P x Q R.
Proof.
  intros HP Hx. eapply hoare_pre; [exact HP|].
  eapply hoare_pre; [by rewrite (fact_star _ _ (members_keys o l))|]. opens. by apply Hx.
Qed.

Lemma add_member_spec k o j c e :
  omap_find k o = None →
  hoare 0 (stored (JObject o) c ∗ stored j e) (add_member (c_value c) k e)
    (λ _, stored (JObject (omap_emplace k j o)) c) never.
Proof.
  intros Hf. unfold add_member. cbn [stored]. opens. subst c.
  eapply (hoare_keys _ o); [part|]. intros Hk. destruct (members_emplace k o _ Hk Hf) as [_ HE].
  call read_object_spec.
  eapply hoare_tail; [apply hoare_store|part|lia| |by intros ? ?%never_star].
  intros [] h H. gives (c0.1, omap_emplace k e c0.2).
  revert H. apply equiv_at. rewrite HE, lift_emp by done. aac_reflexivity.
Qed.

(** The map has the keys of the object. *)
Lemma find_member_spec k o c :
  hoare 0 (stored (JObject o) c) (read_object (c_value c))
    (λ r, lift (omap_find k r.2 = None ↔ omap_find k o = None) ∗ stored (JObject o) c) never.
Proof.
  cbn [stored]. opens. subst c. eapply (hoare_keys _ o); [part|]. intros Hk.
  eapply hoare_tail; [apply read_object_spec|part|lia| |by intros ? ?%never_star].
  intros r h H. cbv beta in H. opens_in H. subst r.
  assert (omap_find k c0.2 = None ↔ omap_find k o = None).
  { destruct (omap_find k o) as [j|] eqn:Hf; [|by destruct (members_emplace k o c0.2)].
    destruct (members_find k o c0.2 j) as (e & -> & _); done. }
  gives c0. reorder.
Qed.

Section modifiers.
Context (malloc : gmap Z block → Z) (malloc_ok : allocates malloc).

Lemma push_back_refuses j j0 :
  m_type j0 ≠ t_null → m_type j0 ≠ t_array →
  JsonAccess.push_back j j0 =
    Throw (type_error_create 308 (lit "cannot use push_back() with " ++ type_name j0)).
Proof. by destruct j0. Qed.

Lemma push_back_member_refuses k j j0 :
  m_type j0 ≠ t_null → m_type j0 ≠ t_object →
  JsonAccess.push_back_member k j j0 =
    Throw (type_error_create 308 (lit "cannot use push_back() with " ++ type_name j0)).
Proof. by destruct j0. Qed.

Lemma push_back_other_spec j0 j this val :
  m_type j0 ≠ t_null →
  hoare (S (allocations j)) (holds j0 this ∗ holds j val) (push_back malloc this val)
    (λ r, lift (r = status (JsonAccess.push_back j j0)) ∗
      holds (modified (JsonAccess.push_back j) j0) this ∗ holds j val)
    (holds j0 this ∗ holds j val).
Proof.
  intros Hn. unfold holds at 1 2, push_back. opens. call value_spec.
  eapply (hoare_stored _ j0); [part|]. intros Ht _. unfold type_error_of.
  rewrite Ht, type_name_of_type.
  destruct (decide (m_type j0 = t_array)) as [Ha|Ha].
  2:{ rewrite bool_decide_false by naive_solver. simpl. apply hoare_done. intros h H.
      unfold status, modified. rewrite push_back_refuses by done.
      unfold holds. gives c. gives c0. reorder. }
  rewrite bool_decide_true by auto. cbn [negb].
  call_skip c Ht. call value_spec.
  eapply (hoare_try _ 1 (allocations j)); [apply hoare_tick|apply part_all|lia| |].
  { intros h H. unfold holds. gives c. gives c0. reorder. }
  intros []. call value_spec.
  eapply (hoare_try _ (allocations j) 0); [by apply copy_spec|part|lia| |].
  { intros h H. unfold holds. gives c. gives c0. reorder. }
  intros e. destruct j0 as [| |a| | | | | |]; try done.
  eapply hoare_call; [apply (append_spec a j c e)|part|].
  intros []. apply hoare_done. intros h H. unfold holds. gives c. gives c0. simpl in *. reorder.
Qed.

Lemma push_back_self_spec j this :
  m_type j ≠ t_null →
  hoare (S (allocations j)) (holds j this) (push_back malloc this this)
    (λ r, lift (r = status (JsonAccess.push_back j j)) ∗
      holds (modified (JsonAccess.push_back j) j) this)
    (holds j this).
Proof.
  intros Hn. unfold holds at 1, push_back. opens. call value_spec.
  eapply (hoare_stored _ j); [part|]. intros Ht _. unfold type_error_of.
  rewrite Ht, type_name_of_type.
  destruct (decide (m_type j = t_array)) as [Ha|Ha].
  2:{ rewrite bool_decide_false by naive_solver. simpl. apply hoare_done. intros h H.
      unfold status, modified. rewrite push_back_refuses by done.
      unfold holds. gives c. reorder. }
  rewrite bool_decide_true by auto. cbn [negb].
  call_skip c Ht. call value_spec.
  eapply (hoare_try _ 1 (allocations j)); [apply hoare_tick|apply part_all|lia| |].
  { intros h H. unfold holds. gives c. reorder. }
  intros []. call value_spec.
  eapply (hoare_try _ (allocations j) 0); [by apply copy_spec|part|lia| |].
  { intros h H. unfold holds. gives c. reorder. }
  intros e. destruct j as [| |a| | | | | |]; try done.
  eapply hoare_call; [apply (append_spec a (JArray a) c e)|part|].
  intros []. apply hoare_done. intros h H. unfold holds. gives c. simpl in *. reorder.
Qed.

Lemma push_back_move_spec j0 j this val :
  m_type j0 ≠ t_null →
  hoare 1 (holds j0 this ∗ holds j val) (push_back_move malloc this val)
    (λ r, lift (r = status (JsonAccess.push_back j j0)) ∗
      holds (modified (JsonAccess.push_back j) j0) this ∗
      holds (if is_array j0 then JNull else j) val)
    (holds j0 this ∗ holds j val).
Proof.
  intros Hn. unfold holds at 1, push_back_move. opens. call value_spec.
  eapply (hoare_stored _ j0); [part|]. intros Ht _. unfold type_error_of.
  rewrite Ht, type_name_of_type.
  destruct (decide (m_type j0 = t_array)) as [Ha|Ha].
  2:{ rewrite bool_decide_false by naive_solver. simpl. apply hoare_done. intros h H.
      unfold status, modified. rewrite push_back_refuses by done.
      assert (is_array j0 = false) as -> by (by destruct j0).
      unfold holds at 1. gives c. simpl in *. reorder. }
  rewrite bool_decide_true by auto. cbn [negb].
  call_skip c Ht. call value_spec.
  eapply (hoare_try _ 1 0); [apply hoare_tick|apply part_all|lia| |].
  { intros h H. unfold holds at 1. gives c. reorder. }
  intros []. eapply hoare_call; [apply move_spec|part|]. intros e.
  destruct j0 as [| |a| | | | | |]; try done.
  eapply hoare_call; [apply (append_spec a j c e)|part|]. intros [].
  unfold holds at 1. opens. change (stored JNull c0) with (lift (B:=block) (c_type c0 = t_null)).
  opens. call value_spec. call @hoare_store.
  apply hoare_done. intros h Hh. unfold holds. gives c.
  gives (mk_cell t_null (c_value c0)). simpl in *. reorder.
Qed.

(** [push_back] of a member; the pair is the caller's. *)
Lemma push_back_member_spec j0 k j c this :
  m_type j0 ≠ t_null → sorted_members j0 →
  hoare (2 + allocations j) (holds j0 this ∗ stored j c) (push_back_member malloc this (k, c))
    (λ r, lift (r = status (JsonAccess.push_back_member k j j0)) ∗
      holds (modified (JsonAccess.push_back_member k j) j0) this ∗ stored j c)
    (holds j0 this ∗ stored j c).
Proof.
  intros Hn Hs. unfold holds at 1, push_back_member. opens. call value_spec.
  eapply (hoare_stored _ j0); [part|]. intros Ht _. unfold type_error_of.
  rewrite Ht, type_name_of_type.
  destruct (decide (m_type j0 = t_object)) as [Ha|Ha].
  2:{ rewrite bool_decide_false by naive_solver. simpl. apply hoare_done. intros h H.
      unfold status, modified. rewrite push_back_member_refuses by done.
      unfold holds. gives c0. simpl in *. reorder. }
  rewrite bool_decide_true by auto. cbn [negb].
  call_skip c0 Ht. call value_spec. destruct j0 as [|o| | | | | | |]; try done.
  eapply hoare_call; [apply (find_member_spec k)|part|]. intros [p l]. cbn [fst snd]. opens.
  unfold status, modified. cbn [JsonAccess.push_back_member].
  destruct (omap_find k o) as [v|] eqn:Hf.
  { destruct (omap_find k l) eqn:Hl; [|naive_solver]. apply hoare_done. intros h Hh.
    rewrite omap_emplace_found by (rewrite ?Hf; eauto). unfold holds. gives c0. reorder. }
  destruct (omap_find k l) eqn:Hl; [naive_solver|].
  eapply (hoare_try _ 1 (1 + allocations j)); [apply hoare_tick|apply part_all|lia| |].
  { intros h Hh. unfold holds. gives c0. reorder. }
  intros []. eapply (hoare_try _ 1 (allocations j)); [apply hoare_tick|apply part_all|lia| |].
  { intros h Hh. unfold holds. gives c0. reorder. }
  intros []. eapply (hoare_try _ (allocations j) 0); [by apply copy_spec|part|lia| |].
  { intros h Hh. unfold holds. gives c0. reorder. }
  intros e. eapply hoare_call; [by apply (add_member_spec k o j c0 e)|part|]. intros [].
  apply hoare_done. intros h Hh. unfold holds. gives c0. reorder.
Qed.
End modifiers.

Lemma erase_idx_spec j this idx :
  (0 ≤ idx)%Z →
  hoare 0 (holds j this) (erase_idx this idx)
    (λ r, lift (r = status (JsonAccess.erase_idx idx j)) ∗
      holds (modified (JsonAccess.erase_idx idx) j) this) never.
Proof.
  intros Hidx. unfold holds at 1, erase_idx. opens. call value_spec.
  eapply (hoare_stored _ j); [part|]. intros Ht _. unfold type_error_of.
  rewrite Ht, type_name_of_type.
  destruct (decide (m_type j = t_array)) as [Ha|Ha].
  2:{ rewrite bool_decide_false by done. apply hoare_done. intros h H. unfold holds, modified.
      destruct j; try done; cbn [JsonAccess.erase_idx]; gives c; reorder. }
  rewrite bool_decide_true by done. destruct j as [| |a| | | | | |]; try done.
  cbn [stored]. opens. subst c. call read_array_spec.
  eapply (hoare_length _ _ a); [part|]. intros Hl.
  unfold status, modified. cbn [JsonAccess.erase_idx]. rewrite <-Hl.
  destruct (Z.leb_spec (Z.of_nat (length a)) idx) as [Hi|Hi].
  { apply hoare_done. intros h H. unfold holds. gives (mk_cell t_array (u_array c0.1)).
    cbn [stored]. gives c0. reorder. }
  destruct (lookup_lt_is_Some_2 a (Z.to_nat idx)) as [v Hv]; [lia|].
  destruct (lookup_lt_is_Some_2 c0.2 (Z.to_nat idx)) as [e He]; [lia|]. rewrite He.
  eapply hoare_pre; [by rewrite (big_star_delete stored _ _ _ _ _ Hv He)|].
  call @hoare_store. eapply hoare_call; [apply (destruct_spec v)|part|]. intros [].
  apply hoare_done. intros h H. unfold holds. gives (mk_cell t_array (u_array c0.1)).
  cbn [stored]. gives (c0.1, delete (Z.to_nat idx) c0.2). reorder.
Qed.

Lemma erase_key_refuses key j :
  m_type j ≠ t_object →
  JsonAccess.erase_key key j =
    Throw (type_error_create 307 (lit "cannot use erase() with " ++ type_name j)).
Proof. by destruct j. Qed.

Lemma erase_key_spec j this key :
  hoare 0 (holds j this) (erase_key this key)
    (λ r, lift (r = fst <$> JsonAccess.erase_key key j) ∗
      holds (modified (λ j, snd <$> JsonAccess.erase_key key j) j) this) never.
Proof.
  unfold holds at 1, erase_key. opens. call value_spec.
  eapply (hoare_stored _ j); [part|]. intros Ht _. unfold type_error_of.
  rewrite Ht, type_name_of_type.
  destruct (decide (m_type j = t_object)) as [Ha|Ha].
  2:{ rewrite bool_decide_false by done. apply hoare_done. intros h H. unfold holds, modified.
      rewrite erase_key_refuses by done. cbn [fmap res_fmap]. gives c. reorder. }
  rewrite bool_decide_true by done. destruct j as [|o| | | | | | |]; try done.
  cbn [stored]. opens. subst c. call read_object_spec.
  eapply (hoare_keys _ o); [part|]. intros Hk.
  unfold modified. cbn [JsonAccess.erase_key].
  destruct (omap_find key o) as [v|] eqn:Hf.
  - destruct (members_find key o c0.2 v) as (e & He & HE); [done..|]. rewrite He.
    eapply hoare_pre; [by rewrite HE|].
    call @hoare_store. eapply hoare_call; [apply (destruct_spec v)|part|]. intros [].
    apply hoare_done. intros h H. unfold holds. simpl. gives (mk_cell t_object (u_object c0.1)).
    gives (c0.1, omap_erase key c0.2). reorder.
  - destruct (members_emplace key o c0.2) as [He _]; [done..|]. rewrite He.
    apply hoare_done. intros h H. unfold holds. simpl. gives (mk_cell t_object (u_object c0.1)).
    rewrite omap_erase_missing by done. gives c0. reorder.
Qed.

Lemma clear_spec j this : hoare 0 (holds j this) (clear this) (λ _, holds (JsonAccess.clear j) this) never.
Proof.
  unfold holds at 1, clear. opens. call value_spec.
  eapply (hoare_stored _ j); [part|]. intros Ht _. rewrite Ht.
  destruct j as [|o|a|s|b|z|z|f|]; cbn [m_type stored JsonAccess.clear]; opens; try subst c;
    unfold holds; cbn [stored c_value].
  1, 9: apply hoare_done; intros h Hh; gives c; reorder.
  4-7: eapply hoare_tail; [apply hoare_store|part|lia| |by intros ? ?%never_star];
    intros [] h Hh; match type of Hh with (?p ↦ BValue ?c ∗ _) _ => gives c end; reorder.
  - call read_object_spec.
    eapply hoare_call; [apply (hoare_iterate (stored_member stored) _ o)|part|].
    { apply Forall_forall. intros [k v] _ kc. simpl. opens. apply destruct_spec. }
    intros [].
    eapply hoare_tail; [apply hoare_store|part|lia| |by intros ? ?%never_star]. intros [] h Hh.
    gives (mk_cell t_object (u_object c0.1)). gives (c0.1, @nil (list Z * cell)). cbn [big_star]. reorder.
  - call read_array_spec.
    eapply hoare_call; [apply (hoare_iterate stored _ a)|part|].
    { apply Forall_forall. intros v _ c. apply destruct_spec. }
    intros [].
    eapply hoare_tail; [apply hoare_store|part|lia| |by intros ? ?%never_star]. intros [] h Hh.
    gives (mk_cell t_array (u_array c0.1)). gives (c0.1, @nil cell). cbn [big_star]. reorder.
  - call read_string_spec.
    eapply hoare_tail; [apply hoare_store|part|lia| |by intros ? ?%never_star]. intros [] h Hh.
    gives (mk_cell t_string (u_string c0)). gives c0. reorder.
Qed.
