(* ===== verification/StorageElements.v ===== *)
(** The elements of stored values: references to them, [operator[]], assignment
    through a reference, [emplace], [emplace_back], [insert] and the constructor
    of an array of equal elements, as code on the heap, with their triples. *)

From S2P Require Import Prelude JsonValue JsonAccess JsonIterators JsonModifiers Heap JsonStorage StorageSpec StorageRefines.
From AAC_tactics Require Import AAC.
From stdpp Require Import gmap.
Import Storage.
#[local] Open Scope nat_scope.

(** ** References *)

(** A reference to an element of the array, or to the value of a member of the
    object, at [p]. *)
Inductive place : Type :=
  | array_place (p : Z) (i : nat)
  | object_place (p : Z) (key : list Z).

Definition get_at (r : place) : code cell :=
  match r with
  | array_place p i =>
      '(_, a) ← read_array (u_array p); if a !! i is Some c then mret c else stuck
  | object_place p key =>
      '(_, o) ← read_object (u_object p); if omap_find key o is Some c then mret c else stuck
  end.

Definition set_at (r : place) (c : cell) : code () :=
  match r with
  | array_place p i => '(_, a) ← read_array (u_array p); store p (BArray (<[i := c]> a))
  | object_place p key => '(_, o) ← read_object (u_object p); store p (BObject (omap_assign key c o))
  end.

(** [operator=(basic_json other)] of an element; [other] is destroyed behind it, with
    the old value. *)
Definition assign_at (r : place) (other : cell) : code () :=
  assert_invariant other ;;
  old ← get_at r;
  set_at r other ;;
  assert_invariant other ;;
  destruct old.

Section operations.
Context (malloc : gmap Z block → Z).

(** [operator[](size_type)]. *)
Definition subscript (this idx : Z) : code (result place) :=
  transform_null malloc this t_array ;;
  c ← value this;
  if bool_decide (c_type c = t_array) then
    '(p, a) ← read_array (c_value c);
    let size := Z.of_nat (length a) in
    if (size <=? idx)%Z then
      let missing := uwrap 64 (idx - size + 1) in
      if (vector_max_size - size <? missing)%Z then mret (Throw std_length_error)
      else
        tick ;;
        store p (BArray (a ++ replicate (Z.to_nat missing) (mk_cell t_null u_unset))) ;;
        mret (Ok (array_place p (Z.to_nat idx)))
    else mret (Ok (array_place p (Z.to_nat idx)))
  else mret (Throw (type_error_of 305 (lit "cannot use operator[] with ") (c_type c))).

(** [std::map::operator[]] of the object at [p]. *)
Definition map_subscript (p : Z) (key : list Z) : code place :=
  '(_, o) ← read_object (u_object p);
  match omap_find key o with
  | Some _ => mret (object_place p key)
  | None =>
      tick ;; tick ;;
      store p (BObject (omap_emplace key (mk_cell t_null u_unset) o)) ;;
      mret (object_place p key)
  end.

(** [operator[](const typename object_t::key_type&)]. *)
Definition subscript_key (this : Z) (key : list Z) : code (result place) :=
  transform_null malloc this t_object ;;
  c ← value this;
  if bool_decide (c_type c = t_object) then
    '(p, _) ← read_object (c_value c); Ok <$> map_subscript p key
  else mret (Throw (type_error_of 305 (lit "cannot use operator[] with ") (c_type c))).

(** [x[i] = std::move(other)]. *)
Definition assign_through (r : code (result place)) (other : cell) : code (result ()) :=
  x ← on_raise r (destruct other);
  match x with
  | Ok r => assign_at r other ;; mret (Ok ())
  | x => destruct other ;; mret (status x)
  end.

(** [emplace_back], where [make] constructs the new element in its place. *)
Definition emplace_back_with (this : Z) (make : code cell) : code (result ()) :=
  c ← value this;
  if negb (bool_decide (c_type c = t_null ∨ c_type c = t_array)) then
    mret (Throw (type_error_of 311 (lit "cannot use emplace_back() with ") (c_type c)))
  else
    transform_null malloc this t_array ;;
    c ← value this;
    tick ;;
    e ← make;
    append (c_value c) e ;;
    mret (Ok ()).

(** [emplace]: [std::map::emplace] makes the node first, and drops it where the key is
    there. *)
Definition emplace_with (this : Z) (key : list Z) (make : code cell) : code (result (JsonIterators.iter * bool)) :=
  c ← value this;
  if negb (bool_decide (c_type c = t_null ∨ c_type c = t_object)) then
    mret (Throw (type_error_of 311 (lit "cannot use emplace() with ") (c_type c)))
  else
    transform_null malloc this t_object ;;
    c ← value this;
    tick ;; tick ;;
    e ← make;
    '(p, o) ← read_object (c_value c);
    let it := set_object (Some (Z.of_nat (omap_position key (omap_emplace key e o)))) (iter_of this) in
    match omap_find key o with
    | Some _ => destruct e ;; mret (Ok (it, false))
    | None => add_member (c_value c) key e ;; mret (Ok (it, true))
    end.

(** The last step of [std::vector::insert]. *)
Definition insert_cell (v : json_value) (i : nat) (e : cell) : code () :=
  '(p, a) ← read_array v; store p (BArray (take i a ++ e :: drop i a)).

(** [insert] of one element: [std::vector::insert] makes the element before it moves
    the others. *)
Definition insert_with (this : Z) (pos : JsonIterators.iter) (make : code cell) : code (result JsonIterators.iter) :=
  c ← value this;
  if bool_decide (c_type c = t_array) then
    if negb (m_object pos =? this)%Z
    then mret (Throw (misfit 202 (lit "iterator does not fit current value")))
    else
      '(_, a) ← read_array (c_value c);
      match array_iterator (m_it pos) with
      | Some i =>
          if negb ((0 <=? i) && (i <=? Z.of_nat (length a)))%Z then stuck
          else if (vector_max_size - Z.of_nat (length a) <? 1)%Z then mret (Throw std_length_error)
          else
            tick ;;
            e ← make;
            insert_cell (c_value c) (Z.to_nat i) e ;;
            mret (Ok (set_array (Some i) (iter_of this)))
      | None => stuck
      end
  else mret (Throw (type_error_of 309 (lit "cannot use insert() with ") (c_type c))).

(** [insert(const_iterator, const basic_json&)], and [insert(const_iterator, basic_json&&)],
    which calls it: a value that could be moved is copied as well. *)
Definition insert_copy (this : Z) (pos : JsonIterators.iter) (val : Z) : code (result JsonIterators.iter) :=
  insert_with this pos (moved_or_copied malloc false val).

Definition insert_rvalue (this : Z) (pos : JsonIterators.iter) (val : Z) : code (result JsonIterators.iter) :=
  insert_copy this pos val.

(** The loop of [update(const_reference)].  C++ does not say which operand of the
    assignment is evaluated first: [object_first] tells. *)
Definition copy_member (d : json_value) (key : list Z) : code cell :=
  '(_, o) ← read_object d; if omap_find key o is Some c then copy malloc c else stuck.

Definition update_member (object_first : bool) (p : Z) (d : json_value) (key : list Z) : code () :=
  if object_first
  then r ← map_subscript p key; e ← copy_member d key; assign_at r e
  else e ← copy_member d key; r ← on_raise (map_subscript p key) (destruct e); assign_at r e.

(** [update(const_reference)]; [j] may be the value itself. *)
Definition update_from (object_first : bool) (this j : Z) : code (result ()) :=
  transform_null malloc this t_object ;;
  c ← value this;
  if negb (bool_decide (c_type c = t_object)) then
    mret (Throw (type_error_of 312 (lit "cannot use update() with ") (c_type c)))
  else
    d ← value j;
    if negb (bool_decide (c_type d = t_object)) then
      mret (Throw (type_error_of 312 (lit "cannot use update() with ") (c_type d)))
    else
      '(p, _) ← read_object (c_value c);
      '(_, l) ← read_object (c_value d);
      iterate (update_member object_first p (c_value d)) l.*1 ;;
      mret (Ok ()).

(** [create<array_t>] of the elements that [make] constructs from a range. *)
Definition array_of {A} (make : A → code cell) (l : list A) : code cell :=
  v ← u_array <$> create malloc (
    (if l is [] then mret () else tick) ;;
    BArray <$> copy_range make destruct [] l);
  assert_invariant (mk_cell t_array v) ;;
  mret (mk_cell t_array v).

(** [basic_json(size_type cnt, const basic_json& val)]. *)
Definition of_count (cnt : Z) (val : Z) : code (result cell) :=
  if (vector_max_size <? cnt)%Z
  then p ← allocate malloc BRaw; deallocate p ;; mret (Throw std_length_error)
  else Ok <$> array_of (λ _, moved_or_copied malloc false val) (replicate (Z.to_nat cnt) ()).

(** [array(initializer_list_t)]. *)
Definition of_list (init : list (bool * Z)) : code cell :=
  array_of (λ r, moved_or_copied malloc r.1 r.2) init.
End operations.

(** ** Members of an object that get a new value *)

Lemma members_assign k o l j :
  omap_sorted o → l.*1 = o.*1 → omap_find k o = Some j →
  ∃ e F, omap_find k l = Some e ∧ big_star (stored_member stored) o l ≡ stored j e ∗ F ∧
    ∀ j' e', big_star (stored_member stored) (omap_assign k j' o) (omap_assign k e' l) ≡ stored j' e' ∗ F.
Proof.
  intros Hs. revert l. induction Hs as [|[k1 v] o Hs IH Hall]; intros [|[k2 c] l] Hk Hf; simplify_eq/=.
  destruct (string_compare k k1) eqn:E; simplify_eq/=.
  - exists c, (big_star (stored_member stored) o l). split; [done|]. 
    split; [|intros j' e']; rewrite lift_emp by done; aac_reflexivity.
  - exfalso. clear -Hf Hall E. induction Hall as [|[k2 v2] o Hk2 Hall IH2]; simpl in *; [done|].
    by rewrite (string_compare_trans k k1 k2) in Hf; auto.
  - destruct (IH l) as (e & F & He & H1 & H2); [done..|]. exists e, (stored v c ∗ F).
    split; [done|]. rewrite H1. split; [|intros j' e'; rewrite H2]; rewrite lift_emp by done; aac_reflexivity.
Qed.

(** ** Assignment to an element *)

Lemma delete_insert {A} (l : list A) i x : delete i (<[i := x]> l) = delete i l.
Proof. revert i. induction l as [|y l IH]; intros [|i]; simpl; [done..|by rewrite IH]. Qed.

Lemma assign_array_place_spec p l a i j e :
  i < length a →
  hoare 0 (p ↦ BArray l ∗ big_star stored a l ∗ stored j e) (assign_at (array_place p i) e)
    (λ _, p ↦ BArray (<[i := e]> l) ∗ big_star stored (<[i := j]> a) (<[i := e]> l)) never.
Proof.
  intros Hi. eapply (hoare_length stored _ a l); [part|]. intros Hl.
  destruct (lookup_lt_is_Some_2 a i) as [v Hv]; [done|].
  destruct (lookup_lt_is_Some_2 l i) as [d Hd]; [lia|].
  eapply (hoare_stored _ j e); [part|]. intros _ Hinv. unfold assign_at. rewrite Hinv, ret_bind.
  cbn [get_at set_at].
  eapply hoare_assoc. call read_array_spec. rewrite Hd, ret_bind.
  eapply hoare_assoc. call read_array_spec. call @hoare_store. rewrite ret_bind.
  eapply hoare_pre; [by rewrite (big_star_delete stored _ _ _ _ _ Hv Hd)|].
  eapply hoare_tail; [apply (destruct_spec v)|part|lia| |by intros ? ?%never_star].
  intros [] h H. revert H. apply equiv_at.
  rewrite (big_star_delete stored (<[i := j]> a) (<[i := e]> l) i j e)
    by (rewrite list_lookup_insert_eq; [done|lia]).
  rewrite !delete_insert. aac_reflexivity.
Qed.

(** The object at [p] has the members [o]. *)
Definition object_at (p : Z) (o : list (list Z * json)) : assertion block :=
  some_of (λ l, p ↦ BObject l ∗ big_star (stored_member stored) o l).

Lemma assign_object_place_spec p o k v j e :
  omap_sorted o → omap_find k o = Some v →
  hoare 0 (object_at p o ∗ stored j e) (assign_at (object_place p k) e)
    (λ _, object_at p (omap_assign k j o)) never.
Proof.
  intros Hs Hf. unfold object_at. opens. rename c into l. eapply (hoare_keys _ o l); [part|]. intros Hk.
  destruct (members_assign k o l v) as (d & F & Hd & H1 & H2); [done..|].
  eapply (hoare_stored _ j e); [part|]. intros _ Hinv. unfold assign_at. rewrite Hinv, ret_bind.
  cbn [get_at set_at].
  eapply hoare_assoc. call read_object_spec. rewrite Hd, ret_bind.
  eapply hoare_assoc. call read_object_spec. call @hoare_store. rewrite ret_bind.
  eapply hoare_pre; [by rewrite H1|].
  eapply hoare_tail; [apply (destruct_spec v)|part|lia| |by intros ? ?%never_star].
  intros [] h H. gives (omap_assign k e l). revert H. apply equiv_at. rewrite H2. aac_reflexivity.
Qed.

(** An object with the members [o], by its block. *)
Lemma stored_object o c :
  stored (JObject o) c ≡ some_of (λ p, lift (c = mk_cell t_object (u_object p)) ∗ object_at p o).
Proof.
  cbn [stored]. unfold object_at. intros h. split; intros H; opens_in H; subst.
  - gives x.1. gives x.2. reorder.
  - gives (x, x0). reorder.
Qed.

Lemma object_at_stored p o : stored (JObject o) (mk_cell t_object (u_object p)) ≡ object_at p o.
Proof. rewrite stored_object. intros h. split; intros H; [|gives p; reorder]. opens_in H. simplify_eq. reorder. Qed.

Lemma holds_object this p o h :
  (this ↦ BValue (mk_cell t_object (u_object p)) ∗ object_at p o) h → holds (JObject o) this h.
Proof.
  intros H. unfold holds. gives (mk_cell t_object (u_object p)). revert H. apply equiv_at.
  rewrite object_at_stored. aac_reflexivity.
Qed.

(** [x[key] = v] where the member is there, or has just been added. *)
Lemma omap_assign_added key j o :
  omap_sorted o → ∃ v, omap_find key (omap_emplace key JNull o) = Some v ∧
    omap_assign key j (omap_emplace key JNull o) = omap_assign key j o.
Proof.
  intros Hs. destruct (omap_find key o) as [v|] eqn:Hf.
  - exists v. by rewrite omap_emplace_found by (rewrite ?Hf; eauto).
  - exists JNull. by rewrite omap_emplace_missing, omap_assign_find, omap_assign_twice.
Qed.

(** ** [operator[]] *)

Section specifications.
Context (malloc : gmap Z block → Z) (malloc_ok : allocates malloc).

(** The cells of new null values. *)
Lemma big_star_nulls n : big_star stored (replicate n JNull) (replicate n (mk_cell t_null u_unset)) ≡ emp.
Proof. induction n as [|n IH]; simpl; [done|]. rewrite IH, lift_emp by done. by rewrite emp_star. Qed.

(** The number of elements that [operator[]] adds. *)
Definition missing (idx : Z) (size : nat) : Z :=
  if (Z.of_nat size <=? idx)%Z then uwrap 64 (idx - Z.of_nat size + 1) else 0%Z.

Definition too_long (idx : Z) (size : nat) : bool :=
  (Z.of_nat size <=? idx)%Z && (vector_max_size - Z.of_nat size <? missing idx size)%Z.

Definition filled {A} (x : A) (idx : Z) (a : list A) : list A :=
  a ++ replicate (Z.to_nat (missing idx (length a))) x.

Lemma filled_length {A} (x : A) idx a :
  (0 ≤ idx < 2 ^ 64 - 1)%Z → Z.to_nat idx < length (filled x idx a).
Proof.
  intros Hi. unfold filled, missing. rewrite length_app, length_replicate.
  destruct (Z.leb_spec (Z.of_nat (length a)) idx); [|lia].
  rewrite uwrap_small by (unfold in_u; lia). lia.
Qed.

Lemma index_array j idx a :
  (0 ≤ idx < 2 ^ 64 - 1)%Z →
  JsonAccess.index (JsonAccess.assign j) idx (JArray a) =
    if too_long idx (length a) then Throw std_length_error
    else Ok ((), JArray (<[Z.to_nat idx := j]> (filled JNull idx a))).
Proof.
  intros Hi. unfold JsonAccess.index. fold (missing idx (length a)). fold (too_long idx (length a)).
  destruct (too_long idx (length a)); [done|]. fold (filled JNull idx a).
  destruct (lookup_lt_is_Some_2 (filled JNull idx a) (Z.to_nat idx)) as [v ->]; [|done].
  by apply filled_length.
Qed.

Lemma subscript_spec this c p l a idx :
  c = mk_cell t_array (u_array p) →
  hoare 1 (this ↦ BValue c ∗ p ↦ BArray l ∗ big_star stored a l) (subscript malloc this idx)
    (λ r, some_of (λ l', this ↦ BValue c ∗ p ↦ BArray l' ∗
      lift (r = if too_long idx (length a) then Throw std_length_error else Ok (array_place p (Z.to_nat idx))) ∗
      big_star stored (if too_long idx (length a) then a else filled JNull idx a) l'))
    (this ↦ BValue c ∗ p ↦ BArray l ∗ big_star stored a l).
Proof.
  intros ->. eapply (hoare_length stored _ a l); [part|]. intros Hl. unfold subscript.
  eapply hoare_call; [by apply (transform_null_skip _ _ (mk_cell t_array (u_array p)))|part|]. intros [].
  call value_spec. call read_array_spec. rewrite <-Hl. unfold too_long, filled, missing.
  destruct (Z.of_nat (length a) <=? idx)%Z; simpl.
  2:{ apply hoare_done. intros h H. gives l. rewrite app_nil_r. reorder. }
  destruct (vector_max_size - _ <? _)%Z.
  { apply hoare_done. intros h H. gives l. reorder. }
  eapply (hoare_try _ 1 0); [apply hoare_tick|apply part_all|lia|intros; reorder|]. intros [].
  call @hoare_store. apply hoare_done. intros h H.
  set (n := Z.to_nat _) in *. gives (l ++ replicate n (mk_cell t_null u_unset)).
  revert H. apply equiv_at. rewrite big_star_app, big_star_nulls, lift_emp by done. aac_reflexivity.
Qed.

Lemma map_subscript_spec p o key :
  omap_sorted o →
  hoare 2 (object_at p o) (map_subscript p key)
    (λ r, lift (r = object_place p key) ∗ object_at p (omap_emplace key JNull o)) (object_at p o).
Proof.
  intros Hs. unfold object_at, map_subscript. opens. eapply (hoare_keys _ o); [part|]. intros Hk.
  call read_object_spec. destruct (omap_find key o) as [v|] eqn:Hf.
  - destruct (members_find key o c v) as (e & -> & _); [done..|].
    apply hoare_done. intros h H. gives c. rewrite omap_emplace_found by (rewrite ?Hf; eauto). reorder.
  - destruct (members_emplace key o c) as [-> HE]; [done..|].
    eapply (hoare_try _ 1 1); [apply hoare_tick|apply part_all|lia|intros; gives c; reorder|]. intros [].
    eapply (hoare_try _ 1 0); [apply hoare_tick|apply part_all|lia|intros; gives c; reorder|]. intros [].
    call @hoare_store. apply hoare_done. intros h H.
    gives (omap_emplace key (mk_cell t_null u_unset) c).
    revert H. apply equiv_at. rewrite HE. simpl. rewrite !lift_emp by done. aac_reflexivity.
Qed.

Lemma subscript_key_spec this c p o key :
  c = mk_cell t_object (u_object p) → omap_sorted o →
  hoare 2 (this ↦ BValue c ∗ object_at p o) (subscript_key malloc this key)
    (λ r, lift (r = Ok (object_place p key)) ∗ this ↦ BValue c ∗ object_at p (omap_emplace key JNull o))
    (this ↦ BValue c ∗ object_at p o).
Proof.
  intros -> Hs. unfold object_at at 1, subscript_key. opens.
  eapply hoare_call; [by apply (transform_null_skip _ _ (mk_cell t_object (u_object p)))|part|]. intros [].
  call value_spec. call read_object_spec. apply hoare_fmap.
  eapply (hoare_conseq _ 2 _ (object_at p o ∗ this ↦ BValue (mk_cell t_object (u_object p))));
    [by apply hoare_frame, map_subscript_spec|lia| | |].
  - intros h H. unfold object_at. gives c. reorder.
  - intros r h H. cbv beta in H. opens_in H. subst r. reorder.
  - intros; reorder.
Qed.

(** ** Assignment through [operator[]] *)

Lemma index_refuses j idx j0 :
  m_type j0 ≠ t_null → m_type j0 ≠ t_array →
  JsonAccess.index (JsonAccess.assign j) idx j0 =
    Throw (type_error_create 305 (lit "cannot use operator[] with " ++ type_name j0)).
Proof. by destruct j0. Qed.

Lemma index_key_refuses j key j0 :
  m_type j0 ≠ t_null → m_type j0 ≠ t_object →
  JsonAccess.index_key (JsonAccess.assign j) key j0 =
    Throw (type_error_create 305 (lit "cannot use operator[] with " ++ type_name j0)).
Proof. by destruct j0. Qed.

(** The reference is refused: the value that was to be assigned is destroyed. *)
Lemma assign_through_throws P j e (r : code (result place)) x :
  hoare 0 P r (λ y, lift (y = Throw x) ∗ P) never →
  hoare 0 (P ∗ stored j e) (assign_through r e) (λ y, lift (y = Throw x) ∗ P) P.
Proof.
  intros Hr. eapply (hoare_try _ 0 0 _ (P ∗ stored j e) emp (λ y, lift (y = Throw x) ∗ (P ∗ stored j e)) _ _ P);
    [|apply part_all|lia|intros; reorder|].
  - eapply (hoare_on_raise _ _ _ never).
    + eapply hoare_tail; [exact Hr|part|lia|intros; cbv beta in *; reorder|by intros ? ?%never_star].
    + intros ??? [].
  - intros y. cbv beta. opens. subst y.
    eapply hoare_call; [apply (destruct_spec j)|part|]. intros [].
    apply hoare_done. intros h H. reorder.
Qed.

Definition set_idx (idx : Z) (j j0 : json) : json :=
  modified (λ j0, snd <$> JsonAccess.index (JsonAccess.assign j) idx j0) j0.

Lemma set_idx_spec j0 j this idx e :
  m_type j0 ≠ t_null → (0 ≤ idx < 2 ^ 64 - 1)%Z →
  hoare 1 (holds j0 this ∗ stored j e) (assign_through (subscript malloc this idx) e)
    (λ r, lift (r = status (JsonAccess.index (JsonAccess.assign j) idx j0)) ∗
      holds (set_idx idx j j0) this) (holds j0 this).
Proof.
  intros Hn Hi. unfold set_idx. destruct (decide (m_type j0 = t_array)) as [Ha|Ha].
  2:{ unfold status, modified. rewrite index_refuses by done. cbn [fmap res_fmap].
      eapply (hoare_conseq _ 0); [apply (assign_through_throws (holds j0 this) j e)|lia|intros h H; exact H|intros y h H; exact H|intros h H; exact H].
      unfold holds. opens. unfold subscript. eapply (hoare_stored _ j0); [part|]. intros Ht _.
      call_skip c Ht. call value_spec. unfold type_error_of. rewrite Ht, type_name_of_type.
      rewrite bool_decide_false by done. apply hoare_done. intros h H. gives c. reorder. }
  destruct j0 as [| |a| | | | | |]; try done. unfold status, modified. rewrite index_array by done.
  unfold holds at 1. cbn [stored]. opens. unfold assign_through.
  eapply (hoare_try _ 1 0 _ (this ↦ BValue c ∗ c0.1 ↦ BArray c0.2 ∗ big_star stored a c0.2 ∗ stored j e) emp
    (λ r, some_of (λ l', this ↦ BValue c ∗ c0.1 ↦ BArray l' ∗ stored j e ∗
      lift (r = if too_long idx (length a) then Throw std_length_error else Ok (array_place c0.1 (Z.to_nat idx))) ∗
      big_star stored (if too_long idx (length a) then a else filled JNull idx a) l')) _ _
    (this ↦ BValue c ∗ c0.1 ↦ BArray c0.2 ∗ big_star stored a c0.2)); [| |lia| |].
  - eapply (hoare_on_raise _ _ _ (this ↦ BValue c ∗ c0.1 ↦ BArray c0.2 ∗ big_star stored a c0.2 ∗ stored j e)).
    + eapply hoare_tail; [by apply (subscript_spec this c c0.1 c0.2 a)|part|lia| |intros; cbv beta in *; reorder].
      intros r h Hh. cbv beta in Hh. opens_in Hh. gives x. reorder.
    + tail (destruct_spec j).
  - aac_reflexivity.
  - intros h Hh. unfold holds. gives c. cbn [stored]. gives c0. reorder.
  - intros r. cbv beta. opens. destruct (too_long idx (length a)); subst r.
    + eapply hoare_call; [apply (destruct_spec j)|part|]. intros []. apply hoare_done. intros h Hh.
      unfold holds. cbn [fmap res_fmap snd]. gives c. cbn [stored]. gives (c0.1, c1). reorder.
    + eapply hoare_call; [apply (assign_array_place_spec c0.1 c1 (filled JNull idx a) _ j e)|part|].
      { by apply filled_length. }
      intros []. apply hoare_done. intros h Hh. unfold holds. cbn [fmap res_fmap snd]. gives c. cbn [stored].
      gives (c0.1, <[Z.to_nat idx := e]> c1). reorder.
Qed.

Definition set_key (key : list Z) (j j0 : json) : json :=
  modified (λ j0, snd <$> JsonAccess.index_key (JsonAccess.assign j) key j0) j0.

Lemma set_key_spec j0 j this key e :
  m_type j0 ≠ t_null → sorted_members j0 →
  hoare 2 (holds j0 this ∗ stored j e) (assign_through (subscript_key malloc this key) e)
    (λ r, lift (r = status (JsonAccess.index_key (JsonAccess.assign j) key j0)) ∗
      holds (set_key key j j0) this) (holds j0 this).
Proof.
  intros Hn Hs. unfold set_key. destruct (decide (m_type j0 = t_object)) as [Ha|Ha].
  2:{ unfold status, modified. rewrite index_key_refuses by done. cbn [fmap res_fmap].
      eapply (hoare_conseq _ 0); [apply (assign_through_throws (holds j0 this) j e)|lia|intros h H; exact H|intros y h H; exact H|intros h H; exact H].
      unfold holds. opens. unfold subscript_key. eapply (hoare_stored _ j0); [part|]. intros Ht _.
      call_skip c Ht. call value_spec. unfold type_error_of. rewrite Ht, type_name_of_type.
      rewrite bool_decide_false by done. apply hoare_done. intros h H. gives c. reorder. }
  destruct j0 as [|o| | | | | | |]; try done. unfold status, modified.
  unfold holds at 1. opens. eapply hoare_pre; [by rewrite stored_object|]. opens. subst c. unfold assign_through.
  set (c := mk_cell t_object (u_object c0)).
  eapply (hoare_try _ 2 0 _ (this ↦ BValue c ∗ object_at c0 o ∗ stored j e) emp
    (λ r, lift (r = Ok (object_place c0 key)) ∗ this ↦ BValue c ∗ stored j e ∗
      object_at c0 (omap_emplace key JNull o)) _ _ (this ↦ BValue c ∗ object_at c0 o)); [| |lia| |].
  - eapply (hoare_on_raise _ _ _ (this ↦ BValue c ∗ object_at c0 o ∗ stored j e)).
    + eapply hoare_tail; [by apply (subscript_key_spec this c c0 o)|part|lia| |intros; cbv beta in *; reorder].
      intros r h H. cbv beta in H. opens_in H. subst r. reorder.
    + tail (destruct_spec j).
  - aac_reflexivity.
  - intros h H. apply (holds_object this c0). fold c. reorder.
  - intros r. cbv beta. opens. subst r.
    destruct (omap_assign_added key j o) as (v & Hv & Ho); [done|].
    eapply hoare_call; [apply (assign_object_place_spec c0 (omap_emplace key JNull o) key v j e)|part|].
    { by apply omap_emplace_sorted. }
    { done. }
    intros []. rewrite Ho. apply hoare_done. intros h H. cbn.
    apply lift_star. split; [done|]. apply (holds_object this c0). fold c. reorder.
Qed.

(** ** New elements *)

Lemma find_keys_spec o c :
  hoare 0 (stored (JObject o) c) (read_object (c_value c))
    (λ r, lift (r.2.*1 = o.*1) ∗ stored (JObject o) c) never.
Proof.
  cbn [stored]. opens. subst c. eapply (hoare_keys _ o); [part|]. intros Hk.
  eapply hoare_tail; [apply read_object_spec|part|lia| |by intros ? ?%never_star].
  intros r h H. cbv beta in H. opens_in H. subst r. gives c0. reorder.
Qed.

(** [make] constructs an element that holds [j]; it may look at the variable [this],
    whose cell is [c], and at [F], and leaves both as they are. *)
Definition makes (k : nat) (j0 : json) (this : Z) (c : cell) (j : json) (F : assertion block)
    (make : code cell) : Prop :=
  hoare k (this ↦ BValue c ∗ stored j0 c ∗ F) make
    (λ e, this ↦ BValue c ∗ stored j0 c ∗ stored j e ∗ F) (this ↦ BValue c ∗ stored j0 c ∗ F).

Lemma emplace_back_refuses j j0 :
  m_type j0 ≠ t_null → m_type j0 ≠ t_array →
  emplace_back j j0 = Throw (type_error_create 311 (lit "cannot use emplace_back() with " ++ type_name j0)).
Proof. by destruct j0. Qed.

Lemma emplace_back_spec k j0 j this F make :
  m_type j0 ≠ t_null → (∀ c, makes k j0 this c j F make) →
  hoare (S k) (holds j0 this ∗ F) (emplace_back_with malloc this make)
    (λ r, lift (r = status (emplace_back j j0)) ∗ holds (modified (emplace_back j) j0) this ∗ F)
    (holds j0 this ∗ F).
Proof.
  intros Hn Hm. unfold holds at 1, emplace_back_with. opens. call value_spec.
  eapply (hoare_stored _ j0); [part|]. intros Ht _. unfold type_error_of.
  rewrite Ht, type_name_of_type.
  destruct (decide (m_type j0 = t_array)) as [Ha|Ha].
  2:{ rewrite bool_decide_false by naive_solver. simpl. apply hoare_done. intros h H.
      unfold status, modified. rewrite emplace_back_refuses by done.
      unfold holds. gives c. reorder. }
  rewrite bool_decide_true by auto. cbn [negb].
  call_skip c Ht. call value_spec.
  eapply (hoare_try _ 1 k); [apply hoare_tick|apply part_all|lia| |].
  { intros h H. unfold holds. gives c. reorder. }
  intros []. eapply (hoare_try _ k 0); [apply (Hm c)|part|lia| |].
  { intros h H. unfold holds. gives c. reorder. }
  intros e. destruct j0 as [| |a| | | | | |]; try done.
  eapply hoare_call; [apply (append_spec a j c e)|part|].
  intros []. apply hoare_done. intros h H. unfold holds. gives c. simpl in *. reorder.
Qed.

Lemma emplace_refuses this key j j0 :
  m_type j0 ≠ t_null → m_type j0 ≠ t_object →
  emplace this key j j0 = Throw (type_error_create 311 (lit "cannot use emplace() with " ++ type_name j0)).
Proof. by destruct j0. Qed.

(** Positions depend on the keys only. *)
Lemma omap_position_keys {V W} k (l : list (list Z * V)) (o : list (list Z * W)) e j :
  l.*1 = o.*1 → omap_position k (omap_emplace k e l) = omap_position k (omap_emplace k j o).
Proof.
  revert o. induction l as [|[k1 v] l IH]; intros [|[k2 w] o] H; simplify_eq/=; [done|].
  destruct (string_compare k k2) eqn:E; simpl; rewrite ?E, ?string_compare_refl; [done|done|]. by rewrite (IH o).
Qed.

Lemma emplace_spec k j0 j this key F make :
  m_type j0 ≠ t_null → sorted_members j0 → (∀ c, makes k j0 this c j F make) →
  hoare (2 + k) (holds j0 this ∗ F) (emplace_with malloc this key make)
    (λ r, lift (r = fst <$> emplace this key j j0) ∗
      holds (modified (λ j0, snd <$> emplace this key j j0) j0) this ∗ F)
    (holds j0 this ∗ F).
Proof.
  intros Hn Hs Hm. unfold holds at 1, emplace_with. opens. call value_spec.
  eapply (hoare_stored _ j0); [part|]. intros Ht _. unfold type_error_of.
  rewrite Ht, type_name_of_type.
  destruct (decide (m_type j0 = t_object)) as [Ha|Ha].
  2:{ rewrite bool_decide_false by naive_solver. simpl. apply hoare_done. intros h H.
      unfold modified. rewrite emplace_refuses by done.
      unfold holds. cbn [fmap res_fmap]. gives c. reorder. }
  rewrite bool_decide_true by auto. cbn [negb].
  call_skip c Ht. call value_spec.
  eapply (hoare_try _ 1 (1 + k)); [apply hoare_tick|apply part_all|lia| |].
  { intros h H. unfold holds. gives c. reorder. }
  intros []. eapply (hoare_try _ 1 k); [apply hoare_tick|apply part_all|lia| |].
  { intros h H. unfold holds. gives c. reorder. }
  intros []. eapply (hoare_try _ k 0); [apply (Hm c)|part|lia| |].
  { intros h H. unfold holds. gives c. reorder. }
  intros e. cbv beta. destruct j0 as [|o| | | | | | |]; try done. unfold modified.
  eapply hoare_call; [apply (find_keys_spec o c)|part|]. intros [p l]. cbn [fst snd]. opens.
  rewrite (omap_position_keys key l o e j) by done.
  destruct (omap_find key o) as [v|] eqn:Hf.
  - destruct (members_find key o l v) as (d & -> & _); [done..|].
    eapply hoare_call; [apply (destruct_spec j)|part|]. intros [].
    apply hoare_done. intros h Hh. cbn. rewrite Hf. 
    rewrite omap_emplace_found by (rewrite ?Hf; eauto). unfold holds. gives c. reorder.
  - destruct (members_emplace key o l) as [-> _]; [done..|].
    eapply hoare_call; [by apply (add_member_spec key o j c e)|part|]. intros [].
    apply hoare_done. intros h Hh. cbn. rewrite Hf. unfold holds. gives c. reorder.
Qed.

Lemma insert_refuses this pos j j0 :
  m_type j0 ≠ t_array → insert_value this pos j j0 = Throw (no_insert j0).
Proof. by destruct j0. Qed.

(** A position of the array, or another value than an array. *)
Definition fits (i : nat) (j0 : json) : Prop :=
  match j0 with JArray a => i ≤ length a | _ => True end.

Definition position (this : Z) (i : nat) : JsonIterators.iter :=
  set_array (Some (Z.of_nat i)) (iter_of this).

Lemma insert_value_array this i j a :
  i ≤ length a →
  insert_value this (position this i) j (JArray a) =
    if (vector_max_size - Z.of_nat (length a) <? 1)%Z then Throw std_length_error
    else Ok (position this i, JArray (take i a ++ j :: drop i a)).
Proof.
  intros Hi. unfold insert_value, insert_array, insert_elements, position. cbn -[vector_max_size].
  rewrite Z.eqb_refl. cbn -[vector_max_size].
  assert ((0 <=? Z.of_nat i)%Z = true) as -> by (apply Z.leb_le; lia).
  assert ((Z.of_nat i <=? Z.of_nat (length a))%Z = true) as -> by (apply Z.leb_le; lia).
  rewrite Nat2Z.id. by destruct (_ <? _)%Z.
Qed.

Lemma big_star_insert {X A} (E : X → A → assertion block) xs l i x a :
  length xs = length l →
  big_star E (take i xs ++ x :: drop i xs) (take i l ++ a :: drop i l) ≡ E x a ∗ big_star E xs l.
Proof.
  intros Hl. rewrite big_star_app by (rewrite !length_take; lia). simpl. rewrite star_left_comm.
  rewrite <-(take_drop i xs) at 3. rewrite <-(take_drop i l) at 3.
  by rewrite big_star_app by (rewrite !length_take; lia).
Qed.

Lemma insert_cell_spec a j c e i :
  hoare 0 (stored (JArray a) c ∗ stored j e) (insert_cell (c_value c) i e)
    (λ _, stored (JArray (take i a ++ j :: drop i a)) c) never.
Proof.
  unfold insert_cell. cbn [stored]. opens. subst c. call read_array_spec.
  eapply (hoare_length stored _ a); [part|]. intros Hl.
  eapply hoare_tail; [apply hoare_store|part|lia| |by intros ? ?%never_star].
  intros [] h H. gives (c0.1, take i c0.2 ++ e :: drop i c0.2).
  revert H. apply equiv_at. rewrite big_star_insert, lift_emp by done. aac_reflexivity.
Qed.

(** The number of elements. *)
Lemma read_length_spec a c :
  hoare 0 (stored (JArray a) c) (read_array (c_value c))
    (λ r, lift (length r.2 = length a) ∗ stored (JArray a) c) never.
Proof.
  cbn [stored]. opens. subst c. eapply (hoare_length stored _ a); [part|]. intros Hl.
  eapply hoare_tail; [apply read_array_spec|part|lia| |by intros ? ?%never_star].
  intros r h H. cbv beta in H. opens_in H. subst r. gives c0. reorder.
Qed.

Lemma insert_spec k j0 j this i F make :
  fits i j0 → (∀ c, makes k j0 this c j F make) →
  hoare (S k) (holds j0 this ∗ F) (insert_with this (position this i) make)
    (λ r, lift (r = fst <$> insert_value this (position this i) j j0) ∗
      holds (modified (λ j0, snd <$> insert_value this (position this i) j j0) j0) this ∗ F)
    (holds j0 this ∗ F).
Proof.
  intros Hi Hm. unfold holds at 1, insert_with. opens. call value_spec.
  eapply (hoare_stored _ j0); [part|]. intros Ht _. unfold type_error_of.
  rewrite Ht, type_name_of_type.
  destruct (decide (m_type j0 = t_array)) as [Ha|Ha].
  2:{ rewrite bool_decide_false by done. apply hoare_done. intros h H.
      unfold modified. rewrite insert_refuses by done.
      unfold holds. cbn [fmap res_fmap]. gives c. reorder. }
  rewrite bool_decide_true by auto. cbn -[vector_max_size]. rewrite Z.eqb_refl. cbn [negb].
  destruct j0 as [| |a| | | | | |]; try done. unfold modified. rewrite insert_value_array by done.
  eapply hoare_call; [apply (read_length_spec a c)|part|]. intros [p l]. cbn [snd]. opens.
  assert ((0 <=? Z.of_nat i)%Z = true) as -> by (apply Z.leb_le; lia).
  assert ((Z.of_nat i <=? Z.of_nat (length l))%Z = true) as -> by (apply Z.leb_le; simpl in Hi; lia).
  rewrite H, Nat2Z.id. cbn [negb andb]. destruct (_ <? _)%Z.
  { apply hoare_done. intros h Hh. unfold holds. cbn [fmap res_fmap]. gives c. reorder. }
  eapply (hoare_try _ 1 k); [apply hoare_tick|apply part_all|lia| |].
  { intros h Hh. unfold holds. gives c. reorder. }
  intros []. eapply (hoare_try _ k 0); [apply (Hm c)|part|lia| |].
  { intros h Hh. unfold holds. gives c. reorder. }
  intros e. eapply hoare_call; [apply (insert_cell_spec a j c e i)|part|]. intros [].
  apply hoare_done. intros h Hh. unfold holds. cbn [fmap res_fmap fst snd]. gives c. reorder.
Qed.

(** ** Arrays of copies *)

(** [make] constructs the elements [xs] from the range [l] and leaves [W] as it is. *)
Definition constructs {A} (W : assertion block) (make : A → code cell) (xs : list json) (l : list A) : Prop :=
  Forall2 (λ x a, hoare (allocations x) W (make a) (λ e, W ∗ stored x e) W) xs l.

Lemma construct_range_spec {A} W (make : A → code cell) xs l ys acc :
  constructs W make xs l → length ys = length acc →
  hoare (sum_list (allocations <$> xs)) (W ∗ big_star stored ys acc) (copy_range make destruct acc l)
    (λ r, W ∗ big_star stored (ys ++ xs) r) W.
Proof.
  intros Hm. revert ys acc. induction Hm as [|x a xs l Hx _ IH]; intros ys acc Hl; simpl.
  { rewrite app_nil_r. by apply hoare_done. }
  eapply (hoare_try _ (allocations x) (sum_list (allocations <$> xs)) _ (W ∗ big_star stored ys acc) emp
    (λ e, W ∗ stored x e ∗ big_star stored ys acc) _ _ W); [|apply part_all|done|intros; reorder|].
  - eapply (hoare_on_raise _ _ _ (W ∗ big_star stored ys acc)).
    + eapply hoare_tail; [exact Hx|part|lia|intros; cbv beta in *; reorder|intros; reorder].
    + eapply hoare_tail; [apply (hoare_iterate stored _ ys)|part|lia|intros; cbv beta in *; reorder|by intros ? ?%never_star].
      apply Forall_forall. intros ? _ c. apply destruct_spec.
  - intros e. cbv beta.
    eapply (hoare_tail _ _ (W ∗ big_star stored (ys ++ [x]) (acc ++ [e])) emp);
      [apply (IH (ys ++ [x]) (acc ++ [e])); by rewrite !length_app, Hl| |lia| |intros; reorder].
    + rewrite big_star_snoc. aac_reflexivity.
    + intros r h H. cbv beta in H. rewrite <-app_assoc in H. simpl in H. reorder.
Qed.

Lemma array_of_spec {A} W (make : A → code cell) xs l :
  constructs W make xs l →
  hoare (allocations (JArray xs)) W (array_of malloc make l) (λ c, W ∗ stored (JArray xs) c) W.
Proof.
  intros Hm. unfold array_of.
  eapply (hoare_try _ (allocations (JArray xs)) 0 _ W emp (λ v, W ∗ stored (JArray xs) (mk_cell t_array v)) _ _ W);
    [|apply part_all|lia|intros; reorder|].
  - apply hoare_fmap. eapply hoare_tail;
      [apply (create_spec malloc malloc_ok (pred (allocations (JArray xs))) W
        (λ b, some_of (λ l', lift (b = BArray l') ∗ W ∗ big_star stored xs l')))
      |apply part_all|by destruct xs| |intros; reorder].
    + eapply (hoare_try _ (if xs is [] then 0 else 1) (sum_list (allocations <$> xs)) _ W emp (λ _, W) _ _ W);
        [by destruct Hm; [apply hoare_done|apply hoare_tick]|apply part_all|by destruct xs|intros; reorder|].
      intros []. apply hoare_fmap. eapply (hoare_tail _ _ (W ∗ big_star stored [] []) emp);
        [by apply (construct_range_spec W make xs l [] [])|simpl; aac_reflexivity|lia| |intros; reorder].
      intros r h H. cbn [app] in *. gives r. reorder.
    + intros p h H. cbv beta in H. opens_in H. subst. cbn [stored]. gives (p, x0). reorder.
  - intros v. cbv beta. eapply (hoare_stored _ _ (mk_cell t_array v)); [part|].
    intros _ Hi. rewrite Hi, ret_bind. apply hoare_done. intros h H. reorder.
Qed.

Lemma sum_replicate j n : sum_list (allocations <$> replicate n j) = n * allocations j.
Proof. induction n as [|n IH]; [done|]. simpl. unfold fmap in IH. rewrite IH. lia. Qed.

Lemma allocations_replicate n j :
  allocations (JArray (replicate n j)) ≤ 2 + n * allocations j.
Proof. cbn [allocations]. rewrite sum_replicate. destruct (replicate n j); lia. Qed.

Lemma of_count_spec W cnt j val :
  hoare (allocations j) W (moved_or_copied malloc false val) (λ e, W ∗ stored j e) W →
  hoare (2 + cnt * allocations j) W (of_count malloc (Z.of_nat cnt) val)
    (λ r, W ∗ match json_fill (Z.of_nat cnt) j with
              | Ok j' => some_of (λ c, lift (r = Ok c) ∗ stored j' c)
              | _ => lift (r = Throw std_length_error)
              end) W.
Proof.
  intros Hm. unfold of_count, json_fill. destruct (_ <? _)%Z.
  - eapply (hoare_try _ 1 0 _ emp W); [by apply hoare_allocate|by rewrite emp_star|lia|intros; reorder|].
    intros p. call @hoare_deallocate. apply hoare_done. intros h H. reorder.
  - rewrite Nat2Z.id. apply hoare_fmap. eapply hoare_tail;
      [apply (array_of_spec W _ (replicate cnt j))|apply part_all|apply allocations_replicate| |intros; reorder].
    + by apply Forall2_replicate.
    + intros c h H. cbv beta in H. gives c. reorder.
Qed.

(** ** [update] *)

Lemma read_object_at_spec p o :
  hoare 0 (object_at p o) (read_object (u_object p))
    (λ r, lift (r.1 = p ∧ r.2.*1 = o.*1) ∗ object_at p o) never.
Proof.
  unfold object_at. opens. eapply (hoare_keys _ o); [part|]. intros Hk.
  eapply hoare_tail; [apply read_object_spec|part|lia| |by intros ? ?%never_star].
  intros r h H. cbv beta in H. opens_in H. subst r. gives c. reorder.
Qed.

Lemma copy_member_spec o d key v :
  omap_find key o = Some v →
  hoare (allocations v) (stored (JObject o) d) (copy_member malloc (c_value d) key)
    (λ e, stored (JObject o) d ∗ stored v e) (stored (JObject o) d).
Proof.
  intros Hf. unfold copy_member. cbn [stored]. opens. subst d.
  eapply (hoare_keys _ o); [part|]. intros Hk. call read_object_spec.
  destruct (members_find key o c.2 v) as (e & -> & HE); [done..|].
  eapply hoare_pre; [by rewrite HE|].
  eapply hoare_tail; [by apply copy_spec|part|lia| |].
  - intros e' h H. cbv beta in *. gives c. revert H. apply equiv_at. rewrite HE, lift_emp by done. aac_reflexivity.
  - intros h H. gives c. revert H. apply equiv_at. rewrite HE, lift_emp by done. aac_reflexivity.
Qed.

(** The object after an update with one member that failed. *)
Definition update_failed (key : list Z) (o o' : list (list Z * json)) : Prop :=
  o' = o ∨ o' = omap_emplace key JNull o.

Lemma update_member_spec b p o o2 d key v :
  omap_sorted o → omap_find key o2 = Some v →
  hoare (2 + allocations v) (object_at p o ∗ stored (JObject o2) d) (update_member malloc b p (c_value d) key)
    (λ _, object_at p (omap_assign key v o) ∗ stored (JObject o2) d)
    (some_of (λ o', lift (update_failed key o o') ∗ object_at p o' ∗ stored (JObject o2) d)).
Proof.
  intros Hs Hf. destruct (omap_assign_added key v o) as (w & Hw & Ho); [done|].
  assert (∀ e, hoare 0 (object_at p (omap_emplace key JNull o) ∗ stored v e) (assign_at (object_place p key) e)
    (λ _, object_at p (omap_assign key v o)) never) as Ha.
  { intros e. rewrite <-Ho. apply (assign_object_place_spec p _ key w); [|done]. by apply omap_emplace_sorted. }
  unfold update_member. destruct b.
  - eapply (hoare_try _ 2 (allocations v)); [by apply map_subscript_spec|part|lia| |].
    { intros h H. gives o. revert H. apply equiv_at. rewrite lift_emp by (by left). aac_reflexivity. }
    intros r. cbv beta. opens. subst r.
    eapply (hoare_try _ (allocations v) 0); [by apply (copy_member_spec o2)|part|lia| |].
    { intros h H. gives (omap_emplace key JNull o). revert H. apply equiv_at.
      rewrite lift_emp by (by right). aac_reflexivity. }
    intros e. tail Ha.
  - eapply (hoare_try _ (allocations v) 2); [by apply (copy_member_spec o2)|part|lia| |].
    { intros h H. gives o. revert H. apply equiv_at. rewrite lift_emp by (by left). aac_reflexivity. }
    intros e. cbv beta.
    eapply (hoare_try _ 2 0 _ (object_at p o ∗ stored v e) (stored (JObject o2) d)
      (λ r, lift (r = object_place p key) ∗ object_at p (omap_emplace key JNull o) ∗ stored v e) _ _ (object_at p o));
      [|aac_reflexivity|lia| |].
    + eapply (hoare_on_raise _ _ _ (object_at p o ∗ stored v e)); [|tail (destruct_spec v)].
      eapply hoare_tail; [by apply (map_subscript_spec p o)|part|lia|intros; cbv beta in *; reorder|intros; reorder].
    + intros h H. gives o. revert H. apply equiv_at. rewrite lift_emp by (by left). aac_reflexivity.
    + intros r. cbv beta. opens. subst r. tail Ha.
Qed.

Definition assign_members (o2 o : list (list Z * json)) : list (list Z * json) :=
  fold_left (λ o kv, omap_assign kv.1 kv.2 o) o2 o.

(** The object after an update that failed at a member. *)
Definition update_stopped (o2 o o' : list (list Z * json)) : Prop :=
  ∃ n kv, o2 !! n = Some kv ∧ update_failed kv.1 (assign_members (take n o2) o) o'.

Definition update_cost (o2 : list (list Z * json)) : nat :=
  sum_list ((λ kv, 2 + allocations kv.2) <$> o2).

Lemma update_loop_spec b p o2 d l o :
  omap_sorted o → Forall (λ kv, omap_find kv.1 o2 = Some kv.2) l →
  hoare (update_cost l) (object_at p o ∗ stored (JObject o2) d)
    (iterate (update_member malloc b p (c_value d)) l.*1)
    (λ _, object_at p (assign_members l o) ∗ stored (JObject o2) d)
    (some_of (λ o', lift (update_stopped l o o') ∗ object_at p o' ∗ stored (JObject o2) d)).
Proof.
  intros Hs Hl. revert o Hs. induction Hl as [|[k v] l Hk Hl IH]; intros o Hs; [by apply hoare_done|].
  eapply (hoare_try _ (2 + allocations v) (update_cost l)); [by apply (update_member_spec b p o o2 d k v)|apply part_all|done| |].
  { intros h H. opens_in H. gives x. revert H. apply equiv_at. 
    rewrite lift_emp; [aac_reflexivity|]. by exists 0, (k, v). }
  intros []. cbv beta. eapply hoare_tail; [apply (IH (omap_assign k v o)); by apply omap_assign_sorted|part|done| |].
  - intros [] h H. change (assign_members ((k, v) :: l) o) with (assign_members l (omap_assign k v o)). cbv beta in H. reorder.
  - intros h H. opens_in H. gives x. revert H. apply equiv_at.
    rewrite lift_emp; [aac_reflexivity|]. destruct E as (n & kv & Hn & Hx). by exists (S n), kv.
Qed.

(** With itself: every member gets the value it has. *)
Lemma update_self_member_spec b p o key v :
  omap_sorted o → omap_find key o = Some v →
  hoare (2 + allocations v) (object_at p o) (update_member malloc b p (u_object p) key)
    (λ _, object_at p o) (object_at p o).
Proof.
  intros Hs Hf. set (c := mk_cell t_object (u_object p)).
  assert (hoare (allocations v) (object_at p o) (copy_member malloc (u_object p) key)
    (λ e, object_at p o ∗ stored v e) (object_at p o)) as Hc.
  { eapply hoare_conseq; [by apply (copy_member_spec o c)|done|..]; unfold c.
    - intros h. apply object_at_stored.
    - intros e h. apply equiv_at. by rewrite object_at_stored.
    - intros h. apply object_at_stored. }
  pose proof (map_subscript_spec p o key Hs) as Hm.
  rewrite omap_emplace_found in Hm by (rewrite ?Hf; eauto).
  assert (∀ e, hoare 0 (object_at p o ∗ stored v e) (assign_at (object_place p key) e)
    (λ _, object_at p o) never) as Ha.
  { intros e. pose proof (assign_object_place_spec p o key v v e Hs Hf) as H.
    by rewrite omap_assign_same in H. }
  unfold update_member. destruct b.
  - eapply (hoare_try _ 2 (allocations v)); [apply Hm|part|lia|intros; reorder|].
    intros r. cbv beta. opens. subst r.
    eapply (hoare_try _ (allocations v) 0); [apply Hc|part|lia|intros; reorder|].
    intros e. tail Ha.
  - eapply (hoare_try _ (allocations v) 2); [apply Hc|part|lia|intros; reorder|]. intros e. cbv beta.
    eapply (hoare_try _ 2 0 _ (object_at p o ∗ stored v e) emp
      (λ r, lift (r = object_place p key) ∗ object_at p o ∗ stored v e) _ _ (object_at p o));
      [|by rewrite star_emp|lia|intros; reorder|].
    + eapply (hoare_on_raise _ _ _ (object_at p o ∗ stored v e)); [|tail (destruct_spec v)].
      eapply hoare_tail; [apply Hm|part|lia|intros; cbv beta in *; reorder|intros; reorder].
    + intros r. cbv beta. opens. subst r. tail Ha.
Qed.

Lemma update_self_loop_spec b p o l :
  omap_sorted o → Forall (λ kv, omap_find kv.1 o = Some kv.2) l →
  hoare (update_cost l) (object_at p o) (iterate (update_member malloc b p (u_object p)) l.*1)
    (λ _, object_at p o) (object_at p o).
Proof.
  intros Hs Hl. induction Hl as [|[k v] l Hk Hl IH]; [by apply hoare_done|].
  eapply (hoare_try _ (2 + allocations v) (update_cost l));
    [by apply (update_self_member_spec b p o k v)|apply part_all|done|intros; reorder|].
  intros []. eapply hoare_pre; [apply star_emp|]. exact IH.
Qed.

(** A failed update leaves an object. *)
Lemma update_refuses j0 j2 :
  m_type j0 ≠ t_null → m_type j0 ≠ t_object ∨ m_type j2 ≠ t_object →
  JsonAccess.update j0 j2 = Throw (type_error_create 312 (lit "cannot use update() with " ++
    type_name (if bool_decide (m_type j0 = t_object) then j2 else j0))).
Proof. destruct j0; try done; intros _ [H|H]; try done; by destruct j2. Qed.

(** What an update that throws leaves of the value. *)
Definition update_part (j0 j2 j' : json) : Prop :=
  match j0, j2 with
  | JObject o, JObject o2 => ∃ o', j' = JObject o' ∧ update_stopped o2 o o'
  | _, _ => False
  end.

Definition members (j : json) : list (list Z * json) := match j with JObject o => o | _ => [] end.

Lemma members_found (o : list (list Z * json)) : omap_sorted o → Forall (λ kv, omap_find kv.1 o = Some kv.2) o.
Proof. intros Hs. apply Forall_forall. intros [k v] H. by apply omap_find_elem. Qed.

Lemma holds_both this p o other c j h :
  (object_at p o ∗ this ↦ BValue (mk_cell t_object (u_object p)) ∗ other ↦ BValue c ∗ stored j c) h →
  (holds (JObject o) this ∗ holds j other) h.
Proof.
  intros H. unfold holds. gives (mk_cell t_object (u_object p)). gives c.
  revert H. apply equiv_at. rewrite object_at_stored. aac_reflexivity.
Qed.

Lemma update_from_spec b j0 j2 this other :
  m_type j0 ≠ t_null → sorted_members j0 → sorted_members j2 →
  hoare (update_cost (members j2)) (holds j0 this ∗ holds j2 other) (update_from malloc b this other)
    (λ r, lift (r = status (JsonAccess.update j0 j2)) ∗
      holds (modified (λ j0, JsonAccess.update j0 j2) j0) this ∗ holds j2 other)
    (some_of (λ j', lift (update_part j0 j2 j') ∗ holds j' this ∗ holds j2 other)).
Proof.
  intros Hn Hs Hs2. unfold holds at 1 2, update_from. opens.
  eapply (hoare_stored _ j0 c); [part|]. intros Ht _.
  eapply (hoare_stored _ j2 c0); [part|]. intros Ht2 _.
  call_skip c Ht. call value_spec. unfold type_error_of. rewrite Ht, type_name_of_type.
  unfold modified, status. case_bool_decide as Ha; cbn [negb].
  2:{ apply hoare_done. intros h H. rewrite update_refuses by auto. rewrite bool_decide_false by done.
      unfold holds. gives c. gives c0. cbn [fmap res_fmap]. reorder. }
  call value_spec. rewrite Ht2, type_name_of_type. case_bool_decide as Ha2; cbn [negb].
  2:{ apply hoare_done. intros h H. rewrite update_refuses by auto. rewrite bool_decide_true by done.
      unfold holds. gives c. gives c0. cbn [fmap res_fmap]. reorder. }
  destruct j0 as [|o| | | | | | |]; try done. destruct j2 as [|o2| | | | | | |]; try done.
  eapply hoare_pre; [by rewrite (stored_object o c)|]. opens. subst c. rename c1 into p.
  eapply hoare_call; [apply (read_object_at_spec p o)|part|]. intros [p' l']. cbn [fst snd]. opens.
  destruct_and?. subst p'.
  eapply hoare_call; [apply (find_keys_spec o2 c0)|part|]. intros [q l]. cbn [fst snd]. opens.
  replace (l.*1) with (o2.*1) by done.
  eapply (hoare_try _ (update_cost o2) 0);
    [by apply (update_loop_spec b p o2 c0 o2 o), members_found|part|simpl; lia| |].
  - intros h Hh. opens_in Hh. apply some_elim. exists (JObject x). apply lift_star.
    split; [by exists x|]. apply (holds_both this p x other c0). reorder.
  - intros []. cbv beta. apply hoare_done. intros h Hh. apply lift_star. split; [done|].
    apply (holds_both this p (assign_members o2 o) other c0). reorder.
Qed.

Lemma update_from_self_spec b j0 this :
  m_type j0 ≠ t_null → sorted_members j0 →
  hoare (update_cost (members j0)) (holds j0 this) (update_from malloc b this this)
    (λ r, lift (r = status (JsonAccess.update j0 j0)) ∗ holds j0 this) (holds j0 this).
Proof.
  intros Hn Hs. unfold holds at 1, update_from. opens.
  eapply (hoare_stored _ j0 c); [part|]. intros Ht _.
  call_skip c Ht. call value_spec. unfold type_error_of, status. rewrite Ht, type_name_of_type.
  case_bool_decide as Ha; cbn [negb].
  2:{ apply hoare_done. intros h H. rewrite update_refuses by auto. rewrite bool_decide_false by done.
      unfold holds. gives c. cbn [fmap res_fmap]. reorder. }
  call value_spec. rewrite Ht, bool_decide_true by done. cbn [negb].
  destruct j0 as [|o| | | | | | |]; try done.
  eapply hoare_pre; [by rewrite (stored_object o c)|]. opens. subst c. rename c0 into p.
  eapply hoare_call; [apply (read_object_at_spec p o)|part|]. intros [p' l']. cbn [fst snd]. opens.
  destruct_and?. subst p'.
  eapply hoare_call; [apply (read_object_at_spec p o)|part|]. intros [q l]. cbn [fst snd c_value]. opens.
  destruct_and?. subst q. replace (l.*1) with (o.*1) by done.
  eapply (hoare_try _ (update_cost o) 0);
    [by apply (update_self_loop_spec b p o o), members_found|part|simpl; lia| |].
  - intros h Hh. apply (holds_object this p). reorder.
  - intros []. cbv beta. apply hoare_done. intros h Hh. apply lift_star. split; [done|].
    apply (holds_object this p). reorder.
Qed.
End specifications.
