(* ===== verification/StorageRanges.v ===== *)
(** Ranges of elements of stored values: [insert] of several elements, [erase] of a
    range and [swap] with a container, as code on the heap.

    [insert] follows [std::vector] of the standard library beside the program
    (inc/include/c++/4.8.2/bits/vector.tcc).  What it leaves where a copy throws
    depends on whether the vector has room for the new elements: new elements may be
    null, and without room the elements before the position may be lost. *)

From S2P Require Import Prelude JsonValue JsonAccess JsonIterators JsonModifiers Heap JsonStorage StorageSpec StorageRefines StorageElements.
From AAC_tactics Require Import AAC.
From stdpp Require Import gmap.
Import Storage.
#[local] Open Scope nat_scope.

(** ** Insertion *)

(** An element that was moved from. *)
Definition moved : cell := mk_cell t_null (u_object 0).

(** [std::copy] and [std::fill]: the elements that [make] constructs from the range
    are assigned to the places from [k] on. *)
Fixpoint assign_range {A} (make : A → code cell) (p : Z) (k : nat) (l : list A) : code () :=
  match l with
  | [] => mret ()
  | x :: l => e ← make x; assign_at (array_place p k) e ;; assign_range make p (S k) l
  end.

(** The part of [_M_fill_insert] and [_M_range_insert] for a vector with room: the
    elements behind the position are moved away, and the gap is filled. *)
Definition insert_in_place {A} (make : A → code cell) (v : json_value) (i : nat) (l : list A) : code () :=
  '(p, a) ← read_array v;
  let elems_after := length a - i in
  if length l <? elems_after then
    store p (BArray (take i a ++ replicate (length l) moved ++ drop i a)) ;;
    assign_range make p i l
  else
    es ← copy_range make destruct [] (drop elems_after l);
    store p (BArray (take i a ++ (replicate elems_after moved ++ es) ++ drop i a)) ;;
    assign_range make p i (take elems_after l).

Section operations.
Context (malloc : gmap Z block → Z).

(** [_M_fill_insert]; [room] tells whether the capacity suffices. *)
Definition fill_insert (room : bool) (v : json_value) (i n : nat) (val : Z) : code () :=
  if bool_decide (n = 0) then mret ()
  else if room then
    x ← moved_or_copied malloc false val;
    scoped x (insert_in_place (λ _, copy malloc x) v i (replicate n ()))
  else
    tick ;;
    es ← copy_range (λ _, moved_or_copied malloc false val) destruct [] (replicate n ());
    '(p, a) ← read_array v;
    store p (BArray (take i a ++ es ++ drop i a)).

(** [_M_range_insert]: without room, the elements before the position are moved to
    the new memory before the new ones are copied, and destroyed where a copy throws. *)
Definition range_insert {A} (room : bool) (make : A → code cell) (v : json_value) (i : nat) (l : list A) :
    code () :=
  if bool_decide (length l = 0) then mret ()
  else if room then insert_in_place make v i l
  else
    tick ;;
    '(p, a) ← read_array v;
    store p (BArray (replicate i moved ++ drop i a)) ;;
    es ← on_raise (copy_range make destruct [] l) (iterate destruct (take i a));
    store p (BArray (take i a ++ es ++ drop i a)).

(** What the overloads of [insert] check first, and the iterator they return. *)
Definition insert_checked (this : Z) (pos : JsonIterators.iter)
    (insert : json_value → nat → nat → code (result ())) : code (result JsonIterators.iter) :=
  c ← value this;
  if bool_decide (c_type c = t_array) then
    if negb (m_object pos =? this)%Z
    then mret (Throw (misfit 202 (lit "iterator does not fit current value")))
    else
      '(_, a) ← read_array (c_value c);
      match array_iterator (m_it pos) with
      | Some i =>
          if negb ((0 <=? i) && (i <=? Z.of_nat (length a)))%Z then stuck
          else
            r ← insert (c_value c) (Z.to_nat i) (length a);
            mret ((λ _, set_array (Some i) (iter_of this)) <$> r)
      | None => stuck
      end
  else mret (Throw (type_error_of 309 (lit "cannot use insert() with ") (c_type c))).

(** [insert(const_iterator, size_type, const basic_json&)]. *)
Definition insert_count_at (room : bool) (this : Z) (pos : JsonIterators.iter) (cnt val : Z) :
    code (result JsonIterators.iter) :=
  insert_checked this pos (λ v i size,
    if (vector_max_size - Z.of_nat size <? cnt)%Z then mret (Throw std_length_error)
    else fill_insert room v i (Z.to_nat cnt) val ;; mret (Ok ())).

(** [insert(const_iterator, const_iterator, const_iterator)]; the iterators [first]
    and [last] point into an array, or the behaviour is undefined. *)
Definition insert_range_at (room : bool) (this : Z) (pos first last : JsonIterators.iter) :
    code (result JsonIterators.iter) :=
  insert_checked this pos (λ v i size,
    if negb (m_object first =? m_object last)%Z then mret (Throw (misfit 210 (lit "iterators do not fit")))
    else if (m_object first =? this)%Z
    then mret (Throw (misfit 211 (lit "passed iterators may not belong to container")))
    else
      d ← value (m_object first);
      '(_, b) ← read_array (c_value d);
      match array_iterator (m_it first), array_iterator (m_it last) with
      | Some f, Some l =>
          if negb ((0 <=? f) && (f <=? l) && (l <=? Z.of_nat (length b)))%Z then stuck
          else
            let src := take (Z.to_nat (l - f)) (drop (Z.to_nat f) b) in
            if (vector_max_size - Z.of_nat size <? Z.of_nat (length src))%Z
            then mret (Throw std_length_error)
            else range_insert room (copy malloc) v i src ;; mret (Ok ())
      | _, _ => stuck
      end).
End operations.

(** ** Erasure *)

(** [std::vector::erase(first, last)] and [std::map::erase(first, last)]. *)
Definition erase_cells (v : json_value) (i j : nat) : code () :=
  '(p, a) ← read_array v;
  store p (BArray (take i a ++ drop j a)) ;;
  iterate destruct (take (j - i) (drop i a)).

Definition erase_entries (v : json_value) (i j : nat) : code () :=
  '(p, o) ← read_object v;
  store p (BObject (take i o ++ drop j o)) ;;
  iterate (λ kv, destruct kv.2) (take (j - i) (drop i o)).

(** Two positions in a container of [n] elements. *)
Definition positions (n : nat) (first last : option Z) : option (nat * nat) :=
  match first, last with
  | Some p, Some q =>
      if ((0 <=? p) && (p <=? q) && (q <=? Z.of_nat n))%Z then Some (Z.to_nat p, Z.to_nat q) else None
  | _, _ => None
  end.

(** The containers lose what is between the positions; the result points behind it. *)
Definition erase_object_between (this : Z) (v : json_value) (first last : option Z) :
    code (result JsonIterators.iter) :=
  '(_, o) ← read_object v;
  if positions (length o) first last is Some (i, j)
  then erase_entries v i j ;; mret (Ok (set_object (Some (Z.of_nat i)) (iter_of this)))
  else stuck.

Definition erase_array_between (this : Z) (v : json_value) (first last : option Z) :
    code (result JsonIterators.iter) :=
  '(_, a) ← read_array v;
  if positions (length a) first last is Some (i, j)
  then erase_cells v i j ;; mret (Ok (set_array (Some (Z.of_nat i)) (iter_of this)))
  else stuck.

(** [erase(first, last)]. *)
Definition erase_range_at (this : Z) (first last : JsonIterators.iter) : code (result JsonIterators.iter) :=
  c ← value this;
  if negb (this =? m_object first)%Z || negb (this =? m_object last)%Z
  then mret (Throw (misfit 203 (lit "iterators do not fit current value")))
  else
    match c_type c with
    | t_object =>
        erase_object_between this (c_value c) (object_iterator (m_it first)) (object_iterator (m_it last))
    | t_array =>
        erase_array_between this (c_value c) (array_iterator (m_it first)) (array_iterator (m_it last))
    | t_null | t_discarded => mret (Throw (type_error_of 307 (lit "cannot use erase() with ") (c_type c)))
    | _ =>
        if negb (is_begin (primitive_iterator (m_it first))) ||
           negb (is_end (primitive_iterator (m_it last)))
        then mret (Throw (misfit 204 (lit "iterators out of range")))
        else erase_primitive this ;; mret (Ok (set_primitive end_value (iter_of this)))
    end.

(** [erase(pos)]. *)
Definition erase_at (this : Z) (pos : JsonIterators.iter) : code (result JsonIterators.iter) :=
  c ← value this;
  if negb (this =? m_object pos)%Z
  then mret (Throw (misfit 202 (lit "iterator does not fit current value")))
  else
    match c_type c with
    | t_object =>
        let p := object_iterator (m_it pos) in erase_object_between this (c_value c) p (next_position p)
    | t_array =>
        let p := array_iterator (m_it pos) in erase_array_between this (c_value c) p (next_position p)
    | t_null | t_discarded => mret (Throw (type_error_of 307 (lit "cannot use erase() with ") (c_type c)))
    | _ =>
        if negb (is_begin (primitive_iterator (m_it pos)))
        then mret (Throw (misfit 205 (lit "iterator out of range")))
        else erase_primitive this ;; mret (Ok (set_primitive end_value (iter_of this)))
    end.

(** ** Swap with a container at [other] *)

Definition swap_array_at (this other : Z) : code (result ()) :=
  c ← value this;
  if bool_decide (c_type c = t_array) then
    '(p, a) ← read_array (c_value c);
    '(_, b) ← read_array (u_array other);
    store p (BArray b) ;; store other (BArray a) ;; mret (Ok ())
  else mret (Throw (type_error_of 310 (lit "cannot use swap() with ") (c_type c))).

Definition swap_object_at (this other : Z) : code (result ()) :=
  c ← value this;
  if bool_decide (c_type c = t_object) then
    '(p, o) ← read_object (c_value c);
    '(_, b) ← read_object (u_object other);
    store p (BObject b) ;; store other (BObject o) ;; mret (Ok ())
  else mret (Throw (type_error_of 310 (lit "cannot use swap() with ") (c_type c))).

Definition swap_string_at (this other : Z) : code (result ()) :=
  c ← value this;
  if bool_decide (c_type c = t_string) then
    '(p, s) ← read_string (c_value c);
    '(_, b) ← read_string (u_string other);
    store p (BString b) ;; store other (BString s) ;; mret (Ok ())
  else mret (Throw (type_error_of 310 (lit "cannot use swap() with ") (c_type c))).

(** ** Triples of insertion *)

(** The array at [p] has the elements [a]. *)
Definition array_at (p : Z) (a : list json) : assertion block :=
  some_of (λ l, p ↦ BArray l ∗ big_star stored a l).

Lemma stored_array a c :
  stored (JArray a) c ≡ some_of (λ p, lift (c = mk_cell t_array (u_array p)) ∗ array_at p a).
Proof.
  cbn [stored]. unfold array_at. intros h. split; intros H; opens_in H; subst.
  - gives x.1. gives x.2. reorder.
  - gives (x, x0). reorder.
Qed.

Lemma array_at_stored p a : stored (JArray a) (mk_cell t_array (u_array p)) ≡ array_at p a.
Proof. rewrite stored_array. intros h. split; intros H; [|gives p; reorder]. opens_in H. simplify_eq. reorder. Qed.

Lemma holds_array this p a h :
  (this ↦ BValue (mk_cell t_array (u_array p)) ∗ array_at p a) h → holds (JArray a) this h.
Proof.
  intros H. unfold holds. gives (mk_cell t_array (u_array p)). revert H. apply equiv_at.
  rewrite array_at_stored. aac_reflexivity.
Qed.

Lemma assign_array_at_spec p a i j e :
  i < length a →
  hoare 0 (array_at p a ∗ stored j e) (assign_at (array_place p i) e) (λ _, array_at p (<[i := j]> a)) never.
Proof.
  intros Hi. unfold array_at. opens. rename c into l.
  eapply hoare_tail; [by apply (assign_array_place_spec p l a i j e)|part|lia| |by intros ? ?%never_star].
  intros [] h H. cbv beta in H. gives (<[i := e]> l). reorder.
Qed.

(** The elements that replace [gap], of which some are there. *)
Definition partly (xs gap mid : list json) : Prop := ∃ n, mid = take n xs ++ drop n gap.

Lemma assign_range_spec {A} F (make : A → code cell) xs l p pre gap post :
  constructs F make xs l → length gap = length xs →
  hoare (sum_list (allocations <$> xs)) (array_at p (pre ++ gap ++ post) ∗ F)
    (assign_range make p (length pre) l) (λ _, array_at p (pre ++ xs ++ post) ∗ F)
    (some_of (λ mid, lift (partly xs gap mid) ∗ array_at p (pre ++ mid ++ post) ∗ F)).
Proof.
  intros Hm. revert pre gap. induction Hm as [|x y xs l Hx _ IH]; intros pre [|g gap] Hl; try done.
  { by apply hoare_done. }
  cbn [assign_range fmap list_fmap sum_list].
  eapply (hoare_try _ (allocations x) (sum_list (allocations <$> xs))); [exact Hx|part|done| |].
  { intros h H. gives (g :: gap). revert H. apply equiv_at. rewrite lift_emp by (by exists 0). aac_reflexivity. }
  intros e. cbv beta.
  eapply hoare_call; [apply (assign_array_at_spec p (pre ++ (g :: gap) ++ post) (length pre) x e)|part|].
  { rewrite length_app. simpl. lia. }
  intros []. rewrite insert_app_r_alt by lia. rewrite Nat.sub_diag. simpl.
  specialize (IH (pre ++ [x]) gap). rewrite length_app, Nat.add_1_r, <-!app_assoc in IH. simpl in IH.
  eapply hoare_tail; [apply IH; by injection Hl|part|done| |].
  - intros [] h H. cbv beta in H. reorder.
  - intros h H. opens_in H. destruct E as [n ->]. gives (take (S n) (x :: xs) ++ drop (S n) (g :: gap)).
    simpl. revert H. apply equiv_at. rewrite lift_emp by (by exists (S n)). rewrite <-!app_assoc. simpl. aac_reflexivity.
Qed.

Lemma big_star_moved n : big_star stored (replicate n JNull) (replicate n moved) ≡ emp.
Proof. induction n as [|n IH]; simpl; [done|]. rewrite IH, lift_emp by done. by rewrite emp_star. Qed.

Lemma big_star_split {X A} (E : X → A → assertion block) xs l i :
  length xs = length l →
  big_star E xs l ≡ big_star E (take i xs) (take i l) ∗ big_star E (drop i xs) (drop i l).
Proof.
  intros Hl. rewrite <-big_star_app by (rewrite !length_take; lia). by rewrite !take_drop.
Qed.

(** New elements between the elements of an array. *)
Definition with_new (i : nat) (mid a : list json) : list json := take i a ++ mid ++ drop i a.

Lemma store_new_spec p l a i xs es :
  hoare 0 (p ↦ BArray l ∗ big_star stored a l ∗ big_star stored xs es)
    (store p (BArray (take i l ++ es ++ drop i l))) (λ _, array_at p (with_new i xs a)) never.
Proof.
  eapply (hoare_length stored _ a l); [part|]. intros Ha.
  eapply (hoare_length stored _ xs es); [part|]. intros Hx.
  eapply hoare_tail; [apply hoare_store|part|lia| |by intros ? ?%never_star].
  intros [] h H. unfold array_at. gives (take i l ++ es ++ drop i l).
  revert H. apply equiv_at. unfold with_new.
  rewrite (big_star_app stored (take i a)) by (rewrite !length_take; lia).
  rewrite (big_star_app stored xs) by done.
  rewrite (big_star_split stored a l i) by done. aac_reflexivity.
Qed.

(** A gap of null values is there. *)
Lemma store_gap_spec p l a i n xs es :
  hoare 0 (p ↦ BArray l ∗ big_star stored a l ∗ big_star stored xs es)
    (store p (BArray (take i l ++ (replicate n moved ++ es) ++ drop i l)))
    (λ _, array_at p (with_new i (replicate n JNull ++ xs) a)) never.
Proof.
  eapply hoare_conseq; [apply (store_new_spec p l a i (replicate n JNull ++ xs))|done| |done|done].
  intros h. apply equiv_at. rewrite big_star_app by (by rewrite !length_replicate).
  rewrite big_star_moved. aac_reflexivity.
Qed.

Lemma store_nulls_spec p l a i n :
  hoare 0 (p ↦ BArray l ∗ big_star stored a l) (store p (BArray (take i l ++ replicate n moved ++ drop i l)))
    (λ _, array_at p (with_new i (replicate n JNull) a)) never.
Proof.
  pose proof (store_gap_spec p l a i n [] []) as H. rewrite !app_nil_r in H.
  eapply hoare_pre; [|exact H]. simpl. aac_reflexivity.
Qed.

(** What an insertion that throws may leave where there is room. *)
Definition some_null (mid xs : list json) : Prop := Forall2 (λ y x, y = x ∨ y = JNull) mid xs.

Lemma partly_some_null xs mid :
  partly xs (replicate (length xs) JNull) mid → some_null mid xs.
Proof.
  intros [n ->]. revert n. induction xs as [|x xs IH]; intros [|n]; simpl; try (by constructor).
  - constructor; [by right|]. specialize (IH 0). by destruct xs.
  - constructor; [by left|]. apply IH.
Qed.

Lemma some_null_app mid xs ys : some_null mid xs → some_null (mid ++ ys) (xs ++ ys).
Proof. intros H. apply Forall2_app; [done|]. apply Forall_Forall2_diag, Forall_forall. by left. Qed.

Definition stopped_in_place (i : nat) (xs a a' : list json) : Prop :=
  a' = a ∨ ∃ mid, some_null mid xs ∧ a' = with_new i mid a.

Lemma constructs_split {A} F (make : A → code cell) xs l n :
  constructs F make xs l →
  constructs F make (take n xs) (take n l) ∧ constructs F make (drop n xs) (drop n l).
Proof. intros H. split; [by apply Forall2_take|by apply Forall2_drop]. Qed.

Lemma sum_list_append l k : sum_list (l ++ k) = sum_list l + sum_list k.
Proof. induction l as [|x l IH]; simpl; [done|]. rewrite IH. lia. Qed.

Lemma sum_take_drop n xs :
  sum_list (allocations <$> take n xs) + sum_list (allocations <$> drop n xs) = sum_list (allocations <$> xs).
Proof. by rewrite <-sum_list_append, <-fmap_app, take_drop. Qed.

(** The gap is filled with the first of the new elements. *)
Lemma fill_gap_spec {A} F (make : A → code cell) xs ys l p a i :
  constructs F make xs l → i ≤ length a →
  hoare (sum_list (allocations <$> xs)) (array_at p (with_new i (replicate (length l) JNull ++ ys) a) ∗ F)
    (assign_range make p i l) (λ _, array_at p (with_new i (xs ++ ys) a) ∗ F)
    (some_of (λ a', lift (stopped_in_place i (xs ++ ys) a a') ∗ array_at p a' ∗ F)).
Proof.
  intros Hm Hi. pose proof (Forall2_length _ _ _ Hm) as Hlen. rewrite <-Hlen.
  pose proof (assign_range_spec F make xs l p (take i a) (replicate (length xs) JNull) (ys ++ drop i a) Hm) as H.
  rewrite length_take, Nat.min_l, length_replicate in H by lia.
  unfold with_new at 1 2. rewrite <-!app_assoc.
  eapply hoare_conseq; [by apply H|done|done|done|].
  intros h Hh. opens_in Hh. gives (with_new i (x ++ ys) a). revert Hh. apply equiv_at. rewrite lift_emp.
  - unfold with_new. rewrite <-app_assoc. aac_reflexivity.
  - right. exists (x ++ ys). split; [|done]. by apply some_null_app, partly_some_null.
Qed.

Section insertion.
Context (malloc : gmap Z block → Z) (malloc_ok : allocates malloc).

Lemma insert_in_place_spec {A} F (make : A → code cell) xs l p a i :
  constructs F make xs l → i ≤ length a →
  hoare (sum_list (allocations <$> xs)) (array_at p a ∗ F) (insert_in_place make (u_array p) i l)
    (λ _, array_at p (with_new i xs a) ∗ F)
    (some_of (λ a', lift (stopped_in_place i xs a a') ∗ array_at p a' ∗ F)).
Proof.
  intros Hm Hi. pose proof (Forall2_length _ _ _ Hm) as Hlen.
  unfold insert_in_place, array_at at 1. opens. rename c into b.
  call read_array_spec. eapply (hoare_length stored _ a b); [part|]. intros Ha. rewrite <-Ha.
  destruct (Nat.ltb_spec (length l) (length a - i)) as [Hs|Hs].
  - eapply hoare_call; [apply (store_nulls_spec p b a i (length l))|part|]. intros []. 
    pose proof (fill_gap_spec F make xs [] l p a i Hm Hi) as H. rewrite !app_nil_r in H.
    eapply hoare_tail; [exact H|part|done|intros; reorder|intros; reorder].
  - destruct (constructs_split F make xs l (length a - i) Hm) as [Hm1 Hm2].
    set (after := length a - i) in *.
    eapply (hoare_try _ (sum_list (allocations <$> drop after xs)) (sum_list (allocations <$> take after xs))
      _ (F ∗ big_star stored [] [])); [by apply (construct_range_spec F make (drop after xs) _ [] [])| | | |].
    + simpl. instantiate (1 := p ↦ BArray b ∗ big_star stored a b). aac_reflexivity.
    + rewrite Nat.add_comm. by rewrite sum_take_drop.
    + intros h H. unfold array_at. gives a. gives b. revert H. apply equiv_at.
      rewrite lift_emp by (by left). aac_reflexivity.
    + intros es. cbv beta. cbn [app].
      eapply hoare_call; [apply (store_gap_spec p b a i after (drop after xs) es)|part|]. intros [].
      pose proof (fill_gap_spec F make (take after xs) (drop after xs) (take after l) p a i Hm1 Hi) as H.
      rewrite length_take, Nat.min_l, take_drop in H by done.
      eapply hoare_tail; [exact H|part|done|intros; reorder|intros; reorder].
Qed.

Lemma constructs_replicate W make j n :
  hoare (allocations j) W (make ()) (λ e, W ∗ stored j e) W →
  constructs W make (replicate n j) (replicate n ()).
Proof. intros H. by apply Forall2_replicate. Qed.

(** [W] is what the copies of the value [val] need; it may be the array itself. *)
Lemma fill_insert_spec room T j val p a i n :
  i ≤ length a →
  (let W := T ∗ array_at p a in
   hoare (allocations j) W (moved_or_copied malloc false val) (λ e, W ∗ stored j e) W) →
  hoare (1 + S n * allocations j) (T ∗ array_at p a) (fill_insert malloc room (u_array p) i n val)
    (λ _, T ∗ array_at p (with_new i (replicate n j) a))
    (some_of (λ a', lift (stopped_in_place i (replicate n j) a a') ∗ T ∗ array_at p a')).
Proof.
  intros Hi Hc. cbv zeta in Hc. unfold fill_insert. case_bool_decide as Hn.
  { subst n. apply hoare_done. unfold with_new. cbn [replicate app]. by rewrite take_drop. }
  assert (∀ h, (T ∗ array_at p a) h →
    some_of (λ a', lift (stopped_in_place i (replicate n j) a a') ∗ T ∗ array_at p a') h) as Hsame.
  { intros h H. gives a. revert H. apply equiv_at. rewrite lift_emp by (by left). aac_reflexivity. }
  destruct room.
  - eapply (hoare_try _ (allocations j) (n * allocations j)); [exact Hc|apply part_all|lia|intros; apply Hsame; reorder|].
    intros x. cbv beta. eapply (scoped_spec _ j x); [part|].
    eapply hoare_tail; [apply (insert_in_place_spec (stored j x) (λ _, copy malloc x) (replicate n j))
                       |part|by rewrite sum_replicate| |].
    + by apply constructs_replicate, copy_spec.
    + done.
    + intros [] h H. cbv beta in H. reorder.
    + intros h H. opens_in H. gives x0. reorder.
  - eapply (hoare_try _ 1 (n * allocations j)); [apply hoare_tick|apply part_all|lia|intros; apply Hsame; reorder|].
    intros []. cbv beta.
    rewrite <-sum_replicate.
    eapply (hoare_try _ (sum_list (allocations <$> replicate n j)) 0 _ ((T ∗ array_at p a) ∗ big_star stored [] []) emp);
      [apply (construct_range_spec (T ∗ array_at p a) _ (replicate n j) _ [] []); [by apply constructs_replicate|done]
      |simpl; aac_reflexivity|lia|intros; apply Hsame; reorder|].
    intros es. cbv beta. cbn [app]. unfold array_at at 1. opens. call read_array_spec.
    eapply hoare_tail; [apply (store_new_spec p c a i (replicate n j) es)|part|lia| |by intros ? ?%never_star].
    intros [] h H. cbv beta in H. reorder.
Qed.
End insertion.

(** What an insertion of a range that throws may leave: without room, null values
    instead of the elements before the position. *)
Definition stopped_insert (i : nat) (xs a a' : list json) : Prop :=
  stopped_in_place i xs a a' ∨ a' = replicate i JNull ++ drop i a.

(** The path without room: the elements before the position are on their way. *)
Lemma range_insert_moving {A} F (make : A → code cell) xs l p a b i :
  constructs F make xs l → i ≤ length a → length a = length b →
  hoare (sum_list (allocations <$> xs)) (p ↦ BArray b ∗ big_star stored a b ∗ F)
    (store p (BArray (replicate i moved ++ drop i b)) ;;
     es ← on_raise (copy_range make destruct [] l) (iterate destruct (take i b));
     store p (BArray (take i b ++ es ++ drop i b)))
    (λ _, array_at p (with_new i xs a) ∗ F)
    (array_at p (replicate i JNull ++ drop i a) ∗ F).
Proof.
  intros Hm Hi Hab. eapply hoare_pre; [by rewrite (big_star_split stored a b i Hab)|].
  call @hoare_store.
  eapply (hoare_try _ (sum_list (allocations <$> xs)) 0 _ (F ∗ big_star stored (take i a) (take i b))
    (p ↦ BArray (replicate i moved ++ drop i b) ∗ big_star stored (drop i a) (drop i b))
    (λ es, (F ∗ big_star stored xs es) ∗ big_star stored (take i a) (take i b)) _ _ F); [|aac_reflexivity|lia| |].
  - eapply (hoare_on_raise _ _ _ (F ∗ big_star stored (take i a) (take i b))).
    + eapply (hoare_tail _ _ (F ∗ big_star stored [] []) (big_star stored (take i a) (take i b)));
        [by apply (construct_range_spec F make xs l [] [])|simpl; aac_reflexivity|done|intros r h H; cbn [app] in H; reorder|intros; reorder].
    + eapply hoare_tail; [apply (hoare_iterate stored _ (take i a))|part|lia|intros; cbv beta in *; reorder|by intros ? ?%never_star].
      apply Forall_forall. intros ? _ c. apply destruct_spec.
  - intros h H. unfold array_at. gives (replicate i moved ++ drop i b). revert H. apply equiv_at.
    rewrite big_star_app by (by rewrite !length_replicate). rewrite big_star_moved. aac_reflexivity.
  - intros es. cbv beta. eapply (hoare_length stored _ xs es); [part|]. intros Hx.
    eapply hoare_tail; [apply hoare_store|part|lia| |by intros ? ?%never_star].
    intros [] h H. unfold array_at. gives (take i b ++ es ++ drop i b). revert H. apply equiv_at. unfold with_new.
    rewrite (big_star_app stored (take i a)) by (rewrite !length_take; lia).
    rewrite (big_star_app stored xs) by done. aac_reflexivity.
Qed.

Lemma range_insert_spec {A} room F (make : A → code cell) xs l p a i :
  constructs F make xs l → i ≤ length a →
  hoare (1 + sum_list (allocations <$> xs)) (array_at p a ∗ F) (range_insert room make (u_array p) i l)
    (λ _, array_at p (with_new i xs a) ∗ F)
    (some_of (λ a', lift (stopped_insert i xs a a') ∗ array_at p a' ∗ F)).
Proof.
  intros Hm Hi. pose proof (Forall2_length _ _ _ Hm) as Hlen. unfold range_insert. case_bool_decide as Hn.
  { destruct xs, l; try done. apply hoare_done. unfold with_new. cbn [app]. by rewrite take_drop. }
  destruct room.
  - eapply hoare_conseq; [by apply (insert_in_place_spec F make xs l p a i)|lia|done|done|].
    intros h H. opens_in H. gives x. revert H. apply equiv_at. rewrite lift_emp by (by left). aac_reflexivity.
  - eapply (hoare_try _ 1 (sum_list (allocations <$> xs))); [apply hoare_tick|apply part_all|lia| |].
    { intros h H. gives a. revert H. apply equiv_at. rewrite lift_emp by (by left; left). aac_reflexivity. }
    intros []. cbv beta. unfold array_at at 1. opens. rename c into b. call read_array_spec.
    eapply (hoare_length stored _ a b); [part|]. intros Hab.
    eapply hoare_tail; [by apply (range_insert_moving F make xs l p a b i)|part|done|intros; cbv beta in *; reorder|].
    intros h H. gives (replicate i JNull ++ drop i a). revert H. apply equiv_at.
    rewrite lift_emp by (by right). aac_reflexivity.
Qed.

(** The result of an insertion into an array by [f]; other values are refused. *)
Definition inserted (this : Z) (i : nat) (f : list json → result (list json)) (j0 : json) :
    result (JsonIterators.iter * json) :=
  match j0 with
  | JArray a => (λ a', (position this i, JArray a')) <$> f a
  | j0 => Throw (no_insert j0)
  end.

(** An array that an insertion has left as [φ] says. *)
Definition array_part (φ : list json → list json → Prop) (j0 j' : json) : Prop :=
  ∃ a a', j0 = JArray a ∧ j' = JArray a' ∧ φ a a'.

Lemma insert_checked_spec k j0 this i F ins f φ :
  fits i j0 →
  (∀ a p, j0 = JArray a →
    hoare k (this ↦ BValue (mk_cell t_array (u_array p)) ∗ array_at p a ∗ F) (ins (u_array p) i (length a))
      (λ r, lift (r = status (f a)) ∗ this ↦ BValue (mk_cell t_array (u_array p)) ∗
        array_at p (match f a with Ok a' => a' | _ => a end) ∗ F)
      (some_of (λ a', lift (φ a a') ∗ this ↦ BValue (mk_cell t_array (u_array p)) ∗ array_at p a' ∗ F))) →
  hoare k (holds j0 this ∗ F) (insert_checked this (position this i) ins)
    (λ r, lift (r = fst <$> inserted this i f j0) ∗
      holds (modified (λ j0, snd <$> inserted this i f j0) j0) this ∗ F)
    (some_of (λ j', lift (array_part φ j0 j') ∗ holds j' this ∗ F)).
Proof.
  intros Hi Hins. unfold holds at 1, insert_checked. opens. call value_spec.
  eapply (hoare_stored _ j0); [part|]. intros Ht _. unfold type_error_of.
  rewrite Ht, type_name_of_type. unfold modified.
  destruct (decide (m_type j0 = t_array)) as [Ha|Ha].
  2:{ rewrite bool_decide_false by done. apply hoare_done. intros h H.
      assert (inserted this i f j0 = Throw (no_insert j0)) as -> by (by destruct j0).
      unfold holds. cbn [fmap res_fmap]. gives c. reorder. }
  rewrite bool_decide_true by auto. cbn -[vector_max_size]. rewrite Z.eqb_refl. cbn [negb].
  destruct j0 as [| |a| | | | | |]; try done.
  eapply hoare_call; [apply (read_length_spec a c)|part|]. intros [q l]. cbn [snd]. opens.
  assert ((0 <=? Z.of_nat i)%Z = true) as -> by (apply Z.leb_le; lia).
  assert ((Z.of_nat i <=? Z.of_nat (length l))%Z = true) as -> by (apply Z.leb_le; simpl in Hi; lia).
  rewrite H, Nat2Z.id. cbn [negb andb].
  eapply hoare_pre; [by rewrite stored_array|]. opens. subst c. rename c0 into p.
  eapply (hoare_try _ k 0); [by apply (Hins a p)|part|lia| |].
  - intros h Hh. opens_in Hh. apply some_elim. exists (JArray x). apply lift_star. split; [by exists a, x|].
    unfold holds. gives (mk_cell t_array (u_array p)). revert Hh. apply equiv_at.
    rewrite array_at_stored. aac_reflexivity.
  - intros r. cbv beta. opens. subst r. apply hoare_done. intros h Hh. unfold inserted.
    destruct (f a) as [a'|e|]; cbn [fmap res_fmap status fst snd]; unfold holds;
      gives (mk_cell t_array (u_array p)); revert Hh; apply equiv_at;
      rewrite array_at_stored, lift_emp by done; aac_reflexivity.
Qed.

Lemma insert_elements_new a i xs :
  i ≤ length a →
  insert_elements a (Some (Z.of_nat i)) xs =
    if (vector_max_size - Z.of_nat (length a) <? Z.of_nat (length xs))%Z then Throw std_length_error
    else Ok (Some (Z.of_nat i), with_new i xs a).
Proof.
  intros Hi. unfold insert_elements, with_new.
  assert ((0 <=? Z.of_nat i)%Z = true) as -> by (apply Z.leb_le; lia).
  assert ((Z.of_nat i <=? Z.of_nat (length a))%Z = true) as -> by (apply Z.leb_le; lia).
  cbn [negb andb]. destruct (_ <? _)%Z; [done|]. by rewrite Nat2Z.id.
Qed.

(** An insertion of [n] elements that there is room for in the address space. *)
Definition insert_new (i : nat) (xs a : list json) : result (list json) :=
  if (vector_max_size - Z.of_nat (length a) <? Z.of_nat (length xs))%Z then Throw std_length_error
  else Ok (with_new i xs a).

Lemma insert_count_inserted this i cnt j j0 :
  fits i j0 →
  insert_count this (position this i) (Z.of_nat cnt) j j0 = inserted this i (insert_new i (replicate cnt j)) j0.
Proof.
  intros Hi. destruct j0 as [| |a| | | | | |]; try done.
  unfold insert_count, insert_array, inserted, insert_new, position. cbn -[vector_max_size insert_elements].
  rewrite Z.eqb_refl, length_replicate. cbn [negb]. destruct (_ <? _)%Z eqn:E; [done|].
  cbn [mbind res_bind]. rewrite insert_elements_new, length_replicate, Nat2Z.id, E by done. done.
Qed.

Section insertions.
Context (malloc : gmap Z block → Z) (malloc_ok : allocates malloc).

(** [F] is what the copies of [val] need besides the array; it holds the value at
    [val], unless this is the array itself. *)
Lemma insert_count_spec room j0 j this i n val F :
  fits i j0 →
  (∀ a p, j0 = JArray a →
    let W := (this ↦ BValue (mk_cell t_array (u_array p)) ∗ F) ∗ array_at p a in
    hoare (allocations j) W (moved_or_copied malloc false val) (λ e, W ∗ stored j e) W) →
  hoare (1 + S n * allocations j) (holds j0 this ∗ F)
    (insert_count_at malloc room this (position this i) (Z.of_nat n) val)
    (λ r, lift (r = fst <$> insert_count this (position this i) (Z.of_nat n) j j0) ∗
      holds (modified (λ j0, snd <$> insert_count this (position this i) (Z.of_nat n) j j0) j0) this ∗ F)
    (some_of (λ j', lift (array_part (stopped_in_place i (replicate n j)) j0 j') ∗ holds j' this ∗ F)).
Proof.
  intros Hi Hc. unfold modified. rewrite insert_count_inserted by done.
  apply (insert_checked_spec _ j0 this i F _ (insert_new i (replicate n j))); [done|].
  intros a p ->. unfold insert_new. rewrite length_replicate. destruct (_ <? _)%Z.
  { apply hoare_done. intros h H. reorder. }
  rewrite Nat2Z.id. cbn [status fmap res_fmap].
  eapply (hoare_try _ _ 0 _ _ emp); [apply (fill_insert_spec malloc malloc_ok room _ j val p a i n Hi (Hc a p eq_refl))
    |aac_reflexivity|lia| |].
  - intros h H. opens_in H. gives x. reorder.
  - intros []. ends.
Qed.

(** Copies of a part of the array at [q], which stays. *)
Lemma constructs_copies q b l s n :
  length b = length l →
  constructs (q ↦ BArray l ∗ big_star stored b l) (copy malloc) (take n (drop s b)) (take n (drop s l)).
Proof.
  intros Hl. apply Forall2_same_length_lookup_2; [by rewrite !length_take, !length_drop, Hl|].
  intros k j c Hj Hc.
  apply lookup_take_Some in Hj as [Hj _]. apply lookup_take_Some in Hc as [Hc _].
  rewrite lookup_drop in Hj. rewrite lookup_drop in Hc.
  destruct (big_star_one stored b l (s + k) j c) as (F & HF & _); [done..|].
  eapply hoare_pre; [by rewrite HF|].
  eapply hoare_tail; [by apply copy_spec|part|done|intros e|]; intros h H; revert H; apply equiv_at;
    rewrite HF; aac_reflexivity.
Qed.

Lemma insert_range_inserted this other i s e j0 b :
  fits i j0 → other ≠ this → s ≤ e ≤ length b →
  insert_range this (position this i) (position other s) (position other e) (JArray b) j0 =
    inserted this i (insert_new i (take (e - s) (drop s b))) j0.
Proof.
  intros Hi Hne He. destruct j0 as [| |a| | | | | |]; try done.
  unfold insert_range, insert_array, inserted, insert_new, position. cbn -[vector_max_size insert_elements range].
  rewrite !Z.eqb_refl, (proj2 (Z.eqb_neq other this)) by done. cbn [negb]. unfold range.
  rewrite !(proj2 (Z.leb_le _ _)) by lia. cbn [andb mbind res_bind].
  rewrite insert_elements_new by done.
  replace (Z.to_nat (Z.of_nat e - Z.of_nat s)) with (e - s) by lia. rewrite Nat2Z.id.
  by destruct (_ <? _)%Z.
Qed.

(** [insert(pos, first, last)] with a part of another array. *)
Lemma insert_range_spec room j0 b this other i s e :
  fits i j0 → other ≠ this → s ≤ e ≤ length b →
  let xs := take (e - s) (drop s b) in
  let f := insert_range this (position this i) (position other s) (position other e) (JArray b) in
  hoare (1 + sum_list (allocations <$> xs)) (holds j0 this ∗ holds (JArray b) other)
    (insert_range_at malloc room this (position this i) (position other s) (position other e))
    (λ r, lift (r = fst <$> f j0) ∗ holds (modified (λ j, snd <$> f j) j0) this ∗ holds (JArray b) other)
    (some_of (λ j', lift (array_part (stopped_insert i xs) j0 j') ∗ holds j' this ∗ holds (JArray b) other)).
Proof.
  intros Hi Hne He xs f. unfold modified, f. rewrite insert_range_inserted by done. fold xs.
  apply (insert_checked_spec _ j0 this i (holds (JArray b) other) _ (insert_new i xs)); [done|].
  intros a p ->. unfold position. cbn -[vector_max_size holds].
  rewrite !Z.eqb_refl, (proj2 (Z.eqb_neq other this)) by done. cbn [negb].
  unfold holds at 1. opens. call value_spec. eapply hoare_pre; [by rewrite (stored_array b)|]. opens. subst c.
  unfold array_at at 1. opens. rename c0 into q, c into l. call read_array_spec.
  eapply (hoare_length stored _ b l); [part|]. intros Hl.
  rewrite !(proj2 (Z.leb_le _ _)) by lia. cbn [negb andb].
  replace (Z.to_nat (Z.of_nat e - Z.of_nat s)) with (e - s) by lia. rewrite Nat2Z.id.
  assert (length (take (e - s) (drop s l)) = length xs) as ->
    by (unfold xs; rewrite !length_take, !length_drop; lia).
  unfold insert_new. destruct (_ <? _)%Z.
  { apply hoare_done. intros h H. cbn [status fmap res_fmap]. unfold holds.
    gives (mk_cell t_array (u_array q)). cbn [stored]. gives (q, l). reorder. }
  eapply (hoare_try _ _ 0); [apply (range_insert_spec room _ (copy malloc) xs _ p a i (constructs_copies q b l s (e - s) Hl) Hi)
    |part|lia| |].
  - intros h H. opens_in H. gives x. unfold holds. gives (mk_cell t_array (u_array q)).
    cbn [stored]. gives (q, l). reorder.
  - intros []. apply hoare_done. intros h H. cbn [status fmap res_fmap]. cbv beta in H. unfold holds. gives (mk_cell t_array (u_array q)).
    cbn [stored]. gives (q, l). reorder.
Qed.
End insertions.

(** A value refuses a part of itself. *)
Definition refuse_self (_ : list json) : result (list json) :=
  Throw (misfit 211 (lit "passed iterators may not belong to container")).

Lemma insert_self_inserted this i s e src j0 :
  insert_range this (position this i) (position this s) (position this e) src j0 =
    inserted this i refuse_self j0.
Proof.
  destruct j0; try done. unfold insert_range, insert_array, position. simpl. by rewrite !Z.eqb_refl.
Qed.

Lemma insert_range_self_spec malloc room j0 this i s e :
  fits i j0 →
  let f := insert_range this (position this i) (position this s) (position this e) j0 in
  hoare 0 (holds j0 this) (insert_range_at malloc room this (position this i) (position this s) (position this e))
    (λ r, lift (r = fst <$> f j0) ∗ holds (modified (λ j, snd <$> f j) j0) this) (holds j0 this).
Proof.
  intros Hi f. unfold modified, f. rewrite insert_self_inserted.
  eapply (hoare_conseq _ 0 _ (holds j0 this ∗ emp));
    [apply (insert_checked_spec 0 j0 this i emp _ refuse_self (λ a a', a' = a) Hi)|done|intros; reorder| |].
  - intros a p ->. unfold position. simpl. rewrite !Z.eqb_refl. simpl. apply hoare_done. intros h H. reorder.
  - intros r h H. cbv beta in H. unfold modified in H. reorder.
  - intros h H. opens_in H. destruct E as (a & a' & -> & -> & ->). reorder.
Qed.

Lemma holds_distinct i j p q h : (holds i p ∗ holds j q) h → p ≠ q.
Proof.
  intros (h1 & h2 & -> & D & H1 & H2)%star_elim ->.
  apply some_elim in H1 as [c (? & h3 & -> & _ & [_ ->]%pto_elim & _)%star_elim].
  apply some_elim in H2 as [d (? & h4 & -> & _ & [_ ->]%pto_elim & _)%star_elim].
  rewrite map_disjoint_spec in D. eapply (D q); apply lookup_union_Some_l, lookup_singleton_eq.
Qed.

(** ** Triples of erasure *)

(** The iterators point into the container; of another value they may be any. *)
Definition in_range (first last : JsonIterators.iter) (j : json) : Prop :=
  match j with
  | JObject o => is_Some (positions (length o) (object_iterator (m_it first)) (object_iterator (m_it last)))
  | JArray a => is_Some (positions (length a) (array_iterator (m_it first)) (array_iterator (m_it last)))
  | _ => True
  end.

Lemma erase_between_positions {A} (l : list A) first last i j :
  positions (length l) first last = Some (i, j) →
  erase_between l first last = Ok (Some (Z.of_nat i), take i l ++ drop j l) ∧ i ≤ j ≤ length l.
Proof.
  unfold positions, erase_between, range. destruct first as [p|], last as [q|]; try done.
  destruct ((0 <=? p) && (p <=? q) && (q <=? Z.of_nat (length l)))%Z eqn:E; try done.
  intros [= <- <-]. rewrite !andb_true_iff, !Z.leb_le in E. cbn [mbind res_bind default mret].
  split; [|lia]. by rewrite Z2Nat.id by lia.
Qed.

(** Some of the members of a map are a map. *)
Lemma omap_sorted_sublist {V} (o l : list (list Z * V)) : l `sublist_of` o → omap_sorted o → omap_sorted l.
Proof.
  unfold omap_sorted.
  induction 1 as [|x l l' Hl IH|x l l' Hl IH]; intros Hs; [done|..]; apply StronglySorted_inv in Hs as [Hs Hx].
  - constructor; [by apply IH|]. rewrite Forall_forall in *. intros z Hz. apply Hx. by eapply elem_of_sublist.
  - by apply IH.
Qed.

Lemma erase_between_sorted {V} (o : list (list Z * V)) i j :
  i ≤ j → omap_sorted o → omap_sorted (take i o ++ drop j o).
Proof.
  intros Hij. apply omap_sorted_sublist. rewrite <-(take_drop i o) at 3. apply sublist_app; [done|].
  replace j with (i + (j - i)) by lia. rewrite <-drop_drop. apply sublist_drop.
Qed.

(** The part between two positions leaves the list. *)
Lemma big_star_between {X A} (E : X → A → assertion block) xs l i j :
  length xs = length l → i ≤ j →
  big_star E xs l ≡ big_star E (take i xs ++ drop j xs) (take i l ++ drop j l) ∗
    big_star E (take (j - i) (drop i xs)) (take (j - i) (drop i l)).
Proof.
  intros Hl Hij. rewrite (big_star_split E xs l i Hl).
  rewrite (big_star_split E (drop i xs) (drop i l) (j - i)) by (rewrite !length_drop; lia).
  rewrite !drop_drop. replace (i + (j - i)) with j by lia.
  rewrite big_star_app by (rewrite !length_take; lia). aac_reflexivity.
Qed.

Lemma erase_cells_spec p a i j :
  i ≤ j →
  hoare 0 (array_at p a) (erase_cells (u_array p) i j) (λ _, array_at p (take i a ++ drop j a)) never.
Proof.
  intros Hij. unfold array_at at 1, erase_cells. opens. call read_array_spec.
  eapply (hoare_length stored _ a); [part|]. intros Hl.
  eapply hoare_pre; [by rewrite (big_star_between stored a c i j Hl Hij)|]. call @hoare_store.
  eapply hoare_tail; [apply (hoare_iterate stored _ (take (j - i) (drop i a)))|part|lia| |by intros ? ?%never_star].
  - apply Forall_forall. intros ? _ ?. apply destruct_spec.
  - intros [] h H. unfold array_at. gives (take i c ++ drop j c). reorder.
Qed.

Lemma erase_entries_spec p o i j :
  i ≤ j →
  hoare 0 (object_at p o) (erase_entries (u_object p) i j) (λ _, object_at p (take i o ++ drop j o)) never.
Proof.
  intros Hij. unfold object_at at 1, erase_entries. opens. call read_object_spec.
  eapply (hoare_length (stored_member stored) _ o); [part|]. intros Hl.
  eapply hoare_pre; [by rewrite (big_star_between (stored_member stored) o c i j Hl Hij)|]. call @hoare_store.
  eapply hoare_tail; [apply (hoare_iterate (stored_member stored) _ (take (j - i) (drop i o)))|part|lia|
    |by intros ? ?%never_star].
  - apply Forall_forall. intros [k v] _ kc. simpl. opens. apply destruct_spec.
  - intros [] h H. unfold object_at. gives (take i c ++ drop j c). reorder.
Qed.

Lemma erase_primitive_at_spec {A} j this c (r : A) :
  JsonAccess.is_primitive j = true →
  hoare 0 (stored j c ∗ this ↦ BValue c ∗ emp) (erase_primitive this ;; mret r)
    (λ r', lift (r' = r) ∗ holds JNull this) never.
Proof.
  intros Hj. eapply (hoare_conseq _ 0 _ (holds j this)); [|done| |intros ? ? H; exact H|intros ? H; exact H].
  - eapply hoare_call; [by apply (erase_primitive_spec j)|apply part_all|]. intros []. ends.
  - intros h H. unfold holds. gives c. reorder.
Qed.

Lemma erase_object_between_spec this c o first last r :
  is_Some (positions (length o) first last) →
  hoare 0 (stored (JObject o) c ∗ this ↦ BValue c ∗ emp) (erase_object_between this (c_value c) first last)
    (λ it, let x := ('(p, o) ← erase_between o first last; mret (set_object p (set_object r (iter_of this)), JObject o)) in
      lift (it = fst <$> x) ∗ holds (match snd <$> x with Ok j' => j' | _ => JObject o end) this) never.
Proof.
  intros [[i e] Hp]. destruct (erase_between_positions o _ _ i e Hp) as [-> Hie]. unfold erase_object_between.
  eapply hoare_pre; [by rewrite (stored_object o)|]. opens. subst c.
  eapply hoare_call; [apply read_object_at_spec|part|]. intros [q l]. opens. cbn [fst snd] in *.
  assert (length l = length o) as -> by (rewrite <-(length_fmap fst l), <-(length_fmap fst o); by f_equal; tauto).
  rewrite Hp. eapply hoare_call; [apply (erase_entries_spec c0 o i e); lia|part|]. intros [].
  apply hoare_done. intros h H'. cbn [mbind res_bind mret fmap res_fmap fst snd].
  apply lift_star. split; [done|]. apply (holds_object _ c0). reorder.
Qed.

Lemma erase_array_between_spec this c a first last r :
  is_Some (positions (length a) first last) →
  hoare 0 (stored (JArray a) c ∗ this ↦ BValue c ∗ emp) (erase_array_between this (c_value c) first last)
    (λ it, let x := ('(p, a) ← erase_between a first last; mret (set_array p (set_array r (iter_of this)), JArray a)) in
      lift (it = fst <$> x) ∗ holds (match snd <$> x with Ok j' => j' | _ => JArray a end) this) never.
Proof.
  intros [[i e] Hp]. destruct (erase_between_positions a _ _ i e Hp) as [-> Hie]. unfold erase_array_between.
  eapply hoare_call; [apply (read_length_spec a c)|part|]. intros [q l]. opens. cbn [snd] in *.
  rewrite H, Hp. eapply hoare_pre; [by rewrite (stored_array a)|]. opens. subst c.
  eapply hoare_call; [apply (erase_cells_spec c0 a i e); lia|part|]. intros [].
  apply hoare_done. intros h H'. cbn [mbind res_bind mret fmap res_fmap fst snd].
  apply lift_star. split; [done|]. apply (holds_array _ c0). reorder.
Qed.

Lemma erase_range_spec j this first last :
  in_range first last j →
  hoare 0 (holds j this) (erase_range_at this first last)
    (λ r, lift (r = fst <$> erase_range this first last j) ∗
      holds (modified (λ j, snd <$> erase_range this first last j) j) this) never.
Proof.
  intros Hr. unfold holds at 1, erase_range_at, modified, erase_range. opens. call value_spec.
  eapply (hoare_stored _ j); [part|]. intros Ht _. unfold type_error_of. rewrite Ht, type_name_of_type.
  destruct (_ || _).
  { apply hoare_done. intros h H. cbn [fmap res_fmap]. unfold holds. gives c. reorder. }
  destruct j as [|o|a|s|b|z|z|f|]; cbn [m_type].
  1, 9: apply hoare_done; intros h H; cbn [fmap res_fmap]; unfold holds; gives c; reorder.
  3-7: destruct (_ || _); [apply hoare_done; intros h H; cbn [fmap res_fmap]; unfold holds; gives c; reorder
                          |by apply erase_primitive_at_spec].
  - by apply erase_object_between_spec.
  - by apply erase_array_between_spec.
Qed.

(** The iterator points to an element of the container. *)
Definition points_into (pos : JsonIterators.iter) (j : json) : Prop :=
  match j with
  | JObject o =>
      let p := object_iterator (m_it pos) in is_Some (positions (length o) p (next_position p))
  | JArray a =>
      let p := array_iterator (m_it pos) in is_Some (positions (length a) p (next_position p))
  | _ => True
  end.

Lemma erase_at_spec j this pos :
  points_into pos j →
  hoare 0 (holds j this) (erase_at this pos)
    (λ r, lift (r = fst <$> erase_iter this pos j) ∗
      holds (modified (λ j, snd <$> erase_iter this pos j) j) this) never.
Proof.
  intros Hr. unfold holds at 1, erase_at, modified, erase_iter. opens. call value_spec.
  eapply (hoare_stored _ j); [part|]. intros Ht _. unfold type_error_of. rewrite Ht, type_name_of_type.
  destruct (negb (this =? m_object pos)%Z).
  { apply hoare_done. intros h H. cbn [fmap res_fmap]. unfold holds. gives c. reorder. }
  destruct j as [|o|a|s|b|z|z|f|]; cbn [m_type].
  1, 9: apply hoare_done; intros h H; cbn [fmap res_fmap]; unfold holds; gives c; reorder.
  3-7: destruct (negb _); [apply hoare_done; intros h H; cbn [fmap res_fmap]; unfold holds; gives c; reorder
                          |by apply erase_primitive_at_spec].
  - by apply erase_object_between_spec.
  - by apply erase_array_between_spec.
Qed.

(** ** Triples of swap *)

Lemma swap_array_at_spec j0 this other b :
  hoare 0 (holds j0 this ∗ array_at other b) (swap_array_at this other)
    (λ r, lift (r = status (swap_array b j0)) ∗
      holds (modified (λ j, snd <$> swap_array b j) j0) this ∗
      array_at other (match swap_array b j0 with Ok (a, _) => a | _ => b end)) never.
Proof.
  unfold holds at 1, swap_array_at. opens. call value_spec.
  eapply (hoare_stored _ j0); [part|]. intros Ht _. unfold type_error_of, modified.
  rewrite Ht, type_name_of_type. case_bool_decide as Ha.
  2:{ apply hoare_done. intros h H. assert (swap_array b j0 = Throw (no_swap j0)) as -> by (by destruct j0).
      cbn [status fmap res_fmap]. unfold holds. gives c. reorder. }
  destruct j0 as [| |a| | | | | |]; try done.
  eapply hoare_pre; [by rewrite (stored_array a)|]. opens. subst c.
  unfold array_at at 1 2. opens. call read_array_spec. call read_array_spec.
  call @hoare_store. call @hoare_store. apply hoare_done. intros h H.
  cbn [status fmap res_fmap swap_array snd]. unfold holds. gives (mk_cell t_array (u_array c0)).
  cbn [stored]. gives (c0, c1). unfold array_at. gives c. reorder.
Qed.

Lemma swap_object_at_spec j0 this other b :
  hoare 0 (holds j0 this ∗ object_at other b) (swap_object_at this other)
    (λ r, lift (r = status (swap_object b j0)) ∗
      holds (modified (λ j, snd <$> swap_object b j) j0) this ∗
      object_at other (match swap_object b j0 with Ok (a, _) => a | _ => b end)) never.
Proof.
  unfold holds at 1, swap_object_at. opens. call value_spec.
  eapply (hoare_stored _ j0); [part|]. intros Ht _. unfold type_error_of, modified.
  rewrite Ht, type_name_of_type. case_bool_decide as Ha.
  2:{ apply hoare_done. intros h H. assert (swap_object b j0 = Throw (no_swap j0)) as -> by (by destruct j0).
      cbn [status fmap res_fmap]. unfold holds. gives c. reorder. }
  destruct j0 as [|a| | | | | | |]; try done.
  eapply hoare_pre; [by rewrite (stored_object a)|]. opens. subst c.
  unfold object_at at 1 2. opens. call read_object_spec. call read_object_spec.
  call @hoare_store. call @hoare_store. apply hoare_done. intros h H.
  cbn [status fmap res_fmap swap_object snd]. unfold holds. gives (mk_cell t_object (u_object c0)).
  cbn [stored]. gives (c0, c1). unfold object_at. gives c. reorder.
Qed.

Lemma swap_string_at_spec j0 this other b :
  hoare 0 (holds j0 this ∗ other ↦ BString b) (swap_string_at this other)
    (λ r, lift (r = status (swap_string b j0)) ∗
      holds (modified (λ j, snd <$> swap_string b j) j0) this ∗
      other ↦ BString (match swap_string b j0 with Ok (a, _) => a | _ => b end)) never.
Proof.
  unfold holds at 1, swap_string_at. opens. call value_spec.
  eapply (hoare_stored _ j0); [part|]. intros Ht _. unfold type_error_of, modified.
  rewrite Ht, type_name_of_type. case_bool_decide as Ha.
  2:{ apply hoare_done. intros h H. assert (swap_string b j0 = Throw (no_swap j0)) as -> by (by destruct j0).
      cbn [status fmap res_fmap]. unfold holds. gives c. reorder. }
  destruct j0 as [| | |s| | | | |]; try done. cbn [stored]. opens. subst c.
  call read_string_spec. call read_string_spec. call @hoare_store. call @hoare_store.
  apply hoare_done. intros h H. cbn [status fmap res_fmap swap_string snd]. unfold holds.
  gives (mk_cell t_string (u_string c0)). cbn [stored]. gives c0. reorder.
Qed.
