(* ===== verification/StorageMembers.v ===== *)
(** The remaining operations on stored values that take ranges: the constructor from
    two iterators, [insert] of an initializer list, and [insert] and [update] of an
    object with a range of members, as code on the heap. *)

From S2P Require Import Prelude JsonValue JsonAccess JsonIterators JsonModifiers Heap JsonStorage StorageSpec StorageRefines StorageElements StorageRanges.
From AAC_tactics Require Import AAC.
From stdpp Require Import gmap.
Import Storage.
#[local] Open Scope nat_scope.

(** ** The operations *)

(** The elements between two positions. *)
Definition slice {A} (i j : nat) (l : list A) : list A := take (j - i) (drop i l).

Section operations.
Context (malloc : gmap Z block → Z).

(** [basic_json(InputIT first, InputIT last)], the second switch. *)
Definition range_value (c : cell) (first last : JsonIterators.iter) : code json_value :=
  match c_type c with
  | t_object =>
      '(_, o) ← read_object (c_value c);
      if positions (length o) (object_iterator (m_it first)) (object_iterator (m_it last)) is Some (i, j)
      then u_object <$> create malloc (copy_map (copy malloc) destruct (slice i j o)) else stuck
  | t_array =>
      '(_, a) ← read_array (c_value c);
      if positions (length a) (array_iterator (m_it first)) (array_iterator (m_it last)) is Some (i, j)
      then u_array <$> create malloc (copy_vector (copy malloc) destruct (slice i j a)) else stuck
  | _ => copy_value malloc (copy malloc) destruct c
  end.

(** [basic_json(InputIT first, InputIT last)]. *)
Definition of_range (first last : JsonIterators.iter) : code (result cell) :=
  if ((m_object first =? 0) || (m_object last =? 0))%Z then stuck
  else if negb (m_object first =? m_object last)%Z
  then mret (Throw (invalid_iterator_create 201 (lit "iterators are not compatible")))
  else
    c ← value (m_object first);
    match c_type c with
    | t_null | t_discarded =>
        mret (Throw (invalid_iterator_create 206
          (lit "cannot construct with iterators from " ++ type_name (json_of_type (c_type c)))))
    | t =>
        if negb (bool_decide (t = t_object ∨ t = t_array)) &&
           (negb (is_begin (primitive_iterator (m_it first))) ||
            negb (is_end (primitive_iterator (m_it last))))
        then mret (Throw (invalid_iterator_create 204 (lit "iterators out of range")))
        else
          v ← range_value c first last;
          assert_invariant (mk_cell t v) ;;
          mret (Ok (mk_cell t v))
    end.

(** [insert(const_iterator, initializer_list_t)]; the elements are references to
    values, which are moved or copied when the vector constructs its elements. *)
Definition insert_list_at (room : bool) (this : Z) (pos : JsonIterators.iter) (ilist : list (bool * Z)) :
    code (result JsonIterators.iter) :=
  insert_checked this pos (λ v i size,
    if (vector_max_size - Z.of_nat size <? Z.of_nat (length ilist))%Z then mret (Throw std_length_error)
    else range_insert room (λ r, moved_or_copied malloc r.1 r.2) v i ilist ;; mret (Ok ())).

(** [std::map::insert] of one member. *)
Definition insert_member (p : Z) (kv : list Z * cell) : code () :=
  '(_, o) ← read_object (u_object p);
  match omap_find kv.1 o with
  | Some _ => mret ()
  | None => tick ;; tick ;; e ← copy malloc kv.2; add_member (u_object p) kv.1 e
  end.

(** What [insert(first, last)] and [update(first, last)] check of the range, and its
    members. *)
Definition member_range (first last : JsonIterators.iter) (use : json_value → list (list Z * cell) → code ()) :
    code (result ()) :=
  if negb (m_object first =? m_object last)%Z then mret (Throw (misfit 210 (lit "iterators do not fit")))
  else
    d ← value (m_object first);
    if negb (bool_decide (c_type d = t_object))
    then mret (Throw (misfit 202 (lit "iterators first and last must point to objects")))
    else
      '(_, l) ← read_object (c_value d);
      if positions (length l) (object_iterator (m_it first)) (object_iterator (m_it last)) is Some (i, j)
      then use (c_value d) (slice i j l) ;; mret (Ok ()) else stuck.

(** [insert(const_iterator, const_iterator)]. *)
Definition insert_members_at (this : Z) (first last : JsonIterators.iter) : code (result ()) :=
  c ← value this;
  if negb (bool_decide (c_type c = t_object))
  then mret (Throw (type_error_of 309 (lit "cannot use insert() with ") (c_type c)))
  else
    '(p, _) ← read_object (c_value c);
    member_range first last (λ _ l, iterate (insert_member p) l).

(** [update(const_iterator, const_iterator)]. *)
Definition update_range_at (object_first : bool) (this : Z) (first last : JsonIterators.iter) : code (result ()) :=
  transform_null malloc this t_object ;;
  c ← value this;
  if negb (bool_decide (c_type c = t_object))
  then mret (Throw (type_error_of 312 (lit "cannot use update() with ") (c_type c)))
  else
    '(p, _) ← read_object (c_value c);
    member_range first last (λ d l, iterate (update_member malloc object_first p d) l.*1).
End operations.

(** ** Triples of the constructor *)

Lemma range_positions {A} (l : list A) first last i j :
  positions (length l) first last = Some (i, j) → JsonModifiers.range l first last = Ok (slice i j l).
Proof.
  unfold positions, JsonModifiers.range. destruct first as [p|], last as [q|]; try done.
  destruct (_ && _ && _) eqn:E; try done. intros [= <- <-].
  rewrite !andb_true_iff, !Z.leb_le in E. unfold slice. by rewrite Z2Nat.inj_sub by lia.
Qed.

Lemma slice_keys {V W} (l : list (list Z * V)) (o : list (list Z * W)) i j :
  l.*1 = o.*1 → (slice i j l).*1 = (slice i j o).*1.
Proof. intros H. unfold slice. by rewrite !fmap_take, !fmap_drop, H. Qed.

Section specifications.
Context (malloc : gmap Z block → Z) (malloc_ok : allocates malloc).

Lemma big_star_middle {X A} (E : X → A → assertion block) xs l i j :
  length xs = length l → i ≤ j →
  ∃ F, big_star E xs l ≡ big_star E (slice i j xs) (slice i j l) ∗ F.
Proof.
  intros Hl Hij. exists (big_star E (take i xs ++ drop j xs) (take i l ++ drop j l)).
  rewrite (big_star_between E xs l i j Hl Hij). apply star_comm.
Qed.

Lemma copy_members_spec o l i j :
  i ≤ j →
  hoare (allocations (JObject (slice i j o))) (big_star (stored_member stored) o l)
    (create malloc (copy_map (copy malloc) destruct (slice i j l)))
    (λ p, big_star (stored_member stored) o l ∗ stored (JObject (slice i j o)) (mk_cell t_object (u_object p)))
    (big_star (stored_member stored) o l).
Proof.
  intros Hij. eapply (hoare_length (stored_member stored) _ o l); [apply part_all|]. intros Hl.
  destruct (big_star_middle (stored_member stored) o l i j Hl Hij) as [F HF].
  eapply hoare_pre; [by rewrite HF|].
  eapply hoare_tail; [apply create_spec, (copy_map_spec _ _ (slice i j o)) with (l := slice i j l)|part|done| |].
  - done.
  - apply Forall_forall. intros kv _ c. by apply copy_spec.
  - apply Forall_forall. intros kv _ c. apply destruct_spec.
  - intros p h H. cbv beta in H. opens_in H. subst. cbn [stored]. gives (p, x0). revert H. apply equiv_at.
    rewrite HF, lift_emp by done. aac_reflexivity.
  - intros h. apply equiv_at. rewrite HF. aac_reflexivity.
Qed.

Lemma copy_elements_spec a l i j :
  i ≤ j →
  hoare (allocations (JArray (slice i j a))) (big_star stored a l)
    (create malloc (copy_vector (copy malloc) destruct (slice i j l)))
    (λ p, big_star stored a l ∗ stored (JArray (slice i j a)) (mk_cell t_array (u_array p)))
    (big_star stored a l).
Proof.
  intros Hij. eapply (hoare_length stored _ a l); [apply part_all|]. intros Hl.
  destruct (big_star_middle stored a l i j Hl Hij) as [F HF].
  eapply hoare_pre; [by rewrite HF|].
  eapply hoare_tail; [apply create_spec, (copy_vector_spec _ _ (slice i j a)) with (l := slice i j l)|part|by destruct (slice i j a)| |].
  - done.
  - apply Forall_forall. intros x _ c. by apply copy_spec.
  - apply Forall_forall. intros x _ c. apply destruct_spec.
  - intros p h H. cbv beta in H. opens_in H. subst. cbn [stored]. gives (p, x0). revert H. apply equiv_at.
    rewrite HF, lift_emp by done. aac_reflexivity.
  - intros h. apply equiv_at. rewrite HF. aac_reflexivity.
Qed.

(** The value that the range makes. *)
Definition ranged (first last : JsonIterators.iter) (j : json) : json :=
  match j with
  | JObject o =>
      if positions (length o) (object_iterator (m_it first)) (object_iterator (m_it last)) is Some (s, e)
      then JObject (slice s e o) else j
  | JArray a =>
      if positions (length a) (array_iterator (m_it first)) (array_iterator (m_it last)) is Some (s, e)
      then JArray (slice s e a) else j
  | j => j
  end.

Lemma positions_ordered n first last i j : positions n first last = Some (i, j) → i ≤ j ≤ n.
Proof.
  unfold positions. destruct first, last; try done. destruct (_ && _ && _) eqn:E; try done.
  intros [= <- <-]. rewrite !andb_true_iff, !Z.leb_le in E. lia.
Qed.

Lemma range_value_spec j c first last :
  in_range first last j → 
  hoare (allocations (ranged first last j)) (stored j c) (range_value malloc c first last)
    (λ v, stored j c ∗ stored (ranged first last j) (mk_cell (c_type c) v)) (stored j c).
Proof.
  intros Hr. eapply (hoare_stored _ j); [apply part_all|]. intros Ht _. unfold range_value. rewrite Ht at 1.
  destruct j as [|o|a|s|b|z|z|f|]; cbn [m_type].
  1, 4-9: match goal with |- hoare _ (stored ?j ?c ∗ _) _ _ _ =>
      eapply hoare_conseq; [apply (copy_value_spec malloc malloc_ok (copy malloc) destruct j c); constructor
        |reflexivity|intros; reorder|done|done] end.
  - destruct Hr as [[i e] Hp]. pose proof (positions_ordered _ _ _ _ _ Hp). unfold ranged. rewrite Hp.
    cbn [stored]. opens. subst c. eapply (hoare_length (stored_member stored) _ o); [part|]. intros Hl.
    call read_object_spec. rewrite <-Hl, Hp. apply hoare_fmap.
    eapply hoare_tail; [apply (copy_members_spec o c0.2 i e); lia|part|done| |].
    + intros p h H'. cbv beta in H'. cbn [stored] in H'. opens_in H'. gives c0. gives x. reorder.
    + intros h H'. gives c0. reorder.
  - destruct Hr as [[i e] Hp]. pose proof (positions_ordered _ _ _ _ _ Hp). unfold ranged. rewrite Hp.
    cbn [stored]. opens. subst c. eapply (hoare_length stored _ a); [part|]. intros Hl.
    call read_array_spec. rewrite <-Hl, Hp. apply hoare_fmap.
    eapply hoare_tail; [apply (copy_elements_spec a c0.2 i e); lia|part|done| |].
    + intros p h H'. cbv beta in H'. cbn [stored] in H'. opens_in H'. gives c0. gives x. reorder.
    + intros h H'. gives c0. reorder.
Qed.

(** A cell that is the result, or nothing. *)
Definition results (x : result json) (r : result cell) : assertion block :=
  match x, r with Ok j, Ok c => stored j c | _, _ => emp end.

Lemma of_range_spec j first last :
  m_object first ≠ 0%Z → m_object last ≠ 0%Z → in_range first last j →
  hoare (allocations (ranged first last j)) (holds j (m_object first)) (of_range malloc first last)
    (λ r, lift (status r = status (json_of_range first last j)) ∗ holds j (m_object first) ∗
      results (json_of_range first last j) r) (holds j (m_object first)).
Proof.
  intros Hs Hl Hr. unfold of_range, json_of_range.
  rewrite (proj2 (Z.eqb_neq (m_object first) 0)), (proj2 (Z.eqb_neq (m_object last) 0)) by done. cbn [orb].
  destruct (negb (m_object first =? m_object last)%Z).
  { apply hoare_done. intros h H. cbn [results status fmap res_fmap]. reorder. }
  unfold holds at 1. opens. call value_spec. eapply (hoare_stored _ j); [part|]. intros Ht _.
  assert (∀ x : exn, hoare (allocations (ranged first last j)) (stored j c ∗ m_object first ↦ BValue c ∗ emp) (mret (Throw x : result cell))
    (λ r : result cell, lift (status r = Throw x) ∗ holds j (m_object first) ∗ emp) (holds j (m_object first))) as Hthrow.
  { intros x. apply hoare_done. intros h H. unfold holds. gives c. reorder. }
  assert (hoare (allocations (ranged first last j)) (stored j c ∗ m_object first ↦ BValue c ∗ emp)
    (v ← range_value malloc c first last; assert_invariant (mk_cell (c_type c) v) ;; mret (Ok (mk_cell (c_type c) v)))
    (λ r, lift (status r = Ok ()) ∗ holds j (m_object first) ∗ results (Ok (ranged first last j)) r) (holds j (m_object first))) as Hok.
  { eapply (hoare_try _ _ 0); [by apply (range_value_spec j c)|part|lia| |].
    - intros h H. unfold holds. gives c. reorder.
    - intros v. cbv beta. eapply (hoare_stored _ _ (mk_cell (c_type c) v)); [part|]. intros _ Hi.
      rewrite Hi, ret_bind. apply hoare_done. intros h H. unfold holds. cbn [results]. gives c. reorder. }
  rewrite Ht in *.
  destruct j as [|o|a|s|b|z|z|f|]; cbn [m_type json_of_type] in *.
  1, 9: apply Hthrow.
  3-7: destruct (_ || _); [apply Hthrow|apply Hok].
  - destruct Hr as [[i e] Hp]. rewrite (range_positions o _ _ i e Hp).
    assert (ranged first last (JObject o) = JObject (slice i e o)) as E by (unfold ranged; by rewrite Hp).
    rewrite E in *. rewrite bool_decide_true by auto. apply Hok.
  - destruct Hr as [[i e] Hp]. rewrite (range_positions a _ _ i e Hp).
    assert (ranged first last (JArray a) = JArray (slice i e a)) as E by (unfold ranged; by rewrite Hp).
    rewrite E in *. rewrite bool_decide_true by auto. apply Hok.
Qed.

(** ** Triples of insertion *)

(** Copies of other values. *)
Lemma insert_list_spec room j0 xs this i ilist F :
  fits i j0 → constructs F (λ r, moved_or_copied malloc r.1 r.2) xs ilist →
  hoare (1 + sum_list (allocations <$> xs)) (holds j0 this ∗ F)
    (insert_list_at malloc room this (position this i) ilist)
    (λ r, lift (r = fst <$> insert_list this (position this i) xs j0) ∗
      holds (modified (λ j0, snd <$> insert_list this (position this i) xs j0) j0) this ∗ F)
    (some_of (λ j', lift (array_part (stopped_insert i xs) j0 j') ∗ holds j' this ∗ F)).
Proof.
  intros Hi Hm. pose proof (Forall2_length _ _ _ Hm) as Hlen.
  assert (insert_list this (position this i) xs j0 = inserted this i (insert_new i xs) j0) as Hx.
  { destruct j0 as [| |a| | | | | |]; try done.
    unfold insert_list, insert_array, inserted, insert_new, position. cbn -[vector_max_size insert_elements].
    rewrite Z.eqb_refl, insert_elements_new by done. cbn [negb mbind res_bind]. by destruct (_ <? _)%Z. }
  unfold modified. rewrite Hx.
  apply (insert_checked_spec _ j0 this i F _ (insert_new i xs)); [done|].
  intros a p ->. unfold insert_new. rewrite <-Hlen. destruct (_ <? _)%Z.
  { apply hoare_done. intros h H. reorder. }
  cbn [status fmap res_fmap].
  eapply (hoare_try _ _ 0); [by apply (range_insert_spec room F _ xs ilist p a i)|part|lia| |].
  - intros h H. opens_in H. gives x. reorder.
  - intros []. ends.
Qed.

(** ** Triples of the members *)

(** The members of the range, on values. *)
Definition range_of (first last : JsonIterators.iter) (j : json) : result (list (list Z * json)) :=
  if negb (m_object first =? m_object last)%Z then Throw (misfit 210 (lit "iterators do not fit"))
  else match j with
       | JObject o => JsonModifiers.range o (object_iterator (m_it first)) (object_iterator (m_it last))
       | _ => Throw (misfit 202 (lit "iterators first and last must point to objects"))
       end.

(** An object at [other], with its members. *)
Definition whole (other q : Z) (o : list (list Z * json)) (l : list (list Z * cell)) : assertion block :=
  other ↦ BValue (mk_cell t_object (u_object q)) ∗ q ↦ BObject l ∗ big_star (stored_member stored) o l.

Lemma whole_holds other q o l P h : (P ∗ whole other q o l) h → (P ∗ holds (JObject o) other) h.
Proof.
  intros H. unfold whole in H. unfold holds. gives (mk_cell t_object (u_object q)). cbn [stored].
  gives (q, l). reorder.
Qed.

(** The allocations of a copy of the members of a range. *)
Definition range_cost (xs : result (list (list Z * json))) : nat :=
  match xs with Ok l => update_cost l | _ => 0 end.

Lemma member_range_spec P j2 first last use Q R :
  in_range first last j2 →
  (∀ o2 i j q l, j2 = JObject o2 → i ≤ j → l.*1 = o2.*1 → length o2 = length l →
    hoare (update_cost (slice i j o2)) (P ∗ whole (m_object first) q o2 l) (use (u_object q) (slice i j l))
      (λ _, Q (slice i j o2) ∗ holds (JObject o2) (m_object first))
      (R (slice i j o2) ∗ holds (JObject o2) (m_object first))) →
  hoare (range_cost (range_of first last j2)) (P ∗ holds j2 (m_object first)) (member_range first last use)
    (λ r, lift (r = status (range_of first last j2)) ∗
      (match range_of first last j2 with Ok xs => Q xs | _ => P end) ∗ holds j2 (m_object first))
    (some_of (λ xs, lift (range_of first last j2 = Ok xs) ∗ R xs ∗ holds j2 (m_object first))).
Proof.
  intros Hr Huse. unfold member_range, range_of. destruct (negb (m_object first =? m_object last)%Z).
  { apply hoare_done. intros h H. reorder. }
  unfold holds at 1. opens. call value_spec. eapply (hoare_stored _ j2); [part|]. intros Ht _. rewrite Ht.
  destruct (decide (m_type j2 = t_object)) as [Ho|Ho].
  2:{ rewrite bool_decide_false by done. apply hoare_done. intros h H. unfold holds.
      destruct j2; try done; gives c; reorder. }
  rewrite bool_decide_true by done. cbn [negb]. destruct j2 as [|o| | | | | | |]; try done.
  destruct Hr as [[i j] Hp]. pose proof (positions_ordered _ _ _ _ _ Hp) as Hij.
  rewrite (range_positions o _ _ i j Hp). cbn [stored]. opens. subst c. destruct c0 as [q l]. cbn [fst snd].
  call read_object_spec. eapply (hoare_keys _ o l); [part|]. intros Hk.
  eapply (hoare_length (stored_member stored) _ o l); [part|]. intros Hl. rewrite <-Hl, Hp.
  eapply (hoare_try _ (update_cost (slice i j o)) 0 _ (P ∗ whole (m_object first) q o l) emp);
    [apply (Huse o i j q l); [done|lia|done|done]|unfold whole; aac_reflexivity|simpl; lia| |].
  - intros h H. apply some_elim. exists (slice i j o). apply lift_star. split; [done|]. reorder.
  - intros []. cbv beta. apply hoare_done. intros h H. apply lift_star. split; [done|]. reorder.
Qed.

(** Members [l] that can be copied, with the values [xs]. *)
Definition member_copies (F : assertion block) (xs : list (list Z * json)) (l : list (list Z * cell)) : Prop :=
  Forall2 (λ kv kc, kc.1 = kv.1 ∧
    hoare (allocations kv.2) F (copy malloc kc.2) (λ e, F ∗ stored kv.2 e) F) xs l.

Lemma whole_copies other q o l i j :
  l.*1 = o.*1 → length o = length l → member_copies (whole other q o l) (slice i j o) (slice i j l).
Proof.
  intros Hk Hl. apply Forall2_same_length_lookup_2; [unfold slice; by rewrite !length_take, !length_drop, Hl|].
  intros n [k v] [k' c] Hv Hc. unfold slice in Hv, Hc.
  apply lookup_take_Some in Hv as [Hv _]. apply lookup_take_Some in Hc as [Hc _].
  rewrite lookup_drop in Hv. rewrite lookup_drop in Hc.
  assert (k' = k) as ->.
  { assert (l.*1 !! (i + n) = o.*1 !! (i + n)) as H by (by rewrite Hk).
    rewrite !list_lookup_fmap, Hv, Hc in H. by injection H. }
  split; [done|]. destruct (big_star_one (stored_member stored) o l (i + n) (k, v) (k, c)) as (F & HF & _); [done..|].
  simpl in HF. rewrite lift_emp, emp_star in HF by done. unfold whole. cbn [fst snd].
  eapply hoare_pre; [by rewrite HF|].
  eapply hoare_tail; [by apply copy_spec|part|done|intros e|]; intros h H; revert H; apply equiv_at;
    rewrite HF; aac_reflexivity.
Qed.

Lemma insert_member_spec p o F k v c :
  omap_sorted o → hoare (allocations v) F (copy malloc c) (λ e, F ∗ stored v e) F →
  hoare (2 + allocations v) (object_at p o ∗ F) (insert_member malloc p (k, c))
    (λ _, object_at p (omap_emplace k v o) ∗ F) (object_at p o ∗ F).
Proof.
  intros Hs Hc. unfold insert_member. cbn [fst snd]. eapply hoare_pre; [by rewrite <-object_at_stored|].
  eapply hoare_call; [apply (find_member_spec k o (mk_cell t_object (u_object p)))|part|].
  intros [q l]. cbv beta. opens. rename H into Hf. cbn [snd] in Hf. destruct (omap_find k o) as [w|] eqn:Ho.
  - destruct (omap_find k l); [|by destruct Hf as [Hf _]; specialize (Hf eq_refl)].
    apply hoare_done. intros h H. rewrite omap_emplace_found by (rewrite ?Ho; eauto).
    revert H. apply equiv_at. rewrite object_at_stored. aac_reflexivity.
  - rewrite (proj2 Hf eq_refl). eapply hoare_pre; [by rewrite object_at_stored|].
    eapply (hoare_try _ 1 (1 + allocations v)); [apply hoare_tick|apply part_all|lia|intros; reorder|]. intros [].
    eapply (hoare_try _ 1 (allocations v)); [apply hoare_tick|apply part_all|lia|intros; reorder|]. intros [].
    eapply (hoare_try _ (allocations v) 0); [exact Hc|part|lia|intros; reorder|]. intros e. cbv beta.
    eapply hoare_pre; [by rewrite <-object_at_stored|].
    eapply hoare_tail; [by apply (add_member_spec k o v (mk_cell t_object (u_object p)) e)|part|lia|
      |by intros ? ?%never_star].
    intros [] h. apply equiv_at. rewrite object_at_stored. aac_reflexivity.
Qed.

Definition emplace_members (xs o : list (list Z * json)) : list (list Z * json) :=
  fold_left (λ o kv, omap_emplace kv.1 kv.2 o) xs o.

(** Some of the members are there. *)
Definition emplaced (xs o o' : list (list Z * json)) : Prop := ∃ n, o' = emplace_members (take n xs) o.

Lemma insert_loop_spec p F xs l o :
  omap_sorted o → member_copies F xs l →
  hoare (update_cost xs) (object_at p o ∗ F) (iterate (insert_member malloc p) l)
    (λ _, object_at p (emplace_members xs o) ∗ F)
    (some_of (λ o', lift (emplaced xs o o') ∗ object_at p o' ∗ F)).
Proof.
  intros Hs Hl. revert o Hs. induction Hl as [|[k v] [k' c] xs l [Hk Hc] Hl IH]; intros o Hs; [by apply hoare_done|].
  cbn [fst snd] in Hk, Hc. subst k'.
  eapply (hoare_try _ (2 + allocations v) (update_cost xs)); [by apply (insert_member_spec p o F k v c)|apply part_all|done| |].
  { intros h H. gives o. revert H. apply equiv_at. rewrite lift_emp; [aac_reflexivity|]. by exists 0. }
  intros []. cbv beta. eapply hoare_tail; [apply (IH (omap_emplace k v o)); by apply omap_emplace_sorted|part|done| |].
  - intros [] h H. change (emplace_members ((k, v) :: xs) o) with (emplace_members xs (omap_emplace k v o)).
    cbv beta in H. reorder.
  - intros h H. opens_in H. gives x. revert H. apply equiv_at.
    rewrite lift_emp; [aac_reflexivity|]. destruct E as (n & Hx). by exists (S n).
Qed.

Lemma insert_members_range first last src o :
  insert_members first last src (JObject o) =
    (xs ← range_of first last src; mret (JObject (emplace_members xs o))).
Proof. unfold insert_members, range_of. destruct (negb _); [done|]. by destruct src. Qed.

(** What an insertion of members that throws leaves. *)
Definition members_part (φ : list (list Z * json) → list (list Z * json) → list (list Z * json) → Prop)
    (xs : result (list (list Z * json))) (j0 j' : json) : Prop :=
  ∃ o o' l, j0 = JObject o ∧ j' = JObject o' ∧ xs = Ok l ∧ φ l o o'.

(** A range of members goes into an object. *)
Lemma object_range_spec f φ this p o j2 first last use :
  in_range first last j2 →
  (∀ o2 i j q l, j2 = JObject o2 → i ≤ j → l.*1 = o2.*1 → length o2 = length l →
    let xs := slice i j o2 in let F := holds (JObject o2) (m_object first) in
    hoare (update_cost xs) (object_at p o ∗ whole (m_object first) q o2 l) (use (u_object q) (slice i j l))
      (λ _, object_at p (f xs o) ∗ F) (some_of (λ o', lift (φ xs o o') ∗ object_at p o' ∗ F))) →
  let x := (xs ← range_of first last j2; mret (JObject (f xs o))) in
  hoare (range_cost (range_of first last j2))
    (this ↦ BValue (mk_cell t_object (u_object p)) ∗ object_at p o ∗ holds j2 (m_object first))
    (member_range first last use)
    (λ r, lift (r = status x) ∗ holds (match x with Ok j' => j' | _ => JObject o end) this ∗
      holds j2 (m_object first))
    (some_of (λ j', lift (members_part φ (range_of first last j2) (JObject o) j') ∗ holds j' this ∗
      holds j2 (m_object first))).
Proof.
  intros Hr Huse x. set (T := this ↦ BValue (mk_cell t_object (u_object p))).
  assert (∀ o' F h, (object_at p o' ∗ T ∗ F) h → (holds (JObject o') this ∗ F) h) as Hobj.
  { intros o' F h H. unfold holds. gives (mk_cell t_object (u_object p)). revert H. apply equiv_at.
    rewrite object_at_stored. unfold T. aac_reflexivity. }
  eapply hoare_tail; [apply (member_range_spec (object_at p o) j2 first last use (λ xs, object_at p (f xs o))
      (λ xs, some_of (λ o', lift (φ xs o o') ∗ object_at p o')) Hr)|part|done| |].
  - intros o2 i j q l H1 H2 H3 H4. eapply hoare_conseq; [by apply (Huse o2 i j q l)|done|done|done|].
    intros h H. opens_in H. gives x0. reorder.
  - intros r h H. cbv beta in H. opens_in H. subst r. apply lift_star. unfold x.
    destruct (range_of first last j2) as [xs|e|]; (split; [done|]); cbn [mbind res_bind]; apply Hobj; reorder.
  - intros h H. opens_in H. apply some_elim. exists (JObject x1). apply lift_star. split; [by exists o, x1, x0|].
    apply Hobj. reorder.
Qed.

Lemma insert_members_spec j0 j2 this first last :
  sorted_members j0 → in_range first last j2 →
  hoare (range_cost (range_of first last j2)) (holds j0 this ∗ holds j2 (m_object first))
    (insert_members_at malloc this first last)
    (λ r, lift (r = status (insert_members first last j2 j0)) ∗
      holds (modified (insert_members first last j2) j0) this ∗ holds j2 (m_object first))
    (some_of (λ j', lift (members_part emplaced (range_of first last j2) j0 j') ∗
      holds j' this ∗ holds j2 (m_object first))).
Proof.
  intros Hs Hr. unfold holds at 1, insert_members_at, modified. opens. call value_spec.
  eapply (hoare_stored _ j0 c); [part|]. intros Ht _. unfold type_error_of. rewrite Ht, type_name_of_type.
  case_bool_decide as Ha; cbn [negb].
  2:{ apply hoare_done. intros h H. assert (insert_members first last j2 j0 = Throw (no_insert j0)) as -> by (by destruct j0).
      unfold holds at 1. gives c. cbn [status fmap res_fmap]. reorder. }
  destruct j0 as [|o| | | | | | |]; try done. rewrite insert_members_range.
  eapply hoare_pre; [by rewrite (stored_object o c)|]. opens. subst c. rename c0 into p.
  eapply hoare_call; [apply (read_object_at_spec p o)|part|]. intros [p' l']. cbn [fst snd]. opens.
  destruct_and?. subst p'.
  eapply hoare_tail; [apply (object_range_spec emplace_members emplaced this p o j2 first last _ Hr)|part|done
    |intros; cbv beta zeta in *; reorder|intros; reorder].
  intros o2 i j q l -> Hij Hk Hl. cbv zeta.
  eapply hoare_conseq; [by apply insert_loop_spec; [|apply whole_copies]|done|done| |].
  - intros [] h. apply whole_holds.
  - intros h H. opens_in H. apply some_elim. exists x. apply lift_star. split; [done|].
    apply (whole_holds (m_object first) q o2 l). reorder.
Qed.

Lemma update_range_of first last src o :
  update_range first last src (JObject o) =
    (xs ← range_of first last src; mret (JObject (assign_members xs o))).
Proof. unfold update_range, range_of. destruct (negb _); [done|]. by destruct src. Qed.

Lemma update_range_spec b j0 j2 this first last :
  m_type j0 ≠ t_null → sorted_members j0 → sorted_members j2 → in_range first last j2 →
  hoare (range_cost (range_of first last j2)) (holds j0 this ∗ holds j2 (m_object first))
    (update_range_at malloc b this first last)
    (λ r, lift (r = status (update_range first last j2 j0)) ∗
      holds (modified (update_range first last j2) j0) this ∗ holds j2 (m_object first))
    (some_of (λ j', lift (members_part update_stopped (range_of first last j2) j0 j') ∗
      holds j' this ∗ holds j2 (m_object first))).
Proof.
  intros Hn Hs Hs2 Hr. unfold holds at 1, update_range_at, modified. opens.
  eapply (hoare_stored _ j0 c); [part|]. intros Ht _. call_skip c Ht. call value_spec.
  unfold type_error_of. rewrite Ht, type_name_of_type.
  case_bool_decide as Ha; cbn [negb].
  2:{ apply hoare_done. intros h H.
      assert (update_range first last j2 j0 = Throw (type_error_create 312 (lit "cannot use update() with " ++ type_name j0)))
        as -> by (by destruct j0).
      unfold holds at 1. gives c. cbn [status fmap res_fmap]. reorder. }
  destruct j0 as [|o| | | | | | |]; try done. rewrite update_range_of.
  eapply hoare_pre; [by rewrite (stored_object o c)|]. opens. subst c. rename c0 into p.
  eapply hoare_call; [apply (read_object_at_spec p o)|part|]. intros [p' l']. cbn [fst snd]. opens.
  destruct_and?. subst p'.
  eapply hoare_tail; [apply (object_range_spec assign_members update_stopped this p o j2 first last _ Hr)|part|done
    |intros; cbv beta zeta in *; reorder|intros; reorder].
  intros o2 i j q l -> Hij Hk Hl. cbv zeta. set (d := mk_cell t_object (u_object q)).
  assert ((slice i j l).*1 = (slice i j o2).*1) as -> by (by apply slice_keys).
  eapply (hoare_conseq _ (update_cost (slice i j o2)) _ ((object_at p o ∗ stored (JObject o2) d) ∗ m_object first ↦ BValue d));
    [apply hoare_frame, (update_loop_spec malloc malloc_ok b p o2 d (slice i j o2) o Hs)|done|..].
  - apply members_found in Hs2. unfold slice. by apply Forall_take, Forall_drop.
  - intros h H. unfold whole in H. cbn [stored]. gives (q, l). unfold d. reorder.
  - intros [] h H. cbv beta in H. unfold holds. gives d. reorder.
  - intros h H. opens_in H. gives x. unfold holds. gives d. reorder.
Qed.

(** *** Members of the object itself *)

Lemma assign_members_same o l :
  omap_sorted o → Forall (λ kv, omap_find kv.1 o = Some kv.2) l → assign_members l o = o.
Proof. intros Hs. induction 1 as [|[k v] l H _ IH]; simpl in *; [done|]. by rewrite omap_assign_same. Qed.

Lemma emplace_members_same o l :
  omap_sorted o → Forall (λ kv, omap_find kv.1 o = Some kv.2) l → emplace_members l o = o.
Proof.
  intros Hs. induction 1 as [|[k v] l H _ IH]; simpl in *; [done|]. by rewrite omap_emplace_found by (rewrite ?H; eauto).
Qed.

Lemma slice_found i j (o : list (list Z * json)) :
  omap_sorted o → Forall (λ kv, omap_find kv.1 o = Some kv.2) (slice i j o).
Proof. intros Hs. apply members_found in Hs. unfold slice. by apply Forall_take, Forall_drop. Qed.

Lemma member_range_self_spec p o first last use :
  let T := m_object first ↦ BValue (mk_cell t_object (u_object p)) in
  in_range first last (JObject o) →
  (∀ i j l, l.*1 = o.*1 →
    hoare (update_cost (slice i j o)) (object_at p o) (use (u_object p) (slice i j l))
      (λ _, object_at p o) (object_at p o)) →
  hoare (range_cost (range_of first last (JObject o))) (T ∗ object_at p o) (member_range first last use)
    (λ r, lift (r = status (range_of first last (JObject o))) ∗ T ∗ object_at p o) (T ∗ object_at p o).
Proof.
  intros T [[i j] Hp] Huse. unfold member_range, range_of. destruct (negb (m_object first =? m_object last)%Z).
  { apply hoare_done. intros h H. reorder. }
  unfold T. call value_spec. rewrite (range_positions o _ _ i j Hp).
  eapply hoare_call; [apply (read_object_at_spec p o)|part|]. intros [p' l]. cbn [fst snd]. opens.
  destruct_and?. subst p'.
  assert (length l = length o) as -> by (rewrite <-(length_fmap fst l), <-(length_fmap fst o); by f_equal).
  rewrite Hp. eapply (hoare_try _ (update_cost (slice i j o)) 0);
    [by apply (Huse i j l)|part|simpl; lia|intros; reorder|].
  intros []. apply hoare_done. intros h Hh. apply lift_star. split; [done|]. reorder.
Qed.

Lemma insert_self_loop_spec p o l :
  Forall (λ kc, is_Some (omap_find kc.1 o)) l →
  hoare 0 (object_at p o) (iterate (insert_member malloc p) l) (λ _, object_at p o) never.
Proof.
  induction 1 as [|[k c] l Hk Hl IH]; [by apply hoare_done|]. cbn [iterate]. unfold insert_member at 1.
  eapply hoare_assoc. eapply hoare_pre; [by rewrite <-object_at_stored|].
  eapply hoare_call; [apply (find_member_spec k o (mk_cell t_object (u_object p)))|apply part_all|].
  intros [q l']. cbv beta. opens. rename H into Hf. cbn [fst snd] in *. destruct (omap_find k l').
  - rewrite ret_bind. eapply hoare_conseq; [exact IH|done| |done|done].
    intros h. apply equiv_at. by rewrite object_at_stored, star_emp.
  - destruct Hk as [v Hk]. by rewrite (proj1 Hf eq_refl) in Hk.
Qed.

(** The common part of [insert] and [update] with members of the value itself. *)
Lemma self_range_spec (f : json → result json) g j0 first last :
  (∀ o, j0 = JObject o → f j0 = (xs ← range_of first last j0; mret (JObject (g xs o)))) →
  (∀ o i j, j0 = JObject o → g (slice i j o) o = o) → in_range first last j0 →
  status (f j0) = status (range_of first last j0) ∧ modified f j0 = j0 ∨ m_type j0 ≠ t_object.
Proof.
  intros Hf Hg Hr. destruct (decide (m_type j0 = t_object)) as [Ho|Ho]; [left|by right].
  destruct j0 as [|o| | | | | | |]; try done. unfold modified. rewrite (Hf o eq_refl).
  unfold range_of. destruct (negb _); [done|]. destruct Hr as [[i j] Hp].
  rewrite (range_positions o _ _ i j Hp). simpl. by rewrite (Hg o i j).
Qed.

Lemma insert_members_self_spec j0 first last :
  sorted_members j0 → in_range first last j0 →
  hoare (range_cost (range_of first last j0)) (holds j0 (m_object first))
    (insert_members_at malloc (m_object first) first last)
    (λ r, lift (r = status (insert_members first last j0 j0)) ∗ holds j0 (m_object first))
    (holds j0 (m_object first)).
Proof.
  intros Hs Hr. unfold holds at 1, insert_members_at. opens. call value_spec.
  eapply (hoare_stored _ j0 c); [part|]. intros Ht _. unfold type_error_of. rewrite Ht, type_name_of_type.
  case_bool_decide as Ha; cbn [negb].
  2:{ apply hoare_done. intros h H. assert (insert_members first last j0 j0 = Throw (no_insert j0)) as -> by (by destruct j0).
      unfold holds. gives c. cbn [status fmap res_fmap]. reorder. }
  destruct j0 as [|o| | | | | | |]; try done.
  destruct (self_range_spec (insert_members first last (JObject o)) emplace_members (JObject o) first last)
    as [[-> _]|];
    [intros ? [= ->]; apply insert_members_range|intros ? i j [= ->]; by apply emplace_members_same, slice_found|done| |done].
  eapply hoare_pre; [by rewrite (stored_object o c)|]. opens. subst c. rename c0 into p.
  eapply hoare_call; [apply (read_object_at_spec p o)|part|]. intros [p' l']. cbn [fst snd]. opens.
  destruct_and?. subst p'.
  eapply hoare_tail; [apply (member_range_self_spec p o first last _ Hr)|part|done| |].
  - intros i j l Hk. eapply hoare_conseq; [apply (insert_self_loop_spec p o)|lia|done|done|done].
    apply (Forall_fmap fst (λ k, is_Some (omap_find k o))). rewrite (slice_keys l o i j Hk). apply Forall_fmap.
    eapply Forall_impl; [by apply (slice_found i j o)|]. intros [k v] H. simpl in *. rewrite H. eauto.
  - intros r h H. cbv beta in H. opens_in H. apply lift_star. split; [done|]. apply (holds_object _ p). reorder.
  - intros h H. apply (holds_object _ p). reorder.
Qed.

Lemma update_range_self_spec b j0 first last :
  m_type j0 ≠ t_null → sorted_members j0 → in_range first last j0 →
  hoare (range_cost (range_of first last j0)) (holds j0 (m_object first))
    (update_range_at malloc b (m_object first) first last)
    (λ r, lift (r = status (update_range first last j0 j0)) ∗ holds j0 (m_object first))
    (holds j0 (m_object first)).
Proof.
  intros Hn Hs Hr. unfold holds at 1, update_range_at. opens.
  eapply (hoare_stored _ j0 c); [part|]. intros Ht _. call_skip c Ht. call value_spec.
  unfold type_error_of. rewrite Ht, type_name_of_type.
  case_bool_decide as Ha; cbn [negb].
  2:{ apply hoare_done. intros h H.
      assert (update_range first last j0 j0 = Throw (type_error_create 312 (lit "cannot use update() with " ++ type_name j0)))
        as -> by (by destruct j0).
      unfold holds. gives c. cbn [status fmap res_fmap]. reorder. }
  destruct j0 as [|o| | | | | | |]; try done.
  destruct (self_range_spec (update_range first last (JObject o)) assign_members (JObject o) first last)
    as [[-> _]|];
    [intros ? [= ->]; apply update_range_of|intros ? i j [= ->]; by apply assign_members_same, slice_found|done| |done].
  eapply hoare_pre; [by rewrite (stored_object o c)|]. opens. subst c. rename c0 into p.
  eapply hoare_call; [apply (read_object_at_spec p o)|part|]. intros [p' l']. cbn [fst snd]. opens.
  destruct_and?. subst p'.
  eapply hoare_tail; [apply (member_range_self_spec p o first last _ Hr)|part|done| |].
  - intros i j l Hk. rewrite (slice_keys l o i j Hk). by apply update_self_loop_spec, slice_found.
  - intros r h H. cbv beta in H. opens_in H. apply lift_star. split; [done|]. apply (holds_object _ p). reorder.
  - intros h H. apply (holds_object _ p). reorder.
Qed.
End specifications.

(** ** Where it goes wrong *)

(** The references of an initializer list are followed when the vector has already
    moved its elements: a constant reference to the array itself, at the end of [[true]],
    is copied as [[null]]. *)
Definition list_heap : gmap Z block :=
  {[ 1%Z := BValue (mk_cell t_array (u_array 3)); 3%Z := BArray [mk_cell t_boolean (u_boolean true)] ]}.

Theorem insert_list_aliases :
  ∃ m' r, insert_list_at next_address false 1 (position 1 1) [(false, 1%Z)] (mk_mem list_heap 10) = done r m' ∧
    heap m' !! 3%Z = Some (BArray [mk_cell t_boolean (u_boolean true); mk_cell t_array (u_array 4)]) ∧
    heap m' !! 4%Z = Some (BArray [mk_cell t_null u_unset]).
Proof. do 2 eexists. split; [reflexivity|]. split; reflexivity. Qed.
