(* ===== verification/StorageProgram.v ===== *)
(** Programs on stored values: a block with local variables and a sequence of
    operations, each of which may find the memory exhausted.  The values are
    those that the operations on values give, an operation that throws leaves
    every variable as it was (only [update] and the insertion of several elements or
    members may have done a part of their work), and when the variables go out of scope the heap is what it was before. *)

From S2P Require Import Prelude JsonValue JsonAccess JsonIterators JsonModifiers Heap JsonStorage StorageSpec StorageRefines StorageElements StorageRanges StorageMembers.
From AAC_tactics Require Import AAC.
From stdpp Require Import gmap.
Import Storage.
#[local] Open Scope nat_scope.

(** ** Operations *)

(** What is done with a new copy of a value. *)
Inductive use : Type :=
  | use_set_idx (idx : Z)          (* json t(y); x[idx] = std::move(t) *)
  | use_set_key (key : list Z)     (* json t(y); x[key] = std::move(t) *)
  | use_emplace_back               (* x.emplace_back(y) *)
  | use_emplace (key : list Z)     (* x.emplace(key, y) *)
  | use_insert (n : nat).          (* x.insert(x.begin() + min(n, x.size()), y) *)

(** The variables are numbered.  [room] tells whether the memory of the vector is
    enough for the new elements, and positions behind the last element mean the end. *)
Inductive op : Type :=
  | op_type (i : nat) (t : value_t)                      (* x = json(t) *)
  | op_copy (i j : nat)                                  (* x = y *)
  | op_move (i j : nat)                                  (* x = std::move(y) *)
  | op_swap (i j : nat)                                  (* x.swap(y) *)
  | op_push_back (i j : nat)                             (* x.push_back(y) *)
  | op_push_back_move (i j : nat)                        (* x.push_back(std::move(y)) *)
  | op_push_back_member (i : nat) (key : list Z) (j : nat)  (* x.push_back({key, y}) *)
  | op_erase_idx (i idx : nat)                           (* x.erase(idx) *)
  | op_erase_key (i : nat) (key : list Z)                (* x.erase(key) *)
  | op_clear (i : nat)                                   (* x.clear() *)
  | op_use (i : nat) (u : use) (j : nat)                 (* see above *)
  | op_fill (i cnt j : nat)                              (* x = json(cnt, y) *)
  | op_array (i : nat) (js : list nat)                   (* x = json::array({y, z, ...}) *)
  | op_update (i j : nat)                                (* x.update(y) *)
  | op_erase_range (i s e : nat)                         (* x.erase(x.begin() + s, x.begin() + e) *)
  | op_insert_count (room : bool) (i n cnt j : nat)      (* x.insert(x.begin() + n, cnt, y) *)
  | op_insert_range (room : bool) (i n j s e : nat)      (* x.insert(x.begin() + n, y.begin() + s, y.begin() + e) *)
  | op_range (i j s e : nat)                             (* x = json(y.begin() + s, y.begin() + e) *)
  | op_insert_members (i j s e : nat)                    (* x.insert(y.begin() + s, y.begin() + e) *)
  | op_update_range (i j s e : nat).                     (* x.update(y.begin() + s, y.begin() + e) *)

(** The variables of an operation, where they exist. *)
Definition with1 {A C} (d : C) (l : list A) (i : nat) (f : A → C) : C :=
  match l !! i with Some x => f x | None => d end.

Definition with2 {A C} (d : C) (l : list A) (i j : nat) (f : A → A → C) : C :=
  with1 d l i (λ x, with1 d l j (f x)).

(** A modifier that makes a null value an array or an object may leave a value that
    cannot be destroyed ([push_back_null_breaks] below), and [x.push_back(std::move(x))] makes a
    cycle; the program tests for both. *)
Definition unless_null (this : Z) (x : code ()) : code () :=
  c ← value this; if bool_decide (c_type c = t_null) then mret () else x.

(** The indices for which [operator[]] does not compute the size 0. *)
Definition index_ok (idx : Z) : bool := ((0 <=? idx) && (idx <? 2 ^ 64 - 1))%Z.

(** Two positions in a range of [n] elements, in their order. *)
Definition span (n s e : nat) : nat * nat := (min s (min e n), min e n).

(** The iterators of a value of the type [t] with [n] elements at these positions. *)
Definition bounds (this : Z) (t : value_t) (n s e : nat) : JsonIterators.iter * JsonIterators.iter :=
  let '(s, e) := span n s e in
  match t with
  | t_object => (set_object (Some (Z.of_nat s)) (iter_of this), set_object (Some (Z.of_nat e)) (iter_of this))
  | t_array => (position this s, position this e)
  | _ => (set_primitive begin_value (iter_of this), set_primitive end_value (iter_of this))
  end.

Section programs.
Context (malloc : gmap Z block → Z) (object_first : bool).

Definition array_size (this : Z) : code (option nat) :=
  c ← value this;
  if bool_decide (c_type c = t_array)
  then '(_, a) ← read_array (c_value c); mret (Some (length a)) else mret None.

Definition element_count (this : Z) : code (value_t * nat) :=
  c ← value this;
  match c_type c with
  | t_object => '(_, o) ← read_object (c_value c); mret (t_object, length o)
  | t_array => '(_, a) ← read_array (c_value c); mret (t_array, length a)
  | t => mret (t, 0)
  end.

Definition run_erase_range (this : Z) (s e : nat) : code () :=
  '(t, n) ← element_count this;
  let '(first, last) := bounds this t n s e in
  _ ← erase_range_at this first last; mret ().

Definition run_range (this other : Z) (s e : nat) : code () :=
  '(t, n) ← element_count other;
  let '(first, last) := bounds other t n s e in
  r ← of_range malloc first last;
  if r is Ok c then assign this c else mret ().

Definition run_members (at_range : JsonIterators.iter → JsonIterators.iter → code (result ())) (other : Z) (s e : nat) :
    code () :=
  '(t, n) ← element_count other;
  let '(first, last) := bounds other t n s e in
  _ ← at_range first last; mret ().

Definition run_insert_count (room : bool) (this : Z) (n cnt : nat) (val : Z) : code () :=
  size ← array_size this;
  _ ← insert_count_at malloc room this (position this (min n (default 0 size))) (Z.of_nat cnt) val; mret ().

Definition run_insert_range (room : bool) (this : Z) (n : nat) (other : Z) (s e : nat) : code () :=
  size ← array_size this;
  size' ← array_size other;
  if size' is Some m then
    let '(s, e) := span m s e in
    _ ← insert_range_at malloc room this (position this (min n (default 0 size)))
          (position other s) (position other e); mret ()
  else mret ().

Definition run_use (u : use) (this : Z) (make : code cell) : code () :=
  match u with
  | use_set_idx idx =>
      if index_ok idx
      then e ← make; _ ← assign_through (subscript malloc this idx) e; mret ()
      else mret ()
  | use_set_key key => e ← make; _ ← assign_through (subscript_key malloc this key) e; mret ()
  | use_emplace_back => _ ← emplace_back_with malloc this make; mret ()
  | use_emplace key => _ ← emplace_with malloc this key make; mret ()
  | use_insert n =>
      size ← array_size this;
      _ ← insert_with this (position this (min n (default 0 size))) make; mret ()
  end.

Definition run_op (vars : list Z) (o : op) : code () :=
  match o with
  | op_type i t => with1 (mret ()) vars i (λ x, c ← of_type malloc t; assign x c)
  | op_copy i j => with2 (mret ()) vars i j (λ x y, c ← moved_or_copied malloc false y; assign x c)
  | op_move i j => with2 (mret ()) vars i j (λ x y, c ← moved_or_copied malloc true y; assign x c)
  | op_swap i j => with2 (mret ()) vars i j swap
  | op_push_back i j => with2 (mret ()) vars i j (λ x y,
      unless_null x (_ ← push_back malloc x y; mret ()))
  | op_push_back_move i j =>
      if bool_decide (i = j) then mret () else with2 (mret ()) vars i j (λ x y,
        unless_null x (_ ← push_back_move malloc x y; mret ()))
  | op_push_back_member i key j => with2 (mret ()) vars i j (λ x y,
      unless_null x (
        tick ;; c ← moved_or_copied malloc false y;
        scoped c (_ ← push_back_member malloc x (key, c); mret ())))
  | op_erase_idx i idx => with1 (mret ()) vars i (λ x,
      _ ← erase_idx x (Z.of_nat idx); mret ())
  | op_erase_key i key => with1 (mret ()) vars i (λ x, _ ← erase_key x key; mret ())
  | op_clear i => with1 (mret ()) vars i clear
  | op_use i u j => with2 (mret ()) vars i j (λ x y,
      unless_null x (run_use u x (moved_or_copied malloc false y)))
  | op_fill i cnt j => with2 (mret ()) vars i j (λ x y,
      r ← of_count malloc (Z.of_nat cnt) y; if r is Ok c then assign x c else mret ())
  | op_array i js => with1 (mret ()) vars i (λ x,
      if mapM (vars !!.) js is Some ys
      then c ← of_list malloc (pair false <$> ys); assign x c else mret ())
  | op_update i j => with2 (mret ()) vars i j (λ x y,
      unless_null x (_ ← update_from malloc object_first x y; mret ()))
  | op_erase_range i s e => with1 (mret ()) vars i (λ x, run_erase_range x s e)
  | op_insert_count room i n cnt j => with2 (mret ()) vars i j (λ x y, run_insert_count room x n cnt y)
  | op_insert_range room i n j s e => with2 (mret ()) vars i j (λ x y, run_insert_range room x n y s e)
  | op_range i j s e => with2 (mret ()) vars i j (λ x y, run_range x y s e)
  | op_insert_members i j s e => with2 (mret ()) vars i j (λ x y,
      run_members (insert_members_at malloc x) y s e)
  | op_update_range i j s e => with2 (mret ()) vars i j (λ x y,
      unless_null x (run_members (update_range_at malloc object_first x) y s e))
  end.

(** [try { ... } catch (std::bad_alloc&) { }]: whether the operation was done. *)
Definition attempt {A} (x : code A) : code bool := λ m,
  match x m with
  | done _ m => done true m
  | raised m => done false m
  | undefined => undefined
  | out_of_fuel => out_of_fuel
  end.

Fixpoint run_ops (vars : list Z) (ops : list op) : code (list bool) :=
  match ops with
  | [] => mret []
  | o :: ops => b ← attempt (run_op vars o); bs ← run_ops vars ops; mret (b :: bs)
  end.

(** The block: the variables start as null, and are destroyed in the reverse order. *)
Definition program (vars : list Z) (ops : list op) : code (list bool) :=
  iterate (λ x, store x (BValue (mk_cell t_null u_unset))) vars ;;
  bs ← run_ops vars ops;
  iterate (λ x, c ← value x; destruct c ;; store x BRaw) (reverse vars) ;;
  mret bs.
End programs.

(** ** The same on values *)

Definition unless_null_value (j : json) (js js' : list json) : list json :=
  if bool_decide (m_type j = t_null) then js else js'.

Definition use_value (u : use) (y x : json) : json :=
  match u with
  | use_set_idx idx => if index_ok idx then set_idx idx y x else x
  | use_set_key key => set_key key y x
  | use_emplace_back => modified (emplace_back y) x
  | use_emplace key => modified (λ x, snd <$> emplace 0 key y x) x
  | use_insert n =>
      let size := match x with JArray a => length a | _ => 0 end in
      modified (λ x, snd <$> insert_value 0 (position 0 (min n size)) y x) x
  end.

Definition size_of (j : json) : nat :=
  match j with JObject o => length o | JArray a => length a | _ => 0 end.

(** A position in an array; in another value, 0. *)
Definition array_position (n : nat) (j : json) : nat :=
  match j with JArray a => min n (length a) | _ => 0 end.

Definition erase_range_value (s e : nat) (x : json) : json :=
  let '(first, last) := bounds 0 (m_type x) (size_of x) s e in
  modified (λ x, snd <$> erase_range 0 first last x) x.

Definition insert_count_value (n cnt : nat) (y x : json) : json :=
  modified (λ x, snd <$> insert_count 0 (position 0 (array_position n x)) (Z.of_nat cnt) y x) x.

(** The elements of [y] at the positions. *)
Definition part_of (s e : nat) (y : json) : list json :=
  match y with
  | JArray b => let '(s, e) := span (length b) s e in take (e - s) (drop s b)
  | _ => []
  end.

(** [this] and [other] tell the values apart: a value is not inserted into itself. *)
Definition insert_range_value (this other : Z) (n s e : nat) (y x : json) : json :=
  match y with
  | JArray b =>
      let '(s, e) := span (length b) s e in
      modified (λ x, snd <$> insert_range this (position this (array_position n x))
        (position other s) (position other e) y x) x
  | _ => x
  end.

(** The iterators of a value with the identity [this], which is not 0. *)
Definition value_bounds (this : Z) (s e : nat) (y : json) : JsonIterators.iter * JsonIterators.iter :=
  bounds this (m_type y) (size_of y) s e.

Definition range_value_of (s e : nat) (y x : json) : json :=
  let '(first, last) := value_bounds 1 s e y in modified (λ _, json_of_range first last y) x.

Definition insert_members_value (s e : nat) (y x : json) : json :=
  let '(first, last) := value_bounds 1 s e y in modified (insert_members first last y) x.

Definition update_range_value (s e : nat) (y x : json) : json :=
  let '(first, last) := value_bounds 1 s e y in modified (update_range first last y) x.

(** The members of [y] at the positions. *)
Definition members_between (s e : nat) (y : json) : result (list (list Z * json)) :=
  let '(first, last) := value_bounds 1 s e y in range_of first last y.

Definition step (o : op) (js : list json) : list json :=
  match o with
  | op_type i t => with1 js js i (λ _, <[i := json_of_type t]> js)
  | op_copy i j => with2 js js i j (λ _ y, <[i := y]> js)
  | op_move i j => with2 js js i j (λ _ y, <[i := y]> (<[j := JNull]> js))
  | op_swap i j => with2 js js i j (λ x y, <[i := y]> (<[j := x]> js))
  | op_push_back i j => with2 js js i j (λ x y, unless_null_value x js
      (<[i := modified (JsonAccess.push_back y) x]> js))
  | op_push_back_move i j =>
      if bool_decide (i = j) then js else with2 js js i j (λ x y, unless_null_value x js
        (<[i := modified (JsonAccess.push_back y) x]>
          (<[j := if is_array x then JNull else y]> js)))
  | op_push_back_member i key j => with2 js js i j (λ x y, unless_null_value x js
      (<[i := modified (JsonAccess.push_back_member key y) x]> js))
  | op_erase_idx i idx => with1 js js i (λ x,
      <[i := modified (JsonAccess.erase_idx (Z.of_nat idx)) x]> js)
  | op_erase_key i key => with1 js js i (λ x,
      <[i := modified (λ j, snd <$> JsonAccess.erase_key key j) x]> js)
  | op_clear i => with1 js js i (λ x, <[i := JsonAccess.clear x]> js)
  | op_use i u j => with2 js js i j (λ x y, unless_null_value x js (<[i := use_value u y x]> js))
  | op_fill i cnt j => with2 js js i j (λ x y,
      <[i := modified (λ _, json_fill (Z.of_nat cnt) y) x]> js)
  | op_array i l => with1 js js i (λ x,
      <[i := if mapM (js !!.) l is Some ys then JArray ys else x]> js)
  | op_update i j => with2 js js i j (λ x y, unless_null_value x js
      (<[i := modified (λ x, JsonAccess.update x y) x]> js))
  | op_erase_range i s e => with1 js js i (λ x, <[i := erase_range_value s e x]> js)
  | op_insert_count _ i n cnt j => with2 js js i j (λ x y, <[i := insert_count_value n cnt y x]> js)
  | op_insert_range _ i n j s e => with2 js js i j (λ x y,
      <[i := insert_range_value (Z.of_nat i) (Z.of_nat j) n s e y x]> js)
  | op_range i j s e => with2 js js i j (λ x y, <[i := range_value_of s e y x]> js)
  | op_insert_members i j s e => with2 js js i j (λ x y, <[i := insert_members_value s e y x]> js)
  | op_update_range i j s e => with2 js js i j (λ x y,
      unless_null_value x js (<[i := update_range_value s e y x]> js))
  end.

(** The operations that may have done a part of their work: their variables, and
    what may become of the first. *)
Definition partial (o : op) : option (nat * nat * (json → json → json → Prop)) :=
  match o with
  | op_update i j => Some (i, j, update_part)
  | op_insert_count _ i n cnt j => Some (i, j, λ x y,
      array_part (stopped_in_place (array_position n x) (replicate cnt y)) x)
  | op_insert_range _ i n j s e => Some (i, j, λ x y,
      array_part (stopped_insert (array_position n x) (part_of s e y)) x)
  | op_insert_members i j s e => Some (i, j, λ x y, members_part emplaced (members_between s e y) x)
  | op_update_range i j s e => Some (i, j, λ x y, members_part update_stopped (members_between s e y) x)
  | _ => None
  end.

(** What an operation that throws leaves. *)
Definition failed (o : op) (js js' : list json) : Prop :=
  js' = js ∨
  if partial o is Some (i, j, φ)
  then ∃ x y x', js !! i = Some x ∧ js !! j = Some y ∧ φ x y x' ∧ js' = <[i := x']> js
  else False.

(** The operations [ops], of which those that [bs] names were done, take the
    variables from [js] to [js']. *)
Inductive steps : list bool → list op → list json → list json → Prop :=
  | steps_nil js : steps [] [] js js
  | steps_done o ops bs js js' :
      steps bs ops (step o js) js' → steps (true :: bs) (o :: ops) js js'
  | steps_raised o ops bs js js1 js' :
      failed o js js1 → steps bs ops js1 js' → steps (false :: bs) (o :: ops) js js'.

(** The allocations of an operation. *)
Definition op_cost (o : op) (js : list json) : nat :=
  match o with
  | op_type i t => with1 0 js i (λ _, allocations (json_of_type t))
  | op_copy i j => with2 0 js i j (λ _ y, allocations y)
  | op_push_back i j => with2 0 js i j (λ _ y, S (allocations y))
  | op_push_back_move i j => 1
  | op_push_back_member i _ j => with2 0 js i j (λ _ y, 3 + 2 * allocations y)
  | op_use i _ j => with2 0 js i j (λ _ y, 2 + allocations y)
  | op_fill i cnt j => with2 0 js i j (λ _ y, 2 + cnt * allocations y)
  | op_array i l => default 0 ((λ ys, allocations (JArray ys)) <$> mapM (js !!.) l)
  | op_update i j => with2 0 js i j (λ _ y, update_cost (members y))
  | op_insert_count _ i _ cnt j => with2 0 js i j (λ _ y, 1 + S cnt * allocations y)
  | op_insert_range _ i _ j s e => with2 0 js i j (λ _ y, 1 + sum_list (allocations <$> part_of s e y))
  | op_range i j s e => with2 0 js i j (λ _ y,
      let '(first, last) := value_bounds 1 s e y in allocations (ranged first last y))
  | op_insert_members i j s e | op_update_range i j s e =>
      with2 0 js i j (λ _ y, range_cost (members_between s e y))
  | op_move _ _ | op_swap _ _ | op_erase_idx _ _ | op_erase_key _ _ | op_clear _ | op_erase_range _ _ _ => 0
  end.

Fixpoint ops_cost (ops : list op) (js : list json) : nat :=
  match ops with
  | [] => 0
  | o :: ops => op_cost o js + ops_cost ops (step o js)
  end.

(** ** One operation *)

Section refinement.
Context (malloc : gmap Z block → Z) (malloc_ok : allocates malloc) (object_first : bool).

Abbreviation vars_hold := (big_star holds).

(** A call on a part of the variables. *)
Lemma hoare_focus {A} k P P' F Q Q' (x : code A) R :
  P ≡ P' ∗ F → (∀ a h, (Q' a ∗ F) h → Q a h) → (∀ h, P h → R h) →
  hoare k P' x Q' P' → hoare k P x Q R.
Proof.
  intros HP HQ HR Hx. eapply hoare_tail; [exact Hx|exact HP|done|done|].
  intros h H. apply HR. by apply HP.
Qed.

(** The code of an operation on one variable. *)
Lemma with1_spec k js ps i (x : Z → code ()) f g :
  (∀ j, js !! i = Some j → f j = <[i := g j]> js) →
  (∀ j p, js !! i = Some j → ps !! i = Some p →
    hoare k (holds j p) (x p) (λ _, holds (g j) p) (holds j p)) →
  hoare k (vars_hold js ps) (with1 (mret ()) ps i x) (λ _, vars_hold (with1 js js i f) ps)
    (vars_hold js ps).
Proof.
  intros Hf Hx. eapply (hoare_length holds _ js ps); [part|]. intros Hl.
  eapply hoare_pre; [apply star_emp|]. unfold with1. destruct (js !! i) as [j|] eqn:Hj.
  - destruct (lookup_lt_is_Some_2 ps i) as [p Hp]; [rewrite <-Hl; by eapply lookup_lt_Some|].
    rewrite Hp, Hf by done. destruct (big_star_one holds js ps i j p) as (F & H1 & H2); [done..|].
    eapply hoare_focus; [exact H1|intros [] h H; apply (H2 (g j)); exact H|done|by apply Hx].
  - rewrite lookup_ge_None in Hj. rewrite (lookup_ge_None_2 ps) by lia. by apply hoare_done.
Qed.

(** The code of an operation on two variables, which may be the same. *)
Lemma with2_spec k js ps i j (x : Z → Z → code ()) f g1 g2 :
  (∀ a b, js !! i = Some a → js !! j = Some b → f a b = <[i := g1 a b]> (<[j := g2 a b]> js)) →
  (∀ a b p q, i ≠ j → js !! i = Some a → js !! j = Some b →
    hoare k (holds a p ∗ holds b q) (x p q) (λ _, holds (g1 a b) p ∗ holds (g2 a b) q)
      (holds a p ∗ holds b q)) →
  (∀ a p, i = j → js !! i = Some a → hoare k (holds a p) (x p p) (λ _, holds (g1 a a) p) (holds a p)) →
  hoare k (vars_hold js ps) (with2 (mret ()) ps i j x) (λ _, vars_hold (with2 js js i j f) ps)
    (vars_hold js ps).
Proof.
  intros Hf Hne Heq. destruct (decide (i = j)) as [<-|Hij].
  { apply (with1_spec k js ps i (λ p, with1 (mret ()) ps i (x p)) (λ a, with1 js js i (f a)) (λ a, g1 a a)).
    - intros a Ha. unfold with1. rewrite Ha, Hf by done. by rewrite list_insert_insert_eq.
    - intros a p Ha Hp. unfold with1. rewrite Hp. by apply Heq. }
  eapply (hoare_length holds _ js ps); [part|]. intros Hl. eapply hoare_pre; [apply star_emp|].
  unfold with2, with1. destruct (js !! i) as [a|] eqn:Ha.
  2:{ rewrite lookup_ge_None in Ha. rewrite (lookup_ge_None_2 ps) by lia. by apply hoare_done. }
  destruct (lookup_lt_is_Some_2 ps i) as [p Hp]; [rewrite <-Hl; by eapply lookup_lt_Some|].
  rewrite Hp. destruct (js !! j) as [b|] eqn:Hb.
  2:{ rewrite lookup_ge_None in Hb. rewrite (lookup_ge_None_2 ps) by lia. by apply hoare_done. }
  destruct (lookup_lt_is_Some_2 ps j) as [q Hq]; [rewrite <-Hl; by eapply lookup_lt_Some|].
  rewrite Hq, Hf by done.
  destruct (big_star_two holds js ps i j a p b q) as (F & H1 & H2); [done..|].
  eapply (hoare_focus _ _ (holds a p ∗ holds b q) F);
    [by rewrite H1, star_assoc| |done|by apply Hne].
  intros [] h H. apply H2. cbv beta in H. reorder.
Qed.

Lemma unless_null_spec k j p P Q R (x : code ()) F :
  P ≡ holds j p ∗ F →
  (m_type j = t_null → ∀ h, (holds j p ∗ F) h → Q () h) →
  (m_type j ≠ t_null → hoare k (holds j p ∗ F) x Q R) →
  hoare k P (unless_null p x) Q R.
Proof.
  intros HP Hnull Hx. eapply hoare_pre; [exact HP|]. unfold holds at 1, unless_null. opens.
  call value_spec. eapply (hoare_stored _ j); [part|]. intros Ht _. rewrite Ht.
  case_bool_decide as Hn.
  - apply hoare_done. intros h H. apply Hnull; [done|]. unfold holds. gives c. reorder.
  - eapply hoare_conseq; [by apply Hx|done| |done|done].
    intros h H. unfold holds. gives c. reorder.
Qed.

Lemma ignore_spec {A} k P (Q : A → assertion block) Q' R (x : code A) :
  hoare k P x Q R → (∀ a h, Q a h → Q' h) → hoare k P (_ ← x; mret ()) (λ _, Q') R.
Proof.
  intros Hx HQ. rewrite <-(Nat.add_0_r k). apply (hoare_bind _ _ _ Q); [done|].
  intros a. apply hoare_done. apply HQ.
Qed.

Definition op_refines (o : op) : Prop := ∀ js ps, Forall sorted_members js →
  hoare (op_cost o js) (vars_hold js ps) (run_op malloc object_first ps o) (λ _, vars_hold (step o js) ps)
    (vars_hold js ps).

(** The cost of an operation, at the values it works on. *)
Ltac costs := unfold with2, with1; repeat match goal with
  | H : _ !! _ = Some _ |- _ => rewrite H
  end; try subst.

Lemma copied_spec j p :
  hoare (allocations j) (holds j p) (moved_or_copied malloc false p)
    (λ c, holds j p ∗ stored j c) (holds j p).
Proof.
  unfold holds. opens. unfold moved_or_copied. call value_spec.
  eapply hoare_tail; [by apply copy_spec|part|lia| |];
    intros; cbv beta in *; gives c; reorder.
Qed.

Lemma op_type_refines i t : op_refines (op_type i t).
Proof.
  intros js ps _. apply (with1_spec _ _ _ _ _ _ (λ _, json_of_type t)); [done|].
  intros j p Hj _. simpl. costs.
  eapply (hoare_try _ _ 0 _ emp); [by apply of_type_spec|by rewrite emp_star|lia|intros; reorder|].
  intros c. tail assign_spec.
Qed.

Lemma op_copy_refines i j : op_refines (op_copy i j).
Proof.
  intros js ps _. apply (with2_spec _ _ _ _ _ _ _ (λ _ b, b) (λ _ b, b)).
  - intros a b _ Hb. by rewrite (list_insert_id _ _ _ Hb).
  - intros a b p q _ Ha Hb. simpl. costs.
    eapply (hoare_try _ _ 0); [by apply copied_spec|part|lia|intros; reorder|].
    intros c. tail assign_spec.
  - intros a p <- Ha. simpl. costs.
    eapply (hoare_try _ _ 0); [by apply copied_spec|part|lia|intros; reorder|].
    intros c. tail assign_spec.
Qed.

Lemma op_move_refines i j : op_refines (op_move i j).
Proof.
  intros js ps _. apply (with2_spec _ _ _ _ _ _ _ (λ _ b, b) (λ _ _, JNull)); [done|..].
  - intros a b p q _ Ha Hb. simpl.
    eapply hoare_call; [apply move_spec|part|]. intros c. tail assign_spec.
  - intros a p <- Ha. simpl.
    eapply hoare_call; [apply move_spec|part|]. intros c. tail assign_spec.
Qed.

Lemma op_swap_refines i j : op_refines (op_swap i j).
Proof.
  intros js ps _. apply (with2_spec _ _ _ _ _ _ _ (λ _ b, b) (λ a _, a)); [done|..].
  - intros a b p q _ _ _. tail swap_spec.
  - intros a p _ _. tail swap_self_spec.
Qed.

(** The steps of an operation that null skips. *)
Lemma insert_unless_null j g i js :
  js !! i = Some j → unless_null_value j js (<[i := g j]> js) =
    <[i := if bool_decide (m_type j = t_null) then j else g j]> js.
Proof.
  intros Hj. unfold unless_null_value. case_bool_decide; [|done]. by rewrite list_insert_id.
Qed.

Lemma op_push_back_refines i j : op_refines (op_push_back i j).
Proof.
  intros js ps _. apply (with2_spec _ _ _ _ _ _ _
    (λ a b, if bool_decide (m_type a = t_null) then a else modified (JsonAccess.push_back b) a) (λ _ b, b)).
  - intros a b Ha Hb. rewrite (list_insert_id _ _ _ Hb).
    by apply (insert_unless_null a (modified (JsonAccess.push_back b))).
  - intros a b p q _ Ha Hb. simpl. costs. eapply unless_null_spec; [part|..].
    + intros Hn h H. rewrite bool_decide_true by done. reorder.
    + intros Hn. rewrite bool_decide_false by done.
      eapply ignore_spec; [by apply push_back_other_spec|].
      intros r h H. cbv beta in H. opens_in H. reorder.
  - intros a p <- Ha. simpl. costs. eapply unless_null_spec; [part|..].
    + intros Hn h H. rewrite bool_decide_true by done. reorder.
    + intros Hn. rewrite bool_decide_false by done. eapply hoare_pre; [apply star_emp|].
      eapply ignore_spec; [by apply push_back_self_spec|].
      intros r h H. cbv beta in H. opens_in H. reorder.
Qed.

Lemma op_push_back_move_refines i j : op_refines (op_push_back_move i j).
Proof.
  intros js ps _. simpl. case_bool_decide as Hij.
  { apply hoare_done. intros; reorder. }
  apply (with2_spec _ _ _ _ _ _ _
    (λ a b, if bool_decide (m_type a = t_null) then a else modified (JsonAccess.push_back b) a)
    (λ a b, if is_array a then JNull else b)); [|..|done].
  - intros a b Ha Hb. unfold unless_null_value. case_bool_decide as Hn; [|done].
    destruct a; try done. simpl. by rewrite (list_insert_id _ _ _ Hb), list_insert_id.
  - intros a b p q _ Ha Hb. eapply unless_null_spec; [part|..].
    + intros Hn h H. rewrite bool_decide_true by done. by destruct a.
    + intros Hn. rewrite bool_decide_false by done.
      eapply ignore_spec; [by apply push_back_move_spec|].
      intros r h H. cbv beta in H. opens_in H. reorder.
Qed.

Lemma push_back_scoped_spec a b c p key F :
  m_type a ≠ t_null → sorted_members a →
  hoare (2 + allocations b) (holds a p ∗ stored b c ∗ F)
    (scoped c (_ ← push_back_member malloc p (key, c); mret ()))
    (λ _, holds (modified (JsonAccess.push_back_member key b) a) p ∗ F) (holds a p ∗ F).
Proof.
  intros Hn Hs. eapply (scoped_spec _ b); [part|]. eapply ignore_spec.
  - eapply hoare_tail; [by apply push_back_member_spec|part|done|intros ? ? H; exact H|intros; reorder].
  - intros r h H. cbv beta in H. opens_in H. reorder.
Qed.

Lemma op_push_back_member_refines i key j : op_refines (op_push_back_member i key j).
Proof.
  intros js ps Hs. rewrite Forall_lookup in Hs. apply (with2_spec _ _ _ _ _ _ _
    (λ a b, if bool_decide (m_type a = t_null) then a
            else modified (JsonAccess.push_back_member key b) a) (λ _ b, b)).
  - intros a b Ha Hb. rewrite (list_insert_id _ _ _ Hb).
    by apply (insert_unless_null a (modified (JsonAccess.push_back_member key b))).
  - intros a b p q _ Ha Hb. simpl. costs. eapply unless_null_spec; [part|..].
    + intros Hn h H. rewrite bool_decide_true by done. reorder.
    + intros Hn. rewrite bool_decide_false by done.
      eapply (hoare_try _ 1 (2 + 2 * allocations b)); [apply hoare_tick|apply part_all|lia|intros; reorder|].
      intros []. eapply (hoare_try _ (allocations b) (2 + allocations b));
        [apply copied_spec|part|lia|intros; reorder|].
      intros c. eapply hoare_tail; [apply (push_back_scoped_spec a b c p key (holds b q))|part|lia| |];
        [done|by eapply Hs|intros; cbv beta in *; reorder..].
  - intros a p <- Ha. simpl. costs. eapply unless_null_spec; [part|..].
    + intros Hn h H. rewrite bool_decide_true by done. reorder.
    + intros Hn. rewrite bool_decide_false by done.
      eapply (hoare_try _ 1 (2 + 2 * allocations a)); [apply hoare_tick|apply part_all|lia|intros; reorder|].
      intros []. eapply (hoare_try _ (allocations a) (2 + allocations a));
        [apply copied_spec|part|lia|intros; reorder|].
      intros c. eapply hoare_tail; [apply (push_back_scoped_spec a a c p key emp)|part|lia| |];
        [done|by eapply Hs|intros; cbv beta in *; reorder..].
Qed.

Lemma op_erase_idx_refines i idx : op_refines (op_erase_idx i idx).
Proof.
  intros js ps _. apply (with1_spec _ _ _ _ _ _ (modified (JsonAccess.erase_idx (Z.of_nat idx)))); [done|].
  intros j p _ _. eapply ignore_spec.
  - eapply hoare_conseq; [apply erase_idx_spec; lia|done..].
  - intros r h H. cbv beta in H. opens_in H. reorder.
Qed.

Lemma op_erase_key_refines i key : op_refines (op_erase_key i key).
Proof.
  intros js ps _. apply (with1_spec _ _ _ _ _ _
    (modified (λ j, snd <$> JsonAccess.erase_key key j))); [done|].
  intros j p _ _. eapply ignore_spec.
  - eapply hoare_conseq; [apply erase_key_spec|done..].
  - intros r h H. cbv beta in H. opens_in H. reorder.
Qed.

Lemma op_clear_refines i : op_refines (op_clear i).
Proof.
  intros js ps _. apply (with1_spec _ _ _ _ _ _ JsonAccess.clear); [done|].
  intros j p _ _. eapply hoare_conseq; [apply clear_spec|done..].
Qed.

Lemma element_count_spec j p :
  hoare 0 (holds j p) (element_count p) (λ r, lift (r = (m_type j, size_of j)) ∗ holds j p) never.
Proof.
  unfold holds, element_count. opens. call value_spec. eapply (hoare_stored _ j); [part|]. intros Ht _.
  rewrite Ht. destruct j as [|o|a| | | | | |]; simpl m_type.
  2:{ eapply hoare_pre; [by rewrite (stored_object o)|]. opens. subst c.
      eapply hoare_call; [apply read_object_at_spec|part|]. intros [q l]. opens. cbn [fst snd] in *.
      assert (length l = length o) as -> by (rewrite <-(length_fmap fst l), <-(length_fmap fst o); by f_equal; tauto).
      apply hoare_done. intros h Hh. gives (mk_cell t_object (u_object c0)). revert Hh. apply equiv_at.
      rewrite object_at_stored, lift_emp by done. aac_reflexivity. }
  2: eapply hoare_call; [apply (read_length_spec a c)|part|]; intros [q l]; cbn [snd]; opens; rewrite H.
  all: apply hoare_done; intros h Hh; gives c; reorder.
Qed.

Lemma bounds_in_range p j s e :
  in_range (bounds p (m_type j) (size_of j) s e).1 (bounds p (m_type j) (size_of j) s e).2 j.
Proof.
  destruct j; simpl; try done; unfold positions; rewrite !(proj2 (Z.leb_le _ _)) by lia; by eexists.
Qed.

Lemma erase_range_anywhere p j s e :
  modified (λ x, snd <$> erase_range p (bounds p (m_type j) (size_of j) s e).1
    (bounds p (m_type j) (size_of j) s e).2 x) j = erase_range_value s e j.
Proof.
  unfold erase_range_value, modified, erase_range. destruct j; simpl; rewrite ?Z.eqb_refl; try done;
    by destruct (erase_between _ _ _) as [[]|e'|].
Qed.

Lemma op_erase_range_refines i s e : op_refines (op_erase_range i s e).
Proof.
  intros js ps _. apply (with1_spec _ _ _ _ _ _ (erase_range_value s e)); [done|].
  intros j p _ _. unfold run_erase_range.
  eapply hoare_call; [apply (element_count_spec j p)|apply part_all|]. intros [t n]. opens. simplify_eq.
  rewrite (surjective_pairing (bounds _ _ _ _ _)). eapply ignore_spec.
  - eapply hoare_conseq; [apply erase_range_spec, bounds_in_range|done|intros; reorder|done|done].
  - intros r h H. cbv beta in H. opens_in H. rewrite erase_range_anywhere in H. reorder.
Qed.

(** *** New elements *)

Lemma copied_self_makes j p c :
  makes (allocations j) j p c j emp (moved_or_copied malloc false p).
Proof.
  unfold makes, moved_or_copied. call value_spec.
  eapply hoare_tail; [by apply copy_spec|part|lia|intros; cbv beta in *; reorder|intros; reorder].
Qed.

Lemma copied_other_makes j0 p c j q :
  makes (allocations j) j0 p c j (holds j q) (moved_or_copied malloc false q).
Proof.
  unfold makes. eapply hoare_tail; [apply copied_spec|part|lia|intros; cbv beta in *; reorder|intros; reorder].
Qed.

Lemma array_size_of j p :
  hoare 0 (holds j p) (array_size p)
    (λ r, lift (r = match j with JArray a => Some (length a) | _ => None end) ∗ holds j p) never.
Proof.
  unfold holds, array_size. opens. call value_spec. eapply (hoare_stored _ j); [part|]. intros Ht _.
  rewrite Ht. destruct j as [| |a| | | | | |]; simpl m_type.
  3: rewrite bool_decide_true by done;
     eapply hoare_call; [apply (read_length_spec a c)|part|]; intros [q l]; cbn [snd]; opens; rewrite H.
  all: rewrite ?bool_decide_false by done; apply hoare_done; intros h Hh; gives c; reorder.
Qed.

Lemma array_size_spec j p :
  hoare 0 (holds j p) (array_size p)
    (λ r, lift (default 0 r = match j with JArray a => length a | _ => 0 end) ∗ holds j p) never.
Proof.
  eapply hoare_conseq; [apply (array_size_of j p)|done|done| |done].
  intros r h H. cbv beta in H. opens_in H. subst r. apply lift_star. split; [by destruct j|]. reorder.
Qed.

(** A copy that is put into its place. *)
Lemma put_copy_spec {A} k k' j0 j p F make (x : cell → code (result A)) j' :
  (∀ c, makes k j0 p c j F make) →
  (∀ e, hoare k' (holds j0 p ∗ stored j e) (x e) (λ _, holds j' p) (holds j0 p)) →
  hoare (k + k') (holds j0 p ∗ F) (e ← make; _ ← x e; mret ()) (λ _, holds j' p ∗ F) (holds j0 p ∗ F).
Proof.
  intros Hm Hx. unfold holds at 1. opens.
  eapply (hoare_try _ k k'); [apply (Hm c)|part|lia| |].
  { intros h H. unfold holds. gives c. reorder. }
  intros e. cbv beta. eapply (hoare_conseq _ k' _ ((holds j0 p ∗ stored j e) ∗ F)); [|lia| |intros r h H; exact H|intros h H; exact H].
  - eapply (ignore_spec _ _ (λ _, holds j' p ∗ F)); [|by intros].
    eapply hoare_tail; [apply Hx|part|lia|intros; cbv beta in *; reorder|intros; reorder].
  - intros h H. unfold holds at 1. gives c. reorder.
Qed.

(** The place of a value does not matter. *)
Lemma emplace_anywhere p key j x :
  modified (λ x, snd <$> emplace p key j x) x = modified (λ x, snd <$> emplace 0 key j x) x.
Proof. by destruct x. Qed.

Lemma insert_anywhere p n j x :
  fits n x → modified (λ x, snd <$> insert_value p (position p n) j x) x =
    modified (λ x, snd <$> insert_value 0 (position 0 n) j x) x.
Proof.
  unfold modified. destruct x as [| |a| | | | | |]; try done. intros Hn.
  rewrite !insert_value_array by done. by destruct (_ <? _)%Z.
Qed.

Lemma use_spec u k j0 j p F make :
  m_type j0 ≠ t_null → sorted_members j0 → (∀ c, makes k j0 p c j F make) →
  hoare (2 + k) (holds j0 p ∗ F) (run_use malloc u p make) (λ _, holds (use_value u j j0) p ∗ F)
    (holds j0 p ∗ F).
Proof.
  intros Hn Hs Hm. destruct u as [idx|key| |key|n]; simpl.
  - unfold index_ok. destruct (Z.leb_spec 0 idx), (Z.ltb_spec idx (2 ^ 64 - 1)); simpl; try by apply hoare_done.
    eapply hoare_conseq; [apply (put_copy_spec k 1 j0 j p F _ _ (set_idx idx j j0)); [done|]|lia|done..].
    intros e. eapply hoare_conseq; [by apply set_idx_spec|done|intros; eassumption| |intros; eassumption].
    intros r h Hh. cbv beta in Hh. opens_in Hh. reorder.
  - eapply hoare_conseq; [apply (put_copy_spec k 2 j0 j p F _ _ (set_key key j j0)); [done|]|lia|done..].
    intros e. eapply hoare_conseq; [by apply set_key_spec|done|intros; eassumption| |intros; eassumption].
    intros r h Hh. cbv beta in Hh. opens_in Hh. reorder.
  - eapply ignore_spec; [eapply hoare_conseq; [by apply (emplace_back_spec malloc k j0 j p F)|lia|intros; eassumption..]|].
    intros r h Hh. cbv beta in Hh. opens_in Hh. reorder.
  - eapply ignore_spec; [by apply (emplace_spec malloc k j0 j p key F)|].
    intros r h Hh. cbv beta in Hh. opens_in Hh. rewrite emplace_anywhere in Hh. reorder.
  - eapply hoare_call; [apply (array_size_spec j0 p)|part|]. intros size. cbv beta. opens. rewrite H.
    set (n' := min n _). assert (fits n' j0) as Hf by (subst n'; destruct j0; simpl; lia).
    eapply ignore_spec;
      [eapply hoare_conseq; [by apply (insert_spec k j0 j p n' F)|lia|intros; eassumption..]|].
    intros r h Hh. cbv beta in Hh. opens_in Hh. rewrite insert_anywhere in Hh by done. reorder.
Qed.
Lemma op_use_refines i u j : op_refines (op_use i u j).
Proof.
  intros js ps Hs. rewrite Forall_lookup in Hs. apply (with2_spec _ _ _ _ _ _ _
    (λ a b, if bool_decide (m_type a = t_null) then a else use_value u b a) (λ _ b, b)).
  - intros a b Ha Hb. rewrite (list_insert_id _ _ _ Hb).
    by apply (insert_unless_null a (use_value u b)).
  - intros a b p q _ Ha Hb. simpl. costs. eapply unless_null_spec; [part|..].
    + intros Hn h H. rewrite bool_decide_true by done. reorder.
    + intros Hn. rewrite bool_decide_false by done.
      apply use_spec; [done|by eapply Hs|]. intros c. apply copied_other_makes.
  - intros a p <- Ha. simpl. costs. eapply unless_null_spec; [part|..].
    + intros Hn h H. rewrite bool_decide_true by done. reorder.
    + intros Hn. rewrite bool_decide_false by done.
      eapply hoare_conseq; [apply (use_spec u (allocations a) a a p emp); [done|by eapply Hs|]|done|done| |].
      * intros c. apply copied_self_makes.
      * intros [] h H. cbv beta in H. reorder.
      * intros h H. reorder.
Qed.

(** *** Arrays of copies *)

Lemma fill_spec W k a b p q cnt F :
  W ≡ holds a p ∗ F →
  hoare (allocations b) W (moved_or_copied malloc false q) (λ e, W ∗ stored b e) W →
  2 + cnt * allocations b ≤ k →
  hoare k W (r ← of_count malloc (Z.of_nat cnt) q; if r is Ok c then assign p c else mret ())
    (λ _, holds (modified (λ _, json_fill (Z.of_nat cnt) b) a) p ∗ F) W.
Proof.
  intros HW Hm Hk. eapply (hoare_try _ (2 + cnt * allocations b) 0);
    [by apply (of_count_spec malloc malloc_ok W cnt b)|apply part_all|lia|intros; reorder|].
  intros r. cbv beta. unfold modified. destruct (json_fill (Z.of_nat cnt) b) as [j'|e|].
  - opens. subst r. eapply hoare_pre; [by rewrite HW|]. tail assign_spec.
  - opens. subst r. apply hoare_done. intros h H. apply (equiv_at W); [done|]. reorder.
  - opens. subst r. apply hoare_done. intros h H. apply (equiv_at W); [done|]. reorder.
Qed.

Lemma op_fill_refines i cnt j : op_refines (op_fill i cnt j).
Proof.
  intros js ps _. apply (with2_spec _ _ _ _ _ _ _
    (λ a b, modified (λ _, json_fill (Z.of_nat cnt) b) a) (λ _ b, b)).
  - intros a b _ Hb. by rewrite (list_insert_id _ _ _ Hb).
  - intros a b p q _ Ha Hb. simpl. costs. eapply fill_spec; [part| |done].
    eapply hoare_tail; [apply copied_spec|part|lia|intros; cbv beta in *; reorder|intros; reorder].
  - intros a p <- Ha. simpl. costs.
    eapply hoare_conseq; [eapply (fill_spec (holds a p) _ a a p p); [apply part_all|apply copied_spec|done]|done|done| |done].
    intros [] h H. cbv beta in H. reorder.
Qed.

Lemma copied_var_spec js ps k v y :
  js !! k = Some v → ps !! k = Some y →
  hoare (allocations v) (vars_hold js ps) (moved_or_copied malloc false y)
    (λ e, vars_hold js ps ∗ stored v e) (vars_hold js ps).
Proof.
  intros Hv Hy. destruct (big_star_one holds js ps k v y) as (F & H1 & _); [done..|].
  eapply hoare_tail; [apply copied_spec|exact H1|done| |].
  - intros e h. apply equiv_at. rewrite H1. aac_reflexivity.
  - intros h. apply equiv_at. rewrite H1. aac_reflexivity.
Qed.

Lemma assign_var_spec js ps i p j c :
  is_Some (js !! i) → ps !! i = Some p →
  hoare 0 (vars_hold js ps ∗ stored j c) (assign p c) (λ _, vars_hold (<[i := j]> js) ps) never.
Proof.
  intros [v Hv] Hp. destruct (big_star_one holds js ps i v p) as (F & H1 & H2); [done..|].
  eapply hoare_pre; [by rewrite H1|].
  eapply hoare_tail; [apply (assign_spec v j p c)|part|done| |by intros ? ?%never_star].
  intros [] h. apply equiv_at. rewrite (H2 j). aac_reflexivity.
Qed.

(** The values and the addresses of the same variables. *)
Lemma vars_lookups js ps l :
  length js = length ps →
  match mapM (js !!.) l, mapM (ps !!.) l with
  | Some vs, Some ys =>
      constructs (vars_hold js ps) (λ r, moved_or_copied malloc r.1 r.2) vs (pair false <$> ys)
  | None, None => True
  | _, _ => False
  end.
Proof.
  intros Hl. induction l as [|k l IH]; simpl; [constructor|].
  destruct (js !! k) as [v|] eqn:Hv.
  - destruct (lookup_lt_is_Some_2 ps k) as [y Hy]; [rewrite <-Hl; by eapply lookup_lt_Some|].
    rewrite Hy. simpl. destruct (mapM (js !!.) l), (mapM (ps !!.) l); simpl; try done.
    constructor; [|done]. by apply (copied_var_spec js ps k).
  - apply lookup_ge_None in Hv. by rewrite (lookup_ge_None_2 ps) by lia.
Qed.

Lemma op_array_refines i l : op_refines (op_array i l).
Proof.
  intros js ps _. simpl. eapply (hoare_length holds _ js ps); [part|]. intros Hl.
  eapply hoare_pre; [apply star_emp|]. pose proof (vars_lookups js ps l Hl) as Hv. unfold with1.
  destruct (js !! i) as [j|] eqn:Hj.
  2:{ apply lookup_ge_None in Hj. rewrite (lookup_ge_None_2 ps) by lia. by apply hoare_done. }
  destruct (lookup_lt_is_Some_2 ps i) as [p Hp]; [rewrite <-Hl; by eapply lookup_lt_Some|]. rewrite Hp.
  destruct (mapM (js !!.) l) as [vs|], (mapM (ps !!.) l) as [ys|]; try done.
  2:{ apply hoare_done. by rewrite list_insert_id. }
  eapply (hoare_try _ (allocations (JArray vs)) 0);
    [by apply (array_of_spec malloc malloc_ok (vars_hold js ps))|apply part_all|simpl; lia|intros; reorder|].
  intros c. cbv beta.
  eapply hoare_tail; [by apply (assign_var_spec js ps i p (JArray vs) c)|part|lia| |by intros ? ?%never_star].
  intros [] h H. cbv beta in H. reorder.
Qed.

(** *** [update] *)

(** An operation that leaves what [failed] says where it throws. *)
Definition op_safe (o : op) : Prop := ∀ js ps, Forall sorted_members js →
  hoare (op_cost o js) (vars_hold js ps) (run_op malloc object_first ps o) (λ _, vars_hold (step o js) ps)
    (some_of (λ js', lift (failed o js js') ∗ vars_hold js' ps)).

Lemma refines_safe o : op_refines o → op_safe o.
Proof.
  intros Ho js ps Hs. eapply hoare_conseq; [by apply Ho|done|done|done|].
  intros h H. apply some_elim. exists js. apply lift_star. split; [by left|done].
Qed.

(** The code of an operation on two variables that may do a part of its work on the
    first. *)
Definition left_as (φ : json → json → json → Prop) (a b x : json) : Prop := x = a ∨ φ a b x.

Lemma with2_partial o i j φ (x : Z → Z → code ()) g js ps k :
  partial o = Some (i, j, φ) →
  (∀ a b p q, i ≠ j → js !! i = Some a → js !! j = Some b →
    hoare k (holds a p ∗ holds b q) (x p q) (λ _, holds (g a b) p ∗ holds b q)
      (some_of (λ x', lift (left_as φ a b x') ∗ holds x' p ∗ holds b q))) →
  (∀ a p, i = j → js !! i = Some a →
    hoare k (holds a p) (x p p) (λ _, holds (g a a) p) (some_of (λ x', lift (left_as φ a a x') ∗ holds x' p))) →
  hoare k (vars_hold js ps) (with2 (mret ()) ps i j x)
    (λ _, vars_hold (with2 js js i j (λ a b, <[i := g a b]> js)) ps)
    (some_of (λ js', lift (failed o js js') ∗ vars_hold js' ps)).
Proof.
  intros Ho Hne Heq. unfold failed. rewrite Ho. eapply (hoare_length holds _ js ps); [part|]. intros Hl.
  eapply hoare_pre; [apply star_emp|]. unfold with2, with1. destruct (js !! i) as [a|] eqn:Ha.
  2:{ apply lookup_ge_None in Ha. rewrite (lookup_ge_None_2 ps) by lia. by apply hoare_done. }
  destruct (lookup_lt_is_Some_2 ps i) as [p Hp]; [rewrite <-Hl; by eapply lookup_lt_Some|]. rewrite Hp.
  destruct (js !! j) as [b|] eqn:Hb.
  2:{ apply lookup_ge_None in Hb. rewrite (lookup_ge_None_2 ps) by lia. by apply hoare_done. }
  destruct (lookup_lt_is_Some_2 ps j) as [q Hq]; [rewrite <-Hl; by eapply lookup_lt_Some|]. rewrite Hq.
  assert (∀ x' h, left_as φ a b x' → vars_hold (<[i := x']> js) ps h →
    some_of (λ js', lift (js' = js ∨ ∃ x y x', Some a = Some x ∧ Some b = Some y ∧ φ x y x' ∧ js' = <[i := x']> js)
      ∗ vars_hold js' ps) h) as Hfail.
  { intros x' h Hx' H. apply some_elim. exists (<[i := x']> js). apply lift_star. split; [|done].
    destruct Hx' as [->|Hx']; [left; by apply list_insert_id|right; by exists a, b, x']. }
  destruct (decide (i = j)) as [<-|Hij].
  - simplify_eq. destruct (big_star_one holds js ps i a p) as (F & H1 & H2); [done..|].
    eapply hoare_tail; [by apply Heq|exact H1|done|intros [] h H; by apply (H2 (g a a))|].
    intros h H. opens_in H. apply (Hfail x0); [done|]. by apply H2.
  - destruct (big_star_two holds js ps i j a p b q) as (F & H1 & H2); [done..|].
    assert (∀ x h, ((holds x p ∗ holds b q) ∗ F) h → vars_hold (<[i := x]> js) ps h) as Hx.
    { intros x' h H. rewrite <-(list_insert_id js j b Hb). apply H2. reorder. }
    eapply hoare_tail; [by apply Hne|by rewrite H1, star_assoc|done|intros [] h H; by apply Hx|].
    intros h H. opens_in H. apply (Hfail x0); [done|]. apply Hx. reorder.
Qed.

Lemma update_same x :
  m_type x ≠ t_null → sorted_members x → modified (λ y, JsonAccess.update y x) x = x.
Proof.
  unfold modified. destruct x as [|o| | | | | | |]; try done. intros _ Hs. simpl. f_equal.
  by apply assign_members_same, members_found.
Qed.

Lemma op_update_safe i j : op_safe (op_update i j).
Proof.
  intros js ps Hs. rewrite Forall_lookup in Hs.
  eapply hoare_conseq; [apply (with2_partial (op_update i j) i j update_part _
    (λ a b, if bool_decide (m_type a = t_null) then a else modified (λ x, JsonAccess.update x b) a)
    js ps (op_cost (op_update i j) js) eq_refl)|done|done| |done].
  - intros a b p q Hij Ha Hb. simpl. costs. eapply unless_null_spec; [part|..].
    + intros Hn h H. rewrite bool_decide_true by done. reorder.
    + intros Hn. rewrite bool_decide_false by done. eapply ignore_spec.
      * eapply hoare_conseq; [by apply (update_from_spec malloc malloc_ok object_first a b p q); eauto
          |done|intros; reorder|intros r h H; exact H|].
        intros h H. opens_in H. apply some_elim. exists x. apply lift_star. split; [by right|]. reorder.
      * intros r h H. cbv beta in H. opens_in H. reorder.
  - intros a p <- Ha. simpl. costs. eapply unless_null_spec; [apply part_all|..].
    + intros Hn h H. rewrite bool_decide_true by done. reorder.
    + intros Hn. rewrite bool_decide_false, update_same by eauto. eapply ignore_spec.
      * eapply hoare_conseq; [by apply (update_from_self_spec malloc malloc_ok object_first a p); eauto
          |done|intros; reorder|intros r h H; exact H|].
        intros h H. apply some_elim. exists a. apply lift_star. split; [by left|]. reorder.
      * intros r h H. cbv beta in H. opens_in H. reorder.
  - intros [] h. unfold with2, with1. simpl. unfold with2, with1. destruct (js !! i) eqn:Ha; [|done].
    destruct (js !! j); [|done]. by rewrite (insert_unless_null _ (modified _)).
Qed.

(** *** Several new elements *)

Lemma array_position_fits n j : fits (array_position n j) j.
Proof. destruct j; simpl; lia. Qed.

Lemma insert_count_anywhere p n cnt y x :
  modified (λ x', snd <$> insert_count p (position p (array_position n x)) (Z.of_nat cnt) y x') x =
    insert_count_value n cnt y x.
Proof.
  unfold insert_count_value, modified. rewrite !insert_count_inserted by apply array_position_fits.
  destruct x; try done. simpl. by destruct (insert_new _ _ _).
Qed.

Lemma insert_count_value_spec room j0 j p n cnt val F :
  (∀ a q, j0 = JArray a →
    let W := (p ↦ BValue (mk_cell t_array (u_array q)) ∗ F) ∗ array_at q a in
    hoare (allocations j) W (moved_or_copied malloc false val) (λ e, W ∗ stored j e) W) →
  hoare (1 + S cnt * allocations j) (holds j0 p ∗ F) (run_insert_count malloc room p n cnt val)
    (λ _, holds (insert_count_value n cnt j j0) p ∗ F)
    (some_of (λ x', lift (array_part (stopped_in_place (array_position n j0) (replicate cnt j)) j0 x') ∗
      holds x' p ∗ F)).
Proof.
  intros Hc. unfold run_insert_count.
  eapply hoare_call; [apply (array_size_spec j0 p)|part|]. intros size. cbv beta. opens. rewrite H.
  assert (min n (match j0 with JArray a => length a | _ => 0 end) = array_position n j0) as ->
    by (destruct j0; simpl; lia).
  eapply ignore_spec.
  - eapply hoare_conseq; [by apply (insert_count_spec malloc malloc_ok room j0 j p (array_position n j0) cnt val F (array_position_fits n j0))
      |done|intros; reorder|intros r h Hh; exact Hh|done].
  - intros r h Hh. cbv beta in Hh. opens_in Hh. rewrite insert_count_anywhere in Hh. reorder.
Qed.

Lemma copied_element_spec a p q :
  let W := (p ↦ BValue (mk_cell t_array (u_array q)) ∗ emp) ∗ array_at q a in
  hoare (allocations (JArray a)) W (moved_or_copied malloc false p) (λ e, W ∗ stored (JArray a) e) W.
Proof.
  cbv zeta. unfold moved_or_copied. call value_spec. eapply hoare_pre; [by rewrite <-array_at_stored|].
  eapply hoare_tail; [by apply copy_spec|part|done|intros e|]; intros h H; revert H; apply equiv_at;
    rewrite array_at_stored; aac_reflexivity.
Qed.

Lemma op_insert_count_safe room i n cnt j : op_safe (op_insert_count room i n cnt j).
Proof.
  intros js ps Hs. apply (with2_partial (op_insert_count room i n cnt j) i j _ _ _ js ps _ eq_refl).
  - intros a b p q Hij Ha Hb. simpl. costs.
    eapply hoare_conseq; [apply (insert_count_value_spec room a b p n cnt q (holds b q))|done|done|done|].
    + intros a' r ->. cbv zeta.
      eapply hoare_tail; [apply (copied_spec b q)|part|done|intros; cbv beta in *; reorder|intros; reorder].
    + intros h H. opens_in H. apply some_elim. exists x. apply lift_star. split; [by right|]. reorder.
  - intros a p <- Ha. simpl. costs.
    eapply hoare_conseq; [apply (insert_count_value_spec room a a p n cnt p emp)|done|intros; reorder| |].
    + intros a' r ->. apply copied_element_spec.
    + intros; cbv beta in *; reorder.
    + intros h H. opens_in H. apply some_elim. exists x. apply lift_star. split; [by right|]. reorder.
Qed.

Lemma insert_range_anywhere p q i j n s e b x :
  p ≠ q → i ≠ j → s ≤ e ≤ length b →
  modified (λ x', snd <$> insert_range p (position p (array_position n x)) (position q s) (position q e) (JArray b) x') x =
  modified (λ x, snd <$> insert_range i (position i (array_position n x)) (position j s) (position j e) (JArray b) x) x.
Proof.
  intros Hpq Hij He. unfold modified. rewrite !insert_range_inserted by (done || apply array_position_fits).
  destruct x; try done. simpl. by destruct (insert_new _ _ _).
Qed.

Lemma span_ordered n s e : (span n s e).1 ≤ (span n s e).2 ≤ n.
Proof. unfold span. simpl. lia. Qed.

Lemma op_insert_range_other room x y p q i j n s e :
  i ≠ j →
  hoare (1 + sum_list (allocations <$> part_of s e y)) (holds x p ∗ holds y q)
    (run_insert_range malloc room p n q s e)
    (λ _, holds (insert_range_value i j n s e y x) p ∗ holds y q)
    (some_of (λ x', lift (array_part (stopped_insert (array_position n x) (part_of s e y)) x x') ∗
      holds x' p ∗ holds y q)).
Proof.
  intros Hij. eapply (hoare_pure _ (p ≠ q)); [apply (fact_star _ _ (holds_distinct x y p q))|]. intros Hpq.
  unfold run_insert_range.
  eapply hoare_call; [apply (array_size_spec x p)|part|]. intros size. cbv beta. opens. rewrite H.
  assert (min n (match x with JArray a => length a | _ => 0 end) = array_position n x) as ->
    by (destruct x; simpl; lia).
  eapply hoare_call; [apply (array_size_of y q)|part|]. intros size'. cbv beta. opens. subst size'.
  destruct y as [| |b| | | | | |]; try (apply hoare_done; intros; simpl; reorder).
  pose proof (span_ordered (length b) s e) as Hse. unfold part_of, insert_range_value.
  destruct (span (length b) s e) as [s' e']. cbn [fst snd] in Hse. eapply ignore_spec.
  - eapply hoare_conseq; [apply (insert_range_spec malloc malloc_ok room x b p q (array_position n x) s' e' (array_position_fits n x))
      |done|intros; reorder|intros r h Hh; exact Hh|done]; [done|lia].
  - intros r h Hh. cbv beta in Hh. opens_in Hh. rewrite (insert_range_anywhere p q i j) in Hh by done. reorder.
Qed.

Lemma op_insert_range_self room x p i n s e :
  hoare 0 (holds x p) (run_insert_range malloc room p n p s e)
    (λ _, holds (insert_range_value i i n s e x x) p) (holds x p).
Proof.
  unfold run_insert_range.
  eapply hoare_call; [apply (array_size_spec x p)|apply part_all|]. intros size. cbv beta. opens. rewrite H.
  assert (min n (match x with JArray a => length a | _ => 0 end) = array_position n x) as ->
    by (destruct x; simpl; lia).
  eapply hoare_call; [apply (array_size_of x p)|part|]. intros size'. cbv beta. opens. subst size'.
  destruct x as [| |b| | | | | |]; try (apply hoare_done; intros; simpl; reorder).
  unfold insert_range_value. destruct (span (length b) s e) as [s' e']. eapply ignore_spec.
  - eapply hoare_conseq; [apply (insert_range_self_spec malloc room (JArray b) p (array_position n (JArray b)) s' e' (array_position_fits n _))
      |lia|intros; reorder|intros r h Hh; exact Hh|intros; reorder].
  - intros r h Hh. cbv beta zeta in Hh. opens_in Hh. unfold modified in *. rewrite insert_self_inserted in Hh.
    by rewrite insert_self_inserted.
Qed.

Lemma op_insert_range_safe room i n j s e : op_safe (op_insert_range room i n j s e).
Proof.
  intros js ps Hs. apply (with2_partial (op_insert_range room i n j s e) i j _ _ _ js ps _ eq_refl).
  - intros a b p q Hij Ha Hb. simpl. costs.
    eapply hoare_conseq; [apply (op_insert_range_other room a b p q (Z.of_nat i) (Z.of_nat j) n s e)|done|done|done|].
    + lia.
    + intros h H. opens_in H. apply some_elim. exists x. apply lift_star. split; [by right|]. reorder.
  - intros a p <- Ha. simpl. costs.
    eapply hoare_conseq; [apply (op_insert_range_self room a p (Z.of_nat i) n s e)|lia|done|done|].
    intros h H. apply some_elim. exists a. apply lift_star. split; [by left|done].
Qed.

(** *** Ranges of other values *)

Lemma value_bounds_objects p s e y :
  m_object (value_bounds p s e y).1 = p ∧ m_object (value_bounds p s e y).2 = p.
Proof. by destruct y. Qed.

(** The place of the value does not matter. *)
Lemma bounds_anywhere p s e y x :
  p ≠ 0%Z →
  let f := value_bounds p s e y in let g := value_bounds 1 s e y in
  json_of_range f.1 f.2 y = json_of_range g.1 g.2 y ∧ ranged f.1 f.2 y = ranged g.1 g.2 y ∧
  range_of f.1 f.2 y = members_between s e y ∧
  insert_members f.1 f.2 y x = insert_members g.1 g.2 y x ∧ update_range f.1 f.2 y x = update_range g.1 g.2 y x.
Proof.
  intros Hp f g. unfold json_of_range, members_between, range_of, insert_members, update_range, f, g.
  rewrite (surjective_pairing (value_bounds 1 s e y)).
  destruct (value_bounds_objects p s e y) as [-> ->], (value_bounds_objects 1 s e y) as [-> ->].
  rewrite !Z.eqb_refl, (proj2 (Z.eqb_neq p 0)) by done. by destruct y.
Qed.

Lemma holds_nonnull j p h : holds j p h → p ≠ 0%Z.
Proof. intros H. apply some_elim in H as [c (? & ? & _ & _ & [? _]%pto_elim & _)%star_elim]. done. Qed.

Lemma hoare_nonnull {A} k j p P F Q R (x : code A) :
  P ≡ holds j p ∗ F → (p ≠ 0%Z → hoare k (holds j p ∗ F) x Q R) → hoare k P x Q R.
Proof.
  intros HP Hx. eapply hoare_pre; [exact HP|].
  eapply hoare_pre; [by rewrite (fact_star _ _ (holds_nonnull j p))|]. opens. by apply Hx.
Qed.

Lemma run_range_spec W a b p q s e F F' :
  W ≡ holds a p ∗ F → W ≡ holds b q ∗ F' →
  hoare (let '(first, last) := value_bounds 1 s e b in allocations (ranged first last b)) W
    (run_range malloc p q s e) (λ _, holds (range_value_of s e b a) p ∗ F) W.
Proof.
  intros HW HW'. eapply hoare_nonnull; [exact HW'|]. intros Hq. unfold run_range, range_value_of.
  eapply hoare_call; [apply (element_count_spec b q)|part|]. intros [t n]. opens. simplify_eq.
  fold (value_bounds q s e b). destruct (bounds_anywhere q s e b JNull Hq) as (H1 & H2 & _).
  destruct (value_bounds_objects q s e b) as [Hf Hl]. pose proof (bounds_in_range q b s e) as Hr.
  fold (value_bounds q s e b) in Hr.
  rewrite (surjective_pairing (value_bounds 1 s e b)), (surjective_pairing (value_bounds q s e b)).
  rewrite <-H2. unfold modified. rewrite <-H1.
  destruct (value_bounds q s e b) as [first last]. cbn [fst snd] in *. subst q.
  eapply (hoare_try _ _ 0); [apply (of_range_spec malloc malloc_ok b first last); [done|congruence|done]|part|lia| |].
  { intros h H. apply HW'. reorder. }
  intros r. cbv beta. opens. rename H into Hs.
  eapply (hoare_pre _ _ (W ∗ results (json_of_range first last b) r)); [rewrite HW'; aac_reflexivity|].
  destruct (json_of_range first last b) as [j|x|], r as [c|x'|]; try done; unfold results.
  - eapply hoare_pre; [by rewrite HW|]. tail assign_spec.
  - apply hoare_done. intros h H. apply (equiv_at W); [done|]. reorder.
  - apply hoare_done. intros h H. apply (equiv_at W); [done|]. reorder.
Qed.

Lemma op_range_refines i j s e : op_refines (op_range i j s e).
Proof.
  intros js ps _. apply (with2_spec _ _ _ _ _ _ _ (λ a b, range_value_of s e b a) (λ _ b, b)).
  - intros a b _ Hb. by rewrite (list_insert_id _ _ _ Hb).
  - intros a b p q _ Ha Hb. simpl. costs. eapply run_range_spec; [part|].
    instantiate (1 := holds a p). apply star_comm.
  - intros a p <- Ha. simpl. costs.
    eapply hoare_conseq; [apply (run_range_spec (holds a p) a a p p s e emp emp); apply part_all|done|done| |done].
    intros [] h H. cbv beta in H. reorder.
Qed.

(** [f] is the operation on values, and does not depend on the place of the range. *)
Definition placeless (f : JsonIterators.iter → JsonIterators.iter → json → json → result json) : Prop :=
  ∀ p s e y x, p ≠ 0%Z →
    let r := value_bounds p s e y in let r1 := value_bounds 1 s e y in f r.1 r.2 y x = f r1.1 r1.2 y x.

Definition at_bounds {A} (f : JsonIterators.iter → JsonIterators.iter → A) (s e : nat) (y : json) : A :=
  let '(first, last) := value_bounds 1 s e y in f first last.

Lemma run_members_other (at_range : JsonIterators.iter → JsonIterators.iter → code (result ())) f φ a b p q s e :
  placeless f →
  (∀ first last, m_object first = q → in_range first last b →
    hoare (range_cost (range_of first last b)) (holds a p ∗ holds b q) (at_range first last)
      (λ r, lift (r = status (f first last b a)) ∗ holds (modified (f first last b) a) p ∗ holds b q)
      (some_of (λ j', lift (members_part φ (range_of first last b) a j') ∗ holds j' p ∗ holds b q))) →
  hoare (range_cost (members_between s e b)) (holds a p ∗ holds b q) (run_members at_range q s e)
    (λ _, holds (at_bounds (λ first last, modified (f first last b) a) s e b) p ∗ holds b q)
    (some_of (λ x', lift (left_as (λ x y, members_part φ (members_between s e y) x) a b x') ∗ holds x' p ∗ holds b q)).
Proof.
  intros Hf Hat. eapply (hoare_nonnull _ b q); [part|]. intros Hq. unfold run_members, at_bounds.
  eapply hoare_call; [apply (element_count_spec b q)|part|]. intros [t n]. opens. simplify_eq.
  fold (value_bounds q s e b). destruct (bounds_anywhere q s e b JNull Hq) as (_ & _ & Hb & _).
  destruct (value_bounds_objects q s e b) as [Ho _]. pose proof (bounds_in_range q b s e) as Hr.
  fold (value_bounds q s e b) in Hr. specialize (Hf q s e b a Hq). cbv zeta in Hf.
  rewrite (surjective_pairing (value_bounds 1 s e b)), (surjective_pairing (value_bounds q s e b)).
  unfold modified. rewrite <-Hf. eapply ignore_spec.
  - eapply hoare_conseq; [by apply Hat|by rewrite Hb|intros; reorder|intros r h H; exact H|].
    intros h H. opens_in H. apply some_elim. exists x. apply lift_star. split; [right; by rewrite <-Hb|]. reorder.
  - intros r h H. cbv beta in H. opens_in H. unfold modified in H. reorder.
Qed.

Lemma run_members_self (at_range : JsonIterators.iter → JsonIterators.iter → code (result ())) f φ a p s e :
  (∀ first last, in_range first last a → modified (f first last a) a = a) →
  (∀ first last, m_object first = p → in_range first last a →
    hoare (range_cost (range_of first last a)) (holds a p) (at_range first last)
      (λ r, lift (r = status (f first last a a)) ∗ holds a p) (holds a p)) →
  hoare (range_cost (members_between s e a)) (holds a p) (run_members at_range p s e)
    (λ _, holds (at_bounds (λ first last, modified (f first last a) a) s e a) p)
    (some_of (λ x', lift (left_as (λ x y, members_part φ (members_between s e y) x) a a x') ∗ holds x' p)).
Proof.
  intros Hf Hat. eapply (hoare_nonnull _ a p); [apply part_all|]. intros Hp. unfold run_members, at_bounds.
  eapply hoare_call; [apply (element_count_spec a p)|part|]. intros [t n]. opens. simplify_eq.
  fold (value_bounds p s e a). destruct (bounds_anywhere p s e a JNull Hp) as (_ & _ & Hb & _).
  destruct (value_bounds_objects p s e a) as [Ho _].
  pose proof (bounds_in_range p a s e) as Hr. pose proof (bounds_in_range 1 a s e) as Hr1.
  fold (value_bounds p s e a) in Hr. fold (value_bounds 1 s e a) in Hr1.
  rewrite (surjective_pairing (value_bounds 1 s e a)), (surjective_pairing (value_bounds p s e a)), (Hf _ _ Hr1).
  eapply ignore_spec.
  - eapply hoare_conseq; [by apply Hat|by rewrite Hb|intros; reorder|intros r h H; exact H|].
    intros h H. apply some_elim. exists a. apply lift_star. split; [by left|done].
  - intros r h H. cbv beta in H. opens_in H. reorder.
Qed.

Lemma insert_members_placeless : placeless insert_members.
Proof. intros p s e y x Hp r r1. by apply bounds_anywhere. Qed.

Lemma update_range_placeless : placeless update_range.
Proof. intros p s e y x Hp r r1. by apply bounds_anywhere. Qed.

Lemma insert_members_same x first last :
  sorted_members x → in_range first last x → modified (insert_members first last x) x = x.
Proof.
  intros Hs Hr. destruct (decide (m_type x = t_object)) as [Ho|Ho]; [|unfold modified; by destruct x].
  destruct (self_range_spec (insert_members first last x) emplace_members x first last) as [[_ H]|H]; try done.
  - intros o ->. apply insert_members_range.
  - intros o i j ->. by apply emplace_members_same, slice_found.
Qed.

Lemma update_range_same x first last :
  m_type x ≠ t_null → sorted_members x → in_range first last x → modified (update_range first last x) x = x.
Proof.
  intros Hn Hs Hr. destruct (decide (m_type x = t_object)) as [Ho|Ho]; [|unfold modified; by destruct x].
  destruct (self_range_spec (update_range first last x) assign_members x first last) as [[_ H]|H]; try done.
  - intros o ->. apply update_range_of.
  - intros o i j ->. by apply assign_members_same, slice_found.
Qed.

Lemma op_insert_members_safe i j s e : op_safe (op_insert_members i j s e).
Proof.
  intros js ps Hs. rewrite Forall_lookup in Hs.
  apply (with2_partial (op_insert_members i j s e) i j _ _ _ js ps _ eq_refl).
  - intros a b p q Hij Ha Hb. simpl. costs.
    apply (run_members_other _ insert_members emplaced); [apply insert_members_placeless|].
    intros first last <- Hr. apply insert_members_spec; [done|by eapply Hs|done].
  - intros a p <- Ha. simpl. costs. apply (run_members_self _ insert_members emplaced).
    + intros first last. apply insert_members_same. by eapply Hs.
    + intros first last <- Hr. apply insert_members_self_spec; [by eapply Hs|done].
Qed.

Lemma op_update_range_safe i j s e : op_safe (op_update_range i j s e).
Proof.
  intros js ps Hs. rewrite Forall_lookup in Hs.
  eapply hoare_conseq; [apply (with2_partial (op_update_range i j s e) i j _ _
    (λ a b, if bool_decide (m_type a = t_null) then a else update_range_value s e b a)
    js ps (op_cost (op_update_range i j s e) js) eq_refl)|done|done| |done].
  - intros a b p q Hij Ha Hb. simpl. costs. eapply unless_null_spec; [part|..].
    + intros Hn h H. rewrite bool_decide_true by done. reorder.
    + intros Hn. rewrite bool_decide_false by done.
      apply (run_members_other _ update_range update_stopped); [apply update_range_placeless|].
      intros first last <- Hr. apply update_range_spec; [done|done|by eapply Hs..|done].
  - intros a p <- Ha. simpl. costs. eapply unless_null_spec; [apply part_all|..].
    + intros Hn h H. rewrite bool_decide_true by done. reorder.
    + intros Hn. rewrite bool_decide_false by done. eapply hoare_pre; [apply star_emp|].
      apply (run_members_self _ update_range update_stopped).
      * intros first last. apply update_range_same; [done|by eapply Hs].
      * intros first last <- Hr. apply update_range_self_spec; [done|done|by eapply Hs|done].
  - intros [] h. unfold with2, with1. simpl. unfold with2, with1. destruct (js !! i) eqn:Ha; [|done].
    destruct (js !! j); [|done]. by rewrite (insert_unless_null _ (update_range_value s e _)).
Qed.

Lemma run_op_safe o : op_safe o.
Proof.
  destruct o; try apply op_update_safe; try apply op_insert_count_safe; try apply op_insert_range_safe;
    try apply op_insert_members_safe; try apply op_update_range_safe;
    apply refines_safe.
  - apply op_type_refines.
  - apply op_copy_refines.
  - apply op_move_refines.
  - apply op_swap_refines.
  - apply op_push_back_refines.
  - apply op_push_back_move_refines.
  - apply op_push_back_member_refines.
  - apply op_erase_idx_refines.
  - apply op_erase_key_refines.
  - apply op_clear_refines.
  - apply op_use_refines.
  - apply op_fill_refines.
  - apply op_array_refines.
  - apply op_erase_range_refines.
  - apply op_range_refines.
Qed.

(** ** Sequences *)

Lemma modified_sorted x :
  sorted_members x →
  (∀ y, sorted_members (modified (JsonAccess.push_back y) x)) ∧
  (∀ k y, sorted_members (modified (JsonAccess.push_back_member k y) x)) ∧
  (∀ idx, sorted_members (modified (JsonAccess.erase_idx idx) x)) ∧
  (∀ k, sorted_members (modified (λ j, snd <$> JsonAccess.erase_key k j) x)) ∧
  sorted_members (JsonAccess.clear x).
Proof.
  intros Hx. unfold modified.
  destruct x as [|o|a|s|b|z|z|f|]; simpl in *; split_and!; intros; simpl; auto;
    try (by repeat constructor).
  - by apply omap_emplace_sorted.
  - by apply omap_erase_sorted.
  - by destruct (_ <=? _)%Z.
Qed.

Lemma assign_members_sorted l o : omap_sorted o → omap_sorted (assign_members l o).
Proof. revert o. induction l as [|[k v] l IH]; intros o Hs; [done|]. apply IH. by apply omap_assign_sorted. Qed.

Lemma update_sorted x y :
  sorted_members x → sorted_members (modified (λ x, JsonAccess.update x y) x).
Proof.
  intros Hx. unfold modified.
  destruct x as [|o| | | | | | |]; simpl; auto; destruct y; simpl; auto;
    apply assign_members_sorted; [constructor|done].
Qed.

Lemma use_sorted u y x : m_type x ≠ t_null → sorted_members x → sorted_members (use_value u y x).
Proof.
  intros Hn Hx. destruct u as [idx|key| |key|n]; simpl.
  - destruct (index_ok idx) eqn:Hi; [|done]. unfold set_idx, modified.
    destruct x as [|o|a| | | | | |]; try done. rewrite index_array; [by destruct (too_long _ _)|].
    unfold index_ok in Hi. destruct (Z.leb_spec 0 idx), (Z.ltb_spec idx (2 ^ 64 - 1)); try done; lia.
  - unfold set_key, modified. destruct x; try done. simpl. by apply omap_assign_sorted.
  - by destruct x.
  - unfold modified. destruct x; try done. simpl. by apply omap_emplace_sorted.
  - unfold modified. destruct x as [| |a| | | | | |]; try done.
    rewrite insert_value_array by lia. by destruct (_ <? _)%Z.
Qed.

Lemma erase_range_sorted s e x : sorted_members x → sorted_members (erase_range_value s e x).
Proof.
  intros Hx. pose proof (bounds_in_range 0 x s e) as Hr. unfold erase_range_value, modified, erase_range.
  rewrite (surjective_pairing (bounds _ _ _ _ _)).
  destruct x as [|o|a| | | | | |]; cbn -[positions erase_between] in *; try done; destruct Hr as [[i j] Hr];
    destruct (erase_between_positions _ _ _ i j Hr) as [-> Hij]; [|done].
  simpl. apply erase_between_sorted; [lia|done].
Qed.

Lemma inserted_sorted this i f x : sorted_members x → sorted_members (modified (λ x, snd <$> inserted this i f x) x).
Proof. unfold modified. destruct x as [| |a| | | | | |]; try done. simpl. by destruct (f a). Qed.

Lemma insert_count_sorted n cnt y x : sorted_members x → sorted_members (insert_count_value n cnt y x).
Proof.
  intros Hx. unfold insert_count_value, modified. rewrite insert_count_inserted by apply array_position_fits.
  by apply inserted_sorted.
Qed.

Lemma insert_range_sorted p q n s e y x : sorted_members x → sorted_members (insert_range_value p q n s e y x).
Proof.
  intros Hx. destruct y as [| |b| | | | | |]; try done. unfold insert_range_value.
  pose proof (span_ordered (length b) s e) as Hse. destruct (span (length b) s e) as [s' e']. unfold modified.
  destruct (decide (q = p)) as [->|Hne].
  - rewrite insert_self_inserted. by apply (inserted_sorted _ _ refuse_self).
  - rewrite insert_range_inserted by (done || apply array_position_fits). by apply inserted_sorted.
Qed.

Lemma emplace_members_sorted l o : omap_sorted o → omap_sorted (emplace_members l o).
Proof. revert o. induction l as [|[k v] l IH]; intros o Hs; [done|]. apply IH. by apply omap_emplace_sorted. Qed.

Lemma range_sorted s e y x : sorted_members y → sorted_members x → sorted_members (range_value_of s e y x).
Proof.
  intros Hy Hx. pose proof (bounds_in_range 1 y s e) as Hr. unfold range_value_of. fold (value_bounds 1 s e y) in Hr.
  destruct (value_bounds_objects 1 s e y) as [Hf Hl]. destruct (value_bounds 1 s e y) as [first last].
  cbn [fst snd] in *. unfold modified, json_of_range. rewrite Hf, Hl. simpl.
  destruct y as [|o|a| | | | | |]; try done; try (by destruct (_ || _)); destruct Hr as [[i j] Hr];
    rewrite (range_positions _ _ _ i j Hr); [|done].
  simpl. eapply omap_sorted_sublist; [|exact Hy]. unfold slice.
  etrans; [apply sublist_take|apply sublist_drop].
Qed.

Lemma insert_members_sorted s e y x : sorted_members x → sorted_members (insert_members_value s e y x).
Proof.
  intros Hx. unfold insert_members_value. destruct (value_bounds 1 s e y) as [first last]. unfold modified.
  destruct x as [|o| | | | | | |]; try done. rewrite insert_members_range.
  destruct (range_of first last y); [|done..]. by apply emplace_members_sorted.
Qed.

Lemma update_range_sorted s e y x :
  m_type x ≠ t_null → sorted_members x → sorted_members (update_range_value s e y x).
Proof.
  intros Hn Hx. unfold update_range_value. destruct (value_bounds 1 s e y) as [first last]. unfold modified.
  destruct x as [|o| | | | | | |]; try done. rewrite update_range_of.
  destruct (range_of first last y); [|done..]. by apply assign_members_sorted.
Qed.

Lemma step_sorted o js : Forall sorted_members js → Forall sorted_members (step o js).
Proof.
  intros Hs.
  assert (∀ i x, js !! i = Some x → sorted_members x) as Hl by (by apply Forall_lookup).
  destruct o; simpl; unfold with2, with1, unless_null_value; repeat case_match; auto;
    repeat (apply Forall_insert; [auto|]); try done; try (by eapply Hl);
    try (by destruct t; repeat constructor); try (by apply modified_sorted, (Hl i)).
  - apply use_sorted; [by apply bool_decide_eq_false in H1|by eapply Hl].
  - unfold modified, json_fill. destruct (_ <? _)%Z; [by eapply Hl|done].
  - apply update_sorted. by eapply Hl.
  - apply erase_range_sorted. by eapply Hl.
  - apply insert_count_sorted. by eapply Hl.
  - apply insert_range_sorted. by eapply Hl.
  - apply range_sorted; by eapply Hl.
  - apply insert_members_sorted. by eapply Hl.
  - apply update_range_sorted; [by apply bool_decide_eq_false in H1|by eapply Hl].
Qed.

Lemma update_stopped_sorted l o o' : update_stopped l o o' → omap_sorted o → omap_sorted o'.
Proof.
  intros (n & kv & _ & [->| ->]) Ho; [|apply omap_emplace_sorted]; by apply assign_members_sorted.
Qed.

Lemma update_part_sorted x y x' : update_part x y x' → sorted_members x → sorted_members x'.
Proof.
  destruct x as [|o| | | | | | |]; try done. destruct y as [|o2| | | | | | |]; try done.
  intros (o' & -> & Hu) Hx. by eapply update_stopped_sorted.
Qed.

Lemma emplaced_part_sorted xs x x' : members_part emplaced xs x x' → sorted_members x → sorted_members x'.
Proof. intros (o & o' & l & -> & -> & _ & n & ->) Hx. by apply emplace_members_sorted. Qed.

Lemma assigned_part_sorted xs x x' : members_part update_stopped xs x x' → sorted_members x → sorted_members x'.
Proof. intros (o & o' & l & -> & -> & _ & Hu) Hx. by eapply update_stopped_sorted. Qed.

Lemma array_part_sorted φ x x' : array_part φ x x' → sorted_members x'.
Proof. by intros (a & a' & -> & -> & _). Qed.

Lemma failed_sorted o js js' :
  failed o js js' → Forall sorted_members js → Forall sorted_members js'.
Proof.
  intros [->|Hp] Hs; [done|]. destruct (partial o) as [[[i j] φ]|] eqn:Ho; [|done].
  destruct Hp as (x & y & x' & Hx & _ & Hu & ->). apply Forall_insert; [done|].
  eapply Forall_lookup_1 in Hs; [|exact Hx].
  destruct o; simplify_eq/=; eauto using update_part_sorted, array_part_sorted,
    emplaced_part_sorted, assigned_part_sorted.
Qed.

(** A sequence of operations refines the same on values: each operation is done,
    or the memory is exhausted and it has the effect that [failed] says. *)
Lemma run_ops_refine ps ops js m h hf :
  Forall sorted_members js → vars_hold js ps h → heap m = h ∪ hf → h ##ₘ hf →
  ∃ bs js' m' h', run_ops malloc object_first ps ops m = done bs m' ∧ heap m' = h' ∪ hf ∧ h' ##ₘ hf ∧
    vars_hold js' ps h' ∧ steps bs ops js js' ∧ length bs = length ops ∧
    (ops_cost ops js ≤ budget m → bs = replicate (length ops) true).
Proof.
  revert js m h. induction ops as [|o ops IH]; intros js m h Hs Hv E D.
  { exists [], js, m, h. split_and!; try done. constructor. }
  pose proof (run_op_safe o js ps Hs m h hf Hv E D) as Ho.
  simpl. unfold mbind, ST_bind, attempt.
  destruct (run_op malloc object_first ps o m) as [[] m1|m1| |]; [..|done|done];
    destruct Ho as (h1 & E1 & D1 & H1 & B1).
  - destruct (IH (step o js) m1 h1) as (bs & js' & m2 & h2 & -> & ? & ? & ? & ? & ? & Hb);
      [by apply step_sorted|done..|].
    exists (true :: bs), js', m2, h2. split_and!; try done; simpl; [by constructor|by f_equal|].
    intros. rewrite Hb by lia. done.
  - apply some_elim in H1 as [js1 H1]. apply lift_star in H1 as [Hf H1].
    destruct (IH js1 m1 h1) as (bs & js' & m2 & h2 & -> & ? & ? & ? & ? & ? & _);
      [by eapply failed_sorted|done..|].
    exists (false :: bs), js', m2, h2. split_and!; try done; simpl; [by econstructor|by f_equal|]. lia.
Qed.

(** ** Blocks *)

(** Memory for a variable. *)
Definition raw (_ : json) (p : Z) : assertion block := p ↦ BRaw.

Lemma raw_intro js ps (H : gmap Z block) :
  length js = length ps → NoDup ps → Forall (λ p, p ≠ 0%Z ∧ H !! p = Some BRaw) ps →
  ∃ h hf, H = h ∪ hf ∧ h ##ₘ hf ∧ big_star raw js ps h.
Proof.
  intros Hl Hd. revert js H Hl. induction Hd as [|p ps Hp Hd IH]; intros [|j js] H Hl Hr; try done.
  { exists ∅, H. rewrite map_empty_union. split_and!; [done|apply map_disjoint_empty_l|]. by apply emp_intro. }
  apply Forall_cons in Hr as [[Hp0 HpH] Hr].
  destruct (IH js (delete p H)) as (h & hf & E & D & Hb); [by injection Hl| |].
  { rewrite Forall_forall in *. intros q Hq. destruct (Hr q Hq). split; [done|].
    rewrite lookup_delete_ne; [done|]. by intros ->. }
  assert (h !! p = None ∧ hf !! p = None) as [??].
  { apply lookup_union_None. rewrite <-E. apply lookup_delete_eq. }
  exists ({[p := BRaw]} ∪ h), hf. split_and!.
  - rewrite <-map_union_assoc, <-E. by rewrite <-insert_union_singleton_l, insert_delete_id.
  - apply map_disjoint_union_l. split; [by apply map_disjoint_singleton_l|done].
  - apply star_intro; [by apply map_disjoint_singleton_l|by apply pto_intro|done].
Qed.

Lemma raw_precise js js' ps h1 h2 : big_star raw js ps h1 → big_star raw js' ps h2 → h1 = h2.
Proof.
  revert js js' h1 h2. induction ps as [|p ps IH]; intros [|j js] [|j' js'] h1 h2; simpl; try done.
  - by intros ->%emp_elim ->%emp_elim.
  - intros (? & h3 & -> & _ & [_ ->]%pto_elim & H3)%star_elim
      (? & h4 & -> & _ & [_ ->]%pto_elim & H4)%star_elim.
    f_equal. by eapply IH.
Qed.

Lemma declare_spec js ps :
  Forall (λ j, j = JNull) js →
  hoare 0 (big_star raw js ps) (iterate (λ x, store x (BValue (mk_cell t_null u_unset))) ps)
    (λ _, vars_hold js ps) never.
Proof.
  intros Hj. revert ps. induction Hj as [|j js -> Hj IH]; intros [|p ps]; simpl.
  - by apply hoare_done.
  - by intros ???[].
  - by intros ???[].
  - unfold raw at 1. eapply hoare_call; [apply hoare_store|part|]. intros [].
    eapply hoare_tail; [apply IH|part|lia| |by intros ? ?%never_star].
    intros [] h H. unfold holds at 1. simpl in *. gives (mk_cell t_null u_unset). reorder.
Qed.

Lemma destroy_spec js ps :
  hoare 0 (vars_hold js ps) (iterate (λ x, c ← value x; destruct c ;; store x BRaw) (reverse ps))
    (λ _, big_star raw js ps) never.
Proof.
  eapply (hoare_conseq _ 0 _ _ _ (λ _, big_star raw (reverse js) (reverse ps)));
    [apply (hoare_iterate_each holds)|done| | |done].
  - intros j p. unfold holds, raw. opens. call value_spec.
    eapply hoare_call; [apply destruct_spec|part|]. intros []. tail @hoare_store.
  - intros h. apply big_star_reverse.
  - intros []. apply big_star_reverse.
Qed.

(** A block gives back all the memory it takes. *)
Lemma program_frees ps ops m :
  NoDup ps → Forall (λ p, p ≠ 0%Z ∧ heap m !! p = Some BRaw) ps →
  ∃ bs m', program malloc object_first ps ops m = done bs m' ∧ heap m' = heap m ∧ length bs = length ops ∧
    (ops_cost ops (replicate (length ps) JNull) ≤ budget m → bs = replicate (length ops) true).
Proof.
  intros Hd Hr. set (js := replicate (length ps) JNull).
  destruct (raw_intro js ps (heap m)) as (h & hf & E & D & Hb);
    [by apply length_replicate|done..|].
  unfold program.
  pose proof (declare_spec js ps (Forall_replicate _ _ _ eq_refl) m h hf Hb E D) as H.
  unfold mbind, ST_bind. destruct (iterate _ ps m) as [[] m1|m1| |]; [|by destruct H as (? & _ & _ & [] & _)|done|done].
  destruct H as (h1 & E1 & D1 & H1 & B1).
  destruct (run_ops_refine ps ops js m1 h1 hf) as (bs & js' & m2 & h2 & -> & E2 & D2 & H2 & _ & Hl & Hc);
    [by apply Forall_replicate|done..|].
  pose proof (destroy_spec js' ps m2 h2 hf H2 E2 D2) as H.
  destruct (iterate _ (reverse ps) m2) as [[] m3|m3| |]; [|by destruct H as (? & _ & _ & [] & _)|done|done].
  destruct H as (h3 & E3 & D3 & H3 & B3).
  exists bs, m3. split_and!; [done| |done|intros; apply Hc; lia].
  rewrite E3, E. f_equal. by eapply raw_precise.
Qed.
End refinement.

Lemma holds_null p c : p ≠ 0%Z → c_type c = t_null → holds JNull p {[p := BValue c]}.
Proof.
  intros Hp Hc. apply some_elim. exists c. simpl.
  apply (equiv_at (p ↦ BValue c)); [by rewrite lift_emp, star_emp|]. by apply pto_intro.
Qed.

(** ** The theorems *)


Definition two_nulls : gmap Z block :=
  {[ 1%Z := BValue (mk_cell t_null u_unset) ]} ∪ ({[ 2%Z := BValue (mk_cell t_null u_unset) ]} ∪ ∅).

Definition some_ops : list op :=
  [op_type 0 t_array; op_type 1 t_string; op_push_back 0 1; op_push_back 0 0; op_copy 1 0;
   op_use 1 (use_set_idx 4) 0; op_type 0 t_object; op_use 0 (use_set_key (lit "a")) 1; op_update 0 0;
   op_array 1 [0; 0; 1]; op_fill 0 2 1;
   op_erase_range 1 1 2; op_insert_count false 1 1 2 1; op_insert_range true 0 1 1 0 2;
   op_type 1 t_object; op_use 1 (use_set_key (lit "b")) 0; op_range 0 1 0 1; op_insert_members 0 1 0 1;
   op_update_range 1 0 0 1].



Definition two_raws : gmap Z block := {[1%Z := BRaw; 2%Z := BRaw]}.


(** With memory for two allocations, the second operation throws. *)
Example exhausted_run :
  match program next_address true [1]%Z [op_type 0 t_array; op_push_back 0 0]
      (mk_mem {[1%Z := BRaw]} 2) with
  | done bs _ => bs = [true; false]
  | _ => False
  end.
Proof. reflexivity. Qed.

(** ** Where it goes wrong *)

(** [insert] of a range that finds no room for it in the vector moves the elements
    before the position first.  Where a copy then throws, they are gone: of [[true]],
    into which ["k"] is to be inserted at the end, [[null]] stays. *)
Definition insert_heap : gmap Z block :=
  {[ 1%Z := BValue (mk_cell t_array (u_array 3)); 3%Z := BArray [mk_cell t_boolean (u_boolean true)];
     2%Z := BValue (mk_cell t_array (u_array 4)); 4%Z := BArray [mk_cell t_string (u_string 5)];
     5%Z := BString (lit "k") ]}.

Theorem insert_range_loses :
  ∃ m', insert_range_at next_address false 1 (position 1 1) (position 2 0) (position 2 1)
      (mk_mem insert_heap 1) = raised m' ∧
    heap m' = <[3%Z := BArray [mk_cell t_null (u_object 0)]]> insert_heap.
Proof. eexists. split; [reflexivity|reflexivity]. Qed.

(** [insert] of a value that could be moved leaves it and copies it, with the
    allocations of a copy. *)
Theorem insert_rvalue_copies malloc j0 j this val n :
  allocates malloc → fits n j0 →
  hoare (S (allocations j)) (holds j0 this ∗ holds j val) (insert_rvalue malloc this (position this n) val)
    (λ r, lift (r = fst <$> insert_value this (position this n) j j0) ∗
      holds (modified (λ j0, snd <$> insert_value this (position this n) j j0) j0) this ∗ holds j val)
    (holds j0 this ∗ holds j val).
Proof. intros Hm Hn. apply insert_spec; [done|]. intros c. by apply copied_other_makes. Qed.

(** A modifier sets the type of a null value before it allocates: where the
    allocation fails, the value has the type of an array and no array, and its
    destructor is undefined. *)
Theorem push_back_null_breaks malloc m this val c :
  heap m !! this = Some (BValue c) → c_type c = t_null → (∀ p, c_value c ≠ u_array p) →
  budget m = 0 →
  ∃ m' c', push_back malloc this val m = raised m' ∧ heap m' !! this = Some (BValue c') ∧
    destruct c' m' = undefined.
Proof.
  intros Hm Ht Hv Hb. set (c' := mk_cell t_array (c_value c)).
  set (m' := mk_mem (<[this := BValue c']> (heap m)) 0).
  assert (value this m = done c m) as Hc.
  { unfold value. rewrite (bind_done _ _ _ (BValue c) m); [done|]. unfold load. by rewrite Hm. }
  exists m', c'. split_and!; [|apply lookup_insert_eq|].
  - unfold push_back. rewrite (bind_done _ _ _ _ _ Hc), Ht, bool_decide_true by auto. simpl negb.
    apply bind_raised. unfold transform_null. rewrite (bind_done _ _ _ _ _ Hc), Ht, bool_decide_true by done.
    rewrite (bind_done _ _ _ () m'); [done|]. unfold store. by rewrite Hm, Hb.
  - unfold destruct, enough. simpl. unfold assert_invariant, c'. simpl.
    destruct (c_value c) eqn:Hu; try done. by destruct (Hv p).
Qed.

(** An initializer list constructor that throws does not destroy the object it
    began: with memory for the object only, a block is lost. *)
Definition element_heap : gmap Z block :=
  {[ 1%Z := BValue (mk_cell t_array (u_array 2));
     2%Z := BArray [mk_cell t_string (u_string 3); mk_cell t_boolean (u_boolean true)];
     3%Z := BString (lit "k") ]}.

Theorem init_object_leaks :
  ∃ m', init_object next_address [(true, 1%Z)] (mk_mem element_heap 1) = raised m' ∧
    heap m' = {[ 1%Z := BValue (mk_cell t_null (u_object 0)); 4%Z := BObject [] ]}.
Proof. eexists. split; [reflexivity|reflexivity]. Qed.

(** A string that the parser's callback refuses stays allocated: beside the part
    [h1] of the variable there is a part [h2] that nothing refers to. *)
Theorem discard_value_leaks s this m h hf :
  holds (JString s) this h → heap m = h ∪ hf → h ##ₘ hf →
  ∃ m' h1 h2, discard_value this m = done () m' ∧ heap m' = (h1 ∪ h2) ∪ hf ∧
    holds JDiscarded this h1 ∧ ∃ p, h2 = {[p := BString s]}.
Proof.
  intros H E D. pose proof (discard_value_spec (JString s) this m h hf H E D) as Hx.
  destruct (discard_value this m) as [[] m'|m'| |]; [|by destruct Hx as (? & _ & _ & [] & _)|done|done].
  destruct Hx as (h' & E' & _ & (h1 & h2 & -> & _ & H1 & H2)%star_elim & _).
  exists m', h1, h2. split_and!; [done..|].
  apply some_elim in H2 as [c H2]. simpl in H2. apply some_elim in H2 as [p H2].
  apply lift_star in H2 as [_ [_ H2]%pto_elim]. by exists p.
Qed.
