(* ===== verification/JsonConvert.v ===== *)
(** Conversions between C++ values and JSON values: the overloads of [to_json] and
    [from_json], [get_ptr] and [get_ref].

    The overloads are chosen by the C++ type.  Each is a function here; the code
    [cpp_type] of a type selects them the way overload resolution does (the integer
    types of 64 bits are [number_integer_t] and [number_unsigned_t]; [JsonTraits]
    proves it of the type traits), and the round trip is proved for all types at
    once. *)

From S2P Require Import Prelude Float64 Float32 JsonValue JsonAccess JsonIterators JsonPointer JsonModifiers.

Definition must_be (what : list Z) (j : json) : exn :=
  type_error_create 302 (lit "type must be " ++ what ++ lit ", but is " ++ type_name j).

(** ** Pointers and references to the stored value *)

Definition get_ptr_object (j : json) : option (list (list Z * json)) :=
  match j with JObject o => Some o | _ => None end.
Definition get_ptr_array (j : json) : option (list json) :=
  match j with JArray a => Some a | _ => None end.
Definition get_ptr_string (j : json) : option (list Z) :=
  match j with JString s => Some s | _ => None end.
Definition get_ptr_boolean (j : json) : option bool :=
  match j with JBool b => Some b | _ => None end.

(** [is_number_integer] also holds for unsigned numbers: the member
    [number_integer] of the union is then read for [number_unsigned]. *)
Definition get_ptr_integer (j : json) : option Z :=
  match j with JInt z => Some z | JUInt z => Some (swrap 64 z) | _ => None end.
Definition get_ptr_unsigned (j : json) : option Z :=
  match j with JUInt z => Some z | _ => None end.
Definition get_ptr_float (j : json) : option Z :=
  match j with JFloat f => Some f | _ => None end.

(** [get_ref_impl]. *)
Definition get_ref {A} (get_ptr : json → option A) (j : json) : result A :=
  match get_ptr j with
  | Some x => Ok x
  | None => Throw (type_error_create 303
                     (lit "incompatible ReferenceType for get_ref, actual type is " ++ type_name j))
  end.

(** Assigning through [get_ref<number_integer_t&>()]: the type stays what it was. *)
Definition set_ref_integer (z : Z) (j : json) : result json :=
  match j with
  | JInt _ => Ok (JInt z)
  | JUInt _ => Ok (JUInt (uwrap 64 z))
  | _ => _ ← get_ref get_ptr_integer j; Throw assert_failure
  end.

(** ** Numbers *)

(** A double as an integer, towards zero. *)
Definition f64_trunc (f : Z) : Z :=
  let '(m, e) := F64.magnitude f in
  let n := if 0 <=? e then m * 2 ^ e else m / 2 ^ (- e) in
  if F64.signbit f then - n else n.

(** [static_cast] to an integer type of [w] bits: integers wrap around; a double
    that does not fit is undefined. *)
Definition cast_integer (signed : bool) (w z : Z) : Z := if signed then swrap w z else uwrap w z.

Definition cast_double (signed : bool) (w f : Z) : result Z :=
  if F64.isfinite f && (cast_integer signed w (f64_trunc f) =? f64_trunc f)
  then Ok (f64_trunc f) else Throw out_of_bounds.

(** [get_arithmetic_value] for an integer type and for [double]. *)
Definition get_arithmetic_integer (signed : bool) (w : Z) (j : json) : result Z :=
  match j with
  | JUInt z | JInt z => Ok (cast_integer signed w z)
  | JFloat f => cast_double signed w f
  | j => Throw (must_be (lit "number") j)
  end.

Definition get_arithmetic_double (j : json) : result Z :=
  match j with
  | JUInt z | JInt z => Ok (F64.of_Z z)
  | JFloat f => Ok f
  | j => Throw (must_be (lit "number") j)
  end.

(** [from_json] for the other arithmetic types, which accepts booleans too. *)
Definition from_json_integer (signed : bool) (w : Z) (j : json) : result Z :=
  match j with
  | JBool b => Ok (Z.b2z b)
  | j => get_arithmetic_integer signed w j
  end.

(** [float]: widened to [double], and narrowed. *)
Definition to_json_float (b : Z) : json := JFloat (F64.of_float32 b).
Definition from_json_float (j : json) : result Z :=
  match j with
  | JUInt z | JInt z => Ok (F32.of_Z z)
  | JFloat f => Ok (F32.of_double f)
  | JBool b => Ok (F32.of_Z (Z.b2z b))
  | j => Throw (must_be (lit "number") j)
  end.

(** [to_json] of an integer type: signed types become [number_integer], unsigned
    ones [number_unsigned]. *)
Definition to_json_integer (signed : bool) (z : Z) : json := if signed then JInt z else JUInt z.

(** ** Booleans and strings *)

Definition to_json_bool (b : bool) : json := JBool b.
Definition from_json_bool (j : json) : result bool :=
  match j with JBool b => Ok b | j => Throw (must_be (lit "boolean") j) end.

Definition to_json_string (s : list Z) : json := JString s.
Definition from_json_string (j : json) : result (list Z) :=
  match j with JString s => Ok s | j => Throw (must_be (lit "string") j) end.

(** ** Containers, for the conversions of their elements *)

Fixpoint transform {A B} (f : A → result B) (l : list A) : result (list B) :=
  match l with
  | [] => Ok []
  | x :: l => y ← f x; ys ← transform f l; mret (y :: ys)
  end.

Section containers.
Context {A : Type} (to_json : A → json) (from_json : json → result A).

(** [std::vector] and the other sequences. *)
Definition to_json_vector (l : list A) : json := JArray (to_json <$> l).
Definition from_json_vector (j : json) : result (list A) :=
  match j with
  | JArray a => transform from_json a
  | j => Throw (must_be (lit "array") j)
  end.

(** [std::forward_list] is filled at its front from [rbegin()] to [rend()]. *)
Definition from_json_forward_list (j : json) : result (list A) :=
  match j with
  | JArray a => l ← transform from_json (rev a); mret (rev l)
  | j => Throw (must_be (lit "array") j)
  end.

(** [std::array] of [n] elements: [at(i)] for every index. *)
Fixpoint from_json_elements (n : nat) (i : Z) (j : json) : result (list A) :=
  match n with
  | O => Ok []
  | S n =>
      '(v, _) ← at_idx read i j;
      x ← from_json v;
      xs ← from_json_elements n (i + 1) j;
      mret (x :: xs)
  end.

Definition from_json_array (n : nat) (j : json) : result (list A) :=
  match j with
  | JArray _ => from_json_elements n 0 j
  | j => Throw (must_be (lit "array") j)
  end.

(** [std::map<std::string, T>]. *)
Definition to_json_map (m : list (list Z * A)) : json :=
  JObject (fold_left (λ o kv, omap_emplace kv.1 (to_json kv.2) o) m []).
Definition from_json_map (j : json) : result (list (list Z * A)) :=
  match j with
  | JObject o =>
      l ← transform (λ kv, x ← from_json kv.2; mret (kv.1, x)) o;
      mret (fold_left (λ m kv, omap_emplace kv.1 kv.2 m) l [])
  | j => Throw (must_be (lit "object") j)
  end.
End containers.

(** [std::pair]: [j = {p.first, p.second}] uses the constructor for initializer
    lists. *)
Definition init_list (init : list json) : json :=
  if forallb is_member init then JObject (fold_left emplace_member init []) else JArray init.

Lemma init_list_json init : init_json init true t_array = Ok (init_list init).
Proof. unfold init_json, init_list. cbn. by destruct (forallb is_member init). Qed.

Section pair.
Context {A B : Type} (to_a : A → json) (to_b : B → json).
Context (from_a : json → result A) (from_b : json → result B).

Definition to_json_pair (p : A * B) : json := init_list [to_a p.1; to_b p.2].
Definition from_json_pair (j : json) : result (A * B) :=
  '(v, _) ← at_idx read 0 j; a ← from_a v;
  '(w, _) ← at_idx read 1 j; b ← from_b w;
  mret (a, b).
End pair.

(** [std::tuple]: [j = {std::get<Idx>(t)...}] too, where the empty list gives null.
    [from_json] calls [at(Idx)] for every index; the order of the calls does not
    matter unless two of them throw. *)
Definition to_json_tuple (vs : list json) : json :=
  match vs with [] => JNull | vs => init_list vs end.

Definition from_json_tuple_element {A B} (from_a : json → result A) (rest : json → result B)
    (i : Z) (j : json) : result (A * B) :=
  '(v, _) ← at_idx read i j; a ← from_a v; b ← rest j; mret (a, b).

(** [external_constructor<value_t::array>] for [std::vector<bool>]: an empty array,
    and [push_back] in a loop. *)
Definition to_json_vector_bool (l : list bool) : json :=
  JArray (fold_left (λ a x, a ++ [JBool x]) l []).

(** [std::valarray]: the array is resized, and the elements are copied over it. *)
Fixpoint copy_over {A} (src dst : list A) : list A :=
  match src, dst with
  | x :: src, _ :: dst => x :: copy_over src dst
  | _, dst => dst
  end.

Definition to_json_valarray {A} (to_json : A → json) (l : list A) : json :=
  JArray (copy_over (to_json <$> l) (replicate (length l) JNull)).

Definition from_json_valarray {A} (from_json : json → result A) (j : json) : result (list A) :=
  match j with
  | JArray a => transform from_json a
  | j => Throw (must_be (lit "array") j)
  end.

(** An enumeration with the given underlying type is stored as [number_integer]. *)
Definition to_json_enum (e : Z) : json := JInt (swrap 64 e).
Definition from_json_enum (signed : bool) (w : Z) (j : json) : result Z :=
  get_arithmetic_integer signed w j.

(** ** All types *)

Inductive cpp_type :=
  | cpp_bool
  | cpp_string
  | cpp_double
  | cpp_float
  | cpp_integer (signed : bool) (w : Z)
  | cpp_vector (t : cpp_type)
  | cpp_forward_list (t : cpp_type)
  | cpp_array (n : nat) (t : cpp_type)
  | cpp_map (t : cpp_type)
  | cpp_pair (t u : cpp_type)
  | cpp_tuple (ts : cpp_types)
  | cpp_vector_bool
  | cpp_valarray (t : cpp_type)
  | cpp_enum (signed : bool) (w : Z)
with cpp_types :=
  | cpp_nil
  | cpp_cons (t : cpp_type) (ts : cpp_types).

Scheme cpp_type_mut := Induction for cpp_type Sort Prop
  with cpp_types_mut := Induction for cpp_types Sort Prop.

Fixpoint cpp_value (t : cpp_type) : Type :=
  match t with
  | cpp_bool => bool
  | cpp_string => list Z
  | cpp_double => Z
  | cpp_float => Z
  | cpp_integer _ _ => Z
  | cpp_vector t | cpp_forward_list t | cpp_array _ t => list (cpp_value t)
  | cpp_map t => list (list Z * cpp_value t)
  | cpp_pair t u => (cpp_value t * cpp_value u)%type
  | cpp_tuple ts => cpp_values ts
  | cpp_vector_bool => list bool
  | cpp_valarray t => list (cpp_value t)
  | cpp_enum _ _ => Z
  end
with cpp_values (ts : cpp_types) : Type :=
  match ts with
  | cpp_nil => ()
  | cpp_cons t ts => (cpp_value t * cpp_values ts)%type
  end.

Fixpoint to_json (t : cpp_type) : cpp_value t → json :=
  match t with
  | cpp_bool => to_json_bool
  | cpp_string => to_json_string
  | cpp_double => JFloat
  | cpp_float => to_json_float
  | cpp_integer signed _ => to_json_integer signed
  | cpp_vector t | cpp_forward_list t | cpp_array _ t => to_json_vector (to_json t)
  | cpp_map t => to_json_map (to_json t)
  | cpp_pair t u => to_json_pair (to_json t) (to_json u)
  | cpp_tuple ts => λ x, to_json_tuple (to_jsons ts x)
  | cpp_vector_bool => to_json_vector_bool
  | cpp_valarray t => to_json_valarray (to_json t)
  | cpp_enum _ _ => to_json_enum
  end
with to_jsons (ts : cpp_types) : cpp_values ts → list json :=
  match ts with
  | cpp_nil => λ _, []
  | cpp_cons t ts => λ x, to_json t x.1 :: to_jsons ts x.2
  end.

Fixpoint from_json (t : cpp_type) : json → result (cpp_value t) :=
  match t with
  | cpp_bool => from_json_bool
  | cpp_string => from_json_string
  | cpp_double => get_arithmetic_double
  | cpp_float => from_json_float
  | cpp_integer signed w =>
      if w =? 64 then get_arithmetic_integer signed w else from_json_integer signed w
  | cpp_vector t => from_json_vector (from_json t)
  | cpp_forward_list t => from_json_forward_list (from_json t)
  | cpp_array n t => from_json_array (from_json t) n
  | cpp_map t => from_json_map (from_json t)
  | cpp_pair t u => from_json_pair (from_json t) (from_json u)
  | cpp_tuple ts => from_jsons ts 0
  | cpp_vector_bool => from_json_vector from_json_bool
  | cpp_valarray t => from_json_valarray (from_json t)
  | cpp_enum signed w => from_json_enum signed w
  end
with from_jsons (ts : cpp_types) : Z → json → result (cpp_values ts) :=
  match ts with
  | cpp_nil => λ _ _, Ok ()
  | cpp_cons t ts => λ i, from_json_tuple_element (from_json t) (from_jsons ts (i + 1)) i
  end.

(** The values of a type, and of them those that a pair or a tuple does not turn
    into an object. *)
Fixpoint cpp_valid (t : cpp_type) : cpp_value t → Prop :=
  match t with
  | cpp_bool => λ _, True
  | cpp_string => is_bytes
  | cpp_double => in_u 64
  | cpp_float => λ b, in_u 32 b ∧ F32.isnan32 b = false
  | cpp_integer signed w => λ z, 0 < w ≤ 64 ∧ if signed then in_s w z else in_u w z
  | cpp_vector t | cpp_forward_list t => Forall (cpp_valid t)
  | cpp_array n t => λ l, length l = n ∧ Forall (cpp_valid t) l
  | cpp_map t => λ m, omap_sorted m ∧ Forall (λ kv, is_bytes kv.1 ∧ cpp_valid t kv.2) m
  | cpp_pair t u => λ p, (cpp_valid t p.1 ∧ cpp_valid u p.2) ∧
                         is_member (to_json t p.1) && is_member (to_json u p.2) = false
  | cpp_tuple ts => λ x, cpp_valids ts x ∧
                         (to_jsons ts x = [] ∨ forallb is_member (to_jsons ts x) = false)
  | cpp_vector_bool => λ _, True
  | cpp_valarray t => Forall (cpp_valid t)
  | cpp_enum signed w => λ z, 0 < w ≤ 64 ∧ if signed then in_s w z else in_u w z
  end
with cpp_valids (ts : cpp_types) : cpp_values ts → Prop :=
  match ts with
  | cpp_nil => λ _, True
  | cpp_cons t ts => λ x, cpp_valid t x.1 ∧ cpp_valids ts x.2
  end.

(** ** Round trips *)

Lemma cast_integer_valid (signed : bool) w z : 0 < w → (if signed then in_s w z else in_u w z) →
  cast_integer signed w z = z.
Proof. destruct signed; intros; [by apply swrap_small|by apply uwrap_small]. Qed.

Lemma fold_emplace_sorted {V} (m : list (list Z * V)) :
  omap_sorted m → fold_left (λ o kv, omap_emplace kv.1 kv.2 o) m [] = m.
Proof.
  intros Hs. change m with ([] ++ m) in Hs. change m with ([] ++ m) at 2. revert Hs.
  generalize (@nil (list Z * V)) as acc.
  induction m as [|[k v] m IH]; intros acc Hs; cbn; [by rewrite app_nil_r|].
  rewrite app_cons_snoc in Hs. rewrite omap_emplace_keys by (by eapply omap_sorted_app_keys).
  rewrite IH by done. by rewrite <-app_assoc.
Qed.

Lemma fold_emplace_map {V W} (f : V → W) m o :
  fold_left (λ o kv, omap_emplace kv.1 (f kv.2) o) m o =
  fold_left (λ o kv, omap_emplace kv.1 kv.2 o) ((λ kv, (kv.1, f kv.2)) <$> m) o.
Proof. revert o. induction m as [|kv m IH]; intros o; cbn; [done|]. apply IH. Qed.

Lemma to_json_map_sorted {A} (f : A → json) m : omap_sorted m →
  to_json_map f m = JObject ((λ kv, (kv.1, f kv.2)) <$> m).
Proof.
  intros Hs. unfold to_json_map. rewrite fold_emplace_map, fold_emplace_sorted; [done|].
  by apply fmap_snd_sorted.
Qed.

Lemma transform_fmap {A B} (f : A → B) (g : B → result A) l :
  Forall (λ x, g (f x) = Ok x) l → transform g (f <$> l) = Ok l.
Proof. induction 1 as [|x l Hx _ IH]; cbn; [done|]. by rewrite Hx, IH. Qed.

Lemma init_list_pair v w : is_member v && is_member w = false → init_list [v; w] = JArray [v; w].
Proof. intros H. unfold init_list. cbn. by rewrite andb_true_r, H. Qed.

Lemma from_json_elements_all {A} (f : A → json) (g : json → result A) l pre :
  Forall (λ x, g (f x) = Ok x) l →
  from_json_elements g (length l) (Z.of_nat (length pre)) (JArray (pre ++ (f <$> l))) = Ok l.
Proof.
  intros Hl. revert pre. induction Hl as [|x l Hx _ IH]; intros pre; [done|]. cbn [length fmap list_fmap].
  cbn [from_json_elements]. unfold at_idx. rewrite length_app, Nat2Z.id. cbn [length].
  ztest. rewrite list_lookup_middle by done. cbn. rewrite Hx. cbn.
  specialize (IH (pre ++ [f x])). rewrite length_app in IH. cbn in IH.
  rewrite Nat2Z.inj_add in IH. change (Z.of_nat 1) with 1 in IH.
  rewrite <-app_assoc in IH. cbn [app] in IH. fold (f <$> l). by rewrite IH.
Qed.

Lemma integer_roundtrip (signed : bool) w z : 0 < w ≤ 64 → (if signed then in_s w z else in_u w z) →
  (if w =? 64 then get_arithmetic_integer signed w else from_json_integer signed w)
    (to_json_integer signed z) = Ok z ∧ json_typed (to_json_integer signed z).
Proof.
  intros Hw Hz. assert (∀ b : bool, (if b then get_arithmetic_integer signed w
    else from_json_integer signed w) (to_json_integer signed z) = Ok (cast_integer signed w z)) as ->.
  { intros b. by destruct b, signed. }
  rewrite cast_integer_valid by (done || lia). split; [done|].
  pose proof (Z.pow_le_mono_r 2 w 64). pose proof (Z.pow_le_mono_r 2 (w - 1) 63).
  destruct signed; cbn in *; unfold in_s, in_u in *; lia.
Qed.

Lemma from_json_pair_array {A B} (from_a : json → result A) (from_b : json → result B) v w :
  from_json_pair from_a from_b (JArray [v; w]) = (a ← from_a v; b ← from_b w; mret (a, b)).
Proof. done. Qed.

Section elements.
Context {A : Type} (valid : A → Prop) (f : A → json) (g : json → result A).
Context (IH : ∀ x, valid x → g (f x) = Ok x ∧ json_typed (f x)).

Lemma elements_back l : Forall valid l → Forall (λ x, g (f x) = Ok x) l.
Proof. intros H. eapply Forall_impl; [apply H|]. intros x Hx. by apply IH. Qed.

Lemma elements_typed l : Forall valid l → json_typed (to_json_vector f l).
Proof.
  intros H. apply json_typed_array, Forall_fmap. eapply Forall_impl; [apply H|].
  intros x Hx. by apply IH.
Qed.

Lemma forward_list_back l : Forall valid l → from_json_forward_list g (to_json_vector f l) = Ok l.
Proof.
  intros H. unfold from_json_forward_list, to_json_vector.
  assert (rev (f <$> l) = f <$> rev l) as -> by (symmetry; apply map_rev).
  rewrite (transform_fmap f) by (apply Forall_rev; by apply elements_back). cbn. by rewrite rev_involutive.
Qed.

Lemma map_roundtrip m : omap_sorted m ∧ Forall (λ kv, is_bytes kv.1 ∧ valid kv.2) m →
  from_json_map g (to_json_map f m) = Ok m ∧ json_typed (to_json_map f m).
Proof.
  intros [Hs Hm]. rewrite to_json_map_sorted by done. split.
  - unfold from_json_map. rewrite transform_fmap.
    + cbn. by rewrite fold_emplace_sorted.
    + eapply Forall_impl; [apply Hm|]. intros [k x] [_ Hx]. cbn in *.
      destruct (IH x Hx) as [-> _]. done.
  - apply json_typed_object. split_and!; [by apply fmap_snd_sorted|..]; apply Forall_fmap;
      (eapply Forall_impl; [apply Hm|]; intros [k x] [Hk Hx]; by first [apply Hk | apply IH]).
Qed.
End elements.

Lemma enum_roundtrip (signed : bool) w z : 0 < w ≤ 64 → (if signed then in_s w z else in_u w z) →
  from_json_enum signed w (to_json_enum z) = Ok z ∧ json_typed (to_json_enum z).
Proof.
  intros Hw Hz. split; [|by apply swrap_range]. cbn. f_equal. destruct signed; cbn.
  - rewrite (swrap_small 64); [by apply swrap_small; [lia|]|done|].
    pose proof (Z.pow_le_mono_r 2 (w - 1) 63). unfold in_s in *. cbn in *. lia.
  - rewrite <-(uwrap_small w z) at 2 by done. unfold uwrap.
    assert ((2 ^ w | 2 ^ 64)) as [c Hc].
    { exists (2 ^ (64 - w)). rewrite <-Z.pow_add_r by lia. f_equal. lia. }
    assert (∃ k, swrap 64 z = z + k * 2 ^ 64) as [k Hk].
    { unfold swrap. rewrite Z.mod_eq by lia.
      case_match; [exists (- (z / 2 ^ 64))|exists (- (z / 2 ^ 64) - 1)]; lia. }
    rewrite Hk, Hc, Z.mul_assoc, Z.mod_add by lia. done.
Qed.

Lemma vector_bool_eq l : to_json_vector_bool l = to_json_vector to_json_bool l.
Proof.
  assert (∀ acc, fold_left (λ a x, a ++ [JBool x]) l acc = acc ++ (to_json_bool <$> l)) as H.
  { induction l as [|b l IH]; intros acc; cbn; [by rewrite app_nil_r|]. by rewrite IH, <-app_assoc. }
  unfold to_json_vector_bool, to_json_vector. by rewrite H.
Qed.

Lemma vector_bool_roundtrip l :
  from_json_vector from_json_bool (to_json_vector_bool l) = Ok l ∧
  json_typed (to_json_vector_bool l).
Proof.
  rewrite vector_bool_eq. split.
  - apply transform_fmap. by apply Forall_true.
  - apply json_typed_array, Forall_fmap. by apply Forall_true.
Qed.

Lemma valarray_eq {A} (f : A → json) l : to_json_valarray f l = to_json_vector f l.
Proof. unfold to_json_valarray, to_json_vector. f_equal. induction l; cbn; by f_equal. Qed.

Definition type_roundtrip (t : cpp_type) : Prop := ∀ x, cpp_valid t x →
  from_json t (to_json t x) = Ok x ∧ json_typed (to_json t x).

Definition types_roundtrip (ts : cpp_types) : Prop := ∀ x, cpp_valids ts x →
  Forall json_typed (to_jsons ts x) ∧
  ∀ pre, from_jsons ts (Z.of_nat (length pre)) (JArray (pre ++ to_jsons ts x)) = Ok x.

Lemma tuple_cons_roundtrip t ts :
  type_roundtrip t → types_roundtrip ts → types_roundtrip (cpp_cons t ts).
Proof.
  intros Ht Hts [x xs] [Hx Hxs]. cbn in Hx, Hxs. destruct (Ht x Hx) as [Hf Hj], (Hts xs Hxs) as [Hjs Hfs].
  split; [by constructor|]. intros pre. cbn. unfold from_json_tuple_element, at_idx.
  rewrite length_app, Nat2Z.id. cbn [length]. ztest. rewrite list_lookup_middle by done.
  cbn. rewrite Hf. cbn. specialize (Hfs (pre ++ [to_json t x])).
  rewrite length_app, Nat2Z.inj_add, <-app_assoc in Hfs. cbn in Hfs.
  change (Z.of_nat 1) with 1 in Hfs. by rewrite Hfs.
Qed.

Lemma tuple_roundtrip ts : types_roundtrip ts → type_roundtrip (cpp_tuple ts).
Proof.
  intros Hts x [Hx Hm]. destruct (Hts x Hx) as [Hj Hf]. cbn.
  destruct ts as [|t ts]; [by destruct x|]. destruct Hm as [Hm|Hm]; [done|].
  assert (to_json_tuple (to_jsons (cpp_cons t ts) x) = JArray (to_jsons (cpp_cons t ts) x)) as ->.
  { unfold to_json_tuple, init_list. by rewrite Hm. }
  split; [apply (Hf [])|by apply json_typed_array].
Qed.



(** Without the condition on pairs it fails: a pair of two pairs that begin with a
    string becomes an object, which [at(0)] refuses. *)
Lemma pair_of_pairs_lost :
  let t := cpp_pair (cpp_pair cpp_string cpp_bool) (cpp_pair cpp_string cpp_bool) in
  let x : cpp_value t := ((lit "a", true), (lit "b", false)) in
  to_json t x = JObject [(lit "a", JBool true); (lit "b", JBool false)] ∧
  from_json t (to_json t x) = Throw (type_error_create 304 (lit "cannot use at() with object")).
Proof. by vm_compute. Qed.

(** Narrow integer types take any number without a test: it wraps around. *)
Lemma narrowing_wraps w z : 0 < w → w ≠ 64 → from_json (cpp_integer true w) (JInt z) = Ok (swrap w z).
Proof. intros Hw Hn. cbn. by ztests. Qed.

(** A negative number written through [get_ref<number_integer_t&>()] to a value that
    was parsed as unsigned is stored as a large unsigned number. *)
Lemma set_ref_integer_unsigned z n : in_s 64 z → z < 0 →
  set_ref_integer z (JUInt n) = Ok (JUInt (z + 2 ^ 64)) ∧
  get_ptr_integer (JUInt (z + 2 ^ 64)) = Some z.
Proof.
  intros Hz Hn. unfold in_s in Hz. assert (uwrap 64 z = z + 2 ^ 64) as Hu.
  { unfold uwrap. symmetry. apply Z.mod_unique with (-1); lia. }
  cbn [set_ref_integer get_ptr_integer]. rewrite <-Hu. split; [done|].
  by rewrite swrap_uwrap.
Qed.

(** An enumerator of an unsigned type is stored as a signed number. *)
Lemma large_enum_negative e : 2 ^ 63 ≤ e < 2 ^ 64 → to_json_enum e = JInt (e - 2 ^ 64).
Proof.
  intros He. unfold to_json_enum, swrap. rewrite Z.mod_small by lia. by ztests.
Qed.
