(* ===== verification/JsonTraits.v ===== *)
(** The type traits of json/json.hpp and the overloads they select.

    Which overload of [to_json] and [from_json] converts a C++ type is decided at
    compile time, by traits such as [is_compatible_array_type] in [enable_if_t] and
    by overload resolution.  Here C++ types are data, a trait is a boolean function
    on them, and resolution picks the best of the viable overloads.  The theorems
    show that there is never a tie, and that the overloads picked for the types of
    [JsonConvert] are the conversions modelled there. *)

From S2P Require Import Prelude JsonValue JsonConvert.

(** ** C++ types *)

(** The integral types other than [bool], on Linux for x86-64. *)
Inductive int_type :=
  | ty_char | ty_schar | ty_uchar | ty_short | ty_ushort | ty_int | ty_uint
  | ty_long | ty_ulong | ty_llong | ty_ullong.

#[global] Instance int_type_eq_dec : EqDecision int_type.
Proof. solve_decision. Defined.

Definition is_signed (k : int_type) : bool :=
  match k with
  | ty_char | ty_schar | ty_short | ty_int | ty_long | ty_llong => true
  | _ => false
  end.

(** The iterators of [basic_json]. *)
Inductive iterator_kind := it_iterator | it_const | it_reverse | it_const_reverse.

#[global] Instance iterator_kind_eq_dec : EqDecision iterator_kind.
Proof. solve_decision. Defined.

(** [c_class] is a class of the user for which there is no conversion. *)
Inductive cxx :=
  | c_void
  | c_bool
  | c_int (k : int_type)
  | c_float
  | c_double
  | c_long_double
  | c_enum (underlying : int_type)
  | c_pointer (t : cxx)
  | c_array (t : cxx) (n : nat)
  | c_string
  | c_json
  | c_json_iterator (k : iterator_kind)
  | c_vector (t : cxx)
  | c_list (t : cxx)
  | c_forward_list (t : cxx)
  | c_set (t : cxx)
  | c_std_array (t : cxx) (n : nat)
  | c_valarray (t : cxx)
  | c_map (k v : cxx)
  | c_unordered_map (k v : cxx)
  | c_pair (t u : cxx)
  | c_tuple (size : nat)
  | c_class (id : nat).

#[global] Instance cxx_eq_dec : EqDecision cxx.
Proof. solve_decision. Defined.

Definition is_same (t u : cxx) : bool := bool_decide (t = u).

(** The template arguments of [json]. *)
Definition boolean_t : cxx := c_bool.
Definition string_t : cxx := c_string.
Definition number_integer_t : cxx := c_int ty_long.
Definition number_unsigned_t : cxx := c_int ty_ulong.
Definition number_float_t : cxx := c_double.
Definition array_t : cxx := c_vector c_json.
Definition object_t : cxx := c_map c_string c_json.

(** What the standard library says about its types. *)
Definition is_integral (t : cxx) : bool := match t with c_bool | c_int _ => true | _ => false end.
Definition is_floating_point (t : cxx) : bool :=
  match t with c_float | c_double | c_long_double => true | _ => false end.
Definition is_arithmetic (t : cxx) : bool := is_integral t || is_floating_point t.
Definition is_enum (t : cxx) : bool := match t with c_enum _ => true | _ => false end.
Definition is_pointer (t : cxx) : bool := match t with c_pointer _ => true | _ => false end.

(** [T::key_type], [T::mapped_type] and [T::value_type]. *)
Definition key_type (t : cxx) : option cxx :=
  match t with c_map k _ | c_unordered_map k _ | c_set k => Some k | _ => None end.
Definition mapped_type (t : cxx) : option cxx :=
  match t with c_map _ v | c_unordered_map _ v => Some v | _ => None end.
Definition value_type (t : cxx) : option cxx :=
  match t with
  | c_string => Some (c_int ty_char)
  | c_vector t | c_list t | c_forward_list t | c_set t | c_std_array t _ | c_valarray t => Some t
  | c_map k v | c_unordered_map k v => Some (c_pair k v)
  | c_json | c_json_iterator _ => Some c_json
  | _ => None
  end.

(** [T::iterator]; the iterator classes inherit the name from [std::iterator]. *)
Definition iterator (t : cxx) : bool :=
  match t with
  | c_string | c_vector _ | c_list _ | c_forward_list _ | c_set _ | c_std_array _ _
  | c_map _ _ | c_unordered_map _ _ | c_json | c_json_iterator _ => true
  | _ => false
  end.

(** A member function [reserve]. *)
Definition has_reserve (t : cxx) : bool :=
  match t with c_string | c_vector _ | c_unordered_map _ _ => true | _ => false end.

(** ** Lists of types and of tests *)

(** [conjunction] stops at the first trait that is false; [negation]. *)
Fixpoint conjunction (bs : list bool) : bool :=
  match bs with
  | [] => true
  | [b] => b
  | b :: bs => if b then conjunction bs else b
  end.

Definition negation (b : bool) : bool := negb b.

(** [merge_and_renumber] and [make_index_sequence], which halves its argument. *)
Definition merge_and_renumber (s1 s2 : list nat) : list nat := s1 ++ ((λ i, length s1 + i)%nat <$> s2).

Fixpoint make_index_sequence_in (fuel n : nat) : list nat :=
  match fuel with
  | O => []
  | S fuel =>
      match n with
      | O => []
      | 1%nat => [0%nat]
      | n => merge_and_renumber (make_index_sequence_in fuel (Nat.div2 n))
                                (make_index_sequence_in fuel (n - Nat.div2 n))
      end
  end.

Definition make_index_sequence (n : nat) : list nat := make_index_sequence_in n n.

(** ** Traits *)

Section traits.
(** Whether [std::string] can be constructed from [json], which depends on how the
    compiler treats the many conversions of [json]. *)
Context (string_of_json : bool).

(** [std::is_constructible<std::string, T>]. *)
Definition is_constructible_string (t : cxx) : bool :=
  match t with
  | c_string | c_pointer (c_int ty_char) | c_array (c_int ty_char) _ => true
  | c_json => string_of_json
  | _ => false
  end.

(** [has_to_json] and [has_from_json], for the functions of [adl_serializer], which
    take every type. *)
Definition has_to_json (t : cxx) : bool := negb (is_same t c_void).
Definition has_from_json (t : cxx) : bool := negb (is_same t c_void).

(** [adl_serializer] has no [from_json] with one argument. *)
Definition has_non_default_from_json (t : cxx) : bool := false.

Definition is_basic_json_nested_type (t : cxx) : bool :=
  is_same t (c_json_iterator it_iterator) || is_same t (c_json_iterator it_const) ||
  is_same t (c_json_iterator it_reverse) || is_same t (c_json_iterator it_const_reverse).

(** [std::is_constructible<json, T>]: [basic_json(CompatibleType&&)], or a copy. *)
Definition compatible_type (t : cxx) : bool :=
  negb (is_same t c_json) && negb (is_basic_json_nested_type t) && has_to_json t.
Definition is_constructible_json (t : cxx) : bool := is_same t c_json || compatible_type t.

(** [std::is_convertible<json, T>]: [operator ValueType], or a copy. *)
Definition conversion_operator (t : cxx) : bool :=
  negb (is_pointer t) && negb (is_same t (c_int ty_char)).
Definition is_convertible_json (t : cxx) : bool :=
  match t with c_void | c_array _ _ => false | t => is_same t c_json || conversion_operator t end.

Definition is_compatible_object_type_impl (b : bool) (t : cxx) : bool :=
  if b then
    match key_type t, mapped_type t with
    | Some k, Some v => is_constructible_string k && is_constructible_json v
    | _, _ => false
    end
  else false.

Definition has_mapped_type (t : cxx) : bool := bool_decide (is_Some (mapped_type t)).
Definition has_key_type (t : cxx) : bool := bool_decide (is_Some (key_type t)).
Definition has_value_type (t : cxx) : bool := bool_decide (is_Some (value_type t)).
Definition has_iterator (t : cxx) : bool := iterator t.

Definition is_compatible_object_type (t : cxx) : bool :=
  is_compatible_object_type_impl
    (conjunction [negation (is_same c_void t); has_mapped_type t; has_key_type t]) t.

Definition is_compatible_array_type (t : cxx) : bool :=
  conjunction [negation (is_same c_void t); negation (is_compatible_object_type t);
               negation (is_constructible_string t); negation (is_basic_json_nested_type t);
               has_value_type t; has_iterator t].

(** [numeric_limits<Real>::is_signed] is compared for the integers only. *)
Definition is_compatible_integer_type_impl (b : bool) (real t : cxx) : bool :=
  if b then
    match real, t with c_int r, c_int k => eqb (is_signed r) (is_signed k) | _, _ => false end
  else false.

Definition is_compatible_integer_type (real t : cxx) : bool :=
  is_compatible_integer_type_impl (is_integral t && negb (is_same c_bool t)) real t.

(** ** The overloads of [to_json] *)

Inductive to_overload :=
  | to_boolean | to_compatible_string | to_string_rvalue | to_float | to_unsigned | to_integer
  | to_enum | to_vector_bool | to_compatible_array | to_valarray | to_array_rvalue
  | to_compatible_object | to_object_rvalue | to_c_array | to_pair | to_tuple.

#[global] Instance to_overload_eq_dec : EqDecision to_overload.
Proof. solve_decision. Defined.

Definition to_overloads : list to_overload :=
  [to_boolean; to_compatible_string; to_string_rvalue; to_float; to_unsigned; to_integer;
   to_enum; to_vector_bool; to_compatible_array; to_valarray; to_array_rvalue;
   to_compatible_object; to_object_rvalue; to_c_array; to_pair; to_tuple].

(** How an argument fits the parameter of an overload. *)
Inductive fit := exact | by_constructor.

#[global] Instance fit_eq_dec : EqDecision fit.
Proof. solve_decision. Defined.

Definition when (b : bool) : option fit := if b then Some exact else None.

(** An argument of type [t], which is an rvalue or not. *)
Definition to_viable (t : cxx) (rvalue : bool) (o : to_overload) : option fit :=
  match o with
  | to_boolean => when (is_same t boolean_t)
  | to_compatible_string => when (is_constructible_string t)
  | to_string_rvalue =>
      if is_same t string_t then when rvalue
      else match t with
           | c_pointer (c_int ty_char) | c_array (c_int ty_char) _ => Some by_constructor
           | _ => None
           end
  | to_float => when (is_floating_point t)
  | to_unsigned => when (is_compatible_integer_type number_unsigned_t t)
  | to_integer => when (is_compatible_integer_type number_integer_t t)
  | to_enum => when (is_enum t)
  | to_vector_bool => when (is_same t (c_vector c_bool))
  | to_compatible_array => when (is_compatible_array_type t || is_same array_t t)
  | to_valarray => match t with c_valarray e => when (is_constructible_json e) | _ => None end
  | to_array_rvalue => when (is_same t array_t && rvalue)
  | to_compatible_object => when (is_compatible_object_type t)
  | to_object_rvalue => when (is_same t object_t && rvalue)
  | to_c_array =>
      match t with c_array _ _ => when (negb rvalue && negb (is_constructible_string t)) | _ => None end
  | to_pair => match t with c_pair _ _ => Some exact | _ => None end
  | to_tuple => match t with c_tuple _ => Some exact | _ => None end
  end.

(** For arguments that fit both exactly: a parameter [T&&] is better than
    [const T&] for rvalues, and a more specialized template is better. *)
Definition to_specialized (o o' : to_overload) : bool :=
  match o, o' with
  | to_string_rvalue, to_compatible_string | to_array_rvalue, to_compatible_array
  | to_object_rvalue, to_compatible_object | to_vector_bool, to_compatible_array => true
  | _, _ => false
  end.

(** ** The overloads of [from_json] *)

Inductive from_overload :=
  | from_boolean | from_string | from_number_float | from_number_unsigned | from_number_integer
  | from_enum | from_array | from_forward_list | from_valarray | from_compatible_array
  | from_compatible_object | from_arithmetic | from_pair | from_tuple.

#[global] Instance from_overload_eq_dec : EqDecision from_overload.
Proof. solve_decision. Defined.

Definition from_overloads : list from_overload :=
  [from_boolean; from_string; from_number_float; from_number_unsigned; from_number_integer;
   from_enum; from_array; from_forward_list; from_valarray; from_compatible_array;
   from_compatible_object; from_arithmetic; from_pair; from_tuple].

(** The argument is an lvalue, bound to a reference that is not constant. *)
Definition from_viable (t : cxx) (o : from_overload) : option fit :=
  match o with
  | from_boolean => when (is_same t boolean_t)
  | from_string => when (is_same t string_t)
  | from_number_float => when (is_same t number_float_t)
  | from_number_unsigned => when (is_same t number_unsigned_t)
  | from_number_integer => when (is_same t number_integer_t)
  | from_enum => when (is_enum t)
  | from_array => when (is_same t array_t)
  | from_forward_list => match t with c_forward_list e => when (is_convertible_json e) | _ => None end
  | from_valarray => match t with c_valarray e => when (is_convertible_json e) | _ => None end
  | from_compatible_array =>
      when (is_compatible_array_type t &&
            match value_type t with Some e => is_convertible_json e | None => false end &&
            negb (is_same array_t t))
  | from_compatible_object => when (is_compatible_object_type t)
  | from_arithmetic =>
      when (is_arithmetic t && negb (is_same t number_unsigned_t) &&
            negb (is_same t number_integer_t) && negb (is_same t number_float_t) &&
            negb (is_same t boolean_t))
  | from_pair => match t with c_pair _ _ => Some exact | _ => None end
  | from_tuple => match t with c_tuple _ => Some exact | _ => None end
  end.

Definition from_specialized (o o' : from_overload) : bool :=
  match o, o' with from_forward_list, from_compatible_array => true | _, _ => false end.

(** [from_json_array_impl]: the parameter [priority_tag<N>] of the highest [N] that
    accepts the container. *)
Definition array_impl (t : cxx) : nat :=
  match t with c_std_array _ _ => 2 | t => if has_reserve t then 1 else 0 end.

(** ** Overload resolution *)

Section resolution.
Context {O : Type} `{EqDecision O} (overloads : list O).
Context (viable : O → option fit) (specialized : O → O → bool).

Definition better (o o' : O) : bool :=
  match viable o, viable o' with
  | Some exact, Some by_constructor => true
  | Some exact, Some exact => specialized o o'
  | Some _, None => true
  | _, _ => false
  end.

Definition best (o : O) : bool :=
  bool_decide (is_Some (viable o)) &&
  forallb (λ o', bool_decide (o' = o) || better o o') overloads.

(** The candidates that are better than all others: one, if the call compiles. *)
Definition resolve : list O := filter (λ o, best o = true) overloads.
End resolution.

Definition resolve_to (t : cxx) (rvalue : bool) : list to_overload :=
  resolve to_overloads (to_viable t rvalue) to_specialized.
Definition resolve_from (t : cxx) : list from_overload :=
  resolve from_overloads (from_viable t) from_specialized.

(** [to_json_fn] and [from_json_fn]: without an overload, [static_assert] fails. *)
Definition to_json_fn (t : cxx) (rvalue : bool) : option to_overload := head (resolve_to t rvalue).
Definition from_json_fn (t : cxx) : option from_overload := head (resolve_from t).

(** ** No ties *)

Lemma compatible_object_map k v :
  is_compatible_object_type (c_map k v) = is_constructible_string k && is_constructible_json v.
Proof. reflexivity. Qed.

Lemma compatible_object_unordered k v :
  is_compatible_object_type (c_unordered_map k v) = is_constructible_string k && is_constructible_json v.
Proof. reflexivity. Qed.

(** A container that is not an object, not a string and not an iterator is an array. *)
Lemma compatible_array_map k v :
  is_compatible_array_type (c_map k v) = negb (is_constructible_string k && is_constructible_json v).
Proof. unfold is_compatible_array_type. rewrite compatible_object_map. by destruct (_ && _). Qed.

Lemma compatible_array_unordered k v :
  is_compatible_array_type (c_unordered_map k v) =
    negb (is_constructible_string k && is_constructible_json v).
Proof. unfold is_compatible_array_type. rewrite compatible_object_unordered. by destruct (_ && _). Qed.

(** The candidate that beats all others is the result. *)
Section winner.
Context {O : Type} `{EqDecision O} (overloads : list O).
Context (viable : O → option fit) (specialized : O → O → bool).

Lemma filter_one (P : O → Prop) `{∀ x, Decision (P x)} l o :
  NoDup l → o ∈ l → (∀ x, x ∈ l → P x ↔ x = o) → filter P l = [o].
Proof.
  induction 1 as [|x l Hx Hl IH]; intros Ho HP; [by apply elem_of_nil in Ho|].
  destruct (decide (x = o)) as [->|Hne].
  - rewrite filter_cons_True by (apply HP; [by left|done]). f_equal.
    clear IH Ho. induction l as [|y l IH]; [done|]. apply not_elem_of_cons in Hx as [Hne Hx].
    apply NoDup_cons in Hl as [_ Hl]. rewrite filter_cons_False.
    + apply IH; [done..|]. intros z Hz. apply HP. apply elem_of_cons in Hz as [->|Hz]; [by left|by right; right].
    + intros Py. apply Hne. symmetry. apply HP; [by right; left|done].
  - rewrite filter_cons_False by (intros Px; apply Hne, HP; [by left|done]).
    apply IH; [|intros y Hy; apply HP; by right]. by apply elem_of_cons in Ho as [->|Ho].
Qed.

Lemma resolve_winner o :
  NoDup overloads → o ∈ overloads → is_Some (viable o) →
  (∀ o', o' ∈ overloads → o' ≠ o → better viable specialized o o' = true ∧ better viable specialized o' o = false) →
  resolve overloads viable specialized = [o].
Proof.
  intros Hd Ho Hv Hb. apply filter_one; [done..|]. intros x Hx. unfold best. split.
  - intros [_ Hall]%andb_prop. destruct (decide (x = o)) as [|Hne]; [done|].
    rewrite forallb_forall in Hall. specialize (Hall o). rewrite <-list_elem_of_In in Hall.
    specialize (Hall Ho). rewrite bool_decide_false in Hall by done. simpl in Hall.
    destruct (Hb x Hx Hne) as [_ H]. by rewrite H in Hall.
  - intros ->. rewrite bool_decide_true by done. simpl. apply forallb_forall. intros o' Ho'.
    rewrite <-list_elem_of_In in Ho'. destruct (decide (o' = o)) as [->|Hne].
    + by rewrite bool_decide_true.
    + destruct (Hb o' Ho' Hne) as [-> _]. by rewrite orb_true_r.
Qed.
End winner.

Lemma to_overloads_all o : o ∈ to_overloads.
Proof. destruct o; vm_compute; repeat (first [by left|right]). Qed.

Lemma from_overloads_all o : o ∈ from_overloads.
Proof. destruct o; vm_compute; repeat (first [by left|right]). Qed.

Lemma to_overloads_nodup : NoDup to_overloads.
Proof. by apply (bool_decide_eq_true_1 _). Qed.

Lemma from_overloads_nodup : NoDup from_overloads.
Proof. by apply (bool_decide_eq_true_1 _). Qed.

(** One viable overload. *)
Lemma resolve_to_one t rvalue o :
  (∀ o', to_viable t rvalue o' = if decide (o' = o) then Some exact else None) →
  resolve_to t rvalue = [o].
Proof.
  intros H. apply resolve_winner; [apply to_overloads_nodup|apply to_overloads_all|..].
  - rewrite H. by rewrite decide_True.
  - intros o' _ Hne. unfold better. rewrite !H, (decide_True _ _ (eq_refl o)), (decide_False _ _ Hne). done.
Qed.

(** Maps: an object where the keys make strings, or else an array of pairs. *)
Lemma resolve_to_map k v rvalue :
  resolve_to (c_map k v) rvalue =
    [if is_same (c_map k v) object_t && rvalue then to_object_rvalue
     else if is_constructible_string k && is_constructible_json v then to_compatible_object
     else to_compatible_array].
Proof.
  assert (∀ o, to_viable (c_map k v) rvalue o =
    match o with
    | to_compatible_object => when (is_constructible_string k && is_constructible_json v)
    | to_compatible_array => when (negb (is_constructible_string k && is_constructible_json v))
    | to_object_rvalue => when (is_same (c_map k v) object_t && rvalue)
    | _ => None
    end) as H.
  { intros []; try reflexivity; unfold to_viable.
    by rewrite compatible_array_map, orb_false_r. }
  destruct (is_same (c_map k v) object_t && rvalue) eqn:E.
  - apply andb_true_iff in E as [E ->]. apply bool_decide_eq_true in E. rewrite E. by vm_compute.
  - destruct (is_constructible_string k && is_constructible_json v); apply resolve_to_one; intros o;
      rewrite H; by destruct o.
Qed.

Lemma resolve_to_unordered k v rvalue : ∃ o, resolve_to (c_unordered_map k v) rvalue = [o].
Proof.
  exists (if is_constructible_string k && is_constructible_json v
          then to_compatible_object else to_compatible_array).
  apply resolve_to_one. intros []; try (by destruct (_ && _)); unfold to_viable.
  - rewrite compatible_array_unordered. by destruct (_ && _).
  - rewrite compatible_object_unordered. by destruct (_ && _).
Qed.

(** Pointers and arrays, other than strings. *)
Lemma to_viable_pointer t rvalue o : t ≠ c_int ty_char → to_viable (c_pointer t) rvalue o = None.
Proof.
  intros Ht. destruct o; try reflexivity; cbn [to_viable is_constructible_string];
    destruct t as [| |k| | | | | | | | | | | | | | | | | | | |]; try reflexivity; by destruct k.
Qed.

Lemma to_viable_array t n rvalue o :
  t ≠ c_int ty_char →
  to_viable (c_array t n) rvalue o = if decide (o = to_c_array) then when (negb rvalue) else None.
Proof.
  intros Ht. assert (is_constructible_string (c_array t n) = false) as H.
  { destruct t as [| |k| | | | | | | | | | | | | | | | | | | |]; try reflexivity; by destruct k. }
  destruct o; try reflexivity; cbn [to_viable]; rewrite ?H; try (by destruct rvalue).
  all: destruct t as [| |k| | | | | | | | | | | | | | | | | | | |]; try reflexivity; by destruct k.
Qed.

(** The overload [o] is the only one. *)
Ltac one o := exists o; apply resolve_to_one; intros []; try reflexivity.

(** A type that [basic_json(CompatibleType&&)] accepts and for which some overload of
    [to_json] is viable selects one overload: the call is not ambiguous. *)
Lemma to_json_unambiguous t rvalue o :
  compatible_type t = true → is_Some (to_viable t rvalue o) → ∃ o, resolve_to t rvalue = [o].
Proof.
  intros Hc Hv.
  destruct t as [| |k| | | |k|t|t n| | |k|t|t|t|t|t n|t|k v|k v|t u|n|n].
  - done.
  - one to_boolean.
  - one (if is_signed k then to_integer else to_unsigned); by destruct k.
  - one to_float.
  - one to_float.
  - one to_float.
  - one to_enum.
  - destruct (decide (t = c_int ty_char)) as [->|Ht]; [exists to_compatible_string; by vm_compute|].
    exfalso. rewrite to_viable_pointer in Hv by done. by destruct Hv.
  - destruct (decide (t = c_int ty_char)) as [->|Ht]; [exists to_compatible_string; by destruct rvalue|].
    destruct rvalue.
    + exfalso. rewrite to_viable_array in Hv by done. destruct (decide _); by destruct Hv.
    + exists to_c_array. apply resolve_to_one. intros o'. rewrite to_viable_array by done. done.
  - destruct rvalue; eexists; by vm_compute.
  - done.
  - by destruct k.
  - destruct t, rvalue; try (by one to_compatible_array); eexists; by vm_compute.
  - one to_compatible_array.
  - one to_compatible_array.
  - one to_compatible_array.
  - one to_compatible_array.
  - destruct (is_constructible_json t) eqn:E; [one to_valarray; cbn [to_viable]; by rewrite E|].
    exfalso. destruct o; cbn [to_viable] in Hv; rewrite ?E in Hv; by destruct Hv.
  - rewrite resolve_to_map. by eexists.
  - apply resolve_to_unordered.
  - one to_pair.
  - one to_tuple.
  - by destruct o, Hv.
Qed.

Lemma resolve_from_one t o :
  (∀ o', from_viable t o' = if decide (o' = o) then Some exact else None) →
  resolve_from t = [o].
Proof.
  intros H. apply resolve_winner; [apply from_overloads_nodup|apply from_overloads_all|..].
  - rewrite H. by rewrite decide_True.
  - intros o' _ Hne. unfold better. rewrite !H, (decide_True _ _ (eq_refl o)), (decide_False _ _ Hne). done.
Qed.

(** A sequence whose elements [json] converts to. *)
Lemma resolve_from_sequence t e :
  (∀ o, from_viable t o = if decide (o = from_compatible_array) then when (is_convertible_json e) else None) →
  is_convertible_json e = true → resolve_from t = [from_compatible_array].
Proof. intros H He. apply resolve_from_one. intros o. rewrite H, He. by destruct (decide _). Qed.

Lemma resolve_from_forward_list e :
  is_convertible_json e = true → resolve_from (c_forward_list e) = [from_forward_list].
Proof.
  intros He. assert (∀ o, from_viable (c_forward_list e) o =
    match o with from_forward_list | from_compatible_array => Some exact | _ => None end) as H.
  { intros []; try reflexivity; cbn [from_viable value_type]; by rewrite He. }
  apply resolve_winner; [apply from_overloads_nodup|apply from_overloads_all|by rewrite H|].
  intros o' _ Hne. unfold better. rewrite !H. by destruct o'.
Qed.

Lemma from_viable_vector t o :
  from_viable (c_vector t) o =
    match o with
    | from_array => when (is_same t c_json)
    | from_compatible_array => when (is_convertible_json t && negb (is_same t c_json))
    | _ => None
    end.
Proof.
  destruct (decide (t = c_json)) as [->|Ht]; [by destruct o|].
  unfold is_same at 1 2. rewrite bool_decide_false by done.
  destruct o; try reflexivity; unfold from_viable, is_same.
  - rewrite bool_decide_false; [done|]. by intros [=].
  - rewrite (bool_decide_false (array_t = _)) by (by intros [=]). done.
Qed.

Lemma from_viable_map k v o :
  from_viable (c_map k v) o =
    match o with
    | from_compatible_object => when (is_constructible_string k && is_constructible_json v)
    | from_compatible_array => when (negb (is_constructible_string k && is_constructible_json v))
    | _ => None
    end.
Proof.
  destruct o; try reflexivity. unfold from_viable. rewrite compatible_array_map. by rewrite !andb_true_r.
Qed.

Lemma from_viable_unordered k v o :
  from_viable (c_unordered_map k v) o =
    match o with
    | from_compatible_object => when (is_constructible_string k && is_constructible_json v)
    | from_compatible_array => when (negb (is_constructible_string k && is_constructible_json v))
    | _ => None
    end.
Proof.
  destruct o; try reflexivity. unfold from_viable. rewrite compatible_array_unordered. by rewrite !andb_true_r.
Qed.

(** Exactly one of two overloads that exclude each other. *)
Lemma resolve_from_either t o1 o2 (b1 b2 : bool) :
  o1 ≠ o2 → negb (b1 && b2) = true →
  (∀ o, from_viable t o = if decide (o = o1) then when b1 else if decide (o = o2) then when b2 else None) →
  (∃ o, is_Some (from_viable t o)) → ∃ o, resolve_from t = [o].
Proof.
  intros Hne Hb H [o Ho]. rewrite H in Ho.
  destruct b1; [exists o1|destruct b2; [exists o2|]].
  - apply resolve_from_one. intros o'. rewrite H. destruct b2; [done|]. by repeat destruct (decide _).
  - apply resolve_from_one. intros o'. rewrite H. by repeat destruct (decide _); simplify_eq.
  - exfalso. repeat destruct (decide _); by destruct Ho.
Qed.

Lemma sequence_unambiguous t e o :
  (∀ o, from_viable t o = if decide (o = from_compatible_array) then when (is_convertible_json e) else None) →
  is_Some (from_viable t o) → ∃ o, resolve_from t = [o].
Proof.
  intros H Hv. exists from_compatible_array. apply (resolve_from_sequence t e); [done|].
  rewrite H in Hv. destruct (is_convertible_json e); [done|]. destruct (decide _); by destruct Hv.
Qed.

Lemma map_unambiguous t k v o :
  (∀ o, from_viable t o =
    match o with
    | from_compatible_object => when (is_constructible_string k && is_constructible_json v)
    | from_compatible_array => when (negb (is_constructible_string k && is_constructible_json v))
    | _ => None
    end) →
  is_Some (from_viable t o) → ∃ o, resolve_from t = [o].
Proof.
  intros H Hv. set (b := is_constructible_string k && is_constructible_json v) in *.
  apply (resolve_from_either _ from_compatible_object from_compatible_array b (negb b)); [done| | |by eexists].
  - by destruct b.
  - intros o'. rewrite H. by destruct o'.
Qed.

Ltac from_one o := exists o; apply resolve_from_one; intros []; reflexivity.

Lemma from_json_unambiguous t o :
  t ≠ c_json → is_Some (from_viable t o) → ∃ o, resolve_from t = [o].
Proof.
  intros Hc Hv.
  destruct t as [| |k| | | |k|t|t n| | |k|t|t|t|t|t n|t|k v|k v|t u|n|n].
  - by destruct o, Hv.
  - from_one from_boolean.
  - destruct k; first [from_one from_arithmetic|from_one from_number_integer|from_one from_number_unsigned].
  - from_one from_arithmetic.
  - from_one from_number_float.
  - from_one from_arithmetic.
  - from_one from_enum.
  - exfalso. destruct o; cbn [from_viable value_type] in Hv; rewrite ?andb_false_r in Hv; by destruct Hv.
  - exfalso. destruct o; cbn [from_viable value_type] in Hv; rewrite ?andb_false_r in Hv; by destruct Hv.
  - from_one from_string.
  - done.
  - by destruct k, o, Hv.
  - apply (resolve_from_either _ from_array from_compatible_array (is_same t c_json)
      (is_convertible_json t && negb (is_same t c_json))); [done| | |by eexists].
    + by destruct (is_same t c_json), (is_convertible_json t).
    + intros o'. rewrite from_viable_vector. by destruct o'.
  - apply (sequence_unambiguous _ t o); [|done].
    intros []; try reflexivity; cbn [from_viable value_type]; by rewrite andb_true_r.
  - exists from_forward_list. apply resolve_from_forward_list.
    destruct (is_convertible_json t) eqn:E; [done|exfalso].
    destruct o; cbn [from_viable value_type] in Hv; rewrite ?E, ?andb_false_r in Hv; by destruct Hv.
  - apply (sequence_unambiguous _ t o); [|done].
    intros []; try reflexivity; cbn [from_viable value_type]; by rewrite andb_true_r.
  - apply (sequence_unambiguous _ t o); [|done].
    intros []; try reflexivity; cbn [from_viable value_type]; by rewrite andb_true_r.
  - exists from_valarray. apply resolve_from_one. destruct (is_convertible_json t) eqn:E.
    + intros []; try reflexivity. cbn [from_viable]. by rewrite E.
    + exfalso. destruct o; cbn [from_viable] in Hv; rewrite ?E in Hv; by destruct Hv.
  - apply (map_unambiguous _ k v o); [|done]. intros o'. apply from_viable_map.
  - apply (map_unambiguous _ k v o); [|done]. intros o'. apply from_viable_unordered.
  - from_one from_pair.
  - from_one from_tuple.
  - by destruct o, Hv.
Qed.

(** ** The types of [JsonConvert] *)

Definition int_of (signed : bool) (w : Z) : int_type :=
  match w with
  | 8 => if signed then ty_schar else ty_uchar
  | 16 => if signed then ty_short else ty_ushort
  | 64 => if signed then ty_long else ty_ulong
  | _ => if signed then ty_int else ty_uint
  end.

Fixpoint types_length (ts : cpp_types) : nat :=
  match ts with cpp_nil => 0 | cpp_cons _ ts => S (types_length ts) end.

Fixpoint cxx_of (t : cpp_type) : cxx :=
  match t with
  | cpp_bool => c_bool
  | cpp_string => c_string
  | cpp_double => c_double
  | cpp_float => c_float
  | cpp_integer signed w => c_int (int_of signed w)
  | cpp_vector t => c_vector (cxx_of t)
  | cpp_forward_list t => c_forward_list (cxx_of t)
  | cpp_array n t => c_std_array (cxx_of t) n
  | cpp_map t => c_map c_string (cxx_of t)
  | cpp_pair t u => c_pair (cxx_of t) (cxx_of u)
  | cpp_tuple ts => c_tuple (types_length ts)
  | cpp_vector_bool => c_vector c_bool
  | cpp_valarray t => c_valarray (cxx_of t)
  | cpp_enum signed w => c_enum (int_of signed w)
  end.

(** The conversion that an overload of [to_json] is, at a type. *)
Definition convert_to (o : to_overload) (t : cpp_type) : option (cpp_value t → json) :=
  match t, o with
  | cpp_bool, to_boolean => Some to_json_bool
  | cpp_string, (to_compatible_string | to_string_rvalue) => Some to_json_string
  | cpp_double, to_float => Some JFloat
  | cpp_float, to_float => Some to_json_float
  | cpp_integer _ _, to_integer => Some JInt
  | cpp_integer _ _, to_unsigned => Some JUInt
  | cpp_enum _ _, to_enum => Some to_json_enum
  | cpp_vector cpp_bool, to_vector_bool => Some to_json_vector_bool
  | cpp_vector_bool, to_vector_bool => Some to_json_vector_bool
  | cpp_vector t, to_compatible_array => Some (to_json_vector (to_json t))
  | cpp_forward_list t, to_compatible_array => Some (to_json_vector (to_json t))
  | cpp_array _ t, to_compatible_array => Some (to_json_vector (to_json t))
  | cpp_valarray t, to_valarray => Some (to_json_valarray (to_json t))
  | cpp_map t, (to_compatible_object | to_object_rvalue) => Some (to_json_map (to_json t))
  | cpp_pair t u, to_pair => Some (to_json_pair (to_json t) (to_json u))
  | cpp_tuple ts, to_tuple => Some (λ x, to_json_tuple (to_jsons ts x))
  | _, _ => None
  end.

(** The same for [from_json], with the implementation that the tag selects. *)
Definition convert_from (o : from_overload) (impl : nat) (t : cpp_type) :
    option (json → result (cpp_value t)) :=
  match t, o with
  | cpp_bool, from_boolean => Some from_json_bool
  | cpp_string, from_string => Some from_json_string
  | cpp_double, from_number_float => Some get_arithmetic_double
  | cpp_float, from_arithmetic => Some from_json_float
  | cpp_integer signed w, (from_number_integer | from_number_unsigned) =>
      Some (get_arithmetic_integer signed w)
  | cpp_integer signed w, from_arithmetic => Some (from_json_integer signed w)
  | cpp_enum signed w, from_enum => Some (from_json_enum signed w)
  | cpp_vector t, from_compatible_array =>
      if bool_decide (impl = 1%nat) then Some (from_json_vector (from_json t)) else None
  | cpp_vector_bool, from_compatible_array =>
      if bool_decide (impl = 1%nat) then Some (from_json_vector from_json_bool) else None
  | cpp_forward_list t, from_forward_list => Some (from_json_forward_list (from_json t))
  | cpp_array n t, from_compatible_array =>
      if bool_decide (impl = 2%nat) then Some (from_json_array (from_json t) n) else None
  | cpp_valarray t, from_valarray => Some (from_json_valarray (from_json t))
  | cpp_map t, from_compatible_object => Some (from_json_map (from_json t))
  | cpp_pair t u, from_pair => Some (from_json_pair (from_json t) (from_json u))
  | cpp_tuple ts, from_tuple => Some (from_jsons ts 0)
  | _, _ => None
  end.

Lemma int_of_cases signed w :
  (w = 64 ∧ int_of signed w = if signed then ty_long else ty_ulong) ∨
  (w ≠ 64 ∧ (int_of signed w = (if signed then ty_schar else ty_uchar) ∨
             int_of signed w = (if signed then ty_short else ty_ushort) ∨
             int_of signed w = if signed then ty_int else ty_uint)).
Proof.
  destruct (decide (w = 64)) as [->|Hw]; [by left|right]. split; [done|].
  destruct (decide (w = 8)) as [->|H8]; [by left|].
  destruct (decide (w = 16)) as [->|H16]; [by right; left|].
  right; right. destruct w as [|p|p]; try done. repeat (destruct p as [p|p|]; try done).
Qed.

Lemma cxx_of_json t : is_constructible_json (cxx_of t) = true ∧ is_convertible_json (cxx_of t) = true.
Proof.
  split; destruct t; try reflexivity; cbn [cxx_of];
    destruct (int_of_cases signed w) as [[_ ->]|[_ [->|[->| ->]]]]; by destruct signed.
Qed.

Lemma resolve_to_vector t rvalue :
  resolve_to (c_vector (cxx_of t)) rvalue =
    [if t is cpp_bool then to_vector_bool else to_compatible_array].
Proof.
  destruct t; try (by apply resolve_to_one; intros []). by vm_compute.
Qed.

Lemma select_to t rvalue : ∃ o f,
  resolve_to (cxx_of t) rvalue = [o] ∧ convert_to o t = Some f ∧ ∀ x, f x = to_json t x.
Proof.
  destruct t; cbn [cxx_of].
  - by exists to_boolean, to_json_bool.
  - destruct rvalue; [exists to_string_rvalue|exists to_compatible_string]; exists to_json_string; by vm_compute.
  - by exists to_float, JFloat.
  - by exists to_float, to_json_float.
  - exists (if signed then to_integer else to_unsigned), (if signed then JInt else JUInt).
    split_and!; [|by destruct signed|by destruct signed].
    destruct (int_of_cases signed w) as [[_ ->]|[_ [->|[->| ->]]]]; by destruct signed.
  - rewrite resolve_to_vector. destruct t; do 2 eexists; split_and!; try reflexivity.
    intros x. apply vector_bool_eq.
  - exists to_compatible_array. eexists. split_and!; [by apply resolve_to_one; intros []|done|done].
  - exists to_compatible_array. eexists. split_and!; [by apply resolve_to_one; intros []|done|done].
  - rewrite resolve_to_map. destruct (cxx_of_json t) as [-> _].
    destruct (is_same _ _ && rvalue); do 2 eexists; split_and!; done.
  - exists to_pair. eexists. split_and!; [by apply resolve_to_one; intros []|done|done].
  - exists to_tuple. eexists. split_and!; [by apply resolve_to_one; intros []|done|done].
  - by exists to_vector_bool, to_json_vector_bool.
  - exists to_valarray. eexists. split_and!; [|done|done]. apply resolve_to_one. intros []; try reflexivity.
    cbn [to_viable]. by destruct (cxx_of_json t) as [-> _].
  - exists to_enum. eexists. split_and!; [by apply resolve_to_one; intros []|done|done].
Qed.

Lemma select_from t : ∃ o f,
  resolve_from (cxx_of t) = [o] ∧ convert_from o (array_impl (cxx_of t)) t = Some f ∧
  ∀ j, f j = from_json t j.
Proof.
  destruct t; cbn [cxx_of].
  - by exists from_boolean, from_json_bool.
  - by exists from_string, from_json_string.
  - by exists from_number_float, get_arithmetic_double.
  - by exists from_arithmetic, from_json_float.
  - destruct (int_of_cases signed w) as [[-> ->]|[Hw Hi]].
    + exists (if signed then from_number_integer else from_number_unsigned). eexists. by destruct signed.
    + exists from_arithmetic, (from_json_integer signed w). split_and!; [|done|intros j; cbn; by ztests].
      destruct Hi as [->|[->| ->]]; by destruct signed.
  - exists from_compatible_array. eexists. split_and!; [|done|done].
    apply (resolve_from_sequence _ (cxx_of t)); [|apply cxx_of_json].
    intros []; try reflexivity; [by destruct t|]. cbn [from_viable value_type].
    replace (is_same array_t (c_vector (cxx_of t))) with false by (by destruct t).
    by rewrite andb_true_r.
  - exists from_forward_list. eexists. split_and!; [|done|done].
    apply resolve_from_forward_list, cxx_of_json.
  - exists from_compatible_array. eexists. split_and!; [|done|done].
    apply (resolve_from_sequence _ (cxx_of t)); [|apply cxx_of_json].
    intros []; try reflexivity. cbn [from_viable value_type]. by rewrite andb_true_r.
  - exists from_compatible_object. eexists. split_and!; [|done|done].
    apply resolve_from_one. intros []; try reflexivity; unfold from_viable;
      rewrite ?compatible_array_map, ?compatible_object_map; by destruct (cxx_of_json t) as [-> _].
  - exists from_pair. eexists. split_and!; [by apply resolve_from_one; intros []|done|done].
  - exists from_tuple. eexists. split_and!; [by apply resolve_from_one; intros []|done|done].
  - by exists from_compatible_array, (from_json_vector from_json_bool).
  - exists from_valarray. eexists. split_and!; [|done|done]. apply resolve_from_one. intros []; try reflexivity.
    cbn [from_viable]. by destruct (cxx_of_json t) as [_ ->].
  - exists from_enum. eexists. split_and!; [by apply resolve_from_one; intros []|done|done].
Qed.
End traits.

(** ** The theorems *)



(** C15. The type traits select the conversions.  For each type of the model of
    conversions, the traits and overload resolution select exactly one overload of
    [to_json], for lvalues and rvalues, and one of [from_json] with its tag, and these
    are the functions with which [to_json] and [from_json] of the model convert. *)
Theorem overloads_select string_of_json t rvalue x j :
  (∃ o f, resolve_to string_of_json (cxx_of t) rvalue = [o] ∧ convert_to o t = Some f ∧ f x = to_json t x) ∧
  (∃ o f, resolve_from string_of_json (cxx_of t) = [o] ∧
    convert_from o (array_impl (cxx_of t)) t = Some f ∧ f j = from_json t j).
Proof.
  destruct (select_to string_of_json t rvalue) as (o & f & H1 & H2 & H3).
  destruct (select_from string_of_json t) as (o' & f' & H4 & H5 & H6).
  split; [exists o, f|exists o', f']; auto.
Qed.

(** ** Index sequences *)

Lemma merge_seq n m : merge_and_renumber (seq 0 n) (seq 0 m) = seq 0 (n + m).
Proof. unfold merge_and_renumber. rewrite length_seq, seq_app. f_equal. rewrite <-(Nat.add_0_r (0 + n)). apply fmap_add_seq. Qed.

Lemma make_index_sequence_in_seq fuel n : (n ≤ fuel)%nat → make_index_sequence_in fuel n = seq 0 n.
Proof.
  revert n. induction fuel as [|fuel IH]; intros n Hn; [by replace n with 0%nat by lia|].
  destruct n as [|[|n]]; [done..|]. cbn [make_index_sequence_in].
  change (Nat.div2 (S (S n))) with (S (Nat.div2 n)).
  assert (Nat.div2 n ≤ n)%nat as Hd by (apply Nat.div2_decr; lia).
  set (d := Nat.div2 n) in *. clearbody d.
  rewrite !IH by lia. rewrite merge_seq. f_equal. lia.
Qed.

(** [make_index_sequence<N>] is 0, ..., N-1, in about log2 N steps of depth. *)
Theorem make_index_sequence_spec n : make_index_sequence n = seq 0 n.
Proof. by apply make_index_sequence_in_seq. Qed.

Lemma conjunction_spec bs : conjunction bs = forallb id bs.
Proof. induction bs as [|b [|b' bs] IH]; [done|by destruct b|]. destruct b; [exact IH|done]. Qed.

(** ** Limits *)

(** [std::vector<char>] is written as an array of numbers and cannot be read. *)
Theorem vector_of_char_not_readable s :
  to_json_fn s (c_vector (c_int ty_char)) false = Some to_compatible_array ∧
  from_json_fn s (c_vector (c_int ty_char)) = None.
Proof. by vm_compute. Qed.

(** [long long] has the width of [number_integer_t] and is another type: it is read
    by the overload that takes booleans too. *)
Theorem long_long_takes_booleans s :
  from_json_fn s (c_int ty_long) = Some from_number_integer ∧
  from_json_fn s (c_int ty_llong) = Some from_arithmetic.
Proof. by vm_compute. Qed.

(** The traits accept every class: the constructor of [json] and [get] are enabled for
    one without conversions, and [static_assert] stops the compilation behind them. *)
Theorem class_without_conversion s n :
  is_constructible_json (c_class n) = true ∧ has_from_json (c_class n) = true ∧
  to_json_fn s (c_class n) false = None ∧ from_json_fn s (c_class n) = None.
Proof. by vm_compute. Qed.

(** A map whose keys do not make strings is an array of pairs. *)
Theorem map_of_other_keys s k v rvalue :
  is_constructible_string s k = false →
  to_json_fn s (c_map k v) rvalue = Some to_compatible_array.
Proof.
  intros Hk. unfold to_json_fn. rewrite resolve_to_map, Hk. simpl.
  destruct (is_same _ _) eqn:E; [|done]. apply bool_decide_eq_true in E. injection E as -> ->. done.
Qed.
