(* ===== verification/JsonTest.v ===== *)
(** jsonTest.cpp: the program that uses json.hpp, composed of the operations of the
    development.  Its output is the list of the lines it prints. *)

From S2P Require Import Prelude Float64 JsonValue BinaryWriter BinaryReader Serializer Lexer Parser.
From S2P Require Import JsonAccess JsonIterators JsonPointer JsonModifiers JsonConvert.

(** [operator<<(std::ostream&, const basic_json&)], for the width and the fill
    character of the stream. *)
Definition stream_insert (loc : lconv) (width fill : Z) (j : json) : result (list Z) :=
  json_dump loc j (if 0 <? width then width else -1) fill false.

Section main.
Context (loc : lconv) (le : bool).

(** [std::cout << j], with the default width and fill. *)
Definition show (j : json) : result (list Z) := stream_insert loc 0 32 j.

(** A literal of type [double]. *)
Definition double (s : list Z) : json := JFloat (F64.strtod 46 s).1.

(** [j[key] = val]. *)
Definition set_key (key : list Z) (val j : json) : result json := snd <$> index_key (assign val) key j.

(** [std::cout << std::hex << int(v[i]) << " "] for all bytes. *)
Definition show_hex (bytes : list Z) : list Z :=
  bytes ≫= λ b, (if b <? 16 then [hexdigit b] else [hexdigit (b / 16); hexdigit (b mod 16)]) ++ [32].

(** [main], lines 11 to 20: an object, built member by member. *)
Definition build_object : result json :=
  j ← set_key (lit "pi") (double (lit "3.14")) JNull;
  j ← set_key (lit "happy") (JBool true) j;
  j ← set_key (lit "name") (JString (lit "Niels")) j;
  j ← set_key (lit "nothing") JNull j;
  '(_, j) ← index_key (λ v, v ← set_key (lit "everything") (JInt 42) v; mret ((), v)) (lit "answer") j;
  l ← init_json [JInt 1; JInt 0; JInt 2] true t_array;
  j ← set_key (lit "list") l j;
  c ← init_json [JString (lit "currency"); JString (lit "USD")] true t_array;
  v ← init_json [JString (lit "value"); double (lit "42.99")] true t_array;
  o ← init_json [c; v] true t_array;
  set_key (lit "object") o j.

(** Lines 32 to 37. *)
Definition array_not_object : result json :=
  c ← json_array [JString (lit "currency"); JString (lit "USD")];
  v ← json_array [JString (lit "value"); double (lit "42.99")];
  init_json [c; v] true t_array.

(** Lines 53 to 60. *)
Definition build_array : result json :=
  jt ← push_back (JString (lit "foo")) JNull;
  jt ← push_back (JInt 1) jt;
  jt ← push_back (JBool true) jt;
  emplace_back (double (lit "1.78")) jt.

(** Lines 72 to 77: [jt[0]] as a string, [jt[1] = 42], [jt.at(2)] as a boolean, and
    the comparison. *)
Definition use_array (jt : json) : result (list Z * bool * json * bool) :=
  '(v, jt) ← index read 0 jt;
  tmp ← from_json_string v;
  '(_, jt) ← index (assign (JInt 42)) 1 jt;
  '(w, jt) ← at_idx read 2 jt;
  foo ← from_json_bool w;
  expected ← json_parse loc ([91; 34] ++ lit "foo" ++ [34] ++ lit ", 1, true]");
  mret (tmp, foo, jt, json_eq jt expected).

(** Lines 96 to 119: an object is built and iterated, two keys are counted, and one
    member is erased. *)
Definition use_object : result (list (list Z) * Z * Z * json) :=
  o ← set_key (lit "foo") (JInt 23) JNull;
  o ← set_key (lit "bar") (JBool false) o;
  o ← set_key (lit "baz") (double (lit "3.141")) o;
  '(_, o) ← emplace 1 (lit "weather") (JString (lit "sunny")) o;
  kvs ← range_for (S (length (items o))) (proxy_begin 1 o) (proxy_end 1 o) o;
  lines ← transform (λ kv, t ← show kv.2; mret (kv.1 ++ lit " : " ++ t)) kvs;
  '(_, o') ← erase_key (lit "foo") o;
  mret (lines, json_count (lit "foo") o, json_count (lit "fob") o, o').

(** Lines 124 to 148: the two binary formats, there and back. *)
Definition use_binary : result (list (list Z)) :=
  jf ← json_parse loc ([123; 34] ++ lit "compact" ++ [34] ++ lit ": true, " ++ [34] ++ lit "schema" ++ [34] ++ lit ": 0}");
  let v_cbor := to_cbor le jf in
  j_from_cbor ← from_cbor le v_cbor true;
  t1 ← show j_from_cbor;
  let v_msgpack := to_msgpack le jf in
  j_from_msgpack ← from_msgpack le v_msgpack true;
  t2 ← show j_from_msgpack;
  mret [show_hex v_cbor; t1; show_hex v_msgpack; t2].

(** Lines 40 to 45: three ways to parse a text. *)
Definition parse_texts : result (list (list Z)) :=
  let happy := [34] ++ lit "happy" ++ [34] ++ lit ": true," in
  let pi := [34] ++ lit "pi" ++ [34] ++ lit ": 3.141" in
  j1 ← json_parse loc (lit "{ " ++ happy ++ lit " " ++ pi ++ lit " }");
  j2 ← json_parse loc (lit "{" ++ happy ++ pi ++ lit "}");
  transform show [j1; j2; j1].

(** [main]. *)
Definition json_test_main : result (list (list Z)) :=
  j ← build_object;
  l1 ← show j;
  a ← array_not_object;
  l2 ← transform (λ kv, show kv.2) (items a);
  l3 ← show a;
  l4 ← parse_texts;
  s ← json_dump loc j (-1) 32 false;
  s4 ← json_dump loc j 4 32 false;
  jt ← build_array;
  l5 ← transform (λ kv, show kv.2) (items jt);
  '(_, _, jt, equal) ← use_array jt;
  l6 ← show jt;
  '(l7, _, _, _) ← use_object;
  l8 ← use_binary;
  mret ([l1] ++ l2 ++ [l3] ++ l4 ++ [s; s4] ++ l5 ++ l5 ++ [to_string (Z.b2z equal); l6] ++ l7 ++ l8).
End main.

(** ** What it prints *)

(** A text with double quotes, which are written as single quotes here. *)
Definition quoted (s : list Z) : list Z := (λ c, if c =? 39 then 34 else c) <$> s.

(** The object of the first lines. *)
Example first_line : (j ← build_object; show c_locale j) =
  Ok (quoted (lit "{'answer':{'everything':42},'happy':true,'list':[1,0,2],'name':'Niels','nothing':null,'object':{'currency':'USD','value':42.99},'pi':3.14}")).
Proof. vm_compute. reflexivity. Qed.

(** The program ends without an exception; it prints 27 texts. *)
Lemma json_test_main_returns :
  (length <$> json_test_main c_locale true) = Ok 27%nat.
Proof. vm_compute. reflexivity. Qed.

(** The comment calls it an array of pairs, but two arrays that begin with a string
    make an object. *)
Lemma array_not_object_is_object : (j ← array_not_object; show c_locale j) =
  Ok (quoted (lit "{'currency':'USD','value':42.99}")).
Proof. vm_compute. reflexivity. Qed.

(** The comment says that the comparison is true; the array has four elements, and
    the second was changed. *)
Lemma comparison_is_false : (jt ← build_array; use_array c_locale jt) =
  Ok (lit "foo", true,
      JArray [JString (lit "foo"); JInt 42; JBool true; double (lit "1.78")], false).
Proof. vm_compute. reflexivity. Qed.

Lemma use_object_lines : use_object c_locale =
  Ok ([lit "bar : false"; lit "baz : 3.141"; lit "foo : 23"; quoted (lit "weather : 'sunny'")], 1, 0,
      JObject [(lit "bar", JBool false); (lit "baz", double (lit "3.141"));
               (lit "weather", JString (lit "sunny"))]).
Proof. vm_compute. reflexivity. Qed.

(** The binary formats, with the bytes that the comment gives for MessagePack. *)
Lemma use_binary_lines : use_binary c_locale true =
  Ok [lit "a2 67 63 6f 6d 70 61 63 74 f5 66 73 63 68 65 6d 61 0 ";
      quoted (lit "{'compact':true,'schema':0}");
      lit "82 a7 63 6f 6d 70 61 63 74 c3 a6 73 63 68 65 6d 61 0 ";
      quoted (lit "{'compact':true,'schema':0}")].
Proof. vm_compute. reflexivity. Qed.
