(* ===== verification/JsonPatch.v ===== *)
(** [patch] and [diff] of json.hpp (RFC 6902).

    The operands of an assignment are evaluated from the right, as C++17
    demands, those of [==] from the left. [loc] is the locale [dump] runs in; it
    only matters for the text of the exception of a failed "test". *)

From S2P Require Import Prelude JsonValue Serializer JsonAccess JsonPointer.

Inductive patch_operations :=
  | op_add | op_remove | op_replace | op_move | op_copy | op_test | op_invalid.

Definition get_op (op : list Z) : patch_operations :=
  if bool_decide (op = lit "add") then op_add
  else if bool_decide (op = lit "remove") then op_remove
  else if bool_decide (op = lit "replace") then op_replace
  else if bool_decide (op = lit "move") then op_move
  else if bool_decide (op = lit "copy") then op_copy
  else if bool_decide (op = lit "test") then op_test
  else op_invalid.

(** The switch of [operation_add] on the type of the parent. *)
Definition add_to_parent (last_path : list Z) (val : json) : ref_use () := λ parent,
  match parent with
  | JNull | JObject _ => index_key (assign val) last_path parent
  | JArray a =>
      if bool_decide (last_path = dash) then
        parent ← push_back val parent; mret ((), parent)
      else
        idx ← stoi last_path;
        if json_size parent <? uwrap 64 idx then
          Throw (out_of_range_create 401
                   (lit "array index " ++ to_string idx ++ lit " is out of range"))
        else parent ← insert_at idx val parent; mret ((), parent)
  | _ => Throw assert_failure
  end.

Definition operation_add (ptr : json_pointer) (val result : json) : JsonValue.result json :=
  match ptr with
  | [] => Ok val
  | _ =>
      top_pointer ← top ptr;
      _ ← (if bool_decide (top_pointer = ptr) then mret JNull else at_pointer top_pointer result);
      '(last_path, ptr) ← pop_back ptr;
      '(_, result) ← get_unchecked ptr (add_to_parent last_path val) result;
      mret result
  end.

(** What [operation_remove] does with the parent. *)
Definition remove_from_parent (last_path : list Z) : ref_use () := λ parent,
  match parent with
  | JObject o =>
      match omap_find last_path o with
      | Some _ => Ok ((), JObject (omap_erase last_path o))
      | None => Throw (out_of_range_create 403 (lit "key '" ++ last_path ++ lit "' not found"))
      end
  | JArray a =>
      idx ← stoi last_path;
      parent ← erase_idx (uwrap 64 idx) parent;
      mret ((), parent)
  | _ => Ok ((), parent)
  end.

Definition operation_remove (ptr : json_pointer) (result : json) : JsonValue.result json :=
  '(last_path, ptr) ← pop_back ptr;
  '(_, result) ← get_checked ptr (remove_from_parent last_path) result;
  mret result.

(** [get_value] of the operation [val]. *)
Definition get_value (val : list (list Z * json)) (op member : list Z) (string_type : bool) :
    result json :=
  let error_msg :=
    if bool_decide (op = lit "op") then lit "operation" else lit "operation '" ++ op ++ lit "'" in
  match omap_find member val with
  | None =>
      Throw (parse_error_create 105 0 (error_msg ++ lit " must have member '" ++ member ++ lit "'"))
  | Some v =>
      if string_type && negb (is_string v) then
        Throw (parse_error_create 105 0
                 (error_msg ++ lit " must have string member '" ++ member ++ lit "'"))
      else Ok v
  end.

(** [get_value] with [string_type], converted to [std::string]. *)
Definition get_string_value (val : list (list Z * json)) (op member : list Z) : result (list Z) :=
  v ← get_value val op member true;
  match v with JString s => Ok s | _ => Throw assert_failure end.

Section patch.
Variable loc : lconv.

(** The operation "test". *)
Definition test_op (val : list (list Z * json)) (ptr : json_pointer) (result : json) :
    JsonValue.result json :=
  success ←
    match (found ← at_pointer ptr result;
           value ← get_value val (lit "test") (lit "value") false;
           mret (json_eq found value)) with
    | Throw (out_of_range _ _) => Ok false
    | r => r
    end;
  if success : bool then Ok result
  else
    text ← json_dump loc (JObject val) (-1) 32 false;
    Throw (other_error_create 501 (lit "unsuccessful: " ++ text)).

(** One round of the loop of [patch]. *)
Definition patch_one (val result : json) : JsonValue.result json :=
  match val with
  | JObject val =>
      op ← get_string_value val (lit "op") (lit "op");
      path ← get_string_value val op (lit "path");
      ptr ← split path;
      match get_op op with
      | op_add =>
          value ← get_value val (lit "add") (lit "value") false;
          operation_add ptr value result
      | op_remove => operation_remove ptr result
      | op_replace =>
          value ← get_value val (lit "replace") (lit "value") false;
          '(_, result) ← get_checked ptr (assign value) result;
          mret result
      | op_move =>
          from_path ← get_string_value val (lit "move") (lit "from");
          from_ptr ← split from_path;
          v ← at_pointer from_ptr result;
          result ← operation_remove from_ptr result;
          operation_add ptr v result
      | op_copy =>
          from_path ← get_string_value val (lit "copy") (lit "from");
          from_ptr ← split from_path;
          v ← at_pointer from_ptr result;
          '(_, result) ← get_unchecked ptr (assign v) result;
          mret result
      | op_test => test_op val ptr result
      | op_invalid =>
          Throw (parse_error_create 105 0 (lit "operation value '" ++ op ++ lit "' is invalid"))
      end
  | _ => Throw (parse_error_create 104 0 (lit "JSON patch must be an array of objects"))
  end.

Fixpoint patch_all (json_patch : list json) (result : json) : JsonValue.result json :=
  match json_patch with
  | [] => Ok result
  | val :: json_patch => result ← patch_one val result; patch_all json_patch result
  end.

Definition patch (this json_patch : json) : result json :=
  match json_patch with
  | JArray vals => patch_all vals this
  | _ => Throw (parse_error_create 104 0 (lit "JSON patch must be an array of objects"))
  end.
End patch.

(** ** [diff] *)

Definition replace_object (path : list Z) (value : json) : json :=
  JObject [(lit "op", JString (lit "replace")); (lit "path", JString path); (lit "value", value)].

Definition remove_object (path : list Z) : json :=
  JObject [(lit "op", JString (lit "remove")); (lit "path", JString path)].

Definition add_object (path : list Z) (value : json) : json :=
  JObject [(lit "op", JString (lit "add")); (lit "path", JString path); (lit "value", value)].

(** The loop that removes the remaining elements: each operation is inserted in
    front of the previous ones. *)
Fixpoint remove_rest (path : list Z) (i : Z) (rest : list json) : list json :=
  match rest with
  | [] => []
  | _ :: rest => remove_rest path (i + 1) rest ++ [remove_object (path ++ lit "/" ++ to_string i)]
  end.

Fixpoint add_rest (path : list Z) (i : Z) (rest : list json) : list json :=
  match rest with
  | [] => []
  | v :: rest => add_object (path ++ lit "/" ++ to_string i) v :: add_rest path (i + 1) rest
  end.

(** The second pass over objects: the members of [target] that [source] has
    not. *)
Fixpoint add_members (path : list Z) (source target : list (list Z * json)) : list json :=
  match target with
  | [] => []
  | kv :: target =>
      (if omap_find kv.1 source is None
       then [add_object (path ++ lit "/" ++ escape kv.1) kv.2] else []) ++
      add_members path source target
  end.

(** The elements of the array that [diff] returns. *)
Fixpoint diff_operations (source target : json) (path : list Z) {struct source} : list json :=
  if json_eq source target then []
  else if negb (bool_decide (m_type source = m_type target)) then [replace_object path target]
  else
    match source, target with
    | JArray a, JArray b =>
        (fix common (i : Z) (a b : list json) :=
           match a, b with
           | x :: a, y :: b =>
               diff_operations x y (path ++ lit "/" ++ to_string i) ++ common (i + 1) a b
           | a, b => []
           end) 0 a b ++
        remove_rest path (Z.min (Z.of_nat (length a)) (Z.of_nat (length b))) (drop (length b) a) ++
        add_rest path (Z.min (Z.of_nat (length a)) (Z.of_nat (length b))) (drop (length a) b)
    | JObject a, JObject b =>
        (fix first (a : list (list Z * json)) :=
           match a with
           | [] => []
           | kv :: a =>
               let key := escape kv.1 in
               match omap_find kv.1 b with
               | Some y => diff_operations kv.2 y (path ++ lit "/" ++ key)
               | None => [remove_object (path ++ lit "/" ++ key)]
               end ++ first a
           end) a ++
        add_members path a b
    | _, target => [replace_object path target]
    end.

Definition diff (source target : json) (path : list Z) : json :=
  JArray (diff_operations source target path).

Example patch_diff_example :
  let s := JObject [(lit "a/b", JArray [JUInt 1; JNull; JUInt 3]); (lit "c", JBool true)] in
  let t := JObject [(lit "a/b", JArray [JUInt 2]); (lit "d", JArray [JString (lit "x")])] in
  diff s t [] =
    JArray [replace_object (lit "/a~1b/0") (JUInt 2); remove_object (lit "/a~1b/2");
            remove_object (lit "/a~1b/1"); remove_object (lit "/c");
            add_object (lit "/d") (JArray [JString (lit "x")])] ∧
  patch c_locale s (diff s t []) = Ok t.
Proof. vm_compute. done. Qed.
