(* ===== verification/PatchDiff.v ===== *)
(** A patch made by [diff] turns its source into its target.

    A location of a document is a list of typed steps; [locate] and [put] read
    and replace the value there.  Each operation that [diff] generates is shown
    to be a [put], and the theorem follows by induction on the source. *)

From S2P Require Import Prelude Float64 JsonValue Serializer Lexer Numeral.
From S2P Require Import JsonAccess JsonPointer PointerText JsonPatch.

(** ** Locations *)

Inductive pstep := SKey (k : list Z) | SIdx (i : nat).

Definition step_token (s : pstep) : list Z :=
  match s with SKey k => k | SIdx i => to_string (Z.of_nat i) end.

Definition child (s : pstep) (j : json) : option json :=
  match s, j with
  | SKey k, JObject o => omap_find k o
  | SIdx i, JArray a => if Z.of_nat i <? 2 ^ 31 then a !! i else None
  | _, _ => None
  end.

Definition put_child (s : pstep) (v j : json) : json :=
  match s, j with
  | SKey k, JObject o => JObject (omap_assign k v o)
  | SIdx i, JArray a => JArray (<[i := v]> a)
  | _, j => j
  end.

Fixpoint locate (p : list pstep) (j : json) : option json :=
  match p with
  | [] => Some j
  | s :: p => child s j ≫= locate p
  end.

Fixpoint put (p : list pstep) (v j : json) : json :=
  match p with
  | [] => v
  | s :: p => match child s j with Some c => put_child s (put p v c) j | None => j end
  end.

Abbreviation tokens p := (step_token <$> p) (only parsing).

(** ** Maps *)

Section omap_facts.
Context {V : Type}.
Implicit Types m : list (list Z * V).

Lemma omap_find_erase k m k2 : omap_sorted m →
  omap_find k2 (omap_erase k m) = if bool_decide (k2 = k) then None else omap_find k2 m.
Proof.
  induction 1 as [|[k' v'] m Hm IH Hall]; simpl; [by case_match|].
  destruct (string_compare k k') eqn:E; simpl.
  - apply string_compare_eq in E as <-. case_bool_decide as Hk.
    + subst. by apply omap_find_lt.
    + destruct (string_compare k2 k) eqn:E2; [by apply string_compare_eq in E2|done..].
  - rewrite IH. case_bool_decide as Hk; [|done]. subst. by rewrite E.
  - rewrite IH. case_bool_decide as Hk; [|done]. subst. by rewrite E.
Qed.

(** Two sorted maps whose lookups are related are related member by member. *)
Lemma omap_related (R : V → V → Prop) m1 m2 : omap_sorted m1 → omap_sorted m2 →
  (∀ k, option_Forall2 R (omap_find k m1) (omap_find k m2)) →
  Forall2 (λ p q, p.1 = q.1 ∧ R p.2 q.2) m1 m2.
Proof.
  intros H1. revert m2. induction H1 as [|[k1 v1] m1 Hm1 IH Hall1]; intros m2 H2 H.
  - destruct m2 as [|[k2 v2] m2]; [done|]. specialize (H k2). simpl in H.
    rewrite string_compare_refl in H. inversion H.
  - destruct H2 as [|[k2 v2] m2 Hm2 Hall2].
    { specialize (H k1). simpl in H. rewrite string_compare_refl in H. inversion H. }
    assert (k1 = k2) as <-.
    { apply string_compare_eq. pose proof (H k1) as Ha. pose proof (H k2) as Hb. simpl in Ha, Hb.
      rewrite string_compare_refl in Ha, Hb. rewrite string_compare_antisym in Hb.
      destruct (string_compare k1 k2) eqn:E; [done|exfalso..]; simpl in Hb.
      - rewrite (omap_find_lt k1 m2) in Ha; [inversion Ha|]. eapply Forall_impl; [apply Hall2|].
        intros p Hp. by eapply string_compare_trans.
      - rewrite (omap_find_lt k2 m1) in Hb; [inversion Hb|]. eapply Forall_impl; [apply Hall1|].
        intros p Hp. apply (string_compare_trans _ k1); [|done].
        by rewrite (string_compare_antisym k1 k2), E. }
    constructor.
    + split; [done|]. specialize (H k1). simpl in H. rewrite string_compare_refl in H. by inversion H.
    + apply IH; [done|]. intros k. specialize (H k). simpl in H.
      destruct (string_compare k k1) eqn:E; [|done..]. apply string_compare_eq in E as ->.
      rewrite !omap_find_lt by done. constructor.
Qed.
End omap_facts.

(** ** Laws of locations *)

Lemma child_put s v j c : child s j = Some c → child s (put_child s v j) = Some v.
Proof.
  destruct s as [k|i], j; simpl; try done.
  - intros _. apply omap_assign_find.
  - case_if; [|done]. intros H%lookup_lt_Some. by rewrite list_lookup_insert_eq.
Qed.

Lemma put_child_twice s v w j : put_child s w (put_child s v j) = put_child s w j.
Proof.
  destruct s as [k|i], j; simpl; try done.
  - by rewrite omap_assign_twice.
  - by rewrite list_insert_insert_eq.
Qed.

Lemma locate_put p v j c : locate p j = Some c → locate p (put p v j) = Some v.
Proof.
  revert j. induction p as [|s p IH]; intros j; simpl; [done|].
  destruct (child s j) as [d|] eqn:E; simpl; [|done]. intros H.
  erewrite child_put by done. simpl. eauto.
Qed.

Lemma put_twice p v w j c : locate p j = Some c → put p w (put p v j) = put p w j.
Proof.
  revert j. induction p as [|s p IH]; intros j; simpl; [done|].
  destruct (child s j) as [d|] eqn:E; simpl; [|done]. intros H.
  erewrite child_put by done. rewrite put_child_twice. by erewrite IH.
Qed.

Lemma locate_snoc p s j : locate (p ++ [s]) j = locate p j ≫= child s.
Proof.
  revert j. induction p as [|s' p IH]; intros j; simpl; [by destruct (child s j)|].
  destruct (child s' j); simpl; [apply IH|done].
Qed.

Lemma put_snoc p s v j c d : locate p j = Some c → child s c = Some d →
  put (p ++ [s]) v j = put p (put_child s v c) j.
Proof.
  revert j. induction p as [|s' p IH]; intros j; simpl.
  - intros [= ->] ->. done.
  - destruct (child s' j) as [e|] eqn:E; simpl; [|done]. intros. by erewrite IH.
Qed.

(** ** Array indices *)

Lemma to_string_nat i : to_string (Z.of_nat i) = digits (Z.of_nat i).
Proof. unfold to_string. by ztests. Qed.

Lemma digits_nat i : is_int (digits (Z.of_nat i)) ∧ F64.digits_value 0 (digits (Z.of_nat i)) = Z.of_nat i.
Proof. apply digits_spec. lia. Qed.

Lemma index_plain i : Forall (λ c, 48 ≤ c ≤ 57) (to_string (Z.of_nat i)).
Proof.
  rewrite to_string_nat. destruct (digits_nat i) as [[[H _] _] _].
  eapply Forall_impl; [apply H|]. intros c. by rewrite is_digit_range.
Qed.

Lemma escape_index i : escape (to_string (Z.of_nat i)) = to_string (Z.of_nat i).
Proof. apply escape_plain. eapply Forall_impl; [apply index_plain|]. simpl. lia. Qed.

Lemma stoi_index i : Z.of_nat i < 2 ^ 31 → stoi (to_string (Z.of_nat i)) = Ok (Z.of_nat i).
Proof.
  intros Hi. pose proof (index_plain i) as Hp. rewrite to_string_nat in *.
  destruct (digits_nat i) as [[[H Hne] _] Hv]. unfold stoi.
  destruct (digits (Z.of_nat i)) as [|c ds] eqn:E; [done|]. apply Forall_cons in Hp as [Hc _].
  cbn [skip_c_spaces]. ztests. rewrite span_digits_all by done. rewrite Hv. by ztests.
Qed.

Lemma array_index_nat i : Z.of_nat i < 2 ^ 31 → array_index (to_string (Z.of_nat i)) = Ok (Z.of_nat i).
Proof.
  intros Hi. unfold array_index. rewrite stoi_index by done. f_equal. apply uwrap_small.
  unfold in_u. lia.
Qed.

Lemma index_not_dash i : to_string (Z.of_nat i) ≠ dash.
Proof. intros E. pose proof (index_plain i) as H. rewrite E in H. inversion H. lia. Qed.

Lemma index_no_leading_zero i : leading_zero (to_string (Z.of_nat i)) = false.
Proof.
  rewrite to_string_nat. destruct (digits_nat i) as [[_ Hi] _]. unfold leading_zero.
  destruct Hi as [->|(c & ds & -> & Hc)]; [done|]. unfold is_digit1_9 in Hc. zbool.
  apply andb_false_iff. right. by ztests.
Qed.

(** ** Following a pointer *)

Lemma get_checked_locate {A} p (use : ref_use A) j c : locate p j = Some c →
  get_checked (tokens p) use j = '(x, v) ← use c; mret (x, put p v j).
Proof.
  revert j. induction p as [|s p IH]; intros j; csimpl.
  - intros [= ->]. by destruct (use c) as [[]| |].
  - destruct (child s j) as [d|] eqn:E; simpl; [|done]. intros H.
    destruct s as [k|i], j as [|o|a| | | | | |]; simpl in E; try done; cbn [step_token].
    + unfold at_key. rewrite E, (IH d) by done. by destruct (use c) as [[]| |].
    + destruct (Z.ltb_spec (Z.of_nat i) (2 ^ 31)) as [Hi|]; [|done].
      rewrite bool_decide_false by apply index_not_dash.
      rewrite index_no_leading_zero, array_index_nat by done. cbn [mbind res_bind].
      unfold at_idx. apply lookup_lt_Some in E as Hl. ztests. rewrite Nat2Z.id, E, (IH d) by done.
      by destruct (use c) as [[]| |].
Qed.

Lemma get_unchecked_locate {A} p (use : ref_use A) j c : locate p j = Some c →
  get_unchecked (tokens p) use j = '(x, v) ← use c; mret (x, put p v j).
Proof.
  revert j. induction p as [|s p IH]; intros j; csimpl.
  - intros [= ->]. by destruct (use c) as [[]| |].
  - destruct (child s j) as [d|] eqn:E; simpl; [|done]. intros H.
    destruct s as [k|i], j as [|o|a| | | | | |]; simpl in E; try done; cbn [step_token].
    + unfold index_key. rewrite E. cbn [default]. simpl. rewrite (IH d) by done.
      by destruct (use c) as [[]| |].
    + destruct (Z.ltb_spec (Z.of_nat i) (2 ^ 31)) as [Hi|]; [|done].
      rewrite bool_decide_false by apply index_not_dash.
      rewrite index_no_leading_zero, array_index_nat by done. cbn [mbind res_bind].
      unfold index. apply lookup_lt_Some in E as Hl. unfold vector_max_size.
      ztests. change (Z.to_nat 0) with 0%nat. cbn [replicate]. rewrite app_nil_r.
      rewrite Nat2Z.id, E, (IH d) by done.
      by destruct (use c) as [[]| |].
Qed.

(** ** The operations of a [diff] *)

Section operations.
Variable loc : lconv.

Lemma patch_all_app ops1 ops2 j :
  patch_all loc (ops1 ++ ops2) j = r ← patch_all loc ops1 j; patch_all loc ops2 r.
Proof.
  revert j. induction ops1 as [|op ops1 IH]; intros j; simpl; [done|].
  destruct (patch_one loc op j); simpl; [apply IH|done..].
Qed.

Lemma patch_one_replace ptr v j :
  patch_one loc (replace_object (pointer_string ptr) v) j =
    '(_, r) ← get_checked ptr (assign v) j; mret r.
Proof.
  transitivity (ptr' ← split (pointer_string ptr); '(_, r) ← get_checked ptr' (assign v) j; mret r); [done|].
  by rewrite split_pointer_string.
Qed.

Lemma patch_one_remove ptr j :
  patch_one loc (remove_object (pointer_string ptr)) j = operation_remove ptr j.
Proof.
  transitivity (ptr' ← split (pointer_string ptr); operation_remove ptr' j); [done|].
  by rewrite split_pointer_string.
Qed.

Lemma patch_one_add ptr v j :
  patch_one loc (add_object (pointer_string ptr) v) j = operation_add ptr v j.
Proof.
  transitivity (ptr' ← split (pointer_string ptr); operation_add ptr' v j); [done|].
  by rewrite split_pointer_string.
Qed.

Lemma pop_back_snoc ptr t : pop_back (ptr ++ [t]) = Ok (t, ptr).
Proof. unfold pop_back. by rewrite last_snoc, removelast_last. Qed.

(** "remove" and "add" change the parent of the location. *)
Lemma operation_remove_locate p t j c c' : locate p j = Some c →
  remove_from_parent t c = Ok ((), c') →
  operation_remove (tokens p ++ [t]) j = Ok (put p c' j).
Proof.
  intros Hl Hr. unfold operation_remove. rewrite pop_back_snoc. cbn [mbind res_bind].
  erewrite get_checked_locate by done. by rewrite Hr.
Qed.

Lemma operation_add_locate p t v j c c' : locate p j = Some c →
  add_to_parent t v c = Ok ((), c') →
  operation_add (tokens p ++ [t]) v j = Ok (put p c' j).
Proof.
  intros Hl Hr. unfold operation_add.
  assert (∃ x ptr, tokens p ++ [t] = x :: ptr ∧
          ∃ v, (if bool_decide ([x] = tokens p ++ [t]) then mret JNull
                else at_pointer [x] j : result json) = Ok v) as (x & ptr & E & v0 & Ht).
  { destruct p as [|s p]; csimpl.
    - eexists _, _. split; [done|]. rewrite bool_decide_true by done. eexists. done.
    - eexists _, _. split; [done|]. simpl in Hl. destruct (child s j) as [d|] eqn:E; [|done].
      case_bool_decide; [by eexists|]. unfold at_pointer.
      change [step_token s] with (tokens [s]).
      rewrite (get_checked_locate [s] read j d) by (simpl; by rewrite E). by eexists. }
  rewrite E in *. cbn [top mbind res_bind]. rewrite Ht. cbn [mbind res_bind].
  rewrite <-E, pop_back_snoc. cbn [mbind res_bind].
  erewrite get_unchecked_locate by done. by rewrite Hr.
Qed.

Lemma add_to_array_end v a : Z.of_nat (length a) < 2 ^ 31 →
  add_to_parent (to_string (Z.of_nat (length a))) v (JArray a) = Ok ((), JArray (a ++ [v])).
Proof.
  intros H. unfold add_to_parent. rewrite bool_decide_false by apply index_not_dash.
  rewrite stoi_index by done. cbn [mbind res_bind json_size].
  rewrite uwrap_small by (unfold in_u; lia). ztests. cbn [insert_at]. ztests.
  rewrite Nat2Z.id, firstn_all, skipn_all. done.
Qed.

Lemma remove_array_last x a : Z.of_nat (length a) < 2 ^ 31 →
  remove_from_parent (to_string (Z.of_nat (length a))) (JArray (a ++ [x])) = Ok ((), JArray a).
Proof.
  intros H. unfold remove_from_parent. rewrite stoi_index by done. cbn [mbind res_bind erase_idx].
  rewrite uwrap_small by (unfold in_u; lia). rewrite length_app. cbn [length]. ztests.
  rewrite Nat2Z.id, delete_middle, app_nil_r. done.
Qed.
End operations.

(** ** [operator==] of containers *)

Lemma json_eq_array a b : json_eq (JArray a) (JArray b) = true ↔
  Forall2 (λ x y, json_eq x y = true) a b.
Proof.
  revert b. induction a as [|x a IH]; intros [|y b]; simpl in *.
  - by split.
  - split; [done|by intros ?%Forall2_nil_cons_inv].
  - split; [done|by intros ?%Forall2_cons_nil_inv].
  - rewrite andb_true_iff, IH, Forall2_cons. done.
Qed.

Lemma json_eq_object a b : json_eq (JObject a) (JObject b) = true ↔
  Forall2 (λ p q, p.1 = q.1 ∧ json_eq p.2 q.2 = true) a b.
Proof.
  revert b. induction a as [|x a IH]; intros [|y b]; simpl in *.
  - by split.
  - split; [done|by intros ?%Forall2_nil_cons_inv].
  - split; [done|by intros ?%Forall2_cons_nil_inv].
  - rewrite !andb_true_iff, bool_decide_eq_true, IH, Forall2_cons. done.
Qed.

(** ** What [diff] needs of its arguments *)

(** The index of every array element is an [int]. *)
Fixpoint int_indexed (j : json) : Prop :=
  match j with
  | JObject o => (fix go o := match o with [] => True | kv :: o => int_indexed kv.2 ∧ go o end) o
  | JArray a =>
      Z.of_nat (length a) ≤ 2 ^ 31 ∧
      (fix go a := match a with [] => True | v :: a => int_indexed v ∧ go a end) a
  | _ => True
  end.

Lemma int_indexed_array a : int_indexed (JArray a) ↔
  Z.of_nat (length a) ≤ 2 ^ 31 ∧ Forall int_indexed a.
Proof.
  simpl. apply and_iff_compat_l. induction a; simpl; [by split; constructor|].
  rewrite Forall_cons. naive_solver.
Qed.

Lemma int_indexed_object o : int_indexed (JObject o) ↔ Forall (λ kv, int_indexed kv.2) o.
Proof. simpl. induction o; simpl; [by split; constructor|]. rewrite Forall_cons. naive_solver. Qed.

(** A target: a value that equals itself (it has no NaN and nothing
    discarded). *)
Definition target_ok (j : json) : Prop := json_typed j ∧ int_indexed j ∧ json_eq j j = true.

Lemma Forall2_diag {A} (R : A → A → Prop) l : Forall2 R l l ↔ Forall (λ x, R x x) l.
Proof.
  induction l as [|x l IH]; [by split; constructor|]. by rewrite Forall2_cons, Forall_cons, IH.
Qed.

Lemma target_ok_array b : target_ok (JArray b) → Forall target_ok b.
Proof.
  intros (H1%json_typed_array & [_ H2]%int_indexed_array & H3).
  apply json_eq_array, Forall2_diag in H3. rewrite !Forall_forall in *. by repeat split; auto.
Qed.

Lemma target_ok_member b k y : target_ok (JObject b) → omap_find k b = Some y → target_ok y.
Proof.
  intros (H1%json_typed_object & H2%int_indexed_object & H3) Hy%omap_find_Some.
  destruct H1 as (_ & _ & H1). apply json_eq_object, Forall2_diag in H3.
  rewrite !Forall_forall in *. repeat split; [apply (H1 _ Hy)|apply (H2 _ Hy)|apply (H3 _ Hy)].
Qed.

(** ** The loops of [diff] by name *)

Section loops.
Variable path : list Z.

Fixpoint diff_common (i : Z) (a b : list json) : list json :=
  match a, b with
  | x :: a, y :: b =>
      diff_operations x y (path ++ lit "/" ++ to_string i) ++ diff_common (i + 1) a b
  | a, b => []
  end.

Variable b : list (list Z * json).

Fixpoint diff_first (a : list (list Z * json)) : list json :=
  match a with
  | [] => []
  | kv :: a =>
      match omap_find kv.1 b with
      | Some y => diff_operations kv.2 y (path ++ lit "/" ++ escape kv.1)
      | None => [remove_object (path ++ lit "/" ++ escape kv.1)]
      end ++ diff_first a
  end.
End loops.

Lemma diff_operations_eq source target path : diff_operations source target path =
  if json_eq source target then [] else
  match source, target with
  | JArray a, JArray b =>
      let n := Z.min (Z.of_nat (length a)) (Z.of_nat (length b)) in
      diff_common path 0 a b ++ remove_rest path n (drop (length b) a) ++
      add_rest path n (drop (length a) b)
  | JObject a, JObject b => diff_first path b a ++ add_members path a b
  | source, target => [replace_object path target]
  end.
Proof. destruct source, target; reflexivity. Qed.

(** ** Patches below a location *)

(** [c] is at [p] in [j], and putting it there changes nothing. *)
Definition settled (p : list pstep) (c j : json) : Prop := locate p j = Some c ∧ put p c j = j.

Lemma settled_put p c v j : settled p c j → settled p v (put p v j).
Proof. intros [H _]. split; [by eapply locate_put|by eapply put_twice]. Qed.

Lemma put_settled p c v w j : settled p c j → put p w (put p v j) = put p w j.
Proof. intros [H _]. by eapply put_twice. Qed.

Lemma settled_index p a i x j : settled p (JArray a) j → a !! i = Some x → Z.of_nat i < 2 ^ 31 →
  settled (p ++ [SIdx i]) x j.
Proof.
  intros [H1 H2] Hx Hi.
  assert (child (SIdx i) (JArray a) = Some x) as Hc by (simpl; by ztests).
  split; [by rewrite locate_snoc, H1|].
  erewrite put_snoc by done. simpl. by rewrite list_insert_id.
Qed.

Lemma settled_key p o k x j : settled p (JObject o) j → omap_sorted o → omap_find k o = Some x →
  settled (p ++ [SKey k]) x j.
Proof.
  intros [H1 H2] Hs Hx. split; [by rewrite locate_snoc, H1|].
  erewrite put_snoc by done. simpl. by rewrite omap_assign_same.
Qed.

Lemma tokens_snoc p s : tokens (p ++ [s]) = tokens p ++ [step_token s].
Proof. by rewrite fmap_app. Qed.

Lemma path_index p i : pointer_string (tokens p) ++ lit "/" ++ to_string (Z.of_nat i) =
  pointer_string (tokens (p ++ [SIdx i])).
Proof. rewrite fmap_app. csimpl. by rewrite pointer_string_snoc, escape_index. Qed.

Lemma path_key p k : pointer_string (tokens p) ++ lit "/" ++ escape k =
  pointer_string (tokens (p ++ [SKey k])).
Proof. rewrite fmap_app. csimpl. by rewrite pointer_string_snoc. Qed.

Section diff_correct.
Variable loc : lconv.

(** The patch made for [x] at [p] leaves there something equal to its target,
    and changes nothing else. *)
Definition diff_works (x : json) : Prop := ∀ y p j,
  settled p x j → json_typed x → int_indexed x → target_ok y →
  ∃ r, patch_all loc (diff_operations x y (pointer_string (tokens p))) j = Ok (put p r j) ∧
       json_eq r y = true.

Lemma replace_works p x y j : settled p x j →
  patch_all loc [replace_object (pointer_string (tokens p)) y] j = Ok (put p y j).
Proof.
  intros [H _]. cbn [patch_all]. rewrite patch_one_replace. by erewrite get_checked_locate.
Qed.

Lemma remove_rest_works p rest pre j : settled p (JArray (pre ++ rest)) j →
  Z.of_nat (length (pre ++ rest)) ≤ 2 ^ 31 →
  patch_all loc (remove_rest (pointer_string (tokens p)) (Z.of_nat (length pre)) rest) j =
    Ok (put p (JArray pre) j).
Proof.
  revert pre. induction rest as [|x rest IH]; intros pre Hs Hl; cbn [remove_rest].
  - rewrite app_nil_r in Hs. by destruct Hs as [_ ->].
  - rewrite app_cons_snoc in Hs, Hl. rewrite patch_all_app.
    replace (Z.of_nat (length pre) + 1) with (Z.of_nat (length (pre ++ [x])))
      by (rewrite length_app; simpl; lia).
    rewrite IH by done. cbn [mbind res_bind patch_all]. rewrite path_index, tokens_snoc, patch_one_remove.
    rewrite !length_app in Hl. simpl in Hl.
    erewrite operation_remove_locate; [|by eapply settled_put|by apply remove_array_last; lia].
    cbn [mbind res_bind]. by erewrite put_settled.
Qed.

Lemma add_rest_works p rest pre j : settled p (JArray pre) j →
  Z.of_nat (length (pre ++ rest)) ≤ 2 ^ 31 →
  patch_all loc (add_rest (pointer_string (tokens p)) (Z.of_nat (length pre)) rest) j =
    Ok (put p (JArray (pre ++ rest)) j).
Proof.
  revert pre j. induction rest as [|x rest IH]; intros pre j Hs Hl; cbn [add_rest patch_all].
  - rewrite app_nil_r. by destruct Hs as [_ ->].
  - rewrite path_index, tokens_snoc, patch_one_add. rewrite (app_cons_snoc pre) in Hl. rewrite (app_cons_snoc pre).
    pose proof Hl as Hl'. rewrite !length_app in Hl'. simpl in Hl'.
    erewrite operation_add_locate; [|apply Hs|by apply add_to_array_end; lia].
    cbn [mbind res_bind].
    replace (Z.of_nat (length pre) + 1) with (Z.of_nat (length (pre ++ [x])))
      by (rewrite length_app; simpl; lia).
    rewrite IH; [|by eapply settled_put|done]. by erewrite put_settled.
Qed.

Lemma common_works p a : Forall diff_works a → Forall json_typed a → Forall int_indexed a →
  ∀ b pre j, Forall target_ok b → settled p (JArray (pre ++ a)) j →
  Z.of_nat (length (pre ++ a)) ≤ 2 ^ 31 →
  ∃ rs,
    patch_all loc (diff_common (pointer_string (tokens p)) (Z.of_nat (length pre)) a b) j =
      Ok (put p (JArray (pre ++ rs ++ drop (length b) a)) j) ∧
    Forall2 (λ x y, json_eq x y = true) rs (take (length a) b).
Proof.
  induction 1 as [|x a Hx _ IH]; intros Ht Hi b pre j Hb Hs Hl.
  - exists []. destruct Hs as [_ Hs]. rewrite drop_nil. simpl. by rewrite Hs.
  - destruct b as [|y b].
    { exists []. destruct Hs as [_ Hs]. simpl. by rewrite Hs. }
    apply Forall_cons in Ht as [Ht1 Ht], Hi as [Hi1 Hi], Hb as [Hb1 Hb].
    cbn [diff_common]. rewrite path_index, patch_all_app.
    pose proof Hl as Hl'. rewrite length_app in Hl'. simpl in Hl'.
    assert ((pre ++ x :: a) !! length pre = Some x) as Hlk by (by apply list_lookup_middle).
    destruct (Hx y (p ++ [SIdx (length pre)]) j) as (r & -> & Hr);
      [by eapply settled_index; [..|lia]|done..|].
    cbn [mbind res_bind].
    erewrite put_snoc; [|apply Hs|simpl; ztests; done]. cbn [put_child].
    rewrite insert_app_r_alt by lia. rewrite Nat.sub_diag. cbn [list_insert insert].
    replace (Z.of_nat (length pre) + 1) with (Z.of_nat (length (pre ++ [r])))
      by (rewrite length_app; simpl; lia).
    destruct (IH Ht Hi b (pre ++ [r]) (put p (JArray (pre ++ r :: a)) j)) as (rs & -> & Hrs);
      [done|..].
    + rewrite <-app_cons_snoc. by eapply settled_put.
    + rewrite length_app in *. rewrite length_app. simpl in *. lia.
    + exists (r :: rs). erewrite put_settled by done. rewrite <-app_assoc. simpl. auto.
Qed.

(** The member [k] of the current object is what the target demands. *)
Abbreviation member_ok cur b k :=
  (option_Forall2 (λ r y, json_eq r y = true) (omap_find k cur) (omap_find k b)).

(** One round of the first pass. *)
Lemma first_step p b k x cur j : diff_works x → json_typed x → int_indexed x →
  target_ok (JObject b) → settled p (JObject cur) j → omap_sorted cur →
  omap_find k cur = Some x →
  ∃ cur',
    patch_all loc
      match omap_find k b with
      | Some y => diff_operations x y (pointer_string (tokens p) ++ lit "/" ++ escape k)
      | None => [remove_object (pointer_string (tokens p) ++ lit "/" ++ escape k)]
      end j = Ok (put p (JObject cur') j) ∧
    omap_sorted cur' ∧ member_ok cur' b k ∧
    ∀ k2, k2 ≠ k → omap_find k2 cur' = omap_find k2 cur.
Proof.
  intros Hx Ht Hi Hb Hs Hc Hk. rewrite path_key. destruct (omap_find k b) as [y|] eqn:Hy.
  - destruct (Hx y (p ++ [SKey k]) j) as (r & -> & Hr);
      [by eapply settled_key|done|done|by eapply target_ok_member|].
    erewrite put_snoc; [|apply Hs|done]. eexists. split; [done|].
    split; [by apply omap_assign_sorted|]. split.
    + rewrite omap_find_assign, bool_decide_true by done. by constructor.
    + intros k2 Hk2. by rewrite omap_find_assign, bool_decide_false by done.
  - exists (omap_erase k cur). cbn [patch_all]. rewrite tokens_snoc, patch_one_remove.
    erewrite operation_remove_locate; [|apply Hs|simpl; by rewrite Hk]. split; [done|].
    split; [by apply omap_erase_sorted|]. split.
    + rewrite omap_find_erase, bool_decide_true by done. constructor.
    + intros k2 Hk2. by rewrite omap_find_erase, bool_decide_false by done.
Qed.

Lemma first_works p b a : Forall (λ kv, diff_works kv.2) a → Forall (λ kv, json_typed kv.2) a →
  Forall (λ kv, int_indexed kv.2) a → omap_sorted a → target_ok (JObject b) →
  ∀ cur j, settled p (JObject cur) j → omap_sorted cur →
  (∀ k x, (k, x) ∈ a → omap_find k cur = Some x) →
  ∃ cur',
    patch_all loc (diff_first (pointer_string (tokens p)) b a) j = Ok (put p (JObject cur') j) ∧
    omap_sorted cur' ∧
    ∀ k, (k ∈ a.*1 → member_ok cur' b k) ∧ (k ∉ a.*1 → omap_find k cur' = omap_find k cur).
Proof.
  induction 1 as [|[k0 x] a Hx _ IH]; intros Ht Hi Ha Hb cur j Hs Hc Hin.
  - exists cur. destruct Hs as [_ Hs]. simpl. rewrite Hs. repeat split; try done. by intros ?%elem_of_nil.
  - apply Forall_cons in Ht as [Ht1 Ht], Hi as [Hi1 Hi].
    cbn [diff_first fst snd] in *. apply StronglySorted_inv in Ha as [Ha Hall].
    assert (∀ k2 x2, (k2, x2) ∈ a → k2 ≠ k0) as Hne.
    { intros k2 x2 Hel ->. rewrite Forall_forall in Hall. apply Hall in Hel.
      unfold key_lt in Hel. simpl in Hel. by rewrite string_compare_refl in Hel. }
    destruct (first_step p b k0 x cur j) as (c1 & H1 & Hc1 & Hk1 & Hk2); [done..| |].
    { apply Hin. by left. }
    rewrite patch_all_app, H1. cbn [mbind res_bind].
    destruct (IH Ht Hi Ha Hb c1 (put p (JObject c1) j)) as (c2 & -> & Hc2 & Hk);
      [by eapply settled_put|done| |].
    { intros k2 x2 Hel. rewrite Hk2 by eauto. apply Hin. by right. }
    exists c2. split; [by erewrite put_settled|]. split; [done|]. intros k. specialize (Hk k).
    assert (k0 ∉ a.*1) as Hk0.
    { intros [[k2 x2] [-> Hel]]%list_elem_of_fmap. by apply Hne in Hel. }
    rewrite fmap_cons, elem_of_cons. cbn [fst]. split.
    + intros [->|Hel]; [rewrite (proj2 Hk) by done; done|by apply Hk].
    + intros Hel. rewrite (proj2 Hk) by tauto. apply Hk2. tauto.
Qed.

Lemma add_members_works p a rest : omap_sorted rest → ∀ cur j,
  settled p (JObject cur) j → omap_sorted cur →
  ∃ cur',
    patch_all loc (add_members (pointer_string (tokens p)) a rest) j = Ok (put p (JObject cur') j) ∧
    omap_sorted cur' ∧
    ∀ k, omap_find k cur' =
      match omap_find k a, omap_find k rest with None, Some v => Some v | _, _ => omap_find k cur end.
Proof.
  induction 1 as [|[k0 v0] rest Hrest IH Hall]; intros cur j Hs Hc; cbn [add_members].
  - exists cur. destruct Hs as [_ Hs]. simpl. rewrite Hs. repeat split; try done. intros k. by case_match.
  - assert (omap_find k0 rest = None) as Hk0 by (by apply omap_find_lt).
    rewrite path_key, tokens_snoc, patch_all_app. cbn [fst snd step_token].
    assert (∃ c1, patch_all loc (if omap_find k0 a is None
                    then [add_object (pointer_string (tokens p ++ [k0])) v0] else []) j =
                    Ok (put p (JObject c1) j) ∧ omap_sorted c1 ∧
              ∀ k, omap_find k c1 = if bool_decide (k = k0 ∧ omap_find k a = None) then Some v0
                                    else omap_find k cur) as (c1 & -> & Hc1 & H1).
    { destruct (omap_find k0 a) eqn:Ea.
      - exists cur. destruct Hs as [_ Hs]. simpl. rewrite Hs. repeat split; try done. intros k.
        rewrite bool_decide_false; [done|]. intros [-> ?]. congruence.
      - exists (omap_assign k0 v0 cur). cbn [patch_all]. rewrite patch_one_add.
        erewrite operation_add_locate; [|apply Hs|done]. split; [done|].
        split; [by apply omap_assign_sorted|]. intros k. rewrite omap_find_assign by done.
        repeat case_bool_decide; naive_solver. }
    cbn [mbind res_bind].
    destruct (IH c1 (put p (JObject c1) j)) as (c2 & -> & Hc2 & Hk); [by eapply settled_put|done|].
    exists c2. split; [by erewrite put_settled|]. split; [done|]. intros k. rewrite Hk, H1. simpl.
    destruct (string_compare k k0) eqn:E.
    + apply string_compare_eq in E as ->. rewrite Hk0.
      destruct (omap_find k0 a); [by rewrite bool_decide_false by naive_solver|].
      by rewrite bool_decide_true.
    + rewrite bool_decide_false; [done|]. intros [-> _]. by rewrite string_compare_refl in E.
    + rewrite bool_decide_false; [done|]. intros [-> _]. by rewrite string_compare_refl in E.
Qed.

Lemma diff_object_works o : Forall (λ kv, diff_works kv.2) o → diff_works (JObject o).
Proof.
  intros IH y p j Hs Ht Hi Hy. rewrite diff_operations_eq.
  destruct (json_eq (JObject o) y) eqn:E.
  { exists (JObject o). destruct Hs as [_ ->]. done. }
  destruct y as [|b| | | | | | |]; try (eexists; split; [by eapply replace_works|apply Hy]).
  apply json_typed_object in Ht as (Hso & _ & Ht). apply int_indexed_object in Hi.
  pose proof Hy as (Hty & _ & Heq). apply json_typed_object in Hty as (Hsb & _ & _).
  destruct (first_works p b o IH Ht Hi Hso Hy o j) as (c1 & H1 & Hc1 & Hk1); [done..| |].
  { intros k x. by apply omap_find_elem. }
  rewrite patch_all_app, H1. cbn [mbind res_bind].
  destruct (add_members_works p o b Hsb c1 (put p (JObject c1) j)) as (c2 & -> & Hc2 & Hk2);
    [by eapply settled_put|done|].
  exists (JObject c2). split; [by erewrite put_settled|].
  apply json_eq_object, (omap_related (λ x y, json_eq x y = true)); [done..|]. intros k. rewrite Hk2. destruct (Hk1 k) as [Ha Hb].
  rewrite <-omap_find_fst in Ha, Hb. destruct (omap_find k o) as [x|] eqn:Ex; [by apply Ha|].
  rewrite Hb by (by intros [? ?]).
  destruct (omap_find k b) as [v|] eqn:Ev; constructor.
  by apply (target_ok_member b k v).
Qed.

Lemma diff_array_works a : Forall diff_works a → diff_works (JArray a).
Proof.
  intros IH y p j Hs Ht Hi Hy. rewrite diff_operations_eq.
  destruct (json_eq (JArray a) y) eqn:E.
  { exists (JArray a). destruct Hs as [_ ->]. done. }
  destruct y as [| |b| | | | | |]; try (eexists; split; [by eapply replace_works|apply Hy]).
  apply json_typed_array in Ht. apply int_indexed_array in Hi as [Hla Hi].
  pose proof Hy as (_ & [Hlb _]%int_indexed_array & _). apply target_ok_array in Hy as Hb.
  destruct (common_works p a IH Ht Hi b [] j Hb Hs Hla) as (rs & H1 & Hrs).
  change (Z.of_nat (length [])) with 0 in H1.
  rewrite patch_all_app, H1. cbn [mbind res_bind app]. rewrite patch_all_app.
  apply Forall2_length in Hrs as Hl. rewrite length_take in Hl.
  replace (Z.min _ _) with (Z.of_nat (length rs)) by lia.
  assert (settled p (JArray (rs ++ drop (length b) a)) (put p (JArray (rs ++ drop (length b) a)) j))
    as Hs1 by (by eapply settled_put).
  erewrite remove_rest_works; [|done|rewrite length_app, length_drop; lia]. cbn [mbind res_bind].
  erewrite add_rest_works;
    [|by eapply settled_put|rewrite length_app, length_drop; lia].
  exists (JArray (rs ++ drop (length a) b)).
  split; [by do 2 (erewrite put_settled by done)|].
  apply json_eq_array. rewrite <-(take_drop (length a) b) at 2. apply Forall2_app; [done|].
  apply Forall2_diag, Forall_drop. eapply Forall_impl; [apply Hb|]. by intros v (_ & _ & ?).
Qed.

Lemma diff_correct x : diff_works x.
Proof.
  induction x as [|o IH|a IH|s|b|z|z|f|] using json_induction;
    [|by apply diff_object_works|by apply diff_array_works|..];
    intros y p j Hs _ _ Hy; rewrite diff_operations_eq;
    (case_if; [eexists; destruct Hs as [_ Hs]; by rewrite Hs|]);
    (eexists; split; [by destruct y; eapply replace_works|apply Hy]).
Qed.
End diff_correct.

(** C2. The documented invariant of [diff]: for a source and a target whose array
    indices are [int]s, the target being equal to itself (no NaN, nothing
    discarded), the patch that [diff] makes applies to the source without an
    exception and yields a value that [operator==] takes for the target. *)
Theorem patch_diff (loc : lconv) (source target : json) :
  json_typed source → int_indexed source →
  json_typed target → int_indexed target → json_eq target target = true →
  ∃ r, patch loc source (diff source target []) = Ok r ∧ json_eq r target = true.
Proof.
  intros Hs His Ht Hit Heq.
  by apply (diff_correct loc source target [] source).
Qed.

Lemma patch_diff_witness :
  let s := JObject [(lit "a/b", JArray [JUInt 1; JNull; JUInt 3]); (lit "c", JBool true)] in
  let t := JObject [(lit "a/b", JArray [JUInt 2]); (lit "d", JArray [JString (lit "x")])] in
  ∃ r, patch c_locale s (diff s t []) = Ok r ∧ json_eq r t = true.
Proof.
  apply patch_diff; [| | | |reflexivity]; cbn [json_typed int_indexed length];
    repeat (split || constructor); try done.
Defined.



(** [unflatten] does not restore every flattened value: an object whose only
    key is "0" comes back as an array, which [operator==] tells apart from it. *)
Theorem unflatten_zero_key (v : json) :
  is_primitive v = true →
  let j := JObject [(lit "0", v)] in
  unflatten (flatten j) = Ok (JArray [v]) ∧ json_eq (JArray [v]) j = false.
Proof. by destruct v. Qed.

Lemma unflatten_zero_key_witness :
  unflatten (flatten (JObject [(lit "0", JBool true)])) = Ok (JArray [JBool true]).
Proof. by apply (unflatten_zero_key (JBool true)). Defined.

(** The pointer "/-1" on an array: the token becomes the index 2^64-1. On an
    empty array the number of elements to add wraps to 0, and [operator[]]
    accesses the array outside its bounds; on any other array the same pointer
    makes the vector throw. *)
Theorem pointer_minus_one {A} (use : ref_use A) (a : list json) :
  Z.of_nat (length a) ≤ vector_max_size →
  get_unchecked [lit "-1"] use (JArray a) =
    Throw (if a is [] then out_of_bounds else std_length_error).
Proof.
  unfold vector_max_size. intros Ha. cbn [get_unchecked].
  change (array_index (lit "-1")) with (Ok (E:=exn) (2 ^ 64 - 1)).
  change (leading_zero (lit "-1")) with false. rewrite bool_decide_false by done.
  cbn [mbind res_bind]. unfold index. destruct a as [|x a]; [done|].
  unfold vector_max_size. cbn [length] in *.
  rewrite uwrap_small by (unfold in_u; lia). by ztests.
Qed.

Lemma pointer_minus_one_witness :
  get_unchecked [lit "-1"] read (JArray []) = Throw out_of_bounds.
Proof. apply (pointer_minus_one read []). done. Defined.
