(* ===== verification/JsonTyped.v ===== *)
(** Every operation that changes a JSON value keeps its type invariant
    ([json_typed]: objects sorted without duplicates, strings of bytes, numbers
    within their 64 bits). *)

From S2P Require Import Prelude Float64 JsonValue Serializer JsonAccess JsonPointer JsonIterators JsonModifiers.
From S2P Require Import JsonPatch PatchDiff.

(** ** Partial correctness of results *)

(** If [m] returns, the result satisfies [P]. *)
Definition gives {E A} (P : A → Prop) (m : res E A) : Prop :=
  match m with Ok x => P x | _ => True end.

Lemma gives_bind {E A B} (P : A → Prop) (Q : B → Prop) (m : res E A) (f : A → res E B) :
  gives P m → (∀ x, P x → gives Q (f x)) → gives Q (m ≫= f).
Proof. destruct m; cbn; auto. Qed.

Lemma gives_any {E A} (m : res E A) : gives (λ _, True) m.
Proof. by destruct m. Qed.

Lemma gives_mono {E A} (P Q : A → Prop) (m : res E A) : gives P m → (∀ x, P x → Q x) → gives Q m.
Proof. destruct m; cbn; auto. Qed.

(** Step over a computation whose result does not matter. *)
Ltac yskip := eapply gives_bind; [apply gives_any|]; intros.

(** ** Containers *)

Definition members_typed (o : list (list Z * json)) : Prop := json_typed (JObject o).

Lemma members_typed_iff o : members_typed o ↔
  omap_sorted o ∧ Forall (λ kv, is_bytes kv.1 ∧ json_typed kv.2) o.
Proof. unfold members_typed. rewrite json_typed_object, Forall_and. done. Qed.

Lemma members_typed_nil : members_typed [].
Proof. repeat constructor. Qed.
#[local] Hint Resolve members_typed_nil : core.

Lemma emplace_typed k v o : is_bytes k → json_typed v → members_typed o →
  members_typed (omap_emplace k v o).
Proof.
  rewrite !members_typed_iff. intros Hk Hv [Hs Ho].
  split; [by apply omap_emplace_sorted|]. by apply omap_emplace_Forall.
Qed.

Lemma assign_typed k v o : is_bytes k → json_typed v → members_typed o →
  members_typed (omap_assign k v o).
Proof.
  rewrite !members_typed_iff. intros Hk Hv [Hs Ho].
  split; [by apply omap_assign_sorted|]. apply omap_assign_Forall; [|done].
  by intros k' <-%string_compare_eq.
Qed.

Lemma erase_typed k o : members_typed o → members_typed (omap_erase k o).
Proof.
  rewrite !members_typed_iff. intros [Hs Ho].
  split; [by apply omap_erase_sorted|by apply omap_erase_Forall].
Qed.

Lemma sublist_Forall {A} (P : A → Prop) l' l : l' `sublist_of` l → Forall P l → Forall P l'.
Proof. rewrite !Forall_forall. intros Hs H x Hx. by eapply H, elem_of_sublist. Qed.

Lemma sublist_typed o o' : o' `sublist_of` o → members_typed o → members_typed o'.
Proof.
  rewrite !members_typed_iff. intros Hsub [Hs Ho]. split.
  - clear Ho. unfold omap_sorted in *. induction Hsub as [|x l1 l2 H IH|x l1 l2 H IH]; [done| |].
    + apply StronglySorted_inv in Hs as [Hs Hall]. constructor; [by apply IH|].
      by eapply sublist_Forall.
    + apply StronglySorted_inv in Hs as [Hs _]. by apply IH.
  - by eapply sublist_Forall.
Qed.

Lemma sublist_array a a' : a' `sublist_of` a → json_typed (JArray a) → json_typed (JArray a').
Proof. rewrite !json_typed_array. intros. by eapply sublist_Forall. Qed.

Lemma find_typed k v o : members_typed o → omap_find k o = Some v → json_typed v.
Proof.
  rewrite members_typed_iff. intros [_ Ho]. induction Ho as [|[k' v'] o [_ Hv] _ IH]; [done|].
  cbn. destruct (string_compare k k'); [by intros [= <-]|done|done].
Qed.

Lemma lookup_typed a i v : json_typed (JArray a) → a !! i = Some v → json_typed v.
Proof. rewrite json_typed_array. intros H Hi. by eapply Forall_lookup in Hi. Qed.

Lemma fold_typed (f : list (list Z * json) → list Z * json → list (list Z * json)) l o :
  (∀ o kv, is_bytes kv.1 → json_typed kv.2 → members_typed o → members_typed (f o kv)) →
  members_typed l → members_typed o → members_typed (fold_left f l o).
Proof.
  intros Hf [_ Hl]%members_typed_iff. revert o.
  induction Hl as [|kv l [Hk Hv] _ IH]; intros o Ho; cbn; [done|]. apply IH. by apply Hf.
Qed.

Lemma replicate_typed n v : json_typed v → Forall json_typed (replicate n v).
Proof. intros H. by apply Forall_replicate. Qed.

(** ** Access by reference *)

(** What is done with the reference keeps the invariant, and results in [Q]. *)
Definition use_typed {A} (Q : A → Prop) (use : ref_use A) : Prop :=
  ∀ v, json_typed v → gives (λ xv, Q xv.1 ∧ json_typed xv.2) (use v).

Lemma read_typed : use_typed json_typed read.
Proof. by intros v Hv. Qed.

Lemma assign_ref_typed v : json_typed v → use_typed (λ _, True) (assign v).
Proof. by intros Hv w _. Qed.

Section access.
Context {A : Type} (Q : A → Prop) (use : ref_use A) (Huse : use_typed Q use).

Lemma put_array a i v : json_typed (JArray a) → json_typed v →
  gives (λ xv, Q xv.1 ∧ json_typed xv.2)
    ('(x, v) ← use v; mret (x, JArray (<[i := v]> a))).
Proof.
  intros Ha Hv. eapply gives_bind; [by apply Huse|]. intros [x w] [Hx Hw]. split; [done|].
  cbn -[json_typed] in *. rewrite json_typed_array in *. by apply Forall_insert.
Qed.

Lemma put_member k o v : is_bytes k → members_typed o → json_typed v →
  gives (λ xv, Q xv.1 ∧ json_typed xv.2)
    ('(x, v) ← use v; mret (x, JObject (omap_assign k v o))).
Proof.
  intros Hk Ho Hv. eapply gives_bind; [by apply Huse|]. intros [x w] [Hx Hw]. split; [done|].
  by apply assign_typed.
Qed.

Lemma at_idx_typed idx : use_typed Q (at_idx use idx).
Proof.
  intros j Hj. destruct j; try done. unfold at_idx. case_match; [|done].
  destruct (a !! Z.to_nat idx) as [v|] eqn:E; [|done].
  apply put_array; [done|by eapply lookup_typed].
Qed.

Lemma at_key_typed k : is_bytes k → use_typed Q (at_key use k).
Proof.
  intros Hk j Hj. destruct j; try done. unfold at_key. destruct (omap_find k o) as [v|] eqn:E; [|done].
  apply put_member; [done|done|by eapply find_typed].
Qed.

Lemma index_typed idx : use_typed Q (index use idx).
Proof.
  assert (∀ a, json_typed (JArray a) →
    gives (λ xv, Q xv.1 ∧ json_typed xv.2) (index use idx (JArray a))) as H.
  { intros a Ha. unfold index. case_match; [done|]. set (a' := a ++ _).
    assert (json_typed (JArray a')) as Ha'.
    { rewrite json_typed_array in *. apply Forall_app. split; [done|]. by apply replicate_typed. }
    destruct (a' !! Z.to_nat idx) as [v|] eqn:E; [|done].
    apply put_array; [done|by eapply lookup_typed]. }
  intros j Hj. destruct j; try done; [apply (H []); done|by apply H].
Qed.

Lemma index_key_typed k : is_bytes k → use_typed Q (index_key use k).
Proof.
  intros Hk. assert (∀ o, members_typed o →
    gives (λ xv, Q xv.1 ∧ json_typed xv.2) (index_key use k (JObject o))) as H.
  { intros o Ho. apply put_member; [done|done|]. destruct (omap_find k o) eqn:E; [|done].
    by eapply find_typed. }
  intros j Hj. destruct j; try done; [apply (H []); repeat constructor|by apply H].
Qed.
End access.

(** ** JSON pointers *)

Definition tokens_typed (ptr : json_pointer) : Prop := Forall is_bytes ptr.

Lemma replace_bytes f t k s : is_bytes t → is_bytes s → is_bytes (replace_substring_from f t k s).
Proof.
  intros Ht Hs. revert k. induction Hs as [|c s Hc Hs IH]; intros k; cbn; [constructor|].
  destruct k; [|apply IH]. case_match; [apply Forall_app; split; [done|apply IH]|].
  constructor; [done|apply IH].
Qed.

Lemma unescape_bytes s : is_bytes s → is_bytes (unescape_token s).
Proof. intros Hs. by repeat apply replace_bytes; try apply lit_bytes. Qed.

Lemma find_slash_bytes s : is_bytes s →
  is_bytes (find_slash s).1 ∧ ∀ r, (find_slash s).2 = Some r → is_bytes r.
Proof.
  induction 1 as [|c s Hc Hs [IH1 IH2]]; cbn; [by split; [constructor|]|].
  destruct (c =? 47); cbn; [split; [constructor|by intros r [= <-]]|].
  destruct (find_slash s) as [token rest]. cbn in *. split; [by constructor|done].
Qed.

Lemma split_tokens_bytes fuel s : is_bytes s → gives tokens_typed (split_tokens fuel s).
Proof.
  revert s. induction fuel as [|fuel IH]; intros s Hs; cbn; [done|].
  pose proof (find_slash_bytes s Hs) as [H1 H2]. destruct (find_slash s) as [token rest]. cbn in *.
  case_match; [done|]. destruct rest as [r|].
  - eapply gives_bind; [by apply IH, H2|]. intros ts Hts. constructor; [by apply unescape_bytes|done].
  - constructor; [by apply unescape_bytes|constructor].
Qed.

Lemma split_bytes s : is_bytes s → gives tokens_typed (split s).
Proof.
  intros Hs. destruct Hs as [|c s Hc Hs]; cbn -[split_tokens]; [constructor|].
  case_match; [done|]. by apply split_tokens_bytes.
Qed.

Lemma pop_back_typed ptr : tokens_typed ptr →
  gives (λ tp, is_bytes tp.1 ∧ tokens_typed tp.2) (pop_back ptr).
Proof.
  intros Hp. unfold pop_back. destruct (last ptr) as [t|] eqn:E; [|done].
  apply last_Some in E as [l ->]. unfold tokens_typed in *. rewrite Forall_app in Hp.
  cbn. rewrite removelast_last. destruct Hp as [? [? _]%Forall_cons]. done.
Qed.

Section follow.
Context {A : Type} (Q : A → Prop).

Lemma get_checked_typed ptr (use : ref_use A) : tokens_typed ptr → use_typed Q use →
  use_typed Q (get_checked ptr use).
Proof.
  intros Hp Hu. induction Hp as [|t ptr Ht _ IH]; [done|]. intros j Hj.
  destruct j; try done; cbn [get_checked]; [by apply at_key_typed|].
  repeat (case_match; [done|]). yskip. by apply at_idx_typed.
Qed.

Lemma get_unchecked_typed ptr (use : ref_use A) : tokens_typed ptr → use_typed Q use →
  use_typed Q (get_unchecked ptr use).
Proof.
  intros Hp Hu. induction Hp as [|t ptr Ht _ IH]; [done|].
  assert (∀ j, json_typed j → match j with JNull => False | _ => True end →
    gives (λ xv, Q xv.1 ∧ json_typed xv.2) (get_unchecked (t :: ptr) use j)) as H.
  { intros j Hj Hn. destruct j; try done; cbn [get_unchecked]; [by apply index_key_typed|].
    case_match; [done|]. case_match; [by apply index_typed|]. yskip. by apply index_typed. }
  intros j Hj. destruct j; try (by apply H). specialize (H (if forallb F64.is_digit t || bool_decide (t = dash)
    then JArray [] else JObject [])). cbn [get_unchecked] in *.
  destruct (forallb F64.is_digit t || bool_decide (t = dash)); apply H; repeat constructor.
Qed.
End follow.

Lemma at_pointer_typed ptr j : tokens_typed ptr → json_typed j →
  gives json_typed (at_pointer ptr j).
Proof.
  intros Hp Hj. eapply gives_bind; [by apply (get_checked_typed json_typed _ _ Hp read_typed)|].
  by intros [v w] [Hv _].
Qed.

(** ** Patches *)

Lemma push_back_typed v j : json_typed v → json_typed j → gives json_typed (push_back v j).
Proof.
  intros Hv Hj. destruct j; try done. cbn -[json_typed] in *.
  rewrite json_typed_array in *. by apply Forall_app; repeat constructor.
Qed.

Lemma insert_at_typed idx v j : json_typed v → json_typed j → gives json_typed (insert_at idx v j).
Proof.
  intros Hv Hj. destruct j; try done. cbn -[json_typed] in *. case_match; [|done].
  cbn -[json_typed]. rewrite json_typed_array in *.
  apply Forall_app; split; [by apply Forall_take|]. constructor; [done|by apply Forall_drop].
Qed.

Lemma erase_idx_typed idx j : json_typed j → gives json_typed (erase_idx idx j).
Proof.
  intros Hj. destruct j; try done. cbn -[json_typed] in *. case_match; [done|].
  by eapply sublist_array; [apply sublist_delete|].
Qed.

Lemma add_to_parent_typed k v : is_bytes k → json_typed v →
  use_typed (λ _, True) (add_to_parent k v).
Proof.
  intros Hk Hv j Hj. pose proof (index_key_typed _ _ (assign_ref_typed v Hv) k Hk j Hj) as Hi.
  destruct j; try done. cbn [add_to_parent]. case_match.
  - by eapply gives_bind; [apply push_back_typed|].
  - yskip. case_match; [done|]. by eapply gives_bind; [apply insert_at_typed|].
Qed.

Lemma remove_from_parent_typed k : use_typed (λ _, True) (remove_from_parent k).
Proof.
  intros j Hj. destruct j; try done; cbn [remove_from_parent].
  - case_match; [|done]. split; [done|]. by apply erase_typed.
  - yskip. by eapply gives_bind; [apply erase_idx_typed|].
Qed.

Lemma operation_add_typed ptr v j : tokens_typed ptr → json_typed v → json_typed j →
  gives json_typed (operation_add ptr v j).
Proof.
  intros Hp Hv Hj. destruct ptr as [|t ptr]; [done|]. unfold operation_add. do 2 yskip.
  eapply gives_bind; [by apply pop_back_typed|]. intros [k p] [Hk Hp'].
  eapply gives_bind; [by apply (get_unchecked_typed _ _ _ Hp' (add_to_parent_typed k v Hk Hv))|].
  by intros [u w] [_ Hw].
Qed.

Lemma operation_remove_typed ptr j : tokens_typed ptr → json_typed j →
  gives json_typed (operation_remove ptr j).
Proof.
  intros Hp Hj. eapply gives_bind; [by apply pop_back_typed|]. intros [k p] [Hk Hp'].
  eapply gives_bind; [by apply (get_checked_typed _ _ _ Hp' (remove_from_parent_typed k))|].
  by intros [u w] [_ Hw].
Qed.

Lemma get_value_typed val op member s : members_typed val → gives json_typed (get_value val op member s).
Proof.
  intros Hv. unfold get_value. destruct (omap_find member val) as [v|] eqn:E; [|done].
  case_match; [done|]. by eapply find_typed.
Qed.

Lemma get_string_value_typed val op member : members_typed val →
  gives is_bytes (get_string_value val op member).
Proof.
  intros Hv. eapply gives_bind; [by apply get_value_typed|]. intros v Hw. by destruct v.
Qed.

Lemma patch_one_typed loc val j : json_typed val → json_typed j → gives json_typed (patch_one loc val j).
Proof.
  intros Hv Hj. destruct val as [|val| | | | | | |]; try done. unfold patch_one.
  eapply gives_bind; [by apply get_string_value_typed|]. intros op _.
  eapply gives_bind; [by apply get_string_value_typed|]. intros path Hpath.
  eapply gives_bind; [by apply split_bytes|]. intros ptr Hp.
  destruct (get_op op).
  - eapply gives_bind; [by apply get_value_typed|]. intros v Hw. by apply operation_add_typed.
  - by apply operation_remove_typed.
  - eapply gives_bind; [by apply get_value_typed|]. intros v Hw.
    eapply gives_bind; [by apply (get_checked_typed _ _ _ Hp (assign_ref_typed v Hw))|]. by intros [] [_ ?].
  - eapply gives_bind; [by apply get_string_value_typed|]. intros from Hf.
    eapply gives_bind; [by apply split_bytes|]. intros fp Hfp.
    eapply gives_bind; [by apply at_pointer_typed|]. intros v Hw.
    eapply gives_bind; [by apply operation_remove_typed|]. intros r Hr. by apply operation_add_typed.
  - eapply gives_bind; [by apply get_string_value_typed|]. intros from Hf.
    eapply gives_bind; [by apply split_bytes|]. intros fp Hfp.
    eapply gives_bind; [by apply at_pointer_typed|]. intros v Hw.
    eapply gives_bind; [by apply (get_unchecked_typed _ _ _ Hp (assign_ref_typed v Hw))|]. by intros [] [_ ?].
  - unfold test_op. yskip. case_match; [done|]. by yskip.
  - done.
Qed.

Lemma patch_typed loc j p : json_typed p → json_typed j → gives json_typed (patch loc j p).
Proof.
  intros Hp Hj. destruct p as [| |vals| | | | | |]; try done. cbn [patch].
  rewrite json_typed_array in Hp. revert j Hj. induction Hp as [|v vals Hv _ IH]; intros j Hj; [done|].
  cbn [patch_all]. eapply gives_bind; [by apply patch_one_typed|]. done.
Qed.

(** ** All modifications *)

(** The calls that change the value at [this], with their arguments. *)
Inductive modification :=
  | do_assign_idx (idx : Z) (val : json)
  | do_assign_key (key : list Z) (val : json)
  | do_assign_at_idx (idx : Z) (val : json)
  | do_assign_at_key (key : list Z) (val : json)
  | do_assign_iter (it : iter) (val : json)
  | do_push_back (val : json)
  | do_push_back_member (key : list Z) (val : json)
  | do_push_back_list (init : list json)
  | do_emplace_back (val : json)
  | do_emplace (key : list Z) (val : json)
  | do_insert (pos : iter) (val : json)
  | do_insert_count (pos : iter) (cnt : Z) (val : json)
  | do_insert_range (pos first last : iter) (src : json)
  | do_insert_list (pos : iter) (ilist : list json)
  | do_insert_members (first last : iter) (src : json)
  | do_erase_idx (idx : Z)
  | do_erase_key (key : list Z)
  | do_erase (pos : iter)
  | do_erase_range (first last : iter)
  | do_update (other : json)
  | do_update_range (first last : iter) (src : json)
  | do_clear
  | do_swap (other : json)
  | do_patch (json_patch : json).

Section modify.
Context (loc : lconv) (this : Z).

Definition modify (m : modification) (j : json) : result json :=
  match m with
  | do_assign_idx idx val => snd <$> index (assign val) idx j
  | do_assign_key key val => snd <$> index_key (assign val) key j
  | do_assign_at_idx idx val => snd <$> at_idx (assign val) idx j
  | do_assign_at_key key val => snd <$> at_key (assign val) key j
  | do_assign_iter it val => snd <$> iter_deref (assign val) it j
  | do_push_back val => push_back val j
  | do_push_back_member key val => push_back_member key val j
  | do_push_back_list init => push_back_list init j
  | do_emplace_back val => emplace_back val j
  | do_emplace key val => snd <$> emplace this key val j
  | do_insert pos val => snd <$> insert_value this pos val j
  | do_insert_count pos cnt val => snd <$> insert_count this pos cnt val j
  | do_insert_range pos first last src => snd <$> insert_range this pos first last src j
  | do_insert_list pos ilist => snd <$> insert_list this pos ilist j
  | do_insert_members first last src => insert_members first last src j
  | do_erase_idx idx => erase_idx idx j
  | do_erase_key key => snd <$> erase_key key j
  | do_erase pos => snd <$> erase_iter this pos j
  | do_erase_range first last => snd <$> erase_range this first last j
  | do_update other => update j other
  | do_update_range first last src => update_range first last src j
  | do_clear => Ok (clear j)
  | do_swap other => Ok (swap other j).2
  | do_patch json_patch => patch loc j json_patch
  end.

(** A sequence of calls, up to the first exception. *)
Fixpoint modify_all (ms : list modification) (j : json) : result json :=
  match ms with
  | [] => Ok j
  | m :: ms => j ← modify m j; modify_all ms j
  end.
End modify.

(** The arguments satisfy the invariant; the iterators may be anything. *)
Definition modification_typed (m : modification) : Prop :=
  match m with
  | do_assign_idx _ v | do_assign_at_idx _ v | do_assign_iter _ v | do_push_back v
  | do_emplace_back v | do_insert _ v | do_insert_count _ _ v | do_insert_range _ _ _ v
  | do_insert_members _ _ v | do_update v | do_update_range _ _ v | do_swap v | do_patch v =>
      json_typed v
  | do_assign_key k v | do_assign_at_key k v | do_push_back_member k v | do_emplace k v =>
      is_bytes k ∧ json_typed v
  | do_push_back_list l | do_insert_list _ l => Forall json_typed l
  | do_erase_idx _ | do_erase_key _ | do_erase _ | do_erase_range _ _ | do_clear => True
  end.

Lemma gives_snd {A} (Q : A → Prop) (m : result (A * json)) :
  gives (λ xv, Q xv.1 ∧ json_typed xv.2) m → gives json_typed (snd <$> m).
Proof. destruct m; cbn; tauto. Qed.

(** The order of the members only depends on their keys. *)
Lemma keys_sorted {V} (o o' : list (list Z * V)) : o.*1 = o'.*1 → omap_sorted o → omap_sorted o'.
Proof.
  unfold omap_sorted. intros E Hs. revert o' E.
  induction Hs as [|kv o Hs IH Hall]; intros [|kv' o'] E; try done; [constructor|].
  apply (f_equal tail) in E as E2. apply (f_equal head) in E as E1. cbn in E1, E2. simplify_eq.
  constructor; [by apply IH|].
  assert (Forall (λ k, string_compare kv.1 k = Lt) (fst <$> o')) as Hk.
  { rewrite <-E2. by apply Forall_fmap. }
  apply Forall_fmap in Hk. eapply Forall_impl; [apply Hk|]. intros q Hq. unfold key_lt. congruence.
Qed.

Lemma iter_deref_typed {A} (Q : A → Prop) use it : use_typed Q use → use_typed Q (iter_deref use it).
Proof.
  intros Hu j Hj. unfold iter_deref, initialized. case_match; [done|].
  destruct j as [|o|a|s|b|z|z|f|]; try done; try (case_match; [by apply Hu|done]).
  - unfold element. destruct (object_iterator (m_it it)) as [p|]; [|done]. case_match; [done|].
    destruct (o !! Z.to_nat p) as [[k v]|] eqn:E; [|done]. case_match; [|done]. cbn [mbind res_bind].
    eapply gives_bind; [apply Hu|].
    + apply json_typed_object in Hj as (_ & _ & Hj). by eapply (Forall_lookup_1 _ _ _ _ Hj) in E.
    + intros [x w] [Hx Hw]. split; [done|]. apply members_typed_iff in Hj as [Hs Ho].
      cbn -[json_typed] in *. apply members_typed_iff.
      pose proof (Forall_lookup_1 _ _ _ _ Ho E) as [Hk _]. split; [|by apply Forall_insert].
      assert (o.*1 = (<[Z.to_nat p:=(k, w)]> o).*1) as Hkeys.
      { rewrite list_fmap_insert. cbn. rewrite list_insert_id; [done|]. by rewrite list_lookup_fmap, E. }
      by eapply keys_sorted.
  - unfold element. destruct (array_iterator (m_it it)) as [p|]; [|done]. case_match; [done|].
    destruct (a !! Z.to_nat p) as [v|] eqn:E; [|done]. case_match; [|done]. cbn [mbind res_bind].
    eapply put_array; [done|done|]. by eapply lookup_typed.
Qed.

Lemma range_sublist {A} (l : list A) p q : gives (λ r, r `sublist_of` l) (range l p q).
Proof.
  destruct p as [p|], q as [q|]; try done. cbn. case_match; [|done]. cbn.
  etrans; [apply sublist_take|apply sublist_drop].
Qed.

Lemma erase_between_sublist {A} (l : list A) p q :
  gives (λ pr, pr.2 `sublist_of` l) (erase_between l p q).
Proof.
  destruct p as [p|], q as [q|]; try done. unfold erase_between. cbn.
  destruct ((0 <=? p) && (p <=? q) && (q <=? Z.of_nat (length l))) eqn:E; [|done]. cbn. zbool.
  rewrite <-(take_drop (Z.to_nat p) l) at 3. apply sublist_app; [done|].
  replace (Z.to_nat q) with (Z.to_nat p + (Z.to_nat q - Z.to_nat p))%nat by lia.
  rewrite <-drop_drop. apply sublist_drop.
Qed.

Lemma insert_array_typed this pos j vals :
  (∀ a, gives (Forall json_typed) (vals a)) → json_typed j →
  gives (λ xv, True ∧ json_typed xv.2) (insert_array this pos j vals).
Proof.
  intros Hv Hj. destruct j; try done. unfold insert_array. case_match; [done|].
  eapply gives_bind; [apply Hv|]. intros vs Hvs. unfold insert_elements.
  destruct (array_iterator (m_it pos)) as [p|]; [|done]. do 2 (case_match; [done|]).
  split; [done|]. cbn [snd mret res_ret]. rewrite json_typed_array in *.
  repeat (apply Forall_app; split); auto using Forall_take, Forall_drop.
Qed.

Lemma init_json_typed init d t : Forall json_typed init → gives json_typed (init_json init d t).
Proof.
  intros Hi. unfold init_json. generalize (if negb d && bool_decide (t = t_array) then false else forallb is_member init) as b. intros b.
  case_match; [done|]. destruct b; [|by apply json_typed_array].
  assert (members_typed []) as Hn by repeat constructor. revert Hn. generalize (@nil (list Z * json)).
  clear -Hi. induction Hi as [|e init He _ IH]; intros o Ho; cbn; [done|]. apply IH.
  destruct e as [| |[|[] [|? []]]| | | | | |]; try done. cbn -[json_typed] in *.
  apply json_typed_array in He as [? [? _]%Forall_cons]%Forall_cons. by apply emplace_typed.
Qed.

Lemma push_back_list_typed init j : Forall json_typed init → json_typed j →
  gives json_typed (push_back_list init j).
Proof.
  intros Hi Hj. assert (gives json_typed (v ← init_json init true t_array; push_back v j)) as H.
  { eapply gives_bind; [by apply init_json_typed|]. intros v Hv. by apply push_back_typed. }
  destruct j as [|o| | | | | | |]; try done. destruct init as [|[] [|v []]]; try done.
  apply Forall_cons in Hi as [? [? _]%Forall_cons]. by apply emplace_typed.
Qed.

Lemma modify_typed loc this m j : modification_typed m → json_typed j →
  gives json_typed (modify loc this m j).
Proof.
  intros Hm Hj. destruct m; cbn [modify modification_typed] in *;
    try (apply gives_snd with (Q := λ _, True)).
  - by apply (index_typed (λ _, True)); [apply assign_ref_typed|..].
  - destruct Hm. by apply (index_key_typed (λ _, True)); [apply assign_ref_typed|..].
  - by apply (at_idx_typed (λ _, True)); [apply assign_ref_typed|..].
  - destruct Hm. by apply (at_key_typed (λ _, True)); [apply assign_ref_typed|..].
  - by apply (iter_deref_typed (λ _, True)); [apply assign_ref_typed|..].
  - by apply push_back_typed.
  - destruct Hm, j; try done; [by apply (emplace_typed key val [])|by apply emplace_typed].
  - by apply push_back_list_typed.
  - pose proof (push_back_typed val j Hm Hj). by destruct j.
  - destruct Hm, j; try done; (split; [done|]);
      [by apply (emplace_typed key val [])|by apply emplace_typed].
  - apply insert_array_typed; [|done]. intros a. by repeat constructor.
  - apply insert_array_typed; [|done]. intros a. case_match; [done|]. by apply replicate_typed.
  - apply insert_array_typed; [|done]. intros a. do 2 (case_match; [done|]). destruct src; try done.
    eapply gives_mono; [apply range_sublist|]. intros r Hr. apply json_typed_array in Hm.
    by eapply sublist_Forall; [apply Hr|].
  - apply insert_array_typed; [|done]. by intros a.
  - destruct j; try done. unfold insert_members. case_match; [done|]. destruct src; try done.
    eapply gives_bind; [apply range_sublist|]. intros r Hr.
    apply fold_typed; [intros; by apply emplace_typed|by eapply sublist_typed; [apply Hr|]|done].
  - by apply erase_idx_typed.
  - destruct j; try done. split; [done|]. by apply erase_typed.
  - unfold erase_iter. case_match; [done|]. destruct j; try done; try (by case_match);
      (eapply gives_bind; [apply erase_between_sublist|]; intros [p r] Hr; split; [done|]);
      [by eapply sublist_typed; [apply Hr|]|by eapply sublist_array; [apply Hr|]].
  - unfold erase_range. case_match; [done|]. destruct j; try done; try (by case_match);
      (eapply gives_bind; [apply erase_between_sublist|]; intros [p r] Hr; split; [done|]);
      [by eapply sublist_typed; [apply Hr|]|by eapply sublist_array; [apply Hr|]].
  - destruct j; try done; (destruct other; try done);
      (apply fold_typed; [intros; by apply assign_typed|done|first [done|repeat constructor]]).
  - unfold update_range. destruct j; try done; (case_match; [done|]; destruct src; try done;
      eapply gives_bind; [apply range_sublist|]; intros r Hr;
      apply fold_typed; [intros; by apply assign_typed|by eapply sublist_typed; [apply Hr|]|first [done|repeat constructor]]).
  - destruct j; try done; repeat constructor.
  - done.
  - by apply patch_typed.
Qed.


(** An object is built, one member erased, one replaced by an array, and a patch
    applied. *)
Definition modification_example : list modification :=
  [do_push_back_member (lit "b") (JInt 1);
   do_emplace (lit "a") (JBool true);
   do_erase_key (lit "b");
   do_assign_key (lit "c") (JArray [JNull]);
   do_patch (JArray [JObject [(lit "op", JString (lit "remove")); (lit "path", JString (lit "/a"))]])].

