(* ===== verification/Flatten.v ===== *)
(** [unflatten] restores what [flatten] took apart.

    The members of a flattened value are its leaves, and [unflatten] visits them
    in the order of the pointer texts.  A partial value holds the leaves visited
    so far; the order makes the first element of an array the first one of its
    elements that is visited, which is what makes [get_and_create] choose an
    array. *)

From S2P Require Import Prelude Float64 JsonValue Lexer Numeral.
From S2P Require Import JsonAccess JsonPointer PointerText PatchDiff.

(** The text of a location. *)
Definition location_text (p : list pstep) : list Z := pointer_string (tokens p).

(** A primitive value [w] at the location [p]. *)
Definition leaf (p : list pstep) (j w : json) : Prop := locate p j = Some w ∧ is_primitive w = true.

(** The values [unflatten] restores: nothing empty or discarded, no member with
    the key "0", and indices that are [int]s. *)
Fixpoint flattenable (j : json) : Prop :=
  match j with
  | JObject o =>
      o ≠ [] ∧ Forall (λ kv, kv.1 ≠ lit "0") o ∧
      (fix go o := match o with [] => True | kv :: o => flattenable kv.2 ∧ go o end) o
  | JArray a =>
      a ≠ [] ∧ Z.of_nat (length a) ≤ 2 ^ 31 ∧
      (fix go a := match a with [] => True | v :: a => flattenable v ∧ go a end) a
  | JDiscarded => False
  | _ => True
  end.

Lemma flattenable_object o : flattenable (JObject o) ↔
  o ≠ [] ∧ Forall (λ kv, kv.1 ≠ lit "0") o ∧ Forall (λ kv, flattenable kv.2) o.
Proof.
  simpl. do 2 apply and_iff_compat_l. induction o; simpl; [by split; constructor|].
  rewrite Forall_cons. naive_solver.
Qed.

Lemma flattenable_array a : flattenable (JArray a) ↔
  a ≠ [] ∧ Z.of_nat (length a) ≤ 2 ^ 31 ∧ Forall flattenable a.
Proof.
  simpl. do 2 apply and_iff_compat_l. induction a; simpl; [by split; constructor|].
  rewrite Forall_cons. naive_solver.
Qed.

(** ** Leaves *)

Lemma leaf_cons s p j w : leaf (s :: p) j w ↔ ∃ c, child s j = Some c ∧ leaf p c w.
Proof.
  unfold leaf. simpl. destruct (child s j) as [c|]; simpl; split.
  - intros H. eauto.
  - intros (? & [= <-] & H). done.
  - by intros [? _].
  - by intros (? & ? & _).
Qed.

Lemma leaf_prim p j w : is_primitive j = true → leaf p j w → p = [] ∧ w = j.
Proof.
  intros Hj. destruct p as [|s p]; [intros [[= ->] _]; done|].
  rewrite leaf_cons. intros (c & Hc & _). by destruct s, j.
Qed.

Lemma child_array a i x : Z.of_nat (length a) ≤ 2 ^ 31 →
  a !! i = Some x → child (SIdx i) (JArray a) = Some x.
Proof. intros Ha Hx. apply lookup_lt_Some in Hx as Hi. simpl. by ztests. Qed.

Lemma child_array_inv s a c : child s (JArray a) = Some c → ∃ i, s = SIdx i ∧ Z.of_nat i < 2 ^ 31 ∧ a !! i = Some c.
Proof. destruct s; simpl; [done|]. case_if; [eauto|done]. Qed.

Lemma child_object_inv s o c : child s (JObject o) = Some c → ∃ k, s = SKey k ∧ omap_find k o = Some c.
Proof. destruct s; simpl; [eauto|done]. Qed.

Lemma flattenable_leaf j : flattenable j → ∃ p w, leaf p j w.
Proof.
  induction j as [|o IH|a IH|s|b|z|z|f|] using json_induction;
    try (intros _; by eexists [], _); try done.
  - rewrite flattenable_object. intros (Hne & _ & Hf). destruct o as [|[k v] o]; [done|].
    apply Forall_cons in IH as [IH _], Hf as [Hf _]. destruct (IH Hf) as (p & w & H).
    exists (SKey k :: p), w. apply leaf_cons. exists v. simpl. by rewrite string_compare_refl.
  - rewrite flattenable_array. intros (Hne & Hl & Hf). destruct a as [|v a]; [done|].
    apply Forall_cons in IH as [IH _], Hf as [Hf _]. destruct (IH Hf) as (p & w & H).
    exists (SIdx 0 :: p), w. apply leaf_cons. exists v. split; [|done]. by apply child_array.
Qed.

Lemma location_text_snoc p s : location_text (p ++ [s]) = location_text p ++ lit "/" ++ escape (step_token s).
Proof. unfold location_text. by rewrite tokens_snoc, pointer_string_snoc. Qed.

Lemma location_text_inj p q : location_text p = location_text q → tokens p = tokens q.
Proof.
  intros H. assert (split (location_text p) = split (location_text q)) as E by (by rewrite H).
  unfold location_text in E. rewrite !split_pointer_string in E. by simplify_eq.
Qed.

Lemma index_inj i i2 : to_string (Z.of_nat i) = to_string (Z.of_nat i2) → i = i2.
Proof.
  rewrite !to_string_nat. intros E. apply Nat2Z.inj.
  rewrite <-(proj2 (digits_nat i)), <-(proj2 (digits_nat i2)). by rewrite E.
Qed.

(** Two steps of one value with the same token are the same step. *)
Lemma step_token_inj j s s2 c c2 : child s j = Some c → child s2 j = Some c2 →
  step_token s = step_token s2 → s = s2.
Proof.
  destruct j; intros H1 H2; try (by destruct s).
  - apply child_object_inv in H1 as (? & -> & _), H2 as (? & -> & _). simpl. by intros ->.
  - apply child_array_inv in H1 as (? & -> & _), H2 as (? & -> & _). simpl.
    by intros ->%index_inj.
Qed.

Lemma tokens_leaf_inj p q j v w : leaf p j v → leaf q j w → tokens p = tokens q → p = q.
Proof.
  revert q j. induction p as [|s p IH]; intros [|s2 q] j; csimpl; try done.
  rewrite !leaf_cons. intros (c & Hc & Hp) (c2 & Hc2 & Hq) [= Hs Ht].
  assert (s = s2) as <- by (by eapply step_token_inj). simplify_eq. f_equal. eauto.
Qed.

(** ** The members of a flattened value *)

Section loops.
Variable path : list Z.

Fixpoint flatten_elements (i : Z) (a : list json) (res : list (list Z * json)) :=
  match a with
  | [] => res
  | v :: a => flatten_elements (i + 1) a (flatten_into (path ++ lit "/" ++ to_string i) v res)
  end.

Fixpoint flatten_object (o : list (list Z * json)) (res : list (list Z * json)) :=
  match o with
  | [] => res
  | kv :: o => flatten_object o (flatten_into (path ++ lit "/" ++ escape kv.1) kv.2 res)
  end.
End loops.

Lemma flatten_into_array path a res : a ≠ [] →
  flatten_into path (JArray a) res = flatten_elements path 0 a res.
Proof. by destruct a. Qed.

Lemma flatten_into_object path o res : o ≠ [] →
  flatten_into path (JObject o) res = flatten_object path o res.
Proof. by destruct o. Qed.

(** [m] is [res] with the leaves given by [L] added. *)
Definition adds (L : list Z → json → Prop) (res m : list (list Z * json)) : Prop :=
  omap_sorted m ∧ (∀ key w, L key w → omap_find key m = Some w) ∧
  (∀ key, (∀ w, ¬ L key w) → omap_find key m = omap_find key res) ∧
  (∀ key w, omap_find key m = Some w → L key w ∨ omap_find key res = Some w).

Definition leaves_at (p : list pstep) (v : json) (key : list Z) (w : json) : Prop :=
  ∃ q, key = location_text (p ++ q) ∧ leaf q v w.

Definition flattens (v : json) : Prop := ∀ p res, omap_sorted res →
  adds (leaves_at p v) res (flatten_into (location_text p) v res).

(** Two disjoint groups of leaves, one after the other. *)
Lemma adds_trans (L1 L2 L : list Z → json → Prop) res m1 m2 :
  adds L1 res m1 → adds L2 m1 m2 →
  (∀ key w w2, L1 key w → ¬ L2 key w2) → (∀ key w, L key w ↔ L1 key w ∨ L2 key w) →
  adds L res m2.
Proof.
  intros (_ & H1 & H1' & H1i) (H2s & H2 & H2' & H2i) Hd HL. split; [done|]. split; [|split].
  - intros key w [Hk|Hk]%HL; [|by apply H2]. rewrite H2' by (intros w2; by eapply Hd). by apply H1.
  - intros key Hk. rewrite H2', H1'; [done|..]; intros w Hw; apply (Hk w), HL; auto.
  - intros key w Hk. rewrite HL. destruct (H2i _ _ Hk) as [?|Hk1]; [auto|]. destruct (H1i _ _ Hk1); auto.
Qed.

Lemma location_text_step p s s2 q q2 : location_text (p ++ s :: q) = location_text (p ++ s2 :: q2) →
  step_token s = step_token s2.
Proof.
  intros H%location_text_inj. rewrite !fmap_app in H. apply app_inv_head in H. csimpl in H.
  by simplify_eq.
Qed.

Lemma leaves_at_step p s v key w :
  leaves_at (p ++ [s]) v key w ↔ ∃ q, key = location_text (p ++ s :: q) ∧ leaf q v w.
Proof. unfold leaves_at. by setoid_rewrite <-app_cons_snoc. Qed.

Lemma flatten_elements_adds p a : Forall flattens a → ∀ i res, omap_sorted res →
  adds (λ key w, ∃ n x, a !! n = Some x ∧ leaves_at (p ++ [SIdx (i + n)]) x key w) res
       (flatten_elements (location_text p) (Z.of_nat i) a res).
Proof.
  induction 1 as [|x a Hx _ IH]; intros i res Hr; cbn [flatten_elements].
  - split; [done|]. split; [|by auto]. intros key w (n & x & Hn & _). by rewrite lookup_nil in Hn.
  - replace (Z.of_nat i + 1) with (Z.of_nat (S i)) by lia.
    replace (location_text p ++ lit "/" ++ to_string (Z.of_nat i)) with (location_text (p ++ [SIdx i]))
      by (rewrite location_text_snoc; simpl; by rewrite escape_index).
    pose proof (Hx (p ++ [SIdx i]) res Hr) as H1.
    eapply adds_trans; [apply H1|apply IH, H1|..].
    + intros key w w2 (q & -> & _)%leaves_at_step (n & y & _ & (q2 & E & _)%leaves_at_step).
      apply location_text_step, index_inj in E. lia.
    + intros key w. split.
      * intros ([|n] & y & Hn & Hl); simplify_eq/=.
        -- left. by rewrite Nat.add_0_r in Hl.
        -- right. exists n, y. split; [done|]. by rewrite Nat.add_succ_r in Hl.
      * intros [Hl|(n & y & Hn & Hl)].
        -- exists 0%nat, x. by rewrite Nat.add_0_r.
        -- exists (S n), y. by rewrite Nat.add_succ_r.
Qed.

Lemma flatten_object_adds p o : Forall (λ kv, flattens kv.2) o → omap_sorted o →
  ∀ res, omap_sorted res →
  adds (λ key w, ∃ k x, (k, x) ∈ o ∧ leaves_at (p ++ [SKey k]) x key w) res
       (flatten_object (location_text p) o res).
Proof.
  intros Ho Hs. induction Hs as [|[k x] o Hs IH Hall]; intros res Hr; cbn [flatten_object fst snd].
  - split; [done|]. split; [|by auto]. intros key w (k & x & Hk & _). by apply elem_of_nil in Hk.
  - apply Forall_cons in Ho as [Hx Ho].
    replace (location_text p ++ lit "/" ++ escape k) with (location_text (p ++ [SKey k]))
      by (by rewrite location_text_snoc).
    pose proof (Hx (p ++ [SKey k]) res Hr) as H1.
    eapply adds_trans; [apply H1|apply (IH Ho), H1|..].
    + intros key w w2 (q & -> & _)%leaves_at_step (k2 & y & Hy & (q2 & E & _)%leaves_at_step).
      apply location_text_step in E. simpl in E. subst k2. rewrite Forall_forall in Hall.
      apply Hall in Hy. unfold key_lt in Hy. simpl in Hy. by rewrite string_compare_refl in Hy.
    + intros key w. setoid_rewrite elem_of_cons. naive_solver.
Qed.

Lemma adds_iff (L L' : list Z → json → Prop) res m :
  (∀ key w, L key w ↔ L' key w) → adds L' res m → adds L res m.
Proof.
  intros HL (H1 & H2 & H3 & H4). split; [done|].
  split; [intros key w; rewrite HL; apply H2|].
  split; [|intros key w; rewrite HL; apply H4].
  intros key Hk. apply H3. intros w. rewrite <-HL. apply Hk.
Qed.

Lemma leaves_at_object p o key w : omap_sorted o →
  leaves_at p (JObject o) key w ↔ ∃ k x, (k, x) ∈ o ∧ leaves_at (p ++ [SKey k]) x key w.
Proof.
  intros Hs. setoid_rewrite leaves_at_step. split.
  - intros ([|s q] & -> & Hq); [by destruct Hq as [[= <-] ?]|].
    apply leaf_cons in Hq as (c & (k & -> & Hc%omap_find_Some)%child_object_inv & Hq). eauto 6.
  - intros (k & x & Hx & q & -> & Hq). exists (SKey k :: q). split; [done|].
    apply leaf_cons. exists x. split; [|done]. by apply omap_find_elem.
Qed.

Lemma leaves_at_array p a key w : Z.of_nat (length a) ≤ 2 ^ 31 →
  leaves_at p (JArray a) key w ↔ ∃ n x, a !! n = Some x ∧ leaves_at (p ++ [SIdx n]) x key w.
Proof.
  intros Hl. setoid_rewrite leaves_at_step. split.
  - intros ([|s q] & -> & Hq); [by destruct Hq as [[= <-] ?]|].
    apply leaf_cons in Hq as (c & (n & -> & _ & Hc)%child_array_inv & Hq). eauto 6.
  - intros (n & x & Hx & q & -> & Hq). exists (SIdx n :: q). split; [done|].
    apply leaf_cons. exists x. split; [|done]. by apply child_array.
Qed.

Lemma flatten_primitive_adds p w res : is_primitive w = true → omap_sorted res →
  adds (leaves_at p w) res (omap_assign (location_text p) w res).
Proof.
  intros Hw Hr. split; [by apply omap_assign_sorted|]. split; [|split].
  - intros key w' (q & -> & Hl). apply leaf_prim in Hl as [-> ->]; [|done].
    by rewrite app_nil_r, omap_find_assign, bool_decide_true.
  - intros key Hk. rewrite omap_find_assign, bool_decide_false; [done| |done]. intros ->.
    apply (Hk w). exists []. by rewrite app_nil_r.
  - intros key w'. rewrite omap_find_assign by done. case_bool_decide; [|auto].
    intros [= <-]. subst. left. exists []. by rewrite app_nil_r.
Qed.

Lemma flatten_adds v : flattenable v → json_typed v → flattens v.
Proof.
  induction v as [|o IH|a IH|s|b|z|z|f|] using json_induction;
    try (intros _ _ p res Hr; by apply flatten_primitive_adds); [..|done].
  - rewrite flattenable_object, json_typed_object. intros (Hne & _ & Hf) (Hs & _ & Ht) p res Hr.
    rewrite flatten_into_object by done. rewrite Forall_forall in IH, Hf, Ht.
    eapply adds_iff; [intros; by apply leaves_at_object|].
    apply flatten_object_adds; [|done..]. apply Forall_forall. auto.
  - rewrite flattenable_array, json_typed_array. intros (Hne & Hl & Hf) Ht p res Hr.
    rewrite flatten_into_array by done. rewrite Forall_forall in IH, Hf, Ht.
    eapply adds_iff; [intros; by apply leaves_at_array|].
    apply (flatten_elements_adds p a) with (i := 0%nat); [|done]. apply Forall_forall. auto.
Qed.

(** ** Partial values *)

Inductive part : json → json → Prop :=
  | part_null j : part j JNull
  | part_leaf j : is_primitive j = true → part j j
  | part_array a d : (length d ≤ length a)%nat →
      (∀ i x y, a !! i = Some x → d !! i = Some y → part x y) → part (JArray a) (JArray d)
  | part_object o d : omap_sorted d →
      (∀ k y, omap_find k d = Some y → ∃ x, omap_find k o = Some x ∧ part x y) →
      part (JObject o) (JObject d).

(** What is missing from a partial value counts as null. *)
Lemma part_array_fill a d n : (n ≤ length a)%nat →
  part (JArray a) (JArray d) →
  part (JArray a) (JArray (d ++ replicate (n - length d) JNull)).
Proof.
  intros Hn H. inversion H as [|j Hj|? ? Hl Hd|]; simplify_eq/=. constructor.
  - rewrite length_app, length_replicate. lia.
  - intros i x y Hx [Hy|[_ Hy]]%lookup_app_Some; [eauto|].
    apply lookup_replicate in Hy as [-> _]. constructor.
Qed.

Lemma part_array_insert a d i x y : part (JArray a) (JArray d) → a !! i = Some x → part x y →
  part (JArray a) (JArray (<[i := y]> d)).
Proof.
  intros H Hx Hy. inversion H as [|j Hj|? ? Hl Hd|]; simplify_eq/=. constructor.
  - by rewrite length_insert.
  - intros i2 x2 y2 H2 [(-> & -> & _)|[_ H3]]%list_lookup_insert_Some; [by simplify_eq|eauto].
Qed.

Lemma part_object_assign o d k x y : part (JObject o) (JObject d) → omap_find k o = Some x →
  part x y → part (JObject o) (JObject (omap_assign k y d)).
Proof.
  intros H Hx Hy. inversion H as [|j Hj| |? ? Hs Hd]; simplify_eq/=. constructor.
  - by apply omap_assign_sorted.
  - intros k2 y2. rewrite omap_find_assign by done. case_bool_decide; [|apply Hd].
    intros [= <-]. subst. eauto.
Qed.

(** All the leaves of [j] are in [d]. *)
Definition has_leaves (j d : json) : Prop := ∀ p w, leaf p j w → locate p d = Some w.

Lemma has_leaves_child s j d c : has_leaves j d → child s j = Some c → flattenable c →
  ∃ e, child s d = Some e ∧ has_leaves c e.
Proof.
  intros Hl Hc (p & w & Hw)%flattenable_leaf.
  assert (∀ q v, leaf q c v → locate (s :: q) d = Some v) as H.
  { intros q v Hq. apply Hl, leaf_cons. eauto. }
  pose proof (H p w Hw) as H1. simpl in H1. destruct (child s d) as [e|] eqn:E; [|done].
  exists e. split; [done|]. intros q v Hq. apply H in Hq. simpl in Hq. by rewrite E in Hq.
Qed.

(** A partial value that has all the leaves is the value. *)
Definition completes (j : json) : Prop := ∀ d, part j d → has_leaves j d → d = j.

Lemma object_completes o : omap_sorted o → o ≠ [] →
  Forall (λ kv, flattenable kv.2 ∧ completes kv.2) o → completes (JObject o).
Proof.
  intros Hs Hne Ho d Hp Hl. rewrite Forall_forall in Ho.
  assert (∀ k x, omap_find k o = Some x → ∃ e, child (SKey k) d = Some e ∧ has_leaves x e) as Hch.
  { intros k x Hx. eapply has_leaves_child; [done|done|].
    apply omap_find_Some in Hx. by apply (Ho _ Hx). }
  inversion Hp as [j Hj|j Hj| |? d' Hs' Hm]; subst; [|done|].
  { destruct o as [|[k x] o]; [done|]. destruct (Hch k x) as (e & He & _); [|done].
    simpl. by rewrite string_compare_refl. }
  assert (Forall2 (λ p q, p.1 = q.1 ∧ p.2 = q.2) d' o) as H2; cycle 1.
  { f_equal. clear - H2. induction H2 as [|[??] [??] ? ? [??]]; by simplify_eq/=. }
  apply omap_related; [done..|]. intros k. destruct (omap_find k o) as [x|] eqn:Ex.
  - destruct (Hch _ _ Ex) as (e & He & Hle). simpl in He. rewrite He. constructor.
    destruct (Hm _ _ He) as (x' & Hx' & Hpx). simplify_eq. apply omap_find_Some in Ex.
    by apply (Ho _ Ex).
  - destruct (omap_find k d') as [y|] eqn:Ey; [|constructor].
    destruct (Hm _ _ Ey) as (? & ? & ?). by simplify_eq.
Qed.

Lemma array_completes a : Z.of_nat (length a) ≤ 2 ^ 31 → a ≠ [] →
  Forall (λ v, flattenable v ∧ completes v) a → completes (JArray a).
Proof.
  intros Hlen Hne Ha d Hp Hl. rewrite Forall_lookup in Ha.
  assert (∀ i x, a !! i = Some x → ∃ e, child (SIdx i) d = Some e ∧ has_leaves x e) as Hch.
  { intros i x Hx. eapply has_leaves_child; [done|by apply child_array|by apply (Ha i)]. }
  inversion Hp as [j Hj|j Hj|? d' Hs' Hm|]; subst; [|done|].
  { destruct a as [|x a]; [done|]. by destruct (Hch 0%nat x) as (e & He & _). }
  f_equal. apply list_eq. intros i. destruct (a !! i) as [x|] eqn:Ex.
  - destruct (Hch _ _ Ex) as (e & He & Hle). apply child_array_inv in He as (? & [= <-] & _ & He).
    rewrite He. f_equal. apply (Ha _ _ Ex); [by eapply Hm|done].
  - apply lookup_ge_None in Ex. apply lookup_ge_None. lia.
Qed.

Lemma part_complete j : flattenable j → json_typed j → completes j.
Proof.
  induction j as [|o IH|a IH|s|b|z|z|f|] using json_induction;
    try (intros _ _ d _ Hl; specialize (Hl [] _ (conj eq_refl eq_refl)); by simplify_eq/=); [..|done].
  - rewrite flattenable_object, json_typed_object. intros (Hne & _ & Hf) (Hs & _ & Ht).
    apply object_completes; [done..|]. rewrite Forall_forall in *. naive_solver.
  - rewrite flattenable_array, json_typed_array. intros (Hne & Hlen & Hf) Ht.
    apply array_completes; [done..|]. rewrite Forall_forall in *. naive_solver.
Qed.

(** ** One step of [unflatten] *)

(** An array is entered at its first element. *)
Definition zero_first (p : list pstep) (d : json) : Prop :=
  ∀ q i r, p = q ++ SIdx (S i) :: r → is_Some (locate (q ++ [SIdx 0]) d).

Lemma zero_first_child s p d : zero_first (s :: p) d → zero_first p (default JNull (child s d)).
Proof.
  intros H q i r ->. specialize (H (s :: q) i r eq_refl). simpl in H.
  destruct (child s d); simpl; [done|]. by destruct H.
Qed.

Lemma index_nat {A} (use : ref_use A) i d : Z.of_nat i < 2 ^ 31 →
  index use (Z.of_nat i) (JArray d) =
    '(x, v) ← use (default JNull (d !! i));
    mret (x, JArray (<[i := v]> (d ++ replicate (S i - length d) JNull))).
Proof.
  intros Hi. unfold index, vector_max_size.
  replace (if Z.of_nat (length d) <=? Z.of_nat i
           then uwrap 64 (Z.of_nat i - Z.of_nat (length d) + 1) else 0)
    with (Z.of_nat (S i - length d)) by (case_if; [rewrite uwrap_small by (unfold in_u; lia)|]; lia).
  rewrite (proj2 (andb_false_iff _ _)) 
    by (rewrite Z.leb_gt, Z.ltb_ge; lia).
  rewrite !Nat2Z.id.
  destruct (d !! i) as [v|] eqn:E; [by rewrite (lookup_app_l_Some _ _ _ _ E)|].
  apply lookup_ge_None in E. rewrite lookup_app_r, lookup_replicate_2 by lia. done.
Qed.

(** What storing the leaf [v] at [p] in the partial value [d] has to do. *)
Definition stores (p : list pstep) (j d v d' : json) : Prop :=
  part j d' ∧ locate p d' = Some v ∧
  ∀ p2 w, leaf p2 j w → locate p2 d = Some w → locate p2 d' = Some w.

Lemma stores_key k p o d x v e : omap_find k o = Some x → part (JObject o) (JObject d) →
  stores p x (default JNull (omap_find k d)) v e →
  stores (SKey k :: p) (JObject o) (JObject d) v (JObject (omap_assign k e d)).
Proof.
  intros Hx Hp (H1 & H2 & H3). inversion Hp as [|j Hj| |? ? Hs Hm]; subst; [done|].
  split; [by eapply part_object_assign|]. split.
  - simpl. rewrite omap_find_assign, bool_decide_true by done. done.
  - intros [|s p2] w Hl; [by destruct Hl as [[= <-] ?]|].
    apply leaf_cons in Hl as (c & (k2 & -> & Hc)%child_object_inv & Hl). simpl.
    rewrite omap_find_assign by done. case_bool_decide as Hk; [subst; simplify_eq|done].
    destruct (omap_find k d); simpl in *; [by apply H3|done].
Qed.

Lemma stores_index i p a d x v e : Z.of_nat (length a) ≤ 2 ^ 31 → a !! i = Some x →
  part (JArray a) (JArray d) → stores p x (default JNull (d !! i)) v e →
  stores (SIdx i :: p) (JArray a) (JArray d) v
    (JArray (<[i := e]> (d ++ replicate (S i - length d) JNull))).
Proof.
  intros Hl Hx Hp (H1 & H2 & H3). apply lookup_lt_Some in Hx as Hi.
  split; [eapply part_array_insert; [by apply part_array_fill|done..]|]. split.
  - simpl. ztests. rewrite list_lookup_insert_eq; [done|]. rewrite length_app, length_replicate. lia.
  - intros [|s p2] w Hw; [by destruct Hw as [[= <-] ?]|].
    apply leaf_cons in Hw as (c & (i2 & -> & Hi2 & Hc)%child_array_inv & Hw). simpl. ztests.
    destruct (d !! i2) as [y|] eqn:Ey; simpl; [|done]. intros Hy.
    destruct (decide (i2 = i)) as [->|Hne].
    + rewrite list_lookup_insert_eq by (rewrite length_app, length_replicate; lia).
      simplify_eq. rewrite Ey in H3. by apply H3.
    + rewrite list_lookup_insert_ne by done. by rewrite (lookup_app_l_Some _ _ _ _ Ey).
Qed.

(** [get_and_create] treats a null value as an empty container. *)
Definition object_view (d : json) (m : list (list Z * json)) : Prop :=
  d = JObject m ∨ d = JNull ∧ m = [].

Definition array_view (d : json) (m : list json) : Prop := d = JArray m ∨ d = JNull ∧ m = [].

Lemma part_object_view o d : part (JObject o) d →
  ∃ m, object_view d m ∧ part (JObject o) (JObject m) ∧
       ∀ k x, omap_find k o = Some x → part x (default JNull (omap_find k m)).
Proof.
  unfold object_view. inversion 1 as [|j Hj| |? m Hs Hm]; subst; [|done|].
  - exists []. split; [auto|]. split; [constructor; [constructor|done]|]. intros. constructor.
  - exists m. split; [auto|]. split; [done|]. intros k x Hx.
    destruct (omap_find k m) as [y|] eqn:Ey; [|constructor].
    destruct (Hm _ _ Ey) as (? & ? & ?). by simplify_eq.
Qed.

Lemma part_array_view a d : part (JArray a) d →
  ∃ m, array_view d m ∧ part (JArray a) (JArray m) ∧
       ∀ i x, a !! i = Some x → part x (default JNull (m !! i)).
Proof.
  unfold array_view. inversion 1 as [|j Hj|? m Hs Hm|]; subst; [|done|].
  - exists []. split; [auto|]. split; [constructor; simpl; [lia|done]|]. intros. constructor.
  - exists m. split; [auto|]. split; [done|]. intros i x Hx.
    destruct (m !! i) as [y|] eqn:Ey; [by eapply Hm|constructor].
Qed.

Lemma stores_null p j d v d' : is_primitive j = false → stores p j d v d' → stores p j JNull v d'.
Proof.
  intros Hj (H1 & H2 & _). split; [done|]. split; [done|]. intros [|s p2] w Hw.
  - intros [= <-]. by destruct Hw as [[= ->] _].
  - by destruct s.
Qed.

Lemma get_and_create_leaf p : ∀ j d v, leaf p j v → flattenable j → part j d → zero_first p d →
  ∃ d', get_and_create (tokens p) (assign v) d = Ok ((), d') ∧ stores p j d v d'.
Proof.
  induction p as [|s p IH]; intros j d v Hl Hf Hp Hz; csimpl.
  { destruct Hl as [[= ->] Hv]. exists v. split; [done|]. split; [by constructor|]. split; [done|].
    intros p2 w Hw _. by apply leaf_prim in Hw as [-> ->]. }
  apply leaf_cons in Hl as (x & Hx & Hl). apply zero_first_child in Hz as Hz'.
  destruct j as [|o|a| | | | | |]; try (by destruct s).
  - apply child_object_inv in Hx as (k & -> & Hx). apply flattenable_object in Hf as (_ & Hk & Hf).
    apply omap_find_Some in Hx as Hel. rewrite Forall_forall in Hk, Hf.
    specialize (Hk _ Hel). specialize (Hf _ Hel). cbn [step_token fst snd] in *.
    destruct (part_object_view o d Hp) as (m & Hd & Hm & Hc).
    destruct (IH x (default JNull (omap_find k m)) v) as (e & He & Hst);
      [done|done|by apply Hc|by destruct Hd as [->|[-> ->]]|].
    pose proof (stores_key k p o m x v e Hx Hm Hst) as H.
    exists (JObject (omap_assign k e m)).
    destruct Hd as [->|[-> ->]]; (split; [|by eauto using stores_null]);
      rewrite ?bool_decide_false by done; unfold index_key; by rewrite He.
  - apply child_array_inv in Hx as (i & -> & Hi & Hx).
    apply flattenable_array in Hf as (_ & Hlen & Hf). rewrite Forall_lookup in Hf.
    specialize (Hf _ _ Hx). cbn [step_token] in *.
    destruct (part_array_view a d Hp) as (m & Hd & Hm & Hc).
    destruct (IH x (default JNull (m !! i)) v) as (e & He & Hst); [done|done|by apply Hc| |].
    { destruct Hd as [->|[-> ->]]; [|done]. simpl in Hz'. by rewrite (proj2 (Z.ltb_lt _ _) Hi) in Hz'. }
    pose proof (stores_index i p a m x v e Hlen Hx Hm Hst) as H.
    eexists. split; [|destruct Hd as [->|[-> ->]]; [exact H|by eapply stores_null]].
    destruct Hd as [->|[-> ->]].
    + rewrite array_index_nat by done. cbn [mbind res_bind]. rewrite index_nat, He by done. done.
    + destruct i as [|i]; [|destruct (Hz [] i p) as [? [=]]; done].
      rewrite bool_decide_true by done. transitivity (index (get_and_create (tokens p) (assign v)) 0 (JArray []));
        [done|]. change 0 with (Z.of_nat 0). rewrite index_nat, He by done. done.
Qed.

(** ** The order of the visits *)

Lemma string_compare_app a b c : string_compare (a ++ b) (a ++ c) = string_compare b c.
Proof. induction a as [|x a IH]; simpl; [done|]. by rewrite Z.compare_refl. Qed.

(** The first element of an array comes before the others. *)
Lemma zero_before q i r r0 :
  string_compare (location_text (q ++ SIdx 0 :: r0)) (location_text (q ++ SIdx (S i) :: r)) = Lt.
Proof.
  unfold location_text. rewrite !pointer_string_text. unfold pointer_text. rewrite !fmap_app, !concat_app.
  rewrite string_compare_app. csimpl. rewrite escape_index, to_string_nat.
  destruct (digits_nat (S i)) as [[_ [E|(c & ds & E & Hc)]] Hv].
  - rewrite E in Hv. simpl in Hv. lia.
  - rewrite E. unfold is_digit1_9 in Hc. zbool. assert ((48 ?= c) = Lt) as Hlt by (by apply Z.compare_lt_iff; lia).
    simpl in Hlt |- *. by rewrite Hlt.
Qed.

Lemma locate_app p q j : locate (p ++ q) j = locate p j ≫= locate q.
Proof.
  revert j. induction p as [|s p IH]; intros j; simpl; [done|].
  destruct (child s j); simpl; [apply IH|done].
Qed.

(** An array with an element behind the first has a leaf in its first one. *)
Lemma locate_zero q i r j w : flattenable j → leaf (q ++ SIdx (S i) :: r) j w →
  ∃ r0 w0, leaf (q ++ SIdx 0 :: r0) j w0.
Proof.
  revert j. induction q as [|s q IH]; intros j Hf; simpl; rewrite leaf_cons; intros (c & Hc & Hl).
  - destruct j as [| |a| | | | | |]; try done. apply child_array_inv in Hc as (? & [= <-] & _ & Hc).
    apply flattenable_array in Hf as (_ & Hlen & Hf). destruct a as [|x a]; [done|].
    apply Forall_cons in Hf as [(p & w0 & Hp)%flattenable_leaf _].
    exists p, w0. apply leaf_cons. exists x. split; [by apply child_array|done].
  - assert (flattenable c) as Hfc.
    { destruct j as [|o|a| | | | | |]; try (by destruct s).
      - apply child_object_inv in Hc as (k & -> & Hc%omap_find_Some).
        apply flattenable_object in Hf as (_ & _ & Hf). rewrite Forall_forall in Hf. by apply (Hf _ Hc).
      - apply child_array_inv in Hc as (k & -> & _ & Hc).
        apply flattenable_array in Hf as (_ & _ & Hf). rewrite Forall_lookup in Hf. by apply (Hf _ _ Hc). }
    destruct (IH c Hfc Hl) as (r0 & w0 & H0). exists r0, w0. apply leaf_cons. eauto.
Qed.

(** What follows a member in the iteration order is not below it. *)
Lemma omap_sorted_after {V} (pre post : list (list Z * V)) kv kv2 :
  omap_sorted (pre ++ kv :: post) → kv2 ∈ kv :: post → string_compare kv2.1 kv.1 ≠ Lt.
Proof.
  intros Hs%StronglySorted_app_1_r. apply StronglySorted_inv in Hs as [_ Hall].
  intros [->|H]%elem_of_cons; [by rewrite string_compare_refl|].
  rewrite Forall_forall in Hall. apply Hall in H. unfold key_lt in H.
  by rewrite string_compare_antisym, H.
Qed.

(** Unflattening the rest [post] of the members, [pre] having been visited. *)
Lemma unflatten_visits j m : flattenable j → omap_sorted m →
  (∀ key w, omap_find key m = Some w ↔ leaves_at [] j key w) →
  ∀ post pre d, m = pre ++ post → part j d →
  (∀ p w, leaf p j w → (location_text p, w) ∈ pre → locate p d = Some w) →
  ∃ d', unflatten_members post d = Ok d' ∧ part j d' ∧ has_leaves j d'.
Proof.
  intros Hf Hs Hm. assert (∀ p w, leaf p j w → (location_text p, w) ∈ m) as Hin.
  { intros p w Hl. apply omap_find_Some, Hm. exists p. done. }
  induction post as [|[key w] post IH]; intros pre d -> Hp Hv; cbn [unflatten_members].
  - rewrite app_nil_r in *. exists d. split; [done|]. split; [done|]. intros p w Hl. auto.
  - assert (leaves_at [] j key w) as (p & -> & Hl).
    { apply Hm, omap_find_elem; [done|]. apply elem_of_app. right. by left. }
    simpl app in *. rewrite (proj2 Hl). cbn [negb]. unfold location_text at 1.
    rewrite split_pointer_string. cbn [mbind res_bind].
    destruct (get_and_create_leaf p j d w) as (d' & -> & Hp' & Hw & Hk); [done..| |].
    { intros q i r ->. destruct (locate_zero q i r j w) as (r0 & w0 & H0); [done..|].
      exists (default JNull (locate (q ++ [SIdx 0]) d)).
      pose proof (zero_before q i r r0) as Hlt. apply Hin in H0 as Hel.
      apply elem_of_app in Hel as [Hel|Hel].
      - pose proof (Hv _ _ H0 Hel) as Hd. rewrite app_cons_snoc, locate_app in Hd.
        by destruct (locate (q ++ [SIdx 0]) d).
      - exfalso. eapply omap_sorted_after in Hel; [|done]. by apply Hel. }
    cbn [mbind res_bind]. apply (IH (pre ++ [(location_text p, w)])); [by rewrite <-app_assoc|done|].
    intros p2 w2 Hl2 [H2|H2]%elem_of_app; [by apply Hk; auto|].
    apply list_elem_of_singleton in H2. simplify_eq.
    assert (p2 = p) as ->; [|done]. by eapply tokens_leaf_inj, location_text_inj.
Qed.

(** C11. [unflatten] undoes [flatten]: a value without empty containers, without a
    discarded part and without a member "0", whose array indices are [int]s, is
    restored exactly. *)
Theorem unflatten_flatten (j : json) :
  json_typed j → flattenable j → unflatten (flatten j) = Ok j.
Proof.
  intros Ht Hf. unfold unflatten, flatten.
  destruct (flatten_adds j Hf Ht [] []) as (Hs & H1 & _ & H2); [constructor|].
  change (location_text []) with (@nil Z) in *.
  destruct (unflatten_visits j (flatten_into [] j []) Hf Hs) with
    (post := flatten_into [] j []) (pre := @nil (list Z * json)) (d := JNull)
    as (d & -> & Hp & Hl); [|done|constructor|by intros ? ? _ ?%elem_of_nil|].
  - intros key w. split; [|by apply H1]. intros [?|?]%H2; done.
  - f_equal. by apply part_complete.
Qed.

Lemma unflatten_flatten_witness :
  let j := JObject [(lit "a/b", JArray [JUInt 1; JObject [(lit "~", JBool true)]]); (lit "c", JString [])] in
  unflatten (flatten j) = Ok j.
Proof.
  apply unflatten_flatten; cbn [json_typed flattenable length]; repeat (split || constructor); done.
Defined.
